(* ===== verification/_CoqProject ===== *)
-Q . S2P
Prelude.v
Numerals.v
Varint.v
StringUtils.v
URL.v
Errors.v
Format.v
Logger.v
LinkedList.v
Relation.v
Lifecycle.v
LifecycleLog.v
Scheduler.v
SchedulerRace.v
RunLoop.v
Timers.v
Background.v
EspLoop.v
Suspending.v
Cooperative.v
Generator.v
Select.v
Sync.v
Blocker.v
Task.v
Actor.v
Futures.v
FutureRace.v
Queue.v
Producer.v
PubSub.v
Connector.v
FutureImpl.v
IStream.v
UVStream.v
Files.v
Sockets.v
EspSocket.v
NWConnection.v
Tls.v
TlsContext.v
Framer.v
WsProtocol.v
WebSocket.v
HttpParser.v
HttpServer.v
HttpClient.v
Handshake.v
BlipMessage.v
BlipDump.v
BlipCodec.v
ZlibCodec.v
BlipIO.v
BlipTransport.v
BlipConnection.v
BlipStack.v
