(* ===== verification/Prelude.v ===== *)
(** Verification of Crouton, a C++20 library of coroutines and network protocols.

    * The program

    Crouton runs coroutines on one thread per event loop.  A [Scheduler] keeps a queue of those ready
    to run and a table of those suspended; a [Suspension] wakes one, from any thread.  Everything a
    coroutine can wait for is made of these: [CoCondition], [CoMutex], [Blocker], [Future],
    [Generator], [AsyncQueue], [Select], and on top of them [Task], [Actor] and the publishers and subscribers.  In
    debug builds a table of lifecycles follows each coroutine's state and who waits for whom.

    The I/O part is layered.  [IStream] is the abstract byte stream; libuv's streams, the sockets of the ESP32 and of
    Apple's systems and the TLS socket implement it.  [Framer], the HTTP parser, client and server, and [WebSocket] use it.  A WebSocket opens
    with an HTTP handshake and then exchanges frames.  BLIP sends messages over it: builders encode
    properties and a body, codecs compress and add checksums, [BLIPIO] cuts messages into frames and
    puts them together again with flow control, and [Connection] and [Dispatcher] move the frames and
    call the handlers of requests.  Under all of it are utilities: errors, varints, URLs, string
    functions, formatting, logging, intrusive lists and two-way relations.

    * How it is modelled

    Code is translated function by function, under the source's names, into the monad [ST] of this
    file: a state transformer whose [outcome] is a value ([Ret]), a C++ exception or an error result ([Raise]),
    or a [Fault]: a failed assertion, an access outside an object, or a loop that has used up
    its fuel.  A theorem that says that an operation returns excludes all three.  Bytes are [Z]s in [0,
    256), integers whose width matters are [Z]s with their wrap-around written out, and objects
    that are shared or linked live in a heap ([LinkedList], [Relation], [Futures]).  An [AWAIT] that the claim does not
    depend on is a call; where it does, a coroutine is cut at its awaits, and code that several threads run
    at its atomic accesses, and the theorem is about every interleaving.

    What one component promises to another is a type class, and the client is proved against its laws:
    - [Suspending] (suspend, transfer, wake) is what the scheduler promises; [Scheduler] and
      [Cooperative], the smallest scheduler, provide it; [Sync], [Blocker], [Futures], [Queue],
      [Select] and [Producer] use it;
    - [EventLoopI] is what the scheduler's main loop, [RunLoop], needs of an event loop; libuv's, in that file, and
      that of the ESP32, [EspLoop], provide it;
    - [IStream] is provided by [UVStream], [Files] and [EspSocket], and used by [Framer], [HttpParser],
      [HttpServer], [HttpClient], [WebSocket], [Handshake] and [Tls];
    - [ISeries] (the awaitable series) is provided by [Generator] and [FutureImpl], and used by [PubSub];
    - [Flate], the part of a codec that compresses, is provided by [BlipCodec] and [ZlibCodec].

    * The files

    Utilities
    - [Prelude]: this file; data, the monad, its tactics, generic lemmas.
    - [Numerals]: numbers to text and back as the C++ library does it.
    - [Varint]: [support/Varint.cc].  Reading what [put] wrote gives it back; how many bytes it writes.
    - [StringUtils], [URL]: [support/StringUtils], [io/URL.cc].  Re-encoding a parsed URL and
      escaping are undone by parsing and unescaping.
    - [Errors]: [Error.cc], [Error.hh], [Result.hh].  An error gives back its domain and code.
    - [Format]: [MiniFormat].  Rendering a format string is rendering its pieces; the parsing of
      specifications; the digits of integers.
    - [Logger]: [MiniLogger.cc], [Logging.cc].  Which level each logger takes from the environment string.
    - [LinkedList], [Relation]: [util/LinkedList.hh], [util/Relation.hh].  Lists of linked objects implement sequences,
      and the two sides of a relation agree after every operation.

    Coroutines
    - [Lifecycle], [LifecycleLog]: [CoroLifecycle.cc].  The pointers of the table form a stack, which every operation respects; the lists
      of coroutines that are logged end, and are complete.
    - [Scheduler], [SchedulerRace]: [Scheduler.cc].  The scheduler implements a specification by a queue and two
      sets, first in first out; no coroutine waits for ever; no wake-up is lost in any interleaving.
    - [RunLoop], [Timers]: [runUntil] of [Scheduler.cc], and [io/uv/UVBase.cc].  The main loop never waits while a coroutine is
      ready, in any interleaving with wake-ups and callbacks; a timer's function is called once, when it is due.
    - [Background]: [perform] and [OnBackgroundThread] of [io/uv/UVBase.cc].  Each function is called once, in any interleaving.
    - [EspLoop]: [io/esp32/ESPEventLoop.cc].  Events are handled in the order they were posted; what a full queue and the timers do.
    - [Suspending], [Cooperative]: the interface above and its smallest implementation.
    - [Sync], [Blocker]: [CoCondition.cc], [Coroutine.cc].  The mutex implements a lock with a queue; a [Blocker] delivers in every
      interleaving.
    - [Futures], [FutureRace], [FutureImpl]: [Future.cc], [Future.hh].  Chains of futures resolve, each
      is used once, the race of setting and awaiting always delivers, coroutines give their results.
    - [Generator], [Select]: [Generator.hh], [Select.cc].  A generator gives its series in order; [Select] implements
      the choice of a ready source.
    - [Task], [Actor]: [Task.cc], [Actor.hh].  The life of a task; an actor's methods run one at a time in
      order, under every sequence of events.
    - [Queue]: [Queue.hh].  Items come out in order, none lost; a closing queue drains and then ends.
    - [Producer], [PubSub], [Connector]: [Producer.hh], [PubSub.hh].  Series pass through subscribers and connectors whole and in
      order, whatever order the tasks run in.

    I/O
    - [IStream], [UVStream]: [io/IStream.cc], [io/uv/Stream.cc].  The reading functions over any stream, and that
      libuv's stream is one.
    - [Files]: [io/uv/FileStream.cc], [io/uv/Filesystem.cc].  Files are streams too, which are read whole; what is written
      at a place is read there; directories are listed whole.
    - [Sockets]: [io/uv/AddrInfo.cc], [TCPSocket.cc], [TCPServer.cc], [LocalSocket.cc], [Pipe.cc], [io/Process.cc].  Which address is
      connected to, which clients are accepted, what a failed request does; command-line arguments.
    - [EspSocket]: [io/esp32/ESPTCPSocket.cc], [ESPAddrInfo.cc].  The socket over lwIP is a stream.
    - [NWConnection]: [io/apple/NWConnection.cc].  What Network.framework receives is read whole; opening and closing.
    - [Tls], [TlsContext]: [io/mbed/TLSSocket.cc], [TLSContext.hh].  A session gives mbedTLS all of what is written and reads the
      plaintext in order; which certificates are trusted, and which messages logged.
    - [Framer]: [io/Framer.cc].  What is received is what was sent.
    - [WsProtocol], [WebSocket], [Handshake]: [io/WebSocketProtocol.hh], [io/WebSocket.cc].  Framing and parsing are inverse however the
      bytes arrive; UTF-8 validation is exact; malformed frames are refused; sessions; the
      opening handshake of client and server.
    - [HttpParser], [HttpServer], [HttpClient]: [io/HTTPParser.cc], [io/HTTPHandler.cc], [io/HTTPConnection.cc].  Messages
      are read as sent; the server's answer; the client's request and the response as a stream.
    - [BlipMessage], [BlipDump], [BlipCodec], [ZlibCodec], [BlipIO], [BlipTransport], [BlipConnection]: [io/blip].  Encoding is undone by
      decoding; codecs lose nothing; whatever interleaving and acknowledgements, the other side
      gets exactly the messages sent, and each is given to its handler.
    - [BlipStack]: the layers together.  Requests sent on a BLIP connection come to their handlers over its WebSocket and any stream.

    Where the code does not do what it means to, a theorem shows it: a lost wake-up, an overflow, an
    assertion that fails; they are at the end of the file or next to the operation they are about.

    * Fuel

    Loops over data are structural.  Those whose end depends on a stream, a generator or a parser take
    fuel.  Theorems about them say that there is an amount from which on the result is the
    stated one ([eventually]), or give the amount: the number of items and one more, for instance.  Fuel
    that runs out is [Fault NoFuel], never a result.

    * Parameters

    Code outside the sources is an argument, with what its documentation says as laws of a class
    where something depends on it: llhttp, libuv, lwIP and Network.framework (the callbacks they still make), FreeRTOS, miniz, zlib, mbedTLS
    (sessions, certificates, base 64, SHA-1), the files and directories of the system, [std::regex], [std::to_chars] of floating-point numbers, the order in which an
    [unordered_map] is iterated, and random bytes.  The main theorems that use such laws are applied to
    a concrete instance, each in the lemma named after it, [_witness].

    * Not modelled

    - [OnBackgroundThread] of the ESP32, and the set-up of libuv's loop: calls of the platform.
    - [Future::wait], which runs the main loop from inside a call, and [Scheduler::assertEmpty], which tests use.
    - The certificates of macOS and Windows, and the texts of errors of mbedTLS, lwIP and Network.framework: calls of the platform.
    - [CollectorFn] and [Timeout] of [PubSub.hh] and the move constructor of [ToMany], which do not compile when they are
      used.
    - Generators that await something else between their yields.
    - The header of log lines, spdlog, stack traces, assertion messages, [bufstream]: output only.

    The proofs about the BLIP transport are for requests that are not compressed; [BlipCodec] has the
    codecs by themselves. *)

From stdpp Require Export base tactics option list numbers gmap strings.
From Stdlib Require Export ZArith Lia.

(** * Machine data

    A byte is a [Z] in [0, 256); buffers, [std::string]s and [string_view]s are
    lists of bytes.  Sizes and positions are [nat]; integers whose width
    matters are [Z]s with the wrap-around written out. *)

Abbreviation bytes := (list Z).

Definition is_byte (b : Z) : Prop := (0 <= b < 256)%Z.

Definition u8 (x : Z) : Z := Z.land x (Z.ones 8).
Definition u16 (x : Z) : Z := Z.land x (Z.ones 16).
Definition u32 (x : Z) : Z := Z.land x (Z.ones 32).
Definition u64 (x : Z) : Z := Z.land x (Z.ones 64).

(** [char] is signed on the platforms of the project. *)
Definition schar (b : Z) : Z := if (b <? 128)%Z then b else (b - 256)%Z.

(** A string literal as its bytes. *)
Fixpoint lit (s : string) : bytes :=
  match s with
  | EmptyString => []
  | String c s' => Z.of_N (Ascii.N_of_ascii c) :: lit s'
  end.
Arguments lit _%_string : simpl never.

(** * Outcomes

    A C++ function returns, throws, or stops the process: [precondition] and
    [assert] call [abort], and an access outside a buffer is undefined.  A loop
    translated with fuel that ran out of it is [Fault NoFuel]. *)

Inductive CroutonError :=
| Cancelled | EmptyResult | InvalidArgument | InvalidState | InvalidURL
| LogicError | ParseError | Timeout | UnexpectedEOF | Unimplemented
| Disconnected | NotFound.

Inductive BlipProtocolError :=
| InvalidFrame | PropertiesTooLarge | CompressionError | BadChecksum.

(** An [Error] that is not [noerror], by its domain; numeric codes where the
    domain's enum is open. *)
Inductive error :=
| ECrouton (e : CroutonError)
| EWebSocket (code : Z)
| EBlip (e : BlipProtocolError)
| EBlipApp (code : Z)
| EHttp (status : Z)
| ECpp (code : Z)
| EUV (code : Z)
| EMbed (code : Z)
| ELwip (code : Z)
| EEsp (code : Z)
| EPosix (code : Z)
| EDns (code : Z)
| EAppleTLS (code : Z).

#[export] Instance CroutonError_eq_dec : EqDecision CroutonError.
Proof. solve_decision. Defined.
#[export] Instance BlipProtocolError_eq_dec : EqDecision BlipProtocolError.
Proof. solve_decision. Defined.
#[export] Instance error_eq_dec : EqDecision error.
Proof. solve_decision. Defined.

Inductive fault := AssertFailed | OutOfBounds | NoFuel.

Inductive outcome (A : Type) :=
| Ret (a : A)
| Raise (e : error)
| Fault (f : fault).
Arguments Ret {_} _.
Arguments Raise {_} _.
Arguments Fault {_} _.

#[export] Instance outcome_ret : MRet outcome := @Ret.
#[export] Instance outcome_bind : MBind outcome := fun A B f m =>
  match m with
  | Ret a => f a
  | Raise e => Raise e
  | Fault w => Fault w
  end.

(** [precondition(c)] / [assert(c)]. *)
Definition precondition (c : bool) : outcome unit :=
  if c then Ret tt else Fault AssertFailed.

Lemma outcome_bind_ret {A B} (f : A -> outcome B) (m : outcome A) (b : B) :
  (m ≫= f) = Ret b <-> exists a, m = Ret a /\ f a = Ret b.
Proof. destruct m; cbn; (split; [intros ?|intros (? & ? & ?)]); simplify_eq; eauto. Qed.

(** * State

    Code that updates objects in place: a function from the state to an outcome
    with the new state.  Nothing is rolled back on an exception, but no caller
    here looks at the state after one, so [Raise] does not carry it. *)

Definition ST (S A : Type) : Type := S -> outcome (A * S).

#[export] Instance ST_ret {S} : MRet (ST S) := fun A a s => Ret (a, s).
#[export] Instance ST_bind {S} : MBind (ST S) := fun A B f m s =>
  match m s with
  | Ret (a, s') => f a s'
  | Raise e => Raise e
  | Fault w => Fault w
  end.

Definition get {S} : ST S S := fun s => Ret (s, s).
Definition gets {S A} (f : S -> A) : ST S A := fun s => Ret (f s, s).
Definition store {S} (s : S) : ST S unit := fun _ => Ret (tt, s).
Definition modify {S} (f : S -> S) : ST S unit := fun s => Ret (tt, f s).
Definition throw {S A} (e : error) : ST S A := fun _ => Raise e.
Definition crash {S A} (w : fault) : ST S A := fun _ => Fault w.
Definition when {S} (c : bool) (m : ST S unit) : ST S unit := if c then m else mret tt.

(** Code that does not touch the state. *)
Definition lift {S A} (o : outcome A) : ST S A := fun s =>
  match o with
  | Ret a => Ret (a, s)
  | Raise e => Raise e
  | Fault w => Fault w
  end.

(** [assert(c)] in stateful code. *)
Definition assert {S} (c : bool) : ST S unit := fun s =>
  if c then Ret (tt, s) else Fault AssertFailed.

(** Run code that sees only a part of the state. *)
Definition zoom {S T A} (getT : S -> T) (setT : T -> S -> S) (m : ST T A) : ST S A := fun s =>
  match m (getT s) with
  | Ret (a, t) => Ret (a, setT t s)
  | Raise e => Raise e
  | Fault w => Fault w
  end.

Section ST_inv.
Context {S : Type}.

Lemma st_bind_ret {A B} (f : A -> ST S B) (m : ST S A) s b s'' :
  (m ≫= f) s = Ret (b, s'') -> exists a s', m s = Ret (a, s') /\ f a s' = Ret (b, s'').
Proof. unfold mbind, ST_bind. destruct (m s) as [[a s']| |]; [eauto|done|done]. Qed.

Lemma st_ret_inv {A} (a b : A) (s s' : S) : (mret a : ST S A) s = Ret (b, s') -> a = b /\ s = s'.
Proof. now intros [= -> ->]. Qed.

Lemma assert_inv c (s s' : S) u : assert c s = Ret (u, s') -> c = true /\ s = s'.
Proof. unfold assert. destruct c; now intros [= <- <-]. Qed.

Lemma when_inv c (m : ST S unit) s s' u :
  when c m s = Ret (u, s') -> c = true /\ m s = Ret (u, s') \/ c = false /\ s = s'.
Proof. unfold when. destruct c; [auto|]. intros [= <-]. auto. Qed.

Lemma zoom_inv {T A} g st (m : ST T A) (s s' : S) a :
  zoom g st m s = Ret (a, s') -> exists t, m (g s) = Ret (a, t) /\ s' = st t s.
Proof. unfold zoom. destruct (m (g s)) as [[? t]| |]; intros [= <- <-]; eauto. Qed.

End ST_inv.

(** * Tactics *)

(** Take apart a run [H : m s = Ret (a, s')] of sequenced code. *)
Ltac minv H :=
  lazymatch type of H with
  | (_ ≫= _) _ = Ret _ =>
      let a := fresh "a" in let s := fresh "s" in let H1 := fresh "H" in
      apply st_bind_ret in H as (a & s & H1 & H); minv H1; minv H
  | (mret _) _ = Ret _ => apply st_ret_inv in H as [? ?]; subst
  | assert _ _ = Ret _ => apply assert_inv in H as [H ?]; subst; try (minv H)
  | gets _ _ = Ret _ => injection H as ? ?; subst
  | get _ = Ret _ => injection H as ? ?; subst
  | modify _ _ = Ret _ => injection H as ? ?; subst
  | store _ _ = Ret _ => injection H as ? ?; subst
  | throw _ _ = Ret _ => discriminate H
  | crash _ _ = Ret _ => discriminate H
  | zoom _ _ _ _ = Ret _ =>
      let t := fresh "t" in let E := fresh "E" in
      apply zoom_inv in H as (t & H & E); minv H; subst
  | _ => idtac
  end.

(** Run the monadic steps whose outcome is known. *)
Ltac mred := cbn [mbind outcome_bind mret outcome_ret precondition].

(** Turn the boolean comparisons of the code into arithmetic. *)
Ltac bool_to_prop :=
  repeat match goal with
  | H : _ && _ = true |- _ => apply andb_prop in H as [? ?]
  | H : _ && _ = false |- _ => apply andb_false_iff in H
  | H : _ || _ = true |- _ => apply orb_true_iff in H
  | H : _ || _ = false |- _ => apply orb_false_iff in H as [? ?]
  | H : negb _ = true |- _ => apply negb_true_iff in H
  | H : negb _ = false |- _ => apply negb_false_iff in H
  | H : (_ <? _)%Z = true |- _ => apply Z.ltb_lt in H
  | H : (_ <? _)%Z = false |- _ => apply Z.ltb_ge in H
  | H : (_ <=? _)%Z = true |- _ => apply Z.leb_le in H
  | H : (_ <=? _)%Z = false |- _ => apply Z.leb_gt in H
  | H : (_ =? _)%Z = true |- _ => apply Z.eqb_eq in H
  | H : (_ =? _)%Z = false |- _ => apply Z.eqb_neq in H
  | H : (_ <? _)%nat = true |- _ => apply Nat.ltb_lt in H
  | H : (_ <? _)%nat = false |- _ => apply Nat.ltb_ge in H
  | H : (_ <=? _)%nat = true |- _ => apply Nat.leb_le in H
  | H : (_ <=? _)%nat = false |- _ => apply Nat.leb_gt in H
  | H : (_ =? _)%nat = true |- _ => apply Nat.eqb_eq in H
  | H : (_ =? _)%nat = false |- _ => apply Nat.eqb_neq in H
  end.

(** Case analysis on the first [if] of the goal, with its condition as a
    proposition. *)
Ltac case_if :=
  match goal with
  | |- context [if ?c then _ else _] =>
      let E := fresh "E" in destruct c eqn:E; bool_to_prop
  end.

(** * Words *)

Create HintDb words.

Section words.
Local Open Scope Z_scope.

Lemma u8_mod x : u8 x = x mod 256.
Proof. unfold u8. now rewrite Z.land_ones by lia. Qed.

Lemma u16_mod x : u16 x = x mod 65536.
Proof. unfold u16. now rewrite Z.land_ones by lia. Qed.

Lemma u32_mod x : u32 x = x mod 2 ^ 32.
Proof. unfold u32. now rewrite Z.land_ones by lia. Qed.

Lemma u64_mod x : u64 x = x mod 2 ^ 64.
Proof. unfold u64. now rewrite Z.land_ones by lia. Qed.

Lemma u8_byte x : is_byte (u8 x).
Proof. rewrite u8_mod. unfold is_byte. pose proof (Z.mod_pos_bound x 256). lia. Qed.

Lemma u8_small x : is_byte x -> u8 x = x.
Proof. unfold is_byte. rewrite u8_mod. intros. apply Z.mod_small. lia. Qed.

Lemma u64_small x : 0 <= x < 2 ^ 64 -> u64 x = x.
Proof. rewrite u64_mod. apply Z.mod_small. Qed.

Lemma u16_small x : 0 <= x < 65536 -> u16 x = x.
Proof. rewrite u16_mod. apply Z.mod_small. Qed.

Lemma u32_small x : 0 <= x < 2 ^ 32 -> u32 x = x.
Proof. rewrite u32_mod. apply Z.mod_small. Qed.

(** Disjoint bits: a disjunction is a sum. *)
Lemma lor_add_shiftl a b k :
  0 <= k -> 0 <= a < 2 ^ k -> Z.lor a (Z.shiftl b k) = a + b * 2 ^ k.
Proof.
  intros Hk Ha. rewrite <- Z.shiftl_mul_pow2 by lia.
  assert (Z.land a (Z.shiftl b k) = 0) as Hd.
  { apply Z.bits_inj'. intros i Hi. rewrite Z.land_spec, Z.bits_0.
    destruct (Z.lt_ge_cases i k).
    - rewrite Z.shiftl_spec_low by lia. apply andb_false_r.
    - rewrite <- (Z.mod_small a (2 ^ k)) by lia.
      now rewrite Z.mod_pow2_bits_high by lia. }
  rewrite <- Z.lxor_lor by done. symmetry. now apply Z.add_nocarry_lxor.
Qed.

Lemma land_lxor_distr_l a b c :
  Z.land (Z.lxor a b) c = Z.lxor (Z.land a c) (Z.land b c).
Proof.
  apply Z.bits_inj'. intros i _. rewrite !Z.land_spec, !Z.lxor_spec, !Z.land_spec.
  now destruct (Z.testbit a i), (Z.testbit b i), (Z.testbit c i).
Qed.

(** Exclusive or of bytes. *)
Definition bxor (a b : Z) : Z := Z.lxor a b.

Lemma bxor_byte a b : is_byte a -> is_byte b -> is_byte (bxor a b).
Proof.
  unfold is_byte, bxor. intros Ha Hb.
  rewrite <- (u8_small a), <- (u8_small b) by (unfold is_byte; lia).
  unfold u8. rewrite <- land_lxor_distr_l, Z.land_ones by lia. apply Z.mod_pos_bound. lia.
Qed.

Lemma bxor_involutive a m : bxor (bxor a m) m = a.
Proof. unfold bxor. now rewrite Z.lxor_assoc, Z.lxor_nilpotent, Z.lxor_0_r. Qed.

End words.

#[export] Hint Resolve u8_byte bxor_byte : words.
