(* ===== verification/Numerals.v ===== *)
(** Numerals of the C++ library, as the sources use them: [std::to_chars] and
    [std::to_string] (integers to text), [strtol] and [isspace] (text to
    integers).  [URL.cc], [Message.cc], [MiniFormat.cc] and [HTTPHandler.cc]
    rely on them. *)

From S2P Require Import Prelude.

Local Open Scope Z_scope.

Definition isDigit (c : Z) : bool := (48 <=? c) && (c <=? 57).

Definition isSpace (c : Z) : bool := (c =? 32) || ((9 <=? c) && (c <=? 13)).

(** The character of a digit in bases up to 36, lower case. *)
Definition digitChar (d : Z) : Z := if d <? 10 then 48 + d else 97 + (d - 10).

(** The numeral of [n >= 0] in base [b], before [acc]. *)
Fixpoint toDigits (fuel : nat) (b n : Z) (acc : bytes) : bytes :=
  match fuel with
  | O => acc
  | S f =>
      if n <? b then digitChar n :: acc
      else toDigits f b (n / b) (digitChar (n mod b) :: acc)
  end.

(** [std::to_chars(first, last, n, base)]; 64 digits hold any 64-bit integer. *)
Definition to_chars (n base : Z) : bytes :=
  if n <? 0 then 45 :: toDigits 64 base (- n) [] else toDigits 64 base n [].

Definition to_string (n : Z) : bytes := to_chars n 10.

Fixpoint skipSpaces (s : bytes) : bytes :=
  match s with
  | c :: r => if isSpace c then skipSpaces r else s
  | [] => []
  end.

(** The value of the leading digits, and what follows them. *)
Fixpoint scanDigits (s : bytes) (acc : Z) : Z * bytes :=
  match s with
  | c :: r => if isDigit c then scanDigits r (acc * 10 + (c - 48)) else (acc, s)
  | [] => (acc, [])
  end.

Definition LONG_MAX : Z := 2 ^ 63 - 1.
Definition LONG_MIN : Z := - 2 ^ 63.

(** [strtol(s, &end, 10)]: the value, saturated, and the text from [end] on;
    [None] when there is no number ([end = s]). *)
Definition strtol (s : bytes) : option (Z * bytes) :=
  let s1 := skipSpaces s in
  let '(neg, s2) :=
    match s1 with
    | 45 :: r => (true, r)
    | 43 :: r => (false, r)
    | _ => (false, s1)
    end in
  match s2 with
  | c :: _ =>
      if isDigit c then
        let '(v, rest) := scanDigits s2 0 in
        Some (Z.max LONG_MIN (Z.min LONG_MAX (if neg then - v else v)), rest)
      else None
  | [] => None
  end.

(** * Lemmas *)

Definition startsWithDigit (s : bytes) : bool :=
  match s with c :: _ => isDigit c | [] => false end.

Lemma toDigits_acc f b n acc : toDigits f b n acc = toDigits f b n [] ++ acc.
Proof.
  revert n acc. induction f as [|f IH]; intros n acc; cbn; [done|].
  case_if; [done|]. rewrite IH, (IH _ [_]), <- app_assoc. done.
Qed.

Lemma toDigits_length f b n acc : (length (toDigits f b n acc) <= f + length acc)%nat.
Proof.
  revert n acc. induction f as [|f IH]; intros n acc; cbn [toDigits]; [lia|]. destruct (n <? b); [cbn; lia|].
  specialize (IH (n / b) (digitChar (n mod b) :: acc)). cbn [length] in IH. lia.
Qed.

Lemma digitChar_dec d : 0 <= d < 10 -> isDigit (digitChar d) = true /\ digitChar d - 48 = d.
Proof.
  intros Hd. unfold digitChar, isDigit. rewrite (proj2 (Z.ltb_lt d 10)) by lia.
  split; [|lia]. apply andb_true_iff. split; apply Z.leb_le; lia.
Qed.

Definition decVal (ds : bytes) (v : Z) : Z := fold_left (fun v c => v * 10 + (c - 48)) ds v.

Lemma scanDigits_app ds rest v :
  Forall (fun c => isDigit c = true) ds -> startsWithDigit rest = false ->
  scanDigits (ds ++ rest) v = (decVal ds v, rest).
Proof.
  intros H Hr. revert v. induction H as [|c ds Hc _ IH]; intros v; cbn.
  - destruct rest as [|c r]; cbn in *; [done|]. now rewrite Hr.
  - rewrite Hc. apply IH.
Qed.

(** Enough digits: the numeral of [n] in base 10 reads back as [n]. *)
Lemma toDigits_dec f n :
  0 <= n < 10 ^ Z.of_nat f -> (0 < f)%nat ->
  Forall (fun c => isDigit c = true) (toDigits f 10 n [])
  /\ decVal (toDigits f 10 n []) 0 = n /\ startsWithDigit (toDigits f 10 n []) = true.
Proof.
  revert n. induction f as [|f IH]; intros n Hn Hf; [lia|]. cbn [toDigits]. case_if.
  - destruct (digitChar_dec n) as [Hd He]; [lia|]. cbn. rewrite Hd.
    split_and!; [by repeat constructor| |done]. lia.
  - rewrite toDigits_acc.
    assert (10 ^ Z.of_nat (S f) = 10 ^ Z.of_nat f * 10) as Hp
      by (rewrite Nat2Z.inj_succ, Z.pow_succ_r by lia; ring).
    destruct f as [|f]; [cbn in Hn; lia|].
    destruct (IH (n / 10)) as (HF & HV & HS); [|lia|].
    { split; [apply Z.div_pos; lia|apply Z.div_lt_upper_bound; lia]. }
    pose proof (Z.mod_pos_bound n 10 ltac:(lia)).
    destruct (digitChar_dec (n mod 10)) as [Hd He]; [lia|]. split_and!.
    + apply Forall_app. split; [done|]. by repeat constructor.
    + unfold decVal in *. rewrite fold_left_app, HV. cbn. rewrite He.
      pose proof (Z.div_mod n 10). lia.
    + destruct (toDigits (S f) 10 (n / 10) []); done.
Qed.

(** [strtol] reads back what [to_string] wrote. *)
Lemma strtol_to_string n rest :
  LONG_MIN <= n <= LONG_MAX -> startsWithDigit rest = false ->
  strtol (to_string n ++ rest) = Some (n, rest).
Proof.
  unfold LONG_MIN, LONG_MAX. intros Hn Hr. unfold to_string, to_chars.
  assert (forall m, 0 <= m <= 2 ^ 63 ->
    exists c ds, toDigits 64 10 m [] = c :: ds /\ isDigit c = true
    /\ scanDigits (toDigits 64 10 m [] ++ rest) 0 = (m, rest)) as H.
  { intros m Hm. destruct (toDigits_dec 64 m) as (HF & HV & HS); [|lia|].
    { assert (2 ^ 63 < 10 ^ Z.of_nat 64) by (vm_compute; done). lia. }
    rewrite scanDigits_app, HV by done.
    destruct (toDigits 64 10 m []) as [|c ds]; [done|]. eauto. }
  unfold strtol. case_if.
  - destruct (H (- n)) as (c & ds & E1 & Hc & E2); [lia|]. cbn [app skipSpaces].
    change (isSpace 45) with false. cbn iota. rewrite E2, E1. cbn [app]. rewrite Hc.
    do 2 f_equal. unfold LONG_MIN, LONG_MAX. lia.
  - destruct (H n) as (c & ds & E1 & Hc & E2); [lia|].
    assert (isSpace c = false /\ c <> 45 /\ c <> 43) as (Hs & H45 & H43).
    { unfold isDigit, isSpace in *. bool_to_prop.
      rewrite orb_false_iff, andb_false_iff, Z.eqb_neq, !Z.leb_gt. lia. }
    rewrite E1 in *. cbn [app skipSpaces] in *. rewrite Hs.
    assert (forall A (x y z : A), match c with 45 => x | 43 => y | _ => z end = z) as Hm.
    { intros. destruct c as [|p|p]; try done. do 6 (destruct p; try done). }
    rewrite (Hm _ (true, ds ++ rest) (false, ds ++ rest) (false, c :: ds ++ rest)).
    rewrite Hc, E2. do 2 f_equal. unfold LONG_MIN, LONG_MAX. lia.
Qed.

Lemma to_string_byte n : 0 <= n < 2 ^ 63 -> Forall is_byte (to_string n).
Proof.
  intros Hn. unfold to_string, to_chars. rewrite (proj2 (Z.ltb_ge n 0)) by lia.
  destruct (toDigits_dec 64 n) as (HF & _ & _); [|lia|].
  { assert (2 ^ 63 < 10 ^ Z.of_nat 64) by (vm_compute; done). lia. }
  eapply Forall_impl; [done|]. unfold isDigit, is_byte. intros c Hc. bool_to_prop. lia.
Qed.

Lemma scanDigits_suffix s v : exists t, s = t ++ snd (scanDigits s v).
Proof.
  revert v. induction s as [|c s IH]; intros v; cbn; [by exists []|].
  destruct (isDigit c); [|by exists []].
  destruct (IH (v * 10 + (c - 48))) as [t E]. exists (c :: t). cbn. by f_equal.
Qed.

Lemma skipSpaces_suffix s : exists t, s = t ++ skipSpaces s.
Proof.
  induction s as [|c s [t E]]; cbn; [by exists []|].
  destruct (isSpace c); [|by exists []]. exists (c :: t). cbn. by f_equal.
Qed.

(** [end] points into the string. *)
Lemma strtol_suffix s v rest : strtol s = Some (v, rest) -> exists t, s = t ++ rest.
Proof.
  unfold strtol. destruct (skipSpaces_suffix s) as [t0 E0].
  set (p := match skipSpaces s with 45 :: _ => _ | _ => _ end).
  assert (exists t1, skipSpaces s = t1 ++ snd p) as [t1 E1].
  { subst p. destruct (skipSpaces s) as [|c r]; [by exists []|].
    destruct c as [|q|q]; try by exists [].
    do 6 (destruct q as [q|q|]; try by exists []); by (exists [45] + exists [43]). }
  destruct p as [neg s2]. cbn in E1. destruct s2 as [|c s2]; [done|].
  destruct (isDigit c); [|done]. destruct (scanDigits_suffix (c :: s2) 0) as [t2 E2].
  destruct (scanDigits (c :: s2) 0) as [v' rest']. intros [= _ <-]. cbn in E2.
  exists (t0 ++ t1 ++ t2). by rewrite E0, E1, E2, !app_assoc.
Qed.
