(* ===== verification/Varint.v ===== *)
(** Variable-length integers ([src/support/Varint.cc],
    [include/crouton/util/Varint.hh]): 64-bit unsigned integers in groups of
    seven bits, least significant first, the high bit set on every byte but the
    last.  The Framer, the BLIP protocol and the message builder use them. *)

From S2P Require Import Prelude.

Local Open Scope Z_scope.

(** The maximum size in bytes of a varint. *)
Definition kMaxSize : nat := 10.

(** The body of [readPartial]'s loop over at most [k] bytes: [None] when the
    loop ends without meeting a byte whose high bit is clear. *)
Fixpoint readLoop (k : nat) (bs : bytes) (n shift : Z) : option (Z * bytes) :=
  match k, bs with
  | S k', b :: rest =>
      if negb (Z.land b 0x80 =? 0) then
        readLoop k' rest (Z.lor n (u64 (Z.shiftl (Z.land b 0x7F) shift))) (shift + 7)
      else Some (Z.lor n (u64 (Z.shiftl b shift)), rest)
  | _, _ => None
  end.

(** Returns the value and what is left of [bs]; [None] is the [false] of the
    code, with [bs] unchanged. *)
Definition readPartial (bs : bytes) : outcome (option (Z * bytes)) :=
  match bs with
  | [] => Ret None
  | _ =>
      match readLoop kMaxSize bs 0 0 with
      | Some r => Ret (Some r)
      | None =>
          if (kMaxSize <=? Nat.min kMaxSize (length bs))%nat
          then Raise (ECrouton ParseError)
          else Ret None
      end
  end.

Definition read (bs : bytes) : outcome (Z * bytes) :=
  r ← readPartial bs;
  match r with
  | Some p => Ret p
  | None => Raise (ECrouton ParseError)
  end.

(** The loop of [put]: the bytes it stores from [dst] on.  [fuel] bounds the
    iterations; [put_unfold] shows that [kMaxSize] is enough for any 64-bit
    argument. *)
Fixpoint putLoop (fuel : nat) (n : Z) : bytes :=
  match fuel with
  | O => []
  | S fuel' =>
      if 0x80 <=? n then
        u8 (Z.lor (Z.land n 0xFF) 0x80) :: putLoop fuel' (Z.shiftr n 7)
      else [u8 n]
  end.

(** The bytes written at [dst]; the function returns their number. *)
Definition put (n : Z) : bytes := putLoop kMaxSize n.

(** Writes at the start of a buffer of [outSize] bytes: the bytes stored and the
    size of the rest of the buffer.  The code does not check the range. *)
Definition write (n : Z) (outSize : nat) : outcome (bytes * nat) :=
  let bs := put n in
  if (length bs <=? outSize)%nat then Ret (bs, (outSize - length bs)%nat)
  else Fault OutOfBounds.

(** * Specification *)

(** The number a group of varint bytes denotes. *)
Fixpoint le7 (bs : bytes) : Z :=
  match bs with
  | [] => 0
  | b :: rest => b mod 128 + 128 * le7 rest
  end.

(** A byte with its high bit set, and one without. *)
Definition cont (b : Z) : Prop := 128 <= b < 256.
Definition final (b : Z) : Prop := 0 <= b < 128.

(** A complete varint: continuation bytes and a final one. *)
Definition is_varint (bs : bytes) : Prop :=
  exists pre last, bs = pre ++ [last] /\ Forall cont pre /\ final last.

(** * Lemmas *)

Lemma land80_cont b : cont b -> (Z.land b 0x80 =? 0) = false.
Proof.
  intros H. apply Z.eqb_neq. intros E.
  assert (Z.testbit (Z.land b 128) 7 = false) as F by now rewrite E.
  rewrite Z.land_spec in F. change (Z.testbit 128 7) with true in F.
  rewrite andb_true_r, Z.testbit_false in F by lia.
  unfold cont in H. change (2 ^ 7) with 128 in F.
  assert (b / 128 = 1) as R by (symmetry; apply Z.div_unique with (b - 128); lia).
  rewrite R in F. discriminate.
Qed.

Lemma land80_final b : final b -> (Z.land b 0x80 =? 0) = true.
Proof.
  intros H. apply Z.eqb_eq. apply Z.bits_inj'. intros i Hi.
  rewrite Z.land_spec, Z.bits_0. change 128 with (2 ^ 7).
  rewrite Z.pow2_bits_eqb by lia. destruct (Z.eqb_spec 7 i) as [<-|]; [|apply andb_false_r].
  rewrite andb_true_r. apply Z.testbit_false; [lia|].
  unfold final in H. rewrite Z.div_small by (change (2 ^ 7) with 128; lia). reflexivity.
Qed.

Lemma land7F b : Z.land b 0x7F = b mod 128.
Proof. change 0x7F with (Z.ones 7). now rewrite Z.land_ones by lia. Qed.

(** One step of the loop adds a group of seven bits, modulo 2^64. *)
Lemma lor_u64_shiftl n b shift :
  0 <= shift < 64 -> 0 <= n < 2 ^ shift -> 0 <= b ->
  Z.lor n (u64 (Z.shiftl b shift)) = (n + b * 2 ^ shift) mod 2 ^ 64.
Proof.
  intros Hs Hn Hb. rewrite u64_mod, Z.shiftl_mul_pow2 by lia.
  replace (2 ^ 64) with (2 ^ (64 - shift) * 2 ^ shift)
    by (rewrite <- Z.pow_add_r by lia; f_equal; lia).
  assert (0 < 2 ^ shift) by (apply Z.pow_pos_nonneg; lia).
  assert (0 < 2 ^ (64 - shift)) by (apply Z.pow_pos_nonneg; lia).
  rewrite Z.mul_mod_distr_r by lia.
  rewrite <- Z.shiftl_mul_pow2, lor_add_shiftl by lia.
  pose proof (Z.mod_pos_bound b (2 ^ (64 - shift))) as Hm.
  apply Z.mod_unique with (b / 2 ^ (64 - shift)); [left; nia|].
  pose proof (Z.div_mod b (2 ^ (64 - shift))). nia.
Qed.

(** The loop computes the value of the first complete varint, modulo 2^64. *)
Lemma readLoop_varint pre last rest k n shift :
  Forall cont pre -> final last -> (length pre < k)%nat ->
  0 <= shift -> shift + 7 * Z.of_nat k <= 70 -> 0 <= n < 2 ^ Z.min shift 64 ->
  readLoop k (pre ++ last :: rest) n shift
  = Some ((n + le7 (pre ++ [last]) * 2 ^ shift) mod 2 ^ 64, rest).
Proof.
  intros Hpre Hlast. revert k n shift.
  induction Hpre as [|b pre Hb _ IH]; intros [|k] n shift Hk Hs Hs' Hn;
    try (cbn in Hk; lia); cbn [app readLoop].
  - rewrite Z.min_l in Hn by lia.
    rewrite land80_final by done. cbn [negb le7 app].
    unfold final in Hlast. rewrite lor_u64_shiftl by lia.
    rewrite Z.mul_0_r, Z.add_0_r, (Z.mod_small last) by lia. done.
  - rewrite land80_cont by done. cbn [negb app le7].
    rewrite Z.min_l in Hn by lia. unfold cont in Hb.
    pose proof (Z.mod_pos_bound b 128 ltac:(lia)).
    rewrite land7F, lor_u64_shiftl by lia.
    assert (2 ^ (shift + 7) = 2 ^ shift * 128) as Hp
      by (rewrite Z.pow_add_r by lia; reflexivity).
    rewrite IH; cycle 1.
    { cbn in Hk. lia. } { lia. } { lia. }
    { destruct (Z.min_spec (shift + 7) 64) as [[_ ->]|[? ->]].
      - pose proof (Z.mod_le (n + b mod 128 * 2 ^ shift) (2 ^ 64)).
        pose proof (Z.mod_pos_bound (n + b mod 128 * 2 ^ shift) (2 ^ 64)). nia.
      - apply Z.mod_pos_bound. lia. }
    do 2 f_equal. rewrite Zplus_mod_idemp_l. f_equal. rewrite Hp. ring.
Qed.

Lemma readLoop_none k bs n shift :
  Forall cont (take k bs) -> readLoop k bs n shift = None.
Proof.
  revert bs n shift. induction k as [|k IH]; intros [|b bs] n shift; cbn; try done.
  intros [Hb H]%Forall_cons. rewrite land80_cont by done. now apply IH.
Qed.

(** Every list of bytes starts with a complete varint of at most [k] bytes, or
    has only continuation bytes there. *)
Lemma varint_prefix k bs :
  Forall is_byte bs ->
  (exists pre last rest, bs = pre ++ last :: rest /\ Forall cont pre /\ final last
                         /\ (length pre < k)%nat)
  \/ Forall cont (take k bs).
Proof.
  intros H. revert k. induction H as [|b bs Hb _ IH]; intros [|k]; cbn; auto.
  unfold is_byte in Hb. destruct (Z.lt_ge_cases b 128).
  - left. exists [], b, bs. cbn. split_and!; [done|done|unfold final; lia|lia].
  - destruct (IH k) as [(pre & last & rest & -> & Hp & Hl & Hk)|].
    + left. exists (b :: pre), last, rest. cbn.
      split_and!; [done|constructor; [unfold cont; lia|done]|done|lia].
    + right. constructor; [unfold cont; lia|done].
Qed.

Lemma le7_app_one pre last :
  Forall cont pre -> final last -> 0 <= le7 (pre ++ [last]) < 128 ^ (Z.of_nat (length pre) + 1).
Proof.
  intros Hpre Hlast. induction Hpre as [|b pre Hb _ IH]; cbn [app le7 length].
  - unfold final in Hlast. rewrite Z.mod_small by lia. change (128 ^ _) with 128. lia.
  - pose proof (Z.mod_pos_bound b 128 ltac:(lia)).
    rewrite Nat2Z.inj_succ, <- Z.add_1_r, (Z.pow_add_r 128 (_ + 1)) by lia.
    change (128 ^ 1) with 128. lia.
Qed.

(** * [put] *)

Lemma putLoop_S f n :
  putLoop (S f) n = if 0x80 <=? n then u8 (Z.lor (Z.land n 0xFF) 0x80) :: putLoop f (Z.shiftr n 7)
                    else [u8 n].
Proof. done. Qed.

Lemma putLoop_mono f f' n :
  0 <= n < 2 ^ (7 * Z.of_nat f) -> (1 <= f <= f')%nat -> putLoop f' n = putLoop f n.
Proof.
  revert f' n. induction f as [|f IH]; intros f' n Hn Hf; [lia|].
  destruct f' as [|f']; [lia|]. cbn [putLoop]. case_if; [|done]. f_equal.
  rewrite Z.shiftr_div_pow2 by lia. change (2 ^ 7) with 128.
  assert (2 ^ (7 * Z.of_nat (S f)) = 2 ^ (7 * Z.of_nat f) * 128) as Hp
    by (rewrite Nat2Z.inj_succ, Z.mul_succ_r, Z.pow_add_r by lia; reflexivity).
  destruct f as [|f]; [cbn in Hp; lia|].
  apply IH; [|lia]. rewrite Hp in Hn.
  split; [apply Z.div_pos; lia|apply Z.div_lt_upper_bound; lia].
Qed.

(** The equation of [put]'s loop on 64-bit integers: the fuel is enough. *)
Lemma put_unfold n :
  0 <= n < 2 ^ 64 ->
  put n = if 0x80 <=? n then u8 (Z.lor (Z.land n 0xFF) 0x80) :: put (Z.shiftr n 7)
          else [n].
Proof.
  intros Hn. unfold put, kMaxSize. rewrite (putLoop_S 9 n). case_if.
  - f_equal. symmetry. apply putLoop_mono; [|lia].
    rewrite Z.shiftr_div_pow2 by lia. change (2 ^ 7) with 128.
    split; [apply Z.div_pos; lia|apply Z.div_lt_upper_bound; lia].
  - rewrite u8_small; [done|unfold is_byte; lia].
Qed.

Lemma put_cont_byte n :
  0 <= n -> let b := u8 (Z.lor (Z.land n 0xFF) 0x80) in cont b /\ b mod 128 = n mod 128.
Proof.
  intros Hn b.
  assert (b = n mod 128 + 128) as ->; [|unfold cont;
    pose proof (Z.mod_pos_bound n 128);
    rewrite Z.add_mod, Z.mod_mod, Z.mod_same, Z.add_0_r, Z.mod_mod by lia; lia].
  subst b. unfold u8. rewrite Z.land_lor_distr_l, <- Z.land_assoc.
  change (Z.land 255 (Z.ones 8)) with 255. change (Z.land 128 (Z.ones 8)) with 128.
  change 255 with (Z.lor (Z.ones 7) 128). rewrite Z.land_lor_distr_r, <- Z.lor_assoc.
  assert (Z.lor (Z.land n 128) 128 = Z.shiftl 1 7) as ->.
  { apply Z.bits_inj'. intros i _. change (Z.shiftl 1 7) with 128.
    rewrite Z.lor_spec, Z.land_spec.
    now destruct (Z.testbit n i), (Z.testbit 128 i). }
  rewrite Z.land_ones by lia. rewrite lor_add_shiftl; [reflexivity|lia|].
  apply Z.mod_pos_bound. lia.
Qed.

(** [put n] is a varint of the value [n]. *)
Lemma put_is_varint n :
  0 <= n < 2 ^ 64 -> is_varint (put n) /\ le7 (put n) = n.
Proof.
  intros Hn. remember (Z.to_nat n) as m eqn:Hm. revert n Hn Hm.
  induction (lt_wf m) as [m _ IH]. intros n Hn ->.
  rewrite put_unfold by done. case_if.
  - destruct (put_cont_byte n) as [Hc He]; [lia|].
    assert (n / 128 < n) by (apply Z.div_lt; lia).
    assert (0 <= n / 128) by (apply Z.div_pos; lia).
    rewrite Z.shiftr_div_pow2 by lia. change (2 ^ 7) with 128.
    destruct (IH (Z.to_nat (n / 128)) ltac:(lia) (n / 128)) as [(pre & l & -> & Hp & Hl) E2];
      [lia|done|].
    split.
    + exists (u8 (Z.lor (Z.land n 0xFF) 0x80) :: pre), l.
      split_and!; [done|by constructor|done].
    + cbn [le7]. rewrite He, E2. pose proof (Z.div_mod n 128). lia.
  - split.
    + exists [], n. split_and!; [done|done|unfold final; lia].
    + cbn. rewrite Z.mod_small; lia.
Qed.

Lemma is_varint_bytes bs : is_varint bs -> Forall is_byte bs.
Proof.
  intros (pre & l & -> & Hp & Hl). apply Forall_app. split.
  - eapply Forall_impl; [done|]. unfold cont, is_byte. intros. lia.
  - repeat constructor; unfold final in Hl; lia.
Qed.

Lemma put_length n : 0 <= n < 2 ^ 64 -> (1 <= length (put n) <= kMaxSize)%nat.
Proof.
  intros Hn. assert (forall f m, (length (putLoop f m) <= f)%nat) as H.
  { induction f; intros m; cbn; [lia|]. case_if; cbn; [|lia]. specialize (IHf (m ≫ 7)). lia. }
  specialize (H kMaxSize n). destruct (put_is_varint n Hn) as [(pre & l & E & _) _].
  unfold put in *. rewrite E in *. rewrite length_app in *. cbn in *. lia.
Qed.

(** Reading a varint of at most ten bytes. *)
Lemma readPartial_varint bs rest :
  is_varint bs -> (length bs <= kMaxSize)%nat ->
  readPartial (bs ++ rest) = Ret (Some (le7 bs mod 2 ^ 64, rest)).
Proof.
  intros (pre & l & -> & Hp & Hl) Hlen. rewrite length_app in Hlen. cbn in Hlen.
  unfold readPartial. rewrite <- app_assoc. cbn [app].
  destruct (pre ++ l :: rest) eqn:E; [now destruct pre|]. rewrite <- E.
  rewrite (readLoop_varint pre l rest kMaxSize 0 0 Hp Hl) by (unfold kMaxSize in *; cbn; lia).
  now rewrite Z.mul_1_r.
Qed.

Lemma read_put n rest : 0 <= n < 2 ^ 64 -> read (put n ++ rest) = Ret (n, rest).
Proof.
  intros Hn. destruct (put_is_varint n Hn) as [Hv E]. unfold read.
  rewrite readPartial_varint by (auto using put_is_varint; apply put_length; done).
  mred. now rewrite E, Z.mod_small.
Qed.

(** No proper prefix of a varint is a varint: the reader asks for more. *)
Lemma readPartial_prefix bs n :
  is_varint bs -> (length bs <= kMaxSize)%nat -> (n < length bs)%nat ->
  readPartial (take n bs) = Ret None.
Proof.
  intros (pre & l & -> & Hp & Hl) Hlen Hn. rewrite length_app in *. cbn in *.
  rewrite take_app_le by lia. unfold readPartial.
  destruct (take n pre) eqn:E; [done|]. rewrite <- E.
  assert (length (take n pre) < 10)%nat as Hl10 by (rewrite length_take; unfold kMaxSize in *; lia).
  rewrite readLoop_none by (apply Forall_take, Forall_take; done).
  rewrite (proj2 (Nat.leb_gt _ _)); [done|]. unfold kMaxSize. lia.
Qed.

(** [k] groups of seven bits are enough for a number below [128 ^ k]. *)
Lemma putLoop_le fuel k n : 0 <= n < 128 ^ Z.of_nat (S k) -> (length (putLoop fuel n) <= S k)%nat.
Proof.
  revert k n. induction fuel as [|fuel IH]; intros k n Hn; cbn [putLoop]; [cbn; lia|].
  destruct (Z.leb_spec 0x80 n) as [H|H]; cbn [length]; [|lia]. destruct k as [|k]; [cbn in Hn; lia|].
  apply le_n_S, IH. rewrite Nat2Z.inj_succ, Z.pow_succ_r in Hn by lia.
  rewrite Z.shiftr_div_pow2 by lia. change (2 ^ 7) with 128. split; [apply Z.div_pos; lia|]. apply Z.div_lt_upper_bound; lia.
Qed.

Lemma le7_bound bs : 0 <= le7 bs < 128 ^ Z.of_nat (length bs).
Proof.
  induction bs as [|b bs IH]; cbn [le7 length]; [cbn; lia|]. rewrite Nat2Z.inj_succ, Z.pow_succ_r by lia.
  pose proof (Z.mod_pos_bound b 128). lia.
Qed.

(** No varint of the number is shorter. *)
Lemma put_minimal bs : is_varint bs -> (length (put (le7 bs)) <= length bs)%nat.
Proof.
  intros (pre & l & -> & _ & _). pose proof (le7_bound (pre ++ [l])) as Hb. rewrite length_app, Nat.add_1_r in *.
  now apply putLoop_le.
Qed.

(** * Properties *)

(** C17: round trip. *)
Theorem varint_roundtrip n rest :
  0 <= n < 2 ^ 64 ->
  readPartial (put n ++ rest) = Ret (Some (n, rest)) /\ read (put n ++ rest) = Ret (n, rest).
Proof.
  intros Hn. split; [|now apply read_put]. destruct (put_is_varint n Hn) as [Hv E].
  rewrite readPartial_varint by (auto; apply put_length; done). now rewrite E, Z.mod_small.
Qed.

Lemma varint_roundtrip_witness :
  0 <= 300 < 2 ^ 64 /\ readPartial (put 300 ++ [7]) = Ret (Some (300, [7])).
Proof. split; [lia|]. apply (varint_roundtrip 300 [7]). lia. Defined.

(** C18: [put] writes between one and ten bytes, the high bit set on all but the last, which are the groups of
    seven bits of the number, least significant first; and no shorter bytes of that form stand for it. *)
Theorem varint_put_format n outSize :
  0 <= n < 2 ^ 64 -> (kMaxSize <= outSize)%nat ->
  exists bs, write n outSize = Ret (bs, (outSize - length bs)%nat)
    /\ (1 <= length bs <= kMaxSize)%nat /\ is_varint bs /\ le7 bs = n
    /\ forall bs', is_varint bs' -> le7 bs' = n -> (length bs <= length bs')%nat.
Proof.
  intros Hn Ho. exists (put n). pose proof (put_length n Hn). unfold write.
  rewrite (proj2 (Nat.leb_le _ _)) by lia. destruct (put_is_varint n Hn) as [Hv E].
  split_and!; auto with lia. intros bs' Hb' <-. now apply put_minimal.
Qed.

Lemma varint_put_format_witness :
  exists bs, write 300 10 = Ret (bs, (10 - length bs)%nat)
    /\ (1 <= length bs <= kMaxSize)%nat /\ is_varint bs /\ le7 bs = 300
    /\ forall bs', is_varint bs' -> le7 bs' = 300 -> (length bs <= length bs')%nat.
Proof. apply (varint_put_format 300 10); unfold kMaxSize; lia. Defined.

(** The three outcomes of the reader, on any bytes. *)
Theorem varint_readPartial_spec bs :
  Forall is_byte bs ->
  (exists v rest, bs = v ++ rest /\ is_varint v /\ (length v <= kMaxSize)%nat
                  /\ readPartial bs = Ret (Some (le7 v mod 2 ^ 64, rest)))
  \/ (Forall cont bs /\ (length bs < kMaxSize)%nat /\ readPartial bs = Ret None
      /\ read bs = Raise (ECrouton ParseError))
  \/ (Forall cont (take kMaxSize bs) /\ (kMaxSize <= length bs)%nat
      /\ readPartial bs = Raise (ECrouton ParseError)).
Proof.
  intros Hb. destruct (varint_prefix kMaxSize bs Hb) as [(pre & l & rest & -> & Hp & Hl & Hk)|Hc].
  - left. exists (pre ++ [l]), rest. rewrite <- app_assoc.
    assert (is_varint (pre ++ [l])) by (exists pre, l; auto).
    assert (length (pre ++ [l]) <= kMaxSize)%nat by (rewrite length_app; cbn; lia).
    split_and!; auto. rewrite <- readPartial_varint by done. now rewrite <- app_assoc.
  - right. unfold read, readPartial. rewrite readLoop_none by done.
    destruct (le_lt_dec kMaxSize (length bs)) as [Hl|Hl].
    + right. split_and!; auto. destruct bs; [unfold kMaxSize in Hl; cbn [length] in Hl; lia|].
      rewrite (proj2 (Nat.leb_le _ _)); [done|lia].
    + left. rewrite take_ge in Hc by lia. split_and!; auto.
      all: destruct bs; [done|]; rewrite (proj2 (Nat.leb_gt _ _)); [done|lia].
Qed.

Lemma varint_readPartial_spec_witness :
  exists v rest, [0xAC; 2; 9] = v ++ rest /\ is_varint v
    /\ readPartial [0xAC; 2; 9] = Ret (Some (le7 v mod 2 ^ 64, rest)).
Proof.
  destruct (varint_readPartial_spec [0xAC; 2; 9]) as [(v & rest & ? & ? & ? & ?)|[(H & _)|(H & _)]].
  - repeat (constructor; [unfold is_byte; lia|]). constructor.
  - exists v, rest. auto.
  - exfalso. apply Forall_cons in H as [_ [[? ?] _]%Forall_cons]. lia.
  - exfalso. apply Forall_cons in H as [_ [[? ?] _]%Forall_cons]. lia.
Defined.
