(* ===== verification/StringUtils.v ===== *)
(** ASCII string utilities ([src/support/StringUtils.hh],
    [src/support/StringUtils.cc]): case mapping, hex digits, hex strings,
    splitting and in-place replacement. *)

From S2P Require Import Prelude.

Local Open Scope Z_scope.

(** Comparing a [char] with an ASCII bound gives the same answer on the unsigned
    value: a negative [char] is at least 128 here and below every bound there;
    only [hexDigitToInt] sees the sign. *)

Definition toLower (c : Z) : Z := if (65 <=? c) && (c <=? 90) then c + 32 else c.

Definition toUpper (c : Z) : Z := if (97 <=? c) && (c <=? 122) then c - 32 else c.

Definition isAlphanumeric (c : Z) : bool :=
  ((48 <=? c) && (c <=? 57)) || ((65 <=? c) && (c <=? 90)) || ((97 <=? c) && (c <=? 122)).

Definition isHexDigit (c : Z) : bool :=
  ((48 <=? c) && (c <=? 57)) || ((65 <=? c) && (c <=? 70)) || ((97 <=? c) && (c <=? 102)).

Definition hexDigitToInt (c : Z) : Z :=
  let c := schar c in
  if c <? 65 then c - 48 else if c <? 97 then c - 65 + 10 else c - 97 + 10.

(** The assertion [0 <= n < 16] holds at every call: the argument is half a byte. *)
Definition asHexDigit (n : Z) : Z := if n <? 10 then 48 + n else 65 + (n - 10).

(** [strchr(s, c) != nullptr]: the search includes the terminating NUL. *)
Definition strchr (s : bytes) (c : Z) : bool := existsb (Z.eqb c) (s ++ [0]).

Definition isURLSafe (c : Z) : bool := isAlphanumeric c || strchr (lit "-_.~") c.

Definition toLowerStr (s : bytes) : bytes := map toLower s.

Fixpoint equalIgnoringCase_loop (a b : bytes) : bool :=
  match a, b with
  | x :: a', y :: b' => if negb (toLower x =? toLower y) then false else equalIgnoringCase_loop a' b'
  | _, _ => true
  end.

Definition equalIgnoringCase (a b : bytes) : bool :=
  if negb (length a =? length b)%nat then false else equalIgnoringCase_loop a b.

Definition kDigits : bytes := lit "0123456789abcdef".

Definition kDigit (i : Z) : Z := nth (Z.to_nat i) kDigits 0.

Fixpoint hexString (bs : bytes) : bytes :=
  match bs with
  | [] => []
  | b :: r => kDigit (Z.shiftr b 4) :: kDigit (Z.land b 0xF) :: hexString r
  end.

(** An odd last digit is ignored ([len & ~1]). *)
Fixpoint decodeHexString (hex : bytes) : bytes :=
  match hex with
  | a :: b :: r =>
      u8 (Z.lor (Z.shiftl (hexDigitToInt a) 4) (hexDigitToInt b)) :: decodeHexString r
  | _ => []
  end.

(** [str.find(c)]: what precedes and what follows the first [c]. *)
Fixpoint findChar (c : Z) (s : bytes) : option (bytes * bytes) :=
  match s with
  | [] => None
  | x :: r =>
      if x =? c then Some ([], r)
      else match findChar c r with
           | Some (p, q) => Some (x :: p, q)
           | None => None
           end
  end.

Definition split (s : bytes) (c : Z) : bytes * bytes :=
  match findChar c s with
  | Some pq => pq
  | None => (s, [])
  end.

Definition splitAt (s : bytes) (pos delimSize : nat) : outcome (bytes * bytes) :=
  _ ← precondition (pos + delimSize <=? length s)%nat;
  Ret (take pos s, drop (pos + delimSize) s).

Fixpoint isPrefix (p s : bytes) : bool :=
  match p, s with
  | [], _ => true
  | x :: p', y :: s' => (x =? y) && isPrefix p' s'
  | _ :: _, [] => false
  end.

(** [str.find(sub, 0)] as the number of characters before the match. *)
Fixpoint findSub (sub s : bytes) : option nat :=
  if isPrefix sub s then Some O
  else match s with
       | [] => None
       | _ :: r => match findSub sub r with Some n => Some (S n) | None => None end
       end.

(** The loop of [replaceStringInPlace] from [pos] on, [s] being the text there:
    each match is replaced and the search continues after the replacement.  With
    an empty [sub] the code does not terminate; every other search ends within
    [length s] rounds. *)
Fixpoint replaceLoop (fuel : nat) (s sub rep : bytes) : outcome bytes :=
  match fuel with
  | O => Fault NoFuel
  | S f =>
      match findSub sub s with
      | None => Ret s
      | Some n =>
          r ← replaceLoop f (drop (n + length sub) s) sub rep;
          Ret (take n s ++ rep ++ r)
      end
  end.

Definition replaceStringInPlace (s sub rep : bytes) : outcome bytes :=
  replaceLoop (S (length s)) s sub rep.

(** * Lemmas *)

Lemma findChar_app c p q : ~ In c p -> findChar c (p ++ c :: q) = Some (p, q).
Proof.
  induction p as [|x p IH]; cbn; intros H.
  - now rewrite Z.eqb_refl.
  - rewrite (proj2 (Z.eqb_neq x c)) by (intros ->; auto). rewrite IH; auto.
Qed.

Lemma findChar_none c s : ~ In c s -> findChar c s = None.
Proof.
  induction s as [|x s IH]; cbn; intros H; [done|].
  rewrite (proj2 (Z.eqb_neq x c)) by (intros ->; auto). rewrite IH; auto.
Qed.

Lemma split_app c p q : ~ In c p -> split (p ++ c :: q) c = (p, q).
Proof. intros H. unfold split. now rewrite findChar_app. Qed.

Lemma split_none c s : ~ In c s -> split s c = (s, []).
Proof. intros H. unfold split. now rewrite findChar_none. Qed.

Lemma findChar_length c s p q : findChar c s = Some (p, q) -> (length q < length s)%nat.
Proof.
  revert p. induction s as [|x s IH]; cbn; intros p H; [done|].
  case_match; [simplify_eq; lia|]. destruct (findChar c s) as [[? ?]|]; simplify_eq.
  specialize (IH _ eq_refl). lia.
Qed.

Lemma toLower_idemp c : toLower (toLower c) = toLower c.
Proof. unfold toLower. repeat case_if; lia. Qed.

Lemma toLower_toUpper c : toLower (toUpper c) = toLower c.
Proof. unfold toLower, toUpper. repeat case_if; lia. Qed.

Lemma toUpper_toLower c : toUpper (toLower c) = toUpper c.
Proof. unfold toLower, toUpper. repeat case_if; lia. Qed.

Lemma toUpper_idemp c : toUpper (toUpper c) = toUpper c.
Proof. unfold toUpper. repeat case_if; lia. Qed.

Lemma isAlphanumeric_case c :
  isAlphanumeric (toLower c) = isAlphanumeric c /\ isAlphanumeric (toUpper c) = isAlphanumeric c.
Proof.
  unfold isAlphanumeric, toLower, toUpper.
  split; repeat case_if; try done; apply eq_true_iff_eq;
    rewrite !orb_true_iff, !andb_true_iff, !Z.leb_le; lia.
Qed.

(** [equalIgnoringCase] compares the lower-cased strings. *)
Lemma equalIgnoringCase_spec a b :
  equalIgnoringCase a b = true <-> toLowerStr a = toLowerStr b.
Proof.
  unfold equalIgnoringCase, toLowerStr. split.
  - intros H. case_match eqn:E; [done|]. bool_to_prop.
    revert b H E. induction a as [|x a IH]; intros [|y b] H E; cbn in *; try done; try lia.
    case_match eqn:F; [done|]. bool_to_prop. f_equal; [done|]. apply IH; [done|lia].
  - intros H. assert (length a = length b) as El
      by (apply (f_equal length) in H; now rewrite !length_map in H).
    rewrite El, Nat.eqb_refl. cbn. clear El. revert b H.
    induction a as [|x a IH]; intros [|y b] H; cbn in *; try done.
    injection H as H1 H2. rewrite H1, Z.eqb_refl. cbn. auto.
Qed.

Lemma byte_nibbles b : is_byte b ->
  0 <= Z.shiftr b 4 < 16 /\ 0 <= Z.land b 15 < 16 /\ b = 16 * Z.shiftr b 4 + Z.land b 15.
Proof.
  intros H. unfold is_byte in H. rewrite Z.shiftr_div_pow2 by lia.
  change 15 with (Z.ones 4). rewrite Z.land_ones by lia. change (2 ^ 4) with 16.
  pose proof (Z.mod_pos_bound b 16). pose proof (Z.div_mod b 16).
  split_and!; lia.
Qed.

Lemma asHexDigit_spec n : 0 <= n < 16 ->
  isHexDigit (asHexDigit n) = true /\ hexDigitToInt (asHexDigit n) = n.
Proof.
  intros H. assert (In n (map Z.of_nat (seq 0 16))) as Hin
    by (apply in_map_iff; exists (Z.to_nat n); rewrite in_seq; lia).
  cbn in Hin. repeat (destruct Hin as [<-|Hin]; [done|]). done.
Qed.

Lemma kDigit_spec n : 0 <= n < 16 -> hexDigitToInt (kDigit n) = n.
Proof.
  intros H. assert (In n (map Z.of_nat (seq 0 16))) as Hin
    by (apply in_map_iff; exists (Z.to_nat n); rewrite in_seq; lia).
  cbn in Hin. repeat (destruct Hin as [<-|Hin]; [done|]). done.
Qed.

(** * Properties *)

(** Hex round trip. *)
Theorem hex_roundtrip bs :
  Forall is_byte bs ->
  decodeHexString (hexString bs) = bs /\ length (hexString bs) = (2 * length bs)%nat.
Proof.
  intros H. induction H as [|b bs Hb _ [IH1 IH2]]; [done|].
  cbn [hexString decodeHexString length]. split; [|lia].
  destruct (byte_nibbles b Hb) as (Hhi & Hlo & E).
  rewrite IH1, !kDigit_spec by done. f_equal.
  rewrite Z.lor_comm, lor_add_shiftl by (change (2 ^ 4) with 16; lia).
  change (2 ^ 4) with 16. replace (_ + _) with b by lia. now apply u8_small.
Qed.

Lemma hex_roundtrip_witness : decodeHexString (hexString [0; 0xAB; 255]) = [0; 0xAB; 255].
Proof.
  apply (hex_roundtrip [0; 0xAB; 255]).
  repeat (constructor; [unfold is_byte; lia|]). constructor.
Defined.
