(* ===== verification/URL.v ===== *)
(** URLs ([src/io/URL.cc], [include/crouton/io/URL.hh]): the zero-copy parser
    (from tlsuv), percent escapes, query lookup and re-encoding. *)

From S2P Require Import Prelude Numerals StringUtils.

Local Open Scope Z_scope.

(** * Data *)

(** [URLRef]'s fields; the string views of [tlsuv_url_s], a null pointer being
    an empty view. *)
Record URLRef := mkURL {
  scheme : bytes;
  hostname : bytes;
  port : Z;
  path : bytes;
  query : bytes
}.

Definition emptyURL : URLRef := mkURL [] [] 0 [] [].

(** * Parsing *)

Fixpoint spanNot (stop : Z -> bool) (s : bytes) : nat :=
  match s with
  | c :: r => if stop c then O else S (spanNot stop r)
  | [] => O
  end.

(** [sscanf(s, "%*[^...]%n", &count)]: end of input gives EOF, a character of
    the set first is a matching failure and leaves [count] alone. *)
Definition scanNot (stop : Z -> bool) (s : bytes) (count : nat) : Z * nat :=
  match s with
  | [] => (-1, count)
  | c :: _ => if stop c then (0, count) else (0, spanNot stop s)
  end.

(** The character at [p], NUL at the end of the C string. *)
Definition charAt (s : bytes) (i : nat) : Z := nth i s 0.

(** [tlsuv_parse_url]: [None] is the result -1.  [s] is the C string [urlstr]
    without its NUL. *)
Definition parseScheme (s : bytes) : bytes * bytes :=
  let '(rc, count) := scanNot (fun c => c =? 58) s 0 in
  if (rc =? 0) && (charAt s count =? 58) && (charAt s (count + 1) =? 47)
     && (charAt s (count + 2) =? 47)
  then (take count s, drop (count + 3) s)
  else ([], s).

Definition parseHost (p : bytes) : bytes * bytes :=
  let '(rc, count) := scanNot (fun c => (c =? 58) || (c =? 47)) p 0 in
  if (rc =? 0) && (0 <? count)%nat then (take count p, drop count p) else ([], p).

(** The port, when there is one: [Some (0, p)] when [p] does not start with a colon. *)
Definition parsePort (host p : bytes) : option (Z * bytes) :=
  if charAt p 0 =? 58 then
    match host with
    | [] => None
    | _ =>
        match strtol (drop 1 p) with
        | None => None
        | Some (lport, pend) =>
            if (0 <? lport) && (lport <=? 65535) then Some (lport, pend) else None
        end
    end
  else Some (0, p).

Definition parsePathQuery (p : bytes) : option (bytes * bytes) :=
  match p with
  | [] => Some ([], [])
  | c :: _ =>
      if negb (c =? 47) then None
      else
        let '(rc, count) := scanNot (fun c => c =? 63) p 0 in
        let '(pa, p') := if rc =? 0 then (take count p, drop count p) else ([], p) in
        Some (pa, if charAt p' 0 =? 63 then drop 1 p' else [])
  end.

Definition tlsuv_parse_url (s : bytes) : option URLRef :=
  let '(sch, p) := parseScheme s in
  let '(host, p) := parseHost p in
  match parsePort host p with
  | None => None
  | Some (prt, p) =>
      match parsePathQuery p with
      | None => None
      | Some (pa, q) => Some (mkURL sch host prt pa q)
      end
  end.

(** [tryParse]: on failure the properties keep their values. *)
Definition tryParse (u : URLRef) (s : bytes) : bool * URLRef :=
  match tlsuv_parse_url s with
  | Some u' => (true, u')
  | None => (false, u)
  end.

Definition parse (u : URLRef) (s : bytes) : outcome URLRef :=
  let '(ok, u') := tryParse u s in
  if negb ok then Raise (ECrouton InvalidURL) else Ret u'.

Definition normalizedScheme (u : URLRef) : bytes := toLowerStr (scheme u).

(** * Escapes *)

Fixpoint unescape (s : bytes) : bytes :=
  match s with
  | [] => []
  | c :: r =>
      match r with
      | a :: b :: r' =>
          if (c =? 37) && isHexDigit a && isHexDigit b
          then u8 (16 * hexDigitToInt a + hexDigitToInt b) :: unescape r'
          else c :: unescape r
      | _ => c :: unescape r
      end
  end.

(** [except] is the optional C string of characters left alone. *)
Definition escapeChar (except : option bytes) (c : Z) : bytes :=
  if isURLSafe c || match except with Some e => strchr e c | None => false end then [c]
  else [37; asHexDigit (Z.shiftr c 4); asHexDigit (Z.land c 0x0F)].

Definition escape (s : bytes) (except : option bytes) : bytes :=
  concat (map (escapeChar except) s).

Definition unescapedPath (u : URLRef) : bytes := unescape (path u).

(** * Re-encoding and queries *)

Definition reencoded (u : URLRef) : bytes :=
  scheme u ++ (if negb (bool_decide (scheme u = [])) then lit "://" else [])
  ++ hostname u
  ++ (if negb (port u =? 0) then lit ":" ++ to_string (port u) else [])
  ++ path u
  ++ (if negb (bool_decide (query u = [])) then lit "?" ++ query u else []).

(** [str.c_str()]: the text up to the first NUL. *)
Fixpoint c_str (s : bytes) : bytes :=
  match s with
  | c :: r => if c =? 0 then [] else c :: c_str r
  | [] => []
  end.

(** A [URL] owns its string: [reencode] rebuilds it and parses it again. *)
Definition reencode (u : URLRef) : outcome (bytes * URLRef) :=
  let str := reencoded u in
  u' ← parse u (c_str str); Ret (str, u').

(** [URL(scheme, hostname, port, path, query)]. *)
Definition makeURL (sch host : bytes) (prt : Z) (pa q : bytes) : outcome (bytes * URLRef) :=
  reencode (mkURL sch host prt pa q).

(** The loop of [queryValueForKey]; each round drops at least one character, so
    [length remaining] rounds are enough. *)
Fixpoint queryLoop (fuel : nat) (remaining key : bytes) : outcome bytes :=
  match remaining with
  | [] => Ret []
  | _ =>
      match fuel with
      | O => Fault NoFuel
      | S f =>
          let '(q, remaining') := split remaining 38 in
          let '(k, v) := split q 61 in
          if bool_decide (k = key) then Ret (if bool_decide (v = []) then k else v)
          else queryLoop f remaining' key
      end
  end.

Definition queryValueForKey (u : URLRef) (key : bytes) : outcome bytes :=
  queryLoop (length (query u)) (query u) key.

(** * Lemmas *)

Lemma c_str_id s : ~ In 0 s -> c_str s = s.
Proof.
  induction s as [|c s IH]; cbn; intros H; [done|].
  rewrite (proj2 (Z.eqb_neq c 0)) by auto. f_equal. auto.
Qed.

Lemma spanNot_app stop p q :
  (forall c, In c p -> stop c = false) ->
  match q with [] => True | c :: _ => stop c = true end ->
  spanNot stop (p ++ q) = length p.
Proof.
  intros Hp Hq. induction p as [|c p IH]; cbn.
  - destruct q as [|c q]; cbn; [done|]. now rewrite Hq.
  - rewrite Hp by (now left). rewrite IH; [done|]. intros. apply Hp. now right.
Qed.

Lemma scanNot_app stop p q :
  p <> [] -> (forall c, In c p -> stop c = false) ->
  match q with [] => True | c :: _ => stop c = true end ->
  scanNot stop (p ++ q) 0 = (0, length p).
Proof.
  intros Hne Hp Hq. rewrite <- (spanNot_app stop p q) by done.
  destruct p as [|c p]; [done|]. cbn. now rewrite Hp by (now left).
Qed.

(** Whatever stops a scan is in the set. *)
Lemma spanNot_le stop s : (spanNot stop s <= length s)%nat.
Proof. induction s as [|c s IH]; cbn; [lia|]. destruct (stop c); lia. Qed.

Lemma scanNot_le stop s : (snd (scanNot stop s 0) <= length s)%nat.
Proof. destruct s as [|c s]; cbn; [lia|]. destruct (stop c); cbn; [lia|]. pose proof (spanNot_le stop s). lia. Qed.

Lemma charAt_drop s n c : charAt s n = c -> c <> 0 -> exists r, drop n s = c :: r.
Proof.
  unfold charAt. revert n. induction s as [|x s IH]; intros [|n]; cbn; intros <- H; try done; eauto.
Qed.

Lemma charAt_app p q k : charAt (p ++ q) (length p + k) = charAt q k.
Proof. unfold charAt. rewrite app_nth2 by lia. f_equal. lia. Qed.

Lemma parseScheme_app sch rest :
  sch <> [] -> ~ In 58 sch -> parseScheme (sch ++ lit "://" ++ rest) = (sch, rest).
Proof.
  intros Hne Hin. unfold parseScheme.
  rewrite scanNot_app; [|done| |done].
  2: { intros c Hc. apply Z.eqb_neq. intros ->. auto. }
  change (lit "://") with [58; 47; 47].
  rewrite <- (Nat.add_0_r (length sch)) at 1. rewrite !charAt_app. cbn -[take drop app].
  rewrite take_app_length, drop_app_ge by lia.
  now replace (length sch + 3 - length sch)%nat with 3%nat by lia.
Qed.

Lemma parseHost_app host rest :
  ~ In 58 host -> ~ In 47 host ->
  match rest with [] => True | c :: _ => c = 58 \/ c = 47 end ->
  parseHost (host ++ rest) = (host, rest).
Proof.
  intros H1 H2 Hr. unfold parseHost. destruct (decide (host = [])) as [->|Hne].
  - destruct rest as [|c r]; [done|]. cbn. destruct Hr as [->| ->]; done.
  - rewrite scanNot_app; [|done| |].
    + destruct host as [|h host]; [done|]. cbn [length Nat.ltb Nat.leb Z.eqb andb].
      change (S (length host)) with (length (h :: host)).
      rewrite take_app_length, drop_app_length. done.
    + intros c Hc. rewrite orb_false_iff, !Z.eqb_neq. split; intros ->; auto.
    + destruct rest as [|c r]; [done|]. destruct Hr as [->| ->]; done.
Qed.

(** What follows the authority: a path and a query that read back. *)
Definition wf_tail (pa q : bytes) : Prop :=
  (pa = [] /\ q = []) \/ (exists r, pa = 47 :: r /\ ~ In 63 r).

Definition urlTail (pa q : bytes) : bytes :=
  pa ++ (if negb (bool_decide (q = [])) then lit "?" ++ q else []).

Lemma parsePathQuery_urlTail pa q : wf_tail pa q -> parsePathQuery (urlTail pa q) = Some (pa, q).
Proof.
  unfold urlTail. intros [[-> ->]|(r & -> & Hr)]; [done|].
  set (qs := if negb _ then _ else _). cbn [parsePathQuery app].
  change (negb (47 =? 47)) with false. cbn iota.
  change (47 :: r ++ qs) with ((47 :: r) ++ qs).
  assert (match qs with [] => True | c :: _ => (c =? 63) = true end) as Hq.
  { subst qs. case_bool_decide; cbn; done. }
  rewrite scanNot_app; [|done| |done].
  2: { intros c [<-|Hc]; [done|]. apply Z.eqb_neq. intros ->. auto. }
  cbn [Z.eqb]. rewrite take_app_length, drop_app_length. do 2 f_equal.
  subst qs. case_bool_decide as E; [now rewrite E|]. done.
Qed.

Lemma urlTail_start pa q : wf_tail pa q ->
  match urlTail pa q with [] => True | c :: _ => c = 47 end.
Proof. unfold urlTail. intros [[-> ->]|(r & -> & Hr)]; done. Qed.

Lemma parsePort_app host prt t :
  0 <= prt <= 65535 -> (host = [] -> prt = 0) ->
  match t with [] => True | c :: _ => c = 47 end ->
  parsePort host ((if negb (prt =? 0) then lit ":" ++ to_string prt else []) ++ t) = Some (prt, t).
Proof.
  intros Hp Hh Ht. destruct (Z.eqb_spec prt 0) as [->|Hnz]; cbn [negb app].
  - unfold parsePort. destruct t as [|c t]; [done|]. subst c. done.
  - unfold parsePort. change (lit ":") with [58]. cbn -[strtol to_string]. 
    destruct host as [|h host]; [now specialize (Hh eq_refl)|].
    rewrite drop_0, strtol_to_string.
    + rewrite (proj2 (Z.ltb_lt 0 prt)), (proj2 (Z.leb_le prt 65535)) by lia. done.
    + unfold LONG_MIN, LONG_MAX. lia.
    + destruct t as [|c t]; [done|]. subst c. done.
Qed.

(** The conditions on its parts under which a URL reads back. *)
Record wf_url (u : URLRef) : Prop := {
  wf_scheme : scheme u <> [] /\ ~ In 58 (scheme u);
  wf_host : ~ In 58 (hostname u) /\ ~ In 47 (hostname u);
  wf_port : 0 <= port u <= 65535 /\ (hostname u = [] -> port u = 0);
  wf_path : wf_tail (path u) (query u);
  wf_nul : ~ In 0 (reencoded u)
}.

Lemma parse_reencoded u : wf_url u -> tlsuv_parse_url (reencoded u) = Some u.
Proof.
  intros [[Hs1 Hs2] [Hh1 Hh2] [Hp1 Hp2] Ht _]. destruct u as [sch host prt pa q]; cbn in *.
  unfold reencoded; cbn [scheme hostname port path query]. fold (urlTail pa q).
  rewrite bool_decide_eq_false_2 by done. cbn [negb]. unfold tlsuv_parse_url.
  rewrite parseScheme_app by done. pose proof (urlTail_start pa q Ht) as Hst.
  rewrite parseHost_app; [|done|done|].
  - rewrite parsePort_app by done. now rewrite parsePathQuery_urlTail.
  - destruct (Z.eqb_spec prt 0); cbn; [|now left].
    destruct (urlTail pa q); [done|]. now right.
Qed.

Lemma unescape_cons c r : c <> 37 -> unescape (c :: r) = c :: unescape r.
Proof.
  intros H. cbn. destruct r as [|a [|b r]]; try done.
  now rewrite (proj2 (Z.eqb_neq c 37)) by done.
Qed.

Lemma strchr_37 e : strchr e 37 = true -> In 37 e.
Proof.
  unfold strchr. rewrite existsb_exists. intros (x & Hx & E). apply Z.eqb_eq in E. subst x.
  apply in_app_iff in Hx as [?|[?|[]]]; [done|discriminate].
Qed.

Lemma unescape_escapeChar except c r :
  is_byte c -> (forall e, except = Some e -> ~ In 37 e) ->
  unescape (escapeChar except c ++ r) = c :: unescape r.
Proof.
  intros Hc He. unfold escapeChar. case_if.
  - apply unescape_cons. intros ->. destruct except as [e|]; cbn in E; bool_to_prop.
    + destruct E as [E|E]; [done|]. eapply He; [done|]. now apply strchr_37.
    + now destruct E.
  - destruct (byte_nibbles c Hc) as (Hhi & Hlo & Ec). cbn [app unescape].
    destruct (asHexDigit_spec _ Hhi) as [-> ->]. destruct (asHexDigit_spec _ Hlo) as [-> ->].
    cbn [andb Z.eqb Pos.eqb]. now rewrite <- Ec, u8_small.
Qed.

Lemma concat_unescape except s :
  Forall is_byte s -> (forall e, except = Some e -> ~ In 37 e) ->
  unescape (escape s except) = s.
Proof.
  intros H He. unfold escape. induction H as [|c s Hc _ IH]; [done|]. cbn [map concat].
  rewrite unescape_escapeChar by done. now rewrite IH.
Qed.

(** Queries written as [k=v] pairs separated by [&]. *)
Fixpoint queryText (kvs : list (bytes * bytes)) : bytes :=
  match kvs with
  | [] => []
  | [(k, v)] => k ++ 61 :: v
  | (k, v) :: r => k ++ 61 :: v ++ 38 :: queryText r
  end.

Fixpoint lookupFirst (kvs : list (bytes * bytes)) (key : bytes) : option bytes :=
  match kvs with
  | [] => None
  | (k, v) :: r => if bool_decide (k = key) then Some v else lookupFirst r key
  end.

Definition wf_pair (kv : bytes * bytes) : Prop :=
  ~ In 38 (fst kv) /\ ~ In 61 (fst kv) /\ ~ In 38 (snd kv).

Lemma queryLoop_step f q rest key k v :
  ~ In 38 q -> q <> [] \/ rest <> [] -> split q 61 = (k, v) ->
  queryLoop (S f) (q ++ rest) key =
    match rest with
    | [] => if bool_decide (k = key) then Ret (if bool_decide (v = []) then k else v) else Ret []
    | 38 :: r => if bool_decide (k = key) then Ret (if bool_decide (v = []) then k else v)
                 else queryLoop f r key
    | _ => queryLoop (S f) (q ++ rest) key
    end.
Proof.
  intros Hq Hne Hs. destruct rest as [|c r].
  - rewrite app_nil_r. destruct q as [|x q]; [naive_solver|]. cbn [queryLoop].
    rewrite split_none, Hs by done. case_bool_decide; [done|]. now destruct f.
  - destruct (decide (c = 38)) as [->|Hc].
    + destruct (q ++ 38 :: r) as [|x l] eqn:E; [now destruct q|]. cbn [queryLoop].
      rewrite <- E, split_app, Hs by done. done.
    + destruct c as [|p|p]; try done. do 6 (destruct p; try done).
Qed.

Lemma queryLoop_text kvs key f :
  Forall wf_pair kvs -> (length kvs <= f)%nat ->
  queryLoop f (queryText kvs) key =
    Ret match lookupFirst kvs key with
        | Some v => if bool_decide (v = []) then key else v
        | None => []
        end.
Proof.
  intros H. revert f. induction H as [|[k v] kvs (H1 & H2 & H3) _ IH]; intros f Hf; cbn in *.
  - now destruct f.
  - destruct f as [|f]; [lia|].
    assert (~ In 38 (k ++ 61 :: v)) as Hq.
    { rewrite in_app_iff. intros [?|[?|?]]; auto; discriminate. }
    assert (split (k ++ 61 :: v) 61 = (k, v)) as Hs by now apply split_app.
    destruct kvs as [|[k' v'] kvs].
    + rewrite <- (app_nil_r (k ++ _)), (queryLoop_step f _ [] key k v);
        [|done|left; now destruct k|done].
      cbn. case_bool_decide; subst; done.
    + change (k ++ 61 :: v ++ ?x) with (k ++ (61 :: v) ++ x). rewrite app_assoc.
      rewrite (queryLoop_step f _ _ key k v); [|done|left; now destruct k|done].
      case_bool_decide; subst; [done|]. apply IH. lia.
Qed.

Lemma queryText_length kvs : (length kvs <= length (queryText kvs))%nat.
Proof.
  induction kvs as [|[k v] kvs IH]; cbn; [lia|].
  destruct kvs; rewrite length_app; cbn in *; rewrite ?length_app; cbn in *; lia.
Qed.

Lemma queryLoop_total f s key :
  (length s <= f)%nat -> exists r, queryLoop f s key = Ret r.
Proof.
  revert s. induction f as [|f IH]; intros [|x s] Hf; cbn [queryLoop]; eauto; [cbn in Hf; lia|].
  destruct (split (x :: s) 38) as [q r] eqn:E. destruct (split q 61) as [k v].
  case_bool_decide; eauto. apply IH. unfold split in E.
  destruct (findChar 38 (x :: s)) as [[? ?]|] eqn:F; simplify_eq; [|cbn; lia].
  apply findChar_length in F. lia.
Qed.

Lemma parseScheme_inv s sch p :
  parseScheme s = (sch, p) -> (sch = [] /\ p = s) \/ s = sch ++ lit "://" ++ p.
Proof.
  unfold parseScheme. pose proof (scanNot_le (fun c => c =? 58) s) as Hle.
  destruct (scanNot (fun c => c =? 58) s 0) as [rc n]. cbn in Hle. case_if; [|intros [= <- <-]; auto].
  intros [= <- <-]. right. bool_to_prop.
  destruct (charAt_drop s n 58) as [r1 E1]; [lia|done|].
  destruct (charAt_drop s (n + 1) 47) as [r2 E2]; [lia|done|].
  destruct (charAt_drop s (n + 2) 47) as [r3 E3]; [lia|done|].
  rewrite <- (take_drop n s) at 1. f_equal. rewrite E1. change (lit "://") with [58; 47; 47].
  cbn [app]. f_equal. rewrite <- drop_drop, E1 in E2. cbn in E2. rewrite drop_0 in E2. subst r1.
  f_equal. replace (n + 2)%nat with (n + 1 + 1)%nat in E3 by lia.
  rewrite <- !drop_drop, E1 in E3. cbn in E3. rewrite drop_0 in E3. subst r2. f_equal.
  replace (n + 3)%nat with (n + 1 + 1 + 1)%nat by lia. rewrite <- !drop_drop, E1. cbn.
  now rewrite drop_0.
Qed.

Lemma scanNot_take stop s n :
  scanNot stop s 0 = (0, n) -> forall c, In c (take n s) -> stop c = false.
Proof.
  assert (forall s c, In c (take (spanNot stop s) s) -> stop c = false) as H.
  { induction s0 as [|x s0 IH]; cbn; [done|]. intros c.
    destruct (stop x) eqn:E; cbn; [done|]. intros [<-|?]; auto. }
  destruct s as [|x s]; cbn; [done|]. destruct (stop x) eqn:E; cbn; intros [= <-]; [done|].
  intros c. cbn. intros [<-|?]; eauto.
Qed.

Lemma parseHost_inv p host p' :
  parseHost p = (host, p') -> p = host ++ p' /\ ~ In 58 host /\ ~ In 47 host.
Proof.
  unfold parseHost. destruct (scanNot _ p 0) as [rc n] eqn:E. case_if; intros [= <- <-]; [|cbn; auto].
  bool_to_prop. subst rc. rewrite take_drop. split; [done|].
  split; intros H; apply (scanNot_take _ _ _ E) in H; done.
Qed.

Lemma parsePort_inv host p prt p' :
  parsePort host p = Some (prt, p') ->
  (prt = 0 /\ p' = p) \/
  (exists t, p = 58 :: t ++ p' /\ strtol (t ++ p') = Some (prt, p') /\ 1 <= prt <= 65535 /\ host <> []).
Proof.
  unfold parsePort. case_if; [|intros [= <- <-]; auto].
  destruct host as [|h host]; [done|]. destruct (strtol (drop 1 p)) as [[v r]|] eqn:F; [|done].
  case_if; [|done]. bool_to_prop. intros [= <- <-]. right.
  destruct (charAt_drop p 0 58) as [r1 E1]; [done|done|]. rewrite drop_0 in E1. subst p.
  cbn in F. rewrite drop_0 in F. destruct (strtol_suffix _ _ _ F) as [t ->]. exists t.
  split_and!; [done|done|lia|lia|done].
Qed.

Lemma parsePathQuery_inv p pa q :
  parsePathQuery p = Some (pa, q) ->
  (p = pa /\ q = [] \/ p = pa ++ 63 :: q) /\ ~ In 63 pa
  /\ match pa with [] => True | c :: _ => c = 47 end.
Proof.
  unfold parsePathQuery. destruct p as [|c p]; [intros [= <- <-]; cbn; auto|].
  destruct (negb (c =? 47)) eqn:E; [done|]. bool_to_prop. subst c.
  assert (exists n, scanNot (fun c => c =? 63) (47 :: p) 0 = (0, S n)) as [n Hn] by (cbn; eauto).
  rewrite Hn. cbn iota beta zeta. change (0 =? 0) with true. cbn iota. intros [= <- <-].
  pose proof (take_drop (S n) (47 :: p)) as Et. change (drop n p) with (drop (S n) (47 :: p)).
  change (47 :: take n p) with (take (S n) (47 :: p)). split_and!; [| |done].
  - destruct (charAt (drop (S n) (47 :: p)) 0 =? 63) eqn:F; bool_to_prop.
    + right. destruct (charAt_drop _ 0 63 F) as [r Er]; [done|]. rewrite drop_0 in Er.
      rewrite Er in Et |- *. exact (eq_sym Et).
    + left. split; [|done].
      assert (drop (S n) (47 :: p) = []) as Ed; [|rewrite Ed, app_nil_r in Et; congruence].
      destruct (drop (S n) (47 :: p)) as [|c r] eqn:Ed; [done|]. exfalso.
      cbn in F. apply F. cbn in Hn. injection Hn as Hn.
      assert (forall s c r, drop (spanNot (fun c => c =? 63) s) s = c :: r -> c = 63) as H.
      { clear. induction s as [|x s IH]; cbn; [done|]. intros c r.
        destruct (x =? 63) eqn:E; cbn; [|apply IH]. intros [= <- <-]. now apply Z.eqb_eq. }
      cbn in Ed. rewrite <- Hn in Ed. eauto.
  - intros H. apply (scanNot_take _ _ _ Hn) in H. done.
Qed.

(** * Properties *)

(** Percent escapes round trip, whatever characters are excepted but [%]. *)
Theorem url_escape_roundtrip s except :
  Forall is_byte s -> (forall e, except = Some e -> ~ In 37 e) ->
  unescape (escape s except) = s.
Proof. apply concat_unescape. Qed.

Lemma url_escape_roundtrip_witness :
  unescape (escape [47; 37; 200; 65] (Some [47])) = [47; 37; 200; 65].
Proof.
  apply url_escape_roundtrip.
  - repeat (constructor; [unfold is_byte; lia|]). constructor.
  - intros e [= <-] [?|[]]. discriminate.
Defined.

(** C19: a well-formed URL survives re-encoding and parsing. *)
Theorem url_reencode_roundtrip u :
  wf_url u -> reencode u = Ret (reencoded u, u).
Proof.
  intros H. unfold reencode, parse, tryParse.
  rewrite c_str_id by apply H. now rewrite (parse_reencoded u H).
Qed.

Definition exampleURL : URLRef :=
  mkURL (lit "http") (lit "example.com") 8080 (lit "/a/b") (lit "x=1&y=2").

Lemma url_reencode_roundtrip_witness :
  reencode exampleURL = Ret (lit "http://example.com:8080/a/b?x=1&y=2", exampleURL).
Proof.
  rewrite (url_reencode_roundtrip exampleURL); [done|].
  split; cbn; [split; [done|naive_solver lia]|naive_solver lia|split; [lia|done]| |].
  - right. eexists. split; [done|]. cbn. naive_solver lia.
  - intros H. vm_compute in H. naive_solver lia.
Defined.

(** Query lookup. *)
Theorem url_query_lookup u kvs key :
  query u = queryText kvs -> Forall wf_pair kvs ->
  queryValueForKey u key =
    Ret match lookupFirst kvs key with
        | Some v => if bool_decide (v = []) then key else v
        | None => []
        end.
Proof.
  intros E H. unfold queryValueForKey. rewrite E. apply queryLoop_text; [done|].
  apply queryText_length.
Qed.

Lemma url_query_lookup_witness : queryValueForKey exampleURL (lit "y") = Ret (lit "2").
Proof.
  rewrite (url_query_lookup exampleURL [(lit "x", lit "1"); (lit "y", lit "2")]); [done|done|].
  repeat constructor; cbn; naive_solver lia.
Defined.

(** A successful parse takes the string apart and loses nothing. *)
Theorem url_parse_decompose s u :
  tlsuv_parse_url s = Some u ->
  exists sp pp qp, s = sp ++ hostname u ++ pp ++ path u ++ qp
    /\ (sp = [] /\ scheme u = [] \/ sp = scheme u ++ lit "://")
    /\ ~ In 58 (hostname u) /\ ~ In 47 (hostname u)
    /\ (pp = [] /\ port u = 0
        \/ hostname u <> [] /\ 1 <= port u <= 65535
           /\ exists t, pp = 58 :: t /\ strtol (t ++ path u ++ qp) = Some (port u, path u ++ qp))
    /\ match path u with [] => True | c :: _ => c = 47 end /\ ~ In 63 (path u)
    /\ (qp = [] /\ query u = [] \/ qp = 63 :: query u).
Proof.
  unfold tlsuv_parse_url. destruct (parseScheme s) as [sch p1] eqn:E1.
  destruct (parseHost p1) as [host p2] eqn:E2.
  destruct (parsePort host p2) as [[prt p3]|] eqn:E3; [|done].
  destruct (parsePathQuery p3) as [[pa q]|] eqn:E4; [|done]. intros [= <-]. cbn.
  apply parseScheme_inv in E1. apply parseHost_inv in E2 as (-> & Hh1 & Hh2).
  apply parsePort_inv in E3. apply parsePathQuery_inv in E4 as (E4 & Hq & Hpa).
  assert (exists qp, p3 = pa ++ qp /\ (qp = [] /\ q = [] \/ qp = 63 :: q)) as (qp & -> & Hqp).
  { destruct E4 as [[-> ->]| ->]; [exists []|exists (63 :: q)]; rewrite ?app_nil_r; auto. }
  assert (exists sp, s = sp ++ host ++ p2 /\ (sp = [] /\ sch = [] \/ sp = sch ++ lit "://"))
    as (sp & -> & Hsp).
  { destruct E1 as [[-> <-]| ->]; [exists []|exists (sch ++ lit "://")];
      rewrite <- ?app_assoc; auto. }
  exists sp. destruct E3 as [[-> <-]|(t & -> & Ht & Hp & Hne)]; [exists []|exists (58 :: t)];
    exists qp; split_and!; rewrite <- ?app_assoc; eauto 10.
Qed.

Lemma url_parse_decompose_witness :
  exists sp pp qp, lit "ws://h:81/p" = sp ++ lit "h" ++ pp ++ lit "/p" ++ qp.
Proof.
  destruct (url_parse_decompose (lit "ws://h:81/p") (mkURL (lit "ws") (lit "h") 81 (lit "/p") []))
    as (sp & pp & qp & E & _); [done|]. exists sp, pp, qp. exact E.
Defined.
