(* ===== verification/Errors.v ===== *)
(** Errors and results ([src/Error.cc], [include/crouton/Error.hh],
    [include/crouton/Result.hh]): the packed [Error] with its registry of domains,
    descriptions, the conversion of exceptions, and [Result<T>]. *)

From S2P Require Import Prelude Numerals.

Local Open Scope Z_scope.

(** * Error *)

(** 18 bits of signed code and 6 bits of domain index. *)
Record Error := mkError { _code : Z; _domain : Z }.

#[export] Instance Error_eq_dec : EqDecision Error.
Proof. solve_decision. Defined.

Definition noerror : Error := mkError 0 0.

(** A domain is identified by the address of its type information. *)
Record DomainMeta := mkMeta {
  type : option Z;
  name : bytes;
  description_fn : option (Z -> bytes)
}.

Definition kNDomains : nat := 64.

Definition noMeta : DomainMeta := mkMeta None [] None.

(** The registry at start. *)
Definition sDomains0 : list DomainMeta := repeat noMeta kNDomains.

(** The loop of [_registerDomain] from slot [i] on: the slot of the domain and the
    slots as they are then. *)
Fixpoint registerLoop (t : Z) (nm : bytes) (d : Z -> bytes) (ds : list DomainMeta) (i : Z)
  : option (Z * list DomainMeta) :=
  match ds with
  | [] => None
  | m :: r =>
      if bool_decide (type m = Some t) then Some (u8 i, ds)
      else if bool_decide (type m = None) then Some (u8 i, mkMeta (Some t) nm (Some d) :: r)
      else match registerLoop t nm d r (i + 1) with
           | Some (id, r') => Some (id, m :: r')
           | None => None
           end
  end.

(** [CppError::runtime_error]. *)
Definition cpp_runtime_error : Z := 7.

Definition registerDomain (t : Z) (nm : bytes) (d : Z -> bytes) : ST (list DomainMeta) Z := fun ds =>
  match registerLoop t nm d ds 0 with
  | Some r => Ret r
  | None => Raise (ECpp cpp_runtime_error)
  end.

(** The bit-field: 18 bits, sign-extended. *)
Definition bits18 (c : Z) : Z := (c + 2 ^ 17) mod 2 ^ 18 - 2 ^ 17.

(** [Error(errorcode_t, uint8_t)]: the code must fit. *)
Definition newError (c dom : Z) : outcome Error :=
  _ ← precondition (bits18 c =? c);
  Ret (mkError (bits18 c) (dom mod 64)).

(** [Error(D d)]: registers the domain of [D] the first time. *)
Definition errorOf (t : Z) (nm : bytes) (d : Z -> bytes) (c : Z) : ST (list DomainMeta) Error :=
  id ← registerDomain t nm d;
  lift (newError c id).

Definition code (e : Error) : Z := _code e.

Definition isSet (e : Error) : bool := negb (_code e =? 0).

Definition meta (ds : list DomainMeta) (e : Error) : DomainMeta := nth (Z.to_nat (_domain e)) ds noMeta.

Definition domain (ds : list DomainMeta) (e : Error) : bytes :=
  if negb (_code e =? 0) then name (meta ds e) else [].

(** [typeInfo()]: null stands for [typeid(void)]. *)
Definition typeInfo (ds : list DomainMeta) (e : Error) : option Z :=
  if negb (_code e =? 0) then type (meta ds e) else None.

Definition brief (ds : list DomainMeta) (e : Error) : bytes :=
  if _code e =? 0 then lit "(no error)"
  else domain ds e ++ lit " error " ++ to_string (_code e).

Definition description (ds : list DomainMeta) (e : Error) : bytes :=
  if negb (_code e =? 0) then
    match description_fn (meta ds e) with
    | Some desc => let d := desc (_code e) in if negb (bool_decide (d = [])) then d else brief ds e
    | None => brief ds e
    end
  else brief ds e.

(** [is<D>()] and [as<D>()]. *)
Definition isDomain (ds : list DomainMeta) (t : Z) (e : Error) : bool := bool_decide (typeInfo ds e = Some t).

Definition asDomain (ds : list DomainMeta) (t : Z) (e : Error) : Z := if isDomain ds t e then _code e else 0.

(** [operator==(Error, D)]. *)
Definition equalsCode (ds : list DomainMeta) (e : Error) (t c : Z) : bool :=
  bool_decide (typeInfo ds e = Some t) && (code e =? c).

(** * Descriptions *)

Definition NameEntry : Type := Z * string.

Fixpoint lookupName (c : Z) (table : list NameEntry) : bytes :=
  match table with
  | [] => []
  | (k, n) :: r => if k =? c then lit n else lookupName c r
  end.

Definition croutonCode (e : CroutonError) : Z :=
  match e with
  | Cancelled => 1 | EmptyResult => 2 | InvalidArgument => 3 | InvalidState => 4 | InvalidURL => 5
  | LogicError => 6 | ParseError => 7 | Timeout => 8 | UnexpectedEOF => 9 | Unimplemented => 10
  | Disconnected => 11 | NotFound => 12
  end.

Definition croutonNames : list NameEntry := [
  (croutonCode Cancelled, "operation was cancelled"%string);
  (croutonCode EmptyResult, "internal error (accessed empty Result)"%string);
  (croutonCode InvalidArgument, "internal error (invalid argument)"%string);
  (croutonCode InvalidState, "internal error (invalid state)"%string);
  (croutonCode InvalidURL, "invalid URL"%string);
  (croutonCode LogicError, "internal error (logic error)"%string);
  (croutonCode ParseError, "unreadable data"%string);
  (croutonCode Timeout, "operation timed out"%string);
  (croutonCode UnexpectedEOF, "unexpected end of data"%string);
  (croutonCode Unimplemented, "unimplemented operation"%string);
  (croutonCode Disconnected, "unexpectedly disconnected"%string);
  (croutonCode NotFound, "not found"%string)].

Definition croutonDescription (c : Z) : bytes := lookupName c croutonNames.

(** [CppError]'s codes, in order. *)
Definition kExceptionNames : list NameEntry :=
  [(1, "std::exception"%string); (2, "std::logic_error"%string); (3, "std::invalid_argument"%string);
   (4, "std::domain_error"%string); (5, "std::length_error"%string); (6, "std::out_of_range"%string);
   (7, "std::runtime_error"%string); (8, "std::range_error"%string); (9, "std::overflow_error"%string);
   (10, "std::underflow_error"%string); (11, "std::regex_error"%string); (12, "std::system_error"%string);
   (13, "std::format_error"%string); (14, "std::bad_typeid"%string); (15, "std::bad_cast"%string);
   (16, "std::bad_any_cast"%string); (17, "std::bad_optional_access"%string); (18, "std::bad_weak_ptr"%string);
   (19, "std::bad_function_call"%string); (20, "std::bad_alloc"%string);
   (21, "std::bad_array_new_length"%string); (22, "std::bad_exception"%string);
   (23, "std::bad_variant_access"%string)].

Definition cppDescription (c : Z) : bytes := lookupName c kExceptionNames.

(** [exceptionToCppError], given the unmangled name of the exception's class. *)
Fixpoint findException (nm : bytes) (table : list NameEntry) : option Z :=
  match table with
  | [] => None
  | (k, n) :: r => if bool_decide (lit n = nm) then Some k else findException nm r
  end.

Definition exceptionToCppError (nm : bytes) : Z :=
  match findException nm kExceptionNames with Some k => k | None => 1 end.

(** A caught C++ exception: an [Exception] with its Error, another standard
    exception by its class name, or anything else. *)
Inductive exception := XCrouton (e : Error) | XStd (className : bytes) | XOther.

(** [Error(std::exception_ptr)], as the Error of an [Exception] or as a [CppError] code. *)
Definition errorOfException (x : option exception) : Error + Z :=
  match x with
  | None => inl noerror
  | Some (XCrouton e) => inl e
  | Some (XStd nm) => inr (exceptionToCppError nm)
  | Some XOther => inr 1
  end.

(** * Result

    A variant of a value and an [Error], which may be [noerror] ([None]). *)

Inductive Result (T : Type) := RValue (v : T) | RError (e : option error).
Arguments RValue {_} _.
Arguments RError {_} _.

Section result.
Context {T : Type}.

Definition emptyResult : Result T := RError None.

Definition ok (r : Result T) : bool := match r with RValue _ => true | _ => false end.

Definition empty (r : Result T) : bool := match r with RError None => true | _ => false end.

Definition isError (r : Result T) : bool := match r with RError (Some _) => true | _ => false end.

(** [operator bool]. *)
Definition toBool (r : Result T) : outcome bool :=
  match r with
  | RError (Some e) => Raise e
  | RError None => Ret false
  | RValue _ => Ret true
  end.

Definition errorOfResult (r : Result T) : option error :=
  match r with RError e => e | RValue _ => None end.

Definition raise_if (r : Result T) : outcome unit :=
  match r with
  | RError e => Raise (match e with Some e => e | None => ECrouton EmptyResult end)
  | RValue _ => Ret tt
  end.

Definition value (r : Result T) : outcome T :=
  _ ← raise_if r;
  match r with RValue v => Ret v | RError _ => Fault OutOfBounds end.

End result.

(** * Lemmas *)

(** Filled slots come first and hold different domains. *)
Fixpoint registryOk (ds : list DomainMeta) : Prop :=
  match ds with
  | [] => True
  | m :: r =>
      match type m with
      | None => Forall (fun x => type x = None) r
      | Some t => Forall (fun x => type x <> Some t) r
      end /\ registryOk r
  end.

Lemma registerLoop_spec t nm d ds i id ds' :
  registerLoop t nm d ds i = Some (id, ds') -> registryOk ds -> 0 <= i -> i + Z.of_nat (length ds) <= 64 ->
  registryOk ds' /\ length ds' = length ds
  /\ exists k, id = i + Z.of_nat k /\ (k < length ds)%nat
     /\ (exists m, ds' !! k = Some m /\ type m = Some t)
     /\ (forall j m, ds !! j = Some m -> is_Some (type m) -> ds' !! j = Some m)
     /\ (forall j m, ds' !! j = Some m -> type m = Some t -> j = k)
     /\ (forall u, Forall (fun x => type x <> Some u) ds -> u <> t -> Forall (fun x => type x <> Some u) ds').
Proof.
  revert i id ds'. induction ds as [|m r IH]; intros i id ds'; cbn [registerLoop]; [done|].
  cbn [length registryOk]. intros E [Hm Hr] Hi Hlen.
  case_bool_decide as E1.
  { injection E as <- <-. rewrite E1 in Hm. cbn [registryOk]. rewrite E1.
    split_and!; [done..|]. exists 0%nat.
    rewrite u8_small by (unfold is_byte; lia). split_and!; [lia|lia|exists m; done|done| |done].
    intros [|j] m' Hj Ht; [done|]. cbn in Hj. rewrite Forall_lookup in Hm. destruct (Hm _ _ Hj Ht). }
  case_bool_decide as E2.
  { injection E as <- <-. rewrite E2 in Hm. cbn [registryOk type]. split_and!.
    - apply Forall_impl with (1 := Hm). intros x ->. done.
    - done.
    - done.
    - exists 0%nat. rewrite u8_small by (unfold is_byte; lia).
      split_and!; [lia|lia|eexists; split; reflexivity| | |].
      + intros [|j] m' Hj [t' Ht]; cbn in Hj; [|done]. injection Hj as <-. congruence.
      + intros [|j] m' Hj Ht; [done|]. cbn in Hj. rewrite Forall_lookup in Hm. rewrite (Hm _ _ Hj) in Ht. done.
      + intros u Hu Hne. apply Forall_cons in Hu as [_ Hu]. constructor; [cbn; congruence|done]. }
  destruct (registerLoop t nm d r (i + 1)) as [[id' r']|] eqn:E3; [|done]. injection E as <- <-.
  destruct (IH (i + 1) id' r' E3 Hr) as (H1 & H2 & k & -> & H4 & H5 & H6 & H7 & H8); [lia|lia|].
  destruct (type m) as [u|] eqn:Eu; [|done].
  cbn [registryOk length]. rewrite Eu. split_and!; [apply H8; congruence|done|lia|].
  exists (S k). split_and!; [lia|lia|done| | |].
  - intros [|j] m' Hj Ht; [done|]. cbn in *. eauto.
  - intros [|j] m' Hj Ht; cbn in Hj; [simplify_eq; congruence|]. f_equal. eauto.
  - intros u' Hu Hne. apply Forall_cons in Hu as [? ?]. constructor; [done|]. eauto.
Qed.

Lemma registerLoop_full t nm d ds i :
  registerLoop t nm d ds i = None <-> Forall (fun m => is_Some (type m) /\ type m <> Some t) ds.
Proof.
  revert i. induction ds as [|m r IH]; intros i; cbn [registerLoop]; [done|].
  rewrite Forall_cons. case_bool_decide as E1; [naive_solver|]. case_bool_decide as E2.
  { split; [done|]. intros [[[? ?] _] _]. congruence. }
  specialize (IH (i + 1)). destruct (registerLoop t nm d r (i + 1)) as [[? ?]|].
  - split; [done|]. intros [_ ?]. naive_solver.
  - split; [|done]. intros _. split; [|naive_solver]. split; [|done]. destruct (type m); [eauto|done].
Qed.

Lemma bits18_small c : - 2 ^ 17 <= c < 2 ^ 17 -> bits18 c = c.
Proof. intros H. unfold bits18. rewrite Z.mod_small; lia. Qed.

(** * Properties *)

(** An error keeps its domain and code: built from code [c] of a domain, with
    any registry of 64 slots that is not full (or has the domain already), it
    answers [as<D>] with [c] and [is<D>] for that domain only, also after the
    registry has changed by registering other domains; errors of domains
    registered before are not affected. *)
Theorem error_domain_roundtrip t nm d c ds e ds1 t' nm' d' id' ds2 :
  registryOk ds -> length ds = kNDomains -> - 2 ^ 17 <= c < 2 ^ 17 -> c <> 0 ->
  errorOf t nm d c ds = Ret (e, ds1) -> registerDomain t' nm' d' ds1 = Ret (id', ds2) ->
  registryOk ds2 /\ length ds2 = kNDomains
  /\ code e = c /\ asDomain ds1 t e = c /\ asDomain ds2 t e = c
  /\ (forall u, isDomain ds2 u e = bool_decide (u = t))
  /\ (forall f, typeInfo ds f <> None -> typeInfo ds2 f = typeInfo ds f).
Proof.
  unfold errorOf, registerDomain, mbind, ST_bind. intros Hok Hlen Hc Hne E1 E2.
  destruct (registerLoop t nm d ds 0) as [[id r]|] eqn:F1; [|done].
  unfold lift, newError in E1. rewrite bits18_small, Z.eqb_refl in E1 by done. cbn in E1. injection E1 as <- <-.
  destruct (registerLoop t' nm' d' r 0) as [[id2 r2]|] eqn:F2; [|done]. injection E2 as <- <-.
  unfold kNDomains in *.
  destruct (registerLoop_spec _ _ _ _ _ _ _ F1 Hok) as (G1 & G2 & k & -> & G4 & (m & G5 & G6) & G7 & G8 & _); [lia|lia|].
  destruct (registerLoop_spec _ _ _ _ _ _ _ F2 G1) as (K1 & K2 & k2 & -> & K4 & _ & K7 & K8 & _); [lia|lia|].
  rewrite Z.add_0_l. rewrite Z.mod_small by lia.
  assert (forall r0, r0 !! k = Some m -> typeInfo r0 (mkError c (Z.of_nat k)) = Some t) as Ht.
  { intros r0 Hr. unfold typeInfo, meta. cbn. rewrite (proj2 (Z.eqb_neq c 0) Hne), Nat2Z.id. cbn.
    now rewrite (nth_lookup_Some _ _ _ _ Hr). }
  pose proof (Ht r G5) as T1. pose proof (Ht r2 (K7 k m G5 ltac:(eauto))) as T2.
  split_and!; [done|lia|done|..].
  - unfold asDomain, isDomain. now rewrite T1, bool_decide_eq_true_2.
  - unfold asDomain, isDomain. now rewrite T2, bool_decide_eq_true_2.
  - intros u. unfold isDomain. rewrite T2. apply bool_decide_ext. naive_solver.
  - intros f Hf. unfold typeInfo, meta in *. destruct (negb (_code f =? 0)); [|done].
    set (i := Z.to_nat (_domain f)) in *. rewrite !nth_lookup in *.
    destruct (ds !! i) as [mi|] eqn:Ei; [|done]. cbn in *.
    assert (is_Some (type mi)) as Hs by (destruct (type mi); [eauto|done]).
    now rewrite (K7 i mi (G7 i mi Ei Hs) Hs).
Qed.

Lemma error_domain_roundtrip_witness :
  exists e ds1, errorOf 11 (lit "Crouton") croutonDescription 7 sDomains0 = Ret (e, ds1)
    /\ asDomain ds1 11 e = 7 /\ description ds1 e = lit "unreadable data".
Proof.
  destruct (errorOf 11 (lit "Crouton") croutonDescription 7 sDomains0) as [[e ds1]| |] eqn:E; [|discriminate E..].
  destruct (registerDomain 12 (lit "exception") cppDescription ds1) as [[id ds2]| |] eqn:E2.
  2,3: vm_compute in E; injection E as <- <-; vm_compute in E2; discriminate E2.
  exists e, ds1. split; [reflexivity|].
  split; [apply (error_domain_roundtrip 11 (lit "Crouton") croutonDescription 7 sDomains0 e ds1 12 (lit "exception")
                    cppDescription id ds2); [|reflexivity|lia|lia|exact E|exact E2]|].
  - unfold sDomains0, kNDomains. cbn. repeat split; repeat (constructor; [reflexivity|]); constructor.
  - vm_compute in E. injection E as <- <-. reflexivity.
Defined.

(** The 65th domain is refused: registration throws exactly when every slot is
    taken by another domain. *)
Theorem error_registry_full t nm d ds :
  registerDomain t nm d ds = Raise (ECpp cpp_runtime_error)
  <-> Forall (fun m => is_Some (type m) /\ type m <> Some t) ds.
Proof.
  rewrite <- (registerLoop_full t nm d ds 0). unfold registerDomain.
  destruct (registerLoop t nm d ds 0) as [[? ?]|]; done.
Qed.

(** A Result is exactly one of a value, empty and an error; [value()] returns the
    value, throws the error, and throws [EmptyResult] when empty. *)
Theorem result_trichotomy {T} (r : Result T) :
  (ok r = true /\ empty r = false /\ isError r = false /\ errorOfResult r = None
     /\ toBool r = Ret true /\ exists v, r = RValue v /\ value r = Ret v)
  \/ (ok r = false /\ empty r = true /\ isError r = false /\ errorOfResult r = None
     /\ toBool r = Ret false /\ value r = Raise (ECrouton EmptyResult))
  \/ (ok r = false /\ empty r = false /\ isError r = true
     /\ exists e, errorOfResult r = Some e /\ toBool r = Raise e /\ value r = Raise e).
Proof.
  destruct r as [v|[e|]]; cbn; [left|right; right|right; left]; split_and!; eauto.
Qed.
