(* ===== verification/Format.v ===== *)
(** String formatting ([include/crouton/util/MiniFormat.hh], [src/support/MiniFormat.cc], and what
    it uses of [MiniOStream]): the compile-time parser of format strings and field specifications,
    and the formatter of arguments.

    An output stream is the bytes written to it; [format_error] is a [std::runtime_error].  The
    arguments passed through [va_list] are values tagged with their [ArgType].  A [double] is only
    compared with zero and given to [std::to_chars], both arguments of the model. *)

From S2P Require Import Prelude Numerals Errors.

Local Open Scope Z_scope.

(** * Data *)

Inductive ArgType :=
| TNone | TBool | TChar | TInt | TUInt | TLong | TULong | TLongLong | TULongLong | TDouble
| TCString | TString | TStringView | TPointer | TArg.

#[export] Instance ArgType_eq_dec : EqDecision ArgType.
Proof. solve_decision. Defined.

(** [kDefaultTypeCharForArgType]: " scdddddd sssp ". *)
Definition kDefaultTypeChar (t : ArgType) : Z :=
  match t with
  | TBool => 115
  | TChar => 99
  | TInt | TUInt | TLong | TULong | TLongLong | TULongLong => 100
  | TCString | TString | TStringView => 115
  | TPointer => 112
  | TNone | TDouble | TArg => 32
  end.

(** [kValidTypeCharsForArgType]: there is no comma between the literals for [StringView] and
    [Pointer], so these are one element, those after it move down, and the last is null. *)
Definition kValidTypeChars (t : ArgType) : option bytes :=
  match t with
  | TNone => Some []
  | TBool => Some (lit "sbBdoxX")
  | TChar => Some (lit "cbBdoxX")
  | TInt | TUInt | TLong | TULong | TLongLong | TULongLong => Some (lit "bBcdoxX")
  | TDouble => Some (lit "aAeEfFgG")
  | TCString | TString => Some (lit "s")
  | TStringView => Some (lit "spP")
  | TPointer => Some (lit "s")
  | TArg => None
  end.

(** The integers and [double], from [Int] to [Double] in the enumeration. *)
Definition isNumeric (t : ArgType) : bool :=
  match t with TInt | TUInt | TLong | TULong | TLongLong | TULongLong | TDouble => true | _ => false end.

Inductive align_t := left | center | right.
Inductive sign_t := minusOnly | minusPlus | minusSpace.

#[export] Instance align_t_eq_dec : EqDecision align_t.
Proof. solve_decision. Defined.
#[export] Instance sign_t_eq_dec : EqDecision sign_t.
Proof. solve_decision. Defined.

Definition kDefaultPrecision : Z := 255.
Definition kMaxPrecision : Z := 255.
Definition kMaxWidth : Z := 255.
Definition kMaxSpecs : nat := 10.
Definition kMaxSegments : nat := 21.

Record Spec := mkSpec {
  type : Z;
  fill : Z;
  width : Z;
  precision : Z;
  align : align_t;
  sign : sign_t;
  alternate : bool;
  localize : bool
}.

Definition defaultSpec : Spec := mkSpec 0 32 0 kDefaultPrecision left minusOnly false false.

Definition format_error {A} : outcome A := Raise (ECpp cpp_runtime_error).

(** [Impl]: the pieces' lengths and the specifications, as far as they are filled. *)
Record Impl := mkImpl {
  _str : bytes;
  _lengths : list Z;
  _specs : list Spec
}.

(** * Parsing a field specification *)

Definition isAlpha (c : Z) : bool := ((65 <=? c) && (c <=? 90)) || ((97 <=? c) && (c <=? 122)).

(** The character at a position of a C string, NUL at its end. *)
Definition at_ (s : bytes) (i : nat) : Z := nth i s 0.

Definition isAlignChar (c : Z) : bool := (c =? 60) || (c =? 94) || (c =? 62).

Definition withAlign (c : Z) (p : Spec) : Spec :=
  mkSpec (type p) (fill p) (width p) (precision p)
    (if c =? 60 then left else if c =? 94 then center else if c =? 62 then right else align p)
    (sign p) (alternate p) (localize p).

Definition withFill (c : Z) (p : Spec) : Spec :=
  mkSpec (type p) c (width p) (precision p) (align p) (sign p) (alternate p) (localize p).

Definition withSign (g : sign_t) (p : Spec) : Spec :=
  mkSpec (type p) (fill p) (width p) (precision p) (align p) g (alternate p) (localize p).

Definition withAlternate (p : Spec) : Spec :=
  mkSpec (type p) (fill p) (width p) (precision p) (align p) (sign p) true (localize p).

Definition withZeroFill (p : Spec) : Spec :=
  mkSpec (type p) 48 (width p) (precision p) right (sign p) (alternate p) (localize p).

Definition withWidth (w : Z) (p : Spec) : Spec :=
  mkSpec (type p) (fill p) w (precision p) (align p) (sign p) (alternate p) (localize p).

Definition withPrecision (n : Z) (p : Spec) : Spec :=
  mkSpec (type p) (fill p) (width p) n (align p) (sign p) (alternate p) (localize p).

Definition withLocalize (p : Spec) : Spec :=
  mkSpec (type p) (fill p) (width p) (precision p) (align p) (sign p) (alternate p) true.

Definition withType (t : Z) (p : Spec) : Spec :=
  mkSpec t (fill p) (width p) (precision p) (align p) (sign p) (alternate p) (localize p).

(** The type and the alignment a field has when its specification does not say. *)
Definition initialSpec (t : ArgType) : Spec :=
  let p := if kDefaultTypeChar t =? 32 then defaultSpec else withType (kDefaultTypeChar t) defaultSpec in
  if isNumeric t then withAlign 62 p else p.

(** Fill and alignment: the alignment character ([0] when there is none). *)
Definition parseAlign (s : bytes) (p : Spec) : Z * bytes * Spec :=
  if isAlignChar (at_ s 0) then (at_ s 0, drop 1 s, withAlign (at_ s 0) (withFill 32 p))
  else if isAlignChar (at_ s 1) then (at_ s 1, drop 2 s, withAlign (at_ s 1) (withFill (at_ s 0) p))
  else (0, s, p).

(** The sign; [None] for the rest when the specification ends here. *)
Definition parseSign (s : bytes) (p : Spec) : option bytes * Spec :=
  if at_ s 0 =? 125 then (None, p)
  else if at_ s 0 =? 45 then (Some (drop 1 s), withSign minusOnly p)
  else if at_ s 0 =? 43 then (Some (drop 1 s), withSign minusPlus p)
  else if at_ s 0 =? 32 then (Some (drop 1 s), withSign minusSpace p)
  else (Some s, p).

Definition parseHash (s : bytes) (p : Spec) : bytes * Spec :=
  if at_ s 0 =? 35 then (drop 1 s, withAlternate p) else (s, p).

Definition parseZero (alignChar : Z) (s : bytes) (p : Spec) : bytes * Spec :=
  if (at_ s 0 =? 48) && (alignChar =? 0) then (drop 1 s, withZeroFill p) else (s, p).

(** A decimal number up to a limit. *)
Fixpoint parseNumber (limit : Z) (s : bytes) (acc : Z) : outcome (Z * bytes) :=
  match s with
  | c :: r =>
      if isDigit c then
        let w := u32 (10 * acc + (c - 48)) in
        if limit <? w then format_error else parseNumber limit r w
      else Ret (acc, s)
  | [] => Ret (acc, [])
  end.

Definition parseWidth (s : bytes) (p : Spec) : outcome (bytes * Spec) :=
  if isDigit (at_ s 0) then
    r ← parseNumber kMaxWidth s 0;
    Ret (r.2, withWidth (u8 r.1) p)
  else Ret (s, p).

Definition parsePrecision (s : bytes) (p : Spec) : outcome (bytes * Spec) :=
  if at_ s 0 =? 46 then
    if isDigit (at_ s 1) then
      r ← parseNumber kMaxPrecision (drop 1 s) 0;
      Ret (r.2, withPrecision (u8 r.1) p)
    else format_error
  else Ret (s, p).

Definition parseLocalize (s : bytes) (p : Spec) : bytes * Spec :=
  if at_ s 0 =? 76 then (drop 1 s, withLocalize p) else (s, p).

(** [valid] is walked to its terminating NUL, which a null pointer does not have. *)
Definition checkType (t : Z) (argType : ArgType) : outcome unit :=
  if bool_decide (argType = TNone) then Ret tt
  else
    match kValidTypeChars argType with
    | None => Fault OutOfBounds
    | Some valid => if bool_decide (t ∈ valid) then Ret tt else format_error
    end.

Definition parseType (s : bytes) (argType : ArgType) (p : Spec) : outcome Spec :=
  let t := at_ s 0 in
  if t =? 125 then Ret p
  else if negb (isAlpha t) then format_error
  else
    _ ← checkType t argType;
    if at_ s 1 =? 125 then Ret (withType t p) else format_error.

(** [Spec::parse]; [s] is the format string from after the opening brace. *)
Definition parseSpec (s : bytes) (argType : ArgType) : outcome Spec :=
  let p := initialSpec argType in
  if at_ s 0 =? 125 then Ret p
  else if negb (at_ s 0 =? 58) then format_error
  else
    let s := drop 1 s in
    if at_ s 0 =? 125 then Ret p
    else
      let '(alignChar, s, p) := parseAlign s p in
      match parseSign s p with
      | (None, p) => Ret p
      | (Some s, p) =>
          let '(s, p) := parseHash s p in
          let '(s, p) := parseZero alignChar s p in
          '(s, p) ← parseWidth s p;
          '(s, p) ← parsePrecision s p;
          let '(s, p) := parseLocalize s p in
          parseType s argType p
      end.

(** * Parsing a format string *)

(** [find_first_of("{}")]: the text before the first brace, and the text from it on. *)
Fixpoint breakBrace (s : bytes) : bytes * bytes :=
  match s with
  | [] => ([], [])
  | c :: r => if (c =? 123) || (c =? 125) then ([], s) else let '(a, b) := breakBrace r in (c :: a, b)
  end.

(** [find('}')]: how many characters come before it. *)
Fixpoint findClose (s : bytes) : option nat :=
  match s with
  | [] => None
  | c :: r => if c =? 125 then Some 0%nat else S <$> findClose r
  end.

Definition addSegment (n : nat) (ls : list Z) : outcome (list Z) :=
  if (0 <? n)%nat then
    if (kMaxSegments <=? length ls)%nat then format_error
    else if (255 <? n)%nat then format_error
    else Ret (ls ++ [u8 (Z.of_nat n)])
  else Ret ls.

(** The loop of [parse], from what follows the last segment. *)
Fixpoint parseLoop (fuel : nat) (s : bytes) (args : list ArgType) (ls : list Z) (sp : list Spec) : outcome (list Z * list Spec) :=
  let '(text, r) := breakBrace s in
  ls ← addSegment (length text) ls;
  match r with
  | [] => Ret (ls, sp)
  | c :: r =>
      match fuel with
      | O => Fault NoFuel
      | S f =>
          if c =? 125 then
            match r with
            | 125 :: r' => ls ← addSegment 2 ls; parseLoop f r' args ls sp
            | _ => format_error
            end
          else
            match r with
            | 123 :: r' => ls ← addSegment 2 ls; parseLoop f r' args ls sp
            | _ =>
                match findClose r with
                | None => format_error
                | Some k =>
                    if (kMaxSpecs <=? length sp)%nat then format_error
                    else
                      match args with
                      | [] => format_error
                      | t :: args' =>
                          p ← parseSpec r t;
                          ls ← addSegment (k + 2) ls;
                          parseLoop f (drop (S k) r) args' ls (sp ++ [p])
                      end
                end
            end
      end
  end.

(** [string_view str(cstr)]: up to the first NUL. *)
Fixpoint c_str (s : bytes) : bytes :=
  match s with
  | [] => []
  | c :: r => if c =? 0 then [] else c :: c_str r
  end.

Definition parse (cstr : bytes) (argTypes : list ArgType) : outcome Impl :=
  let str := c_str cstr in
  r ← parseLoop (length str) str argTypes [] [];
  Ret (mkImpl cstr r.1 r.2).

(** * The iterator *)

Record iterator := mkIter {
  i_str : bytes;
  i_lengths : list Z;
  i_specs : list Spec
}.

Definition begin (m : Impl) : iterator := mkIter (_str m) (_lengths m) (_specs m).

Definition isLiteral (i : iterator) : bool := negb (at_ (i_str i) 0 =? 123) || (at_ (i_str i) 1 =? 123).

Definition literal (i : iterator) : bytes :=
  if (at_ (i_str i) 0 =? 123) || (at_ (i_str i) 0 =? 125) then take 1 (i_str i)
  else take (Z.to_nat (hd 0 (i_lengths i))) (i_str i).

Definition increment (i : iterator) : iterator :=
  mkIter (drop (Z.to_nat (hd 0 (i_lengths i))) (i_str i)) (tail (i_lengths i))
    (if isLiteral i then i_specs i else tail (i_specs i)).

(** * Formatting *)

Definition isUpper (c : Z) : bool := (65 <=? c) && (c <=? 90).
Definition toUpper (c : Z) : Z := if (97 <=? c) && (c <=? 122) then c - 32 else c.
Definition upperize (s : bytes) : bytes := map toUpper s.

Definition prefixFor (p : Spec) : bytes := if alternate p then [48; type p] else [].

(** The prefix written and the base. *)
Definition baseForInt (p : Spec) : outcome (bytes * Z) :=
  let t := type p in
  if (t =? 100) || (t =? 0) then Ret ([], 10)
  else if (t =? 98) || (t =? 66) then Ret (prefixFor p, 2)
  else if t =? 111 then Ret ([], 8)
  else if (t =? 120) || (t =? 88) then Ret (prefixFor p, 16)
  else if t =? 99 then Ret ([], 0)
  else format_error.

Definition writeNonNegativeSign (g : sign_t) : bytes :=
  match g with minusPlus => [43] | minusSpace => [32] | minusOnly => [] end.

Definition vformat_integer (p : Spec) (i : Z) : outcome bytes :=
  if type p =? 99 then
    if (i <? 0) || (127 <? i) then format_error else Ret [i]
  else
    let s := if 0 <=? i then writeNonNegativeSign (sign p) else [] in
    '(prefix, base) ← baseForInt p;
    let octal := if alternate p && (base =? 8) && negb (i =? 0) then [48] else [] in
    let digits := to_chars i base in
    Ret (s ++ prefix ++ octal ++ (if type p =? 88 then upperize digits else digits)).

Definition vformat_string (p : Spec) (s : bytes) : outcome bytes :=
  if negb (type p =? 0) && negb (type p =? 115) then format_error
  else Ret (if (precision p <? Z.of_nat (length s)) && negb (precision p =? kDefaultPrecision)
            then take (Z.to_nat (precision p)) s else s).

(** [ostream << const void*]. *)
Definition writePointer (ptr : Z) : bytes := lit "0x" ++ to_chars ptr 16.

Section format.
Context {D : Type}.

(** [std::to_chars] of a [double] into a buffer of the given size, in its shortest form or in a format
    (a letter of "aefg") with a precision; [None]: it does not fit. *)
Variable nonNegative : D -> bool.
Variable to_chars_double : nat -> D -> option (Z * Z) -> option bytes.

Inductive arg :=
| ABool (b : bool) | AChar (c : Z)
| AInt (i : Z) | AUInt (i : Z) | ALong (i : Z) | AULong (i : Z) | ALongLong (i : Z) | AULongLong (i : Z)
| ADouble (d : D)
| ACString (s : option bytes) | AString (s : bytes) | AStringView (s : bytes)
| APointer (p : Z)
| AArg (written : bytes).

Definition typeOf (a : arg) : ArgType :=
  match a with
  | ABool _ => TBool | AChar _ => TChar | AInt _ => TInt | AUInt _ => TUInt | ALong _ => TLong | AULong _ => TULong
  | ALongLong _ => TLongLong | AULongLong _ => TULongLong | ADouble _ => TDouble | ACString _ => TCString
  | AString _ => TString | AStringView _ => TStringView | APointer _ => TPointer | AArg _ => TArg
  end.

Definition kDoubleBuf : nat := 60.

Definition doubleFormat (t : Z) : outcome Z :=
  if (t =? 97) || (t =? 65) then Ret 97
  else if (t =? 101) || (t =? 69) then Ret 101
  else if (t =? 102) || (t =? 70) then Ret 102
  else if (t =? 0) || (t =? 103) || (t =? 71) then Ret 103
  else format_error.

(** The shortest form always fits; a '.' appended to a full buffer is written past its end. *)
Definition vformat_double (p : Spec) (d : D) : outcome bytes :=
  let s := if nonNegative d then writeNonNegativeSign (sign p) else [] in
  let finish (buf : bytes) : outcome bytes :=
    if alternate p && negb (bool_decide (46 ∈ buf)) then
      if (length buf <? kDoubleBuf)%nat then Ret (s ++ buf ++ [46]) else Fault OutOfBounds
    else Ret (s ++ buf) in
  if (type p =? 0) && (precision p =? kDefaultPrecision) then
    match to_chars_double kDoubleBuf d None with
    | Some buf => finish buf
    | None => Fault OutOfBounds
    end
  else
    let n := if negb (precision p =? kDefaultPrecision) then precision p else 6 in
    f ← doubleFormat (type p);
    match to_chars_double kDoubleBuf d (Some (f, n)) with
    | None => Ret (s ++ lit "FIELD OVERFLOW")
    | Some buf => finish (if isUpper (type p) then upperize buf else buf)
    end.

Definition isAny (t : Z) (l : list Z) : bool := bool_decide (t ∈ l).

Definition vformat_arg_nowidth (p : Spec) (a : arg) : outcome bytes :=
  match a with
  | ABool b =>
      if isAny (type p) [0; 115] then Ret (if b then lit "true" else lit "false")
      else vformat_integer p (if b then 1 else 0)
  | AChar c => if isAny (type p) [0; 99] then Ret [c] else vformat_integer p (schar c)
  | AInt i | AUInt i | ALong i | AULong i | ALongLong i | AULongLong i => vformat_integer p i
  | ADouble d => vformat_double p d
  | ACString s => vformat_string p (default [] s)
  | AString s | AStringView s => vformat_string p s
  | APointer x => if isAny (type p) [0; 112; 80] then Ret (writePointer x) else format_error
  | AArg s => Ret s
  end.

Definition padding (n : Z) (c : Z) : bytes := replicate (Z.to_nat n) c.

Definition vformat_arg (p : Spec) (a : arg) : outcome bytes :=
  if width p =? 0 then vformat_arg_nowidth p a
  else
    str ← vformat_arg_nowidth p a;
    let s := Z.of_nat (length str) in
    if width p <=? s then Ret str
    else
      let pad := width p - s in
      let pad := if bool_decide (align p = center) then pad / 2 else pad in
      let '(before, pad) :=
        if bool_decide (align p = left) then ([], pad) else (padding pad (fill p), width p - s - pad) in
      Ret (before ++ str ++ (if bool_decide (align p = right) then [] else padding pad (fill p))).

(** The pieces of the format string; [n] is how many there are. *)
Fixpoint formatLoop (n : nat) (i : iterator) (args : list arg) : outcome (bytes * list arg) :=
  match n with
  | O => Ret ([], args)
  | S k =>
      '(out, args) ← (if isLiteral i then Ret (literal i, args)
                      else
                        match args with
                        | [] => format_error
                        | a :: args' => o ← vformat_arg (hd defaultSpec (i_specs i)) a; Ret (o, args')
                        end);
      '(rest, args) ← formatLoop k (increment i) args;
      Ret (out ++ rest, args)
  end.

(** The arguments left over. *)
Fixpoint formatExtra (delim : bytes) (args : list arg) : outcome bytes :=
  match args with
  | [] => Ret []
  | a :: args' =>
      o ← vformat_arg defaultSpec a;
      rest ← formatExtra (lit ", ") args';
      Ret (delim ++ o ++ rest)
  end.

Definition vformat_types_to (fmt : Impl) (args : list arg) : outcome bytes :=
  '(out, args) ← formatLoop (length (_lengths fmt)) (begin fmt) args;
  extra ← formatExtra (lit " : ") args;
  Ret (out ++ extra).

(** [format]: the format string is parsed for the types of the arguments. *)
Definition format (fmt : bytes) (args : list arg) : outcome bytes :=
  m ← parse fmt (map typeOf args);
  vformat_types_to m args.
End format.
Arguments arg : clear implicits.

(** * The text of a specification

    What may stand between the braces of a field after the colon: every part can be left out.  A fill
    character goes with an alignment; a width without an alignment that begins with a zero asks for zeros. *)

Record Syntax := mkSyntax {
  y_align : option (option Z * align_t);
  y_sign : option sign_t;
  y_hash : bool;
  y_width : bytes;
  y_precision : option bytes;
  y_localize : bool;
  y_type : option Z
}.

Definition alignChar (a : align_t) : Z := match a with left => 60 | center => 94 | right => 62 end.
Definition signChar (g : sign_t) : Z := match g with minusOnly => 45 | minusPlus => 43 | minusSpace => 32 end.

Definition typeText (y : Syntax) : bytes := option_list (y_type y).
Definition localizeText (y : Syntax) : bytes := if y_localize y then [76] else [].
Definition precisionText (y : Syntax) : bytes := match y_precision y with Some ds => 46 :: ds | None => [] end.
Definition hashText (y : Syntax) : bytes := if y_hash y then [35] else [].
Definition signText (y : Syntax) : bytes := option_list (signChar <$> y_sign y).
Definition alignText (y : Syntax) : bytes :=
  match y_align y with
  | Some (Some f, a) => [f; alignChar a]
  | Some (None, a) => [alignChar a]
  | None => []
  end.

Definition printSpec (y : Syntax) : bytes :=
  58 :: alignText y ++ signText y ++ hashText y ++ y_width y ++ precisionText y ++ localizeText y ++ typeText y.

Definition decimal (ds : bytes) : Z := fold_left (fun v c => 10 * v + (c - 48)) ds 0.

Definition zeroFill (y : Syntax) : bool :=
  match y_align y with None => match y_width y with c :: _ => c =? 48 | [] => false end | Some _ => false end.

(** What it asks for, when the argument has type [t]. *)
Definition meaning (t : ArgType) (y : Syntax) : Spec :=
  mkSpec (default (type (initialSpec t)) (y_type y))
    (match y_align y with Some (f, _) => default 32 f | None => if zeroFill y then 48 else 32 end)
    (decimal (y_width y))
    (match y_precision y with Some ds => decimal ds | None => kDefaultPrecision end)
    (match y_align y with Some (_, a) => a | None => if zeroFill y then right else align (initialSpec t) end)
    (default minusOnly (y_sign y)) (y_hash y) (y_localize y).

(** A number the parser takes. *)
Definition byteNumeral (ds : bytes) : Prop := Forall (fun c => isDigit c = true) ds /\ decimal ds <= 255.

(** The fill cannot be a character the parser takes for an alignment or for the end; the type letter is one
    for the argument's type. *)
Record wfSpec (t : ArgType) (y : Syntax) : Prop := {
  w_fill f a : y_align y = Some (Some f, a) -> isAlignChar f = false /\ f <> 125 /\ f <> 0;
  w_width : byteNumeral (y_width y);
  w_precision ds : y_precision y = Some ds -> byteNumeral ds /\ ds <> [];
  w_type c : y_type y = Some c -> isAlpha c = true /\ checkType c t = Ret tt /\ c <> 76;
  w_length : (length (printSpec y) <= 253)%nat
}.

(** * Lemmas on specifications *)

Lemma isDigit_bounds c : isDigit c = true -> 48 <= c <= 57.
Proof. unfold isDigit. rewrite andb_true_iff, !Z.leb_le. lia. Qed.

Lemma decimal_grows ds acc : Forall (fun c => isDigit c = true) ds -> 0 <= acc -> acc <= fold_left (fun v c => 10 * v + (c - 48)) ds acc.
Proof.
  intros Hd. revert acc. induction Hd as [|c ds Hc%isDigit_bounds _ IH]; intros acc Ha; cbn; [lia|].
  etransitivity; [|apply IH]; lia.
Qed.

Lemma decimal_nonneg ds : byteNumeral ds -> 0 <= decimal ds <= 255.
Proof. intros [Hd Hl]. split; [|done]. exact (decimal_grows ds 0 Hd ltac:(lia)). Qed.

Lemma parseNumber_digits limit ds rest acc :
  limit < 2 ^ 32 -> 0 <= acc -> Forall (fun c => isDigit c = true) ds -> fold_left (fun v c => 10 * v + (c - 48)) ds acc <= limit ->
  isDigit (at_ rest 0) = false ->
  parseNumber limit (ds ++ rest) acc = Ret (fold_left (fun v c => 10 * v + (c - 48)) ds acc, rest).
Proof.
  intros Hl Ha Hd Hv Hr. revert acc Ha Hv. induction Hd as [|c ds Hc Hd IH]; intros acc Ha Hv; cbn [app parseNumber fold_left] in *.
  - destruct rest as [|c r]; [done|]. unfold at_ in Hr. cbn in Hr. cbn. now rewrite Hr.
  - rewrite Hc. pose proof (isDigit_bounds c Hc). pose proof (decimal_grows ds (10 * acc + (c - 48)) Hd ltac:(lia)).
    rewrite u32_small by lia. destruct (limit <? _) eqn:E; [apply Z.ltb_lt in E; lia|]. apply IH; [lia|done].
Qed.

Lemma numeral_parse ds rest : byteNumeral ds -> isDigit (at_ rest 0) = false -> parseNumber 255 (ds ++ rest) 0 = Ret (decimal ds, rest).
Proof. intros [Hd Hl] Hr. now apply parseNumber_digits. Qed.

(** What the next character can be, from the end of a specification on. *)
Definition after (l : list Z) (s : bytes) : Prop := at_ s 0 = 125 \/ isAlpha (at_ s 0) = true \/ at_ s 0 ∈ l.

Lemma after_ne l s c : after l s -> c <> 125 -> isAlpha c = false -> c ∉ l -> (at_ s 0 =? c) = false.
Proof. intros Ha H1 H2 H3. apply Z.eqb_neq. intros E. destruct Ha as [Ha|[Ha|Ha]]; congruence. Qed.

Lemma after_weaken l l' s : after l s -> l ⊆ l' -> after l' s.
Proof. intros [H|[H|H]] Hl; [left|right; left|right; right]; auto. Qed.

Lemma alpha_not_digit c : isAlpha c = true -> isDigit c = false.
Proof.
  unfold isAlpha, isDigit. rewrite orb_true_iff, !andb_true_iff, !Z.leb_le. intros H. apply andb_false_iff. rewrite !Z.leb_gt. lia.
Qed.

Lemma after_not_digit l s : after l s -> (forall c, c ∈ l -> isDigit c = false) -> isDigit (at_ s 0) = false.
Proof. intros [H|[H|H]] Hl; [now rewrite H|now apply alpha_not_digit|now apply Hl]. Qed.

Definition digitChars : list Z := [48; 49; 50; 51; 52; 53; 54; 55; 56; 57].

Lemma digit_in c : isDigit c = true -> c ∈ digitChars.
Proof.
  intros Hc%isDigit_bounds. assert (c = 48 \/ c = 49 \/ c = 50 \/ c = 51 \/ c = 52 \/ c = 53 \/ c = 54 \/ c = 55 \/ c = 56 \/ c = 57) as H by lia.
  unfold digitChars. set_solver.
Qed.

Section spec.
Context (t : ArgType) (y : Syntax) (r : bytes) (Hw : wfSpec t y).

(** The text from each part on. *)
Let s1 := typeText y ++ 125 :: r.
Let s2 := localizeText y ++ s1.
Let s3 := precisionText y ++ s2.
Let s4 := y_width y ++ s3.
Let s5 := hashText y ++ s4.
Let s6 := signText y ++ s5.

Lemma s1_after : at_ s1 0 = 125 \/ isAlpha (at_ s1 0) = true /\ at_ s1 0 <> 76.
Proof.
  unfold s1, typeText. destruct (y_type y) as [c|] eqn:E; [right|now left]. destruct (w_type _ _ Hw c E) as (Ha & _ & Hl). done.
Qed.

Lemma s2_after : after [] s2.
Proof. unfold s2, localizeText. destruct (y_localize y); [right; left; reflexivity|]. destruct s1_after as [H|[H _]]; [left|right; left]; exact H. Qed.

Lemma s3_after : after [46] s3.
Proof.
  unfold s3, precisionText. destruct (y_precision y); [right; right; cbn; set_solver|]. eapply after_weaken; [apply s2_after|set_solver].
Qed.

Lemma s4_after : after (46 :: digitChars) s4.
Proof.
  unfold s4. destruct (w_width _ _ Hw) as [Hd _]. destruct (y_width y) as [|c ds]; [eapply after_weaken; [apply s3_after|set_solver]|].
  apply Forall_cons in Hd as [Hc _]. right. right. cbn. apply digit_in in Hc. set_solver.
Qed.

Lemma s5_after : after (35 :: 46 :: digitChars) s5.
Proof. unfold s5, hashText. destruct (y_hash y); [right; right; cbn; set_solver|]. eapply after_weaken; [apply s4_after|set_solver]. Qed.

Lemma s6_after : after ([32; 43; 45; 35; 46] ++ digitChars) s6.
Proof.
  unfold s6, signText. destruct (y_sign y) as [[]|]; [right; right; cbn; set_solver..|]. eapply after_weaken; [apply s5_after|set_solver].
Qed.

Lemma parseType_print q : type q = type (initialSpec t) -> parseType s1 t q = Ret (withType (default (type (initialSpec t)) (y_type y)) q).
Proof.
  intros Hq. unfold s1, typeText. destruct (y_type y) as [c|] eqn:E; cbn [default option_list].
  - destruct (w_type _ _ Hw c E) as (Ha & Hc & _). unfold parseType. change (at_ _ 0) with c. change (at_ _ 1) with 125. rewrite Ha, Hc. cbn.
    assert (c =? 125 = false) as -> by (apply Z.eqb_neq; intros E'; rewrite E' in Ha; discriminate). done.
  - cbn. rewrite <- Hq. now destruct q.
Qed.

Lemma parseLocalize_print q : localize q = false ->
  parseLocalize s2 q = (s1, mkSpec (type q) (fill q) (width q) (precision q) (align q) (sign q) (alternate q) (y_localize y)).
Proof.
  intros Hq. unfold s2, localizeText, parseLocalize. destruct (y_localize y); [reflexivity|]. cbn [app].
  assert ((at_ s1 0 =? 76) = false) as -> by (apply Z.eqb_neq; destruct s1_after as [-> |[_ ?]]; done). destruct q; cbn in *. now subst.
Qed.

Lemma parsePrecision_print q : precision q = kDefaultPrecision ->
  parsePrecision s3 q = Ret (s2, withPrecision (match y_precision y with Some ds => decimal ds | None => kDefaultPrecision end) q).
Proof.
  intros Hq. pose proof s2_after as Ha. unfold s3, precisionText, parsePrecision. destruct (y_precision y) as [ds|] eqn:E.
  - destruct (w_precision _ _ Hw ds E) as [Hn Hne]. pose proof (numeral_parse ds s2 Hn ltac:(eapply after_not_digit; [exact Ha|set_solver])) as Hp.
    destruct ds as [|c ds]; [done|]. destruct Hn as [Hd Hl]. apply Forall_cons in Hd as [Hc Hd]. cbn [app at_ nth Z.eqb Pos.eqb drop]. unfold at_. cbn [nth]. rewrite Hc.
    change kMaxPrecision with 255. cbn [app] in Hp. rewrite Hp. cbn [mbind outcome_bind fst snd].
    rewrite u8_small; [done|]. unfold is_byte. pose proof (decimal_nonneg (c :: ds)). unfold byteNumeral in *. assert (0 <= decimal (c :: ds) <= 255); [|lia].
    apply decimal_nonneg. split; [now constructor|done].
  - cbn [app]. rewrite (after_ne _ _ 46 Ha) by (done || set_solver). rewrite <- Hq. now destruct q.
Qed.

Lemma parseWidth_digits ds q : byteNumeral ds -> width q = 0 -> parseWidth (ds ++ s3) q = Ret (s3, withWidth (decimal ds) q).
Proof.
  intros Hn Hq. assert (isDigit (at_ s3 0) = false) as Hd by (eapply after_not_digit; [apply s3_after|intros c ->%list_elem_of_singleton; reflexivity]).
  unfold parseWidth. destruct ds as [|c ds].
  - cbn [app]. rewrite Hd. change (decimal []) with 0. rewrite <- Hq. now destruct q.
  - pose proof (numeral_parse (c :: ds) s3 Hn Hd) as Hp. pose proof (decimal_nonneg _ Hn). destruct Hn as [Hc _]. apply Forall_cons in Hc as [Hc _].
    cbn [app] in *. unfold at_. cbn [nth]. rewrite Hc. change kMaxWidth with 255. rewrite Hp. cbn [mbind outcome_bind fst snd]. rewrite u8_small by (unfold is_byte; lia). done.
Qed.

(** The zero that asks for zeros is the width's first digit. *)
Lemma parseZeroWidth_print ac q :
  (ac =? 0) = (match y_align y with None => true | _ => false end) -> width q = 0 ->
  ('(s, p) ← Ret (parseZero ac s4 q); parseWidth s p)
  = Ret (s3, withWidth (decimal (y_width y)) (if zeroFill y then withZeroFill q else q)).
Proof.
  intros Ha Hq. pose proof (w_width _ _ Hw) as Hn. unfold parseZero, zeroFill. rewrite Ha. cbn [mbind outcome_bind].
  destruct (y_align y); [rewrite andb_false_r; cbn iota; now apply parseWidth_digits|]. rewrite andb_true_r.
  assert ((at_ s4 0 =? 48) = match y_width y with c :: _ => c =? 48 | [] => false end) as ->.
  { unfold s4. destruct (y_width y) as [|c ds]; [|done]. apply (after_ne _ _ 48 s3_after); [done|done|set_solver]. }
  unfold s4. destruct (y_width y) as [|c ds]; [now apply (parseWidth_digits [])|]. destruct (c =? 48) eqn:E; [|now apply parseWidth_digits].
  apply Z.eqb_eq in E as ->. cbn [app drop]. assert (decimal (48 :: ds) = decimal ds) as Ed by reflexivity. rewrite Ed. apply parseWidth_digits; [|done].
  destruct Hn as [Hd Hl]. apply Forall_cons in Hd as [_ Hd]. split; [done|now rewrite <- Ed].
Qed.

Lemma parseHash_print q : alternate q = false ->
  parseHash s5 q = (s4, mkSpec (type q) (fill q) (width q) (precision q) (align q) (sign q) (y_hash y) (localize q)).
Proof.
  intros Hq. unfold parseHash, s5, hashText. destruct (y_hash y); [reflexivity|]. cbn [app].
  rewrite (after_ne _ _ 35 s4_after) by (done || (unfold digitChars; set_solver)). destruct q. cbn in *. now subst.
Qed.

(** From the sign on. *)
Definition parseRest (ac : Z) (s : bytes) (p : Spec) : outcome Spec :=
  match parseSign s p with
  | (None, p) => Ret p
  | (Some s, p) =>
      let '(s, p) := parseHash s p in
      let '(s, p) := parseZero ac s p in
      '(s, p) ← parseWidth s p;
      '(s, p) ← parsePrecision s p;
      let '(s, p) := parseLocalize s p in
      parseType s t p
  end.

Lemma parseHashRest_print ac f a g :
  (ac =? 0) = (match y_align y with None => true | _ => false end) ->
  (let '(s, p) := parseHash s5 (mkSpec (type (initialSpec t)) f 0 kDefaultPrecision a g false false) in
   let '(s, p) := parseZero ac s p in
   '(s, p) ← parseWidth s p;
   '(s, p) ← parsePrecision s p;
   let '(s, p) := parseLocalize s p in
   parseType s t p)
  = Ret (mkSpec (default (type (initialSpec t)) (y_type y)) (if zeroFill y then 48 else f) (decimal (y_width y))
           (match y_precision y with Some ds => decimal ds | None => kDefaultPrecision end) (if zeroFill y then right else a) g (y_hash y) (y_localize y)).
Proof.
  intros Ha. rewrite parseHash_print by done. cbn [type fill width precision align sign alternate localize].
  set (q := mkSpec _ _ _ _ _ _ _ _). pose proof (parseZeroWidth_print ac q Ha eq_refl) as Hz. cbn [mbind outcome_bind] in Hz.
  destruct (parseZero ac s4 q) as [sz pz]. rewrite Hz. cbn [mbind outcome_bind].
  rewrite parsePrecision_print by (unfold q; now destruct (zeroFill y)). cbn [mbind outcome_bind].
  rewrite parseLocalize_print by (unfold q; now destruct (zeroFill y)). rewrite parseType_print by (unfold q; now destruct (zeroFill y)).
  unfold q. now destruct (zeroFill y).
Qed.

(** Nothing is left when the sign's place holds the closing brace. *)
Lemma s5_end : at_ s5 0 = 125 ->
  y_hash y = false /\ y_width y = [] /\ y_precision y = None /\ y_localize y = false /\ y_type y = None.
Proof.
  unfold s5, s4, s3, s2, s1, hashText, precisionText, localizeText, typeText. destruct (y_hash y); [done|]. cbn [app]. pose proof (w_width _ _ Hw) as [Hd _].
  destruct (y_width y) as [|c ds]; [|intros E; apply Forall_cons in Hd as [Hc _]; cbn in E; subst c; discriminate].
  destruct (y_precision y); [done|]. destruct (y_localize y); [done|]. destruct (y_type y) as [c|] eqn:E; [|done].
  intros E'. cbn in E'. subst c. destruct (w_type _ _ Hw 125 E) as [? _]. discriminate.
Qed.

Lemma parseRest_print ac f a :
  (ac =? 0) = (match y_align y with None => true | _ => false end) ->
  parseRest ac s6 (mkSpec (type (initialSpec t)) f 0 kDefaultPrecision a minusOnly false false)
  = Ret (mkSpec (default (type (initialSpec t)) (y_type y)) (if zeroFill y then 48 else f) (decimal (y_width y))
           (match y_precision y with Some ds => decimal ds | None => kDefaultPrecision end) (if zeroFill y then right else a)
           (default minusOnly (y_sign y)) (y_hash y) (y_localize y)).
Proof.
  intros Ha. pose proof (fun g => parseHashRest_print ac f a g Ha) as Hp. unfold parseRest, s6, signText.
  destruct (y_sign y) as [g|]; [change (option_list _ ++ s5) with (signChar g :: s5)|change (option_list _ ++ s5) with s5]; cbn [default].
  - assert (parseSign (signChar g :: s5) (mkSpec (type (initialSpec t)) f 0 kDefaultPrecision a minusOnly false false)
            = (Some s5, mkSpec (type (initialSpec t)) f 0 kDefaultPrecision a g false false)) as -> by (destruct g; reflexivity). apply Hp.
  - unfold parseSign. destruct (at_ s5 0 =? 125) eqn:E.
    + apply Z.eqb_eq, s5_end in E as (-> & E & -> & -> & ->). unfold zeroFill. rewrite E. now destruct (y_align y).
    + rewrite (after_ne _ _ 45 s5_after), (after_ne _ _ 43 s5_after), (after_ne _ _ 32 s5_after) by (done || (unfold digitChars; set_solver)). apply Hp.
Qed.

Definition body : bytes := signText y ++ hashText y ++ y_width y ++ precisionText y ++ localizeText y ++ typeText y.

(** A character that ends nothing. *)
Definition plain (c : Z) : Prop := c <> 125 /\ c <> 0 /\ isAlignChar c = false.

Lemma digits_plain ds : Forall (fun c => isDigit c = true) ds -> Forall plain ds.
Proof.
  intros Hd. eapply Forall_impl; [exact Hd|]. intros c Hc%digit_in. unfold digitChars in Hc. unfold plain, isAlignChar. set_unfold in Hc. destruct_or! Hc; subst c; done.
Qed.

Lemma alpha_plain c : isAlpha c = true -> plain c.
Proof.
  unfold plain, isAlignChar, isAlpha. rewrite orb_true_iff, !andb_true_iff, !Z.leb_le, !orb_false_iff, !Z.eqb_neq. lia.
Qed.

Lemma body_plain : Forall plain body.
Proof.
  unfold body, signText, hashText, precisionText, localizeText, typeText. rewrite !Forall_app. split_and!.
  - destruct (y_sign y) as [[]|]; repeat constructor; done.
  - destruct (y_hash y); repeat constructor; done.
  - apply digits_plain, (w_width _ _ Hw).
  - destruct (y_precision y) as [ds|] eqn:E; [|constructor]. constructor; [done|]. apply digits_plain, (w_precision _ _ Hw ds E).
  - destruct (y_localize y); repeat constructor; done.
  - destruct (y_type y) as [c|] eqn:E; [|constructor]. constructor; [|constructor]. apply alpha_plain, (w_type _ _ Hw c E).
Qed.

Lemma s6_body : s6 = body ++ 125 :: r.
Proof. unfold s6, s5, s4, s3, s2, s1, body. now rewrite <- !app_assoc. Qed.

Lemma s6_noAlign : isAlignChar (at_ s6 0) = false /\ (at_ s6 0 <> 125 -> isAlignChar (at_ s6 1) = false).
Proof.
  rewrite s6_body. pose proof body_plain as H. destruct body as [|c [|d b]]; [done|..]; apply Forall_cons in H as [(_ & _ & Hc) H].
  - split; [exact Hc|done].
  - apply Forall_cons in H as [(_ & _ & Hd) _]. split; [exact Hc|intros _; exact Hd].
Qed.

Lemma initialSpec_parts : initialSpec t = mkSpec (type (initialSpec t)) 32 0 kDefaultPrecision (align (initialSpec t)) minusOnly false false.
Proof. now destruct t. Qed.

Lemma printSpec_s6 : printSpec y ++ 125 :: r = 58 :: alignText y ++ s6.
Proof. unfold printSpec. rewrite s6_body. cbn [app]. unfold body. now rewrite <- !app_assoc. Qed.

Lemma parseSpec_rest s : at_ s 0 <> 125 ->
  parseSpec (58 :: s) t = (let '(ac, s, p) := parseAlign s (initialSpec t) in parseRest ac s p).
Proof. intros Hs. unfold parseSpec, parseRest. change (drop 1 (58 :: s)) with s. rewrite (proj2 (Z.eqb_neq (at_ s 0) 125) Hs). reflexivity. Qed.

Lemma parseSpec_print : parseSpec (printSpec y ++ 125 :: r) t = Ret (meaning t y).
Proof.
  rewrite printSpec_s6. pose proof (w_fill _ _ Hw) as Hf. unfold meaning, alignText. destruct (y_align y) as [[f a]|] eqn:Ea.
  - assert (zeroFill y = false) as Ez by (unfold zeroFill; now rewrite Ea).
    assert (forall g, withAlign (alignChar a) (withFill g (initialSpec t)) = mkSpec (type (initialSpec t)) g 0 kDefaultPrecision a minusOnly false false) as Ei
      by (intros g; rewrite initialSpec_parts; now destruct a).
    assert (isAlignChar (alignChar a) = true) as Eac by (now destruct a).
    assert ((alignChar a =? 0) = match y_align y with None => true | _ => false end) as E0 by (rewrite Ea; now destruct a).
    rewrite parseSpec_rest; [|destruct f as [f|]; [now apply (Hf f a)|now destruct a]]. unfold parseAlign, at_.
    destruct f as [f|]; cbn [option_list app nth drop default]; [destruct (Hf f a eq_refl) as (Hfa & _); rewrite Hfa|]; rewrite Eac, Ei, parseRest_print by done; now rewrite Ez.
  - cbn [app]. destruct (decide (at_ s6 0 = 125)) as [E|E].
    + assert (y_sign y = None) as Es. { revert E. unfold s6, signText. destruct (y_sign y) as [[]|]; done. }
      unfold parseSpec. change (drop 1 (58 :: s6)) with s6. rewrite E. cbn [at_ nth Z.eqb Pos.eqb negb].
      assert (at_ s5 0 = 125) as E5 by (revert E; unfold s6, signText; now rewrite Es).
      destruct (s5_end E5) as (-> & Ew & -> & -> & ->). rewrite Es. unfold zeroFill. rewrite Ea, Ew. apply f_equal, initialSpec_parts.
    + rewrite parseSpec_rest by done. destruct s6_noAlign as [H0 H1]. unfold parseAlign. rewrite H0, (H1 E), initialSpec_parts, parseRest_print by now rewrite Ea. done.
Qed.

Lemma printSpec_text : Forall (fun c => c <> 125 /\ c <> 0) (printSpec y).
Proof.
  assert (printSpec y = 58 :: alignText y ++ body) as -> by reflexivity. constructor; [done|]. apply Forall_app. split.
  - unfold alignText. destruct (y_align y) as [[[f|] a]|] eqn:Ea; [|destruct a; repeat constructor; done|constructor].
    destruct (w_fill _ _ Hw f a Ea) as (_ & H1 & H2). constructor; [done|]. destruct a; repeat constructor; done.
  - eapply Forall_impl; [apply body_plain|]. intros c (H1 & H2 & _). done.
Qed.
End spec.

(** * What a format string stands for *)

(** A piece: text without braces and NULs, an escaped brace, an empty field or one with a specification. *)
Inductive piece := Text (s : bytes) | LBrace | RBrace | Empty | Field (y : Syntax).

Definition isField (x : piece) : bool := match x with Empty | Field _ => true | _ => false end.
Definition isText (x : piece) : bool := match x with Text _ => true | _ => false end.

(** The text of a piece and, for a field, its specification, given the type of its argument. *)
Definition fieldText (x : piece) : bytes := match x with Field y => printSpec y | _ => [] end.
Definition fieldSpec (t : ArgType) (x : piece) : Spec := match x with Field y => meaning t y | _ => initialSpec t end.

Definition printPiece (t : ArgType) (x : piece) : bytes :=
  match x with
  | Text s => s
  | LBrace => [123; 123]
  | RBrace => [125; 125]
  | Empty | Field _ => 123 :: fieldText x ++ [125]
  end.

(** The pieces with the types their fields have. *)
Fixpoint typed (ps : list piece) (ts : list ArgType) : list (ArgType * piece) :=
  match ps with
  | [] => []
  | x :: r => if isField x then (hd TNone ts, x) :: typed r (tail ts) else (TNone, x) :: typed r ts
  end.

Definition print (xs : list (ArgType * piece)) : bytes := concat (map (fun x => printPiece x.1 x.2) xs).

Definition pieceOk (t : ArgType) (x : piece) : Prop :=
  match x with
  | Text s => s <> [] /\ (length s <= 255)%nat /\ Forall (fun c => c <> 123 /\ c <> 125) s /\ Forall (fun c => c <> 0) s
  | Field y => wfSpec t y
  | _ => True
  end.

Definition nextText (xs : list (ArgType * piece)) : bool := match xs with (_, x) :: _ => isText x | [] => false end.

Fixpoint wfPieces (xs : list (ArgType * piece)) : Prop :=
  match xs with
  | [] => True
  | (t, x) :: r => pieceOk t x /\ (isText x = true -> nextText r = false) /\ wfPieces r
  end.

Definition fieldCount (ps : list piece) : nat := length (filter (fun x => isField x = true) ps).

Section render.
Context {D : Type} (nonNegative : D -> bool) (to_chars_double : nat -> D -> option (Z * Z) -> option bytes).

Fixpoint render (xs : list (ArgType * piece)) (args : list (arg D)) : outcome bytes :=
  match xs with
  | [] => formatExtra nonNegative to_chars_double (lit " : ") args
  | (t, x) :: r =>
      match x with
      | Text s => rest ← render r args; Ret (s ++ rest)
      | LBrace => rest ← render r args; Ret (123 :: rest)
      | RBrace => rest ← render r args; Ret (125 :: rest)
      | Empty | Field _ =>
          match args with
          | [] => format_error
          | a :: args' =>
              o ← vformat_arg nonNegative to_chars_double (fieldSpec t x) a;
              rest ← render r args';
              Ret (o ++ rest)
          end
      end
  end.
End render.

(** * Lemmas on format strings *)

Definition brace (s : bytes) : Prop := s = [] \/ exists c r, s = c :: r /\ (c = 123 \/ c = 125).

Lemma breakBrace_text s r : Forall (fun c => c <> 123 /\ c <> 125) s -> brace r -> breakBrace (s ++ r) = (s, r).
Proof.
  intros Hs Hr. induction Hs as [|c s [H1 H2] _ IH]; cbn [app breakBrace].
  - destruct Hr as [->|(c & r' & -> & [-> | ->])]; reflexivity.
  - rewrite (proj2 (Z.eqb_neq _ _) H1), (proj2 (Z.eqb_neq _ _) H2), IH. reflexivity.
Qed.

Lemma parseLoop_text f s r args ls sp :
  Forall (fun c => c <> 123 /\ c <> 125) s -> brace r ->
  parseLoop f (s ++ r) args ls sp = (ls ← addSegment (length s) ls; parseLoop f r args ls sp).
Proof.
  intros Hs Hr. pose proof (breakBrace_text [] r (List.Forall_nil _) Hr) as Er. cbn [app] in Er.
  destruct f; cbn [parseLoop]; rewrite (breakBrace_text s r Hs Hr), Er; cbn [length]; destruct (addSegment (length s) ls); reflexivity.
Qed.

Lemma findClose_text s r : Forall (fun c => c <> 125) s -> findClose (s ++ 125 :: r) = Some (length s).
Proof. induction 1 as [|c s Hc _ IH]; cbn; [done|]. now rewrite (proj2 (Z.eqb_neq _ _) Hc), IH. Qed.

Lemma addSegment_ok n ls : (0 < n <= 255)%nat -> (length ls < kMaxSegments)%nat -> addSegment n ls = Ret (ls ++ [Z.of_nat n]).
Proof.
  intros Hn Hl. unfold addSegment. rewrite (proj2 (Nat.ltb_lt 0 n)), (proj2 (Nat.leb_gt _ _)), (proj2 (Nat.ltb_ge _ _)) by lia. now rewrite u8_small by (unfold is_byte; lia).
Qed.

Lemma parseLoop_field f s r t args ls sp p :
  at_ (s ++ 125 :: r) 0 <> 123 -> Forall (fun c => c <> 125 /\ c <> 0) s -> (length s <= 253)%nat -> (length ls < kMaxSegments)%nat -> (length sp < kMaxSpecs)%nat ->
  parseSpec (s ++ 125 :: r) t = Ret p ->
  parseLoop (S f) (123 :: s ++ 125 :: r) (t :: args) ls sp = parseLoop f r args (ls ++ [Z.of_nat (length s + 2)]) (sp ++ [p]).
Proof.
  intros H0 Hs Hn Hl Hsp Hp.
  assert (drop (S (length s)) (s ++ 125 :: r) = r) as Ed by (rewrite drop_app, (drop_ge s) by lia; replace (S (length s) - length s)%nat with 1%nat by lia; reflexivity).
  pose proof (findClose_text s r (Forall_impl _ _ _ Hs (fun c H => proj1 H))) as Ef. pose proof (addSegment_ok (length s + 2) ls ltac:(lia) Hl) as Ea.
  pose proof (proj2 (Nat.leb_gt kMaxSpecs (length sp)) Hsp) as El. clear Hn Hl Hsp Hs.
  destruct (s ++ 125 :: r) as [|c l] eqn:E; [destruct s; discriminate|]. cbn in H0.
  cbn [parseLoop breakBrace Z.eqb Pos.eqb orb length]. change (addSegment 0 ls) with (Ret ls). mred.
  rewrite Ef, El, Hp. mred. rewrite Ea. mred. rewrite Ed.
  destruct c as [|q|q]; try reflexivity. do 7 (destruct q; try reflexivity). done.
Qed.

Lemma parseLoop_escape f c r args ls sp :
  c = 123 \/ c = 125 -> (length ls < kMaxSegments)%nat ->
  parseLoop (S f) (c :: c :: r) args ls sp = parseLoop f r args (ls ++ [2]) sp.
Proof.
  intros Hc Hl. pose proof (addSegment_ok 2 ls ltac:(lia) Hl) as Ea.
  destruct Hc as [-> | ->]; cbn [parseLoop breakBrace Z.eqb Pos.eqb orb length]; change (addSegment 0 ls) with (Ret ls); mred; rewrite Ea; reflexivity.
Qed.

Definition pieceLength (x : ArgType * piece) : Z := Z.of_nat (length (printPiece x.1 x.2)).

Definition specsOf (xs : list (ArgType * piece)) : list Spec := map (fun x => fieldSpec x.1 x.2) (filter (fun x => isField x.2 = true) xs).

Lemma print_brace xs : nextText xs = false -> brace (print xs).
Proof.
  destruct xs as [|[t x] r]; [now left|]. intros Hx. right. unfold print. cbn. destruct x; [discriminate| | | |]; cbn; eauto 10.
Qed.

Lemma field_ok t x : isField x = true -> pieceOk t x ->
  printPiece t x = 123 :: fieldText x ++ [125] /\ Forall (fun c => c <> 125 /\ c <> 0) (fieldText x) /\ (length (fieldText x) <= 253)%nat
  /\ (forall r, at_ (fieldText x ++ 125 :: r) 0 <> 123) /\ (forall r, parseSpec (fieldText x ++ 125 :: r) t = Ret (fieldSpec t x)).
Proof.
  intros Hf Hp. destruct x as [s| | | |y]; try discriminate; cbn [pieceOk fieldText fieldSpec printPiece] in *.
  - split_and!; [done|constructor|cbn; lia|done|done].
  - split_and!; [done|exact (printSpec_text t y Hp)|apply (w_length _ _ Hp)|done|intros r; now apply parseSpec_print].
Qed.

Lemma specsOf_cons x xs : specsOf (x :: xs) = (if isField x.2 then [fieldSpec x.1 x.2] else []) ++ specsOf xs.
Proof. unfold specsOf. rewrite filter_cons. destruct (isField x.2) eqn:E; [rewrite decide_True by done|rewrite decide_False by congruence]; reflexivity. Qed.

Lemma fieldCount_cons x ps : fieldCount (x :: ps) = ((if isField x then 1 else 0) + fieldCount ps)%nat.
Proof. unfold fieldCount. rewrite filter_cons. destruct (isField x) eqn:E; [rewrite decide_True by done|rewrite decide_False by congruence]; reflexivity. Qed.

Lemma typed_length ps ts : length (typed ps ts) = length ps.
Proof. revert ts. induction ps as [|x ps IH]; intros ts; cbn; [done|]. destruct (isField x); cbn; now rewrite IH. Qed.

(** The parser finds the pieces.  One unit of fuel per piece is enough. *)
Lemma parseLoop_pieces ps : forall ts f ls sp,
  wfPieces (typed ps ts) -> (fieldCount ps <= length ts)%nat -> (length ps <= f)%nat ->
  (length ls + length ps <= kMaxSegments)%nat -> (length sp + fieldCount ps <= kMaxSpecs)%nat ->
  parseLoop f (print (typed ps ts)) ts ls sp = Ret (ls ++ map pieceLength (typed ps ts), sp ++ specsOf (typed ps ts)).
Proof.
  induction ps as [|x ps IH]; intros ts f ls sp Hw Hc Hf Hl Hs.
  { cbn. rewrite !app_nil_r. destruct f; reflexivity. }
  rewrite fieldCount_cons in Hc, Hs. cbn [length] in Hf, Hl. cbn [typed] in *. destruct (isField x) eqn:Ex.
  - destruct ts as [|t ts]; [cbn in Hc; lia|]. cbn [hd tail wfPieces] in *. destruct Hw as (Hp & _ & Hw). destruct f as [|f]; [lia|].
    destruct (field_ok t x Ex Hp) as (E1 & H1 & H2 & H3 & H4). change (print ((t, x) :: typed ps ts)) with (printPiece t x ++ print (typed ps ts)).
    assert (printPiece t x ++ print (typed ps ts) = 123 :: fieldText x ++ 125 :: print (typed ps ts)) as -> by (rewrite E1; cbn [app]; now rewrite <- app_assoc).
    cbn in Hc. rewrite (parseLoop_field _ _ _ _ _ _ _ (fieldSpec t x)) by (auto; lia). rewrite IH by (rewrite ?length_app; cbn [length]; auto; lia).
    rewrite specsOf_cons. cbn [map fst snd]. rewrite Ex, <- !app_assoc. unfold pieceLength at 2. cbn [fst snd]. rewrite E1. cbn [length]. rewrite length_app. cbn [length].
    replace (Z.of_nat (S (length (fieldText x) + 1))) with (Z.of_nat (length (fieldText x) + 2)) by lia. reflexivity.
  - cbn [wfPieces] in Hw. destruct Hw as (Hp & Hn & Hw). change (print ((TNone, x) :: typed ps ts)) with (printPiece TNone x ++ print (typed ps ts)).
    rewrite specsOf_cons. cbn [map snd]. rewrite Ex. cbn [app].
    destruct x as [s| | | |]; try discriminate.
    + cbn [printPiece isText pieceOk] in *. destruct Hp as (Hne & Hlen & Hch & _). rewrite parseLoop_text by (auto using print_brace).
      rewrite addSegment_ok by (destruct s; [done|cbn [length] in *; lia] || lia). mred. rewrite IH by (rewrite ?length_app; cbn [length]; auto; lia). now rewrite <- app_assoc.
    + destruct f as [|f]; [lia|]. cbn [printPiece app]. rewrite parseLoop_escape by (auto; lia). rewrite IH by (rewrite ?length_app; cbn [length]; auto; lia). now rewrite <- app_assoc.
    + destruct f as [|f]; [lia|]. cbn [printPiece app]. rewrite parseLoop_escape by (auto; lia). rewrite IH by (rewrite ?length_app; cbn [length]; auto; lia). now rewrite <- app_assoc.
Qed.

Lemma print_length xs : wfPieces xs -> (length xs <= length (print xs))%nat.
Proof.
  induction xs as [|[t x] xs IH]; intros Hw; [done|]. destruct Hw as (Hp & _ & Hw). specialize (IH Hw).
  change (print ((t, x) :: xs)) with (printPiece t x ++ print xs). rewrite length_app. cbn [length].
  assert (0 < length (printPiece t x))%nat; [|lia]. destruct x as [s| | | |]; cbn; try lia. destruct Hp as [Hp _]. destruct s; [done|cbn; lia].
Qed.

Lemma print_nonzero xs : wfPieces xs -> Forall (fun c => c <> 0) (print xs).
Proof.
  induction xs as [|[t x] xs IH]; intros Hw; [constructor|]. destruct Hw as (Hp & _ & Hw). change (print ((t, x) :: xs)) with (printPiece t x ++ print xs).
  apply Forall_app. split; [|now apply IH]. destruct (isField x) eqn:Ex.
  - destruct (field_ok t x Ex Hp) as (-> & Ht & _). constructor; [done|]. apply Forall_app. split; [|now repeat constructor].
    eapply Forall_impl; [exact Ht|]. now intros c [_ H].
  - destruct x; try discriminate; [apply Hp|repeat constructor; done..].
Qed.

Lemma c_str_nonzero s : Forall (fun c => c <> 0) s -> c_str s = s.
Proof. induction 1 as [|c s Hc _ IH]; cbn; [done|]. now rewrite (proj2 (Z.eqb_neq _ _) Hc), IH. Qed.

Section rendering.
Context {D : Type} (nonNegative : D -> bool) (to_chars_double : nat -> D -> option (Z * Z) -> option bytes).

Lemma formatLoop_pieces xs : forall args, wfPieces xs ->
  ('(out, rest) ← formatLoop nonNegative to_chars_double (length xs) (mkIter (print xs) (map pieceLength xs) (specsOf xs)) args;
   extra ← formatExtra nonNegative to_chars_double (lit " : ") rest; Ret (out ++ extra))
  = render nonNegative to_chars_double xs args.
Proof.
  induction xs as [|[t x] xs IH]; intros args Hw.
  { cbn. now destruct (formatExtra _ _ _ _). }
  destruct Hw as (Hp & _ & Hw). assert (forall args, _) as IH' by exact (fun a => IH a Hw). clear IH.
  set (it := mkIter (print ((t, x) :: xs)) (map pieceLength ((t, x) :: xs)) (specsOf ((t, x) :: xs))).
  assert (Z.to_nat (hd 0 (i_lengths it)) = length (printPiece t x)) as El by (cbn; unfold pieceLength; cbn [fst snd]; lia).
  assert (i_str it = printPiece t x ++ print xs) as Es by reflexivity.
  assert (isLiteral it = negb (isField x)) as Ei.
  { unfold isLiteral. rewrite Es. destruct x as [s| | | |y]; try reflexivity. cbn [printPiece]. destruct Hp as (Hne & _ & Hch & _). destruct s as [|c s]; [done|].
    apply Forall_cons in Hch as [[Hc _] _]. cbn. now rewrite (proj2 (Z.eqb_neq _ _) Hc). }
  assert (increment it = mkIter (print xs) (map pieceLength xs) (specsOf xs)) as En.
  { unfold increment. rewrite El, Ei, Es, drop_app, drop_all, Nat.sub_diag, drop_0. cbn [app]. f_equal. unfold it. cbn [i_specs]. rewrite specsOf_cons. cbn [fst snd]. now destruct (isField x). }
  cbn [length formatLoop]. rewrite Ei, En. clear En Ei. destruct (isField x) eqn:Ex; cbn [negb].
  - unfold it. cbn [i_specs]. rewrite specsOf_cons. cbn [fst snd]. rewrite Ex. cbn [app hd].
    assert (render nonNegative to_chars_double ((t, x) :: xs) args = match args with [] => format_error | a :: args' => o ← vformat_arg nonNegative to_chars_double (fieldSpec t x) a; rest ← render nonNegative to_chars_double xs args'; Ret (o ++ rest) end) as -> by (destruct x; try discriminate; reflexivity).
    destruct args as [|a args]; [reflexivity|]. destruct (vformat_arg _ _ _ _) as [o| |]; [|reflexivity|reflexivity]. mred. rewrite <- IH'.
    destruct (formatLoop _ _ _ _ _) as [[out rest]| |]; [|reflexivity|reflexivity]. mred. destruct (formatExtra _ _ _ _); [|reflexivity|reflexivity]. mred. now rewrite app_assoc.
  - assert (literal it = match x with Text s => s | LBrace => [123] | _ => [125] end) as ->.
    { unfold literal. rewrite El, Es. destruct x as [s| | | |]; try discriminate; try reflexivity. cbn [printPiece]. destruct Hp as (Hne & _ & Hch & _). destruct s as [|c s]; [done|].
      apply Forall_cons in Hch as [[Hc1 Hc2] _]. unfold at_. cbn [app nth]. rewrite (proj2 (Z.eqb_neq _ _) Hc1), (proj2 (Z.eqb_neq _ _) Hc2). cbn [orb].
      change (c :: s ++ print xs) with ((c :: s) ++ print xs). now rewrite take_app_length. }
    mred. specialize (IH' args). destruct (formatLoop _ _ _ _ _) as [[out rest]| |]; mred; destruct x as [s| | | |]; try discriminate; cbn [render]; rewrite <- IH'; try reflexivity; cbn [mbind outcome_bind];
      (destruct (formatExtra _ _ _ _); [|reflexivity|reflexivity]); mred; try reflexivity; now rewrite <- app_assoc.
Qed.

(** * Properties *)

(** C20: a format string made of texts (of at most 255 bytes, without NUL), doubled braces and fields, up to 21
    pieces and 10 fields and no more fields than arguments, is parsed for the arguments given, and formatting
    writes its texts as they are, one brace for each doubled brace, the arguments in order as their fields
    ask, and then the arguments left over.  A field is empty or has a specification, of which every part --
    fill and alignment, sign, [#], width with or without leading zeros, precision, [L], type letter -- can be left out,
    and then has the default for its argument's type; the type letter is one that is valid for it, width and precision
    are at most 255. *)
Theorem format_renders ps (args : list (arg D)) :
  let xs := typed ps (map typeOf args) in
  wfPieces xs -> (length ps <= kMaxSegments)%nat -> (fieldCount ps <= kMaxSpecs)%nat -> (fieldCount ps <= length args)%nat ->
  format nonNegative to_chars_double (print xs) args = render nonNegative to_chars_double xs args.
Proof.
  intros xs Hw Hl Hs Ha. unfold format, parse. rewrite (c_str_nonzero _ (print_nonzero _ Hw)). pose proof (print_length _ Hw) as Hf. unfold xs in *. rewrite typed_length in Hf.
  rewrite parseLoop_pieces by (rewrite ?length_map; cbn [length]; auto). mred. cbn [app fst snd].
  unfold vformat_types_to. cbn [_lengths]. rewrite length_map. now apply formatLoop_pieces.
Qed.

(** The text of a field specification is read as what it asks for, for every type of argument. *)
Theorem format_spec_read t y r : wfSpec t y -> parseSpec (printSpec y ++ 125 :: r) t = Ret (meaning t y).
Proof. apply parseSpec_print. Qed.

(** Width and alignment: the argument's text is not cut, the field is as wide as asked for, and the fill is on
    the side the alignment says, on both sides in halves for [center]. *)
Lemma vformat_arg_pads p (a : arg D) s :
  0 <= width p -> vformat_arg_nowidth nonNegative to_chars_double p a = Ret s ->
  exists l r, vformat_arg nonNegative to_chars_double p a = Ret (replicate l (fill p) ++ s ++ replicate r (fill p))
    /\ (length s + l + r = Nat.max (length s) (Z.to_nat (width p)))%nat
    /\ match align p with left => l = 0%nat | right => r = 0%nat | center => (l <= r <= S l)%nat end.
Proof.
  intros Hw E. unfold vformat_arg. rewrite E. mred. destruct (width p =? 0) eqn:E0; [apply Z.eqb_eq in E0|apply Z.eqb_neq in E0; destruct (width p <=? Z.of_nat (length s)) eqn:E1; [apply Z.leb_le in E1|apply Z.leb_gt in E1]].
  1,2: exists 0%nat, 0%nat; cbn [replicate app]; rewrite app_nil_r; split; [done|]; split; [lia|destruct (align p); lia].
  unfold padding. destruct (align p) eqn:Ea; repeat match goal with |- context [bool_decide (?x = ?y :> align_t)] => let v := eval compute in (bool_decide (x = y)) in change (bool_decide (x = y)) with v end; cbn iota.
  - exists 0%nat, (Z.to_nat (width p - Z.of_nat (length s))). split; [reflexivity|]. lia.
  - exists (Z.to_nat ((width p - Z.of_nat (length s)) / 2)), (Z.to_nat (width p - Z.of_nat (length s) - (width p - Z.of_nat (length s)) / 2)).
    split; [reflexivity|].
    pose proof (Z.div_mod (width p - Z.of_nat (length s)) 2 ltac:(lia)) as Hd. pose proof (Z.mod_pos_bound (width p - Z.of_nat (length s)) 2 ltac:(lia)). lia.
  - exists (Z.to_nat (width p - Z.of_nat (length s))), 0%nat. cbn [replicate]. split; [reflexivity|]. lia.
Qed.
End rendering.

(** * Integers *)

(** The value of a digit, of either case. *)
Definition digitValue (c : Z) : Z := if c <=? 57 then c - 48 else if c <=? 90 then c - 55 else c - 87.

Definition valueOf (b : Z) (ds : bytes) : Z := fold_left (fun v c => v * b + digitValue c) ds 0.

Definition isDigitOf (b c : Z) : Prop := (48 <= c <= 57 \/ 65 <= c <= 90 \/ 97 <= c <= 122) /\ 0 <= digitValue c < b.

Lemma digitChar_value b d : 0 <= d < b -> b <= 36 -> isDigitOf b (digitChar d) /\ digitValue (digitChar d) = d.
Proof.
  intros Hd Hb. unfold isDigitOf, digitChar, digitValue. destruct (d <? 10) eqn:E; [apply Z.ltb_lt in E|apply Z.ltb_ge in E].
  - rewrite (proj2 (Z.leb_le (48 + d) 57)) by lia. lia.
  - rewrite (proj2 (Z.leb_gt (97 + (d - 10)) 57)), (proj2 (Z.leb_gt (97 + (d - 10)) 90)) by lia. lia.
Qed.

Lemma toDigits_value b f n :
  2 <= b <= 36 -> 0 <= n < b ^ Z.of_nat f -> (0 < f)%nat ->
  toDigits f b n [] <> [] /\ Forall (isDigitOf b) (toDigits f b n []) /\ valueOf b (toDigits f b n []) = n.
Proof.
  intros Hb. revert n. induction f as [|f IH]; intros n Hn Hf; [lia|]. cbn [toDigits]. destruct (n <? b) eqn:E; [apply Z.ltb_lt in E|apply Z.ltb_ge in E].
  - destruct (digitChar_value b n) as [H1 H2]; [lia|lia|]. split_and!; [done|now apply Forall_singleton|]. unfold valueOf. cbn. lia.
  - rewrite toDigits_acc. destruct f as [|f]; [cbn in Hn; lia|].
    assert (b ^ Z.of_nat (S (S f)) = b ^ Z.of_nat (S f) * b) as Hp by (rewrite Nat2Z.inj_succ, Z.pow_succ_r by lia; ring).
    destruct (IH (n / b)) as (H0 & H1 & H2); [|lia|]. { split; [apply Z.div_pos; lia|apply Z.div_lt_upper_bound; lia]. }
    pose proof (Z.mod_pos_bound n b ltac:(lia)) as Hm. destruct (digitChar_value b (n mod b)) as [H3 H4]; [lia|lia|]. split_and!.
    + destruct (toDigits (S f) b (n / b) []); done.
    + apply Forall_app. split; [done|now apply Forall_singleton].
    + unfold valueOf in *. rewrite fold_left_app, H2. cbn. rewrite H4. pose proof (Z.div_mod n b ltac:(lia)). lia.
Qed.

(** [to_chars] of a 64-bit number: a minus sign, and digits that read back. *)
Lemma to_chars_value b i : 2 <= b <= 36 -> - 2 ^ 63 <= i < 2 ^ 64 ->
  exists ds, to_chars i b = (if i <? 0 then [45] else []) ++ ds /\ ds <> [] /\ (length ds <= 64)%nat /\ Forall (isDigitOf b) ds /\ valueOf b ds = Z.abs i.
Proof.
  intros Hb Hi. exists (toDigits 64 b (Z.abs i) []).
  assert (2 ^ 64 <= b ^ Z.of_nat 64) as Hp by (apply Z.pow_le_mono_l; lia).
  destruct (toDigits_value b 64 (Z.abs i) Hb) as (H1 & H2 & H3); [lia|lia|]. split_and!; [|done| |done|done].
  - unfold to_chars. destruct (i <? 0) eqn:E; [apply Z.ltb_lt in E; rewrite Z.abs_neq by lia|apply Z.ltb_ge in E; rewrite Z.abs_eq by lia]; reflexivity.
  - pose proof (toDigits_length 64 b (Z.abs i) []). cbn [length] in *. lia.
Qed.

Lemma toUpper_digit b c : isDigitOf b c -> isDigitOf b (toUpper c) /\ digitValue (toUpper c) = digitValue c /\ ~ (97 <= toUpper c <= 122).
Proof.
  intros [Hc Hv]. unfold toUpper. destruct ((97 <=? c) && (c <=? 122)) eqn:E.
  - apply andb_true_iff in E as [E1%Z.leb_le E2%Z.leb_le]. unfold isDigitOf, digitValue in *.
    rewrite (proj2 (Z.leb_gt c 57)), (proj2 (Z.leb_gt c 90)) in * by lia. rewrite (proj2 (Z.leb_gt (c - 32) 57)), (proj2 (Z.leb_le (c - 32) 90)) by lia. lia.
  - apply andb_false_iff in E. rewrite !Z.leb_gt in E. split; [done|]. lia.
Qed.

Lemma upperize_value b ds : Forall (isDigitOf b) ds ->
  Forall (isDigitOf b) (upperize ds) /\ valueOf b (upperize ds) = valueOf b ds /\ Forall (fun c => ~ (97 <= c <= 122)) (upperize ds).
Proof.
  intros Hd. unfold upperize, valueOf. split_and!.
  - apply Forall_map. eapply Forall_impl; [exact Hd|]. intros c Hc. now apply toUpper_digit.
  - generalize 0. induction Hd as [|c ds Hc _ IH]; intros v; cbn; [done|]. destruct (toUpper_digit b c Hc) as (_ & -> & _). apply IH.
  - apply Forall_map. eapply Forall_impl; [exact Hd|]. intros c Hc. now apply (toUpper_digit b).
Qed.

(** The base a type letter asks for. *)
Definition baseOf (t : Z) : option Z :=
  if (t =? 100) || (t =? 0) then Some 10 else if (t =? 98) || (t =? 66) then Some 2 else if t =? 111 then Some 8
  else if (t =? 120) || (t =? 88) then Some 16 else None.

(** An integer is written in the base its field asks for: the sign asked for when it is not
    negative, the prefix of the alternate form, a minus sign when it is negative, and at least
    one digit, in capitals for [X]; the digits read back as its magnitude.  Every value of every integer type,
    signed or unsigned, up to 64 bits. *)
Theorem format_integer_value p i b :
  - 2 ^ 63 <= i < 2 ^ 64 -> baseOf (type p) = Some b ->
  exists prefix ds,
    vformat_integer p i = Ret ((if 0 <=? i then writeNonNegativeSign (sign p) else []) ++ prefix ++ (if i <? 0 then [45] else []) ++ ds)
    /\ prefix = (if alternate p then if b =? 10 then [] else if b =? 8 then if i =? 0 then [] else [48] else [48; type p] else [])
    /\ ds <> [] /\ (length ds <= 64)%nat /\ Forall (isDigitOf b) ds /\ valueOf b ds = Z.abs i /\ (type p = 88 -> Forall (fun c => ~ (97 <= c <= 122)) ds).
Proof.
  intros Hi Hb. assert (2 <= b <= 36 /\ (type p =? 99) = false) as [Hb2 Hc].
  { unfold baseOf in Hb. destruct (type p =? 99) eqn:E; [apply Z.eqb_eq in E; rewrite E in Hb; discriminate|]. split; [|done].
    repeat match type of Hb with context [if ?c then _ else _] => destruct c end; first [discriminate|injection Hb as <-; lia]. }
  destruct (to_chars_value b i Hb2 Hi) as (ds & E & Hne & Hlen & Hd & Hv).
  set (sgn := if 0 <=? i then writeNonNegativeSign (sign p) else []).
  set (prefix := if alternate p then if b =? 10 then [] else if b =? 8 then if i =? 0 then [] else [48] else [48; type p] else []).
  assert (vformat_integer p i = Ret (sgn ++ prefix ++ (if type p =? 88 then upperize (to_chars i b) else to_chars i b))) as Ev.
  { unfold vformat_integer. rewrite Hc. fold sgn. unfold baseForInt, baseOf, prefix, prefixFor in *.
    destruct ((type p =? 100) || (type p =? 0)); [injection Hb as <-|destruct ((type p =? 98) || (type p =? 66)); [injection Hb as <-|destruct (type p =? 111); [injection Hb as <-|destruct ((type p =? 120) || (type p =? 88)); [injection Hb as <-|discriminate]]]];
      cbn [mbind outcome_bind Z.eqb Pos.eqb andb]; destruct (alternate p); cbn [andb app]; try reflexivity.
    destruct (i =? 0); reflexivity. }
  rewrite Ev, E. exists prefix. destruct (type p =? 88) eqn:Et.
  - destruct (upperize_value b ds Hd) as (U1 & U2 & U3). exists (upperize ds). split_and!; [|done| |unfold upperize; rewrite length_map; done|done|congruence|done].
    + unfold upperize. rewrite map_app. destruct (i <? 0); reflexivity.
    + unfold upperize. destruct ds; done.
  - exists ds. split_and!; try done. intros Ht. rewrite Ht in Et. discriminate.
Qed.

(** * Examples *)

(** [:.^+#12x], [:08], [:x]. *)
Definition exampleSpec : Syntax := mkSyntax (Some (Some 46, center)) (Some minusPlus) true (lit "12") None false (Some 120).
Definition exampleZero : Syntax := mkSyntax None None false (lit "08") None false None.
Definition exampleHex : Syntax := mkSyntax None None false [] None false (Some 120).

Ltac solve_wfSpec :=
  split;
  [ intros f a E; cbn in E; simplify_eq; done
  | split; [apply (bool_decide_unpack _); vm_compute; exact I|vm_compute; discriminate]
  | intros ds E; cbn in E; simplify_eq
  | intros c E; cbn in E; simplify_eq; (split_and!; [reflexivity|vm_compute; reflexivity|discriminate])
  | vm_compute; lia ].

Lemma exampleSpec_ok : wfSpec TInt exampleSpec.
Proof. solve_wfSpec. Qed.

Lemma exampleZero_ok : wfSpec TInt exampleZero.
Proof. solve_wfSpec. Qed.

Lemma exampleHex_ok : wfSpec TUInt exampleHex.
Proof. solve_wfSpec. Qed.

Lemma format_spec_read_witness : wfSpec TInt exampleSpec /\ parseSpec (lit ":.^+#12x}") TInt = Ret (meaning TInt exampleSpec).
Proof. split; [exact exampleSpec_ok|]. exact (format_spec_read TInt exampleSpec [] exampleSpec_ok). Defined.

Definition examplePieces : list piece := [Text (lit "value "); LBrace; Field exampleSpec; RBrace; Field exampleZero; Field exampleHex; Empty].

Definition exampleArgs : list (arg unit) := [AInt 255; AInt (-42); AUInt 48879; AString (lit "abc"); ABool true].

Lemma format_renders_witness :
  format (D := unit) (fun _ => true) (fun _ _ _ => None) (lit "value {{{:.^+#12x}}}{:08}{:x}{}") exampleArgs
  = Ret (lit "value {...+0xff....}00000-42beefabc : true").
Proof.
  assert (wfPieces (typed examplePieces (map typeOf exampleArgs))) as Hw.
  { cbn. split; [split; [discriminate|]; split; [vm_compute; lia|]; split; apply Forall_forall; intros c Hc; vm_compute in Hc; set_solver by lia|]. split; [done|]. split; [done|]. split; [done|].
    split; [exact exampleSpec_ok|]. split; [done|]. split; [done|]. split; [done|]. split; [exact exampleZero_ok|]. split; [done|]. split; [exact exampleHex_ok|]. repeat split; done. }
  pose proof (format_renders (D := unit) (fun _ => true) (fun _ _ _ => None) examplePieces exampleArgs Hw) as H.
  change (print _) with (lit "value {{{:.^+#12x}}}{:08}{:x}{}") in H. rewrite H; [vm_compute; reflexivity|vm_compute; lia|vm_compute; lia|vm_compute; lia].
Defined.

Lemma format_integer_value_witness :
  exists ds, vformat_integer (mkSpec 88 32 0 kDefaultPrecision right minusOnly true false) (-48879) = Ret ([48; 88; 45] ++ ds) /\ valueOf 16 ds = 48879.
Proof.
  destruct (format_integer_value (mkSpec 88 32 0 kDefaultPrecision right minusOnly true false) (-48879) 16) as (prefix & ds & E & Hp & _ & _ & _ & Hv & _).
  - split; [vm_compute; discriminate|vm_compute; reflexivity].
  - reflexivity.
  - exists ds. rewrite Hp in E. split; [exact E|exact Hv].
Defined.

(** The type letter of a pointer is refused, and any type letter for a streamable argument reads
    through a null pointer, because of the missing comma in the table. *)
Theorem format_pointer_letter_refused r :
  parseSpec (lit ":p}" ++ r) TPointer = format_error /\ parseSpec (lit ":s}" ++ r) TArg = Fault OutOfBounds.
Proof. split; reflexivity. Qed.

(** The alternate form of a number that fills the buffer writes past its end. *)
Theorem format_double_overflow {D} nonNegative to_chars_double (d : D) buf fl w a g l :
  to_chars_double kDoubleBuf d (Some (102, 0)) = Some buf -> length buf = kDoubleBuf -> 46 ∉ buf ->
  vformat_double nonNegative to_chars_double (mkSpec 102 fl w 0 a g true l) d = Fault OutOfBounds.
Proof.
  intros E Hl Hd. unfold vformat_double. cbn [type precision alternate Z.eqb Pos.eqb kDefaultPrecision negb andb]. change (doubleFormat 102) with (Ret 102). mred. rewrite E.
  change (isUpper 102) with false. cbn iota. rewrite bool_decide_eq_false_2 by done. cbn [negb andb]. rewrite Hl. reflexivity.
Qed.
