(* ===== verification/Logger.v ===== *)
(** The built-in loggers ([src/support/MiniLogger.cc], [include/crouton/util/MiniLogger.hh]) and their set-up
    ([src/support/Logging.cc]): a registry of named loggers, each with a level, and the levels given by an
    environment variable. *)

From S2P Require Import Prelude StringUtils.

Local Open Scope Z_scope.

(** * Levels *)

Inductive level_enum := trace | debug | info | warn | err | critical | off.

#[export] Instance level_eq_dec : EqDecision level_enum.
Proof. solve_decision. Defined.

Definition levelNo (l : level_enum) : nat :=
  match l with trace => 0 | debug => 1 | info => 2 | warn => 3 | err => 4 | critical => 5 | off => 6 end.

Definition kLevelName : list (bytes * level_enum) :=
  [(lit "trace", trace); (lit "debug", debug); (lit "info", info); (lit "warn", warn); (lit "error", err);
   (lit "critical", critical); (lit "off", off)].

Fixpoint levelIn (name : bytes) (l : list (bytes * level_enum)) : level_enum :=
  match l with
  | [] => info
  | (levelStr, lv) :: r => if bool_decide (name = levelStr) then lv else levelIn name r
  end.

Definition levelNamed (name : bytes) : level_enum := levelIn name kLevelName.

(** * Loggers *)

Record logger := mkLogger { _name : bytes; _level : level_enum }.

Definition set_level (l : level_enum) (g : logger) : logger := mkLogger (_name g) l.

Definition should_log (l : level_enum) (g : logger) : bool := (levelNo (_level g) <=? levelNo l)%nat.

(** The static variables: the registry, the environment's string, the sink that replaces [stderr], and what was written,
    with the level and the logger's name. *)
Record Logs := mkLogs {
  sLoggers : option (list logger);
  sEnvLevelsStr : option bytes;
  sLogSink : option Z;
  written : list (option Z * bytes * level_enum * bytes)
}.

Definition noLogs : Logs := mkLogs None None None [].

(** The loop of [load_env_level] over what is left of the string. *)
Fixpoint envLoop (fuel : nat) (rest : bytes) (g : logger) : outcome logger :=
  match rest with
  | [] => Ret g
  | _ =>
      match fuel with
      | O => Fault NoFuel
      | S f =>
          let '(item, rest) := split rest 44 in
          let '(k, v) := split item 61 in
          match v with
          | [] => envLoop f rest (set_level (levelNamed k) g)
          | _ => if bool_decide (k = _name g) then Ret (set_level (levelNamed v) g) else envLoop f rest g
          end
      end
  end.

Definition load_env_level (env : option bytes) (g : logger) : outcome logger :=
  match env with
  | None => Ret g
  | Some s => envLoop (length s) s g
  end.

Fixpoint mapLoggers (f : logger -> outcome logger) (l : list logger) : outcome (list logger) :=
  match l with
  | [] => Ret []
  | g :: r => g ← f g; r ← mapLoggers f r; Ret (g :: r)
  end.

(** The constructor. *)
Definition newLogger (name : bytes) (l : level_enum) : ST Logs logger :=
  s ← get;
  g ← lift (load_env_level (sEnvLevelsStr s) (mkLogger name l));
  let old := match sLoggers s with Some l => l | None => [] end in
  _ ← store (mkLogs (Some (old ++ [g])) (sEnvLevelsStr s) (sLogSink s) (written s));
  mret g.

Fixpoint findLogger (name : bytes) (l : list logger) : option logger :=
  match l with
  | [] => None
  | g :: r => if bool_decide (_name g = name) then Some g else findLogger name r
  end.

Definition getLogger (name : bytes) (s : Logs) : option logger :=
  match sLoggers s with Some l => findLogger name l | None => None end.

Definition apply_all (fn : logger -> logger) (s : Logs) : Logs :=
  mkLogs (map fn <$> sLoggers s) (sEnvLevelsStr s) (sLogSink s) (written s).

Definition set_output (sink : option Z) (s : Logs) : Logs := mkLogs (sLoggers s) (sEnvLevelsStr s) sink (written s).

(** [load_env_levels(envValue)]: only the first string is kept; the registry is used whether there is one or
    not. *)
Definition load_env_levels (envValue : option bytes) (s : Logs) : outcome Logs :=
  let env := match sEnvLevelsStr s with
             | Some e => e
             | None => match envValue with Some v => v | None => [] end
             end in
  match sLoggers s with
  | None => Fault OutOfBounds
  | Some l => l ← mapLoggers (load_env_level (Some env)) l; Ret (mkLogs (Some l) (Some env) (sLogSink s) (written s))
  end.

(** [log], of an unformatted or a formatted message. *)
Definition log (g : logger) (l : level_enum) (msg : bytes) (s : Logs) : Logs :=
  if should_log l g then mkLogs (sLoggers s) (sEnvLevelsStr s) (sLogSink s) (written s ++ [(sLogSink s, _name g, l, msg)]) else s.

(** * Set-up *)

Definition makeLogger (name : bytes) (l : level_enum) : ST Logs logger :=
  s ← get;
  match getLogger name s with
  | Some g => mret g
  | None => newLogger name l
  end.

(** The body of [InitLogging], which runs once, up to its last message. *)
Definition initLoggers (env : option bytes) : ST Logs unit :=
  _ ← makeLogger [] info;
  _ ← makeLogger (lit "Coro") info;
  _ ← makeLogger (lit "Sched") info;
  _ ← makeLogger (lit "Loop") info;
  _ ← makeLogger (lit "Net") info;
  s ← get;
  s ← lift (load_env_levels env s);
  store s.

Definition InitLogging (env : option bytes) (done : bool) : ST Logs bool :=
  if done then mret true else _ ← initLoggers env; mret true.

Definition MakeLogger (env : option bytes) (done : bool) (name : bytes) (l : level_enum) : ST Logs (logger * bool) :=
  done ← InitLogging env done;
  g ← makeLogger name l;
  mret (g, done).

(** * The documented meaning of the string *)

Inductive section := General (l : bytes) | Named (n l : bytes).

Definition printSection (x : section) : bytes := match x with General l => l | Named n l => n ++ 61 :: l end.

Fixpoint printSections (xs : list section) : bytes :=
  match xs with
  | [] => []
  | [x] => printSection x
  | x :: r => printSection x ++ 44 :: printSections r
  end.

Definition okSection (x : section) : Prop :=
  match x with
  | General l => l <> [] /\ ~ In 44 l /\ ~ In 61 l
  | Named n l => l <> [] /\ ~ In 44 n /\ ~ In 61 n /\ ~ In 44 l
  end.

(** The first section with the logger's name, else the last without a name, else [dflt]. *)
Fixpoint namedLevel (n : bytes) (xs : list section) : option bytes :=
  match xs with
  | [] => None
  | General _ :: r => namedLevel n r
  | Named n' l :: r => if bool_decide (n' = n) then Some l else namedLevel n r
  end.

Fixpoint generalLevel (dflt : level_enum) (xs : list section) : level_enum :=
  match xs with
  | [] => dflt
  | General l :: r => generalLevel (levelNamed l) r
  | Named _ _ :: r => generalLevel dflt r
  end.

Definition documentedLevel (n : bytes) (dflt : level_enum) (xs : list section) : level_enum :=
  match namedLevel n xs with Some l => levelNamed l | None => generalLevel dflt xs end.

(** * Lemmas *)

Lemma printSection_ok x : okSection x -> printSection x <> [] /\ ~ In 44 (printSection x).
Proof.
  destruct x as [l|n l]; cbn; [tauto|]. intros (Hl & Hn & _ & Hc). split; [destruct n; discriminate|].
  rewrite in_app_iff. cbn. intuition discriminate.
Qed.

(** One section of the string. *)
Lemma envLoop_section f x rest r g :
  okSection x -> split rest 44 = (printSection x, r) -> rest <> [] ->
  envLoop (S f) rest g =
  match x with
  | General l => envLoop f r (set_level (levelNamed l) g)
  | Named n l => if bool_decide (n = _name g) then Ret (set_level (levelNamed l) g) else envLoop f r g
  end.
Proof.
  intros Hx Es Hr. cbn [envLoop]. destruct rest as [|c rest]; [done|]. rewrite Es. destruct x as [l|n l]; cbn [printSection].
  - destruct Hx as (_ & _ & H61). now rewrite split_none.
  - destruct Hx as (Hl & _ & H61 & _). rewrite split_app by done. now destruct l.
Qed.

Lemma envLoop_levels xs : forall f g,
  Forall okSection xs -> (length (printSections xs) <= f)%nat ->
  envLoop f (printSections xs) g = Ret (mkLogger (_name g) (documentedLevel (_name g) (_level g) xs)).
Proof.
  induction xs as [|x xs IH]; intros f g Hok Hf; [destruct f, g; reflexivity|].
  apply Forall_cons in Hok as [Hx Hok]. destruct (printSection_ok x Hx) as [Hne H44].
  assert (printSections (x :: xs) <> [] /\ split (printSections (x :: xs)) 44 = (printSection x, printSections xs)
          /\ (length (printSections xs) < length (printSections (x :: xs)))%nat) as (Hp & Es & Hlt).
  { destruct xs as [|y ys].
    - cbn [printSections]. split_and!; [done|now apply split_none|]. destruct (printSection x); [done|cbn; lia].
    - change (printSections (x :: y :: ys)) with (printSection x ++ 44 :: printSections (y :: ys)).
      split_and!; [destruct (printSection x); discriminate|now apply split_app|]. rewrite length_app. cbn [length]. lia. }
  destruct f as [|f]; [lia|]. rewrite (envLoop_section f x _ (printSections xs) g Hx Es Hp).
  destruct x as [l|n l].
  - rewrite IH by (done || lia). unfold documentedLevel. cbn [_name _level set_level namedLevel generalLevel]. reflexivity.
  - unfold documentedLevel. cbn [namedLevel generalLevel]. case_bool_decide; [reflexivity|]. rewrite IH by (done || lia). reflexivity.
Qed.

Definition standardNames : list bytes := [[]; lit "Coro"; lit "Sched"; lit "Loop"; lit "Net"].

Definition standardLoggers : Logs := mkLogs (Some (map (fun n => mkLogger n info) standardNames)) None None [].

Lemma initLoggers_run env :
  initLoggers env noLogs = match load_env_levels env standardLoggers with Ret s => Ret (tt, s) | Raise e => Raise e | Fault w => Fault w end.
Proof.
  assert ((_ ← makeLogger [] info; _ ← makeLogger (lit "Coro") info; _ ← makeLogger (lit "Sched") info; _ ← makeLogger (lit "Loop") info;
           _ ← makeLogger (lit "Net") info; mret tt) noLogs = Ret (tt, standardLoggers)) as E by (vm_compute; reflexivity).
  unfold initLoggers. revert E. unfold mbind at 1, ST_bind at 1. unfold mbind at 5, ST_bind at 5.
  destruct (makeLogger [] info noLogs) as [[g1 s1]| |]; [|discriminate..]. unfold mbind at 1, ST_bind at 1. unfold mbind at 4, ST_bind at 4.
  destruct (makeLogger (lit "Coro") info s1) as [[g2 s2]| |]; [|discriminate..]. unfold mbind at 1, ST_bind at 1. unfold mbind at 3, ST_bind at 3.
  destruct (makeLogger (lit "Sched") info s2) as [[g3 s3]| |]; [|discriminate..]. unfold mbind at 1, ST_bind at 1. unfold mbind at 2, ST_bind at 2.
  destruct (makeLogger (lit "Loop") info s3) as [[g4 s4]| |]; [|discriminate..]. unfold mbind, ST_bind.
  destruct (makeLogger (lit "Net") info s4) as [[g5 s5]| |]; [|discriminate..]. intros [= ->].
  unfold get, lift, store. destruct (load_env_levels env standardLoggers); reflexivity.
Qed.

Lemma mapLoggers_levels xs l :
  Forall okSection xs ->
  mapLoggers (load_env_level (Some (printSections xs))) l = Ret (map (fun g => mkLogger (_name g) (documentedLevel (_name g) (_level g) xs)) l).
Proof.
  intros Hok. induction l as [|g l IH]; cbn [mapLoggers map]; [done|]. change (load_env_level (Some (printSections xs)) g) with (envLoop (length (printSections xs)) (printSections xs) g).
  rewrite envLoop_levels by done. mred. now rewrite IH.
Qed.

Lemma findLogger_map (f : logger -> logger) n l : (forall g, _name (f g) = _name g) -> findLogger n (map f l) = f <$> findLogger n l.
Proof. intros Hf. induction l as [|g l IH]; cbn; [done|]. rewrite Hf. now case_bool_decide. Qed.

Lemma findLogger_app n l g : findLogger n (l ++ [g]) = match findLogger n l with Some x => Some x | None => if bool_decide (_name g = n) then Some g else None end.
Proof. induction l as [|x l IH]; cbn; [done|]. destruct (bool_decide (_name x = n)); [done|exact IH]. Qed.

Lemma standard_find n : findLogger n (map (fun n => mkLogger n info) standardNames) = if bool_decide (n ∈ standardNames) then Some (mkLogger n info) else None.
Proof.
  case_bool_decide as Hin.
  - unfold standardNames in Hin. repeat (apply elem_of_cons in Hin as [->|Hin]; [vm_compute; reflexivity|]). now apply elem_of_nil in Hin.
  - unfold standardNames in *. cbn [map findLogger _name]. rewrite !bool_decide_eq_false_2 by set_solver. done.
Qed.

(** The registry with one more. *)
Definition added (g : logger) (s : Logs) : Logs :=
  mkLogs (Some (match sLoggers s with Some l => l | None => [] end ++ [g])) (sEnvLevelsStr s) (sLogSink s) (written s).

Lemma added_get g m s : getLogger m (added g s) = match getLogger m s with Some x => Some x | None => if bool_decide (_name g = m) then Some g else None end.
Proof. unfold getLogger at 1. cbn [sLoggers added]. rewrite findLogger_app. unfold getLogger. destruct (sLoggers s); reflexivity. Qed.

Lemma newLogger_run xs n l s :
  Forall okSection xs -> sEnvLevelsStr s = Some (printSections xs) ->
  newLogger n l s = Ret (mkLogger n (documentedLevel n l xs), added (mkLogger n (documentedLevel n l xs)) s).
Proof.
  intros Hok E. unfold newLogger, get, lift, store, mbind, ST_bind, mret, ST_ret. rewrite E. cbn [load_env_level].
  rewrite (envLoop_levels xs) by done. unfold added. now rewrite E.
Qed.

Lemma makeLogger_known env n l s g : getLogger n s = Some g -> MakeLogger env true n l s = Ret ((g, true), s).
Proof. intros E. unfold MakeLogger, InitLogging, makeLogger, get, mbind, ST_bind, mret, ST_ret. now rewrite E. Qed.

Lemma makeLogger_new xs env n l s :
  Forall okSection xs -> sEnvLevelsStr s = Some (printSections xs) -> getLogger n s = None ->
  MakeLogger env true n l s = Ret ((mkLogger n (documentedLevel n l xs), true), added (mkLogger n (documentedLevel n l xs)) s).
Proof. intros Hok Es E. unfold MakeLogger, InitLogging, makeLogger, get, mbind, ST_bind, mret, ST_ret. now rewrite E, (newLogger_run xs). Qed.

(** The levels of an environment string: of the sections [name=level] and [level] between its commas, a logger takes
    the first with its name, else the last without a name, else its default; both the standard
    loggers, which exist when the string is read, and any made later. *)
Theorem logger_levels xs :
  Forall okSection xs ->
  exists s, InitLogging (Some (printSections xs)) false noLogs = Ret (true, s)
    /\ (forall n, getLogger n s = if bool_decide (n ∈ standardNames) then Some (mkLogger n (documentedLevel n info xs)) else None)
    /\ (forall n l, n ∉ standardNames -> exists s',
          MakeLogger (Some (printSections xs)) true n l s = Ret ((mkLogger n (documentedLevel n l xs), true), s')
          /\ (forall m, getLogger m s' = if bool_decide (m = n) then Some (mkLogger n (documentedLevel n l xs)) else getLogger m s)
          /\ MakeLogger (Some (printSections xs)) true n l s' = Ret ((mkLogger n (documentedLevel n l xs), true), s')).
Proof.
  intros Hok.
  set (s := mkLogs (Some (map (fun g => mkLogger (_name g) (documentedLevel (_name g) (_level g) xs)) (map (fun n => mkLogger n info) standardNames)))
              (Some (printSections xs)) None []).
  exists s. split.
  { unfold InitLogging, mbind, ST_bind. rewrite initLoggers_run. unfold load_env_levels, standardLoggers. cbn [sLoggers sEnvLevelsStr].
    rewrite mapLoggers_levels by done. reflexivity. }
  assert (forall n, getLogger n s = if bool_decide (n ∈ standardNames) then Some (mkLogger n (documentedLevel n info xs)) else None) as Hget.
  { intros n. unfold getLogger, s. cbn [sLoggers]. rewrite findLogger_map by done. rewrite standard_find. now case_bool_decide. }
  split; [exact Hget|]. intros n l Hn. assert (getLogger n s = None) as En by now rewrite Hget, bool_decide_eq_false_2.
  exists (added (mkLogger n (documentedLevel n l xs)) s).
  assert (forall m, getLogger m (added (mkLogger n (documentedLevel n l xs)) s) = if bool_decide (m = n) then Some (mkLogger n (documentedLevel n l xs)) else getLogger m s) as Hm.
  { intros m. rewrite added_get. cbn [_name]. destruct (decide (m = n)) as [->|Hne]; [now rewrite En, bool_decide_eq_true_2|].
    rewrite !bool_decide_eq_false_2 by congruence. now destruct (getLogger m s). }
  split; [now apply makeLogger_new|]. split; [exact Hm|]. apply makeLogger_known. now rewrite Hm, bool_decide_eq_true_2.
Qed.

Lemma logger_levels_witness :
  exists s s', InitLogging (Some (lit "warn,Net=debug,error")) false noLogs = Ret (true, s)
    /\ getLogger (lit "Net") s = Some (mkLogger (lit "Net") debug)
    /\ MakeLogger (Some (lit "warn,Net=debug,error")) true (lit "BLIP") info s = Ret ((mkLogger (lit "BLIP") err, true), s').
Proof.
  assert (Forall okSection [General (lit "warn"); Named (lit "Net") (lit "debug"); General (lit "error")]) as Hok
    by (repeat constructor; vm_compute; intuition discriminate).
  destruct (logger_levels _ Hok) as (s & E & Hg & Hm). assert (lit "BLIP" ∉ standardNames) as Hn by (vm_compute; set_solver).
  destruct (Hm (lit "BLIP") info Hn) as (s' & E' & _). exists s, s'. split; [exact E|]. split; [rewrite (Hg (lit "Net")); reflexivity|exact E'].
Defined.

(** Reading the levels before any logger exists follows a null pointer; a second string is ignored. *)
Theorem load_before_loggers env : load_env_levels env noLogs = Fault OutOfBounds.
Proof. reflexivity. Qed.

Theorem second_string_ignored env env' s s1 :
  sEnvLevelsStr s = Some env -> load_env_levels env' s = Ret s1 -> load_env_levels (Some env) s = Ret s1 /\ sEnvLevelsStr s1 = Some env.
Proof.
  unfold load_env_levels. intros ->. destruct (sLoggers s) as [l|]; [|discriminate]. intros E. split; [exact E|].
  destruct (mapLoggers _ l); [|discriminate..]. now injection E as <-.
Qed.
