(* ===== verification/LinkedList.v ===== *)
(** Intrusive doubly-linked circular lists ([include/crouton/util/LinkedList.hh]).

    Links are objects in a heap, and a list is a heap cell of its own, the head
    [_head], whose address stands for the list.  The operations are the source's pointer
    assignments in their order; they are shown to implement operations on plain
    sequences. *)

From S2P Require Import Prelude.

Abbreviation addr := nat.

(** * Data and operations *)

Record Link := mkLink { _prev : option addr; _next : option addr }.

Abbreviation heap := (gmap addr Link).

(** Reading or writing through a pointer; there must be a live object there. *)
Definition load (p : addr) : ST heap Link := fun h =>
  match h !! p with Some l => Ret (l, h) | None => Fault OutOfBounds end.

Definition deref (p : option addr) : ST heap addr := fun h =>
  match p with Some a => Ret (a, h) | None => Fault OutOfBounds end.

Definition setPrev (p : addr) (v : option addr) : ST heap unit :=
  l ← load p; modify (<[p := mkLink v (_next l)]>).

Definition setNext (p : addr) (v : option addr) : ST heap unit :=
  l ← load p; modify (<[p := mkLink (_prev l) v]>).

Definition inList (this : addr) : ST heap bool := l ← load this; mret (bool_decide (_next l <> None)).

Definition remove (this : addr) : ST heap unit :=
  l ← load this;
  _ ← (match _prev l with Some p => setNext p (_next l) | None => mret tt end);
  l ← load this;
  _ ← (match _next l with Some n => setPrev n (_prev l) | None => mret tt end);
  _ ← setPrev this None;
  setNext this None.

Definition clearLink (this : addr) : ST heap unit := _ ← setPrev this None; setNext this None.

Definition clearHead (this : addr) : ST heap unit := _ ← setPrev this (Some this); setNext this (Some this).

Definition replace (this old : addr) : ST heap unit :=
  l ← load this;
  _ ← assert (bool_decide (_prev l = None) && bool_decide (_next l = None));
  o ← load old;
  match _prev o with
  | None => mret tt
  | Some p =>
      _ ← setPrev this (Some p);
      _ ← setNext this (_next o);
      _ ← setNext p (Some this);
      l ← load this;
      n ← deref (_next l);
      _ ← setPrev n (Some this);
      clearLink old
  end.

Definition insertAfter (this other : addr) : ST heap unit :=
  _ ← remove this;
  _ ← setPrev this (Some other);
  o ← load other;
  _ ← setNext this (_next o);
  _ ← setNext other (Some this);
  l ← load this;
  n ← deref (_next l);
  setPrev n (Some this).

(** The life of a link: an address that is not in use, a live link. *)
Definition newLink (this : addr) : ST heap unit := modify (<[this := mkLink None None]>).

Definition deleteLink (this : addr) : ST heap unit := _ ← remove this; modify (delete this).

(** Move construction and assignment. *)
Definition moveLink (this old : addr) : ST heap unit := _ ← newLink this; replace this old.

Definition assignLink (this old : addr) : ST heap unit :=
  if bool_decide (this = old) then mret tt
  else _ ← remove this; replace this old.

(** ** Lists *)

Definition newList (head : addr) : ST heap unit := _ ← newLink head; clearHead head.

Definition empty (head : addr) : ST heap bool := l ← load head; mret (bool_decide (_next l = Some head)).

Definition front (head : addr) : ST heap addr :=
  e ← empty head; _ ← assert (negb e); l ← load head; deref (_next l).

Definition back (head : addr) : ST heap addr :=
  e ← empty head; _ ← assert (negb e); l ← load head; deref (_prev l).

Definition push_front (head link : addr) : ST heap unit := insertAfter link head.

Definition push_back (head link : addr) : ST heap unit :=
  l ← load head; p ← deref (_prev l); insertAfter link p.

Definition pop_front (head : addr) : ST heap addr :=
  e ← empty head;
  _ ← assert (negb e);
  l ← load head;
  link ← deref (_next l);
  _ ← remove link;
  mret link.

Definition erase (link : addr) : ST heap unit := remove link.

(** The loop of [clear], from [link]; the fuel is more than the number of links. *)
Fixpoint clearLoop (fuel : nat) (head link : addr) : ST heap unit :=
  match fuel with
  | O => crash NoFuel
  | S f =>
      if bool_decide (link = head) then mret tt
      else
        l ← load link;
        next ← deref (_next l);
        _ ← clearLink link;
        clearLoop f head next
  end.

Definition clear (head : addr) : ST heap unit :=
  h ← get;
  l ← load head;
  n ← deref (_next l);
  _ ← clearLoop (S (size h)) head n;
  clearHead head.

(** Moving the head: [_head = std::move(other._head); other._head.clearHead()]. *)
Definition mvHead (head other : addr) : ST heap unit :=
  e ← empty other;
  _ ← assert (negb e);
  _ ← assignLink head other;
  clearHead other.

Definition moveList (head other : addr) : ST heap unit :=
  _ ← newLink head;
  e ← empty other;
  if (e : bool) then clearHead head else mvHead head other.

Definition assignList (head other : addr) : ST heap unit :=
  if bool_decide (other = head) then mret tt
  else
    _ ← clear head;
    e ← empty other;
    if (e : bool) then mret tt else mvHead head other.

(** [~LinkList] clears the list; then [~Link] of the head removes it. *)
Definition deleteList (head : addr) : ST heap unit := _ ← clear head; deleteLink head.

(** Iterating from [begin()] to [end()]: the links visited. *)
Fixpoint iterLoop (fuel : nat) (head link : addr) : ST heap (list addr) :=
  match fuel with
  | O => crash NoFuel
  | S f =>
      if bool_decide (link = head) then mret []
      else
        l ← load link;
        next ← deref (_next l);
        rest ← iterLoop f head next;
        mret (link :: rest)
  end.

Definition iterate (head : addr) : ST heap (list addr) :=
  h ← get; l ← load head; n ← deref (_next l); iterLoop (S (size h)) head n.

(** * Segments of links *)

Definition nextOf (h : heap) (p : addr) : option addr := match h !! p with Some l => _next l | None => None end.
Definition prevOf (h : heap) (p : addr) : option addr := match h !! p with Some l => _prev l | None => None end.

(** From [a] the links [xs] lead to [b], and back. *)
Fixpoint seg (h : heap) (a : addr) (xs : list addr) (b : addr) : Prop :=
  match xs with
  | [] => nextOf h a = Some b /\ prevOf h b = Some a
  | x :: r => nextOf h a = Some x /\ prevOf h x = Some a /\ seg h x r b
  end.

(** The list with head [a] has the links [xs]. *)
Abbreviation ring h a xs := (seg h a xs a).

Definition loose (h : heap) (p : addr) : Prop := h !! p = Some (mkLink None None).

(** What the assignments do to the heap. *)
Definition upP (p : addr) (v : option addr) (h : heap) : heap := alter (fun l => mkLink v (_next l)) p h.
Definition upN (p : addr) (v : option addr) (h : heap) : heap := alter (fun l => mkLink (_prev l) v) p h.

Abbreviation live h p := (is_Some (h !! p)).

Section heap.
Implicit Types (h : heap) (p q : addr) (v : option addr).

Lemma live_upP p v h q : live (upP p v h) q <-> live h q.
Proof. apply lookup_alter_is_Some. Qed.

Lemma live_upN p v h q : live (upN p v h) q <-> live h q.
Proof. apply lookup_alter_is_Some. Qed.

Lemma nextOf_upP p v h q : nextOf (upP p v h) q = nextOf h q.
Proof. unfold nextOf, upP. rewrite lookup_alter. destruct (decide (p = q)) as [->|]; [|done]. now destruct (h !! q). Qed.

Lemma prevOf_upN p v h q : prevOf (upN p v h) q = prevOf h q.
Proof. unfold prevOf, upN. rewrite lookup_alter. destruct (decide (p = q)) as [->|]; [|done]. now destruct (h !! q). Qed.

Lemma nextOf_upN p v h : live h p -> nextOf (upN p v h) p = v.
Proof. intros [l E]. unfold nextOf, upN. now rewrite lookup_alter_eq, E. Qed.

Lemma prevOf_upP p v h : live h p -> prevOf (upP p v h) p = v.
Proof. intros [l E]. unfold prevOf, upP. now rewrite lookup_alter_eq, E. Qed.

Lemma nextOf_upN_ne p v h q : q <> p -> nextOf (upN p v h) q = nextOf h q.
Proof. intros Hq. unfold nextOf, upN. now rewrite lookup_alter_ne by done. Qed.

Lemma prevOf_upP_ne p v h q : q <> p -> prevOf (upP p v h) q = prevOf h q.
Proof. intros Hq. unfold prevOf, upP. now rewrite lookup_alter_ne by done. Qed.

Lemma upN_other p v h q : q <> p -> upN p v h !! q = h !! q.
Proof. intros. now apply lookup_alter_ne. Qed.

Lemma upP_other p v h q : q <> p -> upP p v h !! q = h !! q.
Proof. intros. now apply lookup_alter_ne. Qed.

Lemma nextOf_live h p q : nextOf h p = Some q -> live h p.
Proof. unfold nextOf. destruct (h !! p); [eauto|done]. Qed.

Lemma prevOf_live h p q : prevOf h p = Some q -> live h p.
Proof. unfold prevOf. destruct (h !! p); [eauto|done]. Qed.

Lemma loose_iff h p : loose h p <-> live h p /\ nextOf h p = None /\ prevOf h p = None.
Proof.
  unfold loose, nextOf, prevOf. split.
  - intros ->. eauto.
  - intros ([[pr nx] E] & H1 & H2). rewrite E in *. cbn in *. now subst.
Qed.

Lemma load_ok h p : live h p -> load p h = Ret (mkLink (prevOf h p) (nextOf h p), h).
Proof. intros [[pr nx] E]. unfold load, prevOf, nextOf. now rewrite E. Qed.

Lemma setPrev_ok h p v : live h p -> setPrev p v h = Ret (tt, upP p v h).
Proof.
  intros [l E]. unfold setPrev, mbind, ST_bind, load, modify. rewrite E. do 2 f_equal. unfold upP.
  apply map_eq. intros q. rewrite lookup_insert, lookup_alter. destruct (decide (p = q)) as [->|]; [now rewrite E|done].
Qed.

Lemma setNext_ok h p v : live h p -> setNext p v h = Ret (tt, upN p v h).
Proof.
  intros [l E]. unfold setNext, mbind, ST_bind, load, modify. rewrite E. do 2 f_equal. unfold upN.
  apply map_eq. intros q. rewrite lookup_insert, lookup_alter. destruct (decide (p = q)) as [->|]; [now rewrite E|done].
Qed.
End heap.

#[export] Hint Rewrite live_upP live_upN nextOf_upP prevOf_upN : heapdb.

(** Run the next access to the heap. *)
Ltac hstep :=
  unfold mbind at 1, ST_bind at 1;
  first [rewrite load_ok by (autorewrite with heapdb; eauto)
        |rewrite setPrev_ok by (autorewrite with heapdb; eauto)
        |rewrite setNext_ok by (autorewrite with heapdb; eauto)];
  cbn [_prev _next].

Section segments.
Implicit Types (h : heap) (a b x : addr) (xs ys : list addr).

Lemma seg_app h a xs x ys b : seg h a (xs ++ x :: ys) b <-> seg h a xs x /\ seg h x ys b.
Proof. revert a. induction xs as [|y xs IH]; intros a; cbn [app seg]; [|rewrite IH]; tauto. Qed.

(** A ring can be read from any of its links. *)
Lemma ring_rotate h a xs x ys : ring h a (xs ++ x :: ys) <-> ring h x (ys ++ a :: xs).
Proof. rewrite !seg_app. tauto. Qed.

Lemma seg_frame h h' a xs b :
  (forall y, y ∈ a :: xs -> nextOf h' y = nextOf h y) -> (forall y, y ∈ xs ++ [b] -> prevOf h' y = prevOf h y) ->
  seg h a xs b -> seg h' a xs b.
Proof.
  revert a. induction xs as [|x xs IH]; intros a Hn Hp; cbn [seg app] in *.
  - rewrite Hn, Hp by set_solver. done.
  - rewrite Hn, (Hp x) by set_solver. intros (H1 & H2 & H3). split_and!; [done..|]. apply IH; [| |done]; set_solver.
Qed.

Lemma seg_live h a xs b y : seg h a xs b -> y ∈ a :: xs ++ [b] -> live h y.
Proof.
  revert a. induction xs as [|x xs IH]; intros a; cbn [seg app].
  - intros [H1 H2] Hy. apply elem_of_cons in Hy as [->|Hy]; [now apply nextOf_live in H1|].
    apply elem_of_cons in Hy as [->|Hy]; [now apply prevOf_live in H2|now apply elem_of_nil in Hy].
  - intros (H1 & H2 & H3) Hy. apply elem_of_cons in Hy as [->|Hy]; [now apply nextOf_live in H1|]. now apply (IH x).
Qed.

Lemma seg_ends h a xs b : seg h a xs b -> nextOf h a = Some (hd b xs) /\ prevOf h b = Some (List.last (a :: xs) a).
Proof.
  revert a. induction xs as [|x xs IH]; intros a; cbn [seg hd]; [done|].
  intros (H1 & H2 & H3). split; [done|]. apply IH in H3 as [_ H3]. rewrite H3. f_equal.
  destruct xs as [|y xs]; [done|]. cbn [List.last]. clear. revert y. induction xs as [|z xs IH]; intros y; [done|]. apply IH.
Qed.

(** [remove] on a link of a ring. *)
Lemma remove_ok h x p n :
  live h x -> prevOf h x = Some p -> nextOf h x = Some n -> live h p -> live h n ->
  remove x h = Ret (tt, upN x None (upP x None (upP n (Some p) (upN p (Some n) h)))).
Proof.
  intros Hx Hp Hn Lp Ln. unfold remove. hstep. rewrite Hp. hstep. rewrite Hn. hstep. autorewrite with heapdb. rewrite Hp.
  replace (nextOf (upN p (Some n) h) x) with (Some n); cycle 1.
  { destruct (decide (x = p)) as [->|]; [now rewrite nextOf_upN|rewrite nextOf_upN_ne by done; congruence]. }
  hstep. hstep. rewrite setNext_ok by now autorewrite with heapdb. done.
Qed.

Lemma remove_loose h x : loose h x -> remove x h = Ret (tt, h).
Proof.
  intros Hl. pose proof Hl as (Lx & Hn & Hp)%loose_iff. unfold remove. hstep. rewrite Hp.
  unfold mbind, ST_bind, mret, ST_ret. rewrite load_ok by done. cbn [_prev _next]. rewrite Hn, setPrev_ok by done.
  rewrite setNext_ok by now autorewrite with heapdb. do 2 f_equal. unfold upN, upP. apply map_eq. intros q.
  rewrite !lookup_alter. destruct (decide (x = q)) as [->|]; [|done]. unfold loose in Hl. rewrite !decide_True by done. rewrite Hl. reflexivity.
Qed.
End segments.

(** ** Rings under the operations *)

(** Only the links [l] changed, and no link came or went. *)
Definition onlyOn (l : list addr) (h h' : heap) : Prop :=
  (forall z, z ∉ l -> h' !! z = h !! z) /\ (forall z, live h' z <-> live h z).

Section rings.
Implicit Types (h : heap) (x o f : addr) (r t : list addr).

Lemma remove_ring h x r :
  ring h x r -> NoDup (x :: r) ->
  exists h', remove x h = Ret (tt, h') /\ loose h' x /\ match r with [] => True | f :: t => ring h' f t end
    /\ onlyOn (x :: r) h h'.
Proof.
  intros Hr Hnd. destruct (seg_ends h x r x Hr) as [Hn Hp]. pose proof (fun y => seg_live h x r x y Hr) as Hl.
  assert (live h x) as Lx by (apply Hl; set_solver).
  set (n := hd x r) in *. set (p := List.last (x :: r) x) in *.
  assert (n ∈ x :: r) as In by (unfold n; destruct r; set_solver).
  assert (p ∈ x :: r) as Ip.
  { unfold p. apply list_elem_of_In. destruct (exists_last (l := x :: r)) as (l' & y & ->); [done|]. rewrite last_last. apply in_or_app. right. now left. }
  assert (live h n) as Ln by (apply Hl; set_solver). assert (live h p) as Lp by (apply Hl; set_solver).
  exists (upN x None (upP x None (upP n (Some p) (upN p (Some n) h)))). split; [now apply remove_ok|]. split_and!.
  - apply loose_iff. autorewrite with heapdb. split; [done|]. split; [now rewrite nextOf_upN by now autorewrite with heapdb|].
    now rewrite prevOf_upP by now autorewrite with heapdb.
  - destruct r as [|f t]; [done|]. cbn [hd] in n. subst n. cbn [seg] in Hr. destruct Hr as (_ & _ & Hr).
    apply NoDup_cons in Hnd as [Hx Hnd].
    assert (f <> x /\ p <> x) as [Hfx Hpx].
    { split; [set_solver|]. unfold p. cbn [List.last]. intros F. apply Hx. rewrite <- F at 1. clear. revert f. induction t as [|y t IH]; intros f; [set_solver|].
      cbn [List.last]. destruct t; [set_solver|]. apply list_elem_of_further, IH. }
    destruct (exists_last (l := f :: t)) as (t0 & l & E); [done|]. assert (p = l) as -> by (unfold p; rewrite E; apply (last_last (x :: t0))).
    destruct t0 as [|f0 t0]; cbn [app] in E; injection E as -> Et; subst t.
    + cbn [seg]. rewrite nextOf_upN_ne, !nextOf_upP, nextOf_upN by done. rewrite prevOf_upN, prevOf_upP_ne, prevOf_upP by (done || now autorewrite with heapdb). done.
    + apply seg_app in Hr as [H1 [H2 H3]]. apply seg_app. cbn [seg].
      apply NoDup_cons in Hnd as [Hf Hnd]. apply NoDup_app in Hnd as (Hnd & Hl0 & _).
      split_and!.
      * apply (seg_frame h); [| |done]; intros y Hy.
        -- rewrite nextOf_upN_ne, !nextOf_upP, nextOf_upN_ne; [done| |]; set_solver.
        -- rewrite prevOf_upN, !prevOf_upP_ne, prevOf_upN; [done| |]; set_solver.
      * rewrite nextOf_upN_ne, !nextOf_upP, nextOf_upN by (done || set_solver). done.
      * rewrite prevOf_upN, prevOf_upP_ne, prevOf_upP; [done|now autorewrite with heapdb|done].
  - split; intros z; [|now autorewrite with heapdb]. intros Hz. rewrite upN_other, upP_other, upP_other, upN_other; [done|set_solver..].
Qed.

Lemma insert_ring h x o r :
  loose h x -> ring h o r -> NoDup (o :: r) -> x ∉ o :: r ->
  exists h', insertAfter x o h = Ret (tt, h') /\ ring h' o (x :: r) /\ onlyOn (x :: o :: r) h h'.
Proof.
  intros Hx Hr Hnd Hni. destruct (seg_ends h o r o Hr) as [Hn _]. pose proof (fun y => seg_live h o r o y Hr) as Hl.
  pose proof Hx as (Lx & Nx & Px)%loose_iff.
  set (n := hd o r) in *. assert (n ∈ o :: r) as In by (unfold n; destruct r; set_solver).
  assert (live h n) as Ln by (apply Hl; set_solver). assert (live h o) as Lo by (apply Hl; set_solver).
  assert (x <> o) as Hxo by set_solver. assert (x <> n) as Hxn by set_solver.
  exists (upP n (Some x) (upN o (Some x) (upN x (Some n) (upP x (Some o) h)))). split; [|split].
  - unfold insertAfter. unfold mbind at 1, ST_bind at 1. rewrite remove_loose by done. hstep. hstep. autorewrite with heapdb. rewrite Hn.
    hstep. hstep. hstep. rewrite nextOf_upN_ne, nextOf_upN by (done || now autorewrite with heapdb).
    unfold mbind, ST_bind, deref. rewrite setPrev_ok by now autorewrite with heapdb. done.
  - cbn [seg]. rewrite nextOf_upP, nextOf_upN by now autorewrite with heapdb.
    rewrite prevOf_upP_ne, !prevOf_upN, prevOf_upP by done. split_and!; try done.
    assert (nextOf (upP n (Some x) (upN o (Some x) (upN x (Some n) (upP x (Some o) h)))) x = Some n) as E1.
    { rewrite nextOf_upP, nextOf_upN_ne, nextOf_upN by (done || now autorewrite with heapdb). done. }
    assert (prevOf (upP n (Some x) (upN o (Some x) (upN x (Some n) (upP x (Some o) h)))) n = Some x) as E2.
    { now rewrite prevOf_upP by now autorewrite with heapdb. }
    destruct r as [|f t]; [done|]. cbn [hd] in n. subst n. cbn [seg] in *. destruct Hr as (_ & _ & Hr). split_and!; [done..|].
    apply NoDup_cons in Hnd as [Ho Hnd]. apply NoDup_cons in Hnd as [Hf Hnd].
    apply (seg_frame h); [| |done]; intros y Hy.
    + rewrite nextOf_upP, !nextOf_upN_ne, nextOf_upP; [done| |]; set_solver.
    + rewrite prevOf_upP_ne, !prevOf_upN, prevOf_upP_ne; [done| |]; set_solver.
  - split; intros z; [|now autorewrite with heapdb]. intros Hz. rewrite upP_other, upN_other, upN_other, upP_other; [done|set_solver..].
Qed.
End rings.

Section rings2.
Implicit Types (h : heap) (x y o f : addr) (r t : list addr).

Lemma clearLink_ok h x : live h x -> clearLink x h = Ret (tt, upN x None (upP x None h)).
Proof. intros L. unfold clearLink. hstep. now rewrite setNext_ok by now autorewrite with heapdb. Qed.

Lemma clearHead_ok h x :
  live h x -> exists h', clearHead x h = Ret (tt, h') /\ ring h' x [] /\ onlyOn [x] h h'.
Proof.
  intros L. exists (upN x (Some x) (upP x (Some x) h)). unfold clearHead. hstep.
  rewrite setNext_ok by now autorewrite with heapdb. split; [done|]. split.
  - cbn [seg]. rewrite nextOf_upN, prevOf_upN, prevOf_upP by now autorewrite with heapdb. done.
  - split; intros z; [|now autorewrite with heapdb]. intros Hz. rewrite upN_other, upP_other; [done|set_solver..].
Qed.

Lemma replace_loose h x y : loose h x -> loose h y -> replace x y h = Ret (tt, h).
Proof.
  intros (Lx & Nx & Px)%loose_iff (Ly & Ny & Py)%loose_iff. unfold replace. hstep.
  rewrite Nx, Px. unfold mbind, ST_bind, assert. cbn. rewrite load_ok by done. cbn [_prev]. now rewrite Py.
Qed.

(** The link [x] takes the place of [y]. *)
Lemma replace_ring h x y r :
  loose h x -> ring h y r -> r <> [] -> NoDup (y :: r) -> x ∉ y :: r ->
  exists h', replace x y h = Ret (tt, h') /\ ring h' x r /\ loose h' y /\ onlyOn (x :: y :: r) h h'.
Proof.
  intros Hx Hr Hne Hnd Hni. destruct (seg_ends h y r y Hr) as [Hn Hp]. pose proof (fun z => seg_live h y r y z Hr) as Hl.
  pose proof Hx as (Lx & Nx & Px)%loose_iff.
  destruct r as [|f t]; [done|]. destruct (exists_last (l := f :: t)) as (t0 & l & E); [done|].
  assert (prevOf h y = Some l) as Hp' by (rewrite Hp, E; f_equal; apply (last_last (y :: t0))). cbn [hd] in Hn. clear Hp.
  assert (f ∈ f :: t /\ l ∈ f :: t) as [If Il].
  { split; [apply list_elem_of_here|]. rewrite E. apply elem_of_app. right. apply list_elem_of_here. }
  assert (live h y /\ live h f /\ live h l) as (Ly & Lf & Ll).
  { split_and!; apply Hl; [apply list_elem_of_here|..]; apply list_elem_of_further, elem_of_app; now left. }
  apply NoDup_cons in Hnd as [Hy Hnd].
  assert (x <> y /\ x <> f /\ x <> l /\ f <> y /\ l <> y) as (D1 & D2 & D3 & D4 & D5).
  { split_and!; intros F; subst; set_solver. }
  exists (upN y None (upP y None (upP f (Some x) (upN l (Some x) (upN x (Some f) (upP x (Some l) h)))))).
  assert (forall z, z ∉ x :: y :: f :: t -> upN y None (upP y None (upP f (Some x) (upN l (Some x) (upN x (Some f) (upP x (Some l) h))))) !! z = h !! z) as Ho.
  { intros z Hz. rewrite upN_other, upP_other, upP_other, upN_other, upN_other, upP_other; [done|set_solver..]. }
  split; [|split; [|split; [|split]]].
  - unfold replace. hstep. rewrite Nx, Px. unfold mbind at 1, ST_bind at 1, assert.
    rewrite !bool_decide_true by done. cbn [andb]. hstep. rewrite Hp', Hn. hstep. hstep. hstep. hstep.
    rewrite nextOf_upN_ne, nextOf_upN by (done || now autorewrite with heapdb).
    unfold mbind, ST_bind, deref. rewrite setPrev_ok by now autorewrite with heapdb. now rewrite clearLink_ok by now autorewrite with heapdb.
  - cbn [seg] in Hr |- *. destruct Hr as (_ & _ & Hr).
    rewrite nextOf_upN_ne, !nextOf_upP, nextOf_upN_ne, nextOf_upN by (done || now autorewrite with heapdb).
    rewrite prevOf_upN, prevOf_upP_ne, prevOf_upP by (done || now autorewrite with heapdb). split_and!; try done.
    destruct t0 as [|f0 t0]; cbn [app] in E; injection E as -> Et; subst t.
    + cbn [seg] in Hr |- *. rewrite nextOf_upN_ne, !nextOf_upP, nextOf_upN by (done || now autorewrite with heapdb).
      rewrite prevOf_upN, !prevOf_upP_ne, !prevOf_upN, prevOf_upP by (done || congruence). done.
    + apply seg_app in Hr as [H1 [H2 H3]]. apply seg_app. cbn [seg].
      apply NoDup_cons in Hnd as [Hf Hnd]. apply NoDup_app in Hnd as (Hnd & Hl0 & _).
      split_and!.
      * apply (seg_frame h); [| |done]; intros z Hz.
        -- rewrite nextOf_upN_ne, !nextOf_upP, !nextOf_upN_ne, nextOf_upP; [done|set_solver..].
        -- rewrite prevOf_upN, !prevOf_upP_ne, !prevOf_upN, prevOf_upP_ne; [done|set_solver..].
      * rewrite nextOf_upN_ne, !nextOf_upP, nextOf_upN by (done || now autorewrite with heapdb || set_solver). done.
      * rewrite prevOf_upN, !prevOf_upP_ne, !prevOf_upN, prevOf_upP by (done || set_solver). done.
  - apply loose_iff. autorewrite with heapdb. split; [done|]. rewrite nextOf_upN, prevOf_upP by now autorewrite with heapdb. done.
  - exact Ho.
  - intros z. now autorewrite with heapdb.
Qed.
End rings2.

Section loops.
Implicit Types (h : heap) (x b head : addr) (xs : list addr).

(** What the loops follow: from each link to the next, the last one to [b]. *)
Fixpoint nextChain h xs b : Prop :=
  match xs with
  | [] => True
  | x :: r => nextOf h x = Some (hd b r) /\ nextChain h r b
  end.

Lemma seg_nextChain h a xs b : seg h a xs b -> nextChain h xs b.
Proof.
  revert a. induction xs as [|x xs IH]; intros a; [done|]. cbn [seg nextChain]. intros (_ & _ & H).
  split; [now apply seg_ends in H as [H _]|now apply (IH x)].
Qed.

Lemma nextChain_frame h h' xs b : (forall x, x ∈ xs -> nextOf h' x = nextOf h x) -> nextChain h xs b -> nextChain h' xs b.
Proof.
  induction xs as [|x xs IH]; [done|]. intros Hf [H1 H2]. cbn [nextChain]. rewrite Hf by set_solver. split; [done|]. apply IH; [set_solver|done].
Qed.

Lemma loop_fuel h a xs b : seg h a xs b -> NoDup xs -> (length xs < S (size h))%nat.
Proof.
  intros Hs Hnd. assert (size (list_to_set xs : gset addr) <= size (dom h))%nat as H.
  { apply subseteq_size. intros y Hy. apply elem_of_list_to_set in Hy. apply elem_of_dom, (seg_live h a xs b); set_solver. }
  rewrite size_list_to_set, size_dom in H by done. lia.
Qed.

Lemma clearLoop_ok fuel head xs h :
  nextChain h xs head -> NoDup xs -> head ∉ xs -> (length xs < fuel)%nat ->
  exists h', clearLoop fuel head (hd head xs) h = Ret (tt, h') /\ Forall (loose h') xs /\ onlyOn xs h h'.
Proof.
  revert fuel h. induction xs as [|x xs IH]; intros fuel h Hc Hnd Hh Hf; (destruct fuel as [|f]; [cbn [length] in Hf; lia|]); cbn [clearLoop hd].
  - rewrite bool_decide_true by done. exists h. now split_and!.
  - destruct Hc as [Hx Hc]. apply NoDup_cons in Hnd as [Hni Hnd]. rewrite bool_decide_false by set_solver.
    pose proof (nextOf_live _ _ _ Hx) as Lx. hstep. rewrite Hx. unfold mbind, ST_bind, deref. rewrite clearLink_ok by done.
    destruct (IH f (upN x None (upP x None h))) as (h' & E & Hl & Ho1 & Ho2).
    + apply (nextChain_frame h); [|done]. intros y Hy. rewrite nextOf_upN_ne, nextOf_upP by set_solver. done.
    + done.
    + set_solver.
    + cbn [length] in Hf. lia.
    + exists h'. split; [done|]. split.
      * constructor; [|done]. unfold loose. rewrite Ho1 by done. apply loose_iff. autorewrite with heapdb. split; [done|].
        rewrite nextOf_upN, prevOf_upP by now autorewrite with heapdb. done.
      * split; [|intros z; rewrite Ho2; now autorewrite with heapdb]. intros z Hz. rewrite Ho1, upN_other, upP_other by set_solver. done.
Qed.

Lemma clear_ok head xs h :
  ring h head xs -> NoDup (head :: xs) ->
  exists h', clear head h = Ret (tt, h') /\ ring h' head [] /\ Forall (loose h') xs /\ onlyOn (head :: xs) h h'.
Proof.
  intros Hr [Hh Hnd]%NoDup_cons. pose proof (seg_ends _ _ _ _ Hr) as [Hn _]. pose proof (nextOf_live _ _ _ Hn) as Lh.
  unfold clear. unfold mbind, ST_bind, get. rewrite load_ok by done. cbn [_next]. rewrite Hn. unfold deref.
  destruct (clearLoop_ok (S (size h)) head xs h) as (h1 & E1 & Hl & Ho1 & Ho2);
    [now apply (seg_nextChain h head)|done..|now apply (loop_fuel h head xs head)|]. rewrite E1.
  destruct (clearHead_ok h1 head) as (h2 & E2 & Hr2 & Ho3 & Ho4); [now apply Ho2|]. exists h2. split_and!; try done.
  - apply Forall_forall. intros x Hx. unfold loose. rewrite Ho3 by set_solver. rewrite Forall_forall in Hl. now apply Hl.
  - split; intros z; [|now rewrite Ho4, Ho2]. intros Hz. rewrite Ho3, Ho1 by set_solver. done.
Qed.

Lemma iterLoop_ok fuel head xs h :
  nextChain h xs head -> head ∉ xs -> (length xs < fuel)%nat -> iterLoop fuel head (hd head xs) h = Ret (xs, h).
Proof.
  revert fuel. induction xs as [|x xs IH]; intros fuel Hc Hh Hf; (destruct fuel as [|f]; [cbn [length] in Hf; lia|]); cbn [iterLoop hd].
  - now rewrite bool_decide_true.
  - destruct Hc as [Hx Hc]. rewrite bool_decide_false by set_solver. pose proof (nextOf_live _ _ _ Hx) as Lx. hstep. rewrite Hx.
    unfold mbind, ST_bind, deref. rewrite IH; [done|done|set_solver|cbn [length] in Hf; lia].
Qed.

Lemma iterate_ok head xs h : ring h head xs -> NoDup (head :: xs) -> iterate head h = Ret (xs, h).
Proof.
  intros Hr [Hh Hnd]%NoDup_cons. pose proof (seg_ends _ _ _ _ Hr) as [Hn _]. pose proof (nextOf_live _ _ _ Hn) as Lh.
  unfold iterate, mbind, ST_bind, get. rewrite load_ok by done. cbn [_next]. rewrite Hn. unfold deref.
  apply iterLoop_ok; [now apply (seg_nextChain h head)|done|now apply (loop_fuel h head xs head)].
Qed.
End loops.

(** * The heap as a collection of lists *)

Abbreviation rings := (list (addr * list addr)).

Definition cells (rs : rings) : list addr := concat (map (fun r => r.1 :: r.2) rs).

(** The heap holds the lists [rs] (heads with their links) and the links [os] that are
    in no list, and nothing else. *)
Record Holds (h : heap) (rs : rings) (os : list addr) : Prop := {
  ho_rings : Forall (fun r => ring h r.1 r.2) rs;
  ho_loose : Forall (loose h) os;
  ho_nodup : NoDup (cells rs ++ os);
  ho_live : forall x, live h x <-> x ∈ cells rs ++ os
}.

Section holds.
Implicit Types (h : heap) (rs : rings) (os : list addr) (x y hd : addr) (xs ys : list addr).

#[global] Instance cells_perm : Proper ((≡ₚ) ==> (≡ₚ)) cells.
Proof.
  intros rs rs' H. unfold cells. induction H as [|r l l' _ IH|r1 r2 l|l1 l2 l3 _ IH1 _ IH2]; cbn [map concat]; [done|now rewrite IH| |etrans; [exact IH1|exact IH2]].
  rewrite !app_assoc. f_equiv. apply Permutation_app_comm.
Qed.

Lemma holds_perm h rs rs' os os' : rs ≡ₚ rs' -> os ≡ₚ os' -> Holds h rs os -> Holds h rs' os'.
Proof.
  intros Hr Ho [H1 H2 H3 H4]. constructor; [now rewrite <- Hr|now rewrite <- Ho|now rewrite <- Hr, <- Ho|].
  intros x. now rewrite H4, Hr, Ho.
Qed.

Lemma ring_ext h h' hd xs : (forall z, z ∈ hd :: xs -> h' !! z = h !! z) -> ring h hd xs -> ring h' hd xs.
Proof.
  intros E. apply seg_frame; intros y Hy; unfold nextOf, prevOf; rewrite E by set_solver; done.
Qed.

Lemma in_cells hd xs rs z : (hd, xs) ∈ rs -> z ∈ hd :: xs -> z ∈ cells rs.
Proof.
  intros Hin Hz. unfold cells. apply list_elem_of_In, in_concat. exists (hd :: xs). split; [|now apply list_elem_of_In].
  apply in_map_iff. exists (hd, xs). split; [done|now apply list_elem_of_In].
Qed.

(** The lists and loose links that an operation does not touch. *)
Lemma cells_frame h h' cs rs os :
  onlyOn cs h h' -> (forall z, z ∈ cs -> z ∉ cells rs ++ os) ->
  Forall (fun r => ring h r.1 r.2) rs -> Forall (loose h) os ->
  Forall (fun r => ring h' r.1 r.2) rs /\ Forall (loose h') os.
Proof.
  intros [Ho _] Hd Hr Hl. split; apply Forall_forall.
  - intros [hd xs] Hin. rewrite Forall_forall in Hr. specialize (Hr _ Hin). cbn [fst snd] in *. apply (ring_ext h); [|done].
    intros z Hz. apply Ho. intros F. apply (Hd z F), elem_of_app. left. now apply (in_cells hd xs).
  - intros x Hx. unfold loose. rewrite Ho; [rewrite Forall_forall in Hl; now apply Hl|]. intros F. apply (Hd x F). set_solver.
Qed.

Lemma cells_cons hd xs rs : cells ((hd, xs) :: rs) = (hd :: xs) ++ cells rs.
Proof. done. Qed.

Lemma cells_one hd xs : cells [(hd, xs)] = hd :: xs.
Proof. unfold cells. cbn [map concat fst snd]. now rewrite app_nil_r. Qed.

(** What holds after an operation on the cells [cs], which were those of [rs0] and [os0]
    and are now those of [rs1] and [os1]. *)
Lemma holds_step h h' cs rs0 os0 rs1 os1 rs os :
  Holds h (rs0 ++ rs) (os0 ++ os) -> onlyOn cs h h' -> cs ≡ₚ cells rs0 ++ os0 -> cs ≡ₚ cells rs1 ++ os1 ->
  Forall (fun r => ring h' r.1 r.2) rs1 -> Forall (loose h') os1 -> Holds h' (rs1 ++ rs) (os1 ++ os).
Proof.
  intros [H1 H2 H3 H4] Ho E0 E1 Hr Hl. apply Forall_app in H1 as [_ H1]. apply Forall_app in H2 as [_ H2].
  assert (forall a b (c d : list addr), cells (a ++ b) ++ c ++ d ≡ₚ (cells a ++ c) ++ cells b ++ d) as Hp.
  { intros a b c d. unfold cells. rewrite map_app, concat_app, <- !app_assoc. f_equiv. rewrite !app_assoc. f_equiv. apply Permutation_app_comm. }
  rewrite Hp, <- E0 in H3. destruct (cells_frame h h' cs rs os Ho) as [F1 F2]; [|done..|].
  { intros z Hz. apply NoDup_app in H3 as (_ & H3 & _). now apply H3. }
  constructor; [now apply Forall_app|now apply Forall_app|now rewrite Hp, <- E1|].
  intros x. rewrite (proj2 Ho x), H4, !Hp, <- E0, <- E1. done.
Qed.
End holds.

Section holds_ops.
Implicit Types (h : heap) (rs : rings) (os : list addr) (x y hd : addr) (xs ys : list addr).

Lemma holds_ring h hd xs rs os : Holds h ((hd, xs) :: rs) os -> ring h hd xs /\ NoDup (hd :: xs).
Proof.
  intros [H1 _ H3 _]. apply Forall_cons in H1 as [H1 _]. rewrite cells_cons, <- app_assoc in H3.
  split; [done|]. now apply NoDup_app in H3 as (H3 & _).
Qed.

Lemma holds_loose h x rs os : Holds h rs (x :: os) -> loose h x.
Proof. intros [_ H _ _]. now apply Forall_cons in H as [H _]. Qed.

Lemma holds_apart h hd xs x rs os : Holds h ((hd, xs) :: rs) (x :: os) -> x ∉ hd :: xs.
Proof.
  intros [_ _ H _] F. rewrite cells_cons, <- app_assoc in H. apply NoDup_app in H as (_ & H & _). apply (H x F).
  apply elem_of_app. right. apply list_elem_of_here.
Qed.

Lemma holds_fresh h rs os x : Holds h rs os -> x ∉ cells rs ++ os -> h !! x = None.
Proof. intros [_ _ _ H] Hx. destruct (h !! x) eqn:E; [|done]. exfalso. apply Hx, H. now rewrite E. Qed.

Lemma holds_remove h hd xs x ys rs os :
  Holds h ((hd, xs ++ x :: ys) :: rs) os ->
  exists h', remove x h = Ret (tt, h') /\ Holds h' ((hd, xs ++ ys) :: rs) (x :: os).
Proof.
  intros H. destruct (holds_ring _ _ _ _ _ H) as (Hr & Hnd). apply ring_rotate in Hr.
  assert (x :: ys ++ hd :: xs ≡ₚ hd :: xs ++ x :: ys) as Ep by (rewrite <- !Permutation_middle, Permutation_app_comm; constructor).
  destruct (remove_ring h x (ys ++ hd :: xs) Hr) as (h' & E & Hl & Hr' & Ho); [now rewrite Ep|].
  exists h'. split; [done|]. apply (holds_step h h' (x :: ys ++ hd :: xs) [(hd, xs ++ x :: ys)] [] [(hd, xs ++ ys)] [x]); try done.
  - now rewrite cells_one, app_nil_r, Ep.
  - rewrite cells_one, Ep. cbn [app]. rewrite <- (Permutation_middle xs), Permutation_swap. apply Permutation_cons_append.
  - constructor; [|done]. cbn [fst snd]. destruct ys as [|y ys]; [now rewrite app_nil_r|]. cbn [app] in Hr'. now apply ring_rotate.
  - now constructor.
Qed.

(** The head of an empty list, unlinked from itself. *)
Lemma holds_remove_head h hd rs os :
  Holds h ((hd, []) :: rs) os -> exists h', remove hd h = Ret (tt, h') /\ Holds h' rs (hd :: os).
Proof.
  intros H. destruct (holds_ring _ _ _ _ _ H) as (Hr & Hnd).
  destruct (remove_ring h hd [] Hr Hnd) as (h' & E & Hl & _ & Ho).
  exists h'. split; [done|]. apply (holds_step h h' [hd] [(hd, [])] [] [] [hd]); try done. now constructor.
Qed.

Lemma holds_clearHead h hd rs os :
  Holds h rs (hd :: os) -> exists h', clearHead hd h = Ret (tt, h') /\ Holds h' ((hd, []) :: rs) os.
Proof.
  intros H. pose proof (holds_loose _ _ _ _ H) as Hl. destruct (clearHead_ok h hd) as (h' & E & Hr & Ho); [now apply loose_iff in Hl|].
  exists h'. split; [done|]. apply (holds_step h h' [hd] [] [hd] [(hd, [])] []); try done. now constructor.
Qed.

Lemma holds_insert_front h hd xs x rs os :
  Holds h ((hd, xs) :: rs) (x :: os) ->
  exists h', insertAfter x hd h = Ret (tt, h') /\ Holds h' ((hd, x :: xs) :: rs) os.
Proof.
  intros H. destruct (holds_ring _ _ _ _ _ H) as (Hr & Hnd). pose proof (holds_loose _ _ _ _ H) as Hl.
  destruct (insert_ring h x hd xs) as (h' & E & Hr' & Ho); [done..|now apply (holds_apart h hd xs x rs os)|].
  exists h'. split; [done|]. apply (holds_step h h' (x :: hd :: xs) [(hd, xs)] [x] [(hd, x :: xs)] []); try done.
  - rewrite cells_one. apply Permutation_cons_append.
  - rewrite cells_one, app_nil_r. apply Permutation_swap.
  - now constructor.
Qed.

Lemma holds_insert_back h hd xs o x rs os :
  Holds h ((hd, xs ++ [o]) :: rs) (x :: os) ->
  exists h', insertAfter x o h = Ret (tt, h') /\ Holds h' ((hd, (xs ++ [o]) ++ [x]) :: rs) os.
Proof.
  intros H. destruct (holds_ring _ _ _ _ _ H) as (Hr & Hnd). pose proof (holds_loose _ _ _ _ H) as Hl.
  apply ring_rotate in Hr. cbn [app] in Hr. assert (o :: hd :: xs ≡ₚ hd :: xs ++ [o]) as Ep by now rewrite Permutation_swap, <- Permutation_cons_append.
  destruct (insert_ring h x o (hd :: xs)) as (h' & E & Hr' & Ho); [done|done|now rewrite Ep|rewrite Ep; now apply (holds_apart h hd (xs ++ [o]) x rs os)|].
  exists h'. split; [done|]. apply (holds_step h h' (x :: o :: hd :: xs) [(hd, xs ++ [o])] [x] [(hd, (xs ++ [o]) ++ [x])] []); try done.
  - rewrite cells_one, Ep. apply Permutation_cons_append.
  - rewrite cells_one, app_nil_r, Ep. rewrite <- (Permutation_cons_append (xs ++ [o]) x). apply Permutation_swap.
  - constructor; [|done]. cbn [fst snd]. rewrite <- app_assoc. apply ring_rotate. exact Hr'.
Qed.
End holds_ops.

Section holds_ops2.
Implicit Types (h : heap) (rs : rings) (os : list addr) (x y hd : addr) (xs ys : list addr).

Lemma insertAfter_removed x o h h1 : remove x h = Ret (tt, h1) -> loose h1 x -> insertAfter x o h = insertAfter x o h1.
Proof. intros E Hl. unfold insertAfter. unfold mbind, ST_bind. now rewrite E, (remove_loose h1 x Hl). Qed.

Lemma holds_clear h hd xs rs os :
  Holds h ((hd, xs) :: rs) os -> exists h', clear hd h = Ret (tt, h') /\ Holds h' ((hd, []) :: rs) (xs ++ os).
Proof.
  intros H. destruct (holds_ring _ _ _ _ _ H) as (Hr & Hnd). destruct (clear_ok hd xs h Hr Hnd) as (h' & E & Hr' & Hl & Ho).
  exists h'. split; [done|]. apply (holds_step h h' (hd :: xs) [(hd, xs)] [] [(hd, [])] xs); try done.
  - now rewrite cells_one, app_nil_r.
  - now constructor.
Qed.

Lemma holds_newLink h rs os x :
  Holds h rs os -> x ∉ cells rs ++ os -> exists h', newLink x h = Ret (tt, h') /\ Holds h' rs (x :: os).
Proof.
  intros H Hx. pose proof (holds_fresh _ _ _ _ H Hx) as E. destruct H as [H1 H2 H3 H4]. exists (<[x := mkLink None None]> h). split; [done|].
  assert (forall z, z ∈ cells rs ++ os -> <[x := mkLink None None]> h !! z = h !! z) as Ho by (intros z Hz; apply lookup_insert_ne; set_solver).
  constructor.
  - apply Forall_forall. intros [hd xs] Hin. rewrite Forall_forall in H1. specialize (H1 _ Hin). apply (ring_ext h); [|done]. cbn [fst snd].
    intros z Hz. apply Ho, elem_of_app. left. now apply (in_cells hd xs).
  - constructor; [apply lookup_insert_eq|]. apply Forall_forall. intros z Hz. unfold loose. rewrite Ho by set_solver.
    rewrite Forall_forall in H2. now apply H2.
  - rewrite <- Permutation_middle. now constructor.
  - intros z. rewrite <- Permutation_middle, elem_of_cons, <- H4, lookup_insert. destruct (decide (x = z)) as [->|]; [split; [now left|eauto]|].
    split; [now right|]. intros [->|?]; [done|done].
Qed.

Lemma holds_delete h rs os x : Holds h rs (x :: os) -> exists h', deleteLink x h = Ret (tt, h') /\ Holds h' rs os.
Proof.
  intros H. pose proof (holds_loose _ _ _ _ H) as Hl. exists (delete x h). unfold deleteLink, mbind, ST_bind, modify. rewrite remove_loose by done.
  split; [done|]. destruct H as [H1 H2 H3 H4]. rewrite <- Permutation_middle in H3. apply NoDup_cons in H3 as [Hx H3]. apply Forall_cons in H2 as [_ H2].
  assert (forall z, z ∈ cells rs ++ os -> delete x h !! z = h !! z) as Ho by (intros z Hz; apply lookup_delete_ne; set_solver).
  constructor; [| |done|].
  - apply Forall_forall. intros [hd xs] Hin. rewrite Forall_forall in H1. specialize (H1 _ Hin). apply (ring_ext h); [|done]. cbn [fst snd].
    intros z Hz. apply Ho, elem_of_app. left. now apply (in_cells hd xs).
  - apply Forall_forall. intros z Hz. unfold loose. rewrite Ho by set_solver. rewrite Forall_forall in H2. now apply H2.
  - intros z. rewrite lookup_delete. destruct (decide (x = z)) as [<-|]; [split; [now intros [? ?]|now intros]|].
    rewrite H4, <- Permutation_middle, elem_of_cons. split; [intros [->|?]; done|now right].
Qed.

(** [x], in no list, takes the place of [y]. *)
Lemma holds_replace h hd xs x y ys rs os :
  Holds h ((hd, xs ++ y :: ys) :: rs) (x :: os) ->
  exists h', replace x y h = Ret (tt, h') /\ Holds h' ((hd, xs ++ x :: ys) :: rs) (y :: os).
Proof.
  intros H. destruct (holds_ring _ _ _ _ _ H) as (Hr & Hnd). pose proof (holds_loose _ _ _ _ H) as Hl. apply ring_rotate in Hr.
  assert (forall z, z :: ys ++ hd :: xs ≡ₚ hd :: xs ++ z :: ys) as Ep by (intros; rewrite <- !Permutation_middle, Permutation_app_comm; constructor).
  destruct (replace_ring h x y (ys ++ hd :: xs)) as (h' & E & Hr' & Hl' & Ho); [done|done|now destruct ys|now rewrite Ep|rewrite Ep; now apply (holds_apart h hd (xs ++ y :: ys) x rs os)|].
  exists h'. split; [done|]. apply (holds_step h h' (x :: y :: ys ++ hd :: xs) [(hd, xs ++ y :: ys)] [x] [(hd, xs ++ x :: ys)] [y]); try done.
  - rewrite cells_one, Ep. apply Permutation_cons_append.
  - rewrite cells_one, Permutation_swap, Ep. apply Permutation_cons_append.
  - constructor; [|done]. now apply ring_rotate.
  - now constructor.
Qed.

(** The same for the head of a list that is not empty. *)
Lemma holds_replace_head h hd hd' xs rs os :
  Holds h ((hd, xs) :: rs) (hd' :: os) -> xs <> [] ->
  exists h', replace hd' hd h = Ret (tt, h') /\ Holds h' ((hd', xs) :: rs) (hd :: os).
Proof.
  intros H Hne. destruct (holds_ring _ _ _ _ _ H) as (Hr & Hnd). pose proof (holds_loose _ _ _ _ H) as Hl.
  destruct (replace_ring h hd' hd xs) as (h' & E & Hr' & Hl' & Ho); [done..|now apply (holds_apart h hd xs hd' rs os)|].
  exists h'. split; [done|]. apply (holds_step h h' (hd' :: hd :: xs) [(hd, xs)] [hd'] [(hd', xs)] [hd]); try done.
  - rewrite cells_one. apply Permutation_cons_append.
  - rewrite cells_one, Permutation_swap. apply Permutation_cons_append.
  - now constructor.
  - now constructor.
Qed.
End holds_ops2.

(** * The specification: lists by their heads, and the links in none *)

Record Lists := mkLists { lists : gmap addr (list addr); others : gset addr }.

Definition Rep (h : heap) (A : Lists) : Prop := Holds h (map_to_list (lists A)) (elements (others A)).

Definition isLink (A : Lists) (x : addr) : Prop := x ∈ others A \/ exists hd xs, lists A !! hd = Some xs /\ x ∈ xs.

Definition isList (A : Lists) (hd : addr) : Prop := is_Some (lists A !! hd).

Definition fresh (A : Lists) (x : addr) : Prop := lists A !! x = None /\ ~ isLink A x.

(** The lists without the link [x]; the lists with [x] in the place of [y]. *)
Definition without (x : addr) (m : gmap addr (list addr)) : gmap addr (list addr) := filter (fun z => z <> x) <$> m.
Definition renamed (x y : addr) (m : gmap addr (list addr)) : gmap addr (list addr) :=
  map (fun z => if decide (z = y) then x else z) <$> m.

Definition detach (x : addr) (A : Lists) : Lists := mkLists (without x (lists A)) ({[x]} ∪ others A).

Definition elemsOf (A : Lists) (hd : addr) : list addr := default [] (lists A !! hd).

Section rep.
Implicit Types (h : heap) (A : Lists) (x y hd : addr) (xs ys : list addr) (m : gmap addr (list addr)) (X : gset addr).

Lemma rep_intro h rs os m X : Holds h rs os -> rs ≡ₚ map_to_list m -> os ≡ₚ elements X -> Rep h (mkLists m X).
Proof. intros H E1 E2. now apply (holds_perm h rs _ os _ E1 E2). Qed.

Lemma take_list m hd xs : m !! hd = Some xs -> map_to_list m ≡ₚ (hd, xs) :: map_to_list (delete hd m).
Proof. intros E. now rewrite map_to_list_delete. Qed.

Lemma put_list m hd xs : (hd, xs) :: map_to_list (delete hd m) ≡ₚ map_to_list (<[hd := xs]> m).
Proof. rewrite <- insert_delete_eq. symmetry. apply map_to_list_insert, lookup_delete_eq. Qed.

Lemma take_other X x : x ∈ X -> elements X ≡ₚ x :: elements (X ∖ {[x]}).
Proof. intros Hx. rewrite <- elements_union_singleton by set_solver. now rewrite <- union_difference_L by set_solver. Qed.

Lemma put_other X x : x ∉ X -> x :: elements X ≡ₚ elements ({[x]} ∪ X).
Proof. intros Hx. symmetry. now apply elements_union_singleton. Qed.

Lemma put_others X xs : NoDup xs -> (forall x, x ∈ xs -> x ∉ X) -> xs ++ elements X ≡ₚ elements (list_to_set xs ∪ X).
Proof.
  induction 1 as [|x xs Hx _ IH]; intros Hd; cbn [app list_to_set]; [now rewrite union_empty_l_L|].
  rewrite IH by set_solver. rewrite <- union_assoc_L. apply put_other. set_solver.
Qed.

(** Where a link is. *)
Lemma rep_unique h A hd1 xs1 hd2 xs2 x :
  Rep h A -> lists A !! hd1 = Some xs1 -> lists A !! hd2 = Some xs2 -> x ∈ hd1 :: xs1 -> x ∈ hd2 :: xs2 -> hd1 = hd2.
Proof.
  intros [_ _ H _] E1 E2 H1 H2. destruct (decide (hd1 = hd2)) as [|Hne]; [done|]. exfalso.
  rewrite (take_list _ _ _ E1), cells_cons, <- app_assoc in H. apply NoDup_app in H as (_ & H & _). apply (H x H1).
  apply elem_of_app. left. apply (in_cells hd2 xs2); [|done]. apply elem_of_map_to_list. now rewrite lookup_delete_ne.
Qed.

Lemma rep_apart h A hd xs x : Rep h A -> lists A !! hd = Some xs -> x ∈ hd :: xs -> x ∉ others A.
Proof.
  intros [_ _ H _] E Hx Ho. rewrite (take_list _ _ _ E), cells_cons, <- app_assoc in H. apply NoDup_app in H as (_ & H & _).
  apply (H x Hx), elem_of_app. right. now apply elem_of_elements.
Qed.

Lemma rep_nodup h A hd xs : Rep h A -> lists A !! hd = Some xs -> NoDup (hd :: xs).
Proof.
  intros H E. apply (holds_perm h _ _ _ _ (take_list _ _ _ E) (reflexivity _)) in H. now apply holds_ring in H as [_ H].
Qed.

Lemma fresh_dead h A x : Rep h A -> fresh A x -> x ∉ cells (map_to_list (lists A)) ++ elements (others A).
Proof.
  intros _ [Hl Hn] F. apply Hn. apply elem_of_app in F as [F|F]; [|left; now apply elem_of_elements].
  unfold cells in F. apply list_elem_of_In, in_concat in F as (l & Hl1 & Hx). apply in_map_iff in Hl1 as ([hd xs] & <- & Hin).
  apply list_elem_of_In, elem_of_map_to_list in Hin. cbn [fst snd] in Hx. destruct Hx as [->|Hx]; [now rewrite Hl in Hin|].
  right. exists hd, xs. split; [done|now apply list_elem_of_In].
Qed.

Lemma without_id xs x : x ∉ xs -> filter (fun z => z <> x) xs = xs.
Proof.
  induction xs as [|z xs IH]; intros H; [done|]. apply not_elem_of_cons in H as [Hz H]. rewrite filter_cons, decide_True by congruence. now rewrite IH.
Qed.

Lemma without_at h A hd xs x ys :
  Rep h A -> lists A !! hd = Some (xs ++ x :: ys) -> without x (lists A) = <[hd := xs ++ ys]> (lists A).
Proof.
  intros H E. pose proof (rep_nodup _ _ _ _ H E) as [_ Hnd]%NoDup_cons. apply NoDup_app in Hnd as (_ & Hx & Hnd).
  apply NoDup_cons in Hnd as [Hy _]. apply map_eq. intros k. unfold without. rewrite lookup_fmap, lookup_insert.
  destruct (decide (hd = k)) as [<-|Hne].
  - rewrite E. cbn [fmap option_fmap option_map]. f_equal. rewrite filter_app, filter_cons, decide_False by tauto.
    rewrite !without_id; [done|done|]. intros F. apply (Hx x F). set_solver.
  - destruct (lists A !! k) as [zs|] eqn:Ek; [|done]. cbn [fmap option_fmap option_map]. f_equal. apply without_id. intros F.
    apply Hne, (rep_unique h A hd (xs ++ x :: ys) k zs x); [done..|set_solver|set_solver].
Qed.

Lemma without_none m x : (forall hd xs, m !! hd = Some xs -> x ∉ xs) -> without x m = m.
Proof.
  intros H. apply map_eq. intros k. unfold without. rewrite lookup_fmap. destruct (m !! k) as [zs|] eqn:Ek; [|done].
  cbn [fmap option_fmap option_map]. f_equal. apply without_id. now apply (H k).
Qed.

Lemma rep_not_listed h A x : Rep h A -> x ∈ others A -> forall hd xs, lists A !! hd = Some xs -> x ∉ xs.
Proof. intros H Hx hd xs E F. apply (rep_apart h A hd xs x); [done|done|set_solver|done]. Qed.

(** ** Taking a link out of its list *)
Lemma rep_detach h A x :
  Rep h A -> isLink A x -> exists h1, remove x h = Ret (tt, h1) /\ loose h1 x /\ Rep h1 (detach x A).
Proof.
  intros H [Hx|(hd & zs & E & Hx)].
  - assert (loose h x) as Hl.
    { apply (holds_perm h _ _ _ _ (reflexivity _) (take_other _ _ Hx)) in H. now apply holds_loose in H. }
    exists h. split; [now apply remove_loose|]. split; [done|]. unfold detach. rewrite without_none by now apply (rep_not_listed h).
    replace ({[x]} ∪ others A) with (others A) by set_solver. destruct A; done.
  - apply list_elem_of_split in Hx as (xs & ys & ->). pose proof (without_at _ _ _ _ _ _ H E) as Ed.
    assert (x ∉ others A) as Ho by (apply (rep_apart h A hd (xs ++ x :: ys)); [done..|set_solver]).
    unfold Rep in H. apply (holds_perm h _ _ _ _ (take_list _ _ _ E) (reflexivity _)) in H.
    destruct (holds_remove _ _ _ _ _ _ _ H) as (h1 & E1 & H1). exists h1. split; [done|]. split; [now apply holds_loose in H1|].
    unfold detach. rewrite Ed. apply (rep_intro h1 _ _ _ _ H1); [apply put_list|now apply put_other].
Qed.
End rep.

(** ** Operations, and what they do to the lists *)

Inductive lop :=
  | ONewLink (x : addr) | ODeleteLink (x : addr) | OMoveLink (x y : addr) | OAssignLink (x y : addr)
  | ONewList (hd : addr) | ODeleteList (hd : addr) | OMoveList (hd hd' : addr) | OAssignList (hd hd' : addr)
  | OPushFront (hd x : addr) | OPushBack (hd x : addr) | OPopFront (hd : addr) | OErase (x : addr) | OClear (hd : addr).

Definition runLop (o : lop) : ST heap unit :=
  match o with
  | ONewLink x => newLink x
  | ODeleteLink x => deleteLink x
  | OMoveLink x y => moveLink x y
  | OAssignLink x y => assignLink x y
  | ONewList hd => newList hd
  | ODeleteList hd => deleteList hd
  | OMoveList hd hd' => moveList hd hd'
  | OAssignList hd hd' => assignList hd hd'
  | OPushFront hd x => push_front hd x
  | OPushBack hd x => push_back hd x
  | OPopFront hd => _ ← pop_front hd; mret tt
  | OErase x => erase x
  | OClear hd => clear hd
  end.

Definition emptied (hd : addr) (A : Lists) : Lists :=
  mkLists (<[hd := []]> (lists A)) (list_to_set (elemsOf A hd) ∪ others A).

(** [x] is put in the place of [y] ([x] is in no list). *)
Definition replaced (x y : addr) (A : Lists) : Lists :=
  if decide (y ∈ others A) then A
  else mkLists (renamed x y (lists A)) ({[y]} ∪ others A ∖ {[x]}).

Definition moved (hd hd' : addr) (A : Lists) : Lists :=
  mkLists (<[hd' := []]> (<[hd := elemsOf A hd']> (lists A))) (others A).

Definition specLop (o : lop) (A : Lists) : Lists :=
  match o with
  | ONewLink x => mkLists (lists A) ({[x]} ∪ others A)
  | ODeleteLink x => mkLists (without x (lists A)) (others A ∖ {[x]})
  | OMoveLink x y => replaced x y (mkLists (lists A) ({[x]} ∪ others A))
  | OAssignLink x y => if decide (x = y) then A else replaced x y (detach x A)
  | ONewList hd => mkLists (<[hd := []]> (lists A)) (others A)
  | ODeleteList hd => mkLists (delete hd (lists A)) (list_to_set (elemsOf A hd) ∪ others A)
  | OMoveList hd hd' => moved hd hd' A
  | OAssignList hd hd' => if decide (hd' = hd) then A else moved hd hd' (emptied hd A)
  | OPushFront hd x => mkLists (<[hd := x :: elemsOf (detach x A) hd]> (without x (lists A))) (others A ∖ {[x]})
  | OPushBack hd x => mkLists (<[hd := elemsOf (detach x A) hd ++ [x]]> (without x (lists A))) (others A ∖ {[x]})
  | OPopFront hd =>
      match elemsOf A hd with
      | x :: r => mkLists (<[hd := r]> (lists A)) ({[x]} ∪ others A)
      | [] => A
      end
  | OErase x => detach x A
  | OClear hd => emptied hd A
  end.

(** When the source may be called: the objects exist (or their storage is free), a list
    is not popped when empty, and [push_back] is not given the link that is last. *)
Definition legalLop (o : lop) (A : Lists) : Prop :=
  match o with
  | ONewLink x => fresh A x
  | ODeleteLink x | OErase x => isLink A x
  | OMoveLink x y => fresh A x /\ isLink A y
  | OAssignLink x y => isLink A x /\ isLink A y
  | ONewList hd => fresh A hd
  | ODeleteList hd | OClear hd => isList A hd
  | OMoveList hd hd' => fresh A hd /\ isList A hd'
  | OAssignList hd hd' => isList A hd /\ isList A hd'
  | OPushFront hd x => isList A hd /\ isLink A x
  | OPushBack hd x => isList A hd /\ isLink A x /\ list.last (elemsOf A hd) <> Some x
  | OPopFront hd => isList A hd /\ elemsOf A hd <> []
  end.

Section simulation.
Implicit Types (h : heap) (A : Lists) (x y hd : addr) (xs ys : list addr).

(** The heap with one list, or one loose link, in front. *)
Lemma rep_list h A hd xs : Rep h A -> lists A !! hd = Some xs -> Holds h ((hd, xs) :: map_to_list (delete hd (lists A))) (elements (others A)).
Proof. intros H E. exact (holds_perm h _ _ _ _ (take_list _ _ _ E) (reflexivity _) H). Qed.

Lemma rep_other h A x : Rep h A -> x ∈ others A -> Holds h (map_to_list (lists A)) (x :: elements (others A ∖ {[x]})).
Proof. intros H E. exact (holds_perm h _ _ _ _ (reflexivity _) (take_other _ _ E) H). Qed.

Lemma rep_both h A hd xs x : Rep h A -> lists A !! hd = Some xs -> x ∈ others A ->
  Holds h ((hd, xs) :: map_to_list (delete hd (lists A))) (x :: elements (others A ∖ {[x]})).
Proof. intros H E Hx. exact (holds_perm h _ _ _ _ (take_list _ _ _ E) (take_other _ _ Hx) H). Qed.

Lemma detach_list A hd xs x : lists A !! hd = Some xs -> lists (detach x A) !! hd = Some (filter (fun z => z <> x) xs).
Proof. intros E. cbn [lists detach]. unfold without. now rewrite lookup_fmap, E. Qed.

Lemma rep_push_front h A hd x :
  Rep h A -> isList A hd -> isLink A x -> exists h', push_front hd x h = Ret (tt, h') /\ Rep h' (specLop (OPushFront hd x) A).
Proof.
  intros H [xs E] Hx. destruct (rep_detach h A x H Hx) as (h1 & E1 & Hl & H1). unfold push_front. rewrite (insertAfter_removed x hd h h1 E1 Hl).
  pose proof (detach_list A hd xs x E) as Ed.
  destruct (holds_insert_front _ _ _ _ _ _ (rep_both h1 (detach x A) hd _ x H1 Ed ltac:(cbn [others detach]; set_solver))) as (h' & E2 & H2).
  exists h'. split; [done|]. apply (rep_intro h' _ _ _ _ H2); [unfold elemsOf; rewrite Ed; apply put_list|].
  cbn [others detach]. now replace (({[x]} ∪ others A) ∖ {[x]}) with (others A ∖ {[x]}) by set_solver.
Qed.

Lemma rep_push_back h A hd x :
  Rep h A -> isList A hd -> isLink A x -> list.last (elemsOf A hd) <> Some x ->
  exists h', push_back hd x h = Ret (tt, h') /\ Rep h' (specLop (OPushBack hd x) A).
Proof.
  intros H [xs E] Hx Hlast. unfold elemsOf in Hlast. rewrite E in Hlast. cbn [from_option id] in Hlast.
  destruct (rep_detach h A x H Hx) as (h1 & E1 & Hl & H1). pose proof (detach_list A hd xs x E) as Ed.
  destruct (holds_ring _ _ _ _ _ (rep_list _ _ _ _ H E)) as [Hr _]. pose proof (seg_ends _ _ _ _ Hr) as [_ Hp].
  unfold push_back, mbind, ST_bind. rewrite load_ok by now apply prevOf_live in Hp. cbn [_prev]. rewrite Hp. unfold deref.
  rewrite (insertAfter_removed x _ h h1 E1 Hl).
  pose proof (rep_both h1 (detach x A) hd _ x H1 Ed ltac:(cbn [others detach]; set_solver)) as H2.
  assert (exists h', insertAfter x (List.last (hd :: xs) hd) h1 = Ret (tt, h') /\
    Holds h' ((hd, filter (fun z => z <> x) xs ++ [x]) :: map_to_list (delete hd (lists (detach x A)))) (elements (others (detach x A) ∖ {[x]})))
    as (h' & E3 & H3).
  { destruct xs as [|y0 xs0]; [apply (holds_insert_front _ _ _ _ _ _ H2)|].
    destruct (exists_last (l := y0 :: xs0)) as (zs & o & Ex); [done|]. rewrite Ex in *. rewrite app_comm_cons, last_last.
    rewrite last_snoc in Hlast. rewrite filter_app, filter_cons, decide_True, filter_nil in * by congruence.
    apply (holds_insert_back _ _ _ _ _ _ _ H2). }
  exists h'. split; [done|]. apply (rep_intro h' _ _ _ _ H3); [unfold elemsOf; rewrite Ed; apply put_list|].
  cbn [others detach]. now replace (({[x]} ∪ others A) ∖ {[x]}) with (others A ∖ {[x]}) by set_solver.
Qed.
End simulation.

Section simulation2.
Implicit Types (h : heap) (A : Lists) (x y hd : addr) (xs ys : list addr).

Lemma empty_ok h A hd xs : Rep h A -> lists A !! hd = Some xs -> empty hd h = Ret (bool_decide (xs = []), h).
Proof.
  intros H E. destruct (holds_ring _ _ _ _ _ (rep_list _ _ _ _ H E)) as [Hr Hnd]. pose proof (seg_ends _ _ _ _ Hr) as [Hn _].
  unfold empty, mbind, ST_bind. rewrite load_ok by now apply nextOf_live in Hn. cbn [_next]. rewrite Hn. unfold mret, ST_ret. do 2 f_equal.
  apply bool_decide_ext. destruct xs as [|x xs]; [done|]. cbn [List.hd]. apply NoDup_cons in Hnd as [Hni _].
  split; [intros [= ->]; exfalso; apply Hni, list_elem_of_here|done].
Qed.

Lemma rep_pop_front h A hd :
  Rep h A -> isList A hd -> elemsOf A hd <> [] ->
  exists x h', pop_front hd h = Ret (x, h') /\ head (elemsOf A hd) = Some x /\ Rep h' (specLop (OPopFront hd) A).
Proof.
  intros H [xs E] Hne. cbn [specLop]. unfold elemsOf in *. rewrite E in *. cbn [from_option id] in *. destruct xs as [|x r]; [done|].
  pose proof (rep_list _ _ _ _ H E) as Hh. destruct (holds_ring _ _ _ _ _ Hh) as [Hr _]. pose proof (seg_ends _ _ _ _ Hr) as [Hn _].
  destruct (holds_remove h hd [] x r _ _ Hh) as (h' & E1 & H1).
  exists x, h'. unfold pop_front, mbind, ST_bind. rewrite (empty_ok h A hd (x :: r)) by done. rewrite bool_decide_false by done. cbn [negb assert].
  unfold assert. rewrite load_ok by now apply nextOf_live in Hn. cbn [_next]. rewrite Hn. unfold deref. cbn [List.hd]. rewrite E1.
  split; [done|]. split; [done|]. apply (rep_intro h' _ _ _ _ H1); [apply put_list|]. apply put_other.
  apply (rep_apart h A hd (x :: r)); [done..|set_solver].
Qed.

Lemma rep_clear h A hd : Rep h A -> isList A hd -> exists h', clear hd h = Ret (tt, h') /\ Rep h' (emptied hd A).
Proof.
  intros H [xs E]. destruct (holds_clear _ _ _ _ _ (rep_list _ _ _ _ H E)) as (h' & E1 & H1). exists h'. split; [done|].
  unfold emptied, elemsOf. rewrite E. cbn [from_option id]. apply (rep_intro h' _ _ _ _ H1); [apply put_list|].
  pose proof (rep_nodup _ _ _ _ H E) as [_ Hnd]%NoDup_cons. apply put_others; [done|]. intros x Hx. apply (rep_apart h A hd xs); [done..|set_solver].
Qed.

Lemma rep_newLink h A x : Rep h A -> fresh A x -> exists h', newLink x h = Ret (tt, h') /\ Rep h' (mkLists (lists A) ({[x]} ∪ others A)).
Proof.
  intros H Hf. destruct (holds_newLink _ _ _ x H (fresh_dead h A x H Hf)) as (h' & E & H1). exists h'. split; [done|].
  apply (rep_intro h' _ _ _ _ H1); [done|]. apply put_other. intros F. apply Hf. now left.
Qed.

Lemma rep_clearHead h A hd : Rep h A -> hd ∈ others A -> lists A !! hd = None ->
  exists h', clearHead hd h = Ret (tt, h') /\ Rep h' (mkLists (<[hd := []]> (lists A)) (others A ∖ {[hd]})).
Proof.
  intros H Hx Hn. destruct (holds_clearHead _ _ _ _ (rep_other _ _ _ H Hx)) as (h' & E & H1). exists h'. split; [done|].
  apply (rep_intro h' _ _ _ _ H1); [|done]. symmetry. now apply map_to_list_insert.
Qed.

Lemma rep_newList h A hd : Rep h A -> fresh A hd -> exists h', newList hd h = Ret (tt, h') /\ Rep h' (specLop (ONewList hd) A).
Proof.
  intros H Hf. destruct (rep_newLink h A hd H Hf) as (h1 & E1 & H1). unfold newList, mbind, ST_bind. rewrite E1.
  destruct (rep_clearHead h1 _ hd H1) as (h2 & E2 & H2); [cbn [others]; set_solver|apply Hf|]. exists h2. split; [done|].
  cbn [lists others] in H2. replace (({[hd]} ∪ others A) ∖ {[hd]}) with (others A) in H2; [done|]. destruct Hf as [_ Hf].
  assert (hd ∉ others A) by (intros F; apply Hf; now left). set_solver.
Qed.

Lemma rep_deleteLink h A x : Rep h A -> isLink A x -> exists h', deleteLink x h = Ret (tt, h') /\ Rep h' (specLop (ODeleteLink x) A).
Proof.
  intros H Hx. destruct (rep_detach h A x H Hx) as (h1 & E1 & Hl & H1).
  destruct (holds_delete _ _ _ _ (rep_other h1 (detach x A) x H1 ltac:(cbn [others detach]; set_solver))) as (h2 & E2 & H2).
  exists h2. unfold deleteLink, mbind, ST_bind in *. rewrite E1. rewrite (remove_loose h1 x Hl) in E2. split; [done|].
  apply (rep_intro h2 _ _ _ _ H2); [done|]. cbn [others detach]. now replace (({[x]} ∪ others A) ∖ {[x]}) with (others A ∖ {[x]}) by set_solver.
Qed.

Lemma rep_deleteList h A hd : Rep h A -> isList A hd -> exists h', deleteList hd h = Ret (tt, h') /\ Rep h' (specLop (ODeleteList hd) A).
Proof.
  intros H Hl. destruct (rep_clear h A hd H Hl) as (h1 & E1 & H1). unfold deleteList, mbind, ST_bind. rewrite E1.
  assert (lists (emptied hd A) !! hd = Some []) as El by apply lookup_insert_eq.
  destruct (holds_remove_head _ _ _ _ (rep_list _ _ _ _ H1 El)) as (h2 & E2 & H2). pose proof (holds_loose _ _ _ _ H2) as Hl2.
  destruct (holds_delete _ _ _ _ H2) as (h3 & E3 & H3). exists h3. unfold deleteLink, mbind, ST_bind in *. rewrite E2.
  rewrite (remove_loose h2 hd Hl2) in E3. split; [done|]. apply (rep_intro h3 _ _ _ _ H3); [|done]. cbn [lists emptied]. now rewrite delete_insert_eq.
Qed.
End simulation2.

Section simulation3.
Implicit Types (h : heap) (A : Lists) (x y hd : addr) (xs ys : list addr).

Lemma rename_id xs x y : y ∉ xs -> map (fun z => if decide (z = y) then x else z) xs = xs.
Proof.
  induction xs as [|z xs IH]; intros H; [done|]. apply not_elem_of_cons in H as [Hz H]. cbn [map]. rewrite decide_False by congruence. now rewrite IH.
Qed.

Lemma renamed_at h A hd xs x y ys :
  Rep h A -> lists A !! hd = Some (xs ++ y :: ys) -> renamed x y (lists A) = <[hd := xs ++ x :: ys]> (lists A).
Proof.
  intros H E. pose proof (rep_nodup _ _ _ _ H E) as [_ Hnd]%NoDup_cons. apply NoDup_app in Hnd as (_ & Hx & Hnd).
  apply NoDup_cons in Hnd as [Hy _]. apply map_eq. intros k. unfold renamed. rewrite lookup_fmap, lookup_insert.
  destruct (decide (hd = k)) as [<-|Hne].
  - rewrite E. cbn [fmap option_fmap option_map]. f_equal. rewrite map_app. cbn [map]. rewrite decide_True by done.
    rewrite !rename_id; [done|done|]. intros F. apply (Hx y F). set_solver.
  - destruct (lists A !! k) as [zs|] eqn:Ek; [|done]. cbn [fmap option_fmap option_map]. f_equal. apply rename_id. intros F.
    apply Hne, (rep_unique h A hd (xs ++ y :: ys) k zs y); [done..|set_solver|set_solver].
Qed.

Lemma rep_replace h A x y :
  Rep h A -> x ∈ others A -> isLink A y -> x <> y -> exists h', replace x y h = Ret (tt, h') /\ Rep h' (replaced x y A).
Proof.
  intros H Hx Hy Hne. unfold replaced. destruct (decide (y ∈ others A)) as [Ho|Ho].
  - exists h. split; [|done]. apply replace_loose; [apply (holds_loose _ _ _ _ (rep_other h A x H Hx))|apply (holds_loose _ _ _ _ (rep_other h A y H Ho))].
  - destruct Hy as [Hy|(hd & zs & E & Hy)]; [done|]. apply list_elem_of_split in Hy as (xs & ys & ->).
    destruct (holds_replace _ _ _ _ _ _ _ _ (rep_both _ _ _ _ _ H E Hx)) as (h' & E1 & H1). exists h'. split; [done|].
    rewrite (renamed_at h A hd xs x y ys H E). apply (rep_intro h' _ _ _ _ H1); [apply put_list|]. apply put_other. set_solver.
Qed.

Lemma rep_moveLink h A x y :
  Rep h A -> fresh A x -> isLink A y -> exists h', moveLink x y h = Ret (tt, h') /\ Rep h' (specLop (OMoveLink x y) A).
Proof.
  intros H Hf Hy. destruct (rep_newLink h A x H Hf) as (h1 & E1 & H1). unfold moveLink, mbind, ST_bind. rewrite E1.
  apply (rep_replace h1 _ x y H1); [cbn [others]; set_solver|destruct Hy as [Hy|Hy]; [left; cbn [others]; set_solver|now right]|].
  intros ->. now apply (proj2 Hf).
Qed.

Lemma detach_link A x y : isLink A y -> isLink (detach x A) y.
Proof.
  intros [Hy|(hd & xs & E & Hy)]; [left; cbn [others detach]; set_solver|]. destruct (decide (y = x)) as [->|Hne]; [left; cbn [others detach]; set_solver|].
  right. exists hd, (filter (fun z => z <> x) xs). split; [now apply detach_list|]. now apply list_elem_of_filter.
Qed.

Lemma rep_assignLink h A x y :
  Rep h A -> isLink A x -> isLink A y -> exists h', assignLink x y h = Ret (tt, h') /\ Rep h' (specLop (OAssignLink x y) A).
Proof.
  intros H Hx Hy. unfold assignLink. cbn [specLop]. destruct (decide (x = y)) as [->|Hne].
  - rewrite bool_decide_true by done. now exists h.
  - rewrite bool_decide_false by done. destruct (rep_detach h A x H Hx) as (h1 & E1 & Hl & H1). unfold mbind, ST_bind. rewrite E1.
    apply (rep_replace h1 _ x y H1); [cbn [others detach]; set_solver|now apply detach_link|done].
Qed.

(** [mvHead] to a head that is not linked, once the old links are gone. *)
Lemma holds_mvHead h hd hd' xs rs os :
  Holds h ((hd', xs) :: rs) (hd :: os) -> xs <> [] ->
  exists h', (_ ← replace hd hd'; clearHead hd') h = Ret (tt, h') /\ Holds h' ((hd', []) :: (hd, xs) :: rs) os.
Proof.
  intros H Hne. destruct (holds_replace_head _ _ _ _ _ _ H Hne) as (h1 & E1 & H1). unfold mbind, ST_bind. rewrite E1.
  apply (holds_clearHead h1 hd' _ os H1).
Qed.

(** Both lists of a move, after it. *)
Lemma moved_perm (m : gmap addr (list addr)) hd hd' xs :
  hd <> hd' -> (hd', []) :: (hd, xs) :: map_to_list (delete hd' (delete hd m)) ≡ₚ map_to_list (<[hd' := []]> (<[hd := xs]> m)).
Proof.
  intros Hne. rewrite <- put_list, delete_insert_ne by done. constructor. rewrite delete_delete.
  rewrite <- put_list. constructor. done.
Qed.
End simulation3.

Section simulation4.
Implicit Types (h : heap) (A : Lists) (x y hd : addr) (xs ys : list addr).

Lemma mvHead_run h h1 A hd hd' xs :
  Rep h A -> lists A !! hd' = Some xs -> xs <> [] -> hd <> hd' -> remove hd h = Ret (tt, h1) ->
  mvHead hd hd' h = (_ ← replace hd hd'; clearHead hd') h1.
Proof.
  intros H E Hne Hd Er. unfold mvHead, assignLink. rewrite bool_decide_false by done. unfold mbind, ST_bind.
  rewrite (empty_ok h A hd' xs) by done. rewrite bool_decide_false by done. unfold assert. cbn [negb]. now rewrite Er.
Qed.

Lemma rep_moveList h A hd hd' :
  Rep h A -> fresh A hd -> isList A hd' -> exists h', moveList hd hd' h = Ret (tt, h') /\ Rep h' (specLop (OMoveList hd hd') A).
Proof.
  intros H Hf [xs E]. destruct (rep_newLink h A hd H Hf) as (h1 & E1 & H1). set (A1 := mkLists (lists A) ({[hd]} ∪ others A)) in *.
  assert (hd <> hd') as Hne by (intros ->; destruct Hf as [Hf _]; congruence).
  assert (({[hd]} ∪ others A) ∖ {[hd]} = others A) as Eo.
  { assert (hd ∉ others A) by (intros F; apply (proj2 Hf); now left). set_solver. }
  pose proof (rep_both h1 A1 hd' xs hd H1 E ltac:(cbn [A1 others]; set_solver)) as Hb. cbn [A1 lists others] in Hb. rewrite Eo in Hb.
  unfold moveList. unfold mbind at 1, ST_bind at 1. rewrite E1. unfold mbind, ST_bind. rewrite (empty_ok h1 A1 hd' xs H1 E).
  cbn [specLop]. unfold moved, elemsOf. rewrite E. cbn [from_option id]. destruct (decide (xs = [])) as [->|Hxs].
  - rewrite bool_decide_true by done. destruct (rep_clearHead h1 A1 hd H1) as (h2 & E2 & H2); [cbn [A1 others]; set_solver|apply Hf|].
    exists h2. split; [done|]. cbn [A1 lists others] in H2. rewrite Eo in H2. rewrite insert_id; [done|]. now rewrite lookup_insert_ne.
  - rewrite bool_decide_false by done.
    rewrite (mvHead_run h1 h1 A1 hd hd' xs) by (done || apply remove_loose, (holds_loose _ _ _ _ Hb)).
    destruct (holds_mvHead _ _ _ _ _ _ Hb Hxs) as (h2 & E2 & H2). exists h2. split; [exact E2|].
    apply (rep_intro h2 _ _ _ _ H2); [|done]. rewrite <- moved_perm by done. rewrite (delete_id (lists A) hd); [done|apply Hf].
Qed.

Lemma rep_assignList h A hd hd' :
  Rep h A -> isList A hd -> isList A hd' -> exists h', assignList hd hd' h = Ret (tt, h') /\ Rep h' (specLop (OAssignList hd hd') A).
Proof.
  intros H Hl [xs E]. unfold assignList. cbn [specLop]. destruct (decide (hd' = hd)) as [->|Hne]; [rewrite bool_decide_true by done; now exists h|].
  rewrite bool_decide_false by done. destruct (rep_clear h A hd H Hl) as (h1 & E1 & H1). unfold mbind at 1, ST_bind at 1. rewrite E1.
  assert (lists (emptied hd A) !! hd' = Some xs) as E' by (cbn [emptied lists]; now rewrite lookup_insert_ne).
  assert (lists (emptied hd A) !! hd = Some []) as E0 by apply lookup_insert_eq.
  unfold mbind, ST_bind. rewrite (empty_ok h1 _ hd' xs H1 E'). unfold moved. unfold elemsOf at 1. rewrite E'. cbn [from_option id].
  destruct (decide (xs = [])) as [->|Hxs].
  - rewrite bool_decide_true by done. exists h1. split; [done|]. rewrite (insert_id (lists (emptied hd A)) hd []) by done. rewrite insert_id by done. now destruct (emptied hd A).
  - rewrite bool_decide_false by done. destruct (holds_remove_head _ _ _ _ (rep_list _ _ _ _ H1 E0)) as (h2 & E2 & H2).
    rewrite (mvHead_run h1 h2 _ hd hd' xs H1) by done.
    assert (delete hd (lists (emptied hd A)) !! hd' = Some xs) as Ed by now rewrite lookup_delete_ne.
    apply (holds_perm h2 _ _ _ _ (take_list _ _ _ Ed) (reflexivity _)) in H2.
    destruct (holds_mvHead _ _ _ _ _ _ H2 Hxs) as (h3 & E3 & H3). exists h3. split; [exact E3|].
    apply (rep_intro h3 _ _ _ _ H3); [|done]. rewrite <- moved_perm by done. done.
Qed.

Lemma runLop_ok o h A : Rep h A -> legalLop o A -> exists h', runLop o h = Ret (tt, h') /\ Rep h' (specLop o A).
Proof.
  intros H Hl. destruct o; cbn [legalLop runLop] in *.
  - now apply rep_newLink.
  - now apply rep_deleteLink.
  - destruct Hl. now apply rep_moveLink.
  - destruct Hl. now apply rep_assignLink.
  - now apply rep_newList.
  - now apply rep_deleteList.
  - destruct Hl. now apply rep_moveList.
  - destruct Hl. now apply rep_assignList.
  - destruct Hl. now apply rep_push_front.
  - destruct Hl as (? & ? & ?). now apply rep_push_back.
  - destruct Hl. destruct (rep_pop_front h A hd) as (x & h' & E & _ & H'); [done..|]. exists h'. unfold mbind, ST_bind. now rewrite E.
  - destruct (rep_detach h A x H Hl) as (h' & E & _ & H'). now exists h'.
  - now apply rep_clear.
Qed.
End simulation4.

Fixpoint runLops (l : list lop) : ST heap unit :=
  match l with
  | [] => mret tt
  | o :: r => _ ← runLop o; runLops r
  end.

Definition specLops (l : list lop) (A : Lists) : Lists := fold_left (fun A o => specLop o A) l A.

Fixpoint legalLops (l : list lop) (A : Lists) : Prop :=
  match l with
  | [] => True
  | o :: r => legalLop o A /\ legalLops r (specLop o A)
  end.

Lemma runLops_ok l h A : Rep h A -> legalLops l A -> exists h', runLops l h = Ret (tt, h') /\ Rep h' (specLops l A).
Proof.
  revert h A. induction l as [|o l IH]; intros h A H Hl; [now exists h|]. destruct Hl as [Ho Hl].
  destruct (runLop_ok o h A H Ho) as (h1 & E1 & H1). destruct (IH h1 _ H1 Hl) as (h2 & E2 & H2). exists h2.
  split; [|done]. cbn [runLops]. unfold mbind, ST_bind. now rewrite E1.
Qed.

Definition noLists : Lists := mkLists ∅ ∅.

Lemma rep_empty : Rep ∅ noLists.
Proof.
  split; [constructor..|]. intros x. split; [now intros [? ?]|]. intros F. now apply elem_of_nil in F.
Qed.

(** C39: the intrusive lists implement sequences.  Starting from nothing, any sequence of
    constructions, moves, assignments and destructions of links and lists, and of
    pushes, pops and removals, runs without a null or dangling pointer and with every
    assertion holding; afterwards the heap holds exactly the lists of the specification,
    and each of them reads as its sequence: iterating gives the links in order, and
    [empty], [front] and [back] answer accordingly. *)
Theorem linked_list_refines l :
  legalLops l noLists ->
  exists h, runLops l ∅ = Ret (tt, h) /\ Rep h (specLops l noLists)
    /\ forall hd xs, lists (specLops l noLists) !! hd = Some xs ->
         iterate hd h = Ret (xs, h) /\ empty hd h = Ret (bool_decide (xs = []), h)
         /\ (xs <> [] -> exists f b, front hd h = Ret (f, h) /\ back hd h = Ret (b, h) /\ head xs = Some f /\ list.last xs = Some b).
Proof.
  intros Hl. destruct (runLops_ok l ∅ noLists rep_empty Hl) as (h & E & H). exists h. split; [done|]. split; [done|].
  intros hd xs El. destruct (holds_ring _ _ _ _ _ (rep_list _ _ _ _ H El)) as [Hr Hnd]. pose proof (empty_ok _ _ _ _ H El) as Ee.
  split; [now apply iterate_ok|]. split; [done|]. intros Hne. pose proof (seg_ends _ _ _ _ Hr) as [Hn Hp].
  destruct (exists_last Hne) as (ys & b & ->). exists (List.hd hd (ys ++ [b])), b.
  unfold front, back, mbind, ST_bind. rewrite Ee, bool_decide_false by done. unfold assert. cbn [negb].
  rewrite load_ok by now apply nextOf_live in Hn. cbn [_next _prev]. rewrite Hn, Hp. unfold deref. rewrite app_comm_cons, last_last.
  split_and!; [done..| |now apply last_snoc]. now destruct ys.
Qed.

(** Two lists; links move between them, a list is moved and a link destroyed. *)
Definition sampleLops : list lop :=
  [ONewList 1; ONewList 2; ONewLink 10; ONewLink 11; ONewLink 12; OPushBack 1 10; OPushBack 1 11; OPushFront 1 12;
   OPushBack 2 12; OMoveList 3 1; OMoveLink 13 10; OPopFront 3; OAssignList 3 2; ODeleteLink 11].

Lemma isLink_iff A x : x ∈ others A \/ Exists (fun p => x ∈ p.2) (map_to_list (lists A)) <-> isLink A x.
Proof.
  unfold isLink. rewrite Exists_exists. split; (intros [H|H]; [now left|right]).
  - destruct H as ([hd xs] & Hin & Hx). exists hd, xs. split; [now apply elem_of_map_to_list|done].
  - destruct H as (hd & xs & E & Hx). exists (hd, xs). split; [now apply elem_of_map_to_list|done].
Qed.

#[global] Instance isLink_dec A x : Decision (isLink A x).
Proof. refine (cast_if (decide (x ∈ others A \/ Exists (fun p => x ∈ p.2) (map_to_list (lists A))))); rewrite <- isLink_iff; done. Defined.

#[global] Instance legalLop_dec o A : Decision (legalLop o A).
Proof. destruct o; cbn [legalLop]; unfold fresh, isList; apply _. Defined.

#[global] Instance legalLops_dec l A : Decision (legalLops l A).
Proof. revert A. induction l as [|o l IH]; intros A; cbn [legalLops]; [apply _|]. refine (and_dec _ _). Defined.

Lemma linked_list_refines_witness :
  exists h, runLops sampleLops ∅ = Ret (tt, h) /\ iterate 3 h = Ret ([12], h) /\ iterate 1 h = Ret ([], h).
Proof.
  assert (legalLops sampleLops noLists) as Hl by (apply (bool_decide_unpack _); vm_compute; exact I).
  destruct (linked_list_refines sampleLops Hl) as (h & E & _ & H). exists h. split; [exact E|].
  split; [apply (H 3 [12])|apply (H 1 [])]; vm_compute; reflexivity.
Defined.

(** A link that is last in a list and is pushed to its back again falls out of the list
    and is left linked to itself. *)
Example push_back_last_lost :
  exists h h', runLops [ONewList 1; ONewLink 10; OPushBack 1 10] ∅ = Ret (tt, h) /\ iterate 1 h = Ret ([10], h)
    /\ push_back 1 10 h = Ret (tt, h') /\ iterate 1 h' = Ret ([], h') /\ h' !! 10 = Some (mkLink (Some 10) (Some 10)).
Proof. eexists _, _. split; [vm_compute; reflexivity|]. split; [vm_compute; reflexivity|]. split; [vm_compute; reflexivity|]. split; vm_compute; reflexivity. Qed.
