(* ===== verification/Relation.v ===== *)
(** Two-way relations between objects ([include/crouton/util/Relation.hh]): [OneToOne],
    and [ToMany] with [ToOne], built on the lists of [LinkedList].

    A relation is a member of the object it belongs to; the member's address stands for
    the object ([Child::self()] goes from one to the other by a fixed offset). *)

From S2P Require Import Prelude LinkedList.

(** * One to one *)

Module OneToOne.

(** The [_other] of each live member. *)
Abbreviation state := (gmap addr (option addr)).

Definition getOther (p : addr) : ST state (option addr) := fun s =>
  match s !! p with Some o => Ret (o, s) | None => Fault OutOfBounds end.

Definition setOther (p : addr) (v : option addr) : ST state unit :=
  _ ← getOther p; modify (<[p := v]>).

Definition hookup (this : addr) : ST state unit :=
  o ← getOther this;
  match o with Some q => setOther q (Some this) | None => mret tt end.

Definition unhook (this : addr) : ST state unit :=
  o ← getOther this;
  match o with
  | Some q => oo ← getOther q; _ ← assert (bool_decide (oo = Some this)); setOther q None
  | None => mret tt
  end.

Definition construct (this : addr) : ST state unit := modify (<[this := None]>).

Definition constructWith (this : addr) (other : option addr) : ST state unit :=
  _ ← construct this;
  _ ← setOther this other;
  hookup this.

Definition moveConstruct (this old : addr) : ST state unit :=
  _ ← construct this;
  o ← getOther old;
  _ ← setOther this o;
  _ ← setOther old None;
  hookup this.

Definition moveAssign (this old : addr) : ST state unit :=
  o ← getOther old;
  _ ← setOther this o;
  _ ← setOther old None;
  hookup this.

Definition assignTo (this : addr) (b : option addr) : ST state unit :=
  o ← getOther this;
  if bool_decide (b <> o) then
    _ ← unhook this;
    _ ← setOther this b;
    hookup this
  else mret tt.

Definition destruct (this : addr) : ST state unit := _ ← unhook this; modify (delete this).

(** Each link is answered by the other side's. *)
Definition Inverse (s : state) : Prop := forall p q, s !! p = Some (Some q) -> p <> q /\ s !! q = Some (Some p).

Inductive oop :=
  | OConstruct (p : addr) | OConstructWith (p : addr) (b : option addr) | OMove (p q : addr)
  | OMoveAssign (p q : addr) | OAssign (p : addr) (b : option addr) | ODestruct (p : addr).

Definition runOop (o : oop) : ST state unit :=
  match o with
  | OConstruct p => construct p
  | OConstructWith p b => constructWith p b
  | OMove p q => moveConstruct p q
  | OMoveAssign p q => moveAssign p q
  | OAssign p b => assignTo p b
  | ODestruct p => destruct p
  end.

(** The target of a new link is live and not linked to a third object. *)
Definition free (s : state) (p : addr) (b : option addr) : Prop :=
  match b with None => True | Some q => q <> p /\ (s !! q = Some None \/ s !! q = Some (Some p)) end.

Definition legalOop (o : oop) (s : state) : Prop :=
  match o with
  | OConstruct p => s !! p = None
  | OConstructWith p b => s !! p = None /\ free s p b
  | OMove p q => s !! p = None /\ is_Some (s !! q)
  | OMoveAssign p q => s !! p = Some None /\ is_Some (s !! q) /\ p <> q
  | OAssign p b => is_Some (s !! p) /\ free s p b
  | ODestruct p => is_Some (s !! p)
  end.

(** The effect of the operations. *)
Definition unlinked (p : addr) (s : state) : state :=
  match s !! p with Some (Some q) => <[p := None]> (<[q := None]> s) | _ => s end.

Definition linked (p : addr) (b : option addr) (s : state) : state :=
  match b with Some q => <[q := Some p]> (<[p := Some q]> s) | None => <[p := None]> s end.

Definition specOop (o : oop) (s : state) : state :=
  match o with
  | OConstruct p => <[p := None]> s
  | OConstructWith p b => linked p b s
  | OMove p q | OMoveAssign p q => linked p (default None (s !! q)) (unlinked q s)
  | OAssign p b => linked p b (unlinked p s)
  | ODestruct p => delete p (unlinked p s)
  end.

Section proofs.
Implicit Types (s : state) (p q : addr) (b : option addr).

Lemma getOther_ok s p o : s !! p = Some o -> getOther p s = Ret (o, s).
Proof. unfold getOther. now intros ->. Qed.

Lemma setOther_ok s p v : is_Some (s !! p) -> setOther p v s = Ret (tt, <[p := v]> s).
Proof. intros [o E]. unfold setOther, mbind, ST_bind. now rewrite (getOther_ok _ _ _ E). Qed.

Lemma hookup_ok s p b : s !! p = Some b -> match b with Some q => is_Some (s !! q) | None => True end ->
  hookup p s = Ret (tt, match b with Some q => <[q := Some p]> s | None => s end).
Proof. intros E H. unfold hookup, mbind, ST_bind. rewrite (getOther_ok _ _ _ E). destruct b; [now apply setOther_ok|done]. Qed.

(** Setting [_other] and hooking up. *)
Lemma link_ok s p b : is_Some (s !! p) -> free s p b -> (_ ← setOther p b; hookup p) s = Ret (tt, linked p b s).
Proof.
  intros Hp Hf. unfold mbind, ST_bind. rewrite setOther_ok by done. rewrite (hookup_ok _ p b); [now destruct b|apply lookup_insert_eq|].
  destruct b as [q|]; [|done]. destruct Hf as [Hne Hf]. rewrite lookup_insert_ne by done. destruct Hf as [-> | ->]; eauto.
Qed.

Lemma unhook_ok s p : Inverse s -> is_Some (s !! p) ->
  unhook p s = Ret (tt, match s !! p with Some (Some q) => <[q := None]> s | _ => s end).
Proof.
  intros Hi [o E]. unfold unhook, mbind, ST_bind. rewrite (getOther_ok _ _ _ E), E. destruct o as [q|]; [|done].
  destruct (Hi p q E) as [_ Eq]. rewrite (getOther_ok _ _ _ Eq). unfold assert. rewrite bool_decide_true by done. apply setOther_ok. eauto.
Qed.

Lemma linked_inverse s p b : Inverse s -> free s p b -> (s !! p = None \/ s !! p = Some None \/ exists q, b = Some q /\ s !! p = Some (Some q)) ->
  Inverse (linked p b s).
Proof.
  intros Hi Hf Hp x y. unfold linked. destruct b as [q|].
  - destruct Hf as [Hne Hf]. rewrite !lookup_insert. destruct (decide (q = x)) as [<-|]; [intros [= <-]|].
    { split; [done|]. rewrite decide_False by done. now rewrite decide_True. }
    destruct (decide (p = x)) as [<-|]; [intros [= <-]; split; [done|]; now rewrite decide_True|].
    intros E. destruct (Hi x y E) as [Hxy Ey]. split; [done|].
    destruct (decide (q = y)) as [<-|]; [destruct Hf as [F|F]; congruence|].
    destruct (decide (p = y)) as [<-|]; [|done]. destruct Hp as [F|[F|(? & [= <-] & F)]]; congruence.
  - rewrite !lookup_insert. destruct (decide (p = x)) as [<-|]; [done|]. intros E. destruct (Hi x y E) as [Hxy Ey]. split; [done|].
    destruct (decide (p = y)) as [<-|]; [|done]. destruct Hp as [F|[F|(? & [=] & F)]]; congruence.
Qed.

Lemma unlinked_inverse s p : Inverse s -> Inverse (unlinked p s).
Proof.
  intros Hi x y. unfold unlinked. destruct (s !! p) as [[q|]|] eqn:Ep; [|apply Hi..]. destruct (Hi p q Ep) as [Hpq Eq].
  rewrite !lookup_insert. destruct (decide (p = x)) as [<-|]; [done|]. destruct (decide (q = x)) as [<-|]; [done|].
  intros E. destruct (Hi x y E) as [Hxy Ey]. split; [done|]. destruct (decide (p = y)) as [<-|]; [congruence|].
  destruct (decide (q = y)) as [<-|]; [congruence|done].
Qed.

Lemma unlinked_at s p : is_Some (s !! p) -> unlinked p s !! p = Some None.
Proof. intros [[q|] E]; unfold unlinked; rewrite E; [apply lookup_insert_eq|done]. Qed.

Lemma unlinked_free s p b : Inverse s -> free s p b -> free (unlinked p s) p b.
Proof.
  intros Hi. unfold free, unlinked. destruct b as [q|]; [|done]. intros [Hne Hf]. split; [done|].
  destruct (s !! p) as [[r|]|] eqn:Ep; [|done..]. rewrite !lookup_insert. rewrite decide_False by done.
  destruct (decide (r = q)); [now left|]. destruct Hf as [Hf|Hf]; [now left|]. apply Hi in Hf as [_ Hf]. congruence.
Qed.

Lemma relink s p q b :
  b <> Some p -> p <> q -> b <> Some q ->
  match b with Some r => <[r := Some p]> (<[q := None]> (<[p := b]> s)) | None => <[q := None]> (<[p := b]> s) end
  = linked p b (<[q := None]> match b with Some r => <[r := None]> s | None => s end).
Proof.
  intros H1 H2 H3. unfold linked. destruct b as [r|]; apply map_eq; intros k; rewrite !lookup_insert;
    repeat case_decide; congruence.
Qed.

(** Both moves, from where [p] is live and unlinked. *)
Lemma move_ok s p q :
  Inverse s -> s !! p = Some None -> is_Some (s !! q) -> p <> q ->
  moveAssign p q s = Ret (tt, linked p (default None (s !! q)) (unlinked q s)) /\ Inverse (linked p (default None (s !! q)) (unlinked q s)).
Proof.
  intros Hi Ep [o Eq] Hne. assert (o <> Some p /\ o <> Some q) as [Hop Hoq].
  { split; intros ->; [|now destruct (Hi q q Eq)]. destruct (Hi q p Eq) as [_ F]. congruence. }
  rewrite Eq. cbn [default from_option id].
  assert (unlinked q s = <[q := None]> match o with Some r => <[r := None]> s | None => s end) as Eu.
  { unfold unlinked. rewrite Eq. destruct o; [done|]. now rewrite insert_id. }
  split.
  - unfold moveAssign, mbind, ST_bind. rewrite (getOther_ok _ _ _ Eq). rewrite setOther_ok by eauto.
    rewrite setOther_ok by (rewrite lookup_insert_ne by done; eauto).
    rewrite (hookup_ok _ p o); [| |destruct o as [r|]; [|done]].
    + rewrite Eu, <- relink by congruence. now destruct o.
    + rewrite lookup_insert_ne by done. apply lookup_insert_eq.
    + destruct (Hi q r Eq) as [_ Er]. rewrite !lookup_insert_ne by congruence. eauto.
  - apply linked_inverse; [now apply unlinked_inverse| |].
    + rewrite Eu. unfold free. destruct o as [r|]; [|done]. split; [congruence|]. left. rewrite lookup_insert_ne by congruence. apply lookup_insert_eq.
    + right. left. rewrite Eu. rewrite lookup_insert_ne by done. destruct o as [r|]; [|done]. now rewrite lookup_insert_ne by congruence.
Qed.

Lemma inverse_new s p : Inverse s -> s !! p = None -> Inverse (<[p := None]> s).
Proof. intros Hi E. apply (linked_inverse s p None); [done|done|now left]. Qed.

Lemma assignTo_ok s p b :
  Inverse s -> is_Some (s !! p) -> free s p b -> assignTo p b s = Ret (tt, linked p b (unlinked p s)).
Proof.
  intros Hi [o Ep] Hf. unfold assignTo, mbind, ST_bind. rewrite (getOther_ok _ _ _ Ep). destruct (decide (b = o)) as [->|Hne].
  - rewrite bool_decide_false by tauto. unfold mret, ST_ret. do 2 f_equal. unfold linked, unlinked. rewrite Ep.
    destruct o as [q|]; [|symmetry; now apply insert_id]. destruct (Hi p q Ep) as [Hpq Eq]. apply map_eq. intros k. rewrite !lookup_insert.
    destruct (decide (q = k)) as [<-|]; [done|]. now destruct (decide (p = k)) as [<-|].
  - rewrite bool_decide_true by done. rewrite unhook_ok by eauto. rewrite Ep.
    set (s1 := match Some o with Some (Some q) => <[q := None]> s | _ => s end).
    assert (linked p b (unlinked p s) = linked p b s1) as ->.
    { unfold linked, unlinked, s1. rewrite Ep. destruct o as [q|]; [|done]. destruct b; now rewrite insert_insert_eq. }
    apply link_ok.
    + unfold s1. destruct o as [q|]; [destruct (Hi p q Ep); rewrite lookup_insert_ne by done|]; eauto.
    + unfold free, s1 in *. destruct b as [r|]; [|done]. destruct Hf as [Hr Hf]. split; [done|]. destruct o as [q|]; [|done].
      rewrite lookup_insert. destruct (decide (q = r)); [now left|]. destruct Hf as [Hf|Hf]; [now left|]. apply Hi in Hf as [_ Hf]. congruence.
Qed.

Lemma runOop_ok o s : Inverse s -> legalOop o s -> runOop o s = Ret (tt, specOop o s) /\ Inverse (specOop o s).
Proof.
  intros Hi Hl. destruct o as [p|p b|p q|p q|p b|p]; cbn [runOop legalOop specOop] in *.
  - split; [done|]. now apply inverse_new.
  - destruct Hl as [Ep Hf]. assert (free (<[p := None]> s) p b) as Hf'.
    { unfold free in *. destruct b as [q|]; [|done]. destruct Hf as [Hne Hf]. split; [done|]. now rewrite lookup_insert_ne. }
    assert (linked p b s = linked p b (<[p := None]> s)) as -> by (unfold linked; destruct b; now rewrite insert_insert_eq).
    split; [|apply linked_inverse; [now apply inverse_new|done|right; left; apply lookup_insert_eq]].
    unfold constructWith, construct, modify. unfold mbind at 1, ST_bind at 1. apply link_ok; [rewrite lookup_insert_eq; eauto|done].
  - destruct Hl as [Ep Hq]. assert (p <> q) as Hne by (intros ->; destruct Hq; congruence).
    destruct (move_ok (<[p := None]> s) p q) as [E H]; [now apply inverse_new|apply lookup_insert_eq|now rewrite lookup_insert_ne|done|].
    assert (linked p (default None (s !! q)) (unlinked q s)
      = linked p (default None (<[p := None]> s !! q)) (unlinked q (<[p := None]> s))) as ->; [|now split].
    rewrite lookup_insert_ne by done. unfold linked, unlinked. rewrite lookup_insert_ne by done. destruct Hq as [o Eq]. rewrite Eq. cbn [default from_option id].
    destruct o as [r|]; apply map_eq; intros k; rewrite !lookup_insert; destruct (decide (p = k)); [by repeat case_decide|done|done|done].
  - destruct Hl as (Ep & Hq & Hne). now apply move_ok.
  - destruct Hl as [Hp Hf]. split; [now apply assignTo_ok|]. apply linked_inverse; [now apply unlinked_inverse|now apply unlinked_free|].
    right. left. now apply unlinked_at.
  - split.
    + unfold destruct, mbind, ST_bind, modify. rewrite unhook_ok by done. do 2 f_equal. unfold unlinked. destruct (s !! p) as [[q|]|]; [|done..].
      now rewrite delete_insert_eq.
    + intros x y. pose proof (unlinked_inverse s p Hi x y) as H. rewrite !lookup_delete. destruct (decide (p = x)); [done|]. intros E.
      destruct (H E) as [Hxy Ey]. split; [done|]. destruct (decide (p = y)) as [<-|]; [|done]. rewrite unlinked_at in Ey; [done|done].
Qed.
End proofs.

Fixpoint runOops (l : list oop) : ST state unit :=
  match l with
  | [] => mret tt
  | o :: r => _ ← runOop o; runOops r
  end.

Definition specOops (l : list oop) (s : state) : state := fold_left (fun s o => specOop o s) l s.

Fixpoint legalOops (l : list oop) (s : state) : Prop :=
  match l with
  | [] => True
  | o :: r => legalOop o s /\ legalOops r (specOop o s)
  end.

Lemma runOops_ok l s : Inverse s -> legalOops l s -> runOops l s = Ret (tt, specOops l s) /\ Inverse (specOops l s).
Proof.
  revert s. induction l as [|o l IH]; intros s Hi Hl; [done|]. destruct Hl as [Ho Hl]. destruct (runOop_ok o s Hi Ho) as [E1 H1].
  destruct (IH _ H1 Hl) as [E2 H2]. split; [|done]. cbn [runOops]. unfold mbind, ST_bind. now rewrite E1.
Qed.

(** One-to-one relations are inverse to each other: whatever objects are made,
    linked, relinked, moved and destroyed (as long as a link is only made to an object
    that is not linked to a third one), no assertion fails and no dead object is
    touched, every operation has its specified effect, and whenever one object points to
    another that one points back. *)
Theorem one_to_one_inverse l :
  legalOops l ∅ ->
  runOops l ∅ = Ret (tt, specOops l ∅)
  /\ forall p q, specOops l ∅ !! p = Some (Some q) -> p <> q /\ specOops l ∅ !! q = Some (Some p).
Proof. intros Hl. apply (runOops_ok l ∅); [|done]. intros p q E. now rewrite lookup_empty in E. Qed.

Definition sampleOops : list oop :=
  [OConstruct 1; OConstructWith 2 (Some 1); OConstruct 3; OAssign 1 (Some 3); OMove 4 1; OMoveAssign 2 3; ODestruct 4].

Lemma one_to_one_inverse_witness :
  legalOops sampleOops ∅ /\ runOops sampleOops ∅ = Ret (tt, specOops sampleOops ∅) /\ specOops sampleOops ∅ !! 2 = Some None.
Proof.
  assert (legalOops sampleOops ∅) as Hl.
  { repeat split; try (vm_compute; (reflexivity || eauto; fail)); try (vm_compute; eexists; reflexivity); try (vm_compute; left; reflexivity);
      try done. }
  split; [exact Hl|]. split; [apply (one_to_one_inverse sampleOops Hl)|vm_compute; reflexivity].
Defined.

(** Linking to an object that is already linked leaves that object's old partner
    pointing to it, and destroying the partner then fails its assertion. *)
Example one_to_one_stolen :
  exists s, runOops [OConstruct 1; OConstructWith 2 (Some 1); OConstruct 3; OAssign 3 (Some 1)] ∅ = Ret (tt, s)
    /\ s !! 2 = Some (Some 1) /\ s !! 1 = Some (Some 3) /\ destruct 2 s = Fault AssertFailed.
Proof. eexists. split; [vm_compute; reflexivity|]. split; [|split]; vm_compute; reflexivity. Qed.

(** Moving onto an object that is linked leaves its old partner pointing to it. *)
Example one_to_one_overwritten :
  exists s, runOops [OConstruct 1; OConstructWith 2 (Some 1); OConstruct 3; OConstructWith 4 (Some 3); OMoveAssign 2 4] ∅ = Ret (tt, s)
    /\ s !! 1 = Some (Some 2) /\ s !! 2 = Some (Some 3) /\ destruct 1 s = Fault AssertFailed.
Proof. eexists. split; [vm_compute; reflexivity|]. split; [|split]; vm_compute; reflexivity. Qed.
End OneToOne.

(** * One to many *)

Module ToMany.

(** The links (a [ToMany] is a list, a [ToOne] a link), and the [_parent] of each
    [ToOne]. *)
Record Rel := mkRel { links : heap; parents : gmap addr (option addr) }.

Definition onLinks {X} (m : ST heap X) : ST Rel X := zoom links (fun h s => mkRel h (parents s)) m.

Definition setParent (x : addr) (v : option addr) : ST Rel unit := fun s =>
  match parents s !! x with
  | Some _ => Ret (tt, mkRel (links s) (<[x := v]> (parents s)))
  | None => Fault OutOfBounds
  end.

Definition getParent (x : addr) : ST Rel (option addr) := fun s =>
  match parents s !! x with Some p => Ret (p, s) | None => Fault OutOfBounds end.

Fixpoint setParents (xs : list addr) (v : option addr) : ST Rel unit :=
  match xs with
  | [] => mret tt
  | x :: r => _ ← setParent x v; setParents r v
  end.

(** The [for] loops over the list; their bodies leave the links alone. *)
Definition adopt (this : addr) : ST Rel unit := xs ← onLinks (iterate this); setParents xs (Some this).
Definition deAdopt (this : addr) : ST Rel unit := xs ← onLinks (iterate this); setParents xs None.

(** ** [ToMany] *)

Definition manyNew (this : addr) : ST Rel unit := onLinks (newList this).
Definition manyPushFront (this link : addr) : ST Rel unit := _ ← onLinks (push_front this link); setParent link (Some this).
Definition manyPushBack (this link : addr) : ST Rel unit := _ ← onLinks (push_back this link); setParent link (Some this).
Definition manyErase (link : addr) : ST Rel unit := _ ← onLinks (erase link); setParent link None.
Definition manyClear (this : addr) : ST Rel unit := _ ← deAdopt this; onLinks (clear this).
Definition manyDestruct (this : addr) : ST Rel unit := _ ← deAdopt this; onLinks (deleteList this).

Definition manyAssign (this other : addr) : ST Rel unit :=
  if bool_decide (other = this) then mret tt
  else _ ← onLinks (assignList this other); adopt this.

(** ** [ToOne] *)

Definition oneNew (this : addr) : ST Rel unit :=
  _ ← onLinks (newLink this); modify (fun s => mkRel (links s) (<[this := None]> (parents s))).

Definition oneNewIn (this : addr) (other : option addr) : ST Rel unit :=
  _ ← oneNew this;
  _ ← setParent this other;
  match other with Some p => manyPushBack p this | None => mret tt end.

Definition oneMove (this old : addr) : ST Rel unit :=
  _ ← onLinks (moveLink this old);
  p ← getParent old;
  _ ← modify (fun s => mkRel (links s) (<[this := p]> (parents s)));
  setParent old None.

Definition oneMoveAssign (this old : addr) : ST Rel unit :=
  _ ← onLinks (assignLink this old);
  p ← getParent old;
  _ ← setParent this p;
  setParent old None.

Definition oneAssign (this : addr) (parent : option addr) : ST Rel unit :=
  p ← getParent this;
  if bool_decide (parent <> p) then
    _ ← onLinks (remove this);
    _ ← setParent this parent;
    match parent with Some q => manyPushBack q this | None => mret tt end
  else mret tt.

Definition oneDestruct (this : addr) : ST Rel unit :=
  _ ← onLinks (deleteLink this); modify (fun s => mkRel (links s) (delete this (parents s))).

(** * Correctness *)

Inductive rop :=
  | RManyNew (p : addr) | RPushFront (p x : addr) | RPushBack (p x : addr) | RErase (x : addr) | RClear (p : addr)
  | RManyDestruct (p : addr) | RManyAssign (p q : addr)
  | ROneNew (x : addr) | ROneNewIn (x : addr) (p : option addr) | ROneMove (x y : addr) | ROneMoveAssign (x y : addr)
  | ROneAssign (x : addr) (p : option addr) | ROneDestruct (x : addr).

Definition runRop (o : rop) : ST Rel unit :=
  match o with
  | RManyNew p => manyNew p
  | RPushFront p x => manyPushFront p x
  | RPushBack p x => manyPushBack p x
  | RErase x => manyErase x
  | RClear p => manyClear p
  | RManyDestruct p => manyDestruct p
  | RManyAssign p q => manyAssign p q
  | ROneNew x => oneNew x
  | ROneNewIn x p => oneNewIn x p
  | ROneMove x y => oneMove x y
  | ROneMoveAssign x y => oneMoveAssign x y
  | ROneAssign x p => oneAssign x p
  | ROneDestruct x => oneDestruct x
  end.

(** What they mean for the lists: the operations of [LinkedList] they come down to. *)
Definition lopsOf (o : rop) (A : Lists) : list lop :=
  match o with
  | RManyNew p => [ONewList p]
  | RPushFront p x => [OPushFront p x]
  | RPushBack p x => [OPushBack p x]
  | RErase x => [OErase x]
  | RClear p => [OClear p]
  | RManyDestruct p => [ODeleteList p]
  | RManyAssign p q => [OAssignList p q]
  | ROneNew x => [ONewLink x]
  | ROneNewIn x None => [ONewLink x]
  | ROneNewIn x (Some p) => [ONewLink x; OPushBack p x]
  | ROneMove x y => [OMoveLink x y]
  | ROneMoveAssign x y => [OAssignLink x y]
  | ROneAssign x None => [OErase x]
  | ROneAssign x (Some p) => if decide (x ∈ elemsOf A p) then [] else [OErase x; OPushBack p x]
  | ROneDestruct x => [ODeleteLink x]
  end.

Definition specRop (o : rop) (A : Lists) : Lists := specLops (lopsOf o A) A.

(** A list is moved onto an empty one only, and a link not onto itself. *)
Definition legalRop (o : rop) (A : Lists) : Prop :=
  legalLops (lopsOf o A) A /\
  match o with
  | RManyAssign p q => p <> q -> elemsOf A p = []
  | ROneMoveAssign x y => x <> y
  | ROneAssign x (Some p) => isList A p /\ isLink A x
  | _ => True
  end.

(** A [ToOne] points to the [ToMany] it is in, and to nothing if it is in none. *)
Definition Agrees (par : gmap addr (option addr)) (A : Lists) : Prop :=
  (forall x p, par !! x = Some (Some p) <-> x ∈ elemsOf A p) /\ (forall x, par !! x = Some None <-> x ∈ others A).

Definition Consistent (s : Rel) (A : Lists) : Prop := Rep (links s) A /\ Agrees (parents s) A.

Section agrees.
Implicit Types (par : gmap addr (option addr)) (A : Lists) (x y p q : addr) (xs l : list addr).

Lemma elemsOf_insert m X p l q : elemsOf (mkLists (<[p := l]> m) X) q = if decide (p = q) then l else elemsOf (mkLists m X) q.
Proof. unfold elemsOf. cbn [lists]. rewrite lookup_insert. now destruct (decide (p = q)). Qed.

Lemma elemsOf_without m X x q : elemsOf (mkLists (without x m) X) q = filter (fun z => z <> x) (elemsOf (mkLists m X) q).
Proof. unfold elemsOf, without. cbn [lists]. rewrite lookup_fmap. now destruct (m !! q). Qed.

Lemma elemsOf_renamed m X x y q z :
  z ∈ elemsOf (mkLists (renamed x y m) X) q <-> z = x /\ y ∈ elemsOf (mkLists m X) q \/ z <> y /\ z ∈ elemsOf (mkLists m X) q.
Proof.
  unfold elemsOf, renamed. cbn [lists]. rewrite lookup_fmap. destruct (m !! q) as [xs|]; cbn [fmap option_fmap option_map default from_option id];
    [|split; [intros F; now apply elem_of_nil in F|intros [[_ F]|[_ F]]; now apply elem_of_nil in F]].
  rewrite list_elem_of_In, in_map_iff. split.
  - intros (w & E & Hw). apply list_elem_of_In in Hw. destruct (decide (w = y)) as [->|]; subst; [now left|now right].
  - intros [[-> Hy]|[Hne Hz]]; [exists y|exists z]; (split; [|now apply list_elem_of_In]); [now rewrite decide_True|now rewrite decide_False].
Qed.

Lemma in_elemsOf A p x : x ∈ elemsOf A p <-> exists xs, lists A !! p = Some xs /\ x ∈ xs.
Proof.
  unfold elemsOf. destruct (lists A !! p) as [xs|]; cbn [default from_option id]; split.
  - intros H. now exists xs.
  - now intros (? & [= ->] & H).
  - intros F. now apply elem_of_nil in F.
  - now intros (? & [=] & _).
Qed.

Lemma isLink_elems A x : isLink A x <-> x ∈ others A \/ exists p, x ∈ elemsOf A p.
Proof. unfold isLink. setoid_rewrite in_elemsOf. done. Qed.

Lemma agrees_link par A x : Agrees par A -> isLink A x -> is_Some (par !! x).
Proof. intros [H1 H2] [Hx|[p Hx]]%isLink_elems; [apply H2 in Hx|apply H1 in Hx]; eauto. Qed.

Lemma agrees_unlinked par A x : Agrees par A -> ~ isLink A x -> par !! x = None.
Proof.
  intros [H1 H2] Hx. destruct (par !! x) as [[p|]|] eqn:E; [|..|done]; exfalso; apply Hx, isLink_elems; [right; exists p; now apply H1|left; now apply H2].
Qed.

Lemma elemsOf_detach A x q : elemsOf (detach x A) q = filter (fun z => z <> x) (elemsOf A q).
Proof. unfold detach. rewrite elemsOf_without. now destruct A. Qed.

(** Tables and lists change together. *)
Lemma agrees_detach par A x : Agrees par A -> Agrees (<[x := None]> par) (detach x A).
Proof.
  intros [H1 H2]. split; [intros z p|intros z]; rewrite lookup_insert; [rewrite elemsOf_detach, list_elem_of_filter|cbn [others detach]; rewrite elem_of_union, elem_of_singleton].
  - rewrite <- H1. destruct (decide (x = z)) as [<-|]; [split; [done|tauto]|]. split; [intros E; split; [congruence|done]|tauto].
  - rewrite <- H2. destruct (decide (x = z)) as [<-|]; [split; [now left|done]|]. split; [now right|intros [->|?]; [done|done]].
Qed.

Lemma agrees_push par A p x l :
  Agrees par A -> (forall y, y ∈ l <-> y = x \/ y <> x /\ y ∈ elemsOf A p) ->
  Agrees (<[x := Some p]> par) (mkLists (<[p := l]> (without x (lists A))) (others A ∖ {[x]})).
Proof.
  intros [H1 H2] Hl. split; [intros z q|intros z]; rewrite lookup_insert.
  - rewrite elemsOf_insert. destruct (decide (p = q)) as [<-|Hpq].
    + rewrite Hl, <- H1. destruct (decide (x = z)) as [<-|]; [split; [now left|done]|]. split; [right; split; [congruence|done]|].
      intros [->|[_ ?]]; [done|done].
    + rewrite elemsOf_without, list_elem_of_filter. change (elemsOf (mkLists (lists A) (others A ∖ {[x]})) q) with (elemsOf A q).
      specialize (H1 z q). destruct (decide (x = z)) as [<-|]; [split; [intros [= <-]; done|tauto]|].
      split; [intros E; split; [congruence|now apply H1]|intros [_ E]; now apply H1].
  - cbn [others]. rewrite elem_of_difference, elem_of_singleton, <- H2. destruct (decide (x = z)) as [<-|]; [split; [done|tauto]|].
    split; [split; [done|congruence]|tauto].
Qed.

(** All links of one list at once. *)
Definition setAll (xs : list addr) (v : option addr) (par : gmap addr (option addr)) : gmap addr (option addr) :=
  fold_left (fun m x => <[x := v]> m) xs par.

Lemma setAll_lookup xs v par z : setAll xs v par !! z = if decide (z ∈ xs) then Some v else par !! z.
Proof.
  unfold setAll. revert par. induction xs as [|x xs IH]; intros par; cbn [fold_left].
  - rewrite decide_False; [done|]. intros F. now apply elem_of_nil in F.
  - rewrite IH, lookup_insert. destruct (decide (z ∈ xs)); [rewrite decide_True; [done|set_solver]|].
    destruct (decide (x = z)) as [<-|]; [rewrite decide_True; [done|set_solver]|rewrite decide_False; [done|set_solver]].
Qed.

(** The links of a list, orphaned. *)
Lemma agrees_orphans par A A' p :
  Agrees par A -> (forall q, elemsOf A' q = if decide (p = q) then [] else elemsOf A q) ->
  others A' = list_to_set (elemsOf A p) ∪ others A -> Agrees (setAll (elemsOf A p) None par) A'.
Proof.
  intros [H1 H2] He Ho. split; [intros z q|intros z]; rewrite setAll_lookup.
  - rewrite He. destruct (decide (p = q)) as [<-|Hpq].
    + destruct (decide (z ∈ elemsOf A p)) as [|Hz]; (split; [|intros F; now apply elem_of_nil in F]); [done|]. now intros F%H1.
    + destruct (decide (z ∈ elemsOf A p)) as [Hz|]; [|apply H1]. apply H1 in Hz. split; [done|intros F%H1; congruence].
  - rewrite Ho, elem_of_union, elem_of_list_to_set. specialize (H2 z). destruct (decide (z ∈ elemsOf A p)); tauto.
Qed.
End agrees.

Section ops.
Implicit Types (s : Rel) (A : Lists) (x y p q : addr).

Lemma onLinks_run {X} (m : ST heap X) s a h : m (links s) = Ret (a, h) -> onLinks m s = Ret (a, mkRel h (parents s)).
Proof. unfold onLinks, zoom. now intros ->. Qed.

Lemma onLop_run o s A :
  Rep (links s) A -> legalLop o A -> exists h, onLinks (runLop o) s = Ret (tt, mkRel h (parents s)) /\ Rep h (specLop o A).
Proof. intros H Hl. destruct (runLop_ok o _ A H Hl) as (h & E & H'). exists h. split; [now apply onLinks_run|done]. Qed.

Lemma setParent_run x v s : is_Some (parents s !! x) -> setParent x v s = Ret (tt, mkRel (links s) (<[x := v]> (parents s))).
Proof. intros [o E]. unfold setParent. now rewrite E. Qed.

Lemma setParents_run xs v s :
  Forall (fun x => is_Some (parents s !! x)) xs -> setParents xs v s = Ret (tt, mkRel (links s) (setAll xs v (parents s))).
Proof.
  intros H. revert s H. induction xs as [|x xs IH]; intros s H; [now destruct s|]. apply Forall_cons in H as [Hx H].
  cbn [setParents]. unfold mbind, ST_bind. rewrite setParent_run by done. rewrite IH; [done|]. eapply Forall_impl; [exact H|].
  cbn [parents]. intros z Hz. rewrite lookup_insert. now destruct (decide _).
Qed.

Lemma iterate_run s A p : Rep (links s) A -> isList A p -> onLinks (iterate p) s = Ret (elemsOf A p, s).
Proof.
  intros H [xs E]. destruct (holds_ring _ _ _ _ _ (rep_list _ _ _ _ H E)) as [Hr Hnd].
  rewrite (onLinks_run (iterate p) s xs (links s)); [unfold elemsOf; rewrite E; now destruct s|now apply iterate_ok].
Qed.

Lemma elems_linked s A p : Agrees (parents s) A -> Forall (fun x => is_Some (parents s !! x)) (elemsOf A p).
Proof. intros H. apply Forall_forall. intros x Hx. apply (agrees_link _ A); [done|]. apply isLink_elems. right. now exists p. Qed.

Lemma deAdopt_run s A p :
  Consistent s A -> isList A p -> deAdopt p s = Ret (tt, mkRel (links s) (setAll (elemsOf A p) None (parents s))).
Proof.
  intros [H Ha] Hp. unfold deAdopt, mbind, ST_bind. rewrite (iterate_run s A p) by done. now apply setParents_run, elems_linked.
Qed.

Lemma rel_push_ok (front : bool) s A p x :
  Consistent s A -> isList A p -> isLink A x -> (front = false -> list.last (elemsOf A p) <> Some x) ->
  exists s', (if front then manyPushFront p x else manyPushBack p x) s = Ret (tt, s')
    /\ Consistent s' (specLop (if front then OPushFront p x else OPushBack p x) A).
Proof.
  intros [H Ha] Hp Hx Hl. destruct (onLop_run (if front then OPushFront p x else OPushBack p x) s A H) as (h & E & H');
    [destruct front; cbn [legalLop]; auto|].
  exists (mkRel h (<[x := Some p]> (parents s))). split; [|split; [exact H'|]].
  - destruct front; unfold manyPushFront, manyPushBack, mbind, ST_bind; cbn [runLop] in E; rewrite E; (rewrite setParent_run; [done|now apply (agrees_link _ A)]).
  - cbn [parents]. destruct front; cbn [specLop]; apply agrees_push; try done; intros y; rewrite elemsOf_detach.
    + rewrite elem_of_cons, list_elem_of_filter. done.
    + rewrite elem_of_app, list_elem_of_filter, list_elem_of_singleton. tauto.
Qed.

Lemma erase_ok s A x : Consistent s A -> isLink A x ->
  exists s', manyErase x s = Ret (tt, s') /\ Consistent s' (specLop (OErase x) A).
Proof.
  intros [H Ha] Hx. destruct (onLop_run (OErase x) s A H Hx) as (h & E & H'). eexists.
  unfold manyErase, mbind, ST_bind. cbn [runLop] in E. rewrite E. rewrite setParent_run by now apply (agrees_link _ A).
  split; [reflexivity|]. split; [exact H'|]. now apply agrees_detach.
Qed.

Lemma clear_rel_ok s A p : Consistent s A -> isList A p ->
  exists s', manyClear p s = Ret (tt, s') /\ Consistent s' (specLop (OClear p) A).
Proof.
  intros Hc Hp. unfold manyClear, mbind, ST_bind. rewrite (deAdopt_run s A p) by done. destruct Hc as [H Ha].
  destruct (onLop_run (OClear p) (mkRel (links s) (setAll (elemsOf A p) None (parents s))) A H Hp) as (h & E & H').
  eexists. split; [exact E|]. split; [exact H'|]. apply (agrees_orphans _ A); [done| |done].
  intros q. cbn [specLop]. unfold emptied. rewrite elemsOf_insert. now destruct A.
Qed.

Lemma manyDestruct_ok s A p : Consistent s A -> isList A p ->
  exists s', manyDestruct p s = Ret (tt, s') /\ Consistent s' (specLop (ODeleteList p) A).
Proof.
  intros Hc Hp. unfold manyDestruct, mbind, ST_bind. rewrite (deAdopt_run s A p) by done. destruct Hc as [H Ha].
  destruct (onLop_run (ODeleteList p) (mkRel (links s) (setAll (elemsOf A p) None (parents s))) A H Hp) as (h & E & H').
  eexists. split; [exact E|]. split; [exact H'|]. apply (agrees_orphans _ A); [done| |done].
  intros q. cbn [specLop]. unfold elemsOf. cbn [lists]. rewrite lookup_delete. now destruct (decide (p = q)).
Qed.

Lemma oneNew_ok s A x : Consistent s A -> fresh A x ->
  exists s', oneNew x s = Ret (tt, s') /\ Consistent s' (specLop (ONewLink x) A).
Proof.
  intros [H [Ha1 Ha2]] Hx. destruct (onLop_run (ONewLink x) s A H Hx) as (h & E & H'). eexists.
  unfold oneNew, mbind, ST_bind. cbn [runLop] in E. rewrite E. split; [reflexivity|]. split; [exact H'|].
  cbn [parents specLop]. split; [intros z q|intros z]; rewrite lookup_insert.
  - change (elemsOf (mkLists (lists A) ({[x]} ∪ others A)) q) with (elemsOf A q). rewrite <- Ha1. destruct (decide (x = z)) as [<-|]; [|done].
    split; [done|]. intros F%Ha1. exfalso. apply (proj2 Hx), isLink_elems. right. now exists q.
  - cbn [others]. rewrite elem_of_union, elem_of_singleton, <- Ha2. destruct (decide (x = z)) as [<-|]; [split; [now left|done]|].
    split; [now right|intros [->|?]; done].
Qed.
End ops.

Section ops2.
Implicit Types (s : Rel) (A : Lists) (x y p q : addr).

(** Setting a parent before the push that sets it again. *)
Lemma push_back_ok s A p x v :
  Consistent s A -> isList A p -> isLink A x -> list.last (elemsOf A p) <> Some x ->
  exists s', (_ ← setParent x v; manyPushBack p x) s = Ret (tt, s') /\ Consistent s' (specLop (OPushBack p x) A).
Proof.
  intros Hc Hp Hx Hl. destruct (rel_push_ok false s A p x Hc Hp Hx (fun _ => Hl)) as (s' & E & H'). exists s'. split; [|done].
  destruct Hc as [H Ha]. pose proof (agrees_link _ _ _ Ha Hx) as Hi. unfold mbind, ST_bind. rewrite setParent_run by done. rewrite <- E.
  unfold manyPushBack, mbind, ST_bind, onLinks, zoom. cbn [links parents].
  destruct (push_back p x (links s)) as [[[] h]| |]; [|done..]. rewrite !setParent_run; cbn [parents links]; [now rewrite insert_insert_eq|done|].
  rewrite lookup_insert_eq. eauto.
Qed.

Lemma last_link A p x : isList A p -> list.last (elemsOf A p) = Some x -> isLink A x.
Proof. intros _ H. apply isLink_elems. right. exists p. apply last_Some in H as [l ->]. set_solver. Qed.

Lemma oneNewIn_ok s A x b : Consistent s A -> legalRop (ROneNewIn x b) A ->
  exists s', oneNewIn x b s = Ret (tt, s') /\ Consistent s' (specRop (ROneNewIn x b) A).
Proof.
  intros Hc [Hl _]. unfold oneNewIn, specRop. destruct b as [p|]; cbn [lopsOf legalLops] in *.
  - destruct Hl as (Hf & (Hp & Hx & Hla) & _). destruct (oneNew_ok s A x Hc Hf) as (s1 & E1 & H1).
    unfold mbind at 1, ST_bind at 1. rewrite E1. now apply push_back_ok.
  - destruct Hl as [Hf _]. destruct (oneNew_ok s A x Hc Hf) as (s1 & E1 & H1). exists s1. unfold mbind, ST_bind. rewrite E1. split; [|done].
    pose proof H1 as [_ Ha]. assert (parents s1 !! x = Some None) as Ex by (apply Ha; cbn [specLop others]; set_solver).
    rewrite setParent_run by eauto. rewrite insert_id by done. now destruct s1.
Qed.

Lemma oneAssign_ok s A x b : Consistent s A -> legalRop (ROneAssign x b) A ->
  exists s', oneAssign x b s = Ret (tt, s') /\ Consistent s' (specRop (ROneAssign x b) A).
Proof.
  intros Hc [Hl Hd]. pose proof Hc as [H Ha]. unfold oneAssign, specRop.
  assert (isLink A x) as Hx by (destruct b; [apply Hd|apply Hl]). destruct (agrees_link _ _ _ Ha Hx) as [o Eo].
  unfold mbind at 1, ST_bind at 1, getParent. rewrite Eo. destruct (decide (b = o)) as [->|Hne].
  - rewrite bool_decide_false by tauto. exists s. split; [done|]. cbn [lopsOf]. destruct o as [p|].
    + rewrite decide_True by now apply Ha. done.
    + apply Ha in Eo as Ho. cbn [specLops fold_left specLop]. unfold detach. rewrite without_none by now apply (rep_not_listed (links s)).
      replace ({[x]} ∪ others A) with (others A) by set_solver. now destruct A.
  - rewrite bool_decide_true by done. destruct (erase_ok s A x Hc Hx) as (s1 & E1 & H1).
    unfold manyErase, erase in E1. unfold mbind, ST_bind in E1 |- *. destruct (onLinks (remove x) s) as [[[] s0]| |] eqn:E0; [|done..].
    assert (is_Some (parents s0 !! x)) as Hs0 by (unfold setParent in E1; destruct (parents s0 !! x); [eauto|done]).
    rewrite setParent_run in E1 by done. injection E1 as <-. destruct b as [p|]; cbn [lopsOf] in *.
    + rewrite decide_False in * by (intros F%Ha; congruence). cbn [legalLops specLops fold_left] in *.
      destruct Hl as (_ & (Hp & Hx' & Hla) & _). destruct (push_back_ok _ _ p x (Some p) H1 Hp Hx' Hla) as (s2 & E2 & H2).
      exists s2. split; [|exact H2]. rewrite <- E2. unfold mbind, ST_bind. rewrite !setParent_run; cbn [parents links]; [now rewrite insert_insert_eq|now rewrite lookup_insert_eq; eauto|done].
    + eexists. rewrite setParent_run by done. split; [reflexivity|exact H1].
Qed.

Lemma oneDestruct_ok s A x : Consistent s A -> isLink A x ->
  exists s', oneDestruct x s = Ret (tt, s') /\ Consistent s' (specLop (ODeleteLink x) A).
Proof.
  intros [H [Ha1 Ha2]] Hx. destruct (onLop_run (ODeleteLink x) s A H Hx) as (h & E & H'). eexists.
  unfold oneDestruct, mbind, ST_bind. cbn [runLop] in E. rewrite E. split; [reflexivity|]. split; [exact H'|].
  cbn [parents specLop]. split; [intros z q|intros z]; rewrite lookup_delete.
  - rewrite elemsOf_without, list_elem_of_filter. change (elemsOf (mkLists (lists A) (others A ∖ {[x]})) q) with (elemsOf A q).
    specialize (Ha1 z q). destruct (decide (x = z)) as [<-|]; [split; [done|tauto]|]. split; [intros F; split; [congruence|tauto]|tauto].
  - cbn [others]. rewrite elem_of_difference, elem_of_singleton, <- Ha2. destruct (decide (x = z)) as [<-|]; [split; [done|tauto]|].
    split; [intros F; split; [done|congruence]|tauto].
Qed.

Lemma manyNew_ok s A p : Consistent s A -> fresh A p ->
  exists s', manyNew p s = Ret (tt, s') /\ Consistent s' (specLop (ONewList p) A).
Proof.
  intros [H [Ha1 Ha2]] Hp. destruct (onLop_run (ONewList p) s A H Hp) as (h & E & H'). eexists. split; [exact E|]. split; [exact H'|].
  cbn [parents specLop]. split; [intros z q|done]. rewrite elemsOf_insert, Ha1. destruct (decide (p = q)) as [<-|]; [|now destruct A].
  unfold elemsOf. now rewrite (proj1 Hp).
Qed.

Lemma manyAssign_ok s A p q : Consistent s A -> legalRop (RManyAssign p q) A ->
  exists s', manyAssign p q s = Ret (tt, s') /\ Consistent s' (specRop (RManyAssign p q) A).
Proof.
  intros [H Ha] [Hl He]. cbn [lopsOf legalLops] in Hl. destruct Hl as [Hl _]. unfold specRop, manyAssign. cbn [lopsOf specLops fold_left].
  destruct (onLop_run (OAssignList p q) s A H Hl) as (h & E & H'). cbn [specLop runLop] in *.
  destruct (decide (q = p)) as [->|Hne]; [rewrite bool_decide_true by done; now exists s|]. rewrite bool_decide_false by done.
  specialize (He ltac:(congruence)). destruct Hl as [[xs Ep] [ys Eq]].
  assert (elemsOf (emptied p A) q = elemsOf A q) as Eq' by (unfold emptied; rewrite elemsOf_insert, decide_False by done; now destruct A).
  assert (forall r, elemsOf (moved p q (emptied p A)) r = if decide (q = r) then [] else if decide (p = r) then elemsOf A q else elemsOf A r) as Em.
  { intros r. unfold moved. rewrite !elemsOf_insert, Eq'. destruct (decide (q = r)); [done|]. destruct (decide (p = r)) as [|Hpr]; [done|].
    change (elemsOf (mkLists (lists (emptied p A)) (others (emptied p A))) r) with (elemsOf (emptied p A) r). unfold emptied.
    rewrite elemsOf_insert, decide_False by done. now destruct A. }
  exists (mkRel h (setAll (elemsOf A q) (Some p) (parents s))). split; [|split; [exact H'|]].
  - unfold mbind, ST_bind. rewrite E. unfold adopt, mbind, ST_bind. rewrite (iterate_run _ (moved p q (emptied p A)) p); cbn [links]; [|done|].
    + rewrite Em, decide_False by done. rewrite decide_True by done. apply (setParents_run _ _ (mkRel h (parents s))), (elems_linked s A), Ha.
    + unfold isList, moved. cbn [lists]. rewrite lookup_insert_ne by done. rewrite lookup_insert_eq. eauto.
  - destruct Ha as [Ha1 Ha2]. split; [intros z r|intros z]; cbn [parents]; rewrite setAll_lookup.
    + rewrite Em. specialize (Ha1 z). destruct (decide (z ∈ elemsOf A q)) as [Hz|Hz].
      * destruct (decide (q = r)) as [<-|]; [split; [congruence|intros F; now apply elem_of_nil in F]|].
        destruct (decide (p = r)) as [<-|]; [done|]. split; [congruence|]. intros F%Ha1. apply Ha1 in Hz. congruence.
      * rewrite Ha1. destruct (decide (q = r)) as [<-|]; [split; [done|intros F; now apply elem_of_nil in F]|].
        destruct (decide (p = r)) as [<-|]; [|done]. rewrite He. split; [intros F; now apply elem_of_nil in F|done].
    + unfold moved, emptied. cbn [others]. rewrite He. cbn [list_to_set]. rewrite elem_of_union, <- Ha2.
      destruct (decide (z ∈ elemsOf A q)) as [Hz|Hz]; [apply Ha1 in Hz; split; [done|intros [F|F]; [now apply elem_of_empty in F|congruence]]|].
      split; [now right|intros [F|F]; [now apply elem_of_empty in F|done]].
Qed.
End ops2.

Section moves.
Implicit Types (s : Rel) (A : Lists) (x y p q : addr).

Lemma agrees_replaced par A x y o :
  Agrees par A -> x ∈ others A -> x <> y -> par !! y = Some o -> Agrees (<[y := None]> (<[x := o]> par)) (replaced x y A).
Proof.
  intros [H1 H2] Hx Hne Ey. apply H2 in Hx as Ex. unfold replaced. destruct (decide (y ∈ others A)) as [Hy|Hy].
  - apply H2 in Hy. assert (o = None) as -> by congruence. rewrite (insert_id par x) by done. rewrite insert_id by done. now split.
  - destruct o as [p|]; [|exfalso; now apply Hy, H2]. split; [intros z q|intros z]; rewrite !lookup_insert.
    + rewrite elemsOf_renamed. change (elemsOf (mkLists (lists A) ({[y]} ∪ others A ∖ {[x]})) q) with (elemsOf A q). rewrite <- !H1.
      destruct (decide (y = z)) as [<-|]; [split; [done|intros [[F _]|[F _]]; congruence]|].
      destruct (decide (x = z)) as [<-|]; [rewrite Ey; split; [now left|intros [[_ F]|[_ F]]; congruence]|].
      split; [right; split; [congruence|done]|]. intros [[F _]|[_ F]]; [congruence|done].
    + cbn [others]. rewrite elem_of_union, elem_of_difference, !elem_of_singleton, <- H2. destruct (decide (y = z)) as [<-|]; [split; [now left|done]|].
      destruct (decide (x = z)) as [<-|]; [split; [done|intros [F|[_ F]]; congruence]|]. split; [intros F; right; split; congruence|].
      intros [F|[F _]]; congruence.
Qed.

Lemma oneMove_ok s A x y : Consistent s A -> fresh A x -> isLink A y ->
  exists s', oneMove x y s = Ret (tt, s') /\ Consistent s' (specLop (OMoveLink x y) A).
Proof.
  intros Hc Hf Hy. pose proof Hc as [H Ha]. destruct (onLop_run (OMoveLink x y) s A H (conj Hf Hy)) as (h & E & H').
  destruct (agrees_link _ _ _ Ha Hy) as [o Eo]. assert (x <> y) as Hne by (intros ->; now apply (proj2 Hf)).
  exists (mkRel h (<[y := None]> (<[x := o]> (parents s)))). split; [|split; [exact H'|]].
  - unfold oneMove, mbind, ST_bind. cbn [runLop] in E. rewrite E. unfold getParent. cbn [parents]. rewrite Eo. unfold modify. cbn [links parents].
    rewrite setParent_run; [done|]. cbn [parents]. rewrite lookup_insert_ne by done. eauto.
  - cbn [parents specLop]. destruct (oneNew_ok s A x Hc Hf) as (s1 & E1 & _ & Ha1). unfold oneNew in E1. unfold mbind, ST_bind, onLinks, zoom, newLink, modify in E1.
    injection E1 as <-. cbn [parents specLop] in Ha1. rewrite <- (insert_insert_eq _ x o None). apply agrees_replaced; [done|cbn [others]; set_solver|done|].
    now rewrite lookup_insert_ne.
Qed.

Lemma oneMoveAssign_ok s A x y : Consistent s A -> isLink A x -> isLink A y -> x <> y ->
  exists s', oneMoveAssign x y s = Ret (tt, s') /\ Consistent s' (specLop (OAssignLink x y) A).
Proof.
  intros [H Ha] Hx Hy Hne. destruct (onLop_run (OAssignLink x y) s A H (conj Hx Hy)) as (h & E & H').
  destruct (agrees_link _ _ _ Ha Hy) as [o Eo]. exists (mkRel h (<[y := None]> (<[x := o]> (parents s)))). split; [|split; [exact H'|]].
  - unfold oneMoveAssign, mbind, ST_bind. cbn [runLop] in E. rewrite E. unfold getParent. cbn [parents]. rewrite Eo.
    rewrite setParent_run by now apply (agrees_link _ A). rewrite setParent_run; [done|]. cbn [parents]. rewrite lookup_insert_ne by done. eauto.
  - cbn [parents specLop]. rewrite decide_False by done. rewrite <- (insert_insert_eq _ x o None).
    apply agrees_replaced; [now apply agrees_detach|cbn [detach others]; set_solver|done|]. now rewrite lookup_insert_ne.
Qed.

Lemma runRop_ok o s A : Consistent s A -> legalRop o A -> exists s', runRop o s = Ret (tt, s') /\ Consistent s' (specRop o A).
Proof.
  intros Hc Hl. destruct o as [p|p x|p x|x|p|p|p q|x|x b|x y|x y|x b|x]; try (destruct Hl as [[Hl _] Hd]; cbn [lopsOf legalLop] in Hl).
  - now apply manyNew_ok.
  - destruct Hl. now apply (rel_push_ok true).
  - destruct Hl as (? & ? & ?). now apply (rel_push_ok false).
  - now apply erase_ok.
  - now apply clear_rel_ok.
  - now apply manyDestruct_ok.
  - now apply manyAssign_ok.
  - now apply oneNew_ok.
  - now apply oneNewIn_ok.
  - destruct Hl. now apply oneMove_ok.
  - destruct Hl. now apply oneMoveAssign_ok.
  - now apply oneAssign_ok.
  - now apply oneDestruct_ok.
Qed.
End moves.

Fixpoint runRops (l : list rop) : ST Rel unit :=
  match l with
  | [] => mret tt
  | o :: r => _ ← runRop o; runRops r
  end.

Definition specRops (l : list rop) (A : Lists) : Lists := fold_left (fun A o => specRop o A) l A.

Fixpoint legalRops (l : list rop) (A : Lists) : Prop :=
  match l with
  | [] => True
  | o :: r => legalRop o A /\ legalRops r (specRop o A)
  end.

Lemma runRops_ok l s A : Consistent s A -> legalRops l A -> exists s', runRops l s = Ret (tt, s') /\ Consistent s' (specRops l A).
Proof.
  revert s A. induction l as [|o l IH]; intros s A Hc Hl; [now exists s|]. destruct Hl as [Ho Hl].
  destruct (runRop_ok o s A Hc Ho) as (s1 & E1 & H1). destruct (IH s1 _ H1 Hl) as (s2 & E2 & H2). exists s2. split; [|done].
  cbn [runRops]. unfold mbind, ST_bind. now rewrite E1.
Qed.

(** C40: a [ToOne] and the [ToMany] it belongs to agree: after any sequence of
    constructions, moves, pushes, removals, reassignments and destructions (a [ToMany] is
    moved onto an empty one only), which runs without a dangling pointer or failed
    assertion, an object points to a [ToMany] exactly when iterating that [ToMany] comes
    upon it, and to none exactly when it is in no list. *)
Theorem to_many_consistent l :
  legalRops l noLists ->
  exists s, runRops l (mkRel ∅ ∅) = Ret (tt, s)
    /\ forall p xs, lists (specRops l noLists) !! p = Some xs ->
         iterate p (links s) = Ret (xs, links s) /\ forall x, parents s !! x = Some (Some p) <-> x ∈ xs.
Proof.
  intros Hl. destruct (runRops_ok l (mkRel ∅ ∅) noLists) as (s & E & H & Ha1 & _); [|done|].
  { split; [apply rep_empty|]. split; [intros x p|intros x]; cbn [parents noLists others]; rewrite lookup_empty; (split; [done|]).
    - intros F. unfold elemsOf in F. cbn [noLists lists] in F. rewrite lookup_empty in F. now apply elem_of_nil in F.
    - intros F. now apply elem_of_empty in F. }
  exists s. split; [done|]. intros p xs Ep. destruct (holds_ring _ _ _ _ _ (rep_list _ _ _ _ H Ep)) as [Hr Hnd]. split; [now apply iterate_ok|].
  intros x. rewrite Ha1. unfold elemsOf. now rewrite Ep.
Qed.

#[global] Instance legalRop_dec o A : Decision (legalRop o A).
Proof. unfold legalRop, isList. destruct o as [| | | | | | | |x []| | |x []|]; apply _. Defined.

#[global] Instance legalRops_dec l A : Decision (legalRops l A).
Proof. revert A. induction l as [|o l IH]; intros A; cbn [legalRops]; [apply _|]. refine (and_dec _ _). Defined.

Definition sampleRops : list rop :=
  [RManyNew 1; RManyNew 2; ROneNew 10; ROneNewIn 11 (Some 1); ROneAssign 10 (Some 1); ROneAssign 11 (Some 2); ROneMove 12 10;
   RPushFront 2 12; RManyAssign 1 2; RErase 11; RManyDestruct 2].

Lemma to_many_consistent_witness :
  exists s, runRops sampleRops (mkRel ∅ ∅) = Ret (tt, s) /\ iterate 1 (links s) = Ret ([12], links s)
    /\ forall x, parents s !! x = Some (Some 1) <-> x ∈ [12].
Proof.
  assert (legalRops sampleRops noLists) as Hl by (apply (bool_decide_unpack _); vm_compute; exact I).
  destruct (to_many_consistent sampleRops Hl) as (s & E & H). exists s. split; [exact E|].
  apply (H 1 [12]). vm_compute. reflexivity.
Defined.

(** Moving a [ToMany] onto one that has members leaves those pointing to a [ToMany] they
    are no longer in. *)
Example to_many_assign_orphans :
  exists s, runRops [RManyNew 1; RManyNew 2; ROneNewIn 10 (Some 1); ROneNewIn 11 (Some 2); RManyAssign 1 2] (mkRel ∅ ∅) = Ret (tt, s)
    /\ iterate 1 (links s) = Ret ([11], links s) /\ parents s !! 10 = Some (Some 1).
Proof. eexists. split; [vm_compute; reflexivity|]. split; vm_compute; reflexivity. Qed.
End ToMany.
