(* ===== verification/Lifecycle.v ===== *)
(** Coroutine lifecycles ([src/CoroLifecycle.cc], [isNoop] of
    [src/Coroutine.cc]): the table of coroutines with their states and the
    virtual call stack of the current thread, as debug builds keep them. *)

From S2P Require Import Prelude.

(** * Data *)

(** The address of a coroutine frame; also identifies its [coroInfo], whose
    address in the table never changes. *)
Abbreviation coro := positive.

(** A [coro_handle]: null, [noop_coroutine()] or a coroutine. *)
Inductive coro_handle := hnull | hnoop | hcoro (c : coro).

#[export] Instance coro_handle_eq_dec : EqDecision coro_handle.
Proof. solve_decision. Defined.

Definition isNoop (h : coro_handle) : bool :=
  match h with hcoro _ => false | _ => true end.

Inductive coroState := born | active | awaiting | yielding | ending.

#[export] Instance coroState_eq_dec : EqDecision coroState.
Proof. solve_decision. Defined.

(** The order of the enumerators. *)
Definition stateRank (s : coroState) : nat :=
  match s with born => 0 | active => 1 | awaiting => 2 | yielding => 3 | ending => 4 end.

(** [coroInfo] without the names used in log messages.  An object that is
    awaited and its type are numbers. *)
Record coroInfo := CoroInfo {
  handle : coro_handle;
  state : coroState;
  caller : option coro;
  awaitingCoro : coro_handle;
  awaitingObj : option Z;
  awaitingType : option Z;
  sequence : Z;
  ignored : bool
}.

(** The static variables: the table, the thread's current coroutine and the last
    sequence number. *)
Record Lifecycle := mkLifecycle {
  sCoros : gmap coro coroInfo;
  tCurrent : option coro;
  sLastSequence : Z
}.

Definition emptyLifecycle : Lifecycle := mkLifecycle ∅ None 0.

(** * Access to the table *)

Definition setState (s : coroState) (i : coroInfo) : coroInfo :=
  if bool_decide (state i = awaiting) || bool_decide (state i = yielding)
  then CoroInfo (handle i) s (caller i) hnull None None (sequence i) (ignored i)
  else CoroInfo (handle i) s (caller i) (awaitingCoro i) (awaitingObj i) (awaitingType i)
         (sequence i) (ignored i).

Definition setCaller (c : option coro) (i : coroInfo) : coroInfo :=
  CoroInfo (handle i) (state i) c (awaitingCoro i) (awaitingObj i) (awaitingType i)
    (sequence i) (ignored i).

Definition setAwaitingCoro (h : coro_handle) (i : coroInfo) : coroInfo :=
  CoroInfo (handle i) (state i) (caller i) h (awaitingObj i) (awaitingType i)
    (sequence i) (ignored i).

Definition setAwaiting (o : option Z) (i : coroInfo) : coroInfo :=
  CoroInfo (handle i) (state i) (caller i) (awaitingCoro i) o (awaitingType i)
    (sequence i) (ignored i).

Definition setAwaitingType (t : option Z) (i : coroInfo) : coroInfo :=
  CoroInfo (handle i) (state i) (caller i) (awaitingCoro i) (awaitingObj i) t
    (sequence i) (ignored i).

Definition setHandle (h : coro_handle) (i : coroInfo) : coroInfo :=
  CoroInfo h (state i) (caller i) (awaitingCoro i) (awaitingObj i) (awaitingType i)
    (sequence i) (ignored i).

Definition setIgnored (b : bool) (i : coroInfo) : coroInfo :=
  CoroInfo (handle i) (state i) (caller i) (awaitingCoro i) (awaitingObj i) (awaitingType i)
    (sequence i) b.

Definition upd (c : coro) (f : coroInfo -> coroInfo) (l : Lifecycle) : Lifecycle :=
  mkLifecycle (alter f c (sCoros l)) (tCurrent l) (sLastSequence l).

Definition withCurrent (c : option coro) (l : Lifecycle) : Lifecycle :=
  mkLifecycle (sCoros l) c (sLastSequence l).

Definition updInfo (c : coro) (f : coroInfo -> coroInfo) : ST Lifecycle unit := modify (upd c f).

Definition setCurrent (c : option coro) : ST Lifecycle unit := modify (withCurrent c).

(** [_getInfo]: an unknown handle aborts. *)
Definition _getInfo (h : coro_handle) : ST Lifecycle (coro * coroInfo) := fun l =>
  match h with
  | hcoro c => match sCoros l !! c with
               | Some i => Ret ((c, i), l)
               | None => Fault AssertFailed
               end
  | _ => Fault AssertFailed
  end.

(** [getInfo]: the handle of a destroyed coroutine aborts too. *)
Definition getInfo (h : coro_handle) : ST Lifecycle (coro * coroInfo) :=
  r ← _getInfo h;
  if bool_decide (handle r.2 = hnull) then crash AssertFailed else mret r.

(** The constructor: the next sequence number, an [unsigned]. *)
Definition newInfo (h : coro_handle) : ST Lifecycle coroInfo := fun l =>
  let n := u32 (sLastSequence l + 1) in
  Ret (CoroInfo h born None hnull None None n false, mkLifecycle (sCoros l) (tCurrent l) n).

Definition putInfo (c : coro) (i : coroInfo) : ST Lifecycle unit :=
  modify (fun l => mkLifecycle (<[c := i]> (sCoros l)) (tCurrent l) (sLastSequence l)).

Definition getSequence (h : coro_handle) : ST Lifecycle Z :=
  if isNoop h then mret 0%Z
  else r ← getInfo h; mret (sequence r.2).

Definition ignoreInCount (h : coro_handle) : ST Lifecycle unit :=
  r ← getInfo h; updInfo r.1 (setIgnored true).

Definition counted (i : coroInfo) : bool :=
  negb (bool_decide (handle i = hnull)) && negb (ignored i).

Definition count : ST Lifecycle nat :=
  gets (fun l => size (filter (fun p => counted p.2 = true) (sCoros l))).

(** * The stack of active coroutines *)

Definition assertCurrent (c : coro) : ST Lifecycle unit :=
  cur ← gets tCurrent; assert (bool_decide (cur = Some c)).

Definition callerOf (c : coro) : ST Lifecycle (option coro) :=
  gets (fun l => sCoros l !! c ≫= caller).

Definition pushCurrent (c : coro) : ST Lifecycle unit :=
  k ← callerOf c;
  assert (bool_decide (k = None));;
  cur ← gets tCurrent;
  updInfo c (setCaller cur);;
  setCurrent (Some c).

Definition popCurrent (c : coro) : ST Lifecycle unit :=
  assertCurrent c;;
  k ← callerOf c;
  setCurrent k;;
  updInfo c (setCaller None).

Definition switchCurrent (c : coro) (nextHandle : coro_handle) : ST Lifecycle unit :=
  h ← gets (fun l => handle <$> sCoros l !! c);
  assert (bool_decide (h <> Some nextHandle));;
  assertCurrent c;;
  k ← callerOf c;
  setCurrent k;;
  updInfo c (setCaller None);;
  if isNoop nextHandle then mret tt
  else
    r ← getInfo nextHandle;
    assert (bool_decide (caller r.2 = None));;
    cur ← gets tCurrent;
    updInfo r.1 (setCaller cur);;
    setCurrent (Some r.1).

(** The loop of [stackDepth], with fuel for the length of the chain. *)
Fixpoint depthFrom (fuel : nat) (l : Lifecycle) (i : option coro) : outcome nat :=
  match i with
  | None => Ret O
  | Some c =>
      match fuel with
      | O => Fault NoFuel
      | S f =>
          match sCoros l !! c with
          | None => Fault OutOfBounds
          | Some info => n ← depthFrom f l (caller info); Ret (S n)
          end
      end
  end.

(** A chain without repetition is no longer than the table. *)
Definition stackDepth (l : Lifecycle) : outcome nat :=
  depthFrom (size (sCoros l)) l (tCurrent l).

(** * Lifecycle calls *)

Definition created (h : coro_handle) (isReady : bool) : ST Lifecycle unit :=
  match h with
  | hcoro c =>
      old ← gets (fun l => sCoros l !! c);
      (match old with
       | None => i ← newInfo h; putInfo c i
       | Some i =>
           assert (bool_decide (handle i = hnull));;
           i' ← newInfo h; putInfo c i'
       end);;
      if isReady then updInfo c (setState active);; pushCurrent c else mret tt
  | _ => crash AssertFailed
  end.

Definition suspendInitial (cur : coro_handle) : ST Lifecycle unit :=
  r ← getInfo cur;
  if bool_decide (state r.2 = active)
  then popCurrent r.1;; updInfo r.1 (setState born)
  else mret tt.

Definition switching (c : coro) (next : coro_handle) : ST Lifecycle coro_handle :=
  (if isNoop next then mret tt
   else
     r ← getInfo next;
     assert (negb (bool_decide (state r.2 = active)));;
     updInfo r.1 (setState active);;
     updInfo r.1 (setAwaiting None));;
  switchCurrent c next;;
  mret (if bool_decide (next = hnull) then hnoop else next).

(** [suspendingTo] an object: [to] and its type. *)
Definition suspendingTo (cur : coro_handle) (toType : Z) (to : option Z) (next : coro_handle)
  : ST Lifecycle coro_handle :=
  r ← getInfo cur;
  assertCurrent r.1;;
  if bool_decide (cur = next) then mret next
  else
    assert (bool_decide (state r.2 = active));;
    updInfo r.1 (setState awaiting);;
    updInfo r.1 (setAwaiting to);;
    updInfo r.1 (setAwaitingType (Some toType));;
    switching r.1 next.

(** [suspendingTo] another coroutine. *)
Definition suspendingToCoro (cur awaited next : coro_handle) : ST Lifecycle coro_handle :=
  r ← getInfo cur;
  assertCurrent r.1;;
  if bool_decide (cur = next) then mret next
  else
    assert (bool_decide (state r.2 = active));;
    updInfo r.1 (setState awaiting);;
    updInfo r.1 (setAwaitingCoro awaited);;
    switching r.1 next.

Definition yieldingTo (cur next : coro_handle) (isCall : bool) : ST Lifecycle coro_handle :=
  r ← getInfo cur;
  assertCurrent r.1;;
  if bool_decide (cur = next) then mret next
  else
    assert (bool_decide (state r.2 = active));;
    updInfo r.1 (setState yielding);;
    when (isCall && negb (isNoop next)) (updInfo r.1 (setAwaitingCoro next));;
    switching r.1 next.

Definition finalSuspend (cur next : coro_handle) : ST Lifecycle coro_handle :=
  r ← getInfo cur;
  assertCurrent r.1;;
  when (stateRank (state r.2) <? stateRank ending)%nat (updInfo r.1 (setState ending));;
  switching r.1 next.

Definition _ready (r : coro * coroInfo) : ST Lifecycle unit :=
  assert (negb (bool_decide (state r.2 = ending)));;
  updInfo r.1 (setState active);;
  updInfo r.1 (setAwaiting None);;
  updInfo r.1 (setAwaitingCoro hnull).

Definition ready (h : coro_handle) : ST Lifecycle unit :=
  r ← getInfo h;
  if negb (bool_decide (state r.2 = active)) then _ready r else mret tt.

(** What [resume] does before it enters the coroutine ([h.resume()]). *)
Definition resume (h : coro_handle) : ST Lifecycle unit :=
  r ← getInfo h;
  pushCurrent r.1;;
  _ready r.

Definition threw (h : coro_handle) : ST Lifecycle unit :=
  r ← getInfo h;
  assertCurrent r.1;;
  updInfo r.1 (setState ending).

Definition returning (h : coro_handle) : ST Lifecycle unit :=
  r ← getInfo h;
  assertCurrent r.1;;
  updInfo r.1 (setState ending).

(** [ended]; the arguments are what [isReady(h)] and [isWaiting(h)] of the current
    scheduler answer. *)
Definition ended (h : coro_handle) (schedReady schedWaiting : bool) : ST Lifecycle unit :=
  assert (negb schedReady);;
  assert (negb schedWaiting);;
  r ← _getInfo h;
  cur ← gets tCurrent;
  assert (negb (bool_decide (cur = Some r.1)));;
  assert (bool_decide (caller r.2 = None));;
  called ← gets (fun l => bool_decide (map_Forall (fun _ i => caller i <> Some r.1) (sCoros l)));
  assert called;;
  updInfo r.1 (setHandle hnull).

(** * Specification: a stack of coroutines

    One thread: [stk] is the chain of callers from the current coroutine; off the
    chain nobody has a caller, and nobody on it is destroyed. *)

Fixpoint chain (m : gmap coro coroInfo) (top : option coro) (stk : list coro) : Prop :=
  match stk with
  | [] => top = None
  | c :: r => top = Some c /\ exists i, m !! c = Some i /\ handle i = hcoro c /\ chain m (caller i) r
  end.

Record wf0 (l : Lifecycle) (stk : list coro) : Prop := {
  wf_chain : chain (sCoros l) (tCurrent l) stk;
  wf_nodup : NoDup stk;
  wf_handle c i : sCoros l !! c = Some i -> handle i = hnull \/ handle i = hcoro c;
  wf_off c i : sCoros l !! c = Some i -> c ∉ stk -> caller i = None
}.

Definition stateOf (l : Lifecycle) (c : coro) : option coroState := state <$> sCoros l !! c.

Definition running (l : Lifecycle) (c : coro) : Prop :=
  stateOf l c = Some active \/ stateOf l c = Some ending.

(** Every coroutine of the stack is active or ending. *)
Definition wf (l : Lifecycle) (stk : list coro) : Prop := wf0 l stk /\ Forall (running l) stk.

(** [c] exists and has not been destroyed. *)
Definition live (l : Lifecycle) (c : coro) : Prop :=
  exists i, sCoros l !! c = Some i /\ handle i = hcoro c.

(** The calls, as one type. *)
Inductive call :=
| Created (c : coro) (isReady : bool)
| SuspendInitial (c : coro)
| SuspendingTo (c : coro) (toType : Z) (to : option Z) (next : coro_handle)
| SuspendingToCoro (c : coro) (awaited next : coro_handle)
| YieldingTo (c : coro) (next : coro_handle) (isCall : bool)
| FinalSuspend (c : coro) (next : coro_handle)
| Ready (c : coro)
| Resume (c : coro)
| Threw (c : coro)
| Returning (c : coro)
| Ended (c : coro) (schedReady schedWaiting : bool)
| IgnoreInCount (c : coro).

Definition runCall (k : call) : ST Lifecycle coro_handle :=
  match k with
  | Created c r => created (hcoro c) r;; mret hnull
  | SuspendInitial c => suspendInitial (hcoro c);; mret hnull
  | SuspendingTo c ty to next => suspendingTo (hcoro c) ty to next
  | SuspendingToCoro c a next => suspendingToCoro (hcoro c) a next
  | YieldingTo c next isCall => yieldingTo (hcoro c) next isCall
  | FinalSuspend c next => finalSuspend (hcoro c) next
  | Ready c => ready (hcoro c);; mret hnull
  | Resume c => resume (hcoro c);; mret hnull
  | Threw c => threw (hcoro c);; mret hnull
  | Returning c => returning (hcoro c);; mret hnull
  | Ended c r w => ended (hcoro c) r w;; mret hnull
  | IgnoreInCount c => ignoreInCount (hcoro c);; mret hnull
  end.

Definition pushHandle (h : coro_handle) (stk : list coro) : list coro :=
  match h with hcoro c => c :: stk | _ => stk end.

(** Control moves from the top of the stack to [next], unless that is the top. *)
Definition transfer (c : coro) (next : coro_handle) (stk : list coro) : list coro :=
  if bool_decide (next = hcoro c) then stk else pushHandle next (tail stk).

(** What a call does to the stack. *)
Definition effect (k : call) (l : Lifecycle) (stk : list coro) : list coro :=
  match k with
  | Created c true | Resume c => c :: stk
  | SuspendInitial c => if bool_decide (stateOf l c = Some active) then tail stk else stk
  | SuspendingTo c _ _ next | SuspendingToCoro c _ next | YieldingTo c next _ => transfer c next stk
  | FinalSuspend _ next => pushHandle next (tail stk)
  | _ => stk
  end.

(** [next] can take over from [c]. *)
Definition canEnter (l : Lifecycle) (stk : list coro) (next : coro_handle) : Prop :=
  match next with
  | hcoro n => live l n /\ stateOf l n <> Some active /\ n ∉ stk
  | _ => True
  end.

(** When a call is legal. *)
Definition callOk (k : call) (l : Lifecycle) (stk : list coro) : Prop :=
  match k with
  | Created c _ => ~ live l c
  | SuspendInitial c => live l c /\ (stateOf l c = Some active -> head stk = Some c)
  | SuspendingTo c _ _ next | SuspendingToCoro c _ next | YieldingTo c next _ =>
      head stk = Some c /\ (next = hcoro c \/ stateOf l c = Some active /\ canEnter l stk next)
  | FinalSuspend c next => head stk = Some c /\ canEnter l stk next
  | Ready c => live l c /\ stateOf l c <> Some ending
  | Resume c => live l c /\ stateOf l c <> Some ending /\ c ∉ stk
  | Threw c | Returning c => head stk = Some c
  | Ended c r w => r = false /\ w = false /\ is_Some (sCoros l !! c) /\ c ∉ stk
  | IgnoreInCount c => live l c
  end.

(** * Lemmas *)

(** An update of a [coroInfo] that leaves the chain alone. *)
Definition frames (f : coroInfo -> coroInfo) : Prop :=
  forall i, caller (f i) = caller i /\ handle (f i) = handle i.

Lemma setState_frames s : frames (setState s).
Proof. intros i. unfold setState. now case_if. Qed.

Lemma setState_state s i : state (setState s i) = s.
Proof. unfold setState. now case_if. Qed.

Lemma chain_ext m m' top stk :
  (forall c i, c ∈ stk -> m !! c = Some i ->
     exists i', m' !! c = Some i' /\ caller i' = caller i /\ handle i' = handle i) ->
  chain m top stk -> chain m' top stk.
Proof.
  revert top. induction stk as [|c stk IH]; cbn; [done|].
  intros top Hm [-> (i & Hi & Hh & Hc)]. split; [done|].
  destruct (Hm c i) as (i' & Hi' & Ec & Eh); [set_solver|done|].
  exists i'. split_and!; [done|congruence|]. rewrite Ec. apply IH; [|done].
  intros d j Hd. apply Hm. set_solver.
Qed.

Lemma chain_live l stk c : chain (sCoros l) (tCurrent l) stk -> c ∈ stk -> live l c.
Proof.
  unfold live. generalize (tCurrent l). induction stk as [|d stk IH]; cbn; [set_solver|].
  intros top [-> (i & Hi & Hh & Hc)] [->|Hin]%elem_of_cons; eauto.
Qed.

Lemma stateOf_upd l c f d :
  stateOf (upd c f l) d = if bool_decide (d = c) then state ∘ f <$> sCoros l !! d else stateOf l d.
Proof.
  unfold stateOf, upd. cbn. case_bool_decide; subst.
  - rewrite lookup_alter_eq. now destruct (sCoros l !! c).
  - now rewrite lookup_alter_ne.
Qed.

Lemma stateOf_upd_ne l c f d : d <> c -> stateOf (upd c f l) d = stateOf l d.
Proof. intros. rewrite stateOf_upd. now rewrite bool_decide_eq_false_2. Qed.

Lemma stateOf_upd_same l c f d : (forall i, state (f i) = state i) -> stateOf (upd c f l) d = stateOf l d.
Proof.
  intros Hf. rewrite stateOf_upd. case_bool_decide; [|done]. unfold stateOf.
  destruct (sCoros l !! d); cbn; [|done]. now rewrite Hf.
Qed.

Lemma stateOf_setState l c s : live l c -> stateOf (upd c (setState s) l) c = Some s.
Proof.
  intros (i & Hi & _). rewrite stateOf_upd, bool_decide_eq_true_2, Hi by done. cbn.
  now rewrite setState_state.
Qed.

Lemma wf0_upd l stk c f : frames f -> wf0 l stk -> wf0 (upd c f l) stk.
Proof.
  intros Hf [Hc Hn Hh Ho]. unfold upd. split; cbn.
  - revert Hc. apply chain_ext. intros d i _ Hi. destruct (decide (d = c)) as [->|].
    + rewrite lookup_alter_eq, Hi. eexists. split; [done|]. apply Hf.
    + rewrite lookup_alter_ne by done. eauto.
  - done.
  - intros d i. destruct (decide (d = c)) as [->|].
    + rewrite lookup_alter_eq. destruct (sCoros l !! c) eqn:E; [|done]. intros [= <-].
      destruct (Hf c0) as [_ ->]. eauto.
    + rewrite lookup_alter_ne by done. eauto.
  - intros d i. destruct (decide (d = c)) as [->|].
    + rewrite lookup_alter_eq. destruct (sCoros l !! c) eqn:E; [|done]. intros [= <-] Hs.
      destruct (Hf c0) as [-> _]. eauto.
    + rewrite lookup_alter_ne by done. eauto.
Qed.

Lemma live_upd l c f d : frames f -> live l d -> live (upd c f l) d.
Proof.
  intros Hf (i & Hi & Hh). unfold live, upd. cbn. destruct (decide (d = c)) as [->|].
  - rewrite lookup_alter_eq, Hi. eexists. split; [done|]. destruct (Hf i) as [_ ->]. done.
  - rewrite lookup_alter_ne by done. eauto.
Qed.

Lemma getInfo_live l c :
  live l c -> exists i, sCoros l !! c = Some i /\ getInfo (hcoro c) l = Ret ((c, i), l).
Proof.
  intros (i & Hi & Hh). exists i. split; [done|].
  unfold getInfo, _getInfo, mbind, ST_bind. rewrite Hi. cbn.
  now rewrite bool_decide_eq_false_2 by congruence.
Qed.

Lemma getInfo_dead l stk c : wf0 l stk -> ~ live l c -> getInfo (hcoro c) l = Fault AssertFailed.
Proof.
  intros H Hd. unfold getInfo, _getInfo, mbind, ST_bind.
  destruct (sCoros l !! c) as [i|] eqn:E; [|done]. cbn.
  rewrite bool_decide_eq_true_2; [done|]. destruct (wf_handle l stk H c i E); [done|].
  destruct Hd. exists i. eauto.
Qed.

Lemma wf0_top l stk c : wf0 l stk -> head stk = Some c -> tCurrent l = Some c /\ live l c.
Proof.
  intros H Hh. destruct stk as [|d stk]; [done|]. injection Hh as ->.
  split; [apply (wf_chain l _ H)|]. eapply chain_live; [apply (wf_chain l _ H)|set_solver].
Qed.

Lemma assertCurrent_ok l c : tCurrent l = Some c -> assertCurrent c l = Ret (tt, l).
Proof.
  intros H. unfold assertCurrent, gets, assert, mbind, ST_bind. rewrite H.
  now rewrite bool_decide_eq_true_2.
Qed.

(** The state after a coroutine is pushed on, or popped off, the stack. *)
Definition pushed (c : coro) (l : Lifecycle) : Lifecycle :=
  withCurrent (Some c) (upd c (setCaller (tCurrent l)) l).

Definition popped (c : coro) (l : Lifecycle) : Lifecycle :=
  upd c (setCaller None) (withCurrent (sCoros l !! c ≫= caller) l).

Lemma wf0_pushed l stk c : wf0 l stk -> live l c -> c ∉ stk -> wf0 (pushed c l) (c :: stk).
Proof.
  intros [Hc Hn Hh Ho] (i & Hi & Hhi) Hs. unfold pushed, upd, withCurrent. split; cbn.
  - split; [done|]. rewrite lookup_alter_eq, Hi. eexists. split_and!; [done|done|]. cbn.
    revert Hc. apply chain_ext. intros d j Hd Hj. rewrite lookup_alter_ne by set_solver. eauto.
  - now constructor.
  - intros d j. destruct (decide (d = c)) as [->|].
    + rewrite lookup_alter_eq, Hi. intros [= <-]. auto.
    + rewrite lookup_alter_ne by done. eauto.
  - intros d j. destruct (decide (d = c)) as [->|]; [set_solver|].
    rewrite lookup_alter_ne by done. set_solver.
Qed.

Lemma pushCurrent_ok l stk c :
  wf0 l stk -> live l c -> c ∉ stk -> pushCurrent c l = Ret (tt, pushed c l).
Proof.
  intros H (i & Hi & Hh) Hs. unfold pushCurrent, callerOf, gets, assert, mbind, ST_bind.
  rewrite Hi. cbn. rewrite (wf_off l stk H c i Hi Hs). now rewrite bool_decide_eq_true_2.
Qed.

Lemma wf0_popped l stk c : wf0 l (c :: stk) -> wf0 (popped c l) stk.
Proof.
  intros [Hc Hn Hh Ho]. cbn in Hc. destruct Hc as [Ht (i & Hi & Hhi & Hc)].
  apply NoDup_cons in Hn as [Hcs Hn]. unfold popped, upd, withCurrent. rewrite Hi. split; cbn.
  - revert Hc. apply chain_ext. intros d j Hd Hj. rewrite lookup_alter_ne by set_solver. eauto.
  - done.
  - intros d j. destruct (decide (d = c)) as [->|].
    + rewrite lookup_alter_eq, Hi. intros [= <-]. auto.
    + rewrite lookup_alter_ne by done. eauto.
  - intros d j. destruct (decide (d = c)) as [->|].
    + rewrite lookup_alter_eq, Hi. now intros [= <-].
    + rewrite lookup_alter_ne by done. intros Hj Hd. apply (Ho d j); set_solver.
Qed.

Lemma popCurrent_ok l c : tCurrent l = Some c -> popCurrent c l = Ret (tt, popped c l).
Proof.
  intros H. unfold popCurrent. unfold mbind, ST_bind at 1. now rewrite assertCurrent_ok.
Qed.

Lemma stateOf_pushed l c d : stateOf (pushed c l) d = stateOf l d.
Proof. unfold pushed. apply (stateOf_upd_same l). done. Qed.

Lemma stateOf_popped l c d : stateOf (popped c l) d = stateOf l d.
Proof. unfold popped. now rewrite stateOf_upd_same. Qed.

Lemma live_popped l c d : live l d -> live (popped c l) d.
Proof.
  intros (i & Hi & Hh). unfold live, popped, upd, withCurrent. cbn.
  destruct (decide (d = c)) as [->|].
  - rewrite lookup_alter_eq, Hi. eexists. split; [done|]. done.
  - rewrite lookup_alter_ne by done. eauto.
Qed.

Definition entered (next : coro_handle) (l : Lifecycle) : Lifecycle :=
  match next with hcoro n => pushed n l | _ => l end.

(** [next] is not on the stack and not destroyed. *)
Definition enterable (l : Lifecycle) (stk : list coro) (next : coro_handle) : Prop :=
  match next with hcoro n => live l n /\ n ∉ stk | _ => True end.

Lemma switchCurrent_ok l stk c next :
  wf0 l (c :: stk) -> enterable l (c :: stk) next ->
  switchCurrent c next l = Ret (tt, entered next (popped c l))
  /\ wf0 (entered next (popped c l)) (pushHandle next stk).
Proof.
  intros H Hn. destruct (wf0_top l _ c H eq_refl) as [Ht Hl].
  pose proof (wf0_popped l stk c H) as Hp.
  assert (enterable (popped c l) stk next) as Hn'.
  { destruct next as [| |n]; cbn in *; [done..|]. split; [now apply live_popped|set_solver]. }
  split.
  - unfold switchCurrent, gets, assert, mbind, ST_bind at 1. rewrite bool_decide_eq_true_2.
    2: { destruct Hl as (i & Hi & Hh). rewrite Hi. cbn. rewrite Hh. intros [= <-].
         cbn in Hn. set_solver. }
    unfold ST_bind. rewrite assertCurrent_ok by done.
    unfold callerOf, gets, setCurrent, updInfo, modify. fold (popped c l).
    destruct next as [| |n]; cbn [isNoop entered]; [done..|].
    destruct Hn' as [Hlive Hs]. destruct (getInfo_live _ n Hlive) as (i & Hi & E).
    rewrite E. cbn [fst snd].
    rewrite (wf_off _ _ Hp n i Hi Hs). now rewrite bool_decide_eq_true_2.
  - destruct next as [| |n]; cbn; [done..|]. destruct Hn' as [? ?]. now apply wf0_pushed.
Qed.

Lemma stateOf_entered l next d : stateOf (entered next l) d = stateOf l d.
Proof. destruct next; cbn; [done..|]. apply stateOf_pushed. Qed.

Lemma frames_awaiting o : frames (setAwaiting o).
Proof. done. Qed.
Lemma frames_awaitingType o : frames (setAwaitingType o).
Proof. done. Qed.
Lemma frames_awaitingCoro o : frames (setAwaitingCoro o).
Proof. done. Qed.
Lemma frames_ignored o : frames (setIgnored o).
Proof. done. Qed.

Create HintDb lifecycle.
#[local] Hint Resolve setState_frames frames_awaiting frames_awaitingType frames_awaitingCoro
  frames_ignored wf0_upd live_upd : lifecycle.

Lemma running_upd l c f d :
  (forall i, state (f i) = state i) \/ (forall i, state (f i) = active \/ state (f i) = ending) \/ d <> c ->
  running l d -> running (upd c f l) d.
Proof.
  unfold running. intros H. rewrite stateOf_upd. case_bool_decide; [|done]. subst.
  unfold stateOf. destruct (sCoros l !! c) as [i|]; cbn; [|done].
  destruct H as [H|[H|H]]; [rewrite H|destruct (H i) as [-> | ->]|]; auto. done.
Qed.

Lemma running_set l c s d :
  s = active \/ s = ending -> running l d -> running (upd c (setState s) l) d.
Proof. intros Hs. apply running_upd. right. left. intros i. rewrite setState_state. naive_solver. Qed.

Lemma Forall_running l l' stk :
  (forall d, d ∈ stk -> stateOf l' d = stateOf l d) -> Forall (running l) stk -> Forall (running l') stk.
Proof.
  rewrite !Forall_forall. intros H H' d Hd. unfold running. rewrite H by done. apply H', Hd.
Qed.

(** Control goes to [next]: it is active, nobody else changes. *)
Definition moves (next : coro_handle) (l l' : Lifecycle) : Prop :=
  (forall d, next = hcoro d -> stateOf l' d = Some active) /\ (forall d, next <> hcoro d -> stateOf l' d = stateOf l d)
  /\ forall d, live l d -> live l' d.

Lemma live_pushed l c d : live l d -> live (pushed c l) d.
Proof.
  intros (i & Hi & Hh). unfold live, pushed, upd, withCurrent. cbn. destruct (decide (d = c)) as [->|].
  - rewrite lookup_alter_eq, Hi. eexists. split; [done|]. done.
  - rewrite lookup_alter_ne by done. eauto.
Qed.

Lemma switching_ok l stk c next :
  wf0 l (c :: stk) -> Forall (running l) stk -> canEnter l (c :: stk) next ->
  exists l', switching c next l = Ret (if bool_decide (next = hnull) then hnoop else next, l')
    /\ wf l' (pushHandle next stk) /\ moves next l l'.
Proof.
  intros H Hr Hn. unfold switching. destruct next as [| |n]; cbn [isNoop].
  1: pose proof (switchCurrent_ok l stk c hnull H I) as [E Hw].
  2: pose proof (switchCurrent_ok l stk c hnoop H I) as [E Hw].
  1,2: unfold mbind, ST_bind; unfold mret at 1, ST_ret at 1; rewrite E; eexists; split; [done|];
    split; [split; [exact Hw|]; cbn; revert Hr; apply Forall_running; intros; apply stateOf_popped|];
    split_and!; [done|intros; apply stateOf_popped|intros; now apply live_popped].
  destruct Hn as (Hl & Ha & Hs). destruct (getInfo_live l n Hl) as (i & Hi & E).
  set (l1 := upd n (setAwaiting None) (upd n (setState active) l)).
  assert (wf0 l1 (c :: stk)) as H1 by (unfold l1; auto with lifecycle).
  assert (enterable l1 (c :: stk) (hcoro n)) as Hn1 by (split; [unfold l1; auto with lifecycle|done]).
  destruct (switchCurrent_ok l1 stk c _ H1 Hn1) as [E2 Hw].
  unfold mbind, ST_bind. rewrite E. cbn [fst snd]. unfold assert.
  rewrite bool_decide_eq_false_2 by (unfold stateOf in Ha; rewrite Hi in Ha; cbn in Ha; congruence).
  cbn [negb]. unfold updInfo, modify. fold l1. rewrite E2. eexists. split; [done|].
  assert (moves (hcoro n) l (entered (hcoro n) (popped c l1))) as Hm.
  { split_and!.
    - intros d [= <-]. rewrite stateOf_entered, stateOf_popped. unfold l1. rewrite stateOf_upd_same by done. now apply stateOf_setState.
    - intros d Hd. rewrite stateOf_entered, stateOf_popped. unfold l1. rewrite stateOf_upd_same by done. apply stateOf_upd_ne. congruence.
    - intros d Hd. cbn [entered]. apply live_pushed, live_popped. unfold l1. auto with lifecycle. }
  split; [|exact Hm]. split; [exact Hw|]. cbn [pushHandle]. constructor; [left; now apply Hm|].
  revert Hr. apply Forall_running. intros d Hd. apply Hm. intros [= <-]. set_solver.
Qed.

Lemma canEnter_upd l stk c f next :
  frames f -> c ∈ stk -> canEnter l stk next -> canEnter (upd c f l) stk next.
Proof.
  intros Hf Hc. destruct next as [| |n]; cbn; [done..|]. intros (Hl & Ha & Hs).
  split_and!; [auto with lifecycle| |done]. rewrite stateOf_upd_ne by set_solver. done.
Qed.
#[local] Hint Resolve canEnter_upd : lifecycle.

(** Leaving the top of the stack after any updates of its own entry. *)
Definition ownUpdate (c : coro) (l l' : Lifecycle) : Prop :=
  exists f, frames f /\ l' = upd c f l.

Lemma ownUpdate_step c l l' f : frames f -> ownUpdate c l l' -> ownUpdate c l (upd c f l').
Proof.
  intros Hf (g & Hg & ->). exists (f ∘ g). split.
  - intros i. cbn. destruct (Hf (g i)) as [-> ->]. apply Hg.
  - unfold upd. cbn. f_equal. now rewrite alter_alter_eq.
Qed.

Lemma ownUpdate_refl c l : ownUpdate c l l.
Proof.
  exists (fun i => i). split; [done|]. destruct l. unfold upd. cbn. f_equal. symmetry. apply alter_id. done.
Qed.
#[local] Hint Resolve ownUpdate_refl ownUpdate_step : lifecycle.

Lemma leave_ok l l' stk c next :
  wf l (c :: stk) -> canEnter l (c :: stk) next -> ownUpdate c l l' ->
  exists l'', switching c next l' = Ret (if bool_decide (next = hnull) then hnoop else next, l'')
    /\ wf l'' (pushHandle next stk) /\ moves next l' l''.
Proof.
  intros [H Hr] Hn (f & Hf & ->). apply Forall_cons in Hr as [_ Hr].
  pose proof (wf_nodup _ _ H) as [Hc _]%NoDup_cons.
  apply switching_ok; [auto with lifecycle| |apply canEnter_upd; [done|set_solver|done]].
  revert Hr. apply Forall_running. intros d Hd. apply stateOf_upd_ne. set_solver.
Qed.

(** The current coroutine asks for its own entry. *)
Lemma top_info l stk c :
  wf l stk -> head stk = Some c ->
  exists i r, stk = c :: r /\ sCoros l !! c = Some i /\ getInfo (hcoro c) l = Ret ((c, i), l)
    /\ assertCurrent c l = Ret (tt, l).
Proof.
  intros [H _] Hh. destruct (wf0_top l stk c H Hh) as [Ht Hl].
  destruct (getInfo_live l c Hl) as (i & Hi & E). destruct stk as [|d r]; [done|].
  injection Hh as ->. exists i, r. split_and!; auto. now apply assertCurrent_ok.
Qed.

Lemma lookup_state l c i s : sCoros l !! c = Some i -> stateOf l c = Some s -> state i = s.
Proof. unfold stateOf. intros ->. cbn. congruence. Qed.

Lemma stateOf_ne l c i s : sCoros l !! c = Some i -> stateOf l c <> Some s -> state i <> s.
Proof. unfold stateOf. intros ->. cbn. congruence. Qed.

(** The part the three suspending calls share. *)
Lemma transfer_ok l stk c next (rest : coro * coroInfo -> ST Lifecycle coro_handle) :
  wf l stk -> head stk = Some c ->
  next = hcoro c \/ stateOf l c = Some active /\ canEnter l stk next ->
  (forall i, exists l', rest (c, i) l = switching c next l' /\ ownUpdate c l l') ->
  exists h l',
    (r ← getInfo (hcoro c);
     assertCurrent r.1;;
     if bool_decide (hcoro c = next) then mret next
     else assert (bool_decide (state r.2 = active));; rest r) l = Ret (h, l')
    /\ wf l' (transfer c next stk).
Proof.
  intros Hw Hh Hn Ha. destruct (top_info l stk c Hw Hh) as (i & r & -> & Hi & E & E2).
  unfold mbind, ST_bind, transfer. rewrite E. cbn [fst snd]. rewrite E2.
  rewrite (bool_decide_ext (hcoro c = next) (next = hcoro c)) by naive_solver.
  case_bool_decide as Hd; [eexists _, _; split; [done|exact Hw]|].
  destruct Hn as [?|[Hs Hn]]; [done|]. unfold assert.
  rewrite bool_decide_eq_true_2 by (eapply lookup_state; eauto).
  destruct (Ha i) as (l1 & -> & Hu).
  destruct (leave_ok l l1 r c next Hw Hn Hu) as (l2 & -> & Hw2 & _). eauto.
Qed.

Lemma wf_upd l stk c f :
  frames f -> (forall i, state (f i) = state i) \/ (forall i, state (f i) = active \/ state (f i) = ending)
              \/ c ∉ stk ->
  wf l stk -> wf (upd c f l) stk.
Proof.
  intros Hf Hs [H Hr]. split; [auto with lifecycle|]. rewrite !Forall_forall in *.
  intros d Hd. apply running_upd; [|eauto]. destruct Hs as [?|[?|?]]; [auto..|].
  right; right. intros ->. contradiction.
Qed.

Lemma created_ok l stk c isReady :
  wf l stk -> ~ live l c ->
  exists l', created (hcoro c) isReady l = Ret (tt, l') /\ wf l' (if isReady then c :: stk else stk).
Proof.
  intros [H Hr] Hd.
  assert (c ∉ stk) as Hs by (intros ?; apply Hd; eapply chain_live; [apply (wf_chain _ _ H)|done]).
  set (n := u32 (sLastSequence l + 1)). set (i0 := CoroInfo (hcoro c) born None hnull None None n false).
  set (l1 := mkLifecycle (<[c:=i0]> (sCoros l)) (tCurrent l) n).
  assert (live l1 c) as Hl1 by (exists i0; split; [apply lookup_insert_eq|done]).
  assert (wf l1 stk) as [H1 Hr1].
  { split; [destruct H as [Hc Hn Hh Ho]; split; cbn|].
    - revert Hc. apply chain_ext. intros d i Hi Hl. rewrite lookup_insert_ne by set_solver. eauto.
    - done.
    - intros d i [[<- <-]|[? ?]]%lookup_insert_Some; eauto.
    - intros d i [[<- <-]|[? ?]]%lookup_insert_Some; eauto.
    - revert Hr. apply Forall_running. intros d Hi. unfold stateOf, l1. cbn.
      rewrite lookup_insert_ne by set_solver. done. }
  assert (created (hcoro c) isReady l =
          (if isReady then updInfo c (setState active);; pushCurrent c else mret tt) l1) as ->.
  { unfold created, gets, newInfo, putInfo, modify, assert, mbind, ST_bind.
    destruct (sCoros l !! c) as [i|] eqn:E; cbn; [|done].
    rewrite bool_decide_eq_true_2; [done|]. destruct (wf_handle _ _ H c i E); [done|].
    destruct Hd. exists i. auto. }
  destruct isReady; [|eexists; split; [done|]; split; done].
  unfold mbind, ST_bind, updInfo, modify.
  set (l2 := upd c (setState active) l1).
  assert (wf0 l2 stk) as H2 by (unfold l2; auto with lifecycle).
  assert (live l2 c) as Hl2 by (unfold l2; auto with lifecycle).
  rewrite (pushCurrent_ok l2 stk c H2 Hl2 Hs). eexists. split; [done|].
  split; [now apply wf0_pushed|]. constructor.
  - left. rewrite stateOf_pushed. unfold l2. now apply stateOf_setState.
  - revert Hr1. apply Forall_running. intros d Hi. rewrite stateOf_pushed. unfold l2.
    apply stateOf_upd_ne. set_solver.
Qed.

Lemma readyInfo_ok l c i :
  state i <> ending ->
  _ready (c, i) l =
    Ret (tt, upd c (setAwaitingCoro hnull ∘ setAwaiting None ∘ setState active) l).
Proof.
  intros H. unfold _ready, mbind, ST_bind, assert, updInfo, modify. cbn [fst snd].
  rewrite bool_decide_eq_false_2 by done. cbn [negb].
  unfold upd. cbn [sCoros tCurrent sLastSequence]. now rewrite !alter_alter_eq.
Qed.

Lemma ready_frames : frames (setAwaitingCoro hnull ∘ setAwaiting None ∘ setState active).
Proof. intros i. cbn. apply setState_frames. Qed.

Lemma ready_state i : state ((setAwaitingCoro hnull ∘ setAwaiting None ∘ setState active) i) = active.
Proof. cbn. apply setState_state. Qed.

Lemma resume_ok l stk c :
  wf l stk -> live l c -> stateOf l c <> Some ending -> c ∉ stk ->
  exists l', resume (hcoro c) l = Ret (tt, l') /\ wf l' (c :: stk) /\ moves (hcoro c) l l'.
Proof.
  intros [H Hr] Hl He Hs. destruct (getInfo_live l c Hl) as (i & Hi & E).
  unfold resume, mbind, ST_bind. rewrite E. cbn [fst snd]. rewrite (pushCurrent_ok l stk c) by done.
  rewrite readyInfo_ok by (eapply stateOf_ne; eauto). eexists. split; [done|].
  match goal with |- wf ?x _ /\ _ => assert (moves (hcoro c) l x) as Hm end.
  { split_and!.
    - intros d [= <-]. rewrite stateOf_upd, bool_decide_eq_true_2 by done. unfold pushed, withCurrent, upd. cbn.
      rewrite lookup_alter_eq, Hi. cbn. now rewrite setState_state.
    - intros d Hd. rewrite stateOf_upd_ne by congruence. apply stateOf_pushed.
    - intros d Hd. apply live_upd; [apply ready_frames|]. now apply live_pushed. }
  split; [|exact Hm]. split; [apply wf0_upd; [apply ready_frames|now apply wf0_pushed]|]. constructor; [left; now apply Hm|].
  revert Hr. apply Forall_running. intros d Hd. apply Hm. intros [= <-]. set_solver.
Qed.

Lemma depthFrom_chain l top stk f :
  chain (sCoros l) top stk -> (length stk <= f)%nat -> depthFrom f l top = Ret (length stk).
Proof.
  revert top f. induction stk as [|c stk IH]; intros top f Hc Hf; cbn in Hc.
  - subst. now destruct f.
  - destruct Hc as [-> (i & Hi & _ & Hc)]. cbn in Hf. destruct f as [|f]; [lia|]. cbn [depthFrom].
    rewrite Hi, (IH (caller i)); [done|done|lia].
Qed.

Lemma stackDepth_ok l stk : wf0 l stk -> stackDepth l = Ret (length stk).
Proof.
  intros H. apply depthFrom_chain; [apply (wf_chain _ _ H)|].
  rewrite <- (size_list_to_set (C := gset coro)) by apply (wf_nodup _ _ H).
  rewrite <- size_dom. apply subseteq_size. intros c Hc%elem_of_list_to_set.
  destruct (chain_live l stk c (wf_chain _ _ H) Hc) as (i & Hi & _).
  apply elem_of_dom. eauto.
Qed.

Lemma empty_wf : wf emptyLifecycle [].
Proof. split; [split; cbn; [done|constructor|done|done]|constructor]. Qed.

Ltac own := repeat (apply ownUpdate_step; [auto with lifecycle|]); apply ownUpdate_refl.

Lemma suspendInitial_ok l stk c :
  wf l stk -> live l c -> (stateOf l c = Some active -> head stk = Some c) ->
  exists l', suspendInitial (hcoro c) l = Ret (tt, l')
    /\ wf l' (if bool_decide (stateOf l c = Some active) then tail stk else stk).
Proof.
  intros [H Hr] Hl Ht. destruct (getInfo_live l c Hl) as (i & Hi & E).
  unfold suspendInitial, mbind, ST_bind. rewrite E. cbn [fst snd].
  rewrite (bool_decide_ext (stateOf l c = Some active) (state i = active))
    by (unfold stateOf; rewrite Hi; cbn; split; congruence).
  case_bool_decide as Hs; [|eexists; split; [done|]; split; done].
  assert (head stk = Some c) as Hh by (apply Ht; unfold stateOf; rewrite Hi; cbn; congruence).
  destruct (wf0_top l stk c H Hh) as [Hc _]. destruct stk as [|d r]; [done|]. injection Hh as ->.
  rewrite popCurrent_ok by done. unfold updInfo, modify. eexists. split; [done|].
  pose proof (wf_nodup _ _ H) as [Hn _]%NoDup_cons. apply Forall_cons in Hr as [_ Hr].
  apply wf_upd; [auto with lifecycle|auto|]. split; [now apply wf0_popped|].
  revert Hr. apply Forall_running. intros. apply stateOf_popped.
Qed.

Lemma ended_ok l stk c :
  wf l stk -> is_Some (sCoros l !! c) -> c ∉ stk ->
  exists l', ended (hcoro c) false false l = Ret (tt, l') /\ wf l' stk.
Proof.
  intros [H Hr] [i Hi] Hs.
  assert (tCurrent l <> Some c) as Hc.
  { pose proof (wf_chain _ _ H) as Hc. destruct stk as [|d r]; cbn in Hc; [congruence|].
    destruct Hc as [-> _]. set_solver. }
  assert (map_Forall (fun _ j => caller j <> Some c) (sCoros l)) as Hall.
  { intros d j Hj Hcj. destruct (decide (d ∈ stk)) as [Hd|Hd].
    2: { rewrite (wf_off _ _ H d j Hj Hd) in Hcj. done. }
    pose proof (wf_chain _ _ H) as Hch. clear Hc Hr H. revert Hch. generalize (tCurrent l).
    induction stk as [|x r IH]; intros top; [set_solver|]. intros [-> (i' & Hi' & _ & Hr)].
    apply elem_of_cons in Hd as [->|Hd].
    - rewrite Hj in Hi'. injection Hi' as <-. rewrite Hcj in Hr.
      destruct r as [|y r]; [done|]. destruct Hr as [[= ->] _]. set_solver.
    - eapply IH; [set_solver|done|exact Hr]. }
  unfold ended, assert, gets, mbind, ST_bind. cbn [negb]. unfold _getInfo. rewrite Hi. cbn [fst snd].
  rewrite bool_decide_eq_false_2 by done. cbn [negb].
  rewrite (bool_decide_eq_true_2 (caller i = None)) by (eapply wf_off; eauto).
  rewrite bool_decide_eq_true_2 by done. unfold updInfo, modify. eexists. split; [done|].
  split; [|revert Hr; apply Forall_running; intros; now apply stateOf_upd_same].
  destruct H as [Hch Hn Hh Ho]. unfold upd. split; cbn.
  - revert Hch. apply chain_ext. intros d j Hd Hj. rewrite lookup_alter_ne by set_solver. eauto.
  - done.
  - intros d j. destruct (decide (d = c)) as [->|].
    + rewrite lookup_alter_eq, Hi. intros [= <-]. auto.
    + rewrite lookup_alter_ne by done. eauto.
  - intros d j. destruct (decide (d = c)) as [->|].
    + rewrite lookup_alter_eq, Hi. intros [= <-] _. cbn. eauto.
    + rewrite lookup_alter_ne by done. eauto.
Qed.

Lemma runCall_ok l stk k :
  wf l stk -> callOk k l stk -> exists h l', runCall k l = Ret (h, l') /\ wf l' (effect k l stk).
Proof.
  intros Hw Hok. destruct k as [c r|c|c ty to next|c a next|c next isCall|c next|c|c|c|c|c r w|c];
    cbn [callOk effect runCall] in *.
  - destruct (created_ok l stk c r Hw Hok) as (l' & E & H). unfold mbind, ST_bind. rewrite E.
    destruct r; eauto.
  - destruct Hok as [Hl Ht]. destruct (suspendInitial_ok l stk c Hw Hl Ht) as (l' & E & H).
    unfold mbind, ST_bind. rewrite E. eauto.
  - apply transfer_ok; [done|apply Hok..|]. intros i. eexists. split; [reflexivity|]. own.
  - apply transfer_ok; [done|apply Hok..|]. intros i. eexists. split; [reflexivity|]. own.
  - apply transfer_ok; [done|apply Hok..|]. intros i.
    destruct (isCall && negb (isNoop next)); eexists; (split; [reflexivity|]); own.
  - destruct Hok as [Hh Hn]. destruct (top_info l stk c Hw Hh) as (i & r & -> & Hi & E & E2).
    unfold finalSuspend, mbind, ST_bind. rewrite E. cbn [fst snd]. rewrite E2. unfold when.
    destruct (_ <? _)%nat.
    + destruct (leave_ok l (upd c (setState ending) l) r c next Hw Hn) as (l' & E3 & H & _); [own|].
      cbn. rewrite E3. eauto.
    + destruct (leave_ok l l r c next Hw Hn) as (l' & E3 & H & _); [own|]. cbn. rewrite E3. eauto.
  - destruct Hok as [Hl He]. destruct (getInfo_live l c Hl) as (i & Hi & E).
    unfold ready, mbind, ST_bind. rewrite E. cbn [snd].
    case_bool_decide; cbn [negb]; [eauto|]. rewrite readyInfo_ok by (eapply stateOf_ne; eauto).
    eexists _, _. split; [done|]. apply wf_upd; [apply ready_frames| |done].
    right. left. intros j. left. apply ready_state.
  - destruct Hok as (Hl & He & Hs). destruct (resume_ok l stk c Hw Hl He Hs) as (l' & E & H & _).
    unfold mbind, ST_bind. rewrite E. eauto.
  - destruct (top_info l stk c Hw Hok) as (i & r & -> & Hi & E & E2).
    unfold threw, mbind, ST_bind. rewrite E. cbn [fst]. rewrite E2. eexists _, _. split; [done|].
    apply wf_upd; [auto with lifecycle| |done]. right; left. intros j. rewrite setState_state. auto.
  - destruct (top_info l stk c Hw Hok) as (i & r & -> & Hi & E & E2).
    unfold returning, mbind, ST_bind. rewrite E. cbn [fst]. rewrite E2. eexists _, _. split; [done|].
    apply wf_upd; [auto with lifecycle| |done]. right; left. intros j. rewrite setState_state. auto.
  - destruct Hok as (-> & -> & Hi & Hs). destruct (ended_ok l stk c Hw Hi Hs) as (l' & E & H).
    unfold mbind, ST_bind. rewrite E. eauto.
  - destruct (getInfo_live l c Hok) as (i & Hi & E). unfold ignoreInCount, mbind, ST_bind. rewrite E.
    cbn [fst]. eexists _, _. split; [done|]. apply wf_upd; auto with lifecycle.
Qed.

(** A sequence of calls, each legal where it is made. *)
Inductive trace : list call -> Lifecycle -> list coro -> Prop :=
| trace_nil : trace [] emptyLifecycle []
| trace_snoc ks l stk k h l' :
    trace ks l stk -> callOk k l stk -> runCall k l = Ret (h, l') ->
    trace (ks ++ [k]) l' (effect k l stk).

Lemma trace_wf ks l stk : trace ks l stk -> wf l stk.
Proof.
  induction 1 as [|ks l stk k h l' _ IH Hok E]; [apply empty_wf|].
  destruct (runCall_ok l stk k IH Hok) as (h' & l'' & E' & H). rewrite E in E'. now injection E' as <- <-.
Qed.

(** * Properties *)

(** C16: after any sequence of legal lifecycle calls the caller chain from the
    current coroutine is the expected stack (without repetition or destroyed
    coroutines, everyone on it active or ending), [stackDepth] counts it, and
    the next legal call trips no assertion. *)
Theorem lifecycle_stack_discipline ks l stk :
  trace ks l stk ->
  wf l stk /\ stackDepth l = Ret (length stk)
  /\ forall k, callOk k l stk -> exists h l', runCall k l = Ret (h, l') /\ wf l' (effect k l stk).
Proof.
  intros H%trace_wf. split_and!; [done|now apply stackDepth_ok; destruct H|].
  intros k. now apply runCall_ok.
Qed.

(** A task is created and suspended; the event loop resumes it; it awaits a new
    coroutine, which runs in its place. *)
Definition exampleCalls : list call :=
  [Created 1 true; SuspendInitial 1; Resume 1; Created 2 false; SuspendingToCoro 1 (hcoro 2) (hcoro 2)].

(** The table after some calls. *)
Fixpoint play (ks : list call) (l : Lifecycle) : Lifecycle :=
  match ks with
  | [] => l
  | k :: r => match runCall k l with Ret (_, l') => play r l' | _ => l end
  end.

Definition afterCalls (n : nat) : Lifecycle := play (take n exampleCalls) emptyLifecycle.

Lemma lifecycle_stack_discipline_witness :
  trace exampleCalls (afterCalls 5) [2%positive] /\ stackDepth (afterCalls 5) = Ret 1%nat.
Proof.
  assert (forall l c, sCoros l !! c = None -> ~ live l c) as Hnew by (intros l c E (i & Hi & _); congruence).
  assert (trace (take 1 exampleCalls) (afterCalls 1) [1%positive]) as T1.
  { apply (trace_snoc [] emptyLifecycle [] (Created 1 true) hnull (afterCalls 1));
      [constructor|now apply Hnew|reflexivity]. }
  assert (trace (take 2 exampleCalls) (afterCalls 2) []) as T2.
  { assert (effect (SuspendInitial 1) (afterCalls 1) [1%positive] = []) as <- by now vm_compute.
    apply (trace_snoc _ (afterCalls 1) _ (SuspendInitial 1) hnull (afterCalls 2) T1);
      [split; [eexists; split; reflexivity|reflexivity]|now vm_compute]. }
  assert (trace (take 3 exampleCalls) (afterCalls 3) [1%positive]) as T3.
  { apply (trace_snoc _ (afterCalls 2) _ (Resume 1) hnull (afterCalls 3) T2);
      [split_and!; [eexists; split; reflexivity|vm_compute; discriminate|set_solver]|now vm_compute]. }
  assert (trace (take 4 exampleCalls) (afterCalls 4) [1%positive]) as T4.
  { apply (trace_snoc _ (afterCalls 3) _ (Created 2 false) hnull (afterCalls 4) T3);
      [now apply Hnew|now vm_compute]. }
  assert (trace exampleCalls (afterCalls 5) [2%positive]) as T5.
  { apply (trace_snoc _ (afterCalls 4) _ (SuspendingToCoro 1 (hcoro 2) (hcoro 2)) (hcoro 2) (afterCalls 5) T4);
      [|now vm_compute]. split; [reflexivity|]. right. split; [reflexivity|].
    split_and!; [eexists; split; reflexivity|vm_compute; discriminate|set_solver]. }
  split; [exact T5|]. apply (lifecycle_stack_discipline _ _ _ T5).
Defined.

(** Calls that name a coroutine as the one that is running. *)
Definition callerOfCall (k : call) : option coro :=
  match k with
  | SuspendingTo c _ _ _ | SuspendingToCoro c _ _ | YieldingTo c _ _ | FinalSuspend c _
  | Threw c | Returning c => Some c
  | _ => None
  end.

(** Calls that look up a coroutine that must exist. *)
Definition subject (k : call) : option coro :=
  match k with
  | SuspendInitial c | Ready c | Resume c | IgnoreInCount c => Some c
  | _ => callerOfCall k
  end.

(** Misuse is caught: a call on a destroyed or unknown coroutine aborts, and so
    does a suspension, return or throw of a coroutine that is not current. *)
Theorem lifecycle_misuse_aborts l stk k c :
  wf l stk ->
  (subject k = Some c /\ ~ live l c) \/ (callerOfCall k = Some c /\ tCurrent l <> Some c) ->
  runCall k l = Fault AssertFailed.
Proof.
  intros [H _] Hk.
  assert (forall d, ~ live l d -> getInfo (hcoro d) l = Fault AssertFailed) as Hdead
    by (intros; eapply getInfo_dead; eauto).
  assert (forall d, live l d \/ ~ live l d) as Hdec.
  { intros d. unfold live. destruct (sCoros l !! d) as [i|]; [|right; intros (? & ? & _); done].
    destruct (decide (handle i = hcoro d)); [left; eauto|right]. intros (? & [= <-] & ?). done. }
  assert (forall d, tCurrent l <> Some d -> assertCurrent d l = Fault AssertFailed) as Hcur.
  { intros d Hd. unfold assertCurrent, gets, assert, mbind, ST_bind.
    now rewrite bool_decide_eq_false_2. }
  destruct k; cbn in Hk; (destruct Hk as [[[= ->] Hl]|[[= ->] Hl]] || idtac);
    cbn; unfold suspendInitial, suspendingTo, suspendingToCoro, yieldingTo, finalSuspend, ready,
      resume, threw, returning, ignoreInCount, mbind, ST_bind;
    try (now rewrite (Hdead _ Hl));
    destruct (Hdec c) as [Hlive|Hlive]; try (now rewrite (Hdead _ Hlive));
    destruct (getInfo_live l c Hlive) as (i & _ & ->); cbn [fst]; now rewrite (Hcur _ Hl).
Qed.

Lemma lifecycle_misuse_aborts_witness :
  runCall (Resume 7) emptyLifecycle = Fault AssertFailed.
Proof.
  apply (lifecycle_misuse_aborts emptyLifecycle [] (Resume 7) 7); [apply empty_wf|].
  left. split; [reflexivity|]. intros (i & Hi & _). vm_compute in Hi. discriminate.
Defined.
