(* ===== verification/LifecycleLog.v ===== *)
(** The lists of coroutines that [logAll] and [logStacks] write ([src/CoroLifecycle.cc]).

    [entries] is the table in the order in which the [unordered_map] is iterated.  What is written is data here: which coroutines are listed, in which
    stacks, and with which remark; the text of a line is not modelled. *)

From stdpp Require Import sorting.
From S2P Require Import Prelude Lifecycle.

Lemma NoDup_split_unique {A} (d : A) s1 : forall t1 s2 t2, NoDup (s1 ++ d :: s2) -> s1 ++ d :: s2 = t1 ++ d :: t2 -> s1 = t1.
Proof.
  assert (forall x y z : list A, NoDup (d :: x) -> x <> y ++ d :: z) as H.
  { intros x y z Hn ->. apply NoDup_cons in Hn as [Hn _]. apply Hn. apply elem_of_app. right. left. }
  induction s1 as [|x s1 IH]; intros [|y t1] s2 t2 Hn E; cbn in *; simplify_eq; [done| | |].
  - now destruct (H _ t1 t2 Hn).
  - now destruct (H _ s1 s2 Hn).
  - f_equal. apply NoDup_cons in Hn as [_ Hn]. eauto.
Qed.

(** * [logAll] *)

Inductive remark :=
| RBorn | RCalling (seq : Z) | RCurrent | RAwaitingCoro (seq : Z) | RAwaiting (type : option Z) (obj : Z) | RAwaitingUnknown
| RYieldingTo (seq : Z) | RYielding | REnding.

Section log.
Context (l : Lifecycle) (entries : list (coro * coroInfo)).

Definition exists_ (i : coroInfo) : bool := negb (bool_decide (handle i = hnull)).

Fixpoint calleeIn (es : list (coro * coroInfo)) (c : coro) : option coroInfo :=
  match es with
  | [] => None
  | (_, i) :: r => if bool_decide (caller i = Some c) && exists_ i then Some i else calleeIn r c
  end.

Definition _currentCalleeOf (c : coro) : option coroInfo := calleeIn entries c.

(** [_getInfo], where nothing changes the table. *)
Definition lookupInfo (h : coro_handle) : outcome (coro * coroInfo) := r ← _getInfo h l; Ret r.1.

Definition describe (e : coro * coroInfo) : outcome (coro * remark) :=
  let '(c, i) := e in
  match state i with
  | born => Ret (c, RBorn)
  | active =>
      match _currentCalleeOf c with
      | Some j => Ret (c, RCalling (sequence j))
      | None => Ret (c, RCurrent)
      end
  | awaiting =>
      if bool_decide (awaitingCoro i <> hnull) then r ← lookupInfo (awaitingCoro i); Ret (c, RAwaitingCoro (sequence r.2))
      else match awaitingObj i with
           | Some o => Ret (c, RAwaiting (awaitingType i) o)
           | None => Ret (c, RAwaitingUnknown)
           end
  | yielding =>
      if bool_decide (awaitingCoro i <> hnull) then r ← lookupInfo (awaitingCoro i); Ret (c, RYieldingTo (sequence r.2))
      else Ret (c, RYielding)
  | ending => Ret (c, REnding)
  end.

Fixpoint describeAll (es : list (coro * coroInfo)) : outcome (list (coro * remark)) :=
  match es with
  | [] => Ret []
  | e :: r => x ← describe e; xs ← describeAll r; Ret (x :: xs)
  end.

Definition older (a b : coro * coroInfo) : Prop := (sequence a.2 <= sequence b.2)%Z.

#[local] Instance older_dec a b : Decision (older a b).
Proof. unfold older. apply _. Defined.

#[local] Instance older_total : Total older.
Proof. intros a b. unfold older. lia. Qed.

#[local] Instance older_trans : Transitive older.
Proof. intros a b c. unfold older. lia. Qed.

Definition logAll : outcome (list (coro * remark)) :=
  describeAll (merge_sort older (filter (fun e => exists_ e.2 = true) entries)).

(** * [logStacks] *)

Definition waits (s : coroState) : bool := bool_decide (s = awaiting) || bool_decide (s = yielding).

(** [remaining] and [next], whose value for [c] is its caller or who awaits it. *)
Fixpoint buildNext (es : list (coro * coroInfo)) (remaining : gset coro) (next : gmap coro coro) : outcome (gset coro * gmap coro coro) :=
  match es with
  | [] => Ret (remaining, next)
  | (c, i) :: r =>
      if exists_ i then
        let remaining := {[c]} ∪ remaining in
        match bool_decide (state i = active), caller i with
        | true, Some k => buildNext r remaining (match next !! c with Some _ => next | None => <[c := k]> next end)
        | _, _ =>
            if waits (state i) && bool_decide (awaitingCoro i <> hnull) then
              other ← lookupInfo (awaitingCoro i);
              buildNext r remaining (<[other.1 := c]> next)
            else buildNext r remaining next
        end
      else buildNext r remaining next
  end.

Inductive note := NActive | NAwaiting (type : option Z) (obj : Z) | NState (s : coroState).

Definition noteOf (first : bool) (i : coroInfo) : note :=
  if first then
    if bool_decide (state i = active) then NActive
    else match awaitingObj i with Some o => NAwaiting (awaitingType i) o | None => NState (state i) end
  else NState (state i).

(** The line of a coroutine; the address of an entry that is not there is followed. *)
Definition item (first : bool) (c : coro) : outcome (coro * note) :=
  match sCoros l !! c with Some i => Ret (c, noteOf first i) | None => Fault OutOfBounds end.

(** The loop of [printStack]. *)
Fixpoint walk (fuel : nat) (next : gmap coro coro) (cur : coro) : outcome (list (coro * note)) :=
  match next !! cur with
  | None => Ret []
  | Some d =>
      match fuel with
      | O => Fault NoFuel
      | S f => x ← item false d; xs ← walk f next d; Ret (x :: xs)
      end
  end.

Definition printStack (next : gmap coro coro) (c : coro) (remaining : gset coro) : outcome (list (coro * note) * gset coro) :=
  x ← item true c;
  xs ← walk (size (sCoros l)) next c;
  Ret (x :: xs, remaining ∖ list_to_set (map fst (x :: xs))).

Fixpoint printStacks (es : list (coro * coroInfo)) (next : gmap coro coro) (remaining : gset coro)
  : outcome (list (list (coro * note)) * gset coro) :=
  match es with
  | [] => Ret ([], remaining)
  | (c, i) :: r =>
      if bool_decide (c ∈ remaining) && bool_decide (is_Some (next !! c)) && (bool_decide (state i = active) || bool_decide (awaitingCoro i = hnull)) then
        p ← printStack next c remaining;
        q ← printStacks r next p.2;
        Ret (p.1 :: q.1, q.2)
      else printStacks r next remaining
  end.

(** The stack of the current coroutine, the other stacks, and the coroutines on none. *)
Record report := mkReport { currentStack : list (coro * note); stacks : list (list (coro * note)); others : list coro }.

Definition logStacks : outcome report :=
  b ← buildNext entries ∅ ∅;
  let '(remaining, next) := b in
  p ← (match tCurrent l with Some c => printStack next c remaining | None => Ret ([], remaining) end);
  q ← printStacks entries next p.2;
  Ret (mkReport p.1 q.1 (elements q.2)).

(** * Properties *)

Context (stk : list coro) (WF : wf l stk) (ENT : entries ≡ₚ map_to_list (sCoros l)).

(** The coroutines that are awaited are known. *)
Context (known : forall c i, sCoros l !! c = Some i -> waits (state i) = true -> awaitingCoro i <> hnull ->
  exists d, awaitingCoro i = hcoro d /\ is_Some (sCoros l !! d)).

Lemma entry_lookup c i : (c, i) ∈ entries <-> sCoros l !! c = Some i.
Proof. rewrite ENT. apply elem_of_map_to_list. Qed.

Lemma lookupInfo_known c i : sCoros l !! c = Some i -> waits (state i) = true -> awaitingCoro i <> hnull ->
  exists d j, lookupInfo (awaitingCoro i) = Ret (d, j) /\ awaitingCoro i = hcoro d.
Proof.
  intros H1 H2 H3. destruct (known c i H1 H2 H3) as (d & E & j & Ej). exists d, j. split; [|done]. unfold lookupInfo, _getInfo. rewrite E, Ej. reflexivity.
Qed.

Lemma describe_ok c i : sCoros l !! c = Some i -> exists r, describe (c, i) = Ret (c, r).
Proof.
  intros H. unfold describe. destruct (state i) eqn:Es; [eauto|destruct (_currentCalleeOf c); eauto|..|eauto].
  all: case_bool_decide; [|destruct (awaitingObj i); eauto].
  all: destruct (lookupInfo_known c i) as (d & j & E & _); [done|now rewrite Es|done|]; rewrite E; cbn; eauto.
Qed.

(** [logAll] does not abort, and lists the coroutines that exist, each once, by age. *)
Theorem log_all_ok :
  exists out, logAll = Ret out /\ map fst out ≡ₚ map fst (filter (fun e => exists_ e.2 = true) entries)
    /\ exists es, map fst out = map fst es /\ StronglySorted older es.
Proof.
  unfold logAll. set (es := filter _ entries).
  assert (Forall (fun e => sCoros l !! e.1 = Some e.2) (merge_sort older es)) as Hall.
  { rewrite merge_sort_Permutation. apply Forall_forall. intros [c i] He. apply list_elem_of_filter in He as [_ He]. now apply entry_lookup. }
  assert (exists out, describeAll (merge_sort older es) = Ret out /\ map fst out = map fst (merge_sort older es)) as (out & E & Ef).
  { induction Hall as [|[c i] r Hc Hr IH]; [now exists []|]. destruct IH as (out & E & Ef). destruct (describe_ok c i Hc) as (x & Ex).
    exists ((c, x) :: out). cbn [describeAll]. rewrite Ex. cbn [mbind outcome_bind]. rewrite E. cbn. now rewrite Ef. }
  exists out. split; [exact E|]. rewrite Ef. split; [now rewrite merge_sort_Permutation|]. exists (merge_sort older es). split; [done|]. apply (StronglySorted_merge_sort _).
Qed.

(** ** Stacks *)

(** What [next] is made of. *)
Definition edge (x y : coro) : Prop :=
  (exists i, sCoros l !! x = Some i /\ state i = active /\ caller i = Some y)
  \/ (exists i, sCoros l !! y = Some i /\ exists_ i = true /\ waits (state i) = true /\ awaitingCoro i = hcoro x).

Definition edges (next : gmap coro coro) : Prop := forall x y, next !! x = Some y -> edge x y.

Lemma buildNext_ok es : forall remaining next, (forall e, e ∈ es -> e ∈ entries) -> edges next ->
  exists next', buildNext es remaining next = Ret (list_to_set (map fst (filter (fun e => exists_ e.2 = true) es)) ∪ remaining, next') /\ edges next'.
Proof.
  induction es as [|[c i] r IH]; intros remaining next Hes Hn; cbn [buildNext].
  { exists next. split; [|done]. cbn. do 2 f_equal. set_solver. }
  assert (sCoros l !! c = Some i) as Hc by (apply entry_lookup, Hes; left).
  assert (forall e, e ∈ r -> e ∈ entries) as Hr by (intros e He; apply Hes; now right). rewrite filter_cons. cbn [snd].
  destruct (exists_ i) eqn:Ei; [rewrite decide_True by done|rewrite decide_False by done; now apply IH].
  assert (forall next', edges next' -> exists next'', buildNext r ({[c]} ∪ remaining) next'
    = Ret (list_to_set (map fst ((c, i) :: filter (fun e => exists_ e.2 = true) r)) ∪ remaining, next'') /\ edges next'') as Hgo.
  { intros next' Hn'. destruct (IH ({[c]} ∪ remaining) next' Hr Hn') as (n2 & E2 & H2). exists n2. split; [|done]. rewrite E2. do 2 f_equal. cbn. set_solver. }
  assert (exists n2, (if waits (state i) && bool_decide (awaitingCoro i <> hnull) then other ← lookupInfo (awaitingCoro i); buildNext r ({[c]} ∪ remaining) (<[other.1 := c]> next)
              else buildNext r ({[c]} ∪ remaining) next) = Ret (list_to_set (map fst ((c, i) :: filter (fun e => exists_ e.2 = true) r)) ∪ remaining, n2) /\ edges n2) as Hwait.
  { destruct (waits (state i)) eqn:Ew; cbn [andb]; [|now apply Hgo]. case_bool_decide as Ha; [|now apply Hgo].
    destruct (lookupInfo_known c i Hc Ew Ha) as (d & j & E & Ed). rewrite E. cbn [mbind outcome_bind fst]. apply Hgo. intros x y.
    rewrite lookup_insert_Some. intros [[<- <-]|[_ H]]; [right; eauto|now apply Hn]. }
  destruct (bool_decide_reflect (state i = active)) as [Ea|Ea]; [|exact Hwait]. destruct (caller i) as [k|] eqn:Ek; [|exact Hwait]. apply Hgo.
  destruct (next !! c) eqn:En; [done|]. intros x y. rewrite lookup_insert_Some. intros [[<- <-]|[_ H]]; [left; eauto|now apply Hn].
Qed.

(** Coroutines on the stack do not wait. *)
Lemma stack_running c i : c ∈ stk -> sCoros l !! c = Some i -> waits (state i) = false /\ handle i = hcoro c.
Proof.
  intros Hc Hi. destruct WF as [W0 Wr]. rewrite Forall_forall in Wr. split.
  - destruct (Wr c Hc) as [H|H]; unfold stateOf in H; rewrite Hi in H; cbn in H; injection H as H; unfold waits; now rewrite H.
  - destruct (chain_live l stk c (wf_chain _ _ W0) Hc) as (j & Ej & Hj). congruence.
Qed.

(** The caller is the next on the stack. *)
Lemma chain_caller m top s c i k : chain m top s -> m !! c = Some i -> caller i = Some k -> c ∈ s -> exists s1 s2, s = s1 ++ c :: k :: s2.
Proof.
  revert top. induction s as [|x s IH]; intros top Hch Hi Hk Hin; [now apply not_elem_of_nil in Hin|].
  destruct Hch as (-> & j & Ej & _ & Hr). apply elem_of_cons in Hin as [<-|Hin].
  - assert (j = i) as -> by congruence. rewrite Hk in Hr. destruct s as [|y s]; [done|]. destruct Hr as ([= ->] & _). now exists [], s.
  - destruct (IH _ Hr Hi Hk Hin) as (s1 & s2 & ->). now exists (x :: s1), s2.
Qed.

Lemma chain_top m c s : chain m (Some c) s -> exists r i, s = c :: r /\ m !! c = Some i /\ handle i = hcoro c.
Proof. destruct s as [|d s]; [done|]. intros ([= ->] & i & Ei & Hh & _). eauto. Qed.

(** A walk: the coroutines passed so far and the current one. *)
Record onWay (next : gmap coro coro) (pre : list coro) (c : coro) : Prop := {
  way_nodup : NoDup (pre ++ [c]);
  way_known : Forall (fun x => is_Some (sCoros l !! x)) (pre ++ [c]);
  way_linked i x y : (pre ++ [c]) !! i = Some x -> (pre ++ [c]) !! S i = Some y -> next !! x = Some y;
  way_root r i : head (pre ++ [c]) = Some r -> sCoros l !! r = Some i -> waits (state i) = true -> awaitingCoro i = hnull;
  way_stack s1 s2 : stk = s1 ++ c :: s2 -> pre ⊆ s1
}.

Lemma way_short next pre c : onWay next pre c -> (length pre < size (sCoros l))%nat.
Proof.
  intros [Hn Hk _ _ _]. rewrite <- size_dom. assert (list_to_set (pre ++ [c]) ⊆ dom (sCoros l)) as Hsub.
  { intros x Hx. apply elem_of_list_to_set in Hx. rewrite Forall_forall in Hk. apply elem_of_dom. auto. }
  apply subseteq_size in Hsub. rewrite size_list_to_set, length_app in Hsub by done. cbn in Hsub. lia.
Qed.

(** Who waits has one predecessor. *)
Lemma edge_waiting x y i : edge x y -> sCoros l !! y = Some i -> waits (state i) = true -> awaitingCoro i = hcoro x.
Proof.
  intros [(j & Ej & Hs & Hk)|(j & Ej & _ & _ & Ha)] Hy Hw; [|congruence]. exfalso. destruct WF as [W0 _].
  destruct (decide (x ∈ stk)) as [Hx|Hx]; [|rewrite (wf_off _ _ W0 x j Ej Hx) in Hk; done].
  destruct (chain_caller _ _ _ x j y (wf_chain _ _ W0) Ej Hk Hx) as (s1 & s2 & E).
  destruct (stack_running y i) as [H _]; [rewrite E; apply elem_of_app; right; right; left|done|congruence].
Qed.

Lemma way_step next pre c d : edges next -> onWay next pre c -> next !! c = Some d -> onWay next (pre ++ [c]) d.
Proof.
  intros He Hw Hd. destruct Hw as [Hn Hk Hl Hr Hs]. pose proof (He c d Hd) as Hcd. destruct WF as [W0 _].
  assert (d ∉ pre ++ [c] /\ is_Some (sCoros l !! d) /\ forall s1 s2, stk = s1 ++ d :: s2 -> pre ++ [c] ⊆ s1) as (Hnew & Hkd & Hst).
  { destruct Hcd as [(i & Ei & Hact & Hcal)|(i & Ei & _ & Hwt & Haw)].
    - destruct (decide (c ∈ stk)) as [Hc|Hc]; [|rewrite (wf_off _ _ W0 c i Ei Hc) in Hcal; done].
      destruct (chain_caller _ _ _ c i d (wf_chain _ _ W0) Ei Hcal Hc) as (s1 & s2 & E). specialize (Hs s1 (d :: s2) E).
      pose proof (wf_nodup _ _ W0) as Hnd. rewrite E in Hnd.
      assert (pre ++ [c] ⊆ s1 ++ [c]) as Hsub by set_solver.
      assert (d ∉ s1 ++ [c]) as Hd1.
      { replace (s1 ++ c :: d :: s2) with ((s1 ++ [c]) ++ d :: s2) in Hnd by (now rewrite <- app_assoc). apply NoDup_app in Hnd as (_ & Hx & _).
        intros H. apply (Hx d H). left. }
      split; [set_solver|]. split.
      + destruct (chain_live l stk d (wf_chain _ _ W0)) as (j & Ej & _); [rewrite E; apply elem_of_app; right; right; left|eauto].
      + intros t1 t2 Et. rewrite E in Et. replace (s1 ++ c :: d :: s2) with ((s1 ++ [c]) ++ d :: s2) in Et by (now rewrite <- app_assoc).
        replace (s1 ++ c :: d :: s2) with ((s1 ++ [c]) ++ d :: s2) in Hnd by (now rewrite <- app_assoc).
        now rewrite <- (NoDup_split_unique _ _ _ _ _ Hnd Et).
    - split; [|split; [eauto|]].
      + intros Hin. apply list_elem_of_lookup in Hin as [[|k] Hk2].
        * rewrite (Hr d i) in Haw; [done| |done|done]. destruct (pre ++ [c]); [done|]. exact Hk2.
        * destruct (lookup_lt_is_Some_2 (pre ++ [c]) k) as [x Hx]; [apply lookup_lt_Some in Hk2; lia|].
          pose proof (Hl k x d Hx Hk2) as Hxd. pose proof (edge_waiting x d i (He x d Hxd) Ei Hwt) as Hx2. rewrite Haw in Hx2. injection Hx2 as <-.
          assert ((pre ++ [c]) !! length pre = Some c) as Hlast by (rewrite lookup_app_r, Nat.sub_diag by lia; done).
          pose proof (NoDup_lookup _ _ _ _ Hn Hx Hlast) as ->. apply lookup_lt_Some in Hk2. rewrite length_app in Hk2. cbn in Hk2. lia.
      + intros t1 t2 Et. destruct (stack_running d i) as [H _]; [rewrite Et; apply elem_of_app; right; left|done|congruence]. }
  split.
  - apply NoDup_app. split; [done|]. split; [intros x Hx Hx2; apply list_elem_of_singleton in Hx2 as ->; done|apply NoDup_singleton].
  - apply Forall_app. split; [done|]. now constructor.
  - intros i x y Hx Hy. destruct (decide (S i < length (pre ++ [c]))%nat) as [Hlt|Hge].
    + rewrite lookup_app_l in Hx by lia. rewrite lookup_app_l in Hy by lia. eauto.
    + pose proof (lookup_lt_Some _ _ _ Hy) as Hlen. rewrite length_app in Hlen. cbn in Hlen.
      rewrite lookup_app_r in Hy by lia. replace (S i - length (pre ++ [c]))%nat with 0%nat in Hy by lia. injection Hy as <-.
      rewrite length_app in *. cbn in *. assert (i = length pre) as -> by lia.
      rewrite lookup_app_l in Hx by (rewrite length_app; cbn; lia). rewrite lookup_app_r, Nat.sub_diag in Hx by lia. injection Hx as <-. exact Hd.
  - intros r i Hh. apply Hr. destruct (pre ++ [c]) eqn:E; [now apply app_eq_nil in E as [_ ?]|exact Hh].
  - exact Hst.
Qed.

Definition existing (c : coro) : Prop := exists i, sCoros l !! c = Some i /\ exists_ i = true.

Lemma edge_existing x y : edge x y -> existing y.
Proof.
  intros [(i & Ei & _ & Hk)|(i & Ei & Hx & _)]; [|now exists i]. destruct WF as [W0 _].
  destruct (decide (x ∈ stk)) as [Hx|Hx]; [|rewrite (wf_off _ _ W0 x i Ei Hx) in Hk; done].
  destruct (chain_caller _ _ _ x i y (wf_chain _ _ W0) Ei Hk Hx) as (s1 & s2 & E).
  destruct (chain_live l stk y (wf_chain _ _ W0)) as (j & Ej & Hj); [rewrite E; apply elem_of_app; right; right; left|].
  exists j. split; [done|]. unfold exists_. now rewrite Hj.
Qed.

(** The walk ends. *)
Lemma walk_ok next n : forall pre c, edges next -> onWay next pre c -> (size (sCoros l) <= n + length pre + 1)%nat ->
  exists xs, walk n next c = Ret xs /\ Forall (fun x => existing x.1) xs.
Proof.
  induction n as [|n IH]; intros pre c He Hw Hn; (destruct (next !! c) as [d|] eqn:Ed; [|exists []; split; [|done]; cbn [walk]; now rewrite Ed]).
  - pose proof (way_short _ _ _ (way_step _ _ _ _ He Hw Ed)) as Hs. rewrite length_app in Hs. cbn in Hs. lia.
  - pose proof (edge_existing _ _ (He c d Ed)) as Hex. destruct (IH (pre ++ [c]) d He (way_step _ _ _ _ He Hw Ed)) as (xs & E & Hxs).
    { rewrite length_app. cbn. lia. }
    pose proof Hex as (i & Ei & _). cbn [walk]. rewrite Ed. unfold item. rewrite Ei. cbn [mbind outcome_bind]. rewrite E. cbn. eexists. split; [reflexivity|]. now constructor.
Qed.

(** A coroutine that a stack is printed of. *)
Definition rootOk (c : coro) : Prop := exists i, sCoros l !! c = Some i /\ exists_ i = true /\ (waits (state i) = true -> awaitingCoro i = hnull).

Lemma printStack_ok next c remaining : edges next -> rootOk c ->
  exists xs, printStack next c remaining = Ret (xs, remaining ∖ list_to_set (map fst xs)) /\ Forall (fun x => existing x.1) xs.
Proof.
  intros He (i & Ei & Hx & Hr).
  destruct (walk_ok next (size (sCoros l)) [] c He) as (xs & E & Hxs); [|cbn; lia|].
  { split; cbn; [apply NoDup_singleton|now constructor|by intros [|k] x y|intros r j [= <-] Hj; rewrite Ei in Hj; injection Hj as <-; done|by intros s1 s2 _ x ?%not_elem_of_nil]. }
  unfold printStack, item. rewrite Ei. cbn [mbind outcome_bind]. rewrite E. cbn [mbind outcome_bind]. eexists. split; [reflexivity|]. constructor; [now exists i|done].
Qed.

Lemma printStacks_ok next es : forall remaining, edges next -> (forall e, e ∈ es -> e ∈ entries) -> (forall c, c ∈ remaining -> existing c) ->
  exists ps rem', printStacks es next remaining = Ret (ps, rem') /\ rem' = remaining ∖ list_to_set (concat (map (map fst) ps))
    /\ Forall (Forall (fun x => existing x.1)) ps.
Proof.
  induction es as [|[c i] r IH]; intros remaining He Hes Hrem; cbn [printStacks].
  { exists [], remaining. split; [done|]. split; [|done]. cbn. set_solver. }
  assert (forall e, e ∈ r -> e ∈ entries) as Hr by (intros e Hin; apply Hes; now right).
  destruct (bool_decide (c ∈ remaining) && _ && _) eqn:Ec; [|now apply IH].
  apply andb_true_iff in Ec as [Ec Ea]. apply andb_true_iff in Ec as [Ec _]. apply bool_decide_eq_true in Ec.
  assert (sCoros l !! c = Some i) as Hc by (apply entry_lookup, Hes; left).
  assert (rootOk c) as Hroot.
  { destruct (Hrem c Ec) as (j & Ej & Hj). exists j. split; [done|]. split; [done|]. assert (j = i) as -> by congruence. intros Hw.
    apply orb_true_iff in Ea as [Ea|Ea]; apply bool_decide_eq_true in Ea; [rewrite Ea in Hw; done|done]. }
  destruct (printStack_ok next c remaining He Hroot) as (xs & E & Hxs). rewrite E. cbn [mbind outcome_bind fst snd].
  destruct (IH (remaining ∖ list_to_set (map fst xs)) He Hr) as (ps & rem' & E2 & -> & Hps); [intros x Hx; apply Hrem; set_solver|].
  rewrite E2. cbn [mbind outcome_bind fst snd]. eexists _, _. split; [reflexivity|]. split; [|now constructor]. cbn [map concat]. rewrite list_to_set_app_L. set_solver.
Qed.

(** Every coroutine that a report mentions. *)
Definition mentioned (r : report) : list coro := map fst (currentStack r) ++ concat (map (map fst) (stacks r)) ++ others r.

(** [logStacks] ends, however coroutines await each other, and does not abort; it lists the coroutines that exist, all of them and no other, and
    as being on no stack those that are on none. *)
Theorem log_stacks_ok :
  exists r, logStacks = Ret r /\ (forall c, c ∈ mentioned r <-> existing c)
    /\ forall c, c ∈ others r -> c ∉ map fst (currentStack r) /\ c ∉ concat (map (map fst) (stacks r)).
Proof.
  unfold logStacks. destruct (buildNext_ok entries ∅ ∅) as (next & E & He); [done|intros x y H; now rewrite lookup_empty in H|].
  rewrite E. cbn [mbind outcome_bind]. set (rem := list_to_set _ ∪ ∅).
  assert (forall c, c ∈ rem <-> existing c) as Hrem.
  { intros c. unfold rem. rewrite union_empty_r_L, elem_of_list_to_set, list_elem_of_fmap. split.
    - intros ([d i] & -> & H). apply list_elem_of_filter in H as [Hx H]. exists i. split; [now apply entry_lookup|done].
    - intros (i & Ei & Hx). exists (c, i). split; [done|]. apply list_elem_of_filter. split; [done|now apply entry_lookup]. }
  assert (exists xs, (match tCurrent l with Some c => printStack next c rem | None => Ret ([], rem) end) = Ret (xs, rem ∖ list_to_set (map fst xs))
            /\ Forall (fun x => existing x.1) xs) as (xs & E1 & Hxs).
  { destruct (tCurrent l) as [c|] eqn:Et; [|exists []; split; [|done]; cbn; now rewrite difference_empty_L]. apply printStack_ok; [done|].
    pose proof (wf_chain _ _ (proj1 WF)) as Hch. rewrite Et in Hch. destruct (chain_top _ _ _ Hch) as (s & i & Es & Ei & Hh).
    destruct (stack_running c i) as [Hw _]; [rewrite Es; left|done|]. exists i. split; [done|]. split; [unfold exists_; now rewrite Hh|congruence]. }
  rewrite E1. cbn [mbind outcome_bind fst snd].
  destruct (printStacks_ok next entries (rem ∖ list_to_set (map fst xs))) as (ps & rem' & E2 & -> & Hps); [done|done|intros c Hc; apply Hrem; set_solver|].
  rewrite E2. cbn [mbind outcome_bind fst snd]. eexists. split; [reflexivity|]. unfold mentioned. cbn [currentStack stacks others].
  assert (forall c, c ∈ concat (map (map fst) ps) -> existing c) as Hin.
  { intros c Hc. clear - Hps Hc. induction Hps as [|p ps Hp Hps IH]; cbn in Hc; [now apply not_elem_of_nil in Hc|]. apply elem_of_app in Hc as [Hc|Hc]; [|auto].
    apply list_elem_of_fmap in Hc as (x & -> & Hx). rewrite Forall_forall in Hp. auto. }
  split.
  - intros c. rewrite !elem_of_app, elem_of_elements, !elem_of_difference, !elem_of_list_to_set, Hrem. split.
    + intros [Hc|[Hc|[[Hc _] _]]]; [|auto|done]. apply list_elem_of_fmap in Hc as (x & -> & Hx). rewrite Forall_forall in Hxs. auto.
    + intros Hc. destruct (decide (c ∈ map fst xs)) as [|H1]; [now left|]. destruct (decide (c ∈ concat (map (map fst) ps))) as [|H2]; [now right; left|]. right. right. done.
  - intros c Hc. rewrite elem_of_elements, !elem_of_difference, !elem_of_list_to_set in Hc. tauto.
Qed.
End log.

(** Coroutine 1 awaits 2, which runs. *)
Definition exampleTable : Lifecycle :=
  mkLifecycle (<[1%positive := CoroInfo (hcoro 1) awaiting None (hcoro 2) None None 1 false]>
    {[2%positive := CoroInfo (hcoro 2) active None hnull None None 2 false]}) (Some 2%positive) 2.

Lemma exampleTable_lookup c i : sCoros exampleTable !! c = Some i ->
  (c = 1%positive /\ i = CoroInfo (hcoro 1) awaiting None (hcoro 2) None None 1 false)
  \/ (c = 2%positive /\ i = CoroInfo (hcoro 2) active None hnull None None 2 false).
Proof. cbn. rewrite lookup_insert_Some, lookup_singleton_Some. naive_solver. Qed.

Lemma exampleTable_wf : wf exampleTable [2%positive].
Proof.
  split; [split|].
  - cbn. split; [done|]. eexists. split; [reflexivity|]. done.
  - apply NoDup_singleton.
  - intros c i [[-> ->]|[-> ->]]%exampleTable_lookup; now right.
  - now intros c i [[-> ->]|[-> ->]]%exampleTable_lookup.
  - constructor; [now left|constructor].
Qed.

Lemma log_stacks_ok_witness :
  exists r, logStacks exampleTable (map_to_list (sCoros exampleTable)) = Ret r /\ 1%positive ∈ mentioned r /\ 2%positive ∈ mentioned r.
Proof.
  destruct (log_stacks_ok exampleTable (map_to_list (sCoros exampleTable)) [2%positive] exampleTable_wf) as (r & E & Hm & _).
  - reflexivity.
  - intros c i [[-> ->]|[-> ->]]%exampleTable_lookup _ H; [|now destruct H]. exists 2%positive. split; [reflexivity|eexists; reflexivity].
  - exists r. split; [exact E|]. split; apply Hm; eexists; (split; [reflexivity|reflexivity]).
Defined.

(** ** Defect *)

(** A coroutine that is ready to run, but does not run, is listed as the current one. *)
Theorem log_all_ready_current :
  let l := play [Created 1 true; SuspendInitial 1; Ready 1] emptyLifecycle in
  tCurrent l = None /\ logAll l (map_to_list (sCoros l)) = Ret [(1%positive, RCurrent)].
Proof. split; vm_compute; reflexivity. Qed.
