(* ===== verification/Scheduler.v ===== *)
(** The coroutine scheduler ([src/Scheduler.cc], [include/crouton/Scheduler.hh]):
    the ready queue, the table of suspended coroutines, [Suspension] and the
    wake-up flag, with the lifecycle table of [Lifecycle.v].  An operation is one
    step here; [SchedulerRace.v] splits [wakeUp] and [scheduleWakers] into their
    atomic accesses. *)

From S2P Require Import Prelude Lifecycle.

(** * Data *)

Record SuspensionImpl := mkImpl {
  _handle : option coro;      (** null once canceled *)
  _scheduler : bool;          (** not null *)
  _wakeMe : bool;
  _visible : bool
}.

(** A function given to [EventLoop::perform]. *)
Inductive job := JSchedule (h : coro) | JFn (fn : Z).

(** The scheduler's view of its [EventLoop]: whether it is running, whether it was
    told to stop since it last returned, and the functions waiting to be called. *)
Record EventLoop := mkLoop {
  _running : bool;
  stopped : bool;
  jobs : list job
}.

Record World := mkWorld {
  _ready : list coro;
  _suspended : gmap coro SuspensionImpl;
  _eventLoop : option EventLoop;
  _woke : bool;
  _ownsEventLoop : bool;
  life : Lifecycle
}.

Definition emptyWorld : World := mkWorld [] ∅ None false false emptyLifecycle.

(** A [Suspension] holds the address of a table entry, which is its key, or null. *)
Abbreviation Suspension := (option coro).

Definition setReady (r : list coro) (w : World) : World :=
  mkWorld r (_suspended w) (_eventLoop w) (_woke w) (_ownsEventLoop w) (life w).
Definition setSuspended (m : gmap coro SuspensionImpl) (w : World) : World :=
  mkWorld (_ready w) m (_eventLoop w) (_woke w) (_ownsEventLoop w) (life w).
Definition setLoop (l : option EventLoop) (own : bool) (w : World) : World :=
  mkWorld (_ready w) (_suspended w) l (_woke w) own (life w).
Definition setWoke (b : bool) (w : World) : World :=
  mkWorld (_ready w) (_suspended w) (_eventLoop w) b (_ownsEventLoop w) (life w).
Definition setLife (l : Lifecycle) (w : World) : World :=
  mkWorld (_ready w) (_suspended w) (_eventLoop w) (_woke w) (_ownsEventLoop w) l.

(** Run a lifecycle call. *)
Definition onLife {A} (m : ST Lifecycle A) : ST World A := zoom life setLife m.

Definition handleOf (h : option coro) : coro_handle :=
  match h with Some c => hcoro c | None => hnull end.

(** * The event loop *)

Definition loopStop (l : EventLoop) : EventLoop := mkLoop (_running l) true (jobs l).

Definition perform (j : job) (l : EventLoop) : EventLoop :=
  mkLoop (_running l) (stopped l) (jobs l ++ [j]).

(** [eventLoop()]: creates one if there is none.  [cur] is [isCurrent()]. *)
Definition eventLoop (cur : bool) : ST World EventLoop :=
  l ← gets _eventLoop;
  match l with
  | Some l => mret l
  | None =>
      assert cur;;
      let l := mkLoop false false [] in
      modify (setLoop (Some l) true);;
      mret l
  end.

Definition useEventLoop (cur : bool) (l : EventLoop) : ST World unit :=
  assert cur;;
  old ← gets _eventLoop;
  assert (bool_decide (~ is_Some old));;
  modify (setLoop (Some l) false).

(** * Wake-ups *)

Definition wakeUpLoop (cur : bool) : ST World unit :=
  l ← gets _eventLoop;
  own ← gets _ownsEventLoop;
  if cur then
    match l with
    | Some l => when (_running l) (modify (setLoop (Some (loopStop l)) own))
    | None => mret tt
    end
  else
    match l with
    | Some l => modify (setLoop (Some (loopStop l)) own)
    | None => crash AssertFailed
    end.

(** [Scheduler::wakeUp]: the first call since the flag was cleared stops the loop. *)
Definition wakeUp (cur : bool) : ST World unit :=
  was ← gets _woke;
  modify (setWoke true);;
  when (negb was) (wakeUpLoop cur).

Definition putImpl (k : coro) (i : SuspensionImpl) : ST World unit :=
  modify (fun w => setSuspended (<[k := i]> (_suspended w)) w).

(** The entry a [Suspension] points to; it is dangling if the entry is gone. *)
Definition getImpl (k : coro) : ST World SuspensionImpl := fun w =>
  match _suspended w !! k with
  | Some i => Ret (i, w)
  | None => Fault OutOfBounds
  end.

(** [SuspensionImpl::wakeUp]. *)
Definition implWakeUp (cur : bool) (k : coro) : ST World unit :=
  i ← getImpl k;
  assert (_visible i);;
  if _wakeMe i then mret tt
  else
    putImpl k (mkImpl (_handle i) (_scheduler i) true false);;
    onLife (ready (handleOf (_handle i)));;
    assert (_scheduler i);;
    putImpl k (mkImpl (_handle i) false true false);;
    wakeUp cur.

(** [SuspensionImpl::cancel]. *)
Definition implCancel (cur : bool) (k : coro) : ST World unit :=
  i ← getImpl k;
  assert (_visible i);;
  if _wakeMe i then putImpl k (mkImpl None (_scheduler i) true true)
  else
    putImpl k (mkImpl None (_scheduler i) true false);;
    assert (_scheduler i);;
    putImpl k (mkImpl None false true false);;
    wakeUp cur.

(** [Suspension::wakeUp] and [Suspension::cancel]; the result is the new, null,
    value of the Suspension. *)
Definition suspensionWakeUp (cur : bool) (s : Suspension) : ST World Suspension :=
  match s with
  | Some k => implWakeUp cur k;; mret None
  | None => mret None
  end.

Definition suspensionCancel (cur : bool) (s : Suspension) : ST World Suspension :=
  match s with
  | Some k => implCancel cur k;; mret None
  | None => mret None
  end.

(** * Queries *)

Definition wakes (i : SuspensionImpl) : bool := _wakeMe i && bool_decide (is_Some (_handle i)).

Definition hasWakers (w : World) : bool :=
  if _woke w then existsb (fun p => wakes p.2) (map_to_list (_suspended w)) else false.

Definition isIdle (w : World) : bool := negb (hasWakers w) && bool_decide (_ready w = []).

Definition isEmpty (w : World) : bool := isIdle w && bool_decide (_suspended w = ∅).

Definition isReady (h : coro) (w : World) : bool := existsb (fun x => bool_decide (x = h)) (_ready w).

Definition isWaiting (h : coro) (w : World) : bool := bool_decide (is_Some (_suspended w !! h)).

(** Erase the first [h] of a queue. *)
Fixpoint eraseFirst (h : coro) (q : list coro) : list coro :=
  match q with
  | [] => []
  | x :: r => if bool_decide (x = h) then r else x :: eraseFirst h r
  end.

(** * Operations *)

Definition schedule (cur : bool) (h : coro) : ST World unit :=
  assert cur;;
  waiting ← gets (isWaiting h);
  assert (negb waiting);;
  rdy ← gets (isReady h);
  when (negb rdy) (modify (fun w => setReady (_ready w ++ [h]) w)).

Definition onEventLoop (cur : bool) (j : job) : ST World unit :=
  l ← eventLoop cur;
  own ← gets _ownsEventLoop;
  modify (setLoop (Some (perform j l)) own).

Definition adopt (cur : bool) (h : coro) : ST World unit := onEventLoop cur (JSchedule h).

(** The coroutine to run next: [h] itself or, as null, whoever is scheduled. *)
Definition yield (cur : bool) (h : coro) : ST World coro_handle :=
  idle ← gets isIdle;
  if (idle : bool) then mret (hcoro h)
  else schedule cur h;; mret hnull.

Definition resumed (cur : bool) (h : coro) : ST World unit :=
  assert cur;;
  modify (fun w => setReady (eraseFirst h (_ready w)) w).

Definition suspend (cur : bool) (h : coro) : ST World Suspension :=
  assert cur;;
  rdy ← gets (isReady h);
  assert (negb rdy);;
  eventLoop cur;;
  m ← gets _suspended;
  let i := match m !! h with Some i => i | None => mkImpl (Some h) true false false end in
  putImpl h (mkImpl (_handle i) (_scheduler i) (_wakeMe i) true);;
  mret (Some h).

Definition destroying (cur : bool) (h : coro) : ST World unit :=
  assert cur;;
  m ← gets _suspended;
  (match m !! h with
   | Some i =>
       if _wakeMe i then modify (setSuspended (delete h m))
       else
         assert (negb (_visible i));;
         putImpl h (mkImpl None (_scheduler i) true (_visible i))
   | None => mret tt
   end);;
  modify (fun w => setReady (eraseFirst h (_ready w)) w).

(** [finished]; [done] is what the coroutine handle's [done()] says. *)
Definition finished (cur : bool) (h : coro) (done : bool) : ST World unit :=
  assert cur;;
  assert done;;
  rdy ← gets (isReady h); assert (negb rdy);;
  waiting ← gets (isWaiting h); assert (negb waiting).

(** * Picking the next coroutine

    [iter] is the order in which the hash table of suspended coroutines is
    traversed, about which nothing is known but that each entry is visited once. *)

Section iteration.
Context (iter : gmap coro SuspensionImpl -> list (coro * SuspensionImpl)).

(** The loop over the table: what it adds to the queue, and the entries it keeps. *)
Fixpoint scan (es : list (coro * SuspensionImpl)) (q : list coro) (m : gmap coro SuspensionImpl)
  : list coro * gmap coro SuspensionImpl :=
  match es with
  | [] => (q, m)
  | (k, i) :: r =>
      if _wakeMe i
      then scan r (match _handle i with Some h => q ++ [h] | None => q end) (delete k m)
      else scan r q m
  end.

(** One round: the flag is set again only by another thread. *)
Definition scheduleWakers : ST World unit :=
  woke ← gets _woke;
  modify (setWoke false);;
  when woke (modify (fun w =>
    let '(q, m) := scan (iter (_suspended w)) (_ready w) (_suspended w) in
    setSuspended m (setReady q w))).

Definition nextOr (cur : bool) (dflt : coro_handle) : ST World coro_handle :=
  assert cur;;
  scheduleWakers;;
  q ← gets _ready;
  match q with
  | [] => mret dflt
  | h :: r => modify (setReady r);; mret (hcoro h)
  end.

(** [Scheduler::resume], up to the entry into the coroutine it returns. *)
Definition resumeNext (cur : bool) : ST World (option coro) :=
  h ← nextOr cur hnull;
  match h with
  | hcoro c => onLife (resume h);; mret (Some c)
  | _ => mret None
  end.

End iteration.

(** * Specification

    What clients see: the queue, the coroutines woken since the queue was last
    filled, and those still waiting. *)

Record AbsSched := mkAbs {
  queue : list coro;
  wokenSet : gset coro;
  waitingSet : gset coro
}.

Definition woken (w : World) : gset coro := dom (filter (fun p => wakes p.2 = true) (_suspended w)).
Definition waiting (w : World) : gset coro :=
  dom (filter (fun p => _wakeMe p.2 = false) (_suspended w)).

Definition abs (w : World) : AbsSched := mkAbs (_ready w) (woken w) (waiting w).

(** An entry of the table is either fresh (its Suspension is outside, its
    coroutine waits) or spent (woken, canceled). *)
Definition entryOk (k : coro) (i : SuspensionImpl) : Prop :=
  if _wakeMe i then _visible i = false /\ (_handle i = Some k \/ _handle i = None)
  else _visible i = true /\ _scheduler i = true /\ _handle i = Some k.

Record inv (w : World) : Prop := {
  inv_nodup : NoDup (_ready w);
  inv_ready h : h ∈ _ready w -> _suspended w !! h = None;
  inv_entry k i : _suspended w !! k = Some i -> entryOk k i;
  inv_woke k i : _suspended w !! k = Some i -> wakes i = true -> _woke w = true;
  inv_loop k i : _suspended w !! k = Some i -> is_Some (_eventLoop w)
}.

(** The operations, as one type; [cur] says whether a call comes from the
    scheduler's own thread, where that may vary. *)
Inductive op :=
| Schedule (h : coro)
| Yield (h : coro)
| Resumed (h : coro)
| Suspend (h : coro)
| WakeUp (cur : bool) (h : coro)
| Cancel (cur : bool) (h : coro)
| Destroying (h : coro)
| Adopt (cur : bool) (h : coro)
| Next.

Definition runOp (iter : gmap coro SuspensionImpl -> list (coro * SuspensionImpl)) (o : op)
  : ST World coro_handle :=
  match o with
  | Schedule h => schedule true h;; mret hnull
  | Yield h => yield true h
  | Resumed h => resumed true h;; mret hnull
  | Suspend h => s ← suspend true h; mret (handleOf s)
  | WakeUp cur h => s ← suspensionWakeUp cur (Some h); mret (handleOf s)
  | Cancel cur h => s ← suspensionCancel cur (Some h); mret (handleOf s)
  | Destroying h => destroying true h;; mret hnull
  | Adopt cur h => adopt cur h;; mret hnull
  | Next => nextOr iter true hnull
  end.

(** When an operation is legal. *)
Definition opOk (o : op) (w : World) : Prop :=
  match o with
  | Schedule h | Yield h => _suspended w !! h = None
  | Suspend h => h ∉ _ready w /\ _suspended w !! h = None
  | WakeUp _ h => h ∈ waiting w /\ live (life w) h /\ stateOf (life w) h <> Some ending
  | Cancel _ h => h ∈ waiting w
  | Destroying h => h ∉ waiting w
  | Adopt cur _ => cur = true \/ is_Some (_eventLoop w)
  | Resumed _ | Next => True
  end.

Definition enqueue (h : coro) (q : list coro) : list coro :=
  if bool_decide (h ∈ q) then q else q ++ [h].

(** What an operation does and returns. *)
Definition specStep (o : op) (a : AbsSched) (r : coro_handle) (a' : AbsSched) : Prop :=
  match o with
  | Schedule h => r = hnull /\ a' = mkAbs (enqueue h (queue a)) (wokenSet a) (waitingSet a)
  | Yield h =>
      if bool_decide (queue a = [] /\ wokenSet a = ∅) then r = hcoro h /\ a' = a
      else r = hnull /\ a' = mkAbs (enqueue h (queue a)) (wokenSet a) (waitingSet a)
  | Resumed h => r = hnull /\ a' = mkAbs (eraseFirst h (queue a)) (wokenSet a) (waitingSet a)
  | Suspend h => r = hcoro h /\ a' = mkAbs (queue a) (wokenSet a) ({[h]} ∪ waitingSet a)
  | WakeUp _ h => r = hnull /\ a' = mkAbs (queue a) ({[h]} ∪ wokenSet a) (waitingSet a ∖ {[h]})
  | Cancel _ h => r = hnull /\ a' = mkAbs (queue a) (wokenSet a) (waitingSet a ∖ {[h]})
  | Destroying h => r = hnull /\ a' = mkAbs (eraseFirst h (queue a)) (wokenSet a ∖ {[h]}) (waitingSet a)
  | Adopt _ _ => r = hnull /\ a' = a
  | Next =>
      exists order, order ≡ₚ elements (wokenSet a) /\
        match queue a ++ order with
        | [] => r = hnull /\ a' = a
        | h :: q => r = hcoro h /\ a' = mkAbs q ∅ (waitingSet a)
        end
  end.

(** * Lemmas *)

Lemma elem_of_woken w h : h ∈ woken w <-> exists i, _suspended w !! h = Some i /\ wakes i = true.
Proof.
  unfold woken. rewrite elem_of_dom. unfold is_Some. setoid_rewrite map_lookup_filter_Some. done.
Qed.

Lemma elem_of_waiting w h : h ∈ waiting w <-> exists i, _suspended w !! h = Some i /\ _wakeMe i = false.
Proof.
  unfold waiting. rewrite elem_of_dom. unfold is_Some. setoid_rewrite map_lookup_filter_Some. done.
Qed.

Lemma isReady_spec h w : isReady h w = bool_decide (h ∈ _ready w).
Proof.
  unfold isReady. apply eq_true_iff_eq. rewrite existsb_exists, bool_decide_eq_true.
  setoid_rewrite bool_decide_eq_true. setoid_rewrite <- list_elem_of_In. naive_solver.
Qed.

Lemma eraseFirst_sub h q x : x ∈ eraseFirst h q -> x ∈ q.
Proof.
  induction q as [|y q IH]; cbn; [done|]. case_bool_decide; [|rewrite !elem_of_cons]; set_solver.
Qed.

Lemma eraseFirst_nodup h q : NoDup q -> NoDup (eraseFirst h q) /\ h ∉ eraseFirst h q.
Proof.
  induction q as [|y q IH]; cbn; [split; [done|set_solver]|]. intros [Hy Hq]%NoDup_cons.
  destruct (IH Hq) as [? ?]. case_bool_decide; subst; [done|]. split; [|set_solver].
  constructor; [|done]. intros ?%eraseFirst_sub. done.
Qed.

Lemma eraseFirst_other h q x : x <> h -> x ∈ q -> x ∈ eraseFirst h q.
Proof.
  induction q as [|y q IH]; cbn; [done|]. case_bool_decide; rewrite ?elem_of_cons; naive_solver.
Qed.

Lemma woken_flag w : inv w -> woken w <> ∅ -> _woke w = true.
Proof.
  intros H Hn. apply set_choose_L in Hn as [h (i & Hi & Hw)%elem_of_woken]. eapply inv_woke; eauto.
Qed.

Lemma hasWakers_spec w : inv w -> hasWakers w = bool_decide (woken w <> ∅).
Proof.
  intros H. unfold hasWakers. apply eq_true_iff_eq. rewrite bool_decide_eq_true.
  assert (existsb (fun p => wakes p.2) (map_to_list (_suspended w)) = true <-> woken w <> ∅) as E.
  { rewrite existsb_exists. split.
    - intros ([k i] & Hin%list_elem_of_In%elem_of_map_to_list & Hw). intros Hempty.
      assert (k ∈ woken w) by (apply elem_of_woken; eauto). set_solver.
    - intros [k (i & Hi & Hw)%elem_of_woken]%set_choose_L. exists (k, i). split; [|done].
      now apply list_elem_of_In, elem_of_map_to_list. }
  destruct (_woke w) eqn:Ew; [done|]. split; [done|]. intros Hn. rewrite (woken_flag w H Hn) in Ew. done.
Qed.

(** The coroutines a scan puts on the queue. *)
Definition wakersOf (es : list (coro * SuspensionImpl)) : list coro :=
  omap (fun p => if _wakeMe p.2 then _handle p.2 else None) es.

Lemma scan_queue es q m : (scan es q m).1 = q ++ wakersOf es.
Proof.
  revert q m. induction es as [|[k i] es IH]; intros q m; cbn; [now rewrite app_nil_r|].
  destruct (_wakeMe i); [|apply IH]. rewrite IH. destruct (_handle i); cbn; [|done].
  now rewrite <- app_assoc.
Qed.

Lemma scan_table es q m k i :
  (scan es q m).2 !! k = Some i <->
  m !! k = Some i /\ forall j, (k, j) ∈ es -> _wakeMe j = false.
Proof.
  revert q m. induction es as [|[d j] es IH]; intros q m; cbn [scan]; [set_solver|].
  setoid_rewrite elem_of_cons. destruct (_wakeMe j) eqn:E; rewrite IH; clear IH.
  - rewrite lookup_delete_Some. split.
    + intros [[Hd Hk] H]. split; [done|]. intros j' [[= -> ->]|?]; [done|eauto].
    + intros [Hk H]. split_and!; [|done|eauto]. intros ->. rewrite (H j) in E; [done|auto].
  - split; [|naive_solver]. intros [Hk H]. split; [done|]. intros j' [[= -> ->]|?]; [done|eauto].
Qed.

Section next.
Context (iter : gmap coro SuspensionImpl -> list (coro * SuspensionImpl)).
Hypothesis iter_perm : forall m, iter m ≡ₚ map_to_list m.

Lemma elem_of_iter m k i : (k, i) ∈ iter m <-> m !! k = Some i.
Proof. now rewrite iter_perm, elem_of_map_to_list. Qed.

(** The table and queue after a scan. *)
Lemma scanned_table w k i :
  (scan (iter (_suspended w)) (_ready w) (_suspended w)).2 !! k = Some i
  <-> _suspended w !! k = Some i /\ _wakeMe i = false.
Proof.
  rewrite scan_table. setoid_rewrite elem_of_iter. split; [naive_solver|].
  intros [Hk Hw]. split; [done|]. intros j. rewrite Hk. now intros [= <-].
Qed.

Lemma elem_of_wakersOf es h :
  h ∈ wakersOf es <-> exists k i, (k, i) ∈ es /\ _wakeMe i = true /\ _handle i = Some h.
Proof.
  unfold wakersOf. rewrite list_elem_of_omap. split.
  - intros ([k i] & Hin & H). cbn in H. destruct (_wakeMe i) eqn:E; [|done]. eauto.
  - intros (k & i & Hin & Hw & Hh). exists (k, i). cbn. rewrite Hw. auto.
Qed.

Lemma wakersOf_nodup m : (forall k i, m !! k = Some i -> entryOk k i) -> NoDup (wakersOf (iter m)).
Proof.
  intros Hm. assert (NoDup (iter m).*1) as Hn by (rewrite iter_perm; apply NoDup_fst_map_to_list).
  assert (forall k i, (k, i) ∈ iter m -> entryOk k i) as He by (intros k i; rewrite elem_of_iter; auto).
  clear Hm. induction (iter m) as [|[k i] es IH]; [constructor|].
  cbn in Hn. apply NoDup_cons in Hn as [Hk Hn].
  assert (NoDup (wakersOf es)) as IH' by (apply IH; [done|]; intros; apply He; set_solver).
  cbn. destruct (_wakeMe i) eqn:E; [|done]. destruct (_handle i) as [h|] eqn:Eh; cbn; [|done].
  constructor; [|done]. rewrite elem_of_wakersOf. intros (k' & i' & Hin & Hw' & Hh').
  pose proof (He k i ltac:(set_solver)) as H1. pose proof (He k' i' ltac:(set_solver)) as H2.
  unfold entryOk in H1, H2. rewrite E in H1. rewrite Hw' in H2.
  assert (k = k') as -> by naive_solver congruence. apply Hk, list_elem_of_fmap. now exists (k', i').
Qed.

Lemma wakersOf_woken w : inv w -> wakersOf (iter (_suspended w)) ≡ₚ elements (woken w).
Proof.
  intros H. apply NoDup_Permutation; [apply wakersOf_nodup, H|apply NoDup_elements|].
  intros h. rewrite elem_of_elements, elem_of_wakersOf, elem_of_woken. setoid_rewrite elem_of_iter.
  unfold wakes. split.
  - intros (k & i & Hk & Hw & Hh). pose proof (inv_entry w H k i Hk) as He. unfold entryOk in He.
    rewrite Hw in He. destruct He as [_ [He|He]]; rewrite He in Hh; [|done]. injection Hh as ->.
    exists i. split; [done|]. rewrite Hw. apply bool_decide_eq_true. rewrite He. eauto.
  - intros (i & Hi & [Hw [h' Hh]%bool_decide_eq_true]%andb_prop).
    pose proof (inv_entry w H h i Hi) as He. unfold entryOk in He. rewrite Hw in He.
    exists h, i. split_and!; [done..|]. destruct He as [_ [He|He]]; congruence.
Qed.

(** [scheduleWakers] moves the woken coroutines to the end of the queue. *)
Lemma scheduleWakers_ok w :
  inv w -> exists order w', scheduleWakers iter w = Ret (tt, w') /\ inv w'
    /\ order ≡ₚ elements (woken w) /\ _ready w' = _ready w ++ order
    /\ woken w' = ∅ /\ waiting w' = waiting w /\ _woke w' = false /\ life w' = life w
    /\ _eventLoop w' = _eventLoop w.
Proof.
  intros H. unfold scheduleWakers, gets, modify, mbind, ST_bind, when.
  destruct (_woke w) eqn:Ew; cbn [mret ST_ret].
  - cbn [_suspended setWoke _ready].
    destruct (scan (iter (_suspended w)) (_ready w) (_suspended w)) as [q m] eqn:Es.
    pose proof (scan_queue (iter (_suspended w)) (_ready w) (_suspended w)) as Hq. rewrite Es in Hq.
    pose proof (scanned_table w) as Hm. rewrite Es in Hm. cbn in Hq, Hm. subst q.
    exists (wakersOf (iter (_suspended w))). eexists. split; [reflexivity|].
    pose proof (wakersOf_woken w H) as Hp. split_and!; try done; cbn.
    + split; cbn.
      * apply NoDup_app. split_and!; [apply H| |rewrite Hp; apply NoDup_elements].
        intros h Hh. rewrite Hp, elem_of_elements, elem_of_woken. intros (i & Hi & _).
        rewrite (inv_ready w H h Hh) in Hi. done.
      * intros h. rewrite elem_of_app, Hp, elem_of_elements, elem_of_woken. intros Hh.
        destruct (m !! h) as [i|] eqn:E; [|done]. apply Hm in E as [E Hw]. destruct Hh as [Hh|(j & Hj & Hwj)].
        -- rewrite (inv_ready w H h Hh) in E. done.
        -- rewrite E in Hj. injection Hj as <-. unfold wakes in Hwj. rewrite Hw in Hwj. done.
      * intros k i [Hk _]%Hm. eapply inv_entry; eauto.
      * intros k i [Hk Hw]%Hm. unfold wakes. now rewrite Hw.
      * intros k i [Hk _]%Hm. eapply inv_loop; eauto.
    + apply set_eq. intros h. rewrite elem_of_woken. cbn. setoid_rewrite Hm. split; [|set_solver].
      intros (i & [_ Hw] & Hwk). unfold wakes in Hwk. rewrite Hw in Hwk. done.
    + apply set_eq. intros h. rewrite !elem_of_waiting. cbn. setoid_rewrite Hm. naive_solver.
  - assert (woken w = ∅) as Hno.
    { destruct (decide (woken w = ∅)) as [|Hne]; [done|]. rewrite (woken_flag w H Hne) in Ew. done. }
    exists [], (setWoke false w). split_and!; try done.
    + destruct H. split; cbn; try done. intros k i Hk Hw.
      rewrite (inv_woke0 k i Hk Hw) in Ew. done.
    + now rewrite Hno, elements_empty.
    + cbn. now rewrite app_nil_r.
Qed.

Lemma nextOr_ok w :
  inv w -> exists r w', nextOr iter true hnull w = Ret (r, w') /\ inv w' /\ specStep Next (abs w) r (abs w').
Proof.
  intros H. destruct (scheduleWakers_ok w H) as (order & w1 & E & H1 & Hp & Hr & Hw & Hwt & Hwk & _).
  unfold nextOr, assert, mbind, ST_bind. rewrite E. unfold gets. rewrite Hr.
  destruct (_ready w ++ order) as [|h q] eqn:Eq.
  - eexists _, _. split_and!; [done|done|]. exists order. split; [done|]. change (queue (abs w)) with (_ready w). rewrite Eq.
    split; [done|]. unfold abs. rewrite Hr, Hw, Hwt. apply app_eq_nil in Eq as [-> ->].
    f_equal. symmetry in Hp. apply Permutation_nil_r in Hp. now apply elements_empty_inv, leibniz_equiv in Hp.
  - unfold modify, mret, ST_ret. eexists _, _. split_and!; [done| |].
    + destruct H1. rewrite Hr in *. apply NoDup_cons in inv_nodup0 as [? ?].
      split; cbn; try done. intros x Hx. apply inv_ready0. set_solver.
    + exists order. split; [done|]. change (queue (abs w)) with (_ready w). rewrite Eq. split; [done|]. unfold abs. cbn.
      f_equal; [exact Hw|exact Hwt].
Qed.

End next.

(** Replacing one entry of the table. *)
Lemma put_waiting w w' h i :
  _suspended w' = <[h := i]> (_suspended w) ->
  waiting w' = if _wakeMe i then waiting w ∖ {[h]} else {[h]} ∪ waiting w.
Proof.
  intros E. apply set_eq. intros k. rewrite elem_of_waiting, E.
  destruct (_wakeMe i) eqn:Ei; rewrite ?elem_of_difference, ?elem_of_union, elem_of_singleton, elem_of_waiting;
    (destruct (decide (k = h)) as [->|]; [rewrite lookup_insert_eq|rewrite lookup_insert_ne by done]);
    naive_solver congruence.
Qed.

Lemma put_woken w w' h i :
  _suspended w' = <[h := i]> (_suspended w) ->
  woken w' = if wakes i then {[h]} ∪ woken w else woken w ∖ {[h]}.
Proof.
  intros E. apply set_eq. intros k. rewrite elem_of_woken, E.
  destruct (wakes i) eqn:Ei; rewrite ?elem_of_difference, ?elem_of_union, elem_of_singleton, elem_of_woken;
    (destruct (decide (k = h)) as [->|]; [rewrite lookup_insert_eq|rewrite lookup_insert_ne by done]);
    naive_solver congruence.
Qed.

Lemma inv_put w w' h i :
  inv w -> h ∉ _ready w -> entryOk h i ->
  _ready w' = _ready w -> _suspended w' = <[h := i]> (_suspended w) ->
  (wakes i = true -> _woke w' = true) -> (_woke w = true -> _woke w' = true) ->
  is_Some (_eventLoop w') -> inv w'.
Proof.
  intros [Hn Hr He Hw Hl] Hh Hi Er Es Hk Hk' Hl'. split; rewrite ?Er, ?Es; [done| | | |done].
  - intros x Hx. rewrite lookup_insert_ne by set_solver. auto.
  - intros k j [[<- <-]|[_ Hj]]%lookup_insert_Some; auto.
  - intros k j [[<- <-]|[_ Hj]]%lookup_insert_Some; eauto.
Qed.

Lemma waiting_entry w h :
  inv w -> h ∈ waiting w ->
  _suspended w !! h = Some (mkImpl (Some h) true false true) /\ h ∉ _ready w /\ is_Some (_eventLoop w)
  /\ h ∉ woken w.
Proof.
  intros H ([hd sc wk vi] & Hi & Hw)%elem_of_waiting. pose proof (inv_entry w H h _ Hi) as He.
  unfold entryOk in He. cbn in Hw, He. subst wk. cbn in He. destruct He as (-> & -> & ->). split_and!; [done| |eapply inv_loop; eauto|].
  - intros Hr. rewrite (inv_ready w H h Hr) in Hi. done.
  - rewrite elem_of_woken. intros (j & Hj & Hwj). rewrite Hi in Hj. injection Hj as <-. done.
Qed.

(** [wakeUp] sets the flag and touches nothing but it and the event loop. *)
Lemma wakeUp_ok cur w :
  is_Some (_eventLoop w) -> exists w', wakeUp cur w = Ret (tt, w')
    /\ _ready w' = _ready w /\ _suspended w' = _suspended w /\ _woke w' = true
    /\ is_Some (_eventLoop w') /\ life w' = life w.
Proof.
  destruct w as [r m lo k own li]. intros [l Hl]. cbn in Hl. subst lo.
  unfold wakeUp, wakeUpLoop, gets, modify, mbind, ST_bind, when. cbn.
  destruct k; cbn; [|destruct cur; [destruct (_running l)|]]; (eexists; split; [reflexivity|]);
    split_and!; try done; cbn; eauto.
Qed.

Lemma implWakeUp_ok cur w h :
  inv w -> h ∈ waiting w -> live (life w) h -> stateOf (life w) h <> Some ending ->
  exists w', implWakeUp cur h w = Ret (tt, w') /\ inv w'
    /\ abs w' = mkAbs (_ready w) ({[h]} ∪ woken w) (waiting w ∖ {[h]})
    /\ _suspended w' = <[h := mkImpl (Some h) false true false]> (_suspended w)
    /\ ready (hcoro h) (life w) = Ret (tt, life w').
Proof.
  intros H Hw Hl He. destruct (waiting_entry w h H Hw) as (Hi & Hr & Hlp & Hnw).
  destruct (getInfo_live _ h Hl) as (info & Hinfo & Eg).
  unfold implWakeUp, getImpl, assert, putImpl, modify, mbind, ST_bind. rewrite Hi.
  cbn [_visible _wakeMe _handle _scheduler handleOf].
  assert (exists l', ready (hcoro h) (life w) = Ret (tt, l')) as [l' El].
  { unfold ready, mbind, ST_bind. rewrite Eg. cbn [snd]. case_bool_decide; cbn [negb]; [eauto|].
    rewrite readyInfo_ok by (eapply stateOf_ne; eauto). eauto. }
  unfold onLife, zoom. cbn [life setSuspended]. rewrite El.
  match goal with |- context [wakeUp cur ?w1] => destruct (wakeUp_ok cur w1) as (w2 & -> & Er & Es & Ek & Elp & Eli);
    [exact Hlp|] end.
  cbn in Er, Es, Eli. rewrite insert_insert_eq in Es. exists w2. split; [done|].
  pose proof (put_waiting w w2 h _ Es) as E1. pose proof (put_woken w w2 h _ Es) as E2. cbn in E1, E2.
  split; [|split_and!; [unfold abs; now rewrite Er, E1, E2|exact Es|now rewrite Eli]].
  apply (inv_put w w2 h _ H Hr) in Es; try done. split; [done|auto].
Qed.

Lemma implCancel_ok cur w h :
  inv w -> h ∈ waiting w ->
  exists w', implCancel cur h w = Ret (tt, w') /\ inv w'
    /\ abs w' = mkAbs (_ready w) (woken w) (waiting w ∖ {[h]})
    /\ _suspended w' = <[h := mkImpl None false true false]> (_suspended w) /\ life w' = life w.
Proof.
  intros H Hw. destruct (waiting_entry w h H Hw) as (Hi & Hr & Hlp & Hnw).
  unfold implCancel, getImpl, assert, putImpl, modify, mbind, ST_bind. rewrite Hi.
  cbn [_visible _wakeMe _handle _scheduler handleOf].
  match goal with |- context [wakeUp cur ?w1] => destruct (wakeUp_ok cur w1) as (w2 & -> & Er & Es & Ek & Elp & Eli);
    [exact Hlp|] end.
  cbn in Er, Es, Eli. rewrite insert_insert_eq in Es. exists w2. split; [done|].
  pose proof (put_waiting w w2 h _ Es) as E1. pose proof (put_woken w w2 h _ Es) as E2. cbn in E1, E2.
  split; [|split_and!; [unfold abs; rewrite Er, E1, E2; f_equal; set_solver|exact Es|exact Eli]].
  apply (inv_put w w2 h _ H Hr) in Es; try done. split; [done|auto].
Qed.

(** Changes that leave the table alone. *)
Lemma inv_queue w w' :
  inv w -> NoDup (_ready w') -> (forall h, h ∈ _ready w' -> _suspended w !! h = None) ->
  _suspended w' = _suspended w -> _woke w' = _woke w ->
  (is_Some (_eventLoop w) -> is_Some (_eventLoop w')) -> inv w'.
Proof. intros [Hn Hr He Hw Hl] Hn' Hr' Es Ek El. split; rewrite ?Es, ?Ek; eauto. Qed.

Lemma same_table w w' : _suspended w' = _suspended w -> woken w' = woken w /\ waiting w' = waiting w.
Proof. intros E. unfold woken, waiting. now rewrite E. Qed.

Lemma schedule_ok w h :
  inv w -> _suspended w !! h = None ->
  exists w', schedule true h w = Ret (tt, w') /\ inv w'
    /\ abs w' = mkAbs (enqueue h (_ready w)) (woken w) (waiting w).
Proof.
  intros H Hs. unfold schedule, assert, gets, mbind, ST_bind, when.
  unfold isWaiting. rewrite Hs, bool_decide_eq_false_2 by (intros [? ?]; done). cbn [negb].
  rewrite isReady_spec. unfold enqueue. case_bool_decide as Hin; cbn [negb].
  - eexists. split; [reflexivity|]. done.
  - eexists. split; [reflexivity|]. split; [|done]. apply (inv_queue w); try done; cbn.
    + apply NoDup_app. split_and!; [apply H| |apply NoDup_singleton]. set_solver.
    + intros x [Hx|Hx]%elem_of_app; [now apply (inv_ready w H)|].
      apply list_elem_of_singleton in Hx as ->. done.
Qed.

Lemma yield_ok w h :
  inv w -> _suspended w !! h = None ->
  exists r w', yield true h w = Ret (r, w') /\ inv w' /\ specStep (Yield h) (abs w) r (abs w').
Proof.
  intros H Hs. unfold yield, gets, mbind, ST_bind. unfold isIdle. rewrite hasWakers_spec by done.
  assert (negb (bool_decide (woken w <> ∅)) && bool_decide (_ready w = [])
          = bool_decide (_ready w = [] /\ woken w = ∅)) as ->.
  { repeat case_bool_decide; naive_solver. }
  unfold specStep. cbn [queue wokenSet abs]. case_bool_decide.
  - eexists _, _. split_and!; done.
  - destruct (schedule_ok w h H Hs) as (w' & -> & H' & E). eexists _, _. split_and!; [done|done|done|exact E].
Qed.

Lemma resumed_ok w h :
  inv w -> exists w', resumed true h w = Ret (tt, w') /\ inv w'
    /\ abs w' = mkAbs (eraseFirst h (_ready w)) (woken w) (waiting w).
Proof.
  intros H. eexists. split; [reflexivity|]. split; [|done]. apply (inv_queue w); try done; cbn.
  - now apply eraseFirst_nodup, H.
  - intros x Hx%eraseFirst_sub. now apply (inv_ready w H).
Qed.

Lemma suspend_ok w h :
  inv w -> h ∉ _ready w -> _suspended w !! h = None ->
  exists w', suspend true h w = Ret (Some h, w') /\ inv w'
    /\ abs w' = mkAbs (_ready w) (woken w) ({[h]} ∪ waiting w)
    /\ _suspended w' = <[h := mkImpl (Some h) true false true]> (_suspended w) /\ life w' = life w.
Proof.
  intros H Hr Hs. unfold suspend, assert, gets, mbind, ST_bind.
  rewrite isReady_spec, bool_decide_eq_false_2 by done. cbn [negb].
  assert (exists l w1, eventLoop true w = Ret (l, w1) /\ _ready w1 = _ready w /\ _suspended w1 = _suspended w
            /\ _woke w1 = _woke w /\ is_Some (_eventLoop w1) /\ life w1 = life w)
    as (l & w1 & -> & Er & Es & Ek & El & Eli).
  { unfold eventLoop, gets, mbind, ST_bind. destruct (_eventLoop w) as [l|] eqn:E.
    - eexists _, _. split; [reflexivity|]. rewrite E. eauto.
    - cbn. eexists _, _. split; [reflexivity|]. cbn. eauto. }
  rewrite Es, Hs. cbn [_handle _scheduler _wakeMe]. unfold putImpl, modify.
  eexists. split; [reflexivity|].
  match goal with |- inv ?w2 /\ _ => assert (_suspended w2 = <[h := mkImpl (Some h) true false true]> (_suspended w))
    as E2 by (cbn; now rewrite Es) end.
  pose proof (put_waiting w _ h _ E2) as Hw. pose proof (put_woken w _ h _ E2) as Hk. cbn in Hw, Hk.
  split; [|split; [|split; [exact E2|exact Eli]]].
  - apply (inv_put w _ h _ H Hr) in E2; cbn; try done. now rewrite Ek.
  - unfold abs. rewrite Hw, Hk. cbn. rewrite Er. f_equal. unfold woken. apply set_eq. intros x.
    rewrite elem_of_difference, elem_of_singleton, elem_of_dom.
    split; [naive_solver|]. intros Hx. split; [done|]. intros ->. destruct Hx as [i Hi].
    apply map_lookup_filter_Some in Hi as [Hi _]. congruence.
Qed.

Lemma destroying_ok w h :
  inv w -> h ∉ waiting w ->
  exists w', destroying true h w = Ret (tt, w') /\ inv w'
    /\ abs w' = mkAbs (eraseFirst h (_ready w)) (woken w ∖ {[h]}) (waiting w).
Proof.
  intros H Hw. unfold destroying, assert, gets, modify, mbind, ST_bind.
  destruct (_suspended w !! h) as [i|] eqn:Hi.
  - destruct (_wakeMe i) eqn:Ew; [|destruct Hw; apply elem_of_waiting; eauto].
    eexists. split; [reflexivity|]. cbn. split.
    + destruct H as [Hn Hr He Hk Hl]. split; cbn.
      * now apply eraseFirst_nodup.
      * intros x Hx%eraseFirst_sub. rewrite lookup_delete_None. auto.
      * intros k j [_ Hj]%lookup_delete_Some. auto.
      * intros k j [_ Hj]%lookup_delete_Some. eauto.
      * intros k j [_ Hj]%lookup_delete_Some. eauto.
    + unfold abs. cbn. f_equal; apply set_eq; intros x.
      * rewrite elem_of_difference, elem_of_singleton, !elem_of_woken. cbn.
        setoid_rewrite lookup_delete_Some. naive_solver.
      * rewrite !elem_of_waiting. cbn. setoid_rewrite lookup_delete_Some. split; [naive_solver|].
        intros (j & Hj & Hwj). exists j. split_and!; [|done|done]. intros ->. congruence.
  - eexists. split; [reflexivity|]. cbn. split.
    + apply (inv_queue w); try done; cbn; [now apply eraseFirst_nodup, H|].
      intros x Hx%eraseFirst_sub. now apply (inv_ready w H).
    + unfold abs. cbn. f_equal. apply set_eq. intros x. rewrite elem_of_difference, elem_of_singleton.
      split; [|naive_solver]. intros Hx. split; [exact Hx|]. intros ->.
      apply elem_of_woken in Hx as (j & Hj & _). cbn in Hj. congruence.
Qed.

Lemma adopt_ok cur w h :
  inv w -> cur = true \/ is_Some (_eventLoop w) ->
  exists w', adopt cur h w = Ret (tt, w') /\ inv w' /\ abs w' = abs w.
Proof.
  intros H Hc. unfold adopt, onEventLoop, eventLoop, gets, modify, mbind, ST_bind.
  destruct (_eventLoop w) as [l|] eqn:El.
  - eexists. split; [reflexivity|]. split; [|done]. apply (inv_queue w); [done|apply H|apply H|done|done|].
    cbn. eauto.
  - assert (cur = true) as -> by (destruct Hc as [?|[? ?]]; done). cbn.
    eexists. split; [reflexivity|]. split; [|done]. apply (inv_queue w); [done|apply H|apply H|done|done|].
    cbn. eauto.
Qed.

Lemma runOp_ok iter o w :
  (forall m, iter m ≡ₚ map_to_list m) -> inv w -> opOk o w ->
  exists r w', runOp iter o w = Ret (r, w') /\ inv w' /\ specStep o (abs w) r (abs w').
Proof.
  intros Hiter H Hok. destruct o as [h|h|h|h|cur h|cur h|h|cur h|]; cbn [runOp opOk specStep] in *.
  - destruct (schedule_ok w h H Hok) as (w' & E & H' & Ha). unfold mbind, ST_bind. rewrite E. eauto 10.
  - now apply yield_ok.
  - destruct (resumed_ok w h H) as (w' & E & H' & Ha). unfold mbind, ST_bind. rewrite E. eauto 10.
  - destruct Hok as [Hr Hs]. destruct (suspend_ok w h H Hr Hs) as (w' & E & H' & Ha & _).
    unfold mbind, ST_bind. rewrite E. eauto 10.
  - destruct Hok as (Hw & Hl & He). destruct (implWakeUp_ok cur w h H Hw Hl He) as (w' & E & H' & Ha & _).
    unfold suspensionWakeUp, mbind, ST_bind. rewrite E. eauto 10.
  - destruct (implCancel_ok cur w h H Hok) as (w' & E & H' & Ha & _).
    unfold suspensionCancel, mbind, ST_bind. rewrite E. eauto 10.
  - destruct (destroying_ok w h H Hok) as (w' & E & H' & Ha). unfold mbind, ST_bind. rewrite E. eauto 10.
  - destruct (adopt_ok cur w h H Hok) as (w' & E & H' & Ha). unfold mbind, ST_bind. rewrite E. eauto 10.
  - now apply nextOr_ok.
Qed.

Lemma emptyWorld_inv : inv emptyWorld.
Proof. split; cbn; [constructor|done..]. Qed.

(** A sequence of legal operations with what each returned. *)
Inductive runs (iter : gmap coro SuspensionImpl -> list (coro * SuspensionImpl))
  : World -> list (op * coro_handle) -> World -> Prop :=
| runs_nil w : runs iter w [] w
| runs_cons w o r w1 rest w2 :
    opOk o w -> runOp iter o w = Ret (r, w1) -> runs iter w1 rest w2 -> runs iter w ((o, r) :: rest) w2.

(** Operations that take [h] out of the queue without running it. *)
Definition drops (h : coro) (o : op) : Prop := o = Resumed h \/ o = Destroying h.

Lemma eraseFirst_index h x q n :
  x <> h -> q !! n = Some h -> exists m, (m <= n)%nat /\ eraseFirst x q !! m = Some h.
Proof.
  intros Hx. revert n. induction q as [|y q IH]; intros n; [done|]. cbn [eraseFirst].
  case_bool_decide as Hy.
  - subst y. destruct n; cbn; [congruence|]. exists n. split; [lia|done].
  - destruct n as [|n]; cbn; [exists 0%nat; auto|]. intros (m & Hm & E)%IH. exists (S m). split; [lia|done].
Qed.

Lemma enqueue_index x h q n : q !! n = Some h -> enqueue x q !! n = Some h.
Proof. intros E. unfold enqueue. case_bool_decide; [done|]. now apply lookup_app_l_Some. Qed.

(** One step of a queued coroutine towards the front. *)
Lemma queue_progress o a r a' h n :
  specStep o a r a' -> ~ drops h o -> queue a !! n = Some h ->
  (o = Next -> n = O /\ r = hcoro h \/ exists m, n = S m /\ queue a' !! m = Some h)
  /\ (o <> Next -> exists m, (m <= n)%nat /\ queue a' !! m = Some h).
Proof.
  unfold drops. intros Hs Hd Hq. destruct o as [x|x|x|x|c x|c x|x|c x|]; cbn [specStep] in Hs; (split; [intros E; try done|]).
  all: try (intros _; destruct Hs as [-> ->]; cbn; exists n; split; [lia|solve [auto using enqueue_index]]).
  - intros _. case_bool_decide; destruct Hs as [-> ->]; exists n; (split; [lia|]); [done|now apply enqueue_index].
  - intros _. destruct Hs as [-> ->]. apply eraseFirst_index; [intros ->; apply Hd; auto|done].
  - intros _. destruct Hs as [-> ->]. apply eraseFirst_index; [intros ->; apply Hd; auto|done].
  - destruct Hs as (order & _ & Hs). destruct (queue a) as [|y q] eqn:Eq; [done|]. cbn in Hs.
    destruct Hs as [-> ->]. destruct n as [|m]; cbn in Hq; [left; naive_solver|right].
    exists m. split; [done|]. now apply lookup_app_l_Some.
  - done.
Qed.

Lemma op_next_dec (o : op) : {o = Next} + {o <> Next}.
Proof. destruct o; (left; done) || (right; done). Qed.

(** The number of [Next] operations. *)
Fixpoint nexts (tr : list (op * coro_handle)) : nat :=
  match tr with
  | [] => 0
  | (Next, _) :: r => S (nexts r)
  | _ :: r => nexts r
  end.

(** * Properties *)

(** C1: the scheduler implements its specification: from a state satisfying the
    invariant, every legal operation runs without tripping an assertion or
    following a dangling Suspension, keeps the invariant and acts on the queue
    and the sets of woken and waiting coroutines as specified; [Next] is first
    in, first out and takes in every woken coroutine. *)
Theorem scheduler_refines iter o w :
  (forall m, iter m ≡ₚ map_to_list m) -> inv w -> opOk o w ->
  exists r w', runOp iter o w = Ret (r, w') /\ inv w' /\ specStep o (abs w) r (abs w').
Proof. apply runOp_ok. Qed.

(** C5: no starvation: a coroutine with [n] others ahead of it in the queue is
    returned by one of the next [n + 1] calls of [nextOr], whatever other legal
    operations come between them, unless one of them takes it out of the queue: a coroutine that is resumed
    by other means ([resumed]) or destroyed ([destroying]) is no longer in line. *)
Theorem scheduler_fair iter w tr w' h n :
  (forall m, iter m ≡ₚ map_to_list m) -> inv w -> runs iter w tr w' ->
  _ready w !! n = Some h -> (n < nexts tr)%nat -> (forall o r, (o, r) ∈ tr -> ~ drops h o) ->
  (Next, hcoro h) ∈ tr.
Proof.
  intros Hiter Hi Hr. revert Hi n. induction Hr as [w|w o r w1 tr w2 Hok E Hr IH]; intros Hi n Hq Hn Hd.
  - cbn in Hn. lia.
  - destruct (runOp_ok iter o w Hiter Hi Hok) as (r' & w1' & E' & Hi' & Hs).
    rewrite E in E'. injection E' as <- <-.
    destruct (queue_progress o _ r _ h n Hs (Hd o r ltac:(set_solver)) Hq) as [Hp1 Hp2].
    destruct (op_next_dec o) as [->|Hne].
    + destruct (Hp1 eq_refl) as [[-> ->]|(m & -> & Hm)]; [set_solver|].
      apply elem_of_cons. right. apply (IH Hi' m Hm); [cbn in Hn; lia|set_solver].
    + destruct (Hp2 Hne) as (m & Hle & Hm). apply elem_of_cons. right.
      apply (IH Hi' m Hm); [|set_solver]. destruct o; cbn in Hn; (lia || done).
Qed.

Definition exampleWorld : World := mkWorld [1; 2]%positive ∅ None false false emptyLifecycle.

Lemma exampleWorld_inv : inv exampleWorld.
Proof.
  split; cbn; try done. repeat (constructor; [set_solver|]). constructor.
Qed.

Lemma scheduler_refines_witness :
  exists r w', runOp map_to_list (Suspend 3) exampleWorld = Ret (r, w') /\ inv w'
    /\ specStep (Suspend 3) (abs exampleWorld) r (abs w').
Proof.
  apply (scheduler_refines map_to_list (Suspend 3) exampleWorld); [done|apply exampleWorld_inv|].
  split; [cbn; set_solver|done].
Defined.

Lemma scheduler_fair_witness :
  exists tr w', runs map_to_list exampleWorld tr w' /\ (Next, hcoro 2) ∈ tr.
Proof.
  assert (exists w', runs map_to_list exampleWorld
    [(Next, hcoro 1); (Suspend 1, hcoro 1); (Next, hcoro 2)] w') as [w' H].
  { eexists. eapply runs_cons; [done|reflexivity|]. eapply runs_cons; [cbn; split; [set_solver|done]|reflexivity|].
    eapply runs_cons; [done|reflexivity|]. apply runs_nil. }
  exists [(Next, hcoro 1); (Suspend 1, hcoro 1); (Next, hcoro 2)], w'. split; [exact H|].
  apply (scheduler_fair map_to_list exampleWorld _ w' 2 1 ltac:(done) exampleWorld_inv H eq_refl).
  - cbn. lia.
  - intros o r Hin [-> | ->]; set_solver.
Defined.
