(* ===== verification/SchedulerRace.v ===== *)
(** The race between [SuspensionImpl::wakeUp] on any thread and
    [Scheduler::scheduleWakers] on the scheduler's thread ([src/Scheduler.cc]),
    one atomic access per step.

    A waker sets [_wakeMe] of its entry, then uses the entry's other fields, then
    sets [_woke].  The scheduler takes [_woke] and, when it was set, walks the
    table entry by entry.  Threads are numbered; the scheduler's is not one of
    them. *)

From S2P Require Import Prelude Lifecycle.

(** * State *)

(** Where a waker of [k] is: past [_wakeMe.test_and_set()], or past its last use
    of the entry ([_scheduler = nullptr]). *)
Inductive phase := AfterSet (k : coro) | BeforeFlag (k : coro).

Definition phaseKey (p : phase) : coro := match p with AfterSet k | BeforeFlag k => k end.

(** Where the scheduler is: outside the loop, or in the walk with these entries to
    visit. *)
Inductive schedPC := Outside | Walking (ks : list coro).

Record Race := mkRace {
  woke : bool;
  entries : gmap coro bool;      (** the suspended table: [_wakeMe] of each entry *)
  readyQ : list coro;
  pc : schedPC;
  wakers : gmap nat phase
}.

Definition initial : Race := mkRace false ∅ [] Outside ∅.

(** * Steps *)

Inductive step : Race -> Race -> Prop :=
(** [suspend]: a new entry, added by the scheduler's thread outside the walk. *)
| step_suspend w m q ws k :
    m !! k = None ->
    step (mkRace w m q Outside ws) (mkRace w (<[k := false]> m) q Outside ws)
(** A waker that finds the flag clear goes on; the holder of a Suspension calls it once. *)
| step_set w m q p ws t k :
    ws !! t = None -> m !! k = Some false ->
    step (mkRace w m q p ws) (mkRace w (<[k := true]> m) q p (<[t := AfterSet k]> ws))
(** It clears [_visible], reads and clears [_scheduler]: the entry must exist. *)
| step_use w m q p ws t k :
    ws !! t = Some (AfterSet k) -> is_Some (m !! k) ->
    step (mkRace w m q p ws) (mkRace w m q p (<[t := BeforeFlag k]> ws))
(** [_woke.exchange(true)]. *)
| step_flag w m q p ws t k :
    ws !! t = Some (BeforeFlag k) ->
    step (mkRace w m q p ws) (mkRace true m q p (delete t ws))
(** [_woke.exchange(false)] is true: the walk starts, in some order. *)
| step_take m q ws ks :
    ks ≡ₚ elements (dom m) ->
    step (mkRace true m q Outside ws) (mkRace false m q (Walking ks) ws)
(** The walk meets an entry with the flag set: it is queued and erased. *)
| step_wake w m q ks ws k :
    m !! k = Some true ->
    step (mkRace w m q (Walking (k :: ks)) ws) (mkRace w (delete k m) (q ++ [k]) (Walking ks) ws)
| step_skip w m q ks ws k :
    m !! k <> Some true ->
    step (mkRace w m q (Walking (k :: ks)) ws) (mkRace w m q (Walking ks) ws)
(** The walk ends; the loop condition is evaluated again. *)
| step_done w m q ws :
    step (mkRace w m q (Walking []) ws) (mkRace w m q Outside ws).

(** A waker about to use an entry that the scheduler has erased. *)
Definition dangling (s : Race) : Prop :=
  exists t k, wakers s !! t = Some (AfterSet k) /\ entries s !! k = None.

(** Nothing is in progress and there is no reason to walk the table. *)
Definition quiescent (s : Race) : Prop := woke s = false /\ pc s = Outside /\ wakers s = ∅.

(** * Invariant *)

(** An entry with its flag set will be seen: [_woke] is set, or its waker has yet
    to set it, or the walk has yet to reach the entry. *)
Definition willSee (s : Race) (k : coro) : Prop :=
  woke s = true
  \/ (exists t p, wakers s !! t = Some p /\ phaseKey p = k)
  \/ (exists ks, pc s = Walking ks /\ k ∈ ks).

Definition noLost (s : Race) : Prop := forall k, entries s !! k = Some true -> willSee s k.

Lemma step_noLost s s' : noLost s -> step s s' -> noLost s'.
Proof.
  intros H Hst. destruct Hst; intros d Hd; cbn in *; unfold willSee; cbn.
  - apply lookup_insert_Some in Hd as [[_ ?]|[_ Hd]]; [done|]. exact (H d Hd).
  - apply lookup_insert_Some in Hd as [[<- _]|[_ Hd]].
    + right; left. exists t, (AfterSet k). split; [apply lookup_insert_eq|done].
    + destruct (H d Hd) as [?|[(t' & p' & Ht & Hp)|?]]; [auto| |auto].
      right; left. exists t', p'. split; [|done]. cbn in Ht. rewrite lookup_insert_ne; congruence.
  - destruct (H d Hd) as [?|[(t' & p' & Ht & Hp)|?]]; [auto| |auto]. right; left. cbn in Ht.
    destruct (decide (t' = t)) as [->|].
    + exists t, (BeforeFlag k). split; [apply lookup_insert_eq|]. cbn. naive_solver.
    + exists t', p'. split; [now rewrite lookup_insert_ne|done].
  - auto.
  - right; right. exists ks. split; [done|]. rewrite H0, elem_of_elements, elem_of_dom. eauto.
  - apply lookup_delete_Some in Hd as [Hne Hd]. destruct (H d Hd) as [?|[?|(ks' & [= <-] & Hk)]]; [auto..|].
    right; right. exists ks. set_solver.
  - destruct (H d Hd) as [?|[?|(ks' & [= <-] & Hk)]]; [auto..|]. right; right. exists ks.
    split; [done|]. apply elem_of_cons in Hk as [->|]; [contradiction|done].
  - destruct (H d Hd) as [?|[?|(ks' & [= <-] & Hk)]]; [auto..|]. set_solver.
Qed.

Lemma reachable_noLost s : rtc step initial s -> noLost s.
Proof.
  intros H. remember initial as s0. assert (noLost s0) as H0 by (subst; intros k; done).
  clear Heqs0. induction H; eauto using step_noLost.
Qed.

(** * Progress of the walk *)

(** The scheduler alone: what it does from a state to the end of the walk. *)
Fixpoint walk (ks : list coro) (m : gmap coro bool) (q : list coro) : gmap coro bool * list coro :=
  match ks with
  | [] => (m, q)
  | k :: r => if bool_decide (m !! k = Some true) then walk r (delete k m) (q ++ [k]) else walk r m q
  end.

Lemma walk_steps w ks m q ws :
  rtc step (mkRace w m q (Walking ks) ws) (mkRace w (walk ks m q).1 (walk ks m q).2 Outside ws).
Proof.
  revert m q. induction ks as [|k ks IH]; intros m q; cbn [walk].
  - apply rtc_once. constructor.
  - case_bool_decide; (eapply rtc_l; [|apply IH]); now constructor.
Qed.

Lemma walk_queue_mono ks m q x : x ∈ q -> x ∈ (walk ks m q).2.
Proof.
  revert m q. induction ks as [|k ks IH]; intros m q Hx; cbn [walk]; [done|].
  case_bool_decide; apply IH; set_solver.
Qed.

Lemma walk_queues ks m q k : k ∈ ks -> m !! k = Some true -> k ∈ (walk ks m q).2.
Proof.
  revert m q. induction ks as [|d ks IH]; intros m q Hk Hm; [set_solver|]. cbn [walk].
  destruct (decide (d = k)) as [->|Hd].
  - rewrite bool_decide_eq_true_2 by done. apply walk_queue_mono. set_solver.
  - case_bool_decide; apply IH; try set_solver. now rewrite lookup_delete_ne.
Qed.

(** * Properties *)

(** C2: no wake-up is lost, however the threads' accesses interleave: while an entry
    has its flag set, [_woke] is set, or its waker is still about to set it, or
    the scheduler's walk has yet to reach it; so when nothing is in progress no
    suspended coroutine has its flag set. *)
Theorem race_no_lost_wakeup s :
  rtc step initial s ->
  (forall k, entries s !! k = Some true -> willSee s k)
  /\ (quiescent s -> forall k, entries s !! k <> Some true).
Proof.
  intros H%reachable_noLost. split; [exact H|]. intros (Hw & Hp & Hws) k Hk.
  destruct (H k Hk) as [?|[(t & p & Ht & _)|(ks & ? & _)]]; [congruence| |congruence].
  rewrite Hws in Ht. done.
Qed.

(** A wake-up takes effect: once a waker has set [_woke], the scheduler, running
    its loop from outside the walk, puts the coroutine on the ready queue. *)
Theorem race_wakeup_delivered s k :
  woke s = true -> pc s = Outside -> entries s !! k = Some true ->
  exists s', rtc step s s' /\ k ∈ readyQ s' /\ pc s' = Outside /\ wakers s' = wakers s.
Proof.
  destruct s as [w m q p ws]. cbn. intros -> -> Hk.
  eexists. split; [eapply rtc_l; [apply step_take; reflexivity|apply walk_steps]|]. cbn.
  split_and!; [|done|done]. apply walk_queues; [|done]. apply elem_of_elements, elem_of_dom. eauto.
Qed.

(** A waker can be overtaken: between setting [_wakeMe] and using the other fields
    of the entry, the scheduler, woken for another coroutine, erases it. *)
Theorem race_use_after_free : exists s, rtc step initial s /\ dangling s.
Proof.
  exists (mkRace false ∅ [1; 2]%positive (Walking []) {[2%nat := AfterSet 2%positive]}). split.
  2: { exists 2%nat, 2%positive. split; reflexivity. }
  eapply rtc_l; [apply (step_suspend _ _ _ _ 1%positive); reflexivity|].
  eapply rtc_l; [apply (step_suspend _ _ _ _ 2%positive); reflexivity|].
  eapply rtc_l; [apply (step_set _ _ _ _ _ 1%nat 1%positive); reflexivity|].
  eapply rtc_l; [apply (step_use _ _ _ _ _ 1%nat 1%positive); [reflexivity|eauto]|].
  eapply rtc_l; [apply (step_flag _ _ _ _ _ 1%nat 1%positive); reflexivity|].
  eapply rtc_l; [apply (step_set _ _ _ _ _ 2%nat 2%positive); reflexivity|].
  eapply rtc_l; [apply (step_take _ _ _ [1; 2]%positive)|].
  { apply NoDup_Permutation; [|apply NoDup_elements|].
    - repeat (constructor; [set_solver|]). constructor.
    - intros x. rewrite elem_of_elements, elem_of_dom. split.
      + intros [->|[->|[]%elem_of_nil]%elem_of_cons]%elem_of_cons; eauto.
      + intros [b Hb]. repeat apply lookup_insert_Some in Hb as [[<- _]|[_ Hb]]; try set_solver. }
  eapply rtc_l; [apply step_wake; reflexivity|].
  eapply rtc_l; [apply step_wake; reflexivity|].
  apply rtc_refl.
Qed.

(** One coroutine is suspended and its waker is about to set [_woke]. *)
Definition exampleRace : Race :=
  mkRace false {[1%positive := true]} [] Outside {[1%nat := AfterSet 1%positive]}.

Lemma race_no_lost_wakeup_witness : willSee exampleRace 1.
Proof.
  apply (race_no_lost_wakeup exampleRace); [|reflexivity].
  eapply rtc_l; [apply (step_suspend _ _ _ _ 1%positive); reflexivity|].
  eapply rtc_l; [apply (step_set _ _ _ _ _ 1%nat 1%positive); reflexivity|]. apply rtc_refl.
Defined.

Lemma race_wakeup_delivered_witness :
  exists s', rtc step (mkRace true {[1%positive := true]} [] Outside ∅) s' /\ 1%positive ∈ readyQ s'.
Proof.
  destruct (race_wakeup_delivered (mkRace true {[1%positive := true]} [] Outside ∅) 1)
    as (s' & H1 & H2 & _); [reflexivity..|]. exists s'. split; assumption.
Defined.
