(* ===== verification/RunLoop.v ===== *)
(** The main loop of a thread: [Scheduler::runUntil] ([src/Scheduler.cc]) over an event loop ([include/crouton/EventLoop.hh]),
    while coroutines are woken on this and on other threads.

    One step is one atomic access, as in [SchedulerRace.v], or one call of the event loop.  What the scheduler needs of the
    event loop is the interface [EventLoopI]; libuv's loop ([UVEventLoop] of [src/io/uv/UVBase.cc]) provides it here, that of
    the ESP32 in [EspLoop.v].  The scheduler's own thread has the number 0. *)

From S2P Require Import Prelude Lifecycle.

(** * The event loop *)

Class EventLoopI (E : Type) := {
  (** something is there that [runOnce(true)] does not wait for *)
  pending : E -> bool;
  (** [stop(true)], on another thread; and what a wake-up on the loop's own thread does while the loop is running: [stop(false)],
      if the loop says that it [isRunning] *)
  stopRemote : E -> E;
  stopLocal : E -> E;
  (** an event or a function given to [perform] comes *)
  comes : E -> E -> Prop;
  (** [runOnce]: what it takes when it does not wait any longer, what a callback changes, and its end *)
  takes : E -> E;
  handles : E -> E -> Prop;
  returns : E -> E;

  stop_pending e : pending (stopRemote e) = true;
  comes_pending e e' : comes e e' -> pending e = true -> pending e' = true
}.

(** ** libuv

    As documented, a run of the loop that may wait does so until something comes, unless [uv_stop] was called or an
    [uv_async_send] is pending; callbacks are made after the wait; the end of the run forgets [uv_stop]. *)

Record UVEventLoop := mkUVLoop {
  asyncSent : bool;               (** [uv_async_send] is pending *)
  stopFlag : bool;                (** [uv_stop] was called *)
  events : nat                    (** I/O, timers, and functions given to [perform] *)
}.

Definition newUVLoop : UVEventLoop := mkUVLoop false false 0.

(** [_async]'s callback, and any other. *)
Inductive uvHandles (e : UVEventLoop) : UVEventLoop -> Prop :=
| uv_async : asyncSent e = true -> uvHandles e (mkUVLoop false true (events e))
| uv_event n : events e = S n -> uvHandles e (mkUVLoop (asyncSent e) (stopFlag e) n).

(** [stop]. *)
Definition uvStop (threadSafe : bool) (e : UVEventLoop) : UVEventLoop :=
  if threadSafe then mkUVLoop true (stopFlag e) (events e) else mkUVLoop (asyncSent e) true (events e).

#[export] Program Instance uv_event_loop : EventLoopI UVEventLoop := {
  pending e := asyncSent e || stopFlag e || negb (events e =? 0)%nat;
  stopRemote := uvStop true;
  stopLocal := uvStop false;
  comes e e' := e' = mkUVLoop (asyncSent e) (stopFlag e) (S (events e));
  takes e := e;
  handles := uvHandles;
  returns e := mkUVLoop (asyncSent e) false (events e)
}.
Next Obligation. reflexivity. Qed.
Next Obligation. intros e e' -> _. cbn. apply orb_true_r. Qed.

(** * State *)

(** Where a [wakeUp] of [k] is: past [_wakeMe.test_and_set()], past its last use of the entry, or past a
    [_woke.exchange(true)] that gave false. *)
Inductive phase := AfterSet (k : coro) | BeforeFlag (k : coro) | BeforeStop.

(** Where the scheduler's thread is: at the condition of [runUntil]'s loop, at that of [scheduleWakers], in its walk with
    these entries to visit, after it, in a coroutine it resumed, about to wait or to look for events, in a
    callback or between two, or at the end. *)
Inductive loopPC :=
| LTest | LTake | LWalk (ks : list coro) | LNext | LBody (h : coro) | LPoll (waitForIO : bool) | LCallbacks | LDone.

(** The thread is in [runOnce]. *)
Definition inRun (p : loopPC) : bool := match p with LPoll _ | LCallbacks => true | _ => false end.

(** The thread runs code of a coroutine or a callback. *)
Definition inCode (p : loopPC) : bool := match p with LBody _ | LCallbacks => true | _ => false end.

Section loop.
Context {L : Type} {EL : EventLoopI L}.

Record Loop := mkLp {
  woke : bool;
  entries : gmap coro bool;       (** the suspended table: [_wakeMe] of each entry *)
  readyQ : list coro;
  pc : loopPC;
  wakers : gmap nat phase;
  ev : L
}.

Definition startLoop (e : L) : Loop := mkLp false ∅ [] LTest ∅ e.

Definition pollReady (wait : bool) (s : Loop) : bool := negb wait || pending (ev s).

Definition set_pc p s := mkLp (woke s) (entries s) (readyQ s) p (wakers s) (ev s).
Definition set_woke b s := mkLp b (entries s) (readyQ s) (pc s) (wakers s) (ev s).
Definition set_entries m s := mkLp (woke s) m (readyQ s) (pc s) (wakers s) (ev s).
Definition set_readyQ q s := mkLp (woke s) (entries s) q (pc s) (wakers s) (ev s).
Definition set_wakers ws s := mkLp (woke s) (entries s) (readyQ s) (pc s) ws (ev s).
Definition set_ev e s := mkLp (woke s) (entries s) (readyQ s) (pc s) (wakers s) e.

(** * Steps *)

(** The loop of the scheduler's thread: [runUntil], with [resume], [nextOr] and [scheduleWakers]. *)
Inductive loopStep (s : Loop) : Loop -> Prop :=
(** [fn()] *)
| loop_end : pc s = LTest -> loopStep s (set_pc LDone s)
| loop_go : pc s = LTest -> loopStep s (set_pc LTake s)
(** [_woke.exchange(false)] *)
| loop_take ks : pc s = LTake -> woke s = true -> ks ≡ₚ elements (dom (entries s)) -> loopStep s (set_woke false (set_pc (LWalk ks) s))
| loop_none : pc s = LTake -> woke s = false -> loopStep s (set_pc LNext s)
(** an entry of the table *)
| loop_wake k ks : pc s = LWalk (k :: ks) -> entries s !! k = Some true ->
    loopStep s (set_pc (LWalk ks) (set_readyQ (readyQ s ++ [k]) (set_entries (delete k (entries s)) s)))
| loop_skip k ks : pc s = LWalk (k :: ks) -> entries s !! k <> Some true -> loopStep s (set_pc (LWalk ks) s)
| loop_walked : pc s = LWalk [] -> loopStep s (set_pc LTake s)
(** [nextOr] gives a coroutine, which is resumed, or there is none *)
| loop_resume h q : pc s = LNext -> readyQ s = h :: q -> loopStep s (set_pc (LBody h) (set_readyQ q s))
| loop_idle : pc s = LNext -> readyQ s = [] -> loopStep s (set_pc (LPoll true) s)
(** the coroutine suspended or ended; [fn()] may end the loop *)
| loop_back h : pc s = LBody h -> wakers s !! 0 = None -> loopStep s (set_pc (LPoll false) s)
| loop_break h : pc s = LBody h -> wakers s !! 0 = None -> loopStep s (set_pc LDone s)
(** [runOnce]: it waits, makes callbacks, returns *)
| loop_poll w : pc s = LPoll w -> pollReady w s = true -> loopStep s (set_ev (takes (ev s)) (set_pc LCallbacks s))
| loop_handle e : pc s = LCallbacks -> wakers s !! 0 = None -> handles (ev s) e -> loopStep s (set_ev e s)
| loop_return : pc s = LCallbacks -> wakers s !! 0 = None -> loopStep s (set_ev (returns (ev s)) (set_pc LTest s)).

(** What the code of coroutines and callbacks does with the scheduler, and what other threads do. *)
Inductive otherStep (s : Loop) : Loop -> Prop :=
| code_suspend k : inCode (pc s) = true -> wakers s !! 0 = None -> entries s !! k = None -> k ∉ readyQ s ->
    otherStep s (set_entries (<[k := false]> (entries s)) s)
| code_schedule k : inCode (pc s) = true -> wakers s !! 0 = None -> entries s !! k = None ->
    otherStep s (set_readyQ (if bool_decide (k ∈ readyQ s) then readyQ s else readyQ s ++ [k]) s)
(** [_wakeMe.test_and_set()] gives false, on this thread or another *)
| wake_set t k : wakers s !! t = None -> entries s !! k = Some false -> (t = 0 -> inCode (pc s) = true) ->
    otherStep s (set_entries (<[k := true]> (entries s)) (set_wakers (<[t := AfterSet k]> (wakers s)) s))
(** the rest of the entry *)
| wake_use t k : wakers s !! t = Some (AfterSet k) -> is_Some (entries s !! k) ->
    otherStep s (set_wakers (<[t := BeforeFlag k]> (wakers s)) s)
(** [_woke.exchange(true)] *)
| wake_flagged t k : wakers s !! t = Some (BeforeFlag k) -> woke s = true -> otherStep s (set_wakers (delete t (wakers s)) s)
| wake_flag t k : wakers s !! t = Some (BeforeFlag k) -> woke s = false ->
    otherStep s (set_woke true (set_wakers (<[t := BeforeStop]> (wakers s)) s))
(** [_wakeUp] *)
| wake_send t : t <> 0 -> wakers s !! t = Some BeforeStop -> otherStep s (set_ev (stopRemote (ev s)) (set_wakers (delete t (wakers s)) s))
| wake_stop : wakers s !! 0 = Some BeforeStop ->
    otherStep s (set_ev (if inRun (pc s) then stopLocal (ev s) else ev s) (set_wakers (delete 0 (wakers s)) s))
(** something comes for the event loop *)
| event_comes e : comes (ev s) e -> otherStep s (set_ev e s).

Inductive lstep (s s' : Loop) : Prop :=
| by_loop : loopStep s s' -> lstep s s'
| by_other : otherStep s s' -> lstep s s'.

(** The thread waits in [runOnce]. *)
Definition blocked (s : Loop) : Prop := pc s = LPoll true /\ pollReady true s = false.

(** * Invariant *)

Definition wakes (p : phase) (k : coro) : Prop := p = AfterSet k \/ p = BeforeFlag k.

Definition willSee (s : Loop) (k : coro) : Prop :=
  woke s = true \/ (exists t p, wakers s !! t = Some p /\ wakes p k) \/ (exists ks, pc s = LWalk ks /\ k ∈ ks).

Definition dozing (p : loopPC) : bool := match p with LNext | LPoll true => true | _ => false end.

Definition toldToStop (s : Loop) : Prop := pending (ev s) = true \/ exists t, wakers s !! t = Some BeforeStop /\ t <> 0.

Record Inv (s : Loop) : Prop := {
  inv_seen k : entries s !! k = Some true -> willSee s k;
  inv_told : dozing (pc s) = true -> woke s = true -> toldToStop s;
  inv_own : is_Some (wakers s !! 0) -> inCode (pc s) = true;
  inv_queue : pc s = LPoll true -> readyQ s = []
}.

Lemma start_Inv e : Inv (startLoop e).
Proof. split; cbn; try done. intros [? ?]. done. Qed.

Lemma willSee_mono s s' k :
  willSee s k -> (woke s = true -> woke s' = true) ->
  (forall t p, wakers s !! t = Some p -> wakes p k -> woke s' = true \/ exists t' p', wakers s' !! t' = Some p' /\ wakes p' k) ->
  (forall ks, pc s = LWalk ks -> k ∈ ks -> exists ks', pc s' = LWalk ks' /\ k ∈ ks') -> willSee s' k.
Proof.
  intros [Hw|[(t & p & Ht & Hp)|(ks & Hks & Hk)]] H1 H2 H3.
  - left. auto.
  - destruct (H2 t p Ht Hp) as [?|?]; [now left|right; now left].
  - right; right. eauto.
Qed.

Lemma loopStep_seen s s' k : loopStep s s' -> (entries s !! k = Some true -> willSee s k) -> entries s' !! k = Some true -> willSee s' k.
Proof.
  intros Hs H Hk. destruct Hs as [| |ks Hp Hwk Hks| |k0 ks Hp Hk0|k0 ks Hp Hk0| | | | | | | | ]; cbn [entries set_pc set_woke set_entries set_readyQ set_ev] in Hk;
    try (apply (willSee_mono s _ k (H Hk)); cbn; [done|eauto|intros ks' E Hin; congruence]).
  - right; right. exists ks. split; [done|]. rewrite Hks, elem_of_elements, elem_of_dom. eauto.
  - apply lookup_delete_Some in Hk as [Hne Hk]. apply (willSee_mono s _ k (H Hk)); cbn; [done|eauto|]. intros ks' E Hin. rewrite Hp in E. injection E as <-.
    apply elem_of_cons in Hin as [->|Hin]; [done|eauto].
  - apply (willSee_mono s _ k (H Hk)); cbn; [done|eauto|]. intros ks' E Hin. rewrite Hp in E. injection E as <-.
    apply elem_of_cons in Hin as [->|Hin]; [done|eauto].
  - apply (willSee_mono s _ k (H Hk)); cbn; [done|eauto|]. intros ks' E Hin. assert (ks' = []) as -> by congruence. now apply not_elem_of_nil in Hin.
Qed.

Lemma loopStep_Inv s s' : loopStep s s' -> Inv s -> Inv s'.
Proof.
  intros Hs [H1 H2 H3 H4]. split.
  - intros k. eapply loopStep_seen; eauto.
  - destruct Hs; cbn; rewrite ?H; try done; intros _ Hw; [congruence|]. unfold toldToStop in *. cbn. apply H2; [now rewrite H|exact Hw].
  - destruct Hs; cbn; try done; intros Ho; try (specialize (H3 Ho); rewrite H in H3; done); rewrite H0 in Ho; now destruct Ho.
  - destruct Hs; cbn; try done; congruence.
Qed.

(** A step that leaves [_woke], the [wakeUp]s, and what is told to the event loop. *)
Lemma wake_set_lookup (ws : gmap nat phase) t p t' p' : ws !! t = None -> ws !! t' = Some p' -> <[t := p]> ws !! t' = Some p'.
Proof. intros H H'. rewrite lookup_insert_ne; [done|congruence]. Qed.

Lemma otherStep_seen s s' k : otherStep s s' -> (entries s !! k = Some true -> willSee s k) -> entries s' !! k = Some true -> willSee s' k.
Proof.
  intros Hs H Hk. destruct Hs as [k0 Hc Hw He Hq|k0 Hc Hw He|t k0 Ht He Ho|t k0 Ht He|t k0 Ht Hwk|t k0 Ht Hwk|t Hne Ht|Ht|e Hev];
    cbn [entries set_pc set_woke set_entries set_readyQ set_ev set_wakers] in Hk;
    try (apply (willSee_mono s _ k (H Hk)); cbn; eauto; fail).
  - apply lookup_insert_Some in Hk as [[_ ?]|[_ Hk]]; [done|]. apply (willSee_mono s _ k (H Hk)); cbn; eauto.
  - apply lookup_insert_Some in Hk as [[<- _]|[_ Hk]].
    + right; left. exists t, (AfterSet k0). cbn. split; [apply lookup_insert_eq|now left].
    + apply (willSee_mono s _ k (H Hk)); cbn; eauto. intros t' p Ht' Hp. right. exists t', p. split; [now apply wake_set_lookup|done].
  - apply (willSee_mono s _ k (H Hk)); cbn; eauto. intros t' p Ht' Hp. right. destruct (decide (t' = t)) as [->|].
    + exists t, (BeforeFlag k0). split; [apply lookup_insert_eq|]. assert (p = AfterSet k0) as -> by congruence. destruct Hp as [[= ->]|?]; [now right|done].
    + exists t', p. now rewrite lookup_insert_ne.
  - apply (willSee_mono s _ k (H Hk)); cbn; eauto. intros t' p Ht' Hp. right. exists t', p. split; [|done]. rewrite lookup_delete_ne; [done|].
    intros <-. assert (p = BeforeStop) as -> by congruence. destruct Hp; done.
  - apply (willSee_mono s _ k (H Hk)); cbn; eauto. intros t' p Ht' Hp. right. exists t', p. split; [|done]. rewrite lookup_delete_ne; [done|].
    intros <-. assert (p = BeforeStop) as -> by congruence. destruct Hp; done.
Qed.

Lemma otherStep_pc s s' : otherStep s s' -> pc s' = pc s.
Proof. now destruct 1. Qed.

Lemma otherStep_told s s' :
  otherStep s s' -> dozing (pc s) = true -> (is_Some (wakers s !! 0) -> inCode (pc s) = true) -> (woke s = true -> toldToStop s) -> woke s' = true -> toldToStop s'.
Proof.
  intros Hs Hd Ho H Hw. assert (inCode (pc s) = false) as Hc by (destruct (pc s) as [| | | | |[]| |]; done).
  assert (wakers s !! 0 = None) as Hn. { destruct (wakers s !! 0) eqn:E; [|done]. rewrite Ho in Hc by eauto. done. }
  destruct Hs as [k0 Hc'|k0 Hc'|t k0 Ht He Ho'|t k0 Ht He|t k0 Ht Hwk|t k0 Ht Hwk|t Hne Ht|Ht|e Hev]; cbn [woke set_entries set_readyQ set_wakers set_woke set_ev] in Hw;
    try congruence; unfold toldToStop in *; cbn in *.
  - destruct (H Hw) as [?|(t' & Ht' & ?)]; auto. right. exists t'. split; [|done]. now apply wake_set_lookup.
  - destruct (H Hw) as [?|(t' & Ht' & ?)]; auto. right. exists t'. split; [|done]. rewrite lookup_insert_ne; [done|congruence].
  - destruct (H Hw) as [?|(t' & Ht' & ?)]; auto. right. exists t'. split; [|done]. rewrite lookup_delete_ne; [done|congruence].
  - right. exists t. split; [apply lookup_insert_eq|congruence].
  - left. apply stop_pending.
  - destruct (H Hw) as [?|?]; [left; now apply (comes_pending (ev s))|now right].
Qed.

Lemma otherStep_Inv s s' : otherStep s s' -> Inv s -> Inv s'.
Proof.
  intros Hs [H1 H2 H3 H4]. pose proof (otherStep_pc _ _ Hs) as Hp. split.
  - intros k. eapply otherStep_seen; eauto.
  - rewrite Hp. intros Hd. eapply otherStep_told; eauto.
  - rewrite Hp. destruct Hs as [k0 Hc'|k0 Hc'|t k0 Ht He Ho'|t k0 Ht He|t k0 Ht Hwk|t k0 Ht Hwk|t Hne Ht|Ht|e Hev]; cbn; try done; intros Ho;
      try (destruct (decide (t = 0)) as [->|]; [eauto; fail|rewrite ?lookup_insert_ne, ?lookup_delete_ne in Ho by done; auto]); auto.
  - rewrite Hp. intros E. specialize (H4 E). destruct Hs; cbn; try done; rewrite E in *; done.
Qed.

Lemma reachable_Inv e s : rtc lstep (startLoop e) s -> Inv s.
Proof.
  intros H. remember (startLoop e) as s0. assert (Inv s0) as H0 by (subst; apply start_Inv). clear Heqs0.
  induction H as [|s0 s1 s2 Hs _ IH]; [done|]. apply IH. destruct Hs; eauto using loopStep_Inv, otherStep_Inv.
Qed.

(** * Progress *)

(** The walk goes to its end, and queues [k] if it is to be visited and flagged. *)
Lemma walk_on k ks : forall s, pc s = LWalk ks ->
  exists s', rtc loopStep s s' /\ wakers s' = wakers s /\ pc s' = LTake /\ woke s' = woke s
    /\ (k ∈ readyQ s -> k ∈ readyQ s') /\ (k ∈ readyQ s' \/ entries s' !! k = entries s !! k) /\ (k ∈ ks -> entries s !! k = Some true -> k ∈ readyQ s').
Proof.
  induction ks as [|x ks IH]; intros s Hp.
  - exists (set_pc LTake s). split_and!; try done; [apply rtc_once; now constructor|now right|]. intros H. now apply not_elem_of_nil in H.
  - destruct (decide (entries s !! x = Some true)) as [Ex|Ex].
    + destruct (IH (set_pc (LWalk ks) (set_readyQ (readyQ s ++ [x]) (set_entries (delete x (entries s)) s))) eq_refl) as (s' & Hr & Hw & Hpc & Hwk & Hq & He & Hin).
      cbn in *. exists s'. split_and!; try done.
      * eapply rtc_l; [now apply (loop_wake s x ks)|exact Hr].
      * intros H. apply Hq. set_solver.
      * destruct (decide (x = k)) as [->|Hne]; [left; apply Hq; set_solver|]. destruct He as [?|E]; [now left|right]. now rewrite E, lookup_delete_ne.
      * intros H Hk. destruct (decide (x = k)) as [->|Hne]; [apply Hq; set_solver|]. apply Hin; [set_solver|]. now rewrite lookup_delete_ne.
    + destruct (IH (set_pc (LWalk ks) s) eq_refl) as (s' & Hr & Hw & Hpc & Hwk & Hq & He & Hin). cbn in *. exists s'. split_and!; try done.
      * eapply rtc_l; [now apply (loop_skip s x ks)|exact Hr].
      * intros H Hk. apply Hin; [|done]. apply elem_of_cons in H as [->|?]; [done|done].
Qed.

Lemma take_on k s : pc s = LTake -> woke s = true -> entries s !! k = Some true -> exists s', rtc loopStep s s' /\ k ∈ readyQ s'.
Proof.
  intros Hp Hw Hk. destruct (walk_on k (elements (dom (entries s))) (set_woke false (set_pc (LWalk (elements (dom (entries s)))) s)) eq_refl) as (s' & Hr & _ & _ & _ & _ & _ & Hin).
  exists s'. split; [eapply rtc_l; [now apply (loop_take s (elements (dom (entries s))))|exact Hr]|]. apply Hin; [|done]. apply elem_of_elements, elem_of_dom. eauto.
Qed.

Lemma test_on k s : pc s = LTest -> woke s = true -> entries s !! k = Some true -> exists s', rtc loopStep s s' /\ k ∈ readyQ s'.
Proof. intros Hp Hw Hk. destruct (take_on k (set_pc LTake s)) as (s' & Hr & Hq); [done..|]. exists s'. split; [|done]. eapply rtc_l; [now apply loop_go|exact Hr]. Qed.

Lemma callbacks_on k s :
  pc s = LCallbacks -> wakers s = ∅ -> woke s = true -> entries s !! k = Some true -> exists s', rtc loopStep s s' /\ k ∈ readyQ s'.
Proof.
  intros Hp Hn Hw Hk. destruct (test_on k (set_ev (returns (ev s)) (set_pc LTest s))) as (s' & Hr & Hq); [done..|]. exists s'. split; [|done].
  eapply rtc_l; [apply loop_return; [done|now rewrite Hn]|exact Hr].
Qed.

Lemma poll_on k b s :
  pc s = LPoll b -> pollReady b s = true -> wakers s = ∅ -> woke s = true -> entries s !! k = Some true -> exists s', rtc loopStep s s' /\ k ∈ readyQ s'.
Proof.
  intros Hp Hr Hn Hw Hk. destruct (callbacks_on k (set_ev (takes (ev s)) (set_pc LCallbacks s))) as (s' & Hs & Hq); [done..|]. exists s'. split; [|done].
  eapply rtc_l; [now apply (loop_poll s b)|exact Hs].
Qed.

Lemma body_on k h s :
  pc s = LBody h -> wakers s = ∅ -> woke s = true -> entries s !! k = Some true -> exists s', rtc loopStep s s' /\ k ∈ readyQ s'.
Proof.
  intros Hp Hn Hw Hk. destruct (poll_on k false (set_pc (LPoll false) s)) as (s' & Hs & Hq); [done..|]. exists s'. split; [|done].
  eapply rtc_l; [apply (loop_back s h); [done|now rewrite Hn]|exact Hs].
Qed.

Lemma told_ready s : wakers s = ∅ -> toldToStop s -> pollReady true s = true.
Proof. unfold pollReady. intros Hn [-> |(t & Ht & _)]; [done|]. now rewrite Hn in Ht. Qed.

Lemma next_on k s :
  Inv s -> pc s = LNext -> wakers s = ∅ -> woke s = true -> entries s !! k = Some true -> exists s', rtc loopStep s s' /\ k ∈ readyQ s'.
Proof.
  intros HI Hp Hn Hw Hk. destruct (readyQ s) as [|h q] eqn:Eq.
  - destruct (poll_on k true (set_pc (LPoll true) s)) as (s' & Hs & Hq); try done.
    + apply (told_ready s); [done|]. apply (inv_told s HI); [now rewrite Hp|done].
    + exists s'. split; [|done]. eapply rtc_l; [now apply loop_idle|exact Hs].
  - destruct (body_on k h (set_pc (LBody h) (set_readyQ q s))) as (s' & Hs & Hq); try done. exists s'. split; [|done].
    eapply rtc_l; [now apply (loop_resume s h q)|exact Hs].
Qed.

Lemma delivers s k : Inv s -> entries s !! k = Some true -> wakers s = ∅ -> pc s <> LDone -> exists s', rtc loopStep s s' /\ k ∈ readyQ s'.
Proof.
  intros HI Hk Hn Hd.
  destruct (inv_seen s HI k Hk) as [Hw|[(t & p & Ht & _)|(ks & Hp & Hin)]]; [|rewrite Hn in Ht; done|].
  - destruct (pc s) as [| |ks| |h|b| |] eqn:Hp; [now apply test_on|now apply take_on| |now apply next_on|now apply (body_on k h)| |now apply callbacks_on|done].
    + destruct (walk_on k ks s Hp) as (s1 & Hr & Hw1 & Hp1 & Hwk & _ & [Hq|He] & _); [eauto|].
      destruct (take_on k s1) as (s' & Hs & Hq); [done|congruence|congruence|]. exists s'. split; [etrans; eauto|done].
    + apply (poll_on k b s); try done. destruct b; [|done]. apply told_ready; [done|]. apply (inv_told s HI); [now rewrite Hp|done].
  - destruct (walk_on k ks s Hp) as (s1 & Hr & _ & _ & _ & _ & _ & Hq). eauto.
Qed.

(** * Properties *)

(** C3: over every event loop that keeps the promises of [EventLoopI], the main loop of a thread does not sleep on work, however wake-ups on
    its own and on other threads, events and callbacks interleave with it.  While it waits for events its queue is empty, and a suspended coroutine that was
    woken has a [wakeUp] under way, its own or one that is about to stop the wait, and does so.  When no [wakeUp] is under way, the loop
    by itself comes to put every woken coroutine into its queue. *)
Theorem run_loop_awake e s :
  rtc lstep (startLoop e) s ->
  (blocked s -> readyQ s = []
     /\ (forall k, entries s !! k = Some true -> exists t p, wakers s !! t = Some p /\ (wakes p k \/ p = BeforeStop))
     /\ (forall t, wakers s !! t = Some BeforeStop -> exists s', otherStep s s' /\ ~ blocked s'))
  /\ (forall k, entries s !! k = Some true -> wakers s = ∅ -> pc s <> LDone -> exists s', rtc loopStep s s' /\ k ∈ readyQ s').
Proof.
  intros H%reachable_Inv. split; [|intros k; now apply delivers].
  intros [Hp Hb]. unfold pollReady in Hb. cbn in Hb. split_and!.
  - now apply (inv_queue s H).
  - intros k Hk. destruct (inv_seen s H k Hk) as [Hw|[(t & p & Ht & Hp')|(ks & Hp' & _)]]; [|eauto|congruence].
    destruct (inv_told s H) as [?|(t & Ht & _)]; [now rewrite Hp|done|congruence|eauto].
  - intros t Ht. assert (t <> 0) as Hne. { intros ->. specialize (inv_own s H (ex_intro _ _ Ht)). now rewrite Hp. }
    eexists. split; [now apply (wake_send s t)|]. intros [_ Hb']. unfold pollReady in Hb'. cbn in Hb'. now rewrite stop_pending in Hb'.
Qed.
End loop.
Arguments Loop : clear implicits.

(** ** Over libuv *)

(** Coroutine 1 waits for thread 3, which is about to stop the wait. *)
Definition exampleLoop : Loop UVEventLoop := mkLp true {[1%positive := true]} [] (LPoll true) {[3 := BeforeStop]} newUVLoop.

Lemma run_loop_awake_witness : blocked exampleLoop /\ exists s', otherStep exampleLoop s' /\ ~ blocked s'.
Proof.
  assert (blocked exampleLoop) as Hb by (split; reflexivity). split; [exact Hb|].
  destruct (run_loop_awake newUVLoop exampleLoop) as [H _]; [|destruct (H Hb) as (_ & _ & H'); now apply (H' 3)].
  eapply rtc_l; [apply by_other, event_comes; reflexivity|]. cbn.
  eapply rtc_l; [apply by_loop, loop_go; reflexivity|]. cbn.
  eapply rtc_l; [apply by_loop, loop_none; reflexivity|]. cbn.
  eapply rtc_l; [apply by_loop, loop_idle; reflexivity|]. cbn.
  eapply rtc_l; [apply by_loop, (loop_poll _ true); reflexivity|]. cbn.
  eapply rtc_l; [apply by_other, (code_suspend _ 1%positive); cbn; try reflexivity; apply not_elem_of_nil|]. cbn.
  eapply rtc_l; [apply by_loop, loop_handle; [reflexivity|reflexivity|apply (uv_event _ 0); reflexivity]|]. cbn.
  eapply rtc_l; [apply by_loop, loop_return; reflexivity|]. cbn.
  eapply rtc_l; [apply by_loop, loop_go; reflexivity|]. cbn.
  eapply rtc_l; [apply by_loop, loop_none; reflexivity|]. cbn.
  eapply rtc_l; [apply by_loop, loop_idle; reflexivity|]. cbn.
  eapply rtc_l; [apply by_other, (wake_set _ 3 1%positive); cbn; try reflexivity; discriminate|]. cbn.
  eapply rtc_l; [apply by_other, (wake_use _ 3 1%positive); cbn; [reflexivity|eauto]|]. cbn.
  eapply rtc_l; [apply by_other, (wake_flag _ 3 1%positive); reflexivity|]. cbn.
  apply rtc_refl.
Defined.
