(* ===== verification/Timers.v ===== *)
(** Timers ([Timer] of [include/crouton/EventLoop.hh] and [src/io/uv/UVBase.cc]).

    libuv is outside: of a timer that was started it calls the callback when its time has come, not before; it
    then forgets a timer without a repeat interval, and gives another one its next time.  When and in what order it
    makes the callbacks that are due is left open.  Times are milliseconds of its clock; seconds, which are [double]s in the source,
    are rational numbers. *)

From Stdlib Require Import QArith Qround Qminmax.
From S2P Require Import Prelude.

Local Open Scope Z_scope.

(** * State *)

(** A timer of libuv: when it is due, if it is active, and its repeat interval. *)
Record uvTimer := mkUV { due : option Z; repeat : Z }.

(** [_fn] stands for the function; what it does with timers are steps of its own. *)
Record Timer := mkTimer { _fn : Z; _impl : uvTimer; _deleteMe : bool }.

(** The clock, the timers that exist, and the calls made so far. *)
Record Timers := mkTimers { now : Z; timers : gmap nat Timer; nextId : nat; calls : list (nat * Z) }.

Definition put (i : nat) (t : Timer) (s : Timers) : Timers := mkTimers (now s) (<[i := t]> (timers s)) (nextId s) (calls s).

Definition withTimer {A} (i : nat) (f : Timer -> ST Timers A) : ST Timers A := fun s =>
  match timers s !! i with
  | Some t => f t s
  | None => Fault OutOfBounds
  end.

(** * Operations *)

(** [ms]: [round(max(secs, 0.0) * 1000.0)]. *)
Definition ms (secs : Q) : Z := Qfloor (Qmax secs 0 * 1000 + (1 # 2))%Q.

(** The constructor; the timer is not started. *)
Definition newTimer (fn : Z) : ST Timers nat := fun s =>
  let i := nextId s in
  Ret (i, mkTimers (now s) (<[i := mkTimer fn (mkUV None 0) false]> (timers s)) (S i) (calls s)).

Definition _start (i : nat) (delaySecs repeatSecs : Q) : ST Timers unit :=
  withTimer i (fun t => modify (fun s => put i (mkTimer (_fn t) (mkUV (Some (now s + ms delaySecs)) (ms repeatSecs)) (_deleteMe t)) s)).

Definition once (i : nat) (delaySecs : Q) : ST Timers unit := _start i delaySecs 0.
Definition start (i : nat) (intervalSecs : Q) : ST Timers unit := _start i intervalSecs intervalSecs.

Definition stop (i : nat) : ST Timers unit :=
  withTimer i (fun t => modify (put i (mkTimer (_fn t) (mkUV None (repeat (_impl t))) (_deleteMe t)))).

(** The destructor. *)
Definition destroyTimer (i : nat) : ST Timers unit :=
  withTimer i (fun _ => modify (fun s => mkTimers (now s) (delete i (timers s)) (nextId s) (calls s))).

(** [_fire]: whether the function throws makes no difference. *)
Definition _fire (i : nat) : ST Timers unit :=
  withTimer i (fun t =>
    modify (fun s => mkTimers (now s) (timers s) (nextId s) (calls s ++ [(i, now s)]));;
    when (_deleteMe t) (destroyTimer i)).

Definition after (delaySecs : Q) (fn : Z) : ST Timers nat :=
  i ← newTimer fn;
  withTimer i (fun t => modify (put i (mkTimer (_fn t) (_impl t) true)));;
  once i delaySecs;;
  mret i.

(** * Runs *)

(** libuv's side of a callback: the timer is stopped, or due again later. *)
Definition rearm (nowT : Z) (u : uvTimer) : uvTimer :=
  mkUV (if repeat u =? 0 then None else Some (nowT + repeat u)) (repeat u).

(** One step; [u] is the timer that code uses in it.  The timers that [after] makes are known to nobody. *)
Inductive tstep : option nat -> Timers -> Timers -> Prop :=
| tick t s : now s <= t -> tstep None s (mkTimers t (timers s) (nextId s) (calls s))
| fires i t d s s' : timers s !! i = Some t -> due (_impl t) = Some d -> d <= now s ->
    _fire i (put i (mkTimer (_fn t) (rearm (now s) (_impl t)) (_deleteMe t)) s) = Ret (tt, s') -> tstep None s s'
| news fn i s s' : newTimer fn s = Ret (i, s') -> tstep None s s'
| starts i d r s s' : _start i d r s = Ret (tt, s') -> tstep (Some i) s s'
| stops i s s' : stop i s = Ret (tt, s') -> tstep (Some i) s s'
| destroys i s s' : destroyTimer i s = Ret (tt, s') -> tstep (Some i) s s'
| afters d fn i s s' : after d fn s = Ret (i, s') -> tstep None s s'.

(** Steps that do not use the timer [i]. *)
Definition leaves (i : nat) (s s' : Timers) : Prop := exists u, tstep u s s' /\ u <> Some i.

(** libuv has made all the calls that are due. *)
Definition settled (s : Timers) : Prop := forall i t d, timers s !! i = Some t -> due (_impl t) = Some d -> now s < d.

Definition callsOf (i : nat) (s : Timers) : list Z := map snd (filter (fun c => c.1 = i) (calls s)).

Definition fresh (s : Timers) : Prop := (forall i, is_Some (timers s !! i) -> (i < nextId s)%nat) /\ Forall (fun c => (c.1 < nextId s)%nat) (calls s).

(** * Lemmas *)

(** The timer of an [after]: waiting, or called once and gone. *)
Definition oneShot (i : nat) (d : Z) (s : Timers) : Prop :=
  (i < nextId s)%nat
  /\ ((exists fn, timers s !! i = Some (mkTimer fn (mkUV (Some d) 0) true) /\ callsOf i s = [])
      \/ (timers s !! i = None /\ exists t, d <= t <= now s /\ callsOf i s = [t])).

Lemma callsOf_snoc i j t s s' : calls s' = calls s ++ [(j, t)] -> callsOf i s' = callsOf i s ++ (if decide (j = i) then [t] else []).
Proof. intros E. unfold callsOf. rewrite E, filter_app, map_app. f_equal. rewrite filter_cons. cbn. now destruct (decide (j = i)). Qed.

(** A step that changes nothing of [i], and does not make time go back. *)
Lemma oneShot_same i d s s' :
  oneShot i d s -> timers s' !! i = timers s !! i -> callsOf i s' = callsOf i s -> now s <= now s' -> (nextId s <= nextId s')%nat -> oneShot i d s'.
Proof.
  intros [Hi H] Et Ec Hn Hid. split; [lia|]. rewrite Et, Ec. destruct H as [H|(H1 & t & H2 & H3)]; [now left|right]. split; [done|]. exists t. split; [lia|done].
Qed.

Lemma newTimer_run fn s : newTimer fn s = Ret (nextId s, mkTimers (now s) (<[nextId s := mkTimer fn (mkUV None 0) false]> (timers s)) (S (nextId s)) (calls s)).
Proof. reflexivity. Qed.

Lemma after_run d fn s :
  after d fn s = Ret (nextId s, mkTimers (now s) (<[nextId s := mkTimer fn (mkUV (Some (now s + ms d)) 0) true]> (timers s)) (S (nextId s)) (calls s)).
Proof.
  unfold after, once, _start, withTimer, modify, mbind, ST_bind. rewrite newTimer_run. cbn [timers now put nextId calls].
  rewrite lookup_insert_eq. cbn [timers now put nextId calls]. rewrite !insert_insert_eq, lookup_insert_eq. cbn [timers now put nextId calls _fn _deleteMe].
  unfold put. cbn. rewrite ?insert_insert_eq. reflexivity.
Qed.

Lemma fire_run i t s : timers s !! i = Some t ->
  _fire i s = Ret (tt, mkTimers (now s) (if _deleteMe t then delete i (timers s) else timers s) (nextId s) (calls s ++ [(i, now s)])).
Proof.
  intros E. unfold _fire, withTimer. rewrite E. unfold modify, mbind, ST_bind. cbn. destruct (_deleteMe t); cbn; [|done].
  unfold destroyTimer, withTimer. cbn. now rewrite E.
Qed.

Lemma leaves_oneShot i d s s' : leaves i s s' -> oneShot i d s -> oneShot i d s'.
Proof.
  intros (u & Hs & Hu) H. pose proof (proj1 H) as Hid.
  destruct Hs as [t s Ht|j t e s s' Hj He Hle Hf|fn j s s' E|j d' r s s' E|j s s' E|j s s' E|d' fn j s s' E].
  - eapply oneShot_same; [exact H|done..].
  - rewrite (fire_run j (mkTimer (_fn t) (rearm (now s) (_impl t)) (_deleteMe t))) in Hf by apply lookup_insert_eq. injection Hf as <-.
    destruct (decide (j = i)) as [->|Hne].
    + destruct H as [_ [(fn & Et & Ec)|(Et & _)]]; [|congruence]. rewrite Hj in Et. injection Et as ->. injection He as <-. cbn [_deleteMe _impl].
      split; [done|]. right. split; [apply lookup_delete_eq|]. exists (now s). split; [cbn; lia|].
      rewrite (callsOf_snoc i i (now s) s) by reflexivity. rewrite decide_True by done. now rewrite Ec.
    + eapply oneShot_same; [exact H| |rewrite (callsOf_snoc i j (now s) s) by reflexivity; rewrite decide_False by done; apply app_nil_r|done|done].
      cbn. destruct (_deleteMe t); rewrite ?lookup_delete_ne, ?lookup_insert_ne by done; done.
  - rewrite newTimer_run in E. injection E as <- <-. eapply oneShot_same; [exact H|cbn; rewrite lookup_insert_ne; [done|lia]|done|done|cbn; lia].
  - unfold _start, withTimer, modify in E. destruct (timers s !! j); [|done]. injection E as <-.
    eapply oneShot_same; [exact H|cbn; rewrite lookup_insert_ne; [done|congruence]|done|done|done].
  - unfold stop, withTimer, modify in E. destruct (timers s !! j); [|done]. injection E as <-.
    eapply oneShot_same; [exact H|cbn; rewrite lookup_insert_ne; [done|congruence]|done|done|done].
  - unfold destroyTimer, withTimer, modify in E. destruct (timers s !! j); [|done]. injection E as <-.
    eapply oneShot_same; [exact H|cbn; rewrite lookup_delete_ne; [done|congruence]|done|done|done].
  - rewrite after_run in E. injection E as <- <-. eapply oneShot_same; [exact H|cbn; rewrite lookup_insert_ne; [done|lia]|done|done|cbn; lia].
Qed.

Lemma fresh_calls n (l : list (nat * Z)) : Forall (fun c => (c.1 < n)%nat) l -> filter (fun c => c.1 = n) l = [].
Proof. induction 1 as [|c l Hcl _ IH]; [done|]. rewrite filter_cons, decide_False; [exact IH|lia]. Qed.

(** * Properties *)

(** [after] calls its function once, not before the delay, whatever else is done with timers: until then
    the timer waits; afterwards it is gone.  When the delay is over and libuv has made the calls that are due, it was called. *)
Theorem after_calls_once delay fn s0 :
  fresh s0 ->
  exists i s1, after delay fn s0 = Ret (i, s1) /\ forall s, rtc (leaves i) s1 s ->
    oneShot i (now s0 + ms delay) s
    /\ (settled s -> now s0 + ms delay <= now s -> exists t, now s0 + ms delay <= t <= now s /\ callsOf i s = [t] /\ timers s !! i = None).
Proof.
  intros [Hf Hc]. eexists _, _. split; [apply after_run|]. intros s Hs.
  assert (oneShot (nextId s0) (now s0 + ms delay) s) as H.
  { remember (mkTimers _ _ _ _) as s1 eqn:E1 in Hs. assert (oneShot (nextId s0) (now s0 + ms delay) s1) as H1.
    { subst s1. split; [cbn; lia|]. left. exists fn. split; [apply lookup_insert_eq|]. unfold callsOf. cbn.
      rewrite (fresh_calls _ _ Hc). done. }
    clear E1. induction Hs as [|s1 s2 s3 Hs _ IH]; [done|]. apply IH. eapply leaves_oneShot; eauto. }
  split; [exact H|]. intros Hset Hnow. destruct H as [_ [(fn' & Et & _)|(Et & t & Ht & Ec)]]; [|eauto].
  specialize (Hset _ _ _ Et eq_refl). lia.
Qed.

(** An interval of less than half a millisecond is rounded to zero, which to libuv means that the timer does not
    repeat: it is called once. *)
Theorem short_interval_never_repeats i secs t s :
  timers s !! i = Some t -> (0 < secs)%Q -> (secs < 1 # 2000)%Q ->
  exists s', start i secs s = Ret (tt, s') /\ timers s' !! i = Some (mkTimer (_fn t) (mkUV (Some (now s)) 0) (_deleteMe t)).
Proof.
  intros E H0 H1. assert (ms secs = 0) as Em.
  { unfold ms. assert (Qmax secs 0 == secs)%Q as Hm by (apply Q.max_l; now apply Qlt_le_weak). rewrite Hm.
    assert (Qfloor (secs * 1000 + (1 # 2)) <= 0 /\ 0 <= Qfloor (secs * 1000 + (1 # 2))) as [? ?]; [split|lia].
    - apply Z.lt_succ_r. rewrite Zlt_Qlt. eapply Qle_lt_trans; [apply Qfloor_le|]. change (inject_Z (Z.succ 0)) with (1 # 1)%Q.
      apply (Qlt_le_trans _ ((1 # 2000) * 1000 + (1 # 2))); [|discriminate]. apply Qplus_lt_le_compat; [|apply Qle_refl]. apply Qmult_lt_compat_r; [reflexivity|exact H1].
    - change 0 with (Qfloor 0). apply Qfloor_resp_le. apply (Qle_trans _ (0 * 1000 + 0)); [discriminate|].
      apply Qplus_le_compat; [|discriminate]. apply Qmult_le_compat_r; [now apply Qlt_le_weak|discriminate]. }
  unfold start, _start, withTimer, modify. rewrite E, Em. eexists. split; [reflexivity|]. cbn. rewrite Z.add_0_r. apply lookup_insert_eq.
Qed.

Lemma after_calls_once_witness :
  exists i s1, after (3 # 2) 7 (mkTimers 100 ∅ 0 []) = Ret (i, s1) /\ oneShot i 1600 s1.
Proof.
  destruct (after_calls_once (3 # 2) 7 (mkTimers 100 ∅ 0 [])) as (i & s1 & E & H); [split; [intros i [? ?]; done|constructor]|].
  exists i, s1. split; [exact E|]. exact (proj1 (H s1 (rtc_refl _ _))).
Defined.
