(* ===== verification/Background.v ===== *)
(** Functions given to another thread: [perform] of libuv's event loop, which gives a function to the thread of the loop, and
    [OnBackgroundThread], which gives one to a thread of libuv's pool ([src/io/uv/UVBase.cc]).

    The two threads are cut at their accesses to the object they share, and interleave in any way.  libuv calls an async handle's callback once after
    [uv_async_send], and a work request's two functions in order, each once; [closeHandle] deletes the handle. *)

From S2P Require Import Prelude.

(** * [perform] *)

(** Where the caller is: before [uv_async_send], before it reads [_synchronous], waiting for the condition, before the destructor of its lock, or
    back. *)
Inductive callerPC := CSend | CTest | CWait | CUnlock | CReturned.

(** Where the loop's thread is: before the callback, after the function, after the notification, or past the deletion. *)
Inductive loopPC := LBefore | LAfterFn | LNotified | LDeleted.

(** The [uvAsyncFn]: whether it was sent, whether its mutex is held by the caller and its condition notified; and how often the function was called. *)
Record uvAsyncFn := mkAsync {
  _synchronous : bool;
  caller : callerPC;
  looper : loopPC;
  sent : bool;
  held : bool;
  notified : bool;
  calls : nat
}.

(** The caller has made the handle and has locked its mutex. *)
Definition startPerform (synchronous : bool) : uvAsyncFn := mkAsync synchronous CSend LBefore false true false 0.

Inductive callerStep : uvAsyncFn -> uvAsyncFn -> Prop :=
| caller_send b l n c : callerStep (mkAsync b CSend l false true n c) (mkAsync b CTest l true true n c)
| caller_test b l n c : callerStep (mkAsync b CTest l true true n c)
    (if b then mkAsync b CWait l true false n c else mkAsync b CUnlock l true true n c)
| caller_woken b l c : callerStep (mkAsync b CWait l true false true c) (mkAsync b CUnlock l true true true c)
| caller_unlock b l n c : callerStep (mkAsync b CUnlock l true true n c) (mkAsync b CReturned l true false n c).

Inductive loopStep : uvAsyncFn -> uvAsyncFn -> Prop :=
| loop_fn b p h n c : loopStep (mkAsync b p LBefore true h n c) (mkAsync b p LAfterFn true h n (S c))
| loop_notify p n c : loopStep (mkAsync true p LAfterFn true false n c) (mkAsync true p LNotified true false true c)
| loop_no_notify p h n c : loopStep (mkAsync false p LAfterFn true h n c) (mkAsync false p LNotified true h n c)
| loop_delete b p h n c : loopStep (mkAsync b p LNotified true h n c) (mkAsync b p LDeleted true h n c).

Definition performStep (s s' : uvAsyncFn) : Prop := callerStep s s' \/ loopStep s s'.

(** The object is gone, and the caller is about to use it. *)
Definition usesDeleted (s : uvAsyncFn) : Prop := looper s = LDeleted /\ caller s <> CReturned.

(** How the flags follow from where the threads are. *)
Definition flagsOk (s : uvAsyncFn) : bool :=
  let past := match looper s with LNotified | LDeleted => true | _ => false end in
  Bool.eqb (sent s) (match caller s with CSend => false | _ => true end)
  && Bool.eqb (held s) (match caller s with CSend | CTest | CUnlock => true | _ => false end)
  && implb (match looper s with LBefore => false | _ => true end) (sent s)
  && implb (_synchronous s && match caller s with CUnlock | CReturned => true | _ => false end) (notified s)
  && implb (match caller s with CWait => true | _ => false end) (_synchronous s)
  && implb (notified s) past
  && implb (_synchronous s && past) (notified s).

Definition performOk (s : uvAsyncFn) : Prop :=
  flagsOk s = true /\ calls s = match looper s with LBefore => 0 | _ => 1 end.

Lemma perform_keeps b s : rtc performStep (startPerform b) s -> performOk s.
Proof.
  intros H. remember (startPerform b) as s0 eqn:E0. assert (performOk s0) as Hok by (subst; destruct b; done). clear E0.
  induction H as [s|s s1 s2 Hs _ IH]; [done|]. apply IH. clear IH b. revert Hok.
  destruct Hs as [[b' l n c|b' l n c|b' l c|b' l n c]|[b' p h n c|p n c|p h n c|b' p h n c]]; intros [H1 H2].
  all: repeat match goal with x : bool |- _ => destruct x | x : callerPC |- _ => destruct x | x : loopPC |- _ => destruct x end.
  all: cbn in H1, H2; (discriminate H1 || (split; [reflexivity|cbn; congruence])).
Qed.

(** In every interleaving the function is called at most once; where neither thread can go on, it was called, and the caller has returned; and
    [perform] with [synchronous] returns only after the call. *)
Theorem perform_calls_once b s :
  rtc performStep (startPerform b) s ->
  (calls s <= 1)%nat
  /\ ((forall s', ~ performStep s s') -> calls s = 1%nat /\ caller s = CReturned)
  /\ (b = true -> _synchronous s = true -> caller s = CReturned -> calls s = 1%nat).
Proof.
  intros H. destruct (perform_keeps b s H) as [H1 H2]. destruct s as [b' p l se h n c]. cbn [calls looper caller _synchronous] in *. subst c. split_and!.
  - destruct l; lia.
  - intros Hend. destruct p, l, b', se, h, n; try discriminate H1; try done; exfalso;
      (eapply Hend; solve [left; constructor|right; constructor]).
  - intros _ -> ->. destruct l, se, h, n; try discriminate H1; done.
Qed.

(** ** Defects *)

(** The loop's thread may delete the object while the caller still uses it, in both forms. *)
Theorem perform_use_after_free b : exists s, rtc performStep (startPerform b) s /\ usesDeleted s.
Proof.
  destruct b.
  - exists (mkAsync true CWait LDeleted true false true 1). split; [|done].
    eapply rtc_l; [left; apply caller_send|]. eapply rtc_l; [left; apply (caller_test true)|]. eapply rtc_l; [right; apply loop_fn|].
    eapply rtc_l; [right; apply loop_notify|]. eapply rtc_l; [right; apply loop_delete|]. apply rtc_refl.
  - exists (mkAsync false CTest LDeleted true true false 1). split; [|done].
    eapply rtc_l; [left; apply caller_send|]. eapply rtc_l; [right; apply loop_fn|]. eapply rtc_l; [right; apply loop_no_notify|].
    eapply rtc_l; [right; apply loop_delete|]. apply rtc_refl.
Qed.

(** With [synchronous] on the loop's own thread, it waits for itself. *)
Theorem perform_self_deadlock :
  exists s, rtc callerStep (startPerform true) s /\ (forall s', ~ callerStep s s') /\ calls s = 0%nat /\ caller s <> CReturned.
Proof.
  exists (mkAsync true CWait LBefore true false false 0). split; [|split; [|done]].
  - eapply rtc_l; [apply caller_send|]. eapply rtc_l; [apply (caller_test true)|]. apply rtc_refl.
  - intros s' H. inversion H.
Qed.

(** * [OnBackgroundThread] *)

(** What the function does. *)
Inductive fnResult := Returns | Throws (e : error).

(** [QueuedWork], with how far libuv has come with it, and the future's result. *)
Inductive workPC := WQueued | WRan | WDeleted.

Record QueuedWork := mkWork { fn : fnResult; work : workPC; exception : option error; provider : option (option error) }.

Definition queueWork (f : fnResult) : QueuedWork := mkWork f WQueued None None.

(** On the pool's thread, and on the loop's. *)
Definition runWork (w : QueuedWork) : outcome QueuedWork :=
  match work w with
  | WQueued => Ret (mkWork (fn w) WRan (match fn w with Returns => None | Throws e => Some e end) (provider w))
  | _ => Fault OutOfBounds
  end.

Definition afterWork (w : QueuedWork) : outcome QueuedWork :=
  match work w, provider w with
  | WRan, None => Ret (mkWork (fn w) WDeleted (exception w) (Some (exception w)))
  | WRan, Some _ => Fault AssertFailed
  | _, _ => Fault OutOfBounds
  end.

(** [OnBackgroundThread]: [status] is that of [uv_queue_work]. *)
Definition OnBackgroundThread (status : Z) (f : fnResult) : outcome QueuedWork :=
  if (status <? 0)%Z then Raise (EUV status)
  else
    w ← runWork (queueWork f);
    afterWork w.

(** The future resolves once: to success, or to what the function threw. *)
Theorem background_resolves status f :
  (0 <= status)%Z ->
  exists w, OnBackgroundThread status f = Ret w /\ work w = WDeleted /\ provider w = Some (match f with Returns => None | Throws e => Some e end).
Proof.
  intros H. unfold OnBackgroundThread. destruct (Z.ltb_spec status 0); [lia|]. eexists. split; [reflexivity|]. done.
Qed.
