(* ===== verification/EspLoop.v ===== *)
(** The event loop and the timers of the ESP32 ([src/io/esp32/ESPEventLoop.cc]).

    FreeRTOS is outside.  As documented, a queue made by [xQueueCreate] holds a fixed number of items, a send without a delay fails
    when it is full, and a receive takes the oldest; a software timer that was started expires once, or again and again, until it
    is deleted, and its callback runs on another task; its period must not be zero.  [pdMS_TO_TICKS] is
    the integer part of milliseconds times tick rate by 1000. *)

From Stdlib Require Import QArith.
From S2P Require Import Prelude Errors Timers RunLoop.

Local Open Scope Z_scope.

(** * The queue of events *)

Inductive Event := Interrupt | Async (fn : Z) | TimerFired (t : nat).

#[export] Instance Event_eq_dec : EqDecision Event.
Proof. solve_decision. Defined.

Definition kQueueLength : nat := 16.

Record ESPEventLoop := mkEsp { _queue : list Event; _interrupt : bool }.

Definition newEsp : ESPEventLoop := mkEsp [] false.

(** [std::runtime_error]. *)
Definition QueueFull : error := ECpp cpp_runtime_error.

Definition post (e : Event) (l : ESPEventLoop) : outcome ESPEventLoop :=
  if (length (_queue l) <? kQueueLength)%nat then Ret (mkEsp (_queue l ++ [e]) (_interrupt l)) else Raise QueueFull.

Definition stopEsp (l : ESPEventLoop) : outcome ESPEventLoop := post Interrupt l.

(** The synchronous form is not implemented. *)
Definition performEsp (fn : Z) (synchronous : bool) (l : ESPEventLoop) : outcome ESPEventLoop :=
  _ ← precondition (negb synchronous);
  post (Async fn) l.

(** [xQueueReceive]: with nothing to receive it gives up at once, or waits. *)
Definition receive (l : ESPEventLoop) : option Event * ESPEventLoop :=
  match _queue l with
  | [] => (None, l)
  | e :: q => (Some e, mkEsp q (_interrupt l))
  end.

(** ** It is an event loop

    [_running] is never set, so that a wake-up on the loop's own thread does not stop it; but [runOnce] handles one event and
    returns.  A [stop] that finds the queue full throws, and leaves it full. *)

Definition afterStop (l : ESPEventLoop) : ESPEventLoop := match stopEsp l with Ret l' => l' | _ => l end.

#[export] Program Instance esp_event_loop : EventLoopI ESPEventLoop := {
  pending l := negb (bool_decide (_queue l = []));
  stopRemote := afterStop;
  stopLocal l := l;
  comes l l' := exists e, post e l = Ret l';
  takes l := (receive (mkEsp (_queue l) false)).2;
  handles l l' := l' = mkEsp (_queue l) true;
  returns l := l
}.
Next Obligation.
  intros l. unfold afterStop, stopEsp, post. destruct (Nat.ltb_spec (length (_queue l)) kQueueLength) as [H|H]; cbn.
  - destruct (_queue l); done.
  - destruct (_queue l); [|done]. unfold kQueueLength in H. cbn in H. lia.
Qed.
Next Obligation.
  intros l l' [e H] _. unfold post in H. destruct (_ <? _)%nat; [|discriminate]. injection H as <-. cbn. now destruct (_queue l).
Qed.

(** * Timers *)

(** FreeRTOS's timer: whether it is started, and repeats. *)
Record rtosTimer := mkRtos { active : bool; autoReload : bool }.

Record EspTimer := mkEspTimer { _fn : Z; _impl : option rtosTimer; _deleteMe : bool }.

(** The event loop, the timers that exist, and the functions called so far. *)
Record Esp := mkEspWorld { loop : ESPEventLoop; timers : gmap nat EspTimer; nextId : nat; called : list Z }.

Definition setTimers m w := mkEspWorld (loop w) m (nextId w) (called w).
Definition setLoop l w := mkEspWorld l (timers w) (nextId w) (called w).
Definition call (fn : Z) w := mkEspWorld (loop w) (timers w) (nextId w) (called w ++ [fn]).

(** Following the pointer to a timer that was deleted is undefined. *)
Definition withTimer {A} (t : nat) (f : EspTimer -> ST Esp A) : ST Esp A := fun w =>
  match timers w !! t with
  | Some x => f x w
  | None => Fault OutOfBounds
  end.

Section timers.
(** [configTICK_RATE_HZ]. *)
Context (tickRate : Z).

Definition ticks (secs : Q) : Z := ms secs * tickRate / 1000.

Definition newEspTimer (fn : Z) : ST Esp nat := fun w =>
  Ret (nextId w, mkEspWorld (loop w) (<[nextId w := mkEspTimer fn None false]> (timers w)) (S (nextId w)) (called w)).

Definition startEsp (t : nat) (delaySecs repeatSecs : Q) : ST Esp unit :=
  withTimer t (fun x =>
    assert (bool_decide (_impl x = None) && (Qeq_bool repeatSecs 0 || Qeq_bool repeatSecs delaySecs));;
    (** the period of [xTimerCreate] *)
    assert (0 <? ticks delaySecs);;
    modify (fun w => setTimers (<[t := mkEspTimer (_fn x) (Some (mkRtos true (negb (Qle_bool repeatSecs 0)))) (_deleteMe x)]> (timers w)) w)).

Definition onceEsp (t : nat) (delaySecs : Q) : ST Esp unit := startEsp t delaySecs 0.

Definition stopTimer (t : nat) : ST Esp unit :=
  withTimer t (fun x => when (bool_decide (is_Some (_impl x)))
    (modify (fun w => setTimers (<[t := mkEspTimer (_fn x) None (_deleteMe x)]> (timers w)) w))).

Definition destroyEspTimer (t : nat) : ST Esp unit :=
  stopTimer t;; modify (fun w => setTimers (delete t (timers w)) w).

Definition fireEsp (t : nat) : ST Esp unit :=
  withTimer t (fun x => modify (call (_fn x));; when (_deleteMe x) (destroyEspTimer t)).

Definition afterEsp (delaySecs : Q) (fn : Z) : ST Esp nat :=
  t ← newEspTimer fn;
  withTimer t (fun x => modify (fun w => setTimers (<[t := mkEspTimer (_fn x) (_impl x) true]> (timers w)) w));;
  onceEsp t delaySecs;;
  mret t.

(** A timer expires: the callback posts an event; what it throws leaves FreeRTOS's task, and ends the program. *)
Definition expires (t : nat) : ST Esp unit :=
  withTimer t (fun x => fun w =>
    match _impl x with
    | Some r =>
        if active r then
          match post (TimerFired t) (loop w) with
          | Ret l => Ret (tt, setLoop l (setTimers (<[t := mkEspTimer (_fn x) (Some (mkRtos (autoReload r) (autoReload r))) (_deleteMe x)]> (timers w)) w))
          | _ => Fault AssertFailed
          end
        else Fault NoFuel
    | None => Fault NoFuel
    end).

(** [runOnce]: it handles one event.  Waiting when none will come never ends. *)
Definition runOnceEsp (waitForIO : bool) : ST Esp bool :=
  modify (fun w => setLoop (mkEsp (_queue (loop w)) false) w);;
  l ← gets loop;
  let '(e, l') := receive l in
  modify (setLoop l');;
  (match e with
   | Some Interrupt => modify (fun w => setLoop (mkEsp (_queue (loop w)) true) w)
   | Some (Async fn) => modify (call fn)
   | Some (TimerFired t) => fireEsp t
   | None => if waitForIO then crash NoFuel else mret tt
   end);;
  gets (fun w => negb (bool_decide (_queue (loop w) = []))).

Fixpoint runTimes (n : nat) : ST Esp unit :=
  match n with
  | O => mret tt
  | S n => runOnceEsp false;; runTimes n
  end.

(** [run]: until an [Interrupt] was handled. *)
Fixpoint runEsp (fuel : nat) : ST Esp unit :=
  match fuel with
  | O => crash NoFuel
  | S f =>
      runOnceEsp true;;
      i ← gets (fun w => _interrupt (loop w));
      if (i : bool) then modify (fun w => setLoop (mkEsp (_queue (loop w)) false) w) else runEsp f
  end.

(** ** Properties *)

Definition fnOf (w : Esp) (e : Event) : list Z :=
  match e with
  | Interrupt => []
  | Async fn => [fn]
  | TimerFired t => match timers w !! t with Some x => [_fn x] | None => [] end
  end.

(** Timers that were not made by [after], which delete themselves. *)
Definition lasting (w : Esp) (e : Event) : Prop :=
  match e with TimerFired t => exists x, timers w !! t = Some x /\ _deleteMe x = false | _ => True end.

Lemma runOnce_event wait w e q :
  _queue (loop w) = e :: q -> lasting w e ->
  exists w', runOnceEsp wait w = Ret (negb (bool_decide (q = [])), w') /\ _queue (loop w') = q /\ called w' = called w ++ fnOf w e /\ timers w' = timers w
    /\ _interrupt (loop w') = bool_decide (e = Interrupt).
Proof.
  intros Eq Hl. unfold runOnceEsp, modify, gets, mbind, ST_bind. cbn. unfold receive. cbn. rewrite Eq. cbn.
  destruct e as [|fn|t]; cbn.
  - eexists. split; [reflexivity|]. cbn. now rewrite app_nil_r.
  - eexists. split; [reflexivity|]. done.
  - destruct Hl as (x & Ex & Hd). unfold fireEsp, withTimer. cbn. rewrite Ex. unfold modify, mbind, ST_bind. cbn. rewrite Hd. eexists. split; [reflexivity|]. done.
Qed.

(** What is posted is handled in order, each once: the functions, and those of the timers that fired. *)
Theorem esp_events_in_order q w :
  _queue (loop w) = q -> Forall (lasting w) q ->
  exists w', runTimes (length q) w = Ret (tt, w') /\ called w' = called w ++ concat (map (fnOf w) q) /\ _queue (loop w') = [].
Proof.
  revert w. induction q as [|e q IH]; intros w Eq Hl; cbn [length runTimes map concat]; [exists w; now rewrite app_nil_r|].
  apply Forall_cons in Hl as [He Hl]. destruct (runOnce_event false w e q Eq He) as (w1 & E1 & Eq1 & Ec1 & Et1 & _).
  assert (forall x, fnOf w1 x = fnOf w x) as Hf by (intros []; cbn; now rewrite ?Et1).
  destruct (IH w1 Eq1) as (w' & E & Ec & Eq'); [eapply Forall_impl; [exact Hl|]; intros []; cbn; now rewrite ?Et1|].
  exists w'. unfold mbind, ST_bind. rewrite E1, E. split_and!; try done. rewrite Ec, Ec1, (map_ext _ _ Hf). symmetry. apply app_assoc.
Qed.

(** [run] handles what was posted before the first [Interrupt], in order, and returns with the rest still in the queue; a round per
    event is enough. *)
Theorem esp_run_until_interrupt q1 : forall w q2 fuel,
  _queue (loop w) = q1 ++ Interrupt :: q2 -> Forall (fun e => e <> Interrupt /\ lasting w e) q1 -> (length q1 < fuel)%nat ->
  exists w', runEsp fuel w = Ret (tt, w') /\ called w' = called w ++ concat (map (fnOf w) q1) /\ loop w' = mkEsp q2 false /\ timers w' = timers w.
Proof.
  induction q1 as [|e q IH]; intros w q2 fuel Eq Hl Hf; (destruct fuel as [|fuel]; [cbn in Hf; lia|]); cbn [runEsp].
  - destruct (runOnce_event true w Interrupt q2 Eq I) as (w1 & E1 & Eq1 & Ec1 & Et1 & Ei). unfold gets, modify, mbind, ST_bind. rewrite E1, Ei. cbn.
    eexists. split; [reflexivity|]. cbn. rewrite Ec1, Eq1. done.
  - apply Forall_cons in Hl as [[He Hle] Hl]. destruct (runOnce_event true w e _ Eq Hle) as (w1 & E1 & Eq1 & Ec1 & Et1 & Ei).
    assert (forall x, fnOf w1 x = fnOf w x) as Hfn by (intros []; cbn; now rewrite ?Et1).
    destruct (IH w1 q2 fuel Eq1) as (w' & E & Ec & El & Et); [eapply Forall_impl; [exact Hl|]; intros [] [? ?]; cbn; now rewrite ?Et1|cbn in Hf; lia|].
    exists w'. unfold gets, mbind, ST_bind. rewrite E1, Ei, bool_decide_eq_false_2 by done. split; [exact E|]. split; [|split; congruence].
    rewrite Ec, Ec1, (map_ext _ _ Hfn). cbn. symmetry. apply app_assoc.
Qed.

Lemma esp_run_until_interrupt_witness :
  exists w', runEsp 3 (mkEspWorld (mkEsp [Async 1; Async 2; Interrupt; Async 3] false) ∅ 0 []) = Ret (tt, w')
    /\ called w' = [1; 2] /\ _queue (loop w') = [Async 3].
Proof.
  destruct (esp_run_until_interrupt [Async 1; Async 2] (mkEspWorld (mkEsp [Async 1; Async 2; Interrupt; Async 3] false) ∅ 0 []) [Async 3] 3)
    as (w' & E & Ec & El & _); [reflexivity|repeat constructor; done|cbn; lia|]. exists w'. split; [exact E|]. split; [exact Ec|]. now rewrite El.
Defined.

(** The queue never holds more than [kQueueLength] events; posting to a full one throws. *)
Theorem esp_queue_bounded e l :
  (length (_queue l) <= kQueueLength)%nat ->
  match post e l with
  | Ret l' => _queue l' = _queue l ++ [e] /\ (length (_queue l') <= kQueueLength)%nat
  | Raise x => x = QueueFull /\ length (_queue l) = kQueueLength
  | Fault _ => False
  end.
Proof.
  intros H. unfold post. destruct (Nat.ltb_spec (length (_queue l)) kQueueLength); cbn; [rewrite length_app; cbn; split; [done|lia]|split; [done|lia]].
Qed.

(** ** Defects *)

(** Waking a coroutine from another thread throws when the queue of its thread is full. *)
Theorem esp_wake_throws l : length (_queue l) = kQueueLength -> stopEsp l = Raise QueueFull.
Proof. intros H. unfold stopEsp, post. now rewrite H. Qed.

(** A timer that expired and is destroyed before its event is handled is used all the same. *)
Theorem esp_timer_use_after_free t x w :
  timers w !! t = Some x -> _impl x = Some (mkRtos true false) -> _queue (loop w) = [] ->
  exists w1 w2, expires t w = Ret (tt, w1) /\ destroyEspTimer t w1 = Ret (tt, w2) /\ runOnceEsp false w2 = Fault OutOfBounds.
Proof.
  intros Ex Hi Hq. unfold expires, withTimer. rewrite Ex, Hi. unfold post. rewrite Hq. cbn.
  eexists _, _. split; [reflexivity|]. unfold destroyEspTimer, stopTimer, withTimer, modify, mbind, ST_bind. cbn. rewrite lookup_insert_eq. cbn.
  split; [reflexivity|]. unfold runOnceEsp, modify, gets, mbind, ST_bind. cbn. unfold fireEsp, withTimer. cbn. now rewrite lookup_delete_eq.
Qed.

(** A timer that has fired cannot be started again, unless it is stopped first. *)
Theorem esp_timer_no_restart t x d w :
  timers w !! t = Some x -> is_Some (_impl x) -> onceEsp t d w = Fault AssertFailed.
Proof.
  intros Ex [r Hr]. unfold onceEsp, startEsp, withTimer. rewrite Ex. unfold assert, mbind, ST_bind. now rewrite bool_decide_eq_false_2 by (rewrite Hr; done).
Qed.

(** A timer that is to repeat after another delay than its interval stops the program. *)
Theorem esp_timer_delay_interval t x w :
  timers w !! t = Some x -> startEsp t 1 2 w = Fault AssertFailed.
Proof. intros Ex. unfold startEsp, withTimer. rewrite Ex. unfold assert, mbind, ST_bind. cbn. now rewrite andb_false_r. Qed.

(** A delay of less than a tick stops the program: with 100 ticks a second, less than 10 milliseconds. *)
Theorem esp_short_delay_aborts t x d w :
  timers w !! t = Some x -> ms d * tickRate < 1000 -> 0 <= ms d * tickRate -> onceEsp t d w = Fault AssertFailed.
Proof.
  intros Ex H H0. unfold onceEsp, startEsp, withTimer. rewrite Ex. unfold assert, mbind, ST_bind, ticks. rewrite Z.div_small by lia. cbn [Z.ltb Z.compare].
  now destruct (_ && _).
Qed.
End timers.

(** Three functions, one of them of a timer. *)
Lemma esp_events_in_order_witness :
  exists w', runTimes 3 (mkEspWorld (mkEsp [Async 1; TimerFired 0; Async 3] false) {[0%nat := mkEspTimer 2 None false]} 1 []) = Ret (tt, w') /\ called w' = [1; 2; 3].
Proof.
  destruct (esp_events_in_order [Async 1; TimerFired 0; Async 3] (mkEspWorld (mkEsp [Async 1; TimerFired 0; Async 3] false) {[0%nat := mkEspTimer 2 None false]} 1 []))
    as (w' & E & Ec & _); [reflexivity| |].
  - constructor; [exact I|]. constructor; [eexists; split; reflexivity|]. constructor; [exact I|constructor].
  - exists w'. split; [exact E|exact Ec].
Defined.
