(* ===== verification/Suspending.v ===== *)
(** The interface between the scheduler and what suspends coroutines on it
    (conditions, mutexes, blockers, futures, queues): suspend the running
    coroutine, transfer control away from it, wake it up.  The clients are proved
    against the laws; [Scheduler.v] provides them. *)

From S2P Require Import Prelude Lifecycle Scheduler.

Class Suspending (W : Type) := {
  (** [Scheduler::current().suspend(h)] *)
  susp : coro -> ST W Suspension;
  (** [lifecycle::suspendingTo(h, type, object)] *)
  switchAway : coro -> Z -> Z -> ST W coro_handle;
  (** [suspension.wakeUp()] and [suspension.cancel()], from the scheduler's thread
      or another *)
  wake : bool -> Suspension -> ST W Suspension;
  cancel : bool -> Suspension -> ST W Suspension;

  okW : W -> Prop;
  (** the coroutines that wait, and those woken that have not run yet *)
  asleep : W -> gset coro;
  awake : W -> gset coro;
  (** [h] is the running coroutine of the thread *)
  current : W -> coro -> Prop;
  (** [h] is unknown to the scheduler: neither queued nor in its table *)
  fresh : W -> coro -> Prop;

  susp_law w h :
    okW w -> current w h -> fresh w h ->
    exists w', susp h w = Ret (Some h, w') /\ okW w' /\ current w' h
      /\ asleep w' = {[h]} ∪ asleep w /\ awake w' = awake w
      /\ (forall c, c <> h -> fresh w c -> fresh w' c);
  switch_law w h ty obj :
    okW w -> current w h ->
    exists w', switchAway h ty obj w = Ret (hnoop, w') /\ okW w'
      /\ asleep w' = asleep w /\ awake w' = awake w /\ (forall c, fresh w c -> fresh w' c);
  wake_law w cur h :
    okW w -> h ∈ asleep w ->
    exists w', wake cur (Some h) w = Ret (None, w') /\ okW w'
      /\ asleep w' = asleep w ∖ {[h]} /\ awake w' = {[h]} ∪ awake w
      /\ (forall c, current w c -> current w' c) /\ (forall c, fresh w c -> fresh w' c);
  cancel_law w cur h :
    okW w -> h ∈ asleep w ->
    exists w', cancel cur (Some h) w = Ret (None, w') /\ okW w'
      /\ asleep w' = asleep w ∖ {[h]} /\ awake w' = awake w
      /\ (forall c, current w c -> current w' c) /\ (forall c, fresh w c -> fresh w' c);
  wake_null cur w : wake cur None w = Ret (None, w);
  cancel_null cur w : cancel cur None w = Ret (None, w);
  asleep_awake w h : okW w -> h ∈ asleep w -> h ∉ awake w;
  fresh_out w h : okW w -> fresh w h -> h ∉ asleep w /\ h ∉ awake w
}.

(** Wake every coroutine of a list, in order. *)
Fixpoint wakeAll {W} `{Suspending W} (cur : bool) (ss : list Suspension) : ST W unit :=
  match ss with
  | [] => mret tt
  | s :: r => wake cur s;; wakeAll cur r
  end.

Lemma wakeAll_law {W} `{Suspending W} cur hs w :
  okW w -> NoDup hs -> (forall h, h ∈ hs -> h ∈ asleep w) ->
  exists w', wakeAll cur (Some <$> hs) w = Ret (tt, w') /\ okW w'
    /\ asleep w' = asleep w ∖ list_to_set hs /\ awake w' = list_to_set hs ∪ awake w
    /\ (forall c, current w c -> current w' c) /\ (forall c, fresh w c -> fresh w' c).
Proof.
  revert w. induction hs as [|h hs IH]; intros w Hw Hn Hin.
  - exists w. split_and!; [done|done|set_solver|set_solver|done|done].
  - apply NoDup_cons in Hn as [Hh Hn].
    destruct (wake_law w cur h Hw) as (w1 & E1 & Hw1 & Ea1 & Eb1 & Hc1 & Hf1); [set_solver|].
    destruct (IH w1 Hw1 Hn) as (w2 & E2 & Hw2 & Ea2 & Eb2 & Hc2 & Hf2).
    { intros x Hx. rewrite Ea1. set_solver. }
    exists w2. cbn [fmap list_fmap wakeAll]. unfold mbind, ST_bind. rewrite E1, E2.
    split_and!; [done|done|rewrite Ea2, Ea1; set_solver|rewrite Eb2, Eb1; set_solver|auto|auto].
Qed.

(** * The scheduler as an implementation *)

(** Waiting coroutines can be woken: they exist and have not ended. *)
Record schedOk (w : World) : Prop := {
  so_inv : inv w;
  so_stack : exists stk, wf (life w) stk;
  so_live h : h ∈ waiting w -> live (life w) h /\ stateOf (life w) h <> Some ending
}.

Definition schedCurrent (w : World) (h : coro) : Prop :=
  (exists stk, wf (life w) (h :: stk)) /\ stateOf (life w) h = Some active.

(** A canceled entry stays in the table until the next scan; a coroutine that has
    one is not fresh. *)
Definition schedFresh (w : World) (h : coro) : Prop := _suspended w !! h = None /\ h ∉ _ready w.

(** Queued or woken. *)
Definition runnable (w : World) : gset coro := list_to_set (_ready w) ∪ woken w.

Lemma life_of_ready l h l' :
  (exists stk, wf l stk) -> live l h -> stateOf l h <> Some ending -> ready (hcoro h) l = Ret (tt, l') ->
  (exists stk, wf l' stk)
  /\ (forall stk, wf l stk -> wf l' stk)
  /\ (forall c, live l c -> live l' c)
  /\ (forall c, stateOf l c <> Some ending -> stateOf l' c <> Some ending)
  /\ (forall c, stateOf l c = Some active -> stateOf l' c = Some active).
Proof.
  intros [stk Hwf] Hl He E. destruct (getInfo_live l h Hl) as (i & Hi & Eg).
  unfold ready, mbind, ST_bind in E. rewrite Eg in E. cbn [snd] in E.
  case_bool_decide; cbn [negb] in E; [injection E as <-; eauto 10|].
  rewrite readyInfo_ok in E by (eapply stateOf_ne; eauto). injection E as <-.
  assert (forall s, wf l s -> wf (upd h (setAwaitingCoro hnull ∘ setAwaiting None ∘ setState active) l) s) as Hw.
  { intros s. apply wf_upd; [apply ready_frames|]. right; left. intros j. left. apply ready_state. }
  assert (stateOf (upd h (setAwaitingCoro hnull ∘ setAwaiting None ∘ setState active) l) h = Some active) as Ha.
  { rewrite stateOf_upd, bool_decide_eq_true_2, Hi by done. cbn. now rewrite setState_state. }
  split_and!; [eauto|exact Hw|intros; apply live_upd; [apply ready_frames|done]| |].
  - intros c. destruct (decide (c = h)) as [->|]; [rewrite Ha; done|]. now rewrite stateOf_upd_ne.
  - intros c. destruct (decide (c = h)) as [->|]; [rewrite Ha; done|]. now rewrite stateOf_upd_ne.
Qed.

Lemma sched_susp w h :
  schedOk w -> schedCurrent w h -> schedFresh w h ->
  exists w', suspend true h w = Ret (Some h, w') /\ schedOk w' /\ schedCurrent w' h
    /\ waiting w' = {[h]} ∪ waiting w /\ runnable w' = runnable w
    /\ (forall c, c <> h -> schedFresh w c -> schedFresh w' c).
Proof.
  intros H Hc [Hs Hq].
  destruct (suspend_ok w h (so_inv w H) Hq Hs) as (w' & E & Hi & Ha & Es & El).
  injection Ha as E1 E2 E3. exists w'. split; [exact E|].
  split; [split|split_and!]; rewrite ?El; try done.
  - apply H.
  - intros x. rewrite E3, elem_of_union, elem_of_singleton. intros [->|Hx]; [|now apply (so_live w H)].
    destruct Hc as [[stk [Hwf _]] Hst]. split; [|congruence].
    now apply (wf0_top _ _ h Hwf).
  - unfold schedCurrent. now rewrite El.
  - unfold runnable. now rewrite E1, E2.
  - intros c Hne [H1 H2]. split; [|now rewrite E1]. rewrite Es. now rewrite lookup_insert_ne.
Qed.

Lemma sched_switch w h ty obj :
  schedOk w -> schedCurrent w h ->
  exists w', onLife (suspendingTo (hcoro h) ty (Some obj) hnull) w = Ret (hnoop, w') /\ schedOk w'
    /\ waiting w' = waiting w /\ runnable w' = runnable w
    /\ (forall c, schedFresh w c -> schedFresh w' c).
Proof.
  intros H [[stk Hwf] Hst]. unfold onLife, zoom.
  pose proof (top_info (life w) (h :: stk) h Hwf eq_refl) as (i & r & [= <-] & Hi & Eg & Ec).
  set (l1 := upd h (setAwaitingType (Some ty)) (upd h (setAwaiting (Some obj)) (upd h (setState awaiting) (life w)))).
  assert (wf0 l1 (h :: stk)) as Hw1 by (do 3 (apply wf0_upd; [apply setState_frames || done|]); apply Hwf).
  destruct (switchCurrent_ok l1 stk h hnull Hw1 I) as [E2 Hw2]. cbn [entered pushHandle] in *.
  assert (forall c, stateOf (popped h l1) c = if bool_decide (c = h) then Some awaiting else stateOf (life w) c) as Hs.
  { intros c. rewrite stateOf_popped. unfold l1. rewrite !stateOf_upd_same by done.
    rewrite stateOf_upd. case_bool_decide; [|done]. subst. rewrite Hi. cbn. now rewrite setState_state. }
  assert (suspendingTo (hcoro h) ty (Some obj) hnull (life w) = Ret (hnoop, popped h l1)) as ->.
  { unfold suspendingTo, mbind, ST_bind. rewrite Eg. cbn [fst snd]. rewrite Ec.
    rewrite bool_decide_eq_false_2 by done. unfold assert.
    rewrite bool_decide_eq_true_2 by (eapply lookup_state; eauto). unfold updInfo, modify. fold l1.
    unfold switching, mbind, ST_bind. cbn [isNoop]. unfold mret at 1, ST_ret at 1. now rewrite E2. }
  eexists. split; [reflexivity|]. split; [|done]. split.
  - destruct (so_inv w H). now split.
  - exists stk. split; [exact Hw2|]. destruct Hwf as [H0 [_ Hr]%Forall_cons].
    pose proof (wf_nodup _ _ H0) as [Hn _]%NoDup_cons.
    revert Hr. apply Forall_running. intros d Hd. cbn. rewrite Hs.
    rewrite bool_decide_eq_false_2; [done|]. intros ->. contradiction.
  - intros x Hx. destruct (so_live w H x Hx) as [Hl He]. cbn. split.
    + apply live_popped. do 3 (apply live_upd; [apply setState_frames || done|]). done.
    + rewrite Hs. now case_bool_decide.
Qed.

Lemma sched_wake w cur h :
  schedOk w -> h ∈ waiting w ->
  exists w', suspensionWakeUp cur (Some h) w = Ret (None, w') /\ schedOk w'
    /\ waiting w' = waiting w ∖ {[h]} /\ runnable w' = {[h]} ∪ runnable w
    /\ (forall c, schedCurrent w c -> schedCurrent w' c) /\ (forall c, schedFresh w c -> schedFresh w' c).
Proof.
  intros H Hw. destruct (so_live w H h Hw) as [Hl He].
  destruct (waiting_entry w h (so_inv w H) Hw) as (Hent & _).
  destruct (implWakeUp_ok cur w h (so_inv w H) Hw Hl He) as (w' & E & Hi & Ha & Es & El).
  injection Ha as E1 E2 E3.
  destruct (life_of_ready _ _ _ (so_stack w H) Hl He El) as (Hk1 & Hk2 & Hk3 & Hk4 & Hk5).
  exists w'. unfold suspensionWakeUp, mbind, ST_bind. rewrite E. split; [done|].
  split; [split|split_and!]; try done.
  - intros x Hx. rewrite E3 in Hx. apply elem_of_difference in Hx as [Hx _].
    destruct (so_live w H x Hx). auto.
  - unfold runnable. rewrite E1, E2. set_solver.
  - intros c [[stk Hc] Hst]. split; [exists stk; auto|auto].
  - intros c [H1 H2]. split; [|now rewrite E1]. rewrite Es, lookup_insert_ne; [done|congruence].
Qed.

Lemma sched_cancel w cur h :
  schedOk w -> h ∈ waiting w ->
  exists w', suspensionCancel cur (Some h) w = Ret (None, w') /\ schedOk w'
    /\ waiting w' = waiting w ∖ {[h]} /\ runnable w' = runnable w
    /\ (forall c, schedCurrent w c -> schedCurrent w' c) /\ (forall c, schedFresh w c -> schedFresh w' c).
Proof.
  intros H Hw. destruct (waiting_entry w h (so_inv w H) Hw) as (Hent & _).
  destruct (implCancel_ok cur w h (so_inv w H) Hw) as (w' & E & Hi & Ha & Es & El).
  injection Ha as E1 E2 E3.
  exists w'. unfold suspensionCancel, mbind, ST_bind. rewrite E. split; [done|].
  split; [split|split_and!]; rewrite ?El; try done.
  - apply H.
  - intros x Hx. rewrite E3 in Hx. apply elem_of_difference in Hx as [Hx _]. now apply (so_live w H).
  - unfold runnable. now rewrite E1, E2.
  - intros c. unfold schedCurrent. now rewrite El.
  - intros c [H1 H2]. split; [|now rewrite E1]. rewrite Es, lookup_insert_ne; [done|congruence].
Qed.

#[export] Program Instance scheduler_suspending : Suspending World := {
  susp := suspend true;
  switchAway h ty obj := onLife (suspendingTo (hcoro h) ty (Some obj) hnull);
  wake := suspensionWakeUp;
  cancel := suspensionCancel;
  okW := schedOk;
  asleep := waiting;
  awake := runnable;
  current := schedCurrent;
  fresh := schedFresh
}.
Next Obligation. exact sched_susp. Qed.
Next Obligation. exact sched_switch. Qed.
Next Obligation. exact sched_wake. Qed.
Next Obligation. exact sched_cancel. Qed.
Next Obligation. done. Qed.
Next Obligation. done. Qed.
Next Obligation.
  intros w h H Hw. destruct (waiting_entry w h (so_inv w H) Hw) as (_ & Hr & _ & Hk).
  unfold runnable. set_solver.
Qed.
Next Obligation.
  intros w h H [Hs Hr]. unfold runnable. split.
  - rewrite elem_of_waiting. intros (i & Hi & _). congruence.
  - rewrite not_elem_of_union, elem_of_list_to_set, elem_of_woken. split; [done|].
    intros (i & Hi & _). congruence.
Qed.

(** A world in which coroutine 1 has just started. *)
Definition startWorld : World :=
  mkWorld [] ∅ None false false (play [Created 1 true] emptyLifecycle).

Lemma startWorld_ok : schedOk startWorld /\ schedCurrent startWorld 1 /\ schedFresh startWorld 1.
Proof.
  assert (wf (life startWorld) [1%positive]) as Hw.
  { destruct (runCall_ok emptyLifecycle [] (Created 1 true) empty_wf) as (h & l & E & Hw).
    - intros (i & Hi & _). vm_compute in Hi. discriminate.
    - unfold startWorld, play. rewrite E. exact Hw. }
  split_and!.
  - split; [split; cbn; [constructor|done..]|eauto|].
    intros h. rewrite elem_of_waiting. intros (i & Hi & _). done.
  - split; [exists []; exact Hw|now vm_compute].
  - split; [done|set_solver].
Qed.
