(* ===== verification/Cooperative.v ===== *)
(** The smallest scheduler: which coroutines sleep and which were woken and have not run
    since.  Any coroutine that is not asleep may run next, so that what is proved of every order of
    steps over it holds for whatever order the real scheduler chooses. *)

From S2P Require Import Prelude Lifecycle Scheduler Suspending.

Record Coop := mkCoop {
  sleeping : gset coro;
  woken : gset coro
}.

Definition coopOk (w : Coop) : Prop := forall h, h ∈ sleeping w -> h ∉ woken w.

Definition coopFresh (w : Coop) (h : coro) : Prop := h ∉ sleeping w /\ h ∉ woken w.

#[export] Program Instance coop_suspending : Suspending Coop := {
  susp h w := Ret (Some h, mkCoop ({[h]} ∪ sleeping w) (woken w));
  switchAway h ty self w := Ret (hnoop, w);
  wake cur s w :=
    match s with
    | Some h => Ret (None, mkCoop (sleeping w ∖ {[h]}) ({[h]} ∪ woken w))
    | None => Ret (None, w)
    end;
  cancel cur s w :=
    match s with
    | Some h => Ret (None, mkCoop (sleeping w ∖ {[h]}) (woken w))
    | None => Ret (None, w)
    end;
  okW := coopOk;
  asleep := sleeping;
  awake := woken;
  current w h := True;
  fresh := coopFresh
}.
Next Obligation. intros w h Hw _ [H1 H2]. eexists. unfold coopOk, coopFresh in *. cbn. split_and!; try done; set_solver. Qed.
Next Obligation. intros w h ty obj Hw _. eexists. split_and!; try done. Qed.
Next Obligation. intros w cur h Hw Hh. eexists. unfold coopOk, coopFresh in *. cbn. split_and!; try done; set_solver. Qed.
Next Obligation. intros w cur h Hw Hh. eexists. unfold coopOk, coopFresh in *. cbn. split_and!; try done; set_solver. Qed.
Next Obligation. done. Qed.
Next Obligation. done. Qed.
Next Obligation. intros w h Hw. apply Hw. Qed.
Next Obligation. intros w h _ [H1 H2]. done. Qed.

(** The scheduler resumes [h]. *)
Definition dispatch (h : coro) (w : Coop) : Coop := mkCoop (sleeping w) (woken w ∖ {[h]}).

Definition runnable (h : coro) (w : Coop) : bool := bool_decide (h ∉ sleeping w).

Lemma dispatch_ok h w : coopOk w -> coopOk (dispatch h w).
Proof. unfold coopOk. cbn. set_solver. Qed.

Lemma dispatch_fresh h w : runnable h w = true -> coopFresh (dispatch h w) h.
Proof. unfold runnable, coopFresh. intros Hr%bool_decide_eq_true. cbn. set_solver. Qed.
