(* ===== verification/Generator.v ===== *)
(** Generators ([include/crouton/Generator.hh], with [YielderTo] and [SuspendFinalTo] of
    [Coroutine.hh]): a coroutine that yields values to the coroutine that awaits it, or to
    code that calls [next].

    The coroutine function is what it yields, one [co_yield] after the other, and how it
    ends.  Its frame, the promise ([GeneratorImpl]) and the lifecycle table are the state;
    control goes where the handle returned by [await_suspend] says.  Resuming a coroutine
    that is at its end is undefined ([Fault OutOfBounds]). *)

From S2P Require Import Prelude Lifecycle Errors.

Section generator.
Context {V : Type}.

(** * Data *)

Inductive bodyEnd := Returns | Throws (e : error).

Record GeneratorImpl := mkGen {
  _yielded_value : Result V;
  _consumer : coro_handle;
  _onReady : option Z;
  _ready : bool;
  _eof : bool
}.

(** The generator's coroutine [self], what it has still to do, the callbacks that were
    called, and whether the scheduler was asked to resume it. *)
Record World := mkWorld {
  self : coro;
  gen : GeneratorImpl;
  prog : list (Result V);
  fin : bodyEnd;
  done : bool;
  fired : list Z;
  queued : bool;
  life : Lifecycle
}.

Definition newGenerator : GeneratorImpl := mkGen emptyResult hnull None false false.

Definition setGen (g : GeneratorImpl) (w : World) : World :=
  mkWorld (self w) g (prog w) (fin w) (done w) (fired w) (queued w) (life w).

Definition modGen (f : GeneratorImpl -> GeneratorImpl) : ST World unit := modify (fun w => setGen (f (gen w)) w).

Definition onLife {A} (m : ST Lifecycle A) : ST World A :=
  zoom life (fun l w => mkWorld (self w) (gen w) (prog w) (fin w) (done w) (fired w) (queued w) l) m.

(** * Operations of the promise *)

Definition clear : ST World unit :=
  modGen (fun g => mkGen emptyResult (_consumer g) (_onReady g) (_ready g) (_eof g)).

Definition isReady (w : World) : bool := _ready (gen w).

Definition yieldedValue : ST World (Result V) :=
  r ← gets isReady;
  _ ← assert r;
  _ ← modGen (fun g => mkGen (_yielded_value g) (_consumer g) (_onReady g) false (_eof g));
  gets (fun w => _yielded_value (gen w)).

Definition fire (fn : Z) : ST World unit :=
  modify (fun w => mkWorld (self w) (gen w) (prog w) (fin w) (done w) (fired w ++ [fn]) (queued w) (life w)).

Definition ready : ST World unit :=
  _ ← modGen (fun g => mkGen (_yielded_value g) (_consumer g) (_onReady g) true (negb (ok (_yielded_value g))));
  g ← gets gen;
  match _onReady g with
  | None => mret tt
  | Some fn =>
      _ ← modGen (fun g => mkGen (_yielded_value g) (_consumer g) None (_ready g) (_eof g));
      fire fn
  end.

Definition setValue (r : Result V) : ST World unit :=
  modGen (fun g => mkGen r (_consumer g) (_onReady g) (_ready g) (_eof g)).

(** The coroutine to go on with; the consumer is taken. *)
Definition takeConsumer : ST World coro_handle :=
  c ← gets (fun w => _consumer (gen w));
  if bool_decide (c = hnull) then mret hnoop
  else
    _ ← modGen (fun g => mkGen (_yielded_value g) hnull (_onReady g) (_ready g) (_eof g));
    mret c.

Definition yield_value (r : Result V) : ST World coro_handle :=
  e ← gets (fun w => _eof (gen w));
  _ ← assert (negb e);
  _ ← setValue r;
  _ ← assert (negb (empty r));
  _ ← ready;
  takeConsumer.

Definition unhandled_exception (x : error) : ST World unit :=
  s ← gets self;
  _ ← onLife (threw (hcoro s));
  e ← gets (fun w => _eof (gen w));
  when (negb e) (_ ← setValue (RError (Some x)); ready).

Definition return_void : ST World unit :=
  g ← gets gen;
  _ ← when (negb (_ready g) && negb (_eof g)) (_ ← setValue emptyResult; ready);
  s ← gets self;
  onLife (returning (hcoro s)).

Definition final_suspend : ST World coro_handle :=
  r ← gets isReady;
  _ ← assert r;
  takeConsumer.

Definition generateFor (consumer : coro_handle) : ST World coro_handle :=
  c ← gets (fun w => _consumer (gen w));
  _ ← assert (bool_decide (c = hnull));
  _ ← modGen (fun g => mkGen (_yielded_value g) consumer (_onReady g) (_ready g) (_eof g));
  _ ← clear;
  s ← gets self;
  mret (hcoro s).

(** [Scheduler::current().schedule] puts the coroutine into the ready queue, once. *)
Definition schedule : ST World unit :=
  modify (fun w => mkWorld (self w) (gen w) (prog w) (fin w) (done w) (fired w) true (life w)).

Definition onReady (fn : option Z) : ST World unit :=
  g ← gets gen;
  match fn with
  | None => modGen (fun g => mkGen (_yielded_value g) (_consumer g) None (_ready g) (_eof g))
  | Some f =>
      if _ready g then fire f
      else
        _ ← when (bool_decide (_onReady g = None)) schedule;
        _ ← modGen (fun g => mkGen (_yielded_value g) (_consumer g) (Some f) (_ready g) (_eof g));
        clear
  end.

(** * Running the coroutine *)

(** From its resumption to its next suspension: the coroutine control goes to. *)
Definition runBody : ST World coro_handle :=
  w ← get;
  if done w then crash OutOfBounds
  else
    match prog w with
    | r :: rest =>
        _ ← modify (fun w => mkWorld (self w) (gen w) rest (fin w) (done w) (fired w) (queued w) (life w));
        target ← yield_value r;
        onLife (yieldingTo (hcoro (self w)) target true)
    | [] =>
        _ ← (match fin w with Returns => return_void | Throws x => unhandled_exception x end);
        target ← final_suspend;
        _ ← modify (fun w => mkWorld (self w) (gen w) (prog w) (fin w) true (fired w) (queued w) (life w));
        onLife (finalSuspend (hcoro (self w)) target)
    end.

(** [co_await generator] in the coroutine [c].  When control does not come back to [c], it
    waits for ever. *)
Definition await_suspend (c : coro) : ST World coro_handle :=
  next ← generateFor (hcoro c);
  s ← gets self;
  onLife (suspendingToCoro (hcoro c) (hcoro s) next).

Definition await (c : coro) : ST World (Result V) :=
  r ← gets isReady;
  if (r : bool) then yieldedValue
  else
    _ ← await_suspend c;
    h ← runBody;
    if bool_decide (h = hcoro c) then yieldedValue else crash NoFuel.

(** [next], for code outside of coroutines. *)
Fixpoint nextLoop (fuel : nat) : ST World unit :=
  r ← gets isReady;
  if (r : bool) then mret tt
  else
    match fuel with
    | O => crash NoFuel
    | S f =>
        s ← gets self;
        _ ← onLife (resume (hcoro s));
        _ ← runBody;
        nextLoop f
    end.

Definition next (fuel : nat) : ST World (Result V) :=
  _ ← clear;
  d ← gets done;
  if (d : bool) then mret emptyResult
  else
    _ ← nextLoop fuel;
    yieldedValue.

(** The scheduler's event loop resumes the generator it was asked to. *)
Definition runQueued : ST World coro_handle :=
  s ← gets self;
  _ ← modify (fun w => mkWorld (self w) (gen w) (prog w) (fin w) (done w) (fired w) false (life w));
  _ ← onLife (resume (hcoro s));
  runBody.

(** * What a series of values looks like *)

Fixpoint awaits (n : nat) (c : coro) : ST World (list (Result V)) :=
  match n with
  | O => mret []
  | S k => r ← await c; rest ← awaits k c; mret (r :: rest)
  end.

Fixpoint nexts (n : nat) : ST World (list (Result V)) :=
  match n with
  | O => mret []
  | S k => r ← next 1; rest ← nexts k; mret (r :: rest)
  end.

Definition endResult (f : bodyEnd) : Result V := match f with Returns => emptyResult | Throws e => RError (Some e) end.

(** * Lemmas on the lifecycle calls *)

Lemma own_frames g f l : frames f -> ownUpdate g l (upd g f l).
Proof. intros Hf. apply ownUpdate_step; [done|apply ownUpdate_refl]. Qed.

Lemma live_own g l l' d : ownUpdate g l l' -> live l d -> live l' d.
Proof. intros (f & Hf & ->). now apply live_upd. Qed.

(** The coroutine on top of the stack leaves for [next]. *)
Lemma life_leave l l1 stk g nxt :
  wf l (g :: stk) -> canEnter l (g :: stk) nxt -> nxt <> hnull -> ownUpdate g l l1 ->
  exists l', switching g nxt l1 = Ret (nxt, l') /\ wf l' (pushHandle nxt stk) /\ stateOf l' g = stateOf l1 g
    /\ (forall d, nxt = hcoro d -> stateOf l' d = Some active) /\ forall d, live l d -> live l' d.
Proof.
  intros Hw Hn Hnn Ho. destruct (leave_ok l l1 stk g nxt Hw Hn Ho) as (l' & E & Hw' & M1 & M2 & M3).
  rewrite bool_decide_eq_false_2 in E by done. exists l'. split_and!; try done.
  - apply M2. intros ->. destruct Hn as (_ & _ & Hn). set_solver.
  - intros d Hd. apply M3. now apply (live_own g l).
Qed.

Lemma life_await l stk c g :
  wf l (c :: stk) -> stateOf l c = Some active -> canEnter l (c :: stk) (hcoro g) ->
  exists l', suspendingToCoro (hcoro c) (hcoro g) (hcoro g) l = Ret (hcoro g, l') /\ wf l' (g :: stk)
    /\ stateOf l' c = Some awaiting /\ stateOf l' g = Some active /\ forall d, live l d -> live l' d.
Proof.
  intros Hw Ha Hn. destruct (top_info l _ c Hw eq_refl) as (i & r & [= <-] & Hi & E & E2).
  assert (g <> c) as Hne by (destruct Hn as (_ & _ & Hn); set_solver).
  unfold suspendingToCoro, mbind, ST_bind. rewrite E. cbn [fst snd]. rewrite E2, bool_decide_eq_false_2 by congruence.
  unfold assert. rewrite bool_decide_eq_true_2 by exact (lookup_state _ _ _ _ Hi Ha). unfold updInfo, modify.
  destruct (life_leave l (upd c (setAwaitingCoro (hcoro g)) (upd c (setState awaiting) l)) stk c (hcoro g)) as (l' & E3 & Hw' & Es & Eg & Hl); [done|done|done| |].
  { apply ownUpdate_step; [apply frames_awaitingCoro|]. apply own_frames, setState_frames. }
  exists l'. split; [exact E3|]. split_and!; [done| |now apply Eg|done].
  rewrite Es, stateOf_upd_same by done. apply stateOf_setState. destruct Hw as [Hw _]. apply (chain_live l (c :: stk)); [apply Hw|set_solver].
Qed.

Lemma life_yield l stk g nxt :
  wf l (g :: stk) -> stateOf l g = Some active -> canEnter l (g :: stk) nxt -> nxt <> hnull -> nxt <> hcoro g ->
  exists l', yieldingTo (hcoro g) nxt true l = Ret (nxt, l') /\ wf l' (pushHandle nxt stk)
    /\ stateOf l' g = Some yielding /\ (forall d, nxt = hcoro d -> stateOf l' d = Some active) /\ forall d, live l d -> live l' d.
Proof.
  intros Hw Ha Hn Hnn Hne. destruct (top_info l _ g Hw eq_refl) as (i & r & [= <-] & Hi & E & E2).
  unfold yieldingTo, mbind, ST_bind. rewrite E. cbn [fst snd]. rewrite E2, bool_decide_eq_false_2 by congruence.
  unfold assert. rewrite bool_decide_eq_true_2 by exact (lookup_state _ _ _ _ Hi Ha). unfold updInfo, modify, when.
  set (l1 := upd g (setState yielding) l). assert (ownUpdate g l l1) as Ho1 by apply own_frames, setState_frames.
  assert (stateOf l1 g = Some yielding) as Es1.
  { apply stateOf_setState. destruct Hw as [Hw _]. apply (chain_live l (g :: stk)); [apply Hw|set_solver]. }
  destruct (true && negb (isNoop nxt)) eqn:En.
  - destruct (life_leave l (upd g (setAwaitingCoro nxt) l1) stk g nxt) as (l' & E3 & Hw' & Es & Eg & Hl); [done|done|done|now apply ownUpdate_step|].
    exists l'. split; [exact E3|]. split_and!; try done. now rewrite Es, stateOf_upd_same.
  - destruct (life_leave l l1 stk g nxt) as (l' & E3 & Hw' & Es & Eg & Hl); [done|done|done|done|].
    exists l'. split; [exact E3|]. split_and!; try done. congruence.
Qed.

(** The last suspension, after [returning] or [threw]. *)
Lemma life_final l stk g nxt :
  wf l (g :: stk) -> stateOf l g = Some ending -> canEnter l (g :: stk) nxt -> nxt <> hnull ->
  exists l', finalSuspend (hcoro g) nxt l = Ret (nxt, l') /\ wf l' (pushHandle nxt stk)
    /\ (forall d, nxt = hcoro d -> stateOf l' d = Some active).
Proof.
  intros Hw Ha Hn Hnn. destruct (top_info l _ g Hw eq_refl) as (i & r & [= <-] & Hi & E & E2).
  unfold finalSuspend, mbind, ST_bind. rewrite E. cbn [fst snd]. rewrite E2, (lookup_state _ _ _ _ Hi Ha). cbn [stateRank Nat.ltb Nat.leb when]. unfold mret, ST_ret.
  destruct (life_leave l l stk g nxt) as (l' & E3 & Hw' & _ & Eg & _); [done|done|done|apply ownUpdate_refl|]. eauto.
Qed.

Lemma life_ending l stk g :
  wf l (g :: stk) ->
  returning (hcoro g) l = Ret (tt, upd g (setState ending) l) /\ threw (hcoro g) l = Ret (tt, upd g (setState ending) l)
  /\ wf (upd g (setState ending) l) (g :: stk) /\ stateOf (upd g (setState ending) l) g = Some ending.
Proof.
  intros Hw. destruct (top_info l _ g Hw eq_refl) as (i & r & [= <-] & Hi & E & E2).
  unfold returning, threw, mbind, ST_bind. rewrite E. cbn [fst snd]. rewrite E2. unfold updInfo, modify. split_and!; try done.
  - apply wf_upd; [apply setState_frames| |done]. right. left. intros j. rewrite setState_state. now right.
  - apply stateOf_setState. destruct Hw as [Hw _]. apply (chain_live l (g :: stk)); [apply Hw|set_solver].
Qed.

(** * Lemmas on the generator *)

Definition calls (o : option Z) : list Z := match o with Some f => [f] | None => [] end.

(** Where control goes when a value is ready. *)
Definition target (c : coro_handle) : coro_handle := if bool_decide (c = hnull) then hnoop else c.

Lemma ready_run s g p f d fi q l :
  ready (mkWorld s g p f d fi q l)
  = Ret (tt, mkWorld s (mkGen (_yielded_value g) (_consumer g) None true (negb (ok (_yielded_value g)))) p f d (fi ++ calls (_onReady g)) q l).
Proof. destruct g as [v c [fn|] r e]; cbn; [done|]. now rewrite app_nil_r. Qed.

Lemma takeConsumer_run s g p f d fi q l :
  takeConsumer (mkWorld s g p f d fi q l)
  = Ret (target (_consumer g), mkWorld s (mkGen (_yielded_value g) hnull (_onReady g) (_ready g) (_eof g)) p f d fi q l).
Proof.
  unfold takeConsumer, target, mbind, ST_bind, gets. cbn [gen]. destruct g as [v c o r e]; cbn [_consumer]. case_bool_decide; [|done]. now subst.
Qed.

Lemma runBody_yield w stk r rest :
  wf (life w) (self w :: stk) -> stateOf (life w) (self w) = Some active -> done w = false -> prog w = r :: rest -> empty r = false -> _eof (gen w) = false ->
  let t := target (_consumer (gen w)) in
  canEnter (life w) (self w :: stk) t -> t <> hcoro (self w) ->
  exists l', runBody w = Ret (t, mkWorld (self w) (mkGen r hnull None true (negb (ok r))) rest (fin w) false (fired w ++ calls (_onReady (gen w))) (queued w) l')
    /\ wf l' (pushHandle t stk) /\ stateOf l' (self w) = Some yielding /\ (forall d, t = hcoro d -> stateOf l' d = Some active) /\ forall d, live (life w) d -> live l' d.
Proof.
  intros Hw Ha Hd Hp Hne0 He t Hn Hne. assert (t <> hnull) as Hnn by (unfold t, target; case_bool_decide; done).
  destruct (life_yield _ _ _ _ Hw Ha Hn Hnn Hne) as (l' & E & H). exists l'. split; [|exact H].
  destruct w as [s g p f d fi q l]. cbn [self gen prog fin done fired queued life] in *. subst p d.
  unfold runBody, yield_value, mbind, ST_bind, get, modify, gets, assert. cbn [done prog self gen fin fired queued life]. rewrite He. cbn [negb].
  unfold setValue, modGen, modify, setGen. cbn [self gen prog fin done fired queued life]. rewrite Hne0. cbn [negb]. rewrite ready_run, takeConsumer_run.
  cbn [_consumer _yielded_value _onReady _ready _eof]. fold t. unfold onLife, zoom. cbn [life self gen prog fin done fired queued]. now rewrite E.
Qed.

Lemma runBody_end w stk :
  wf (life w) (self w :: stk) -> stateOf (life w) (self w) = Some active -> done w = false -> prog w = [] ->
  _eof (gen w) = false -> _ready (gen w) = false ->
  let t := target (_consumer (gen w)) in
  canEnter (life w) (self w :: stk) t -> t <> hcoro (self w) ->
  exists l', runBody w = Ret (t, mkWorld (self w) (mkGen (endResult (fin w)) hnull None true true) [] (fin w) true (fired w ++ calls (_onReady (gen w))) (queued w) l')
    /\ wf l' (pushHandle t stk) /\ (forall d, t = hcoro d -> stateOf l' d = Some active).
Proof.
  intros Hw Ha Hd Hp He Hr t Hn Hne. assert (t <> hnull) as Hnn by (unfold t, target; case_bool_decide; done).
  destruct (life_ending _ _ _ Hw) as (E1 & E2 & Hw1 & Ha1).
  assert (canEnter (upd (self w) (setState ending) (life w)) (self w :: stk) t) as Hn1 by (apply canEnter_upd; [apply setState_frames|set_solver|done]).
  destruct (life_final _ _ _ _ Hw1 Ha1 Hn1 Hnn) as (l' & E & H). exists l'. split; [|exact H].
  destruct w as [s g p f d fi q l]. cbn [self gen prog fin done fired queued life] in *. subst p d.
  unfold runBody, mbind, ST_bind, get. cbn [done prog self fin].
  assert ((match f with Returns => return_void | Throws x => unhandled_exception x end) (mkWorld s g [] f false fi q l)
          = Ret (tt, mkWorld s (mkGen (endResult f) (_consumer g) None true true) [] f false (fi ++ calls (_onReady g)) q (upd s (setState ending) l))) as ->.
  { destruct f; unfold return_void, unhandled_exception, mbind, ST_bind, gets, onLife, zoom, when; cbn [gen self life]; rewrite ?E2; cbn [gen self prog fin done fired queued life];
      rewrite ?Hr, He; cbn [negb andb]; unfold setValue, modGen, modify, setGen; cbn [self gen prog fin done fired queued life]; rewrite ready_run; cbn [self life gen prog fin done fired queued]; rewrite ?E1; done. }
  unfold final_suspend, mbind, ST_bind, gets, isReady, assert, modify. cbn [gen _ready]. rewrite takeConsumer_run. cbn [_consumer _yielded_value _onReady _ready _eof self gen prog fin done fired queued life].
  unfold onLife, zoom. cbn [life]. fold t. now rewrite E.
Qed.

(** The generator is suspended and nothing is ready. *)
Record Idle (w : World) (stk : list coro) (rs : list (Result V)) : Prop := {
  i_wf : wf (life w) stk;
  i_enter : canEnter (life w) stk (hcoro (self w));
  i_state : stateOf (life w) (self w) <> Some ending;
  i_gen : _consumer (gen w) = hnull /\ _ready (gen w) = false /\ _eof (gen w) = false;
  i_done : done w = false;
  i_prog : prog w = rs
}.

Lemma await_run w c stk rs :
  Idle w (c :: stk) rs -> stateOf (life w) c = Some active ->
  exists l1, await c w = (h ← runBody; if bool_decide (h = hcoro c) then yieldedValue else crash NoFuel)
                           (mkWorld (self w) (mkGen emptyResult (hcoro c) (_onReady (gen w)) false false) (prog w) (fin w) false (fired w) (queued w) l1)
    /\ wf l1 (self w :: stk) /\ stateOf l1 (self w) = Some active /\ canEnter l1 (self w :: stk) (hcoro c) /\ self w <> c
    /\ (forall d, live (life w) d -> live l1 d).
Proof.
  intros [Hw He Hs (Hc & Hr & Hf) Hd Hp] Ha.
  destruct (life_await _ _ _ _ Hw Ha He) as (l1 & E & Hw1 & Ec & Eg & Hl). assert (self w <> c) as Hne by (destruct He as (_ & _ & He); set_solver).
  exists l1. destruct w as [s g p f d fi q l]. destruct g as [v k o r e]. cbn [self gen prog fin done fired queued life _consumer _ready _eof _onReady] in *. subst.
  split_and!; try done.
  - unfold await, mbind, ST_bind, gets, isReady, await_suspend, generateFor, mbind, ST_bind, gets, assert. cbn [gen _ready _consumer].
    rewrite bool_decide_eq_true_2 by done. unfold clear, modGen, modify, setGen, mret, ST_ret. cbn [self gen prog fin done fired queued life _consumer _yielded_value _ready _eof _onReady].
    unfold onLife, zoom. cbn [life self gen prog fin done fired queued]. now rewrite E.
  - split; [|split].
    + apply Hl. destruct Hw as [Hw _]. apply (chain_live l (c :: stk)); [apply Hw|set_solver].
    + congruence.
    + destruct Hw as [Hw _]. pose proof (wf_nodup _ _ Hw) as Hnd. apply NoDup_cons in Hnd as [Hnd _]. set_solver.
Qed.
(** Where the generator's frame is after a value was taken. *)
Lemma idle_after w l stk rs o fi q :
  wf l stk -> live l (self w) -> stateOf l (self w) = Some yielding -> self w ∉ stk ->
  Idle (mkWorld (self w) (mkGen o hnull None false false) rs (fin w) false fi q l) stk rs.
Proof. intros Hw Hl Hs Hn. split; cbn; try done; rewrite Hs; [split_and!; [done|discriminate|done]|discriminate]. Qed.

Lemma await_value w c stk v rs :
  Idle w (c :: stk) (RValue v :: rs) -> stateOf (life w) c = Some active ->
  exists w', await c w = Ret (RValue v, w') /\ Idle w' (c :: stk) rs /\ stateOf (life w') c = Some active
    /\ self w' = self w /\ fin w' = fin w /\ fired w' = fired w ++ calls (_onReady (gen w)).
Proof.
  intros Hi Ha. destruct (await_run w c stk _ Hi Ha) as (l1 & E & Hw1 & Eg & Hn & Hne & Hl1).
  pose proof (i_enter _ _ _ Hi) as (Hlg & _ & Hns). pose proof (i_prog _ _ _ Hi) as Hp. rewrite Hp in E.
  destruct (runBody_yield (mkWorld (self w) (mkGen emptyResult (hcoro c) (_onReady (gen w)) false false) (RValue v :: rs) (fin w) false (fired w) (queued w) l1) stk (RValue v) rs)
    as (l2 & E2 & Hw2 & Es & Ec & Hl2); try done; [now intros [= ->]|].
  cbn [gen _consumer _onReady self life fin fired queued] in *. change (target (hcoro c)) with (hcoro c) in *. cbn [pushHandle] in Hw2.
  eexists. split; [|split; [|split]].
  - rewrite E. unfold mbind, ST_bind. rewrite E2, bool_decide_eq_true_2 by done. reflexivity.
  - cbn. apply idle_after; auto.
  - now apply Ec.
  - done.
Qed.

(** A yielded error ends the series. *)
Lemma await_error w c stk e rs :
  Idle w (c :: stk) (RError (Some e) :: rs) -> stateOf (life w) c = Some active ->
  exists w', await c w = Ret (RError (Some e), w') /\ wf (life w') (c :: stk) /\ stateOf (life w') c = Some active.
Proof.
  intros Hi Ha. destruct (await_run w c stk _ Hi Ha) as (l1 & E & Hw1 & Eg & Hn & Hne & Hl1).
  pose proof (i_prog _ _ _ Hi) as Hp. rewrite Hp in E.
  destruct (runBody_yield (mkWorld (self w) (mkGen emptyResult (hcoro c) (_onReady (gen w)) false false) (RError (Some e) :: rs) (fin w) false (fired w) (queued w) l1) stk (RError (Some e)) rs)
    as (l2 & E2 & Hw2 & Es & Ec & Hl2); try done; [now intros [= ->]|].
  cbn [gen _consumer _onReady self life fin fired queued] in *. change (target (hcoro c)) with (hcoro c) in *. cbn [pushHandle] in Hw2.
  eexists. split; [|split].
  - rewrite E. unfold mbind, ST_bind. rewrite E2, bool_decide_eq_true_2 by done. reflexivity.
  - exact Hw2.
  - now apply Ec.
Qed.

Lemma await_end w c stk :
  Idle w (c :: stk) [] -> stateOf (life w) c = Some active ->
  exists w', await c w = Ret (endResult (fin w), w') /\ wf (life w') (c :: stk) /\ stateOf (life w') c = Some active
    /\ done w' = true /\ fired w' = fired w ++ calls (_onReady (gen w)).
Proof.
  intros Hi Ha. destruct (await_run w c stk _ Hi Ha) as (l1 & E & Hw1 & Eg & Hn & Hne & Hl1).
  pose proof (i_prog _ _ _ Hi) as Hp. rewrite Hp in E.
  destruct (runBody_end (mkWorld (self w) (mkGen emptyResult (hcoro c) (_onReady (gen w)) false false) [] (fin w) false (fired w) (queued w) l1) stk)
    as (l2 & E2 & Hw2 & Ec); try done; [now intros [= ->]|].
  cbn [gen _consumer _onReady self life fin fired queued] in *. change (target (hcoro c)) with (hcoro c) in *. cbn [pushHandle] in Hw2.
  eexists. split; [|split; [|split]].
  - rewrite E. unfold mbind, ST_bind. cbn [map]. rewrite E2, bool_decide_eq_true_2 by done. reflexivity.
  - done.
  - now apply Ec.
  - done.
Qed.

(** Resumed from outside, by [next] or by the event loop, the generator comes back with the
    next value ready. *)
Lemma resumed_value w stk v rs :
  Idle w stk (RValue v :: rs) ->
  exists l', (_ ← onLife (resume (hcoro (self w))); runBody) w
             = Ret (hnoop, mkWorld (self w) (mkGen (RValue v) hnull None true false) rs (fin w) false (fired w ++ calls (_onReady (gen w))) (queued w) l')
    /\ wf l' stk /\ stateOf l' (self w) = Some yielding /\ live l' (self w).
Proof.
  intros [Hw (Hl & Ha & Hs) He (Hc & Hr & Hf) Hd Hp]. destruct (resume_ok _ _ _ Hw Hl He Hs) as (l1 & E & Hw1 & M1 & _ & M3).
  destruct w as [s g p f d fi q l]. cbn [self gen prog fin done fired queued life] in *.
  destruct (runBody_yield (mkWorld s g p f d fi q l1) stk (RValue v) rs) as (l2 & E2 & Hw2 & Es & _ & M4); cbn [self gen prog fin done fired queued life]; try done.
  { now apply M1. } { now rewrite Hc. } { now rewrite Hc. }
  cbn [self gen prog fin done fired queued life] in *. rewrite Hc in *. cbn in Hw2. exists l2. split_and!; auto.
  unfold mbind, ST_bind, onLife, zoom. cbn [self gen prog fin done fired queued life]. rewrite E. exact E2.
Qed.

Lemma resumed_end w stk :
  Idle w stk [] ->
  exists l', (_ ← onLife (resume (hcoro (self w))); runBody) w
             = Ret (hnoop, mkWorld (self w) (mkGen (endResult (fin w)) hnull None true true) [] (fin w) true (fired w ++ calls (_onReady (gen w))) (queued w) l')
    /\ wf l' stk.
Proof.
  intros [Hw (Hl & Ha & Hs) He (Hc & Hr & Hf) Hd Hp]. destruct (resume_ok _ _ _ Hw Hl He Hs) as (l1 & E & Hw1 & M1 & _ & M3).
  destruct w as [s g p f d fi q l]. cbn [self gen prog fin done fired queued life] in *.
  destruct (runBody_end (mkWorld s g p f d fi q l1) stk) as (l2 & E2 & Hw2 & _); cbn [self gen prog fin done fired queued life]; try done.
  { now apply M1. } { now rewrite Hc. } { now rewrite Hc. }
  cbn [self gen prog fin done fired queued life] in *. rewrite Hc in *. cbn in Hw2. exists l2. split_and!; auto.
  unfold mbind, ST_bind, onLife, zoom. cbn [self gen prog fin done fired queued life]. rewrite E. exact E2.
Qed.

(** What was last yielded does not matter. *)
Definition cleared (w : World) : World :=
  setGen (mkGen emptyResult (_consumer (gen w)) (_onReady (gen w)) (_ready (gen w)) (_eof (gen w))) w.

Lemma idle_cleared w stk rs : Idle w stk rs -> Idle (cleared w) stk rs.
Proof. intros [? ? ? ? ? ?]. now split. Qed.

Lemma next_run w stk rs w1 :
  Idle w stk rs -> (_ ← onLife (resume (hcoro (self w))); runBody) (cleared w) = Ret (hnoop, w1) -> _ready (gen w1) = true ->
  next 1 w = yieldedValue w1.
Proof.
  intros [_ _ _ (_ & Hr & _) Hd _] E Hr1. unfold next. unfold mbind at 1, ST_bind at 1. change (clear w) with (Ret (tt, cleared w)).
  unfold mbind at 1, ST_bind at 1, gets at 1. change (done (cleared w)) with (done w). rewrite Hd. unfold mbind at 1, ST_bind at 1.
  unfold mbind, ST_bind in E. cbn [nextLoop]. unfold mbind, ST_bind, gets, isReady. change (_ready (gen (cleared w))) with (_ready (gen w)). rewrite Hr.
  change (self (cleared w)) with (self w). destruct (onLife (resume (hcoro (self w))) (cleared w)) as [[[] w0]| |]; try discriminate. rewrite E, Hr1. done.
Qed.

Lemma next_value w stk v rs :
  Idle w stk (RValue v :: rs) -> exists w', next 1 w = Ret (RValue v, w') /\ Idle w' stk rs /\ fin w' = fin w.
Proof.
  intros Hi. pose proof (i_enter _ _ _ Hi) as (_ & _ & Hns). destruct (resumed_value (cleared w) stk v rs (idle_cleared _ _ _ Hi)) as (l' & E & Hw & Hs & Hl).
  rewrite (next_run w stk _ _ Hi E) by done. eexists. split; [reflexivity|]. split; [|done]. now apply (idle_after w).
Qed.

Lemma next_end w stk :
  Idle w stk [] -> exists w', next 1 w = Ret (endResult (fin w), w') /\ done w' = true.
Proof.
  intros Hi. destruct (resumed_end (cleared w) stk (idle_cleared _ _ _ Hi)) as (l' & E & Hw).
  rewrite (next_run w stk _ _ Hi E) by done. eexists. split; reflexivity.
Qed.

Lemma nexts_done k w : done w = true -> exists w', nexts k w = Ret (replicate k emptyResult, w').
Proof.
  revert w. induction k as [|k IH]; intros w Hd; [eexists; reflexivity|].
  destruct (IH (cleared w) Hd) as [w' E]. exists w'. cbn [nexts replicate].
  assert (next 1 w = Ret (emptyResult, cleared w)) as E1.
  { unfold next, mbind, ST_bind. change (clear w) with (Ret (tt, cleared w)). unfold gets. change (done (cleared w)) with (done w). now rewrite Hd. }
  unfold mbind, ST_bind. now rewrite E1, E.
Qed.

(** * Properties *)

(** C10: a generator that yields the values [vs] and then returns or throws delivers them
    in order and then its end, an empty result or the error, whichever way it is consumed: by
    a coroutine that awaits it, which is running again after each await, and by code outside of
    coroutines that calls [next], for which every later call gives an empty result.  A callback given
    to [onReady] has the generator scheduled; it is called once, when the generator has run to its
    next value, and awaiting then returns that value without suspending. *)
Theorem generator_series w stk vs :
  Idle w stk (map RValue vs) ->
  (forall c rest, stk = c :: rest -> stateOf (life w) c = Some active ->
     exists w', awaits (length vs + 1) c w = Ret (map RValue vs ++ [endResult (fin w)], w')
       /\ wf (life w') stk /\ stateOf (life w') c = Some active)
  /\ (forall k, exists w', nexts (length vs + 1 + k) w = Ret (map RValue vs ++ endResult (fin w) :: replicate k emptyResult, w'))
  /\ (forall f, _onReady (gen w) = None ->
        exists w1 w2, onReady (Some f) w = Ret (tt, w1) /\ queued w1 = true /\ fired w1 = fired w
          /\ runQueued w1 = Ret (hnoop, w2) /\ fired w2 = fired w ++ [f] /\ wf (life w2) stk
          /\ forall c, exists w3, await c w2 = Ret (hd (endResult (fin w)) (map RValue vs), w3) /\ life w3 = life w2).
Proof.
  intros Hi. split_and!.
  - revert w Hi. induction vs as [|v vs IH]; intros w Hi c rest -> Ha; cbn [length Nat.add awaits map app]; unfold mbind, ST_bind.
    + destruct (await_end w c rest Hi Ha) as (w' & -> & Hw & Hc & _). eauto.
    + destruct (await_value w c rest v _ Hi Ha) as (w' & -> & Hi' & Hc & _ & <- & _).
      destruct (IH w' Hi' c rest eq_refl Hc) as (w2 & E & H). exists w2. rewrite E. auto.
  - intros k. revert w Hi. induction vs as [|v vs IH]; intros w Hi; cbn [length Nat.add nexts map app]; unfold mbind, ST_bind.
    + destruct (next_end w stk Hi) as (w' & -> & Hd). destruct (nexts_done k w' Hd) as [w2 ->]. eauto.
    + destruct (next_value w stk v _ Hi) as (w' & -> & Hi' & <-). destruct (IH w' Hi') as [w2 ->]. eauto.
  - intros f Ho. set (w1 := mkWorld (self w) (mkGen emptyResult hnull (Some f) false false) (prog w) (fin w) (done w) (fired w) true (life w)).
    assert (onReady (Some f) w = Ret (tt, w1)) as E1.
    { destruct Hi as [_ _ _ (Hc & Hr & Hf) _ _]. unfold onReady, mbind, ST_bind, gets, when. rewrite Hr, Ho, bool_decide_eq_true_2 by done.
      unfold schedule, modGen, clear, modify, setGen, w1. cbn. now rewrite Hc, Hr, Hf. }
    assert (Idle (mkWorld (self w) (gen w1) (prog w) (fin w) (done w) (fired w) false (life w)) stk (map RValue vs)) as Hi1 by (destruct Hi; now split).
    destruct vs as [|v vs].
    + destruct (resumed_end _ _ Hi1) as (l' & E & Hw). eexists w1, _. split_and!; [exact E1|done|done|exact E|done|exact Hw|]. intros c. eexists. split; reflexivity.
    + destruct (resumed_value _ _ _ _ Hi1) as (l' & E & Hw & _). eexists w1, _. split_and!; [exact E1|done|done|exact E|done|exact Hw|]. intros c. eexists. split; reflexivity.
Qed.

(** [next] forgets a value that is ready: after the callback of [onReady], it returns an
    empty result, as at the end, and the value is lost. *)
Theorem next_drops_ready_value w v :
  done w = false -> _ready (gen w) = true -> _yielded_value (gen w) = RValue v -> forall n,
  exists w', next n w = Ret (emptyResult, w') /\ _ready (gen w') = false /\ prog w' = prog w.
Proof.
  intros Hd Hr Hv n. destruct w as [s [y c o r e] p f d fi q l]. cbn in *. subst.
  exists (mkWorld s (mkGen emptyResult c o false e) p f false fi q l). split; [destruct n; reflexivity|]. split; reflexivity.
Qed.
(** [await_suspend] has no test for the end of the coroutine, which [next] has: awaiting a
    generator whose end was already delivered never returns a result. *)
Theorem await_finished_undefined w c :
  done w = true -> _ready (gen w) = false -> forall r w', await c w <> Ret (r, w').
Proof.
  intros Hd Hr r w'. unfold await, mbind, ST_bind, gets, isReady. rewrite Hr.
  destruct (await_suspend c w) as [[h w1]| |] eqn:E; try discriminate.
  assert (done w1 = true) as Hd1.
  { revert E. unfold await_suspend, generateFor, mbind, ST_bind, gets, assert. case_bool_decide; [|discriminate].
    unfold clear, modGen, modify, setGen, mret, ST_ret, onLife, zoom. cbn [self gen prog fin done fired queued life].
    destruct (suspendingToCoro _ _ _ _) as [[]| |]; try discriminate. intros [= _ <-]. exact Hd. }
  unfold runBody, mbind, ST_bind, get. rewrite Hd1. discriminate.
Qed.
End generator.
Arguments World : clear implicits.
Arguments GeneratorImpl : clear implicits.

(** A coroutine that runs, and a generator it was handed, not yet started. *)
Definition exampleWorld : World Z :=
  mkWorld 2 newGenerator (map RValue [10%Z; 20%Z; 30%Z]) Returns false [] false
    (play [Created 1 true; SuspendInitial 1; Resume 1; Created 2 false] emptyLifecycle).

Lemma exampleWorld_wf : wf (life exampleWorld) [1%positive].
Proof.
  split; [split|repeat constructor].
    - repeat split; eexists; split_and!; reflexivity.
    - repeat constructor. set_solver.
    - intros d i Hd. vm_compute in Hd. destruct d as [d|d|]; try destruct d; try discriminate; injection Hd as <-; auto.
    - intros d i Hd Hn. vm_compute in Hd. destruct d as [d|d|]; try destruct d; try discriminate; injection Hd as <-; done.
Qed.

Lemma generator_series_witness :
  Idle exampleWorld [1%positive] (map RValue [10%Z; 20%Z; 30%Z])
  /\ exists w', awaits 4 1 exampleWorld = Ret ([RValue 10%Z; RValue 20%Z; RValue 30%Z; emptyResult], w').
Proof.
  pose proof exampleWorld_wf as Hw.
  assert (Idle exampleWorld [1%positive] (map RValue [10%Z; 20%Z; 30%Z])) as Hi.
  { split; [exact Hw| |vm_compute; discriminate|done|done|done]. split_and!; [eexists; split; reflexivity|vm_compute; discriminate|set_solver]. }
  split; [exact Hi|]. destruct (generator_series exampleWorld [1%positive] [10%Z; 20%Z; 30%Z] Hi) as [H _].
  destruct (H 1%positive [] eq_refl eq_refl) as (w' & E & _). exists w'. exact E.
Defined.
