(* ===== verification/Select.v ===== *)
(** [Select] ([src/Select.cc], [include/crouton/Select.hh]): a coroutine waits for the first
    of up to eight sources that can be awaited without blocking.

    A source is an [ISelectable] ([Awaitable.hh]): [onReady] calls the callback at once when the
    source is ready, keeps it otherwise, and forgets it when given none.  The callbacks are
    those the [Select] hands out, so one is the index it notifies.  The coroutine sleeps on
    the interface of [Suspending.v]; everything is on the scheduler's thread. *)

From S2P Require Import Prelude Lifecycle Scheduler Suspending.

(** * Data *)

Definition kMaxSources : nat := 8.

Record Source := mkSource {
  sReady : bool;
  sCallback : option nat
}.

Record Select := mkSelect {
  _sources : list (option nat);
  _enabled : list bool;
  _readyBits : list bool;
  _suspension : Suspension
}.

Section select.
Context {W : Type} `{Suspending W}.

Record Env := mkEnv {
  sel : Select;
  srcs : gmap nat Source;
  base : W
}.

Definition modSel (f : Select -> Select) : ST Env unit := modify (fun e => mkEnv (f (sel e)) (srcs e) (base e)).

Definition modSrc (p : nat) (f : Source -> Source) : ST Env unit :=
  modify (fun e => mkEnv (sel e) (alter f p (srcs e)) (base e)).

Definition onBase {A} (m : ST W A) : ST Env A := zoom base (fun b e => mkEnv (sel e) (srcs e) b) m.

Definition setEnabled (i : nat) (b : bool) (s : Select) : Select :=
  mkSelect (_sources s) (<[i := b]> (_enabled s)) (_readyBits s) (_suspension s).

Definition setReadyBit (i : nat) (b : bool) (s : Select) : Select :=
  mkSelect (_sources s) (_enabled s) (<[i := b]> (_readyBits s)) (_suspension s).

Definition setSuspension (x : Suspension) (s : Select) : Select :=
  mkSelect (_sources s) (_enabled s) (_readyBits s) x.

(** * Operations *)

(** The constructor. *)
Definition newSelect (ps : list nat) : outcome Select :=
  _ ← precondition (bool_decide (length ps <= kMaxSources)%nat);
  Ret (mkSelect ((Some <$> ps) ++ replicate (kMaxSources - length ps) None)
         (replicate kMaxSources false) (replicate kMaxSources false) None).

Definition notify (index : nat) : ST Env unit :=
  _ ← modSel (setReadyBit index true);
  _ ← modSel (setEnabled index false);
  x ← gets (fun e => _suspension (sel e));
  x' ← onBase (wake true x);
  modSel (setSuspension x').

(** A source's [onReady]. *)
Definition onReady (p : nat) (fn : option nat) : ST Env unit :=
  src ← gets (fun e => srcs e !! p);
  match src, fn with
  | None, _ => crash OutOfBounds
  | Some _, None => modSrc p (fun x => mkSource (sReady x) None)
  | Some x, Some index =>
      if sReady x then notify index else modSrc p (fun x => mkSource (sReady x) (Some index))
  end.

(** The pointer at an index of the array; [None] is the null pointer. *)
Definition sourceAt (index : nat) : ST Env (option nat) :=
  s ← gets sel;
  match _sources s !! index with Some p => mret p | None => crash OutOfBounds end.

Definition enable (index : nat) : ST Env unit :=
  p ← sourceAt index;
  match p with
  | None => crash AssertFailed
  | Some p =>
      s ← gets sel;
      if bool_decide (_enabled s !! index = Some true) then mret tt
      else
        _ ← modSel (setEnabled index true);
        onReady p (Some index)
  end.

(** [enable()]: from index [i], with [n] more to look at. *)
Fixpoint enableFrom (n i : nat) : ST Env unit :=
  match n with
  | O => mret tt
  | S k =>
      p ← sourceAt i;
      match p with
      | None => mret tt
      | Some _ => _ ← enable i; enableFrom k (S i)
      end
  end.

Definition enableAll : ST Env unit :=
  s ← gets sel;
  enableFrom (length (_sources s)) 0.

Definition await_ready (s : Select) : bool :=
  existsb id (_readyBits s) || negb (existsb id (_enabled s)).

Definition await_suspend (ty self : Z) (h : coro) : ST Env coro_handle :=
  x ← onBase (susp h);
  old ← gets (fun e => _suspension (sel e));
  _ ← onBase (cancel true old);
  _ ← modSel (setSuspension x);
  onBase (switchAway h ty self).

Fixpoint firstReady (bits : list bool) (i : nat) : option nat :=
  match bits with
  | [] => None
  | b :: r => if (b : bool) then Some i else firstReady r (S i)
  end.

Definition await_resume : ST Env Z :=
  s ← gets sel;
  match firstReady (_readyBits s) 0 with
  | Some i => _ ← modSel (setReadyBit i false); mret (Z.of_nat i)
  | None => mret (-1)%Z
  end.

(** The destructor, which also destroys the [Suspension]. *)
Fixpoint forgetFrom (n i : nat) : ST Env unit :=
  match n with
  | O => mret tt
  | S k =>
      s ← gets sel;
      _ ← when (bool_decide (_enabled s !! i = Some true))
            (p ← sourceAt i; match p with Some p => onReady p None | None => crash OutOfBounds end);
      forgetFrom k (S i)
  end.

Definition destroySelect : ST Env unit :=
  _ ← forgetFrom kMaxSources 0;
  x ← gets (fun e => _suspension (sel e));
  _ ← onBase (cancel true x);
  mret tt.

(** * What happens around it *)

(** A source becomes ready and calls the callback it has, once; its value is taken. *)
Definition fire (p : nat) : ST Env unit :=
  src ← gets (fun e => srcs e !! p);
  match src with
  | None => crash OutOfBounds
  | Some x =>
      _ ← modSrc p (fun _ => mkSource true None);
      match sCallback x with Some index => notify index | None => mret tt end
  end.

Definition consume (p : nat) : ST Env unit := modSrc p (fun x => mkSource false (sCallback x)).

Inductive event := Enable (i : nat) | Fire (p : nat) | Consume (p : nat) | Await (h : coro) | Resume (h : coro).

(** What a [co_await] gives: an index, or the coroutine is suspended. *)
Inductive answer := Nothing | Index (z : Z) | Suspended.

(** [co_await select] in the coroutine [h], up to its suspension if it suspends; [Resume]
    is what it does when it runs again. *)
Definition await (ty self : Z) (h : coro) : ST Env answer :=
  s ← gets sel;
  if await_ready s then i ← await_resume; mret (Index i)
  else _ ← await_suspend ty self h; mret Suspended.

Definition runEvent (ty self : Z) (ev : event) : ST Env answer :=
  match ev with
  | Enable i => _ ← enable i; mret Nothing
  | Fire p => _ ← fire p; mret Nothing
  | Consume p => _ ← consume p; mret Nothing
  | Await h => await ty self h
  | Resume h => i ← await_resume; mret (Index i)
  end.
End select.
Arguments Env : clear implicits.

(** * Specification *)

(** The coroutine that awaits: none, asleep, or woken and not yet running again. *)
Inductive waiter := NoOne | Sleeping (h : coro) | Woken (h : coro).

(** The sources watched, those notified and not yet reported, and those that are ready now,
    by their indices. *)
Record Spec := mkSpec {
  watched : gset nat;
  pending : gset nat;
  avail : gset nat;
  waiting : waiter
}.

Definition wakeUp (x : waiter) : waiter := match x with Sleeping h => Woken h | _ => x end.

Definition least (i : nat) (X : gset nat) : Prop := i ∈ X /\ forall j, j ∈ X -> (i <= j)%nat.

(** [idx p i]: the source [p] is number [i]. *)
Inductive sstep (idx : nat -> nat -> Prop) : Spec -> event -> answer -> Spec -> Prop :=
| s_enable_again w p a x i : i ∈ w -> sstep idx (mkSpec w p a x) (Enable i) Nothing (mkSpec w p a x)
| s_enable_watch w p a x i : i ∉ w -> i ∉ a -> sstep idx (mkSpec w p a x) (Enable i) Nothing (mkSpec ({[i]} ∪ w) p a x)
| s_enable_ready w p a x i : i ∉ w -> i ∈ a -> sstep idx (mkSpec w p a x) (Enable i) Nothing (mkSpec w ({[i]} ∪ p) a (wakeUp x))
| s_fire w p a x q i : idx q i -> i ∉ w -> sstep idx (mkSpec w p a x) (Fire q) Nothing (mkSpec w p ({[i]} ∪ a) x)
| s_fire_watched w p a x q i : idx q i -> i ∈ w ->
    sstep idx (mkSpec w p a x) (Fire q) Nothing (mkSpec (w ∖ {[i]}) ({[i]} ∪ p) ({[i]} ∪ a) (wakeUp x))
| s_consume w p a x q i : idx q i -> sstep idx (mkSpec w p a x) (Consume q) Nothing (mkSpec w p (a ∖ {[i]}) x)
| s_await_ready w p a h i : least i p -> sstep idx (mkSpec w p a NoOne) (Await h) (Index (Z.of_nat i)) (mkSpec w (p ∖ {[i]}) a NoOne)
| s_await_none a h : sstep idx (mkSpec ∅ ∅ a NoOne) (Await h) (Index (-1)) (mkSpec ∅ ∅ a NoOne)
| s_await_sleep w a h : w <> ∅ -> sstep idx (mkSpec w ∅ a NoOne) (Await h) Suspended (mkSpec w ∅ a (Sleeping h))
| s_resume w p a h i : least i p -> sstep idx (mkSpec w p a (Woken h)) (Resume h) (Index (Z.of_nat i)) (mkSpec w (p ∖ {[i]}) a NoOne).

(** * Lemmas on bit sets *)

Definition bits (l : list bool) (X : gset nat) : Prop :=
  length l = kMaxSources /\ forall i, (i < kMaxSources)%nat -> l !! i = Some (bool_decide (i ∈ X)).

Lemma bits_insert l X i b Y :
  bits l X -> (i < kMaxSources)%nat -> (b = true <-> i ∈ Y) -> (forall j, j <> i -> j ∈ X <-> j ∈ Y) -> bits (<[i := b]> l) Y.
Proof.
  intros [Hl Hb] Hi Hbi Hj. split; [now rewrite length_insert|]. intros j Hlt. destruct (decide (j = i)) as [->|Hne].
  - rewrite list_lookup_insert_eq by lia. f_equal. case_bool_decide; destruct b; naive_solver.
  - rewrite list_lookup_insert_ne, Hb by done. f_equal. apply bool_decide_ext, Hj, Hne.
Qed.

Lemma bits_set l X i : bits l X -> (i < kMaxSources)%nat -> bits (<[i := true]> l) ({[i]} ∪ X).
Proof. intros. eapply bits_insert; [done|done|set_solver|set_solver]. Qed.

Lemma bits_clear l X i : bits l X -> (i < kMaxSources)%nat -> bits (<[i := false]> l) (X ∖ {[i]}).
Proof. intros. eapply bits_insert; [done|done|set_solver|set_solver]. Qed.

Lemma bits_lookup l X i : bits l X -> (i < kMaxSources)%nat -> l !! i = Some true <-> i ∈ X.
Proof. intros [_ Hb] Hi. rewrite Hb by done. case_bool_decide; naive_solver. Qed.

Lemma bits_any l X : bits l X -> (forall i, i ∈ X -> (i < kMaxSources)%nat) -> existsb id l = true <-> X <> ∅.
Proof.
  intros Hb Hx. rewrite existsb_exists. split.
  - intros (b & Hin & Ht). destruct b; [|done]. apply list_elem_of_In, list_elem_of_lookup in Hin as [i Hi].
    pose proof (lookup_lt_Some _ _ _ Hi) as Hlt. destruct (Hb) as [Hl _]. rewrite Hl in Hlt.
    apply (bits_lookup l X i Hb Hlt) in Hi. set_solver.
  - intros (i & Hi)%set_choose_L. exists true. split; [|done]. apply list_elem_of_In, list_elem_of_lookup. exists i. apply (bits_lookup l X i Hb); auto.
Qed.

Lemma firstReady_spec l k :
  match firstReady l k with
  | Some i => exists j, i = (k + j)%nat /\ l !! j = Some true /\ forall m, (m < j)%nat -> l !! m = Some false
  | None => forall j, l !! j <> Some true
  end.
Proof.
  revert k. induction l as [|[] l IH]; intros k; cbn [firstReady]; [done|exists 0%nat; split; [lia|]; split; [done|lia]|].
  specialize (IH (S k)). destruct (firstReady l (S k)).
  - destruct IH as (j & -> & Hj & Hm). exists (S j). split; [lia|]. split; [done|]. intros [|m] Hlt; [done|]. apply Hm. lia.
  - intros [|j]; [done|apply IH].
Qed.

Lemma bits_first l X : bits l X -> (forall i, i ∈ X -> (i < kMaxSources)%nat) ->
  match firstReady l 0 with Some i => least i X | None => X = ∅ end.
Proof.
  intros Hb Hx. pose proof (firstReady_spec l 0) as Hf. destruct (firstReady l 0) as [i|].
  - destruct Hf as (j & -> & Hj & Hm). cbn. pose proof (lookup_lt_Some _ _ _ Hj) as Hlt. destruct Hb as [Hl Hb]. rewrite Hl in Hlt.
    split; [now apply (bits_lookup l X j (conj Hl Hb) Hlt)|]. intros m Hin. destruct (decide (j <= m)%nat); [done|].
    specialize (Hm m ltac:(lia)). rewrite Hb in Hm by lia. rewrite bool_decide_eq_true_2 in Hm by done. done.
  - apply set_eq. intros i. split; [|set_solver]. intros Hi. now apply (bits_lookup l X i Hb (Hx i Hi)) in Hi as ?%Hf.
Qed.

Lemma least_unique i j X : least i X -> least j X -> i = j.
Proof. intros [Hi Hi'] [Hj Hj']. specialize (Hi' _ Hj). specialize (Hj' _ Hi). lia. Qed.

(** * The simulation *)

Section simulation.
Context {W : Type} `{Suspending W} (ps : list nat).

Definition waiterOk (e : Env W) (s : Spec) : Prop :=
  match waiting s with
  | NoOne => _suspension (sel e) = None
  | Sleeping h => _suspension (sel e) = Some h /\ h ∈ asleep (base e) /\ pending s = ∅ /\ watched s <> ∅
  | Woken h => _suspension (sel e) = None /\ h ∈ awake (base e) /\ pending s <> ∅
  end.

Record Sim (e : Env W) (s : Spec) : Prop := {
  r_sources : _sources (sel e) = (Some <$> ps) ++ replicate (kMaxSources - length ps) None;
  r_nodup : NoDup ps;
  r_max : (length ps <= kMaxSources)%nat;
  r_enabled : bits (_enabled (sel e)) (watched s);
  r_ready : bits (_readyBits (sel e)) (pending s);
  r_bound i : i ∈ watched s \/ i ∈ pending s -> (i < length ps)%nat;
  r_srcs i p : ps !! i = Some p ->
    srcs e !! p = Some (mkSource (bool_decide (i ∈ avail s)) (if bool_decide (i ∈ watched s) then Some i else None));
  r_disj i : i ∈ watched s -> i ∉ avail s;
  r_ok : okW (base e);
  r_wait : waiterOk e s
}.

Definition legal (ev : event) (e : Env W) (s : Spec) : Prop :=
  match ev with
  | Enable i => (i < length ps)%nat
  | Fire p | Consume p => p ∈ ps
  | Await h => waiting s = NoOne /\ current (base e) h /\ fresh (base e) h
  | Resume h => waiting s = Woken h
  end.

Definition idx (p i : nat) : Prop := ps !! i = Some p.

(** [notify] of a source: [E], [l'] are the [Select] and the sources when it is called, [w1] what
    is enabled. *)
Lemma notify_ok i E0 E l l' b w w1 w' p a a' x :
  Sim (mkEnv E0 l b) (mkSpec w p a x) -> (i < length ps)%nat ->
  _sources E = _sources E0 -> _readyBits E = _readyBits E0 -> _suspension E = _suspension E0 -> bits (_enabled E) w1 ->
  (forall j, j <> i -> j ∈ w1 <-> j ∈ w') -> i ∉ w' -> (forall j, j ∈ w' -> (j < length ps)%nat) ->
  (forall j q, ps !! j = Some q -> l' !! q = Some (mkSource (bool_decide (j ∈ a')) (if bool_decide (j ∈ w') then Some j else None))) ->
  (forall j, j ∈ w' -> j ∉ a') ->
  exists e', notify i (mkEnv E l' b) = Ret (tt, e') /\ Sim e' (mkSpec w' ({[i]} ∪ p) a' (wakeUp x)).
Proof.
  intros [H1 H2 H3 H4 H5 H6 H7 H8 H9 H10] Hi Es Er Ex Hb Hw' Hiw Hbd Hl' Hd. cbn [sel srcs base watched pending avail] in *.
  unfold notify, mbind, ST_bind, modSel, modify, gets, onBase, zoom. cbn [sel srcs base _suspension setReadyBit setEnabled].
  assert (exists x' b', wake true (_suspension E) b = Ret (x', b') /\ okW b' /\ waiterOk (mkEnv (setSuspension x' E) l' b') (mkSpec w' ({[i]} ∪ p) a' (wakeUp x)))
    as (x' & b' & -> & Hok & Hwt).
  { unfold waiterOk in *. cbn [waiting watched pending sel base] in *. rewrite Ex. destruct x as [|h|h]; cbn [wakeUp].
    - rewrite H10, wake_null. eexists _, _. now split_and!.
    - destruct H10 as (-> & Ha & _ & _). destruct (wake_law b true h H9 Ha) as (b' & E' & Hb' & _ & Eb & _).
      eexists _, _. split_and!; [exact E'|done|done|set_solver|set_solver].
    - destruct H10 as (-> & Ha & Hp). rewrite wake_null. eexists _, _. split_and!; [done|done|done|done|set_solver]. }
  eexists. split; [reflexivity|]. split; cbn [sel srcs base watched pending avail setSuspension setReadyBit setEnabled _sources _enabled _readyBits]; try done.
  - congruence.
  - eapply bits_insert; [exact Hb|lia| |done]. naive_solver.
  - rewrite Er. apply bits_set; [done|lia].
  - intros j [Hj|Hj]; [auto|]. destruct (decide (j = i)) as [->|]; [done|]. apply H6. right. set_solver.
Qed.

Lemma sourceAt_ok e s i p : Sim e s -> ps !! i = Some p -> sourceAt i e = Ret (Some p, e).
Proof.
  intros Hs Hp. unfold sourceAt, mbind, ST_bind, gets. rewrite (r_sources _ _ Hs), lookup_app_l by (rewrite length_fmap; now apply lookup_lt_Some in Hp).
  now rewrite list_lookup_fmap, Hp.
Qed.

(** The sources after a change of one of them. *)
Lemma srcs_alter (l : gmap nat Source) f i p x g :
  NoDup ps -> ps !! i = Some p -> l !! p = Some x -> f x = g i ->
  (forall j q, ps !! j = Some q -> j <> i -> l !! q = Some (g j)) ->
  forall j q, ps !! j = Some q -> alter f p l !! q = Some (g j).
Proof.
  intros Hn Hi Hx Hf Ho j q Hj. destruct (decide (j = i)) as [->|Hne].
  - rewrite Hi in Hj. injection Hj as <-. now rewrite lookup_alter_eq, Hx, <- Hf.
  - rewrite lookup_alter_ne; [auto|]. intros ->. apply Hne. eapply NoDup_lookup; eauto.
Qed.

Ltac simgoals := split; cbn [sel srcs base watched pending avail waiting _sources _enabled _readyBits setEnabled setReadyBit setSuspension _suspension]; try done.

Lemma enable_ok e s i :
  Sim e s -> (i < length ps)%nat ->
  exists e' s', enable i e = Ret (tt, e') /\ sstep idx s (Enable i) Nothing s' /\ Sim e' s'.
Proof.
  intros Hs Hi. destruct (lookup_lt_is_Some_2 _ _ Hi) as [p Hp]. pose proof Hs as [H1 H2 H3 H4 H5 H6 H7 H8 H9 H10].
  assert (i < kMaxSources)%nat as Hi8 by lia. unfold enable. unfold mbind at 1, ST_bind at 1. rewrite (sourceAt_ok e s i p) by done.
  unfold mbind at 1, ST_bind at 1, gets at 1. destruct e as [E l b]. destruct s as [w q a x]. cbn [sel srcs base watched pending avail] in *.
  rewrite (bool_decide_ext (_enabled E !! i = Some true) (i ∈ w)) by now apply bits_lookup.
  case_bool_decide as Hw; [eexists _, (mkSpec w q a x); split; [reflexivity|]; split; [now constructor|done]|].
  unfold onReady, mbind, ST_bind, modSel, modify, gets. cbn [sel srcs base]. rewrite (H7 i p Hp). cbn [sReady]. destruct (decide (i ∈ a)) as [Ha|Ha].
  - rewrite bool_decide_eq_true_2 by done.
    destruct (notify_ok i E (setEnabled i true E) l l b w ({[i]} ∪ w) w q a a x) as (e' & E' & Hs'); auto; [now apply bits_set|set_solver|].
    eexists e', _. split; [exact E'|]. split; [now constructor|exact Hs'].
  - rewrite bool_decide_eq_false_2 by done. unfold modSrc, modify. eexists _, (mkSpec ({[i]} ∪ w) q a x). split; [reflexivity|]. split; [now constructor|]. simgoals.
    + now apply bits_set.
    + intros j Hj. destruct (decide (j = i)) as [->|]; [done|]. apply H6. set_solver.
    + apply (srcs_alter l _ i p (mkSource false None) (fun j => mkSource (bool_decide (j ∈ a)) (if bool_decide (j ∈ {[i]} ∪ w) then Some j else None))); auto.
      * rewrite (H7 i p Hp), !bool_decide_eq_false_2 by done. done.
      * cbn. rewrite (bool_decide_eq_false_2 (i ∈ a)), (bool_decide_eq_true_2 (i ∈ _)) by set_solver. done.
      * intros j r Hj Hne. rewrite (H7 j r Hj), (bool_decide_ext (j ∈ w) (j ∈ {[i]} ∪ w)) by set_solver. done.
    + set_solver.
    + unfold waiterOk in *. cbn [waiting watched pending sel base _suspension] in *. destruct x; [done| |done]. destruct H10 as (? & ? & ? & ?). split_and!; [done|done|done|set_solver].
Qed.

Lemma fire_ok e s p :
  Sim e s -> p ∈ ps ->
  exists e' s', fire p e = Ret (tt, e') /\ sstep idx s (Fire p) Nothing s' /\ Sim e' s'.
Proof.
  intros Hs [i Hp]%list_elem_of_lookup. pose proof Hs as [H1 H2 H3 H4 H5 H6 H7 H8 H9 H10].
  pose proof (lookup_lt_Some _ _ _ Hp) as Hi. destruct e as [E l b]. destruct s as [w q a x]. cbn [sel srcs base watched pending avail] in *.
  unfold fire, mbind, ST_bind, gets, modSrc, modify. cbn [sel srcs base]. rewrite (H7 i p Hp). cbn [sCallback].
  set (f := fun _ : Source => mkSource true None). case_bool_decide as Hw.
  - destruct (notify_ok i E E l (alter f p l) b w w (w ∖ {[i]}) q a ({[i]} ∪ a) x) as (e' & E' & Hs'); auto; [set_solver|set_solver|set_solver| |set_solver|].
    { apply (srcs_alter l f i p (mkSource (bool_decide (i ∈ a)) (Some i)) (fun j => mkSource (bool_decide (j ∈ {[i]} ∪ a)) (if bool_decide (j ∈ w ∖ {[i]}) then Some j else None))); auto.
      - rewrite (H7 i p Hp), (bool_decide_eq_true_2 (i ∈ w)) by done. done.
      - rewrite (bool_decide_eq_true_2 (i ∈ {[i]} ∪ a)), (bool_decide_eq_false_2 (i ∈ w ∖ _)) by set_solver. done.
      - intros j r Hj Hne. rewrite (H7 j r Hj), (bool_decide_ext (j ∈ w) (j ∈ w ∖ {[i]})), (bool_decide_ext (j ∈ a) (j ∈ {[i]} ∪ a)) by set_solver. done. }
    eexists e', _. split; [exact E'|]. split; [exact (s_fire_watched _ _ _ _ _ _ i Hp Hw)|exact Hs'].
  - eexists _, (mkSpec w q ({[i]} ∪ a) x). split; [reflexivity|]. split; [now constructor|]. simgoals; [|set_solver].
    apply (srcs_alter l f i p (mkSource (bool_decide (i ∈ a)) None) (fun j => mkSource (bool_decide (j ∈ {[i]} ∪ a)) (if bool_decide (j ∈ w) then Some j else None))); auto.
    + rewrite (H7 i p Hp), (bool_decide_eq_false_2 (i ∈ w)) by done. done.
    + rewrite (bool_decide_eq_true_2 (i ∈ {[i]} ∪ a)), (bool_decide_eq_false_2 (i ∈ w)) by set_solver. done.
    + intros j r Hj Hne. rewrite (H7 j r Hj), (bool_decide_ext (j ∈ a) (j ∈ {[i]} ∪ a)) by set_solver. done.
Qed.

Lemma consume_ok e s p :
  Sim e s -> p ∈ ps ->
  exists e' s', consume p e = Ret (tt, e') /\ sstep idx s (Consume p) Nothing s' /\ Sim e' s'.
Proof.
  intros Hs [i Hp]%list_elem_of_lookup. pose proof Hs as [H1 H2 H3 H4 H5 H6 H7 H8 H9 H10].
  destruct e as [E l b]. destruct s as [w q a x]. cbn [sel srcs base watched pending avail] in *. unfold consume, modSrc, modify.
  eexists _, (mkSpec w q (a ∖ {[i]}) x). split; [reflexivity|]. split; [now constructor|]. simgoals; [|set_solver].
  apply (srcs_alter l _ i p _ (fun j => mkSource (bool_decide (j ∈ a ∖ {[i]})) (if bool_decide (j ∈ w) then Some j else None)) H2 Hp (H7 i p Hp)).
  + cbn. rewrite (bool_decide_eq_false_2 (i ∈ a ∖ _)) by set_solver. done.
  + intros j r Hj Hne. cbn [srcs]. rewrite (H7 j r Hj), (bool_decide_ext (j ∈ a) (j ∈ a ∖ {[i]})) by set_solver. done.
Qed.

(** [await_resume] reports the lowest of the notified sources and forgets it. *)
Lemma reported_ok e w p a x x' :
  Sim e (mkSpec w p a x) -> _suspension (sel e) = None -> x' = NoOne ->
  (p = ∅ -> await_resume e = Ret ((-1)%Z, e))
  /\ (p <> ∅ -> exists i e', await_resume e = Ret (Z.of_nat i, e') /\ least i p /\ Sim e' (mkSpec w (p ∖ {[i]}) a x')).
Proof.
  intros [H1 H2 H3 H4 H5 H6 H7 H8 H9 H10] Hx ->. destruct e as [E l b]. cbn [sel srcs base watched pending avail] in *.
  assert (forall i, i ∈ p -> (i < kMaxSources)%nat) as Hb by (intros i Hi; specialize (H6 i (or_intror Hi)); lia).
  pose proof (bits_first _ _ H5 Hb) as Hf. unfold await_resume, mbind, ST_bind, gets. cbn [sel]. destruct (firstReady (_readyBits E) 0) as [i|].
  - destruct Hf as [Hi Hl]. split; [set_solver|]. intros _. eexists i, _. split; [reflexivity|]. split; [done|]. simgoals.
    + apply bits_clear; auto.
    + intros j Hj. apply H6. set_solver.
  - split; [done|]. intros Hp. now rewrite Hf in Hp.
Qed.

Lemma awaiting_ok ty self e s h :
  Sim e s -> waiting s = NoOne -> current (base e) h -> fresh (base e) h ->
  exists ans e' s', await ty self h e = Ret (ans, e') /\ sstep idx s (Await h) ans s' /\ Sim e' s'.
Proof.
  intros Hs Hw Hc Hf. pose proof Hs as [H1 H2 H3 H4 H5 H6 H7 H8 H9 H10]. destruct s as [w p a x]. cbn [watched pending avail waiting] in *. subst x.
  unfold waiterOk in H10. cbn [waiting] in H10.
  assert (forall i, i ∈ p -> (i < kMaxSources)%nat) as Hbp by (intros i Hi; specialize (H6 i (or_intror Hi)); lia).
  assert (forall i, i ∈ w -> (i < kMaxSources)%nat) as Hbw by (intros i Hi; specialize (H6 i (or_introl Hi)); lia).
  destruct (reported_ok e w p a NoOne NoOne Hs H10 eq_refl) as [R1 R2]. unfold await, await_ready. unfold mbind at 1, ST_bind at 1, gets at 1.
  destruct (decide (p = ∅)) as [->|Hp].
  - destruct (existsb id (_readyBits (sel e))) eqn:Er; [now apply (bits_any _ _ H5 Hbp) in Er|]. destruct (decide (w = ∅)) as [->|Hwe].
    + destruct (existsb id (_enabled (sel e))) eqn:Ee; [now apply (bits_any _ _ H4 Hbw) in Ee|]. cbn [orb negb].
      unfold mbind, ST_bind. rewrite R1 by done. eexists _, e, _. split; [reflexivity|]. split; [constructor|done].
    + rewrite (proj2 (bits_any _ _ H4 Hbw) Hwe). cbn [orb negb].
      destruct (susp_law _ _ H9 Hc Hf) as (b1 & E1 & Hb1 & Hc1 & Ea1 & Ew1 & _). destruct (switch_law b1 h ty self Hb1 Hc1) as (b2 & E2 & Hb2 & Ea2 & Ew2 & _).
      eexists Suspended, (mkEnv (setSuspension (Some h) (sel e)) (srcs e) b2), (mkSpec w ∅ a (Sleeping h)). split; [|split].
      * destruct e as [E l b]. cbn [sel srcs base] in *. unfold await_suspend, mbind, ST_bind, onBase, zoom, gets, modSel, modify. cbn [sel srcs base]. rewrite E1. cbn [sel srcs base]. rewrite H10, cancel_null. cbn [sel srcs base]. rewrite E2. reflexivity.
      * now constructor.
      * simgoals. unfold waiterOk. cbn. split_and!; [done|set_solver|done|done].
  - rewrite (proj2 (bits_any _ _ H5 Hbp) Hp). cbn [orb]. destruct (R2 Hp) as (i & e' & E & Hl & Hs'). unfold mbind, ST_bind. rewrite E.
    eexists _, e', _. split; [reflexivity|]. split; [now constructor|done].
Qed.

Lemma newSelect_ok l b a :
  okW b -> NoDup ps -> (length ps <= kMaxSources)%nat ->
  (forall i p, ps !! i = Some p -> l !! p = Some (mkSource (bool_decide (i ∈ a)) None)) ->
  exists E, newSelect ps = Ret E /\ Sim (mkEnv E l b) (mkSpec ∅ ∅ a NoOne).
Proof.
  intros Hb Hn Hm Hl. unfold newSelect. rewrite bool_decide_eq_true_2 by done. eexists. split; [reflexivity|].
  assert (bits (replicate kMaxSources false) ∅) as H0 by (split; [apply length_replicate|]; intros i Hi; rewrite lookup_replicate_2 by done; f_equal).
  simgoals.
  - intros i. set_solver.
Qed.

(** [enable()] leaves every source watched or noted. *)
Lemma enableFrom_ok k : forall i e s,
  Sim e s -> (i + k = length (_sources (sel e)))%nat -> (forall j, (j < i)%nat -> (j < length ps)%nat -> j ∈ watched s \/ j ∈ pending s) ->
  exists e' s', enableFrom k i e = Ret (tt, e') /\ Sim e' s' /\ forall j, (j < length ps)%nat -> j ∈ watched s' \/ j ∈ pending s'.
Proof.
  induction k as [|k IH]; intros i e s Hs Hk Hj; cbn [enableFrom].
  - exists e, s. split_and!; [done|done|]. intros j Hl. apply Hj; [|done]. rewrite (r_sources _ _ Hs), length_app, length_fmap in Hk. lia.
  - destruct (ps !! i) as [p|] eqn:Hp.
    + pose proof (lookup_lt_Some _ _ _ Hp) as Hi. unfold mbind at 1, ST_bind at 1. rewrite (sourceAt_ok e s i p) by done.
      destruct (enable_ok e s i Hs Hi) as (e1 & s1 & E1 & Hst & Hs1). unfold mbind, ST_bind. rewrite E1. apply (IH (S i) e1 s1 Hs1).
      * rewrite (r_sources _ _ Hs1), <- (r_sources _ _ Hs). lia.
      * intros j Hlt Hl. assert (j < i \/ j = i)%nat as [Hji| ->] by lia.
        -- specialize (Hj j Hji Hl). inversion Hst; subst; cbn [watched pending] in *; set_solver.
        -- inversion Hst; subst; cbn [watched pending] in *; set_solver.
    + apply lookup_ge_None in Hp. unfold mbind at 1, ST_bind at 1, sourceAt, mbind, ST_bind, gets.
      rewrite (r_sources _ _ Hs), lookup_app_r, length_fmap by (rewrite length_fmap; lia).
      rewrite lookup_replicate_2 by (rewrite (r_sources _ _ Hs), length_app, length_fmap, length_replicate in Hk; lia).
      exists e, s. split_and!; [done|done|]. intros j Hl. apply Hj; lia.
Qed.

Lemma enableAll_ok e s :
  Sim e s -> exists e' s', enableAll e = Ret (tt, e') /\ Sim e' s' /\ forall j, (j < length ps)%nat -> j ∈ watched s' \/ j ∈ pending s'.
Proof. intros Hs. apply (enableFrom_ok _ 0 e s Hs); [done|lia]. Qed.

(** Destroying forgets every callback. *)
Lemma forgetFrom_ok E b w n : forall i l,
  _sources E = (Some <$> ps) ++ replicate (kMaxSources - length ps) None -> NoDup ps -> bits (_enabled E) w ->
  (forall j, j ∈ w -> (j < length ps)%nat) -> (i + n = kMaxSources)%nat ->
  (forall j q, ps !! j = Some q -> exists r, l !! q = Some (mkSource r (if bool_decide (j ∈ w /\ (i <= j)%nat) then Some j else None))) ->
  exists l', forgetFrom n i (mkEnv E l b) = Ret (tt, mkEnv E l' b) /\ forall j q, (j < kMaxSources)%nat -> ps !! j = Some q -> exists r, l' !! q = Some (mkSource r None).
Proof.
  induction n as [|n IH]; intros i l H1 H2 H3 H4 Hn Hl; cbn [forgetFrom].
  - exists l. split; [done|]. intros j q Hlt Hj. destruct (Hl j q Hj) as [r ->]. rewrite bool_decide_eq_false_2 by lia. eauto.
  - unfold mbind at 1, ST_bind at 1, gets at 1. cbn [sel]. rewrite (bool_decide_ext _ (i ∈ w)) by (apply (bits_lookup _ _ _ H3); lia). unfold when. case_bool_decide as Hw.
    + destruct (lookup_lt_is_Some_2 _ _ (H4 i Hw)) as [p Hp]. destruct (Hl i p Hp) as [r Hr].
      assert (sourceAt i (mkEnv E l b) = Ret (Some p, mkEnv E l b)) as Es.
      { unfold sourceAt, mbind, ST_bind, gets. cbn [sel]. rewrite H1, lookup_app_l by (rewrite length_fmap; auto). now rewrite list_lookup_fmap, Hp. }
      unfold mbind, ST_bind. rewrite Es. unfold onReady, mbind, ST_bind, gets, modSrc, modify. cbn [sel srcs base]. rewrite Hr. apply IH; auto; [lia|].
      intros j q Hj. cbn [srcs]. destruct (decide (j = i)) as [->|Hne].
      * rewrite Hp in Hj. injection Hj as <-. rewrite lookup_alter_eq, Hr, (bool_decide_eq_false_2 (i ∈ w /\ (S i <= i)%nat)) by lia. cbn. eauto.
      * rewrite lookup_alter_ne by (intros ->; apply Hne; eapply NoDup_lookup; eauto). destruct (Hl j q Hj) as [r' ->].
        rewrite (bool_decide_ext (j ∈ w /\ (i <= j)%nat) (j ∈ w /\ (S i <= j)%nat)) by (split; intros []; (split; [done|lia])). eauto.
    + unfold mbind, ST_bind, mret, ST_ret. apply IH; auto; [lia|]. intros j q Hj. destruct (Hl j q Hj) as [r' ->].
      rewrite (bool_decide_ext (j ∈ w /\ (i <= j)%nat) (j ∈ w /\ (S i <= j)%nat)); [eauto|]. split; intros [? ?]; (split; [done|]); [|lia]. destruct (decide (j = i)) as [->|]; [done|lia].
Qed.

Lemma destroySelect_ok e s :
  Sim e s -> exists e', destroySelect e = Ret (tt, e') /\ okW (base e')
    /\ forall q, q ∈ ps -> exists r, srcs e' !! q = Some (mkSource r None).
Proof.
  intros [H1 H2 H3 H4 H5 H6 H7 H8 H9 H10]. destruct e as [E l b]. cbn [sel srcs base] in *.
  destruct (forgetFrom_ok E b (watched s) kMaxSources 0 l) as (l' & Ef & Hl'); auto.
  { intros j q Hj. rewrite (H7 j q Hj). rewrite (bool_decide_ext (j ∈ watched s) (j ∈ watched s /\ (0 <= j)%nat)) by (split; [intros; split; [done|lia]|tauto]). eauto. }
  unfold destroySelect, mbind, ST_bind. rewrite Ef. unfold gets, onBase, zoom. cbn [sel srcs base].
  assert (exists x b', cancel true (_suspension E) b = Ret (x, b') /\ okW b') as (x & b' & -> & Hb').
  { unfold waiterOk in H10. cbn [sel base] in H10. destruct (waiting s) as [|h|h].
    - rewrite H10, cancel_null. eauto.
    - destruct H10 as (-> & Ha & _). destruct (cancel_law b true h H9 Ha) as (b' & E' & Hb' & _). eauto.
    - destruct H10 as (-> & _). rewrite cancel_null. eauto. }
  eexists. split; [reflexivity|]. split; [done|]. intros q [j Hj]%list_elem_of_lookup. apply (Hl' j q); [|done]. apply lookup_lt_Some in Hj. lia.
Qed.

(** The states a [Select] goes through, the specification alongside. *)
Inductive reach (ty self : Z) : Env W -> Spec -> Prop :=
| reach_new l b a E :
    okW b -> NoDup ps -> (forall i p, ps !! i = Some p -> l !! p = Some (mkSource (bool_decide (i ∈ a)) None)) ->
    newSelect ps = Ret E -> reach ty self (mkEnv E l b) (mkSpec ∅ ∅ a NoOne)
| reach_step e s ev ans e' s' :
    reach ty self e s -> legal ev e s -> runEvent ty self ev e = Ret (ans, e') -> sstep idx s ev ans s' -> reach ty self e' s'.

Lemma runEvent_ok ty self e s ev :
  Sim e s -> legal ev e s ->
  exists ans e' s', runEvent ty self ev e = Ret (ans, e') /\ sstep idx s ev ans s' /\ Sim e' s'.
Proof.
  intros Hs Hl. destruct ev as [i|p|p|h|h]; cbn [runEvent legal] in *; unfold mbind, ST_bind.
  - destruct (enable_ok e s i Hs Hl) as (e' & s' & -> & H'). eauto.
  - destruct (fire_ok e s p Hs Hl) as (e' & s' & -> & H'). eauto.
  - destruct (consume_ok e s p Hs Hl) as (e' & s' & -> & H'). eauto.
  - destruct Hl as (? & ? & ?). now apply awaiting_ok.
  - destruct s as [w p a x]. cbn in Hl. subst x. pose proof (r_wait _ _ Hs) as (Hx & Ha & Hp). cbn [pending] in Hp.
    destruct (reported_ok e w p a (Woken h) NoOne Hs Hx eq_refl) as [_ R2]. destruct (R2 Hp) as (i & e' & -> & Hi & Hs').
    eexists _, e', _. split; [reflexivity|]. split; [now constructor|done].
Qed.

(** The specification is deterministic. *)
Lemma sstep_det s ev a1 s1 a2 s2 :
  NoDup ps -> sstep idx s ev a1 s1 -> sstep idx s ev a2 s2 -> a1 = a2 /\ s1 = s2.
Proof.
  intros Hn H1 H2. assert (forall p i j, idx p i -> idx p j -> i = j) as Hi by (intros p i j; unfold idx; now apply NoDup_lookup).
  inversion H1; subst; inversion H2; subst; try done;
    repeat match goal with
    | [ X : idx ?p ?i, Y : idx ?p ?j |- _ ] => assert (i = j) by (now apply (Hi p)); subst; clear Y
    | [ X : least ?i ?p, Y : least ?j ?p |- _ ] => assert (i = j) by (now apply (least_unique i j p)); subst; clear Y
    | [ X : least _ ∅ |- _ ] => destruct X as [X _]; set_solver
    end; done.
Qed.

Lemma reach_sim ty self e s : reach ty self e s -> Sim e s.
Proof.
  induction 1 as [l b a E Hb Hn Hl E0|e s ev ans e' s' _ IH Hl E Hst].
  - assert (length ps <= kMaxSources)%nat as Hm.
    { unfold newSelect in E0. destruct (bool_decide (length ps <= kMaxSources)%nat) eqn:Hm; [now apply bool_decide_eq_true in Hm|discriminate]. }
    destruct (newSelect_ok l b a Hb Hn Hm Hl) as (E' & E1 & Hs). rewrite E0 in E1. now injection E1 as <-.
  - destruct (runEvent_ok ty self e s ev IH Hl) as (ans2 & e2 & s2 & E2 & Hst2 & Hs2). rewrite E in E2. injection E2 as <- <-.
    destruct (sstep_det s ev ans s' ans s2 (r_nodup _ _ IH) Hst Hst2) as [_ ->]. done.
Qed.

(** * Properties *)

(** C12: a [Select] implements its specification: whatever legal events happened since it was made,
    the next one runs without failing and does what the specification says.  Enabling a source
    watches it until it becomes ready; a source that is ready at once, or becomes ready while watched,
    is noted and wakes the coroutine that sleeps; nothing noted is lost; [co_await] gives the
    lowest-numbered source noted, -1 only when nothing is watched or noted, and suspends otherwise; a
    coroutine sleeps only while nothing is noted and something is watched, and one that was woken
    finds a source.  [enable()] leaves every source watched or noted, and the destructor leaves no
    callback with a source. *)
Theorem select_refines ty self e s :
  reach ty self e s ->
  (forall ev, legal ev e s -> exists ans e' s', runEvent ty self ev e = Ret (ans, e') /\ sstep idx s ev ans s' /\ reach ty self e' s')
  /\ waiterOk e s
  /\ (exists e' s', enableAll e = Ret (tt, e') /\ Sim e' s' /\ forall j, (j < length ps)%nat -> j ∈ watched s' \/ j ∈ pending s')
  /\ (exists e', destroySelect e = Ret (tt, e') /\ okW (base e') /\ forall q, q ∈ ps -> exists r, srcs e' !! q = Some (mkSource r None)).
Proof.
  intros Hr. pose proof (reach_sim _ _ _ _ Hr) as Hs. split_and!.
  - intros ev Hl. destruct (runEvent_ok ty self e s ev Hs Hl) as (ans & e' & s' & E & Hst & _).
    exists ans, e', s'. split_and!; [done|done|]. eapply reach_step; eauto.
  - apply (r_wait _ _ Hs).
  - now apply enableAll_ok with s.
  - now apply destroySelect_ok with s.
Qed.
End simulation.

(** Two sources, neither ready; the coroutine awaits, and the second source fires. *)
Definition exampleEnv (s : Select) : Env World :=
  mkEnv s {[10%nat := mkSource false None; 20%nat := mkSource false None]} startWorld.

Lemma select_refines_witness :
  exists E e1 s1, newSelect [10%nat; 20%nat] = Ret E
    /\ runEvent 0 0 (Enable 1) (exampleEnv E) = Ret (Nothing, e1)
    /\ sstep (idx [10%nat; 20%nat]) (mkSpec ∅ ∅ ∅ NoOne) (Enable 1) Nothing s1.
Proof.
  destruct startWorld_ok as (Hw & _).
  assert (reach [10%nat; 20%nat] 0 0 (exampleEnv (mkSelect ([Some 10%nat; Some 20%nat] ++ replicate 6 None) (replicate 8 false) (replicate 8 false) None)) (mkSpec ∅ ∅ ∅ NoOne)) as Hr.
  { apply reach_new; [exact Hw|repeat constructor; set_solver| |reflexivity].
    intros [|[|i]] p Hp; [injection Hp as <-; reflexivity|injection Hp as <-; reflexivity|discriminate]. }
  destruct (select_refines [10%nat; 20%nat] 0 0 _ _ Hr) as [Hstep _].
  destruct (Hstep (Enable 1)) as (ans & e1 & s1 & E & Hst & _); [cbn; lia|].
  assert (ans = Nothing) as -> by now inversion Hst.
  eexists _, e1, s1. split_and!; [reflexivity|exact E|exact Hst].
Defined.
