(* ===== verification/Sync.v ===== *)
(** Cooperative synchronisation: [CoCondition] ([src/CoCondition.cc],
    [include/crouton/CoCondition.hh]) and [CoMutex] ([src/Coroutine.cc],
    [include/crouton/Coroutine.hh]), against the interface of [Suspending.v]. *)

From S2P Require Import Prelude Lifecycle Scheduler Suspending.

(** * CoCondition *)

Module CoCondition.
Section cond.
Context {W : Type} `{Suspending W}.

(** The linked list of awaiters, each an object in a suspended coroutine's frame
    with that coroutine's Suspension. *)
Record CoCondition := mkCond { _awaiters : list Suspension }.

Definition empty : CoCondition := mkCond [].

(** [notifyOne] may be called on any thread that owns the condition: the
    scheduler's, since the class is not thread-safe. *)
Definition notifyOne (c : CoCondition) : ST W CoCondition :=
  match _awaiters c with
  | [] => mret c
  | a :: r => wake true a;; mret (mkCond r)
  end.

Definition notifyAll (c : CoCondition) : ST W CoCondition :=
  wakeAll true (_awaiters c);; mret (mkCond []).

(** [awaiter::await_suspend]; [ty] and [self] identify the condition. *)
Definition await_suspend (ty self : Z) (h : coro) (c : CoCondition) : ST W (coro_handle * CoCondition) :=
  s ← susp h;
  let c' := mkCond (_awaiters c ++ [s]) in
  next ← switchAway h ty self;
  mret (next, c').

(** The condition holds the Suspensions of distinct sleeping coroutines [hs]. *)
Definition holds (c : CoCondition) (hs : list coro) (w : W) : Prop :=
  _awaiters c = Some <$> hs /\ NoDup hs /\ forall h, h ∈ hs -> h ∈ asleep w.

Lemma await_ok ty self h c hs w :
  okW w -> holds c hs w -> current w h -> fresh w h ->
  exists c' w', await_suspend ty self h c w = Ret ((hnoop, c'), w') /\ okW w'
    /\ holds c' (hs ++ [h]) w' /\ asleep w' = {[h]} ∪ asleep w /\ awake w' = awake w
    /\ (forall d, d <> h -> fresh w d -> fresh w' d).
Proof.
  intros Hw (Ha & Hn & Hs) Hc Hf. destruct (fresh_out w h Hw Hf) as [H1 H2].
  destruct (susp_law w h Hw Hc Hf) as (w1 & E1 & Hw1 & Hc1 & Ea1 & Eb1 & Hf1).
  destruct (switch_law w1 h ty self Hw1 Hc1) as (w2 & E2 & Hw2 & Ea2 & Eb2 & Hf2).
  unfold await_suspend, mbind, ST_bind. rewrite E1, E2. eexists _, _. split; [reflexivity|].
  rewrite Ea2, Eb2, Eb1, Ea1. split_and!; [done| |done|done|auto]. split_and!; cbn.
  - now rewrite Ha, fmap_app.
  - apply NoDup_app. split_and!; [done|set_solver|apply NoDup_singleton].
  - intros x. rewrite Ea2, Ea1, elem_of_app. set_solver.
Qed.

Lemma notifyOne_ok c hs w :
  okW w -> holds c hs w ->
  exists c' w', notifyOne c w = Ret (c', w') /\ okW w' /\ holds c' (tail hs) w'
    /\ asleep w' = asleep w ∖ list_to_set (take 1 hs) /\ awake w' = list_to_set (take 1 hs) ∪ awake w
    /\ (forall d, current w d -> current w' d) /\ (forall d, fresh w d -> fresh w' d).
Proof.
  intros Hw (Ha & Hn & Hs). unfold notifyOne. rewrite Ha. destruct hs as [|h hs]; cbn.
  - eexists _, _. split_and!; [reflexivity|done|split_and!; done|set_solver|set_solver|done|done].
  - apply NoDup_cons in Hn as [Hh Hn].
    destruct (wake_law w true h Hw) as (w1 & E1 & Hw1 & Ea & Eb & Hc & Hf); [set_solver|].
    unfold mbind, ST_bind. rewrite E1. eexists _, _. split_and!; [reflexivity|done| |set_solver|set_solver|done|done].
    split_and!; [done|done|]. intros x Hx. rewrite Ea. set_solver.
Qed.

Lemma notifyAll_ok c hs w :
  okW w -> holds c hs w ->
  exists w', notifyAll c w = Ret (mkCond [], w') /\ okW w'
    /\ asleep w' = asleep w ∖ list_to_set hs /\ awake w' = list_to_set hs ∪ awake w
    /\ (forall d, current w d -> current w' d) /\ (forall d, fresh w d -> fresh w' d).
Proof.
  intros Hw (Ha & Hn & Hs). destruct (wakeAll_law true hs w Hw Hn Hs) as (w1 & E & Hw1 & Ea & Eb & Hc & Hf).
  unfold notifyAll, mbind, ST_bind. rewrite Ha, E. eauto 10.
Qed.

(** A condition is a first-in, first-out line of sleeping coroutines: awaiting it
    puts the running coroutine to sleep at the end of the line and gives up
    control, [notifyOne] wakes the one that has waited longest and nobody else,
    [notifyAll] wakes all of them. *)
Theorem cocondition_fifo c hs w :
  okW w -> holds c hs w ->
  (forall ty self h, current w h -> fresh w h ->
     exists c' w', await_suspend ty self h c w = Ret ((hnoop, c'), w') /\ okW w' /\ holds c' (hs ++ [h]) w'
       /\ asleep w' = {[h]} ∪ asleep w /\ awake w' = awake w)
  /\ (exists c' w', notifyOne c w = Ret (c', w') /\ okW w' /\ holds c' (tail hs) w'
       /\ asleep w' = asleep w ∖ list_to_set (take 1 hs) /\ awake w' = list_to_set (take 1 hs) ∪ awake w)
  /\ (exists w', notifyAll c w = Ret (mkCond [], w') /\ okW w'
       /\ asleep w' = asleep w ∖ list_to_set hs /\ awake w' = list_to_set hs ∪ awake w).
Proof.
  intros Hw Hc. split_and!.
  - intros ty self h Hcur Hf.
    destruct (await_ok ty self h c hs w Hw Hc Hcur Hf) as (c' & w' & H1 & H2 & H3 & H4 & H5 & _). eauto 10.
  - destruct (notifyOne_ok c hs w Hw Hc) as (c' & w' & H1 & H2 & H3 & H4 & H5 & _). eauto 10.
  - destruct (notifyAll_ok c hs w Hw Hc) as (w' & H1 & H2 & H3 & H4 & _). eauto 10.
Qed.

End cond.

(** Coroutine 1 awaits a condition of the real scheduler. *)
Lemma cocondition_fifo_witness :
  exists c' w', await_suspend 0 0 1 empty startWorld = Ret ((hnoop, c'), w')
    /\ holds c' [1%positive] w'.
Proof.
  destruct startWorld_ok as (Hw & Hc & Hf).
  destruct (@cocondition_fifo World scheduler_suspending empty [] startWorld Hw) as [H _].
  - split_and!; [reflexivity|constructor|]. intros h Hh. inversion Hh.
  - destruct (H 0%Z 0%Z 1%positive Hc Hf) as (c' & w' & E & _ & Hh & _). exists c', w'. split; assumption.
Defined.

End CoCondition.

(** * CoMutex *)

Module CoMutex.
Section mutex.
Context {W : Type} `{Suspending W}.

Record CoMutex := mkMutex { _waiters : list Suspension; _locked : bool }.

Definition locked (m : CoMutex) : bool := _locked m.

(** Takes the lock if it is free; the result says whether to go on at once. *)
Definition await_ready (m : CoMutex) : bool * CoMutex :=
  (negb (_locked m), mkMutex (_waiters m) true).

Definition await_suspend (ty self : Z) (h : coro) (m : CoMutex) : ST W (coro_handle * CoMutex) :=
  s ← susp h;
  let m' := mkMutex (_waiters m ++ [s]) (_locked m) in
  next ← switchAway h ty self;
  mret (next, m').

(** The [Lock] a coroutine gets when it goes on: a pointer to the mutex. *)
Definition await_resume (m : CoMutex) : bool := true.

Definition unlock (m : CoMutex) : ST W CoMutex :=
  match _waiters m with
  | [] => mret (mkMutex [] false)
  | next :: r => wake true next;; mret (mkMutex r (_locked m))
  end.

(** [co_await mutex]: [true] when the coroutine holds the lock without suspending. *)
Definition lock (ty self : Z) (h : coro) (m : CoMutex) : ST W (bool * CoMutex) :=
  let '(r, m1) := await_ready m in
  if r then mret (await_resume m1, m1)
  else
    p ← await_suspend ty self h m1;
    mret (false, p.2).

(** * Specification: an owner and the coroutines in line. *)

Record AbsMutex := mkAbsMutex { owner : option coro; line : list coro }.

Inductive mutexOp := Lock (h : coro) | Unlock.

Definition specLock (o : mutexOp) (a : AbsMutex) : AbsMutex :=
  match o with
  | Lock h => match owner a with
              | None => mkAbsMutex (Some h) (line a)
              | Some _ => mkAbsMutex (owner a) (line a ++ [h])
              end
  | Unlock => mkAbsMutex (head (line a)) (tail (line a))
  end.

(** What an operation does to the mutex and the world, the coroutine that holds the
    lock afterwards being the owner. *)
Definition runMutex (ty self : Z) (o : mutexOp) (m : CoMutex) : ST W CoMutex :=
  match o with
  | Lock h => p ← lock ty self h m; mret p.2
  | Unlock => unlock m
  end.

(** The mutex is locked exactly when it has an owner, who is not asleep; those in
    line are, each once. *)
Record repr (m : CoMutex) (a : AbsMutex) (w : W) : Prop := {
  repr_waiters : _waiters m = Some <$> line a;
  repr_locked : _locked m = bool_decide (is_Some (owner a));
  repr_line : owner a = None -> line a = [];
  repr_nodup : NoDup (line a);
  repr_asleep h : h ∈ line a -> h ∈ asleep w;
  repr_owner h : owner a = Some h -> h ∉ asleep w
}.

(** A coroutine that locks is running and does not hold the lock; only the owner
    unlocks. *)
Definition mutexOk (o : mutexOp) (a : AbsMutex) (w : W) : Prop :=
  match o with
  | Lock h => current w h /\ fresh w h /\ owner a <> Some h
  | Unlock => is_Some (owner a)
  end.

Lemma runMutex_ok ty self o m a w :
  okW w -> repr m a w -> mutexOk o a w ->
  exists m' w', runMutex ty self o m w = Ret (m', w') /\ okW w' /\ repr m' (specLock o a) w'
    /\ match o with
       | Lock h => if bool_decide (is_Some (owner a)) then asleep w' = {[h]} ∪ asleep w /\ awake w' = awake w
                   else w' = w
       | Unlock => asleep w' = asleep w ∖ list_to_set (take 1 (line a))
                   /\ awake w' = list_to_set (take 1 (line a)) ∪ awake w
       end.
Proof.
  intros Hw [Hq Hl He Hn Hs Ho] Hok. destruct o as [h|]; cbn [runMutex mutexOk specLock] in *.
  - destruct Hok as (Hc & Hf & H3). destruct (fresh_out w h Hw Hf) as [H1 H2]. unfold lock, await_ready. rewrite Hl.
    case_bool_decide as Hown; cbn [negb].
    + destruct (susp_law w h Hw Hc Hf) as (w1 & E1 & Hw1 & Hc1 & Ea1 & Eb1 & Hf1).
      destruct (switch_law w1 h ty self Hw1 Hc1) as (w2 & E2 & Hw2 & Ea2 & Eb2 & Hf2).
      unfold await_suspend, mbind, ST_bind. rewrite E1, E2. eexists _, _. split; [reflexivity|].
      rewrite Ea2, Eb2, Ea1, Eb1. split_and!; [done| |done|done].
      destruct Hown as [o Eo]. rewrite Eo in *. split; cbn.
      * now rewrite Hq, fmap_app.
      * done.
      * done.
      * apply NoDup_app. split_and!; [done|set_solver|apply NoDup_singleton].
      * intros x. rewrite Ea2, Ea1, elem_of_app. set_solver.
      * intros x [= <-]. rewrite Ea2, Ea1. specialize (Ho o eq_refl). set_solver.
    + eexists _, _. split; [reflexivity|]. assert (owner a = None) as Eo by (destruct (owner a); naive_solver).
      rewrite Eo. split_and!; [done| |done]. split; cbn; try done. naive_solver.
  - unfold unlock. rewrite Hq. destruct (line a) as [|h r] eqn:El; cbn.
    + eexists _, _. split; [reflexivity|]. split_and!; [done| |set_solver|set_solver].
      split; cbn; try done.
    + apply NoDup_cons in Hn as [Hh Hn].
      destruct (wake_law w true h Hw) as (w1 & E1 & Hw1 & Ea & Eb & Hc & Hf); [set_solver|].
      unfold mbind, ST_bind. rewrite E1. eexists _, _. split; [reflexivity|].
      split_and!; [done| |set_solver|set_solver]. split; cbn; try done.
      * rewrite Hl. destruct Hok as [o ->]. rewrite !bool_decide_eq_true_2; eauto.
      * intros x Hx. rewrite Ea. set_solver.
      * intros x [= <-]. rewrite Ea. set_solver.
Qed.

(** C15: mutual exclusion: the mutex behaves as an owner with a first-in, first-out
    line.  Locking a free mutex takes it at once; otherwise the coroutine sleeps at
    the end of the line; unlocking hands the mutex to the first in line, who alone
    wakes up, and frees it when there is none.  No legal operation fails. *)
Theorem comutex_refines ty self o m a w :
  okW w -> repr m a w -> mutexOk o a w ->
  exists m' w', runMutex ty self o m w = Ret (m', w') /\ okW w' /\ repr m' (specLock o a) w'
    /\ match o with
       | Lock h => if bool_decide (is_Some (owner a)) then asleep w' = {[h]} ∪ asleep w /\ awake w' = awake w
                   else w' = w
       | Unlock => asleep w' = asleep w ∖ list_to_set (take 1 (line a))
                   /\ awake w' = list_to_set (take 1 (line a)) ∪ awake w
       end.
Proof. apply runMutex_ok. Qed.

End mutex.

(** Coroutine 2 owns the mutex; coroutine 1 gets in line. *)
Lemma comutex_refines_witness :
  exists m' w', runMutex 0 0 (Lock 1) (mkMutex [] true) startWorld = Ret (m', w')
    /\ repr m' (mkAbsMutex (Some 2%positive) [1%positive]) w'.
Proof.
  destruct startWorld_ok as (Hw & Hc & Hf).
  destruct (@comutex_refines World scheduler_suspending 0 0 (Lock 1) (mkMutex [] true) (mkAbsMutex (Some 2%positive) []) startWorld Hw)
    as (m' & w' & E & _ & Hr & _).
  - split; [done|done|done|constructor|intros h Hh; inversion Hh|].
    intros h _ (i & Hi & _)%elem_of_waiting. discriminate.
  - split_and!; [exact Hc|exact Hf|discriminate].
  - exists m', w'. split; assumption.
Defined.

End CoMutex.
