(* ===== verification/Blocker.v ===== *)
(** [Blocker] ([src/CoCondition.cc], [include/crouton/CoCondition.hh]): one
    coroutine waits for one notification, which may come from another thread at
    any time.  First the operations, against the interface of [Suspending.v];
    then the same code cut at its atomic accesses, in every interleaving. *)

From S2P Require Import Prelude Lifecycle Scheduler Suspending.

Inductive State := Initial | Waiting | Ready.

#[export] Instance State_eq_dec : EqDecision State.
Proof. solve_decision. Defined.

(** * Operations *)

Section ops.
Context {W : Type} `{Suspending W} {V : Type}.

(** [Blocker<T>]: [BlockerBase]'s fields and the value. *)
Record Blocker := mkBlocker {
  _state : State;
  _suspension : Suspension;
  _value : option V
}.

Definition newBlocker : Blocker := mkBlocker Initial None None.

Definition await_ready (b : Blocker) : bool := bool_decide (_state b = Ready).

(** Assigning the new Suspension destroys, and so cancels, a previous one. *)
Definition await_suspend (ty self : Z) (h : coro) (b : Blocker) : ST W (coro_handle * Blocker) :=
  s ← susp h;
  cancel true (_suspension b);;
  b' ← match _state b with
       | Initial => mret (mkBlocker Waiting s (_value b))
       | Ready => s' ← wake true s; mret (mkBlocker Ready s' (_value b))
       | Waiting => crash AssertFailed
       end;
  next ← switchAway h ty self;
  mret (next, b').

(** [Blocker<T>::await_resume]: the value is moved out.  It is [noexcept]: an empty
    optional stops the process. *)
Definition await_resume (b : Blocker) : outcome (V * Blocker) :=
  _ ← precondition (bool_decide (_state b = Ready));
  match _value b with
  | Some v => Ret (v, mkBlocker (_state b) (_suspension b) None)
  | None => Fault AssertFailed
  end.

Definition reset (b : Blocker) : Blocker := mkBlocker Initial (_suspension b) (_value b).

(** [notify(val)], on the scheduler's thread or another. *)
Definition notify (cur : bool) (v : V) (b : Blocker) : ST W Blocker :=
  assert (bool_decide (_value b = None));;
  match _state b with
  | Waiting => s ← wake cur (_suspension b); mret (mkBlocker Ready s (Some v))
  | _ => mret (mkBlocker Ready (_suspension b) (Some v))
  end.

(** The two orders of whole operations: a coroutine that awaits a fresh Blocker
    sleeps until [notify(v)] wakes it, and then gets [v]; if [notify(v)] comes
    first the coroutine does not suspend, and gets [v]; if it comes after the
    check, the coroutine is awake as soon as it has suspended.  The value is
    delivered once. *)
Theorem blocker_operations ty self h cur v w :
  okW w -> current w h -> fresh w h ->
  await_ready newBlocker = false
  /\ (exists b1 w1 b2 w2 b3,
        await_suspend ty self h newBlocker w = Ret ((hnoop, b1), w1) /\ asleep w1 = {[h]} ∪ asleep w
        /\ notify cur v b1 w1 = Ret (b2, w2) /\ okW w2 /\ asleep w2 = asleep w /\ awake w2 = {[h]} ∪ awake w
        /\ await_resume b2 = Ret (v, b3) /\ await_resume b3 = Fault AssertFailed)
  /\ (exists b1 b2, notify cur v newBlocker w = Ret (b1, w) /\ await_ready b1 = true
        /\ await_resume b1 = Ret (v, b2)
        /\ exists b3 w', await_suspend ty self h b1 w = Ret ((hnoop, b3), w') /\ okW w'
             /\ asleep w' = asleep w /\ awake w' = {[h]} ∪ awake w /\ await_resume b3 = Ret (v, mkBlocker Ready None None)).
Proof.
  intros Hw Hc Hf. destruct (fresh_out w h Hw Hf) as [Hn1 Hn2].
  destruct (susp_law w h Hw Hc Hf) as (w1 & E1 & Hw1 & Hc1 & Ea1 & Eb1 & Hf1).
  split_and!; [done| |].
  - destruct (switch_law w1 h ty self Hw1 Hc1) as (w2 & E2 & Hw2 & Ea2 & Eb2 & Hf2).
    destruct (wake_law w2 cur h Hw2) as (w3 & E3 & Hw3 & Ea3 & Eb3 & _); [rewrite Ea2, Ea1; set_solver|].
    eexists _, w2, _, w3, _. split_and!; try done; try (rewrite ?Ea3, ?Eb3, ?Ea2, ?Eb2, ?Ea1, ?Eb1; set_solver).
    + unfold await_suspend, newBlocker, mbind, ST_bind. cbn [_state _suspension _value]. rewrite E1, cancel_null.
      unfold mret at 1, ST_ret at 1. rewrite E2. reflexivity.
    + unfold notify, assert, mbind, ST_bind. cbn. rewrite E3. reflexivity.
    + reflexivity.
    + reflexivity.
  - eexists _, _. split_and!; [reflexivity..|].
    destruct (wake_law w1 true h Hw1) as (w2 & E2 & Hw2 & Ea2 & Eb2 & Hc2 & _); [set_solver|].
    destruct (switch_law w2 h ty self Hw2 (Hc2 h Hc1)) as (w3 & E3 & Hw3 & Ea3 & Eb3 & _).
    eexists _, w3. split_and!; try done; try (rewrite ?Ea3, ?Eb3, ?Ea2, ?Eb2, ?Ea1, ?Eb1; set_solver).
    + unfold await_suspend, mbind, ST_bind. cbn [_state _suspension _value]. rewrite E1, cancel_null, E2.
      unfold mret at 1, ST_ret at 1. rewrite E3. reflexivity.
    + reflexivity.
Qed.

End ops.
Arguments Blocker : clear implicits.

Lemma blocker_operations_witness :
  exists b1 w1 b2 w2 b3,
    await_suspend 0 0 1 newBlocker startWorld = Ret ((hnoop, b1), w1)
    /\ notify false 5%Z b1 w1 = Ret (b2, w2) /\ await_resume b2 = Ret (5%Z, b3).
Proof.
  destruct startWorld_ok as (Hw & Hc & Hf).
  destruct (@blocker_operations World scheduler_suspending Z 0 0 1 false 5%Z startWorld Hw Hc Hf)
    as (_ & (b1 & w1 & b2 & w2 & b3 & E1 & _ & E2 & _ & _ & _ & E3 & _) & _).
  exists b1, w1, b2, w2, b3. split_and!; assumption.
Defined.

(** * Every interleaving

    The coroutine and the notifier, one atomic access per step. *)

Section race.
Context {V : Type}.

(** What the coroutine does next.  [ABlocked]: it gave up control and goes on once
    the scheduler finds it woken. *)
Inductive apc := AReady | ASuspend | ACas | ASelfWake | ABlocked | AResume | AGot (v : V).

Inductive npc := NValue | NExchange | NWake | NDone.

(** The coroutine's entry in the scheduler. *)
Inductive entry := Unlisted | Asleep | Woken.

(** [bad]: an assertion failed, an empty optional was read, or a Suspension was
    used that is not there. *)
Record Race := mkRace {
  st : State;
  val : option V;
  ent : entry;
  acoro : apc;
  notifier : npc;
  bad : bool
}.

Definition start : Race := mkRace Initial None Unlisted AReady NValue false.

Definition wakeEntry (r : Race) (a : apc) (n : npc) : Race :=
  match ent r with
  | Asleep => mkRace (st r) (val r) Woken a n (bad r)
  | e => mkRace (st r) (val r) e a n true
  end.

(** A step of the coroutine; [None] if it is blocked or finished. *)
Definition stepA (r : Race) : option Race :=
  match acoro r with
  | AReady =>
      let a := if bool_decide (st r = Ready) then AResume else ASuspend in
      Some (mkRace (st r) (val r) (ent r) a (notifier r) (bad r))
  | ASuspend => Some (mkRace (st r) (val r) Asleep ACas (notifier r) (bad r))
  | ACas =>
      match st r with
      | Initial => Some (mkRace Waiting (val r) (ent r) ABlocked (notifier r) (bad r))
      | Ready => Some (mkRace Ready (val r) (ent r) ASelfWake (notifier r) (bad r))
      | Waiting => Some (mkRace Waiting (val r) (ent r) ABlocked (notifier r) true)
      end
  | ASelfWake => Some (wakeEntry r ABlocked (notifier r))
  | ABlocked =>
      match ent r with
      | Woken => Some (mkRace (st r) (val r) Unlisted AResume (notifier r) (bad r))
      | _ => None
      end
  | AResume =>
      match val r with
      | Some v => Some (mkRace (st r) None (ent r) (AGot v) (notifier r)
                          (bad r || negb (bool_decide (st r = Ready))))
      | None => Some (mkRace (st r) None (ent r) ABlocked (notifier r) true)
      end
  | AGot _ => None
  end.

(** A step of the thread that calls [notify(v)]. *)
Definition stepN (v : V) (r : Race) : option Race :=
  match notifier r with
  | NValue => Some (mkRace (st r) (Some v) (ent r) (acoro r) NExchange
                      (bad r || bool_decide (is_Some (val r))))
  | NExchange =>
      let n := if bool_decide (st r = Waiting) then NWake else NDone in
      Some (mkRace Ready (val r) (ent r) (acoro r) n (bad r))
  | NWake => Some (wakeEntry r (acoro r) NDone)
  | NDone => None
  end.

Inductive step (v : V) : Race -> Race -> Prop :=
| step_coroutine r r' : stepA r = Some r' -> step v r r'
| step_notifier r r' : stepN v r = Some r' -> step v r r'.

(** The states that occur. *)
Definition raceInv (v : V) (r : Race) : Prop :=
  bad r = false /\
  match notifier r with
  | NValue | NExchange =>
      val r = (match notifier r with NValue => None | _ => Some v end) /\
      match acoro r with
      | AReady | ASuspend => st r = Initial /\ ent r = Unlisted
      | ACas => st r = Initial /\ ent r = Asleep
      | ABlocked => st r = Waiting /\ ent r = Asleep
      | _ => False
      end
  | NWake => val r = Some v /\ st r = Ready /\ acoro r = ABlocked /\ ent r = Asleep
  | NDone =>
      st r = Ready /\
      match acoro r with
      | AReady | ASuspend | AResume => val r = Some v /\ ent r = Unlisted
      | ACas | ASelfWake => val r = Some v /\ ent r = Asleep
      | ABlocked => val r = Some v /\ ent r = Woken
      | AGot v' => v' = v /\ val r = None /\ ent r = Unlisted
      end
  end.

Lemma step_inv v r r' : raceInv v r -> step v r r' -> raceInv v r'.
Proof.
  intros H Hs. destruct r as [s x e a n b]. unfold raceInv in H. cbn in H.
  destruct H as [-> H].
  inversion Hs as [? ? E|? ? E]; subst; clear Hs; destruct n, a; cbn in *;
    repeat match goal with H : _ /\ _ |- _ => destruct H end; subst; try done;
    cbn in E; simplify_eq; unfold raceInv; cbn; repeat case_bool_decide; try done; auto 10.
Qed.

(** Steps left at most. *)
Definition rank (r : Race) : nat :=
  match acoro r with
  | AReady => 6 | ASuspend => 5 | ACas => 4 | ASelfWake => 3 | ABlocked => 2 | AResume => 1 | AGot _ => 0
  end + match notifier r with NValue => 3 | NExchange => 2 | NWake => 1 | NDone => 0 end.

Lemma step_rank v r r' : raceInv v r -> step v r r' -> (rank r' < rank r)%nat.
Proof.
  intros H Hs. destruct r as [s x e a n b]. unfold raceInv in H. cbn in H. destruct H as [-> H].
  inversion Hs as [? ? E|? ? E]; subst; clear Hs; destruct n, a; cbn in *;
    repeat match goal with H : _ /\ _ |- _ => destruct H end; subst; try done;
    cbn in E; simplify_eq; unfold rank; cbn; repeat case_bool_decide; cbn; lia.
Qed.

Lemma start_inv v : raceInv v start.
Proof. done. Qed.

Lemma rank_bound v n r0 r :
  raceInv v r0 -> nsteps (step v) n r0 r -> raceInv v r /\ (n + rank r <= rank r0)%nat.
Proof.
  intros Hi H. induction H as [|n x y z Hs _ IH]; [auto with lia|].
  destruct (IH (step_inv v x y Hi Hs)) as [H1 H2]. pose proof (step_rank v x y Hi Hs). split; [done|lia].
Qed.

Lemma inv_terminal v r :
  raceInv v r -> stepA r = None -> stepN v r = None -> acoro r = AGot v /\ ent r = Unlisted.
Proof.
  destruct r as [s x e a n b]. unfold raceInv, stepN, stepA. cbn. intros [-> H] HA HN.
  destruct n, a; cbn in *; repeat match goal with H : _ /\ _ |- _ => destruct H end; subst; try done.
Qed.

(** C13: whatever the interleaving of a coroutine that awaits a Blocker and a thread
    that notifies it with [v]: no assertion fails, the Suspension is woken at most
    once and only while the coroutine sleeps, there are at most nine steps, and
    when neither side can go on the coroutine has received [v] -- the wake-up is
    not lost. *)
Theorem blocker_delivers v n r :
  nsteps (step v) n start r ->
  bad r = false /\ (n <= 9)%nat
  /\ (stepA r = None -> stepN v r = None -> acoro r = AGot v /\ ent r = Unlisted).
Proof.
  intros H. destruct (rank_bound v n start r (start_inv v) H) as [Hi Hn]. cbn in Hn.
  split_and!; [apply Hi|lia|]. now apply inv_terminal.
Qed.

End race.

(** The notification comes between the suspension and the compare-and-exchange. *)
Lemma blocker_delivers_witness :
  exists r, nsteps (step 7%Z) 8 start r /\ acoro r = AGot 7%Z.
Proof.
  assert (nsteps (step 7%Z) 8 start (mkRace Ready None Unlisted (AGot 7%Z) NDone false)) as H.
  { eapply nsteps_l; [apply step_coroutine; reflexivity|].
    eapply nsteps_l; [apply step_coroutine; reflexivity|].
    eapply nsteps_l; [apply step_notifier; reflexivity|].
    eapply nsteps_l; [apply step_notifier; reflexivity|].
    do 4 (eapply nsteps_l; [apply step_coroutine; reflexivity|]). apply nsteps_O. }
  eexists. split; [exact H|]. apply (blocker_delivers 7%Z 8 _ H); reflexivity.
Defined.
