(* ===== verification/Task.v ===== *)
(** [Task] ([include/crouton/Task.hh], [src/Task.cc]) and [Yielder] ([include/crouton/Scheduler.hh]): a
    coroutine without a result, which the scheduler starts, which others can interrupt and whose end others
    can await. *)

From S2P Require Import Prelude Lifecycle Scheduler Suspending Blocker.

(** * Yielder *)

Definition yielder_await_suspend (h : coro) : ST World coro_handle :=
  next ← yield true h;
  onLife (yieldingTo (hcoro h) next false).

Definition yielder_await_resume (h : coro) : ST World unit := resumed true h.

(** [~Yielder]; [_handle] is the coroutine while it is suspended there. *)
Definition destroyYielder (_handle : option coro) : ST World unit :=
  match _handle with Some h => destroying true h | None => mret tt end.

(** * Task *)

(** [Task::shared]: what a task and its handles share. *)
Record shared := mkShared {
  done : Blocker (option error);
  alive : bool;
  interrupted : bool
}.

(** [get_return_object]: the coroutine becomes known, and the new [Task] has the shared state. *)
Definition get_return_object (h : coro) : ST World shared :=
  onLife (created (hcoro h) false);;
  mret (mkShared newBlocker true false).

(** [initial_suspend]'s [await_suspend]. *)
Definition initial_suspend (h : coro) : ST World unit :=
  schedule true h;;
  onLife (suspendInitial (hcoro h)).

Definition interrupt (t : shared) : shared := mkShared (done t) (alive t) true.

(** What [co_yield] returns. *)
Definition yield_resume (h : coro) (t : shared) : ST World bool :=
  yielder_await_resume h;;
  mret (negb (interrupted t)).

Definition unhandled_exception (h : coro) (e : error) (t : shared) : ST World shared :=
  onLife (threw (hcoro h));;
  b ← notify true (Some e) (done t);
  mret (mkShared b false (interrupted t)).

Definition return_void (h : coro) (t : shared) : ST World shared :=
  onLife (returning (hcoro h));;
  b ← notify true None (done t);
  mret (mkShared b false (interrupted t)).

(** The body ends, with an exception or without. *)
Definition finish (h : coro) (e : option error) (t : shared) : ST World shared :=
  match e with Some e => unhandled_exception h e t | None => return_void h t end.

(** * Lemmas *)

(** A coroutine comes to its end: only its own state changes. *)
Lemma ending_ok w h m :
  m = threw (hcoro h) \/ m = returning (hcoro h) -> schedOk w -> schedCurrent w h -> h ∉ waiting w ->
  exists w', onLife m w = Ret (tt, w') /\ schedOk w' /\ waiting w' = waiting w /\ runnable w' = runnable w /\ stateOf (life w') h = Some ending.
Proof.
  intros Hm Hw [[stk Hwf] Hst] Hn. destruct (top_info (life w) (h :: stk) h Hwf eq_refl) as (i & r & [= <-] & Hi & Eg & Ec).
  assert (m (life w) = Ret (tt, upd h (setState ending) (life w))) as E.
  { destruct Hm as [-> | ->]; unfold threw, returning, mbind, ST_bind; rewrite Eg; cbn [fst]; rewrite Ec; reflexivity. }
  unfold onLife, zoom. rewrite E. eexists. split; [reflexivity|]. split; [|split_and!; [done|done|]].
  - split; cbn.
    + destruct (so_inv w Hw). now split.
    + exists (h :: stk). apply wf_upd; [apply setState_frames| |done]. right; left. intros j. rewrite setState_state. auto.
    + intros x Hx. destruct (so_live w Hw x Hx) as [Hl He]. split; [apply live_upd; [apply setState_frames|done]|].
      rewrite stateOf_upd_ne; [done|]. intros ->. contradiction.
  - cbn. rewrite stateOf_upd, bool_decide_eq_true_2, Hi by done. cbn. now rewrite setState_state.
Qed.

Lemma finish_ok w h e t :
  schedOk w -> schedCurrent w h -> h ∉ waiting w -> _value (done t) = None ->
  (_state (done t) = Waiting -> exists j, _suspension (done t) = Some j /\ j ∈ waiting w) ->
  exists t' w', finish h e t w = Ret (t', w') /\ schedOk w' /\ alive t' = false /\ interrupted t' = interrupted t
    /\ _state (done t') = Ready /\ _value (done t') = Some e
    /\ waiting w' = (match _state (done t), _suspension (done t) with Waiting, Some j => waiting w ∖ {[j]} | _, _ => waiting w end)
    /\ runnable w' = (match _state (done t), _suspension (done t) with Waiting, Some j => {[j]} ∪ runnable w | _, _ => runnable w end).
Proof.
  intros Hw Hc Hn Hv Hs. destruct (ending_ok w h (match e with Some _ => threw (hcoro h) | None => returning (hcoro h) end)) as (w1 & E1 & Hw1 & Ew1 & Er1 & _); try done; [destruct e; auto|].
  assert (finish h e t w = (b ← notify true e (done t); mret (mkShared b false (interrupted t))) w1) as ->.
  { unfold finish, unhandled_exception, return_void, mbind, ST_bind. destruct e; rewrite E1; reflexivity. }
  unfold notify, assert, mbind, ST_bind. rewrite Hv, bool_decide_eq_true_2 by done.
  destruct (_state (done t)) eqn:Es; [eexists _, w1; split_and!; try done..| |eexists _, w1; split_and!; try done].
  destruct (Hs eq_refl) as (j & Ej & Hj). rewrite Ej. destruct (sched_wake w1 true j Hw1) as (w2 & E2 & Hw2 & Ea & Eb & _); [now rewrite Ew1|].
  change (suspensionWakeUp true (Some j) w1) with (wake true (Some j) w1) in E2. rewrite E2. eexists _, w2. split_and!; try done; [rewrite Ea, Ew1|rewrite Eb, Er1]; done.
Qed.

(** A coroutine that awaits the end of a task that is running. *)
Lemma join_waits w j t ty self :
  schedOk w -> schedCurrent w j -> schedFresh w j -> done t = newBlocker ->
  await_ready (done t) = false
  /\ exists b w', await_suspend ty self j (done t) w = Ret ((hnoop, b), w') /\ schedOk w'
       /\ waiting w' = {[j]} ∪ waiting w /\ runnable w' = runnable w /\ b = mkBlocker Waiting (Some j) None.
Proof.
  intros Hw Hc Hf ->. split; [done|]. destruct (sched_susp w j Hw Hc Hf) as (w1 & E1 & Hw1 & Hc1 & Ea1 & Eb1 & _).
  destruct (sched_switch w1 j ty self Hw1 Hc1) as (w2 & E2 & Hw2 & Ea2 & Eb2 & _).
  eexists _, w2. change (suspend true j w) with (susp j w) in E1. change (switchAway j ty self w1 = Ret (hnoop, w2)) in E2.
  unfold await_suspend, mbind, ST_bind. cbn [_state _suspension _value newBlocker]. rewrite E1, cancel_null.
  unfold mret at 1, ST_ret at 1. rewrite E2. split_and!; try done; cbn in *; congruence.
Qed.

(** A new task. *)
Lemma start_ok w n :
  schedOk w -> ~ live (life w) n -> schedFresh w n ->
  exists w1 w2, get_return_object n w = Ret (mkShared newBlocker true false, w1) /\ initial_suspend n w1 = Ret (tt, w2)
    /\ _ready w2 = _ready w ++ [n] /\ waiting w2 = waiting w /\ live (life w2) n.
Proof.
  intros Hw Hl [Hf1 Hf2]. destruct (so_stack w Hw) as [stk [Hwf _]].
  set (i0 := CoroInfo (hcoro n) born None hnull None None (u32 (sLastSequence (life w) + 1)) false).
  set (l1 := mkLifecycle (<[n:=i0]> (sCoros (life w))) (tCurrent (life w)) (u32 (sLastSequence (life w) + 1))).
  assert (created (hcoro n) false (life w) = Ret (tt, l1)) as E1.
  { unfold created, gets, newInfo, putInfo, modify, assert, mbind, ST_bind. destruct (sCoros (life w) !! n) as [i|] eqn:E; cbn; [|done].
    rewrite bool_decide_eq_true_2; [done|]. destruct (wf_handle _ _ Hwf n i E); [done|]. destruct Hl. exists i. auto. }
  assert (live l1 n) as Hl1 by (exists i0; split; [apply lookup_insert_eq|done]).
  exists (setLife l1 w), (setReady (_ready w ++ [n]) (setLife l1 w)). split_and!.
  - unfold get_return_object, onLife, zoom, mbind, ST_bind. now rewrite E1.
  - unfold initial_suspend, schedule, assert, gets, when, mbind, ST_bind, onLife, zoom. unfold isWaiting. cbn [_suspended setLife]. rewrite Hf1.
    rewrite bool_decide_eq_false_2 by (intros [? ?]; done). cbn [negb]. rewrite isReady_spec. cbn [_ready setLife]. rewrite bool_decide_eq_false_2 by done. cbn [negb].
    unfold modify. cbn [life setReady setLife]. unfold suspendInitial, mbind, ST_bind. destruct (getInfo_live l1 n Hl1) as (i & Hi & Eg).
    cbn in Hi. rewrite lookup_insert_eq in Hi. injection Hi as <-. rewrite Eg. reflexivity.
  - done.
  - done.
  - exact Hl1.
Qed.

(** C14: the life of a [Task]: creating it makes its coroutine known and puts it at the end of the scheduler's queue, alive;
    [co_yield] gives true until it is interrupted; when its body ends, with an exception or without, it is no longer
    alive, and [co_await join()] gives the exception or no error: a coroutine that was
    waiting is awake, one that comes later does not wait.  Awaited again, it stops the process. *)
Theorem task_life w h e t :
  schedOk w -> schedCurrent w h -> schedFresh w h -> alive t = true ->
  (forall n, ~ live (life w) n -> schedFresh w n ->
     exists w1 w2, get_return_object n w = Ret (mkShared newBlocker true false, w1) /\ initial_suspend n w1 = Ret (tt, w2)
       /\ _ready w2 = _ready w ++ [n] /\ waiting w2 = waiting w)
  /\ yield_resume h t w = Ret (negb (interrupted t), setReady (eraseFirst h (_ready w)) w)
  /\ yield_resume h (interrupt t) w = Ret (false, setReady (eraseFirst h (_ready w)) w)
  /\ (done t = newBlocker ->
      exists t' w', finish h e t w = Ret (t', w') /\ schedOk w' /\ alive t' = false /\ waiting w' = waiting w
        /\ await_ready (done t') = true /\ exists b, await_resume (done t') = Ret (e, b) /\ await_resume b = Fault AssertFailed)
  /\ (forall j, done t = mkBlocker Waiting (Some j) None -> j ∈ waiting w ->
      exists t' w', finish h e t w = Ret (t', w') /\ schedOk w' /\ alive t' = false
        /\ waiting w' = waiting w ∖ {[j]} /\ runnable w' = {[j]} ∪ runnable w
        /\ exists b, await_resume (done t') = Ret (e, b)).
Proof.
  intros Hw Hc [Hf1 Hf2] Ha.
  assert (h ∉ waiting w) as Hn by (rewrite elem_of_waiting; intros (i & Hi & _); congruence).
  assert (forall t', _state (done t') = Ready -> _value (done t') = Some e -> await_resume (done t') = Ret (e, mkBlocker Ready (_suspension (done t')) None)) as Hget.
  { intros t' E1 E2. unfold await_resume. rewrite E1, E2. done. }
  split_and!.
  - intros n Hl Hf. destruct (start_ok w n Hw Hl Hf) as (w1 & w2 & E1 & E2 & E3 & E4 & _). eauto 8.
  - reflexivity.
  - reflexivity.
  - intros Et. destruct (finish_ok w h e t Hw Hc Hn) as (t' & w' & E & Hw' & Ha' & _ & Es & Ev & Ew & _); [now rewrite Et|rewrite Et; done|].
    rewrite Et in Ew. exists t', w'. split_and!; try done; [unfold await_ready; now rewrite Es|]. eexists. split; [now apply Hget|done].
  - intros j Et Hj. destruct (finish_ok w h e t Hw Hc Hn) as (t' & w' & E & Hw' & Ha' & _ & Es & Ev & Ew & Er); [now rewrite Et|rewrite Et; eauto|].
    rewrite Et in Ew, Er. exists t', w'. split_and!; try done. eexists. now apply Hget.
Qed.

Lemma task_life_witness :
  exists t' w', finish 1 (Some (ECrouton Timeout)) (mkShared newBlocker true false) startWorld = Ret (t', w') /\ alive t' = false
    /\ exists b, await_resume (done t') = Ret (Some (ECrouton Timeout), b).
Proof.
  destruct startWorld_ok as (Hw & Hc & Hf).
  destruct (task_life startWorld 1 (Some (ECrouton Timeout)) (mkShared newBlocker true false) Hw Hc Hf eq_refl) as (_ & _ & _ & Hfin & _).
  destruct (Hfin eq_refl) as (t' & w' & E & _ & Ha & _ & _ & b & Eb & _). exists t', w'. eauto.
Defined.
