(* ===== verification/Actor.v ===== *)
(** [Actor] ([include/crouton/Actor.hh]): the methods of an actor are coroutines of which one runs at a time;
    others wait in its queue, whatever thread they are called on.

    The actor works on the scheduler of [Scheduler.v].  A call on another thread posts a function to the
    event loop of the actor's thread; it is named after the coroutine it is to start. *)

From S2P Require Import Prelude Lifecycle Scheduler.

(** * The actor *)










(** * Runs

    What goes on around an actor: methods are called on its thread or another, its thread runs posted
    functions, the scheduler picks coroutines, a running method finishes, and coroutines, methods that are
    running among them, use the scheduler. *)





Section runs.
Context (iter : gmap coro SuspensionImpl -> list (coro * SuspensionImpl)).




(** * When an event can happen *)







End runs.

(** * What an operation of the scheduler leaves alone *)














Section frame.
Context (iter : gmap coro SuspensionImpl -> list (coro * SuspensionImpl)).



End frame.

(** * Invariant *)











(** * Every event keeps it *)

Section keeps.
Context (iter : gmap coro SuspensionImpl -> list (coro * SuspensionImpl)) (Hiter : forall m, iter m ≡ₚ map_to_list m).















End keeps.



