(* ===== verification/Futures.v ===== *)
(** Futures ([src/Future.cc], [include/crouton/Future.hh]): the state shared by a
    [Future] and its provider, awaiting, [then] chains, [onReady] callbacks. *)

From S2P Require Import Prelude Lifecycle Scheduler Suspending Errors.

(** * Data *)

Inductive State := Empty | Waiting | Chained | Ready.

#[export] Instance State_eq_dec : EqDecision State.
Proof. solve_decision. Defined.

Section futures.
Context {W : Type} `{Suspending W} {V : Type}.

(** The function given to [then]: it returns a value or throws.  It is given the value of its future by rvalue
    reference, and what it leaves there is the second component: a moved-from value, or the value itself if
    it only looked at it. *)
Abbreviation callback := (V -> (V + error) * V).

(** [FutureState]: the address of the chained state with the callback and the
    scheduler of the thread that called [then]; callbacks of [onReady] are
    numbers. *)
Record FutureState := mkFuture {
  _state : State;
  _result : Result V;
  _suspension : Suspension;
  _chained : option (Z * callback * Z);
  _onReady : option Z
}.

Definition newFuture : FutureState := mkFuture Empty emptyResult None None None.

(** The heap of states, the [onReady] callbacks called so far, the chain callbacks
    handed to other schedulers' event loops, and the scheduler of this thread. *)
Record Futures := mkFutures {
  heap : gmap Z FutureState;
  fired : list Z;
  deferred : list (Z * (Z * Z * callback));
  world : W
}.

Definition setHeap (h : gmap Z FutureState) (s : Futures) : Futures :=
  mkFutures h (fired s) (deferred s) (world s).

Definition getF (f : Z) : ST Futures FutureState := fun s =>
  match heap s !! f with Some x => Ret (x, s) | None => Fault OutOfBounds end.

Definition putF (f : Z) (x : FutureState) : ST Futures unit :=
  modify (fun s => setHeap (<[f := x]> (heap s)) s).

Definition updF (f : Z) (g : FutureState -> FutureState) : ST Futures unit :=
  x ← getF f; putF f (g x).

Definition setState (st : State) (x : FutureState) : FutureState :=
  mkFuture st (_result x) (_suspension x) (_chained x) (_onReady x).
Definition setRes (r : Result V) (x : FutureState) : FutureState :=
  mkFuture (_state x) r (_suspension x) (_chained x) (_onReady x).
Definition setSuspension (s : Suspension) (x : FutureState) : FutureState :=
  mkFuture (_state x) (_result x) s (_chained x) (_onReady x).
Definition setChained (c : option (Z * callback * Z)) (x : FutureState) : FutureState :=
  mkFuture (_state x) (_result x) (_suspension x) c (_onReady x).
Definition setOnReady (o : option Z) (x : FutureState) : FutureState :=
  mkFuture (_state x) (_result x) (_suspension x) (_chained x) o.

Definition onWorld {A} (m : ST W A) : ST Futures A :=
  zoom world (fun w s => mkFutures (heap s) (fired s) (deferred s) w) m.

Definition fire (fn : Z) : ST Futures unit :=
  modify (fun s => mkFutures (heap s) (fired s ++ [fn]) (deferred s) (world s)).

(** * Operations

    [me] is the scheduler of the calling thread, [home] the one of the awaiting
    coroutine. *)

Definition hasResult (f : Z) : ST Futures bool :=
  x ← getF f; mret (bool_decide (_state x = Ready)).

Definition checkEmpty (f : Z) : ST Futures bool :=
  x ← getF f;
  match _state x with
  | Empty => mret true
  | Waiting | Chained => throw (ECrouton LogicError)
  | Ready => mret false
  end.

Definition changeState (f : Z) (st : State) : ST Futures bool :=
  x ← getF f;
  match _state x with
  | Empty => putF f (setState st x);; mret true
  | Ready => mret false
  | _ => throw (ECrouton LogicError)
  end.

(** Wake the awaiting coroutine; the Suspension becomes null. *)
Definition wakeF (f : Z) (cur : bool) : ST Futures unit :=
  x ← getF f;
  s ← onWorld (wake cur (_suspension x));
  updF f (setSuspension s).

Definition suspendF (f : Z) (h : coro) : ST Futures coro_handle :=
  e ← checkEmpty f;
  if (e : bool) then
    x ← getF f;
    assert (bool_decide (_suspension x = None));;
    s ← onWorld (susp h);
    updF f (setSuspension s);;
    ok ← changeState f Waiting;
    (if (ok : bool) then mret tt else wakeF f true);;
    mret hnoop
  else mret (hcoro h).

(** [Future::await_suspend] of a future that is not a coroutine's: control goes to
    what [suspend] returned. *)
Definition await_suspend (ty : Z) (f : Z) (h : coro) : ST Futures coro_handle :=
  next ← suspendF f h;
  if bool_decide (next = hcoro h) then mret next
  else onWorld (switchAway h ty f).

Definition noFuture (f : Z) : ST Futures unit :=
  x ← getF f;
  match _suspension x with
  | None => mret tt
  | Some _ =>
      let st := if bool_decide (_state x = Waiting) then Empty else _state x in
      s ← onWorld (cancel true (_suspension x));
      putF f (setState st (setSuspension s x))
  end.

Definition onReady (f : Z) (fn : option Z) : ST Futures unit :=
  x ← getF f;
  match fn with
  | None => putF f (setOnReady None x)
  | Some c => if bool_decide (_state x = Ready) then fire c else putF f (setOnReady (Some c) x)
  end.

(** [FutureState::resultValue]: the value of the result is handed out as an rvalue reference
    ([std::move(_result).value()]); [use] is the code that is given it, with what that leaves in the future. *)
Definition resultValue {A} (f : Z) (use : V -> A * V) : ST Futures A :=
  x ← getF f;
  v ← lift (value (_result x));
  putF f (setRes (RValue (use v).2) x);;
  mret (use v).1.

(** What a callback returned or threw, as a result. *)
Definition outcomeOf (u : V + error) : Result V :=
  match u with inl u => RValue u | inr e => RError (Some e) end.

(** [setResult], [_notify] and [resolveChain] call each other along a chain of
    futures; [fuel] bounds its length.  A [LogicError] of the destination cannot
    be turned into its result (it has one), so it is rethrown by the handler
    around the callback. *)
Fixpoint setResult (fuel : nat) (me home f : Z) (r : Result V) : ST Futures unit :=
  match fuel with
  | O => crash NoFuel
  | S n =>
      updF f (setRes r);;
      assert (negb (Errors.empty r));;
      x ← getF f;
      putF f (setState Ready x);;
      (match _state x with
       | Empty => mret tt
       | Waiting => wakeF f (bool_decide (me = home))
       | Chained =>
           match _chained x with
           | None => crash OutOfBounds
           | Some (dst, cb, sched) =>
               updF f (setChained None);;
               match errorOfResult r with
               | Some e => setResult n me home dst (RError (Some e))
               | None =>
                   if bool_decide (me = sched) then
                     u ← resultValue f cb;
                     setResult n me home dst (outcomeOf u)
                   else modify (fun s => mkFutures (heap s) (fired s)
                                           (deferred s ++ [(sched, (f, dst, cb))]) (world s))
               end
           end
       | Ready => throw (ECrouton LogicError)
       end);;
      y ← getF f;
      match _onReady y with
      | Some fn => putF f (setOnReady None y);; fire fn
      | None => mret tt
      end
  end.

(** The callback of a chain, run now. *)
Definition runChain (fuel : nat) (me home src dst : Z) (cb : callback) : ST Futures unit :=
  u ← resultValue src cb;
  setResult fuel me home dst (outcomeOf u).

(** The event loop of scheduler [me] runs the first function handed to it. *)
Definition runDeferred (fuel : nat) (me home : Z) : ST Futures unit :=
  ds ← gets deferred;
  match ds with
  | (sched, (src, dst, cb)) :: rest =>
      if bool_decide (sched = me) then
        modify (fun s => mkFutures (heap s) (fired s) rest (world s));;
        runChain fuel me home src dst cb
      else mret tt
  | [] => mret tt
  end.

(** [chain]: the new future [dst] that [then] returns. *)
Definition then_ (fuel : nat) (me home f dst : Z) (cb : callback) : ST Futures unit :=
  putF dst newFuture;;
  e ← checkEmpty f;
  x ← getF f;
  assert (bool_decide (_chained x = None));;
  updF f (setChained (Some (dst, cb, me)));;
  (if (e : bool) then ok ← changeState f Chained; mret (negb ok) else mret true) ≫= fun resolve : bool =>
  if resolve then
    y ← getF f;
    assert (bool_decide (_state y = Ready));;
    updF f (setChained None);;
    match errorOfResult (_result y) with
    | Some err => setResult fuel me home dst (RError (Some err))
    | None => runChain fuel me home f dst cb
    end
  else mret tt.

(** * Chains *)

(** What [then]'s callback makes of a result. *)
Definition through (cb : callback) (r : Result V) : Result V :=
  match r with
  | RValue v => outcomeOf (cb v).1
  | RError e => RError e
  end.

(** What it leaves of that result in its future. *)
Definition leftBy (cb : callback) (r : Result V) : Result V :=
  match r with RValue v => RValue (cb v).2 | RError e => RError e end.

(** [f] and the futures that follow it: each waits for the one before; the last
    has nobody waiting. *)
Fixpoint chainOf (me : Z) (h : gmap Z FutureState) (f : Z) (links : list (callback * Z)) : Prop :=
  match links with
  | [] => exists r o, h !! f = Some (mkFuture Empty r None None o)
  | (cb, dst) :: rest =>
      (exists r o, h !! f = Some (mkFuture Chained r None (Some (dst, cb, me)) o)) /\ chainOf me h dst rest
  end.

(** The results along the chain: the last future has its result, each one before it what its callback left. *)
Fixpoint results (f : Z) (r : Result V) (links : list (callback * Z)) : list (Z * Result V) :=
  match links with
  | [] => [(f, r)]
  | (cb, dst) :: rest => (f, leftBy cb r) :: results dst (through cb r) rest
  end.

Lemma results_fst f r links g q : (g, q) ∈ results f r links -> g ∈ f :: links.*2.
Proof.
  revert f r. induction links as [|[cb dst] links IH]; cbn; intros f r; [set_solver|].
  intros [[= -> _]|Hin]%elem_of_cons; [set_solver|]. apply IH in Hin. cbn. set_solver.
Qed.

(** The [onReady] callbacks of the chain, last future first. *)
Fixpoint callbacksOf (h : gmap Z FutureState) (f : Z) (links : list (callback * Z)) : list Z :=
  match links with [] => [] | (_, dst) :: rest => callbacksOf h dst rest end
  ++ match h !! f ≫= _onReady with Some fn => [fn] | None => [] end.

Lemma chainOf_ext me h h' f links :
  (forall x, x ∈ f :: links.*2 -> h' !! x = h !! x) -> chainOf me h f links -> chainOf me h' f links.
Proof.
  revert f. induction links as [|[cb dst] links IH]; intros f Hx; cbn.
  - rewrite Hx by set_solver. done.
  - rewrite Hx by set_solver. intros [H1 H2]. split; [done|]. apply IH; [|done].
    intros x Hin. apply Hx. cbn. set_solver.
Qed.

Lemma callbacksOf_ext h h' f links :
  (forall x, x ∈ f :: links.*2 -> h' !! x = h !! x) -> callbacksOf h' f links = callbacksOf h f links.
Proof.
  revert f. induction links as [|[cb dst] links IH]; intros f Hx; cbn.
  - now rewrite Hx by set_solver.
  - rewrite Hx by set_solver. rewrite IH; [done|]. intros x Hin. apply Hx. cbn. set_solver.
Qed.

Lemma through_nonempty cb r : Errors.empty r = false -> Errors.empty (through cb r) = false.
Proof. destruct r as [v|[e|]]; cbn; [destruct (cb v) as [[]]|..]; done. Qed.

(** Access to the heap. *)
Lemma updF_eq f g s x : heap s !! f = Some x -> updF f g s = Ret (tt, setHeap (<[f := g x]> (heap s)) s).
Proof. intros E. unfold updF, getF, putF, modify, mbind, ST_bind. now rewrite E. Qed.

Lemma getF_eq f s x : heap s !! f = Some x -> getF f s = Ret (x, s).
Proof. intros E. unfold getF. now rewrite E. Qed.

Lemma setResult_chain me home f r links s n :
  chainOf me (heap s) f links -> NoDup (f :: links.*2) -> Errors.empty r = false ->
  (length links < n)%nat ->
  exists s', setResult n me home f r s = Ret (tt, s')
    /\ (forall g q, (g, q) ∈ results f r links -> heap s' !! g = Some (mkFuture Ready q None None None))
    /\ (forall g, g ∉ f :: links.*2 -> heap s' !! g = heap s !! g)
    /\ fired s' = fired s ++ callbacksOf (heap s) f links
    /\ world s' = world s /\ deferred s' = deferred s.
Proof.
  revert f r s n. induction links as [|[cb dst] links IH]; intros f r s n Hc Hn Hr Hlen;
    (destruct n as [|n]; [cbn in Hlen; lia|]); cbn [setResult].
  - destruct Hc as (r0 & o & Hf).
    unfold mbind, ST_bind. rewrite (updF_eq f _ s _ Hf). unfold assert. rewrite Hr. cbn [negb].
    rewrite (getF_eq f _ (mkFuture Empty r None None o)) by apply lookup_insert_eq.
    unfold putF, modify. cbn [heap setHeap _state setRes setState _result _suspension _chained _onReady].
    unfold mret, ST_ret. rewrite (getF_eq f _ (mkFuture Ready r None None o)) by apply lookup_insert_eq.
    cbn [_onReady callbacksOf results]. rewrite Hf. cbn [mbind option_bind _onReady].
    destruct o as [fn|]; (eexists; split; [reflexivity|]); cbn; split_and!; try done.
    + intros g q [[= -> ->]|[]%elem_of_nil]%elem_of_cons. now rewrite lookup_insert_eq.
    + intros g Hg. rewrite !lookup_insert_ne; set_solver.
    + intros g q [[= -> ->]|[]%elem_of_nil]%elem_of_cons. now rewrite lookup_insert_eq.
    + intros g Hg. rewrite !lookup_insert_ne; set_solver.
    + now rewrite app_nil_r.
  - destruct Hc as [(r0 & o & Hf) Hc]. cbn [fmap list_fmap snd] in Hn. apply NoDup_cons in Hn as [Hfn Hn].
    unfold mbind, ST_bind. rewrite (updF_eq f _ s _ Hf). unfold assert. rewrite Hr. cbn [negb].
    rewrite (getF_eq f _ (mkFuture Chained r None (Some (dst, cb, me)) o)) by apply lookup_insert_eq.
    unfold putF, modify. cbn [heap setHeap _state setRes setState _result _suspension _chained _onReady].
    rewrite (updF_eq f _ _ (mkFuture Ready r None (Some (dst, cb, me)) o)) by apply lookup_insert_eq.
    cbn [heap setHeap setChained _state _result _suspension _chained _onReady].
    rewrite !insert_insert_eq.
    set (s1 := setHeap _ _).
    set (s2 := setHeap (<[f := mkFuture Ready (leftBy cb r) None None o]> (heap s)) s).
    destruct (IH dst (through cb r) s2 n) as (s3 & E2 & H1 & H2 & H3 & H4 & H5).
    { revert Hc. apply chainOf_ext. intros x Hx. cbn. rewrite lookup_insert_ne; [done|]. set_solver. }
    { done. } { now apply through_nonempty. } { cbn in Hlen. lia. }
    match goal with |- context [match ?m with Ret _ => _ | Raise _ => _ | Fault _ => _ end] =>
      assert (m = Ret (tt, s3)) as -> end.
    { destruct r as [v|[e|]]; cbn [errorOfResult]; [|exact E2|done].
      rewrite bool_decide_eq_true_2 by done. unfold resultValue, mbind, ST_bind.
      rewrite (getF_eq f s1 (mkFuture Ready (RValue v) None None o)) by apply lookup_insert_eq.
      unfold lift, putF, modify, mret, ST_ret, s1. cbn. unfold setHeap. cbn. rewrite insert_insert_eq. exact E2. }
    assert (heap s3 !! f = Some (mkFuture Ready (leftBy cb r) None None o)) as Hf2
      by (rewrite H2 by set_solver; apply lookup_insert_eq).
    rewrite (getF_eq f s3 _ Hf2). cbn [_onReady].
    assert (callbacksOf (heap s2) dst links = callbacksOf (heap s) dst links) as Ecb.
    { apply callbacksOf_ext. intros x Hx. cbn. rewrite lookup_insert_ne; [done|]. set_solver. }
    cbn [callbacksOf results]. rewrite Hf. cbn [mbind option_bind _onReady].
    destruct o as [fn|]; (eexists; split; [reflexivity|]); cbn; split_and!; try done.
    + intros g q [[= -> ->]|Hin]%elem_of_cons; [now rewrite lookup_insert_eq|].
      rewrite lookup_insert_ne; [now apply H1|]. intros <-. now apply results_fst in Hin.
    + intros g Hg. rewrite lookup_insert_ne by set_solver. rewrite H2 by set_solver.
      cbn. rewrite lookup_insert_ne; set_solver.
    + rewrite H3, Ecb. now rewrite app_assoc.
    + intros g q [[= -> ->]|Hin]%elem_of_cons; [done|]. now apply H1.
    + intros g Hg. rewrite H2 by set_solver. cbn. rewrite lookup_insert_ne; set_solver.
    + rewrite H3, Ecb. now rewrite app_nil_r.
Qed.

(** Reading the result [r] of a future: the value goes to [use], which leaves something in its place; an error is
    thrown. *)
Definition handedOut {A} (f : Z) (use : V -> A * V) (r : Result V) (s : Futures) : outcome (A * Futures) :=
  v ← value r;
  Ret ((use v).1, setHeap (<[f := mkFuture Ready (RValue (use v).2) None None None]> (heap s)) s).

Lemma resultValue_ready {A} f (use : V -> A * V) r s :
  getF f s = Ret (mkFuture Ready r None None None, s) -> resultValue f use s = handedOut f use r s.
Proof. intros Hg. unfold resultValue, handedOut, mbind, ST_bind. rewrite Hg. unfold lift. cbn [_result]. now destruct (value r). Qed.

(** * Properties *)

(** C9: a result goes down a chain of [then] callbacks.  When every [then] was called on the scheduler that now
    sets the result on the first of [n] chained futures (a callback of another scheduler is handed to its event
    loop), every callback is applied to the value of the one before and moves out of it what it takes; the
    last future has the result so made, each one before it what its callback left there; an error or an
    exception passes unchanged to the end.  Every [onReady] callback is called once, last future first; nothing
    else changes. *)
Theorem future_chain_resolves me home f r links s :
  chainOf me (heap s) f links -> NoDup (f :: links.*2) -> Errors.empty r = false ->
  exists s', setResult (S (length links)) me home f r s = Ret (tt, s')
    /\ (forall g q, (g, q) ∈ results f r links -> heap s' !! g = Some (mkFuture Ready q None None None))
    /\ (forall g, g ∉ f :: links.*2 -> heap s' !! g = heap s !! g)
    /\ fired s' = fired s ++ callbacksOf (heap s) f links
    /\ world s' = world s /\ deferred s' = deferred s.
Proof. intros Hc Hn Hr. apply setResult_chain; auto with lia. Qed.

(** A result can be set once, and a future awaited or chained once: each further
    attempt throws [LogicError]. *)
Theorem future_used_once me home f h r dst cb s x n :
  heap s !! f = Some x -> f <> dst ->
  (_state x = Ready -> Errors.empty r = false ->
     setResult (S n) me home f r s = Raise (ECrouton LogicError))
  /\ (_state x = Waiting \/ _state x = Chained ->
     suspendF f h s = Raise (ECrouton LogicError)
     /\ then_ n me home f dst cb s = Raise (ECrouton LogicError)).
Proof.
  intros Hf Hd. split.
  - intros Hs Hr. cbn [setResult]. unfold mbind, ST_bind. rewrite (updF_eq f _ s _ Hf).
    unfold assert. rewrite Hr. cbn [negb].
    rewrite (getF_eq f _ (setRes r x)) by apply lookup_insert_eq.
    unfold putF, modify. cbn [_state setRes]. now rewrite Hs.
  - intros Hs. split.
    + unfold suspendF, checkEmpty, mbind, ST_bind. rewrite (getF_eq f s x Hf).
      destruct Hs as [-> | ->]; reflexivity.
    + unfold then_, checkEmpty, mbind, ST_bind. unfold putF at 1, modify.
      rewrite (getF_eq f _ x) by (cbn; rewrite lookup_insert_ne; done).
      destruct Hs as [-> | ->]; reflexivity.
Qed.

(** Awaiting a future without a result puts the coroutine to sleep; setting the
    result then wakes it, and it reads the value or the error.  A future that has
    a result does not suspend its awaiter. *)
Theorem future_await_result me home ty f h r s o :
  heap s !! f = Some (mkFuture Empty emptyResult None None o) -> Errors.empty r = false ->
  okW (world s) -> current (world s) h -> fresh (world s) h ->
  exists s1 s2, await_suspend ty f h s = Ret (hnoop, s1) /\ okW (world s1)
    /\ asleep (world s1) = {[h]} ∪ asleep (world s) /\ awake (world s1) = awake (world s)
    /\ setResult 1 me home f r s1 = Ret (tt, s2) /\ okW (world s2)
    /\ asleep (world s2) = asleep (world s) /\ awake (world s2) = {[h]} ∪ awake (world s)
    /\ (forall A (use : V -> A * V), resultValue f use s2 = handedOut f use r s2)
    /\ hasResult f s2 = Ret (true, s2)
    /\ await_suspend ty f h s2 = Ret (hcoro h, s2).
Proof.
  intros Hf Hr Hw Hc Hfr. destruct (fresh_out _ h Hw Hfr) as [Hn1 Hn2].
  destruct (susp_law _ h Hw Hc Hfr) as (w1 & E1 & Hw1 & Hc1 & Ea1 & Eb1 & _).
  destruct (switch_law w1 h ty f Hw1 Hc1) as (w2 & E2 & Hw2 & Ea2 & Eb2 & _).
  destruct (wake_law w2 (bool_decide (me = home)) h Hw2) as (w3 & E3 & Hw3 & Ea3 & Eb3 & _);
    [rewrite Ea2, Ea1; set_solver|].
  set (s1 := mkFutures (<[f := mkFuture Waiting emptyResult (Some h) None o]> (heap s))
               (fired s) (deferred s) w2).
  assert (await_suspend ty f h s = Ret (hnoop, s1)) as A1.
  { unfold await_suspend, suspendF, checkEmpty, changeState, assert, onWorld, zoom, putF, modify,
      mbind, ST_bind, mret, ST_ret.
    rewrite (getF_eq f s _ Hf). cbn [_state]. rewrite (getF_eq f s _ Hf). cbn [_suspension].
    rewrite bool_decide_eq_true_2 by done. rewrite E1.
    rewrite (updF_eq f _ _ (mkFuture Empty emptyResult None None o)) by exact Hf.
    rewrite (getF_eq f _ (mkFuture Empty emptyResult (Some h) None o)) by apply lookup_insert_eq.
    cbn [_state]. rewrite bool_decide_eq_false_2 by done.
    cbn [world setHeap]. rewrite E2. unfold s1, setHeap. cbn. now rewrite insert_insert_eq. }
  set (mkS := fun o' fd => mkFutures (<[f := mkFuture Ready r None None o']> (heap s)) fd (deferred s) w3).
  assert (setResult 1 me home f r s1 = Ret (tt, mkS None (fired s ++ match o with Some fn => [fn] | None => [] end))) as A2.
  { cbn [setResult]. unfold mbind, ST_bind.
    rewrite (updF_eq f _ s1 (mkFuture Waiting emptyResult (Some h) None o)) by apply lookup_insert_eq.
    unfold assert. rewrite Hr. cbn [negb].
    rewrite (getF_eq f _ (mkFuture Waiting r (Some h) None o)) by apply lookup_insert_eq.
    unfold putF at 1, modify at 1. cbn [_state setState _result _suspension _chained _onReady].
    unfold wakeF, mbind, ST_bind.
    rewrite (getF_eq f _ (mkFuture Ready r (Some h) None o)) by apply lookup_insert_eq.
    unfold onWorld, zoom. cbn [world setHeap s1 _suspension]. rewrite E3.
    rewrite (updF_eq f _ _ (mkFuture Ready r (Some h) None o)) by apply lookup_insert_eq.
    rewrite (getF_eq f _ (mkFuture Ready r None None o)) by apply lookup_insert_eq.
    unfold mkS. destruct o as [fn|]; cbn; unfold setHeap; cbn; rewrite !insert_insert_eq, ?app_nil_r; done. }
  eexists s1, _. split; [exact A1|]. split; [exact Hw2|].
  split; [cbn; now rewrite Ea2|]. split; [cbn; now rewrite Eb2|]. split; [exact A2|].
  assert (forall fd, getF f (mkS None fd) = Ret (mkFuture Ready r None None None, mkS None fd)) as Hg
    by (intros; apply getF_eq, lookup_insert_eq).
  split_and!; cbn [mkS world]; [done|rewrite Ea3, Ea2, Ea1; set_solver|rewrite Eb3, Eb2, Eb1; set_solver|..].
  - intros A use. now apply resultValue_ready.
  - unfold hasResult, mbind, ST_bind. now rewrite Hg.
  - unfold await_suspend, suspendF, checkEmpty, mbind, ST_bind. rewrite Hg. cbn [_state].
    unfold mret, ST_ret. now rewrite bool_decide_eq_true_2.
Qed.

End futures.

(** Future 1 is chained to 2 by a doubling callback that leaves 0 behind, and 2 to 3 by one that throws. *)
Definition exampleHeap : gmap Z (@FutureState Z) :=
  <[1%Z := mkFuture Chained emptyResult None (Some (2%Z, fun v => (inl (2 * v)%Z, 0%Z), 0%Z)) None]>
  (<[2%Z := mkFuture Chained emptyResult None (Some (3%Z, fun v => (inr (ECpp 7), v), 0%Z)) (Some 42%Z)]>
  (<[3%Z := mkFuture Empty emptyResult None None None]> ∅)).

Definition exampleFutures : @Futures World Z := mkFutures exampleHeap [] [] startWorld.

Lemma future_chain_resolves_witness :
  exists s', setResult 3 0 0 1 (RValue 5%Z) exampleFutures = Ret (tt, s')
    /\ heap s' !! 1%Z = Some (mkFuture Ready (RValue 0%Z) None None None)
    /\ heap s' !! 2%Z = Some (mkFuture Ready (RValue 10%Z) None None None)
    /\ heap s' !! 3%Z = Some (mkFuture Ready (RError (Some (ECpp 7))) None None None)
    /\ fired s' = [42%Z].
Proof.
  destruct (@future_chain_resolves World scheduler_suspending Z 0 0 1 (RValue 5%Z)
    [(fun v => (inl (2 * v)%Z, 0%Z), 2%Z); (fun v => (inr (ECpp 7), v), 3%Z)] exampleFutures)
    as (s' & E & H1 & _ & H3 & _).
  - cbn. split; [eexists _, _; reflexivity|]. split; [eexists _, _; reflexivity|]. eexists _, _. reflexivity.
  - repeat (constructor; [cbn; set_solver|]). constructor.
  - reflexivity.
  - exists s'. split_and!; [exact E|apply H1; cbn; set_solver|apply H1; cbn; set_solver|apply H1; cbn; set_solver|exact H3].
Defined.

Lemma future_used_once_witness :
  suspendF 1 7 exampleFutures = Raise (ECrouton LogicError).
Proof.
  apply (@future_used_once World scheduler_suspending Z 0 0 1 7 emptyResult 9 (fun v => (inl v, v)) exampleFutures
    (mkFuture Chained emptyResult None (Some (2%Z, fun v => (inl (2 * v)%Z, 0%Z), 0%Z)) None) 0);
    [reflexivity|discriminate|now right].
Defined.

Lemma future_await_result_witness :
  exists s1 s2, await_suspend 0 3 1 exampleFutures = Ret (hnoop, s1)
    /\ setResult 1 0 0 3 (RValue 8%Z) s1 = Ret (tt, s2) /\ exists s3, resultValue 3 (fun v => (v, 0%Z)) s2 = Ret (8%Z, s3).
Proof.
  destruct startWorld_ok as (Hw & Hc & Hf).
  destruct (@future_await_result World scheduler_suspending Z 0 0 0 3 1 (RValue 8%Z) exampleFutures None)
    as (s1 & s2 & E1 & _ & _ & _ & E2 & _ & _ & _ & E3 & _); [reflexivity|reflexivity|assumption..|].
  exists s1, s2. split_and!; [exact E1|exact E2|rewrite E3; eexists; reflexivity].
Defined.
