(* ===== verification/FutureRace.v ===== *)
(** A Future awaited on one thread while its result is set on another
    ([src/Future.cc], [include/crouton/Future.hh]), one atomic access per step: the
    coroutine runs [await_ready], [FutureStateBase::suspend] and [await_resume],
    the provider runs [setResult] and [_notify], and a third thread may register
    an [onReady] callback. *)

From S2P Require Import Prelude Futures.

Section race.
Context {V : Type}.

(** * State *)

(** What the coroutine does next: load the state in [await_ready], load it again
    in [checkEmpty], suspend, compare and exchange, wake itself up, wait for the
    scheduler, read the result; [AGot] is the end. *)
Inductive apc := ALoad | ACheck | ASuspend | ACas | ASelfWake | ABlocked | AResume | AGot (v : V).

(** The provider: store the result, exchange the state, wake the coroutine, look
    at [_hasOnReady]. *)
Inductive ppc := PStore | PExchange | PWake | PCallback | PDone.

(** The thread that registers a callback: compare the state with Ready, store the
    callback and set [_hasOnReady]; [ROff] when nobody registers one. *)
Inductive rpc := RCheck | RStore | RDone | ROff.

Inductive entry := Unlisted | Asleep | Woken.

(** [bad]: an assertion failed, [LogicError] was thrown, the result was read
    before it was there, or a Suspension was used that is not there. *)
Record Race := mkRace {
  st : State;
  result : option V;
  ent : entry;
  hasOnReady : bool;
  calls : nat;
  acoro : apc;
  provider : ppc;
  registrar : rpc;
  bad : bool
}.

Definition start (r : rpc) : Race := mkRace Empty None Unlisted false 0 ALoad PStore r false.

(** * Steps *)

Definition setA (r : Race) (a : apc) : Race :=
  mkRace (st r) (result r) (ent r) (hasOnReady r) (calls r) a (provider r) (registrar r) (bad r).

Definition fail (r : Race) : Race :=
  mkRace (st r) (result r) (ent r) (hasOnReady r) (calls r) (acoro r) (provider r) (registrar r) true.

Definition setEnt (r : Race) (e : entry) : Race :=
  mkRace (st r) (result r) e (hasOnReady r) (calls r) (acoro r) (provider r) (registrar r) (bad r).

Definition setSt (r : Race) (s : State) : Race :=
  mkRace s (result r) (ent r) (hasOnReady r) (calls r) (acoro r) (provider r) (registrar r) (bad r).

Definition setP (r : Race) (p : ppc) : Race :=
  mkRace (st r) (result r) (ent r) (hasOnReady r) (calls r) (acoro r) p (registrar r) (bad r).

Definition wakeEntry (r : Race) : Race :=
  match ent r with Asleep => setEnt r Woken | _ => fail r end.

Definition stepA (r : Race) : option Race :=
  match acoro r with
  | ALoad => Some (setA r (if bool_decide (st r = Ready) then AResume else ACheck))
  | ACheck =>
      match st r with
      | Empty => Some (setA r ASuspend)
      | Ready => Some (setA r AResume)
      | _ => Some (fail (setA r ABlocked))
      end
  | ASuspend => Some (setA (setEnt r Asleep) ACas)
  | ACas =>
      match st r with
      | Empty => Some (setA (setSt r Waiting) ABlocked)
      | Ready => Some (setA r ASelfWake)
      | _ => Some (fail (setA r ABlocked))
      end
  | ASelfWake => Some (setA (wakeEntry r) ABlocked)
  | ABlocked =>
      match ent r with
      | Woken => Some (setA (setEnt r Unlisted) AResume)
      | _ => None
      end
  | AResume =>
      match result r with
      | Some v => Some (setA r (AGot v))
      | None => Some (fail (setA r ABlocked))
      end
  | AGot _ => None
  end.

Definition stepP (v : V) (r : Race) : option Race :=
  match provider r with
  | PStore =>
      Some (mkRace (st r) (Some v) (ent r) (hasOnReady r) (calls r) (acoro r) PExchange (registrar r) (bad r))
  | PExchange =>
      match st r with
      | Empty => Some (setP (setSt r Ready) PCallback)
      | Waiting => Some (setP (setSt r Ready) PWake)
      | _ => Some (fail (setP (setSt r Ready) PDone))
      end
  | PWake => Some (setP (wakeEntry r) PCallback)
  | PCallback =>
      if hasOnReady r
      then Some (mkRace (st r) (result r) (ent r) false (S (calls r)) (acoro r) PDone (registrar r) (bad r))
      else Some (setP r PDone)
  | PDone => None
  end.

Definition stepR (r : Race) : option Race :=
  match registrar r with
  | RCheck =>
      if bool_decide (st r = Ready)
      then Some (mkRace (st r) (result r) (ent r) (hasOnReady r) (S (calls r)) (acoro r) (provider r) RDone (bad r))
      else Some (mkRace (st r) (result r) (ent r) (hasOnReady r) (calls r) (acoro r) (provider r) RStore (bad r))
  | RStore => Some (mkRace (st r) (result r) (ent r) true (calls r) (acoro r) (provider r) RDone (bad r))
  | _ => None
  end.

Inductive step (v : V) : Race -> Race -> Prop :=
| step_coroutine r r' : stepA r = Some r' -> step v r r'
| step_provider r r' : stepP v r = Some r' -> step v r r'
| step_registrar r r' : stepR r = Some r' -> step v r r'.

(** * Invariant *)

Definition raceInv (v : V) (r : Race) : Prop :=
  bad r = false /\
  match provider r with
  | PStore | PExchange =>
      result r = (match provider r with PStore => None | _ => Some v end) /\
      match acoro r with
      | ALoad | ACheck | ASuspend => st r = Empty /\ ent r = Unlisted
      | ACas => st r = Empty /\ ent r = Asleep
      | ABlocked => st r = Waiting /\ ent r = Asleep
      | _ => False
      end
  | PWake => result r = Some v /\ st r = Ready /\ acoro r = ABlocked /\ ent r = Asleep
  | PCallback | PDone =>
      st r = Ready /\ result r = Some v /\
      match acoro r with
      | ALoad | ACheck | ASuspend | AResume => ent r = Unlisted
      | ACas | ASelfWake => ent r = Asleep
      | ABlocked => ent r = Woken
      | AGot v' => v' = v /\ ent r = Unlisted
      end
  end.

Definition rank (r : Race) : nat :=
  match acoro r with
  | ALoad => 7 | ACheck => 6 | ASuspend => 5 | ACas => 4 | ASelfWake => 3 | ABlocked => 2
  | AResume => 1 | AGot _ => 0
  end
  + match provider r with PStore => 4 | PExchange => 3 | PWake => 2 | PCallback => 1 | PDone => 0 end
  + match registrar r with RCheck => 2 | RStore => 1 | _ => 0 end.

Lemma step_inv_rank v r r' : raceInv v r -> step v r r' -> raceInv v r' /\ (rank r' < rank r)%nat.
Proof.
  intros H Hs. destruct r as [s x e ho n a p g b]. unfold raceInv in H. cbn in H. destruct H as [-> H].
  inversion Hs as [? ? E|? ? E|? ? E]; subst; clear Hs; destruct p, a; cbn in *;
    repeat match goal with H : _ /\ _ |- _ => destruct H end; subst; try done;
    try destruct g; cbn in E; try done; repeat case_bool_decide; try destruct ho;
    simplify_eq; unfold raceInv, rank; cbn; (split; [auto 10|lia]).
Qed.

Lemma raceRank_bound v n r0 r :
  raceInv v r0 -> nsteps (step v) n r0 r -> raceInv v r /\ (n + rank r <= rank r0)%nat.
Proof.
  intros Hi H. induction H as [|n x y z Hs _ IH]; [auto with lia|].
  destruct (step_inv_rank v x y Hi Hs) as [Hy Hlt]. destruct (IH Hy) as [H1 H2]. split; [done|lia].
Qed.

Lemma raceInv_terminal v r :
  raceInv v r -> stepA r = None -> stepP v r = None ->
  acoro r = AGot v /\ ent r = Unlisted /\ st r = Ready.
Proof.
  destruct r as [s x e ho n a p g b]. unfold raceInv, stepP, stepA. cbn. intros [-> H] HA HP.
  destruct p, a; cbn in *; repeat match goal with H : _ /\ _ |- _ => destruct H end; subst; try done.
  all: destruct ho; done.
Qed.

(** * Properties *)

(** C4: whatever the interleaving of a coroutine awaiting a Future with the thread
    that sets its result (and one that registers a callback): nothing is thrown,
    the Suspension is woken at most once and only while the coroutine sleeps,
    there are at most thirteen steps, and when coroutine and provider have nothing
    left to do the coroutine has the result. *)
Theorem future_race_delivers v g n r :
  nsteps (step v) n (start g) r ->
  bad r = false /\ (n <= 13)%nat
  /\ (stepA r = None -> stepP v r = None -> acoro r = AGot v /\ ent r = Unlisted /\ st r = Ready).
Proof.
  intros H. assert (raceInv v (start g)) as H0 by done.
  destruct (raceRank_bound v n (start g) r H0 H) as [Hi Hn].
  assert (rank (start g) <= 13)%nat by (destruct g; cbn; lia).
  split_and!; [apply Hi|lia|]. now apply raceInv_terminal.
Qed.

(** The callback of [onReady] can be lost: the state is checked before the result
    is set, the callback stored after the provider looked for one.  Everyone is
    done, the Future is ready, the callback is registered and was not called. *)
Theorem future_onReady_lost (v : V) :
  exists r, rtc (step v) (start RCheck) r
    /\ stepA r = None /\ stepP v r = None /\ stepR r = None
    /\ st r = Ready /\ hasOnReady r = true /\ calls r = 0%nat.
Proof.
  exists (mkRace Ready (Some v) Unlisted true 0 (AGot v) PDone RDone false). split; [|done].
  eapply rtc_l; [apply step_registrar; reflexivity|].
  do 3 (eapply rtc_l; [apply step_provider; reflexivity|]).
  eapply rtc_l; [apply step_registrar; reflexivity|].
  do 2 (eapply rtc_l; [apply step_coroutine; reflexivity|]).
  apply rtc_refl.
Qed.

End race.

(** The result is set between the coroutine's suspension and its compare-and-exchange. *)
Lemma future_race_delivers_witness :
  exists r, nsteps (step 7%Z) 10 (start ROff) r /\ acoro r = AGot 7%Z.
Proof.
  assert (nsteps (step 7%Z) 10 (start ROff)
    (mkRace Ready (Some 7%Z) Unlisted false 0 (AGot 7%Z) PDone ROff false)) as H.
  { do 3 (eapply nsteps_l; [apply step_coroutine; cbn; reflexivity|]).
    do 3 (eapply nsteps_l; [apply step_provider; cbn; reflexivity|]).
    do 4 (eapply nsteps_l; [apply step_coroutine; cbn; reflexivity|]). apply nsteps_O. }
  eexists. split; [exact H|]. apply (future_race_delivers 7%Z ROff 10 _ H); reflexivity.
Defined.
