(* ===== verification/Queue.v ===== *)
(** [AsyncQueue] and [BoundedAsyncQueue] ([include/crouton/Queue.hh]): a
    producer-consumer queue read by a Generator coroutine, with the condition its
    consumer waits on and, when bounded, the one its producers wait on. *)

From S2P Require Import Prelude Lifecycle Scheduler Suspending Sync.

Inductive State := Open | Closing | Closed.

#[export] Instance State_eq_dec : EqDecision State.
Proof. solve_decision. Defined.

Section queue.
Context {W : Type} `{SW : Suspending W} {T : Type}.

(** * Data *)

(** [_maxSize] is there in a [BoundedAsyncQueue]; virtual calls depend on it. *)
Record AsyncQueue := mkQueue {
  _queue : list T;
  _pullCond : CoCondition.CoCondition;
  _closeError : option error;
  _state : State;
  _generating : bool;
  _closeWhenEmpty : bool;
  _maxSize : option nat;
  _pushCond : CoCondition.CoCondition
}.

(** The constructors; the bound must be positive. *)
Definition newQueue (maxSize : option nat) : outcome AsyncQueue :=
  _ ← precondition (match maxSize with Some n => (0 <? n)%nat | None => true end);
  Ret (mkQueue [] CoCondition.empty None Open false false maxSize CoCondition.empty).

Definition setQueue (l : list T) (q : AsyncQueue) : AsyncQueue :=
  mkQueue l (_pullCond q) (_closeError q) (_state q) (_generating q) (_closeWhenEmpty q) (_maxSize q) (_pushCond q).
Definition setPull (c : CoCondition.CoCondition) (q : AsyncQueue) : AsyncQueue :=
  mkQueue (_queue q) c (_closeError q) (_state q) (_generating q) (_closeWhenEmpty q) (_maxSize q) (_pushCond q).
Definition setPush (c : CoCondition.CoCondition) (q : AsyncQueue) : AsyncQueue :=
  mkQueue (_queue q) (_pullCond q) (_closeError q) (_state q) (_generating q) (_closeWhenEmpty q) (_maxSize q) c.
Definition setGenerating (q : AsyncQueue) : AsyncQueue :=
  mkQueue (_queue q) (_pullCond q) (_closeError q) (_state q) true (_closeWhenEmpty q) (_maxSize q) (_pushCond q).

(** [if (!_closeError) _closeError = err]. *)
Definition setCloseError (err : option error) (q : AsyncQueue) : AsyncQueue :=
  mkQueue (_queue q) (_pullCond q) (match _closeError q with None => err | e => e end) (_state q)
    (_generating q) (_closeWhenEmpty q) (_maxSize q) (_pushCond q).
Definition setState (s : State) (closeWhenEmpty : bool) (q : AsyncQueue) : AsyncQueue :=
  mkQueue (_queue q) (_pullCond q) (_closeError q) s (_generating q) closeWhenEmpty (_maxSize q) (_pushCond q).

(** * Closing *)

Definition notifyPull (q : AsyncQueue) : ST W AsyncQueue :=
  c ← CoCondition.notifyOne (_pullCond q); mret (setPull c q).

Definition notifyPush (q : AsyncQueue) : ST W AsyncQueue :=
  c ← CoCondition.notifyOne (_pushCond q); mret (setPush c q).

(** [_pushCond.notifyAll()] of the bounded class's overrides. *)
Definition notifyPushers (q : AsyncQueue) : ST W AsyncQueue :=
  match _maxSize q with
  | Some _ => c ← CoCondition.notifyAll (_pushCond q); mret (setPush c q)
  | None => mret q
  end.

Definition closePush (err : option error) (q : AsyncQueue) : ST W AsyncQueue :=
  let q1 := if bool_decide (_state q = Open) then setCloseError err (setState Closing true q) else q in
  notifyPushers q1.

Definition close (err : option error) (q : AsyncQueue) : ST W AsyncQueue :=
  q1 ← (if negb (bool_decide (_state q = Closed))
        then notifyPull (setQueue [] (setCloseError err (setState Closed (_closeWhenEmpty q) q)))
        else mret q);
  notifyPushers q1.

Definition closeWhenEmpty (err : option error) (q : AsyncQueue) : ST W AsyncQueue :=
  match _queue q with
  | [] => close err q
  | _ => mret (setCloseError err (setState (_state q) true q))
  end.

(** * Items *)

Definition isEmptyQueue (q : AsyncQueue) : bool := match _queue q with [] => true | _ => false end.

Definition size (q : AsyncQueue) : nat := length (_queue q).

Definition errorOfQueue (q : AsyncQueue) : option error :=
  if isEmptyQueue q then _closeError q else None.

Definition full (q : AsyncQueue) : bool :=
  match _maxSize q with Some n => (n <=? size q)%nat | None => false end.

(** Insert before position [i]. *)
Definition insertAt (i : nat) (t : T) (l : list T) : list T := take i l ++ t :: drop i l.

Definition pushAt (i : nat) (t : T) (q : AsyncQueue) : ST W (bool * AsyncQueue) :=
  if full q || negb (bool_decide (_state q = Open)) then mret (false, q)
  else
    let q1 := setQueue (insertAt i t (_queue q)) q in
    q2 ← (if (size q1 =? 1)%nat then notifyPull q1 else mret q1);
    mret (true, q2).

(** [push] and [pushBefore] of the class of [q]. *)
Definition push (t : T) (q : AsyncQueue) : ST W (bool * AsyncQueue) := pushAt (size q) t q.

Definition pushBefore (i : nat) (t : T) (q : AsyncQueue) : ST W (bool * AsyncQueue) := pushAt i t q.

Definition peek (q : AsyncQueue) : option T := head (_queue q).

(** [AsyncQueue::pop]; [close()] is the override's. *)
Definition superPop (q : AsyncQueue) : ST W (T * AsyncQueue) :=
  match _queue q with
  | [] => crash AssertFailed
  | t :: r =>
      let q1 := setQueue r q in
      q2 ← (if _closeWhenEmpty q1 && isEmptyQueue q1 then close None q1 else mret q1);
      mret (t, q2)
  end.

Definition pop (q : AsyncQueue) : ST W (T * AsyncQueue) :=
  if full q then
    p ← superPop q;
    q2 ← notifyPush p.2;
    mret (p.1, q2)
  else superPop q.

Definition maybePop (q : AsyncQueue) : ST W (option T * AsyncQueue) :=
  if isEmptyQueue q then mret (None, q)
  else p ← pop q; mret (Some p.1, p.2).

(** [std::find] and [erase]; [None] when there is no such item. *)
Fixpoint eraseItem `{EqDecision T} (t : T) (l : list T) : option (list T) :=
  match l with
  | [] => None
  | x :: r => if bool_decide (x = t) then Some r
              else match eraseItem t r with Some r' => Some (x :: r') | None => None end
  end.

(** [remove] of the class of [q]. *)
Definition remove `{EqDecision T} (t : T) (q : AsyncQueue) : ST W (bool * AsyncQueue) :=
  assert (bool_decide (_state q = Open));;
  match eraseItem t (_queue q) with
  | Some l =>
      q2 ← (if full q then notifyPush (setQueue l q) else mret (setQueue l q));
      mret (true, q2)
  | None => mret (false, q)
  end.

(** [asyncPush]: the loop condition; [true] means the caller awaits [_pushCond] and
    tries again. *)
Definition mustWait (q : AsyncQueue) : bool := full q && bool_decide (_state q = Open).

Inductive pushResult := Pushed (ok : bool) | PushBlocked.

(** One run of [asyncPush] by coroutine [h] from the loop's head to its end or to
    its next suspension. *)
Definition asyncPush (ty self : Z) (h : coro) (t : T) (q : AsyncQueue) : ST W (pushResult * AsyncQueue) :=
  if mustWait q then
    p ← CoCondition.await_suspend ty self h (_pushCond q);
    mret (PushBlocked, setPush p.2 q)
  else
    p ← push t q;
    mret (Pushed p.1, p.2).

(** * The generator *)

(** Where the coroutine of [generate] is suspended: before its first statement, in
    [AWAIT _pullCond], in [YIELD item], in [YIELD _closeError], or finished. *)
Inductive gpc := GStart | GAwaiting | GYielded | GErrorYielded | GDone.

(** What it does when resumed. *)
Inductive gresult := GItem (t : T) | GError (e : error) | GBlocked | GEnd.

(** After the loop. *)
Definition genTail (q : AsyncQueue) : gresult * gpc * AsyncQueue :=
  match _closeError q with
  | Some e => (GError e, GErrorYielded, q)
  | None => (GEnd, GDone, q)
  end.

Definition genPop (q : AsyncQueue) : ST W (gresult * gpc * AsyncQueue) :=
  p ← pop q; mret (GItem p.1, GYielded, p.2).

(** From the loop's condition on; [h] is the generator's coroutine. *)
Definition genLoop (ty self : Z) (h : coro) (q : AsyncQueue) : ST W (gresult * gpc * AsyncQueue) :=
  if bool_decide (_state q = Closed) then mret (genTail q)
  else if isEmptyQueue q then
    if _closeWhenEmpty q then q1 ← close None q; mret (genTail q1)
    else
      p ← CoCondition.await_suspend ty self h (_pullCond q);
      mret (GBlocked, GAwaiting, setPull p.2 q)
  else genPop q.

Definition generate (ty self : Z) (h : coro) (pc : gpc) (q : AsyncQueue)
  : ST W (gresult * gpc * AsyncQueue) :=
  match pc with
  | GStart => assert (negb (_generating q));; genLoop ty self h (setGenerating q)
  | GAwaiting => if isEmptyQueue q then mret (genTail q) else genPop q
  | GYielded => genLoop ty self h q
  | GErrorYielded => mret (GEnd, GDone, q)
  | GDone => crash AssertFailed
  end.

(** * Invariant *)

(** The two conditions hold disjoint lists of sleeping coroutines; a bounded queue
    keeps its bound, a closed one is empty. *)
Record qOk (q : AsyncQueue) (pulls pushes : list coro) (w : W) : Prop := {
  qo_w : okW w;
  qo_pull : CoCondition.holds (_pullCond q) pulls w;
  qo_push : CoCondition.holds (_pushCond q) pushes w;
  qo_disjoint h : h ∈ pulls -> h ∈ pushes -> False;
  qo_bound n : _maxSize q = Some n -> (0 < n)%nat /\ (length (_queue q) <= n)%nat;
  qo_closed : _state q = Closed -> _queue q = []
}.

(** Equal but for the conditions. *)
Definition sameData (q q' : AsyncQueue) : Prop :=
  q' = setPull (_pullCond q') (setPush (_pushCond q') q).

Lemma sameData_refl q : sameData q q.
Proof. now destruct q. Qed.

Lemma sameData_trans q1 q2 q3 : sameData q1 q2 -> sameData q2 q3 -> sameData q1 q3.
Proof. unfold sameData. intros H1 H2. rewrite H2 at 1. rewrite H1. now destruct q1. Qed.

Lemma sameData_fields q q' : sameData q q' ->
  _queue q' = _queue q /\ _closeError q' = _closeError q /\ _state q' = _state q
  /\ _generating q' = _generating q /\ _closeWhenEmpty q' = _closeWhenEmpty q /\ _maxSize q' = _maxSize q.
Proof. unfold sameData. intros ->. done. Qed.

(** Other sleeping coroutines stay where they are. *)
Lemma holds_frame c hs w w' gone :
  CoCondition.holds c hs w -> asleep w' = asleep w ∖ list_to_set gone ->
  (forall h, h ∈ hs -> h ∉ gone) -> CoCondition.holds c hs w'.
Proof.
  intros (H1 & H2 & H3) Ha Hg. split_and!; [done|done|]. intros h Hh. rewrite Ha.
  specialize (H3 h Hh). specialize (Hg h Hh). set_solver.
Qed.

Lemma notifyPull_ok q pulls pushes w :
  qOk q pulls pushes w ->
  exists q' w', notifyPull q w = Ret (q', w') /\ qOk q' (tail pulls) pushes w' /\ sameData q q'
    /\ asleep w' = asleep w ∖ list_to_set (take 1 pulls) /\ awake w' = list_to_set (take 1 pulls) ∪ awake w
    /\ (forall d, current w d -> current w' d) /\ (forall d, fresh w d -> fresh w' d).
Proof.
  intros [Hw Hpl Hps Hd Hb Hcl].
  destruct (CoCondition.notifyOne_ok _ _ _ Hw Hpl) as (c' & w' & E & Hw' & Hc & Ha & Hb' & Hcu & Hf).
  unfold notifyPull, mbind, ST_bind. rewrite E. eexists _, _. split; [reflexivity|].
  split_and!; [|now destruct q|done..]. split; cbn; try done.
  - eapply holds_frame; [done|done|]. intros h Hh Hin. apply (Hd h); [|done].
    destruct pulls; set_solver.
  - intros h Hh. apply Hd. destruct pulls; set_solver.
Qed.

Lemma notifyPush_ok q pulls pushes w :
  qOk q pulls pushes w ->
  exists q' w', notifyPush q w = Ret (q', w') /\ qOk q' pulls (tail pushes) w' /\ sameData q q'
    /\ asleep w' = asleep w ∖ list_to_set (take 1 pushes) /\ awake w' = list_to_set (take 1 pushes) ∪ awake w
    /\ (forall d, current w d -> current w' d) /\ (forall d, fresh w d -> fresh w' d).
Proof.
  intros [Hw Hpl Hps Hd Hb Hcl].
  destruct (CoCondition.notifyOne_ok _ _ _ Hw Hps) as (c' & w' & E & Hw' & Hc & Ha & Hb' & Hcu & Hf).
  unfold notifyPush, mbind, ST_bind. rewrite E. eexists _, _. split; [reflexivity|].
  split_and!; [|now destruct q|done..]. split; cbn; try done.
  - eapply holds_frame; [done|done|]. intros h Hh Hin. apply (Hd h); [done|]. destruct pushes; set_solver.
  - intros h Hh Hh'. apply (Hd h Hh). destruct pushes; set_solver.
Qed.

(** The producers left after [notifyPushers]. *)
Definition pushersAfter (q : AsyncQueue) (pushes : list coro) : list coro :=
  match _maxSize q with Some _ => [] | None => pushes end.

Lemma notifyPushers_ok q pulls pushes w :
  qOk q pulls pushes w ->
  exists q' w', notifyPushers q w = Ret (q', w') /\ qOk q' pulls (pushersAfter q pushes) w' /\ sameData q q'
    /\ (awake w ⊆ awake w')
    /\ (forall d, current w d -> current w' d) /\ (forall d, fresh w d -> fresh w' d).
Proof.
  intros [Hw Hpl Hps Hd Hb Hcl]. unfold notifyPushers, pushersAfter. destruct (_maxSize q) as [n|] eqn:Em.
  - destruct (CoCondition.notifyAll_ok _ _ _ Hw Hps) as (w' & E & Hw' & Ha & Hb' & Hcu & Hf).
    unfold mbind, ST_bind. rewrite E. eexists _, _. split; [reflexivity|].
    split_and!; [|now destruct q|set_solver|done|done]. split; cbn; try done.
    + eapply holds_frame; [done|done|]. intros h Hh Hin. eauto.
    + split_and!; [done|constructor|set_solver].
    + set_solver.
    + rewrite Em. intros m [= <-]. auto.
  - eexists _, _. split; [reflexivity|]. split_and!; [|apply sameData_refl|done..].
    split; try done. now rewrite Em.
Qed.

(** What closing does to the data. *)
Definition closedQueue (err : option error) (q : AsyncQueue) : AsyncQueue :=
  if bool_decide (_state q = Closed) then q
  else setQueue [] (setCloseError err (setState Closed (_closeWhenEmpty q) q)).

(** An operation succeeded: the invariant holds again, the data are those of [q1]. *)
Definition leads (m : outcome (AsyncQueue * W)) (q1 : AsyncQueue) (w : W) : Prop :=
  exists q' w' pulls' pushes', m = Ret (q', w') /\ qOk q' pulls' pushes' w' /\ sameData q1 q'
    /\ awake w ⊆ awake w' /\ (forall d, current w d -> current w' d) /\ (forall d, fresh w d -> fresh w' d).

Lemma qOk_data q pulls pushes w l err st cwe :
  qOk q pulls pushes w ->
  (forall n, _maxSize q = Some n -> (length l <= n)%nat) -> (st = Closed -> l = []) ->
  qOk (setQueue l (setCloseError err (setState st cwe q))) pulls pushes w.
Proof.
  intros [Hw Hpl Hps Hd Hb Hcl] Hl Hs. split; cbn; try done.
  intros n Hn. split; [apply (Hb n Hn)|auto].
Qed.

Lemma setSame q : setQueue (_queue q) (setCloseError None (setState (_state q) (_closeWhenEmpty q) q)) = q.
Proof. destruct q as [? ? e ? ? ? ? ?]. unfold setQueue, setCloseError, setState. cbn. now destruct e. Qed.

Lemma setQueue_set l q :
  setQueue l q = setQueue l (setCloseError None (setState (_state q) (_closeWhenEmpty q) q)).
Proof. destruct q as [? ? e ? ? ? ? ?]. unfold setQueue, setCloseError, setState. cbn. now destruct e. Qed.

Lemma close_ok err q pulls pushes w :
  qOk q pulls pushes w -> leads (close err q w) (closedQueue err q) w.
Proof.
  intros H. unfold close, closedQueue. case_bool_decide as Hs; cbn [negb].
  - destruct (notifyPushers_ok q pulls pushes w H) as (q2 & w2 & E & H2 & Hsd & Ha & Hc & Hf).
    unfold mbind, ST_bind, mret, ST_ret. rewrite E. exists q2, w2. eauto 10.
  - set (q0 := setQueue [] _).
    assert (qOk q0 pulls pushes w) as H0 by (apply qOk_data; [done|cbn; lia|done]).
    destruct (notifyPull_ok q0 pulls pushes w H0) as (q1 & w1 & E1 & H1 & Hsd1 & _ & Ha1 & Hc1 & Hf1).
    destruct (notifyPushers_ok q1 _ _ w1 H1) as (q2 & w2 & E2 & H2 & Hsd2 & Ha2 & Hc2 & Hf2).
    unfold mbind, ST_bind. rewrite E1, E2. exists q2, w2. eexists _, _.
    split_and!; [reflexivity|exact H2|eapply sameData_trans; eauto|set_solver|auto|auto].
Qed.

(** The data after the first item was taken. *)
Definition poppedQueue (r : list T) (q : AsyncQueue) : AsyncQueue :=
  let q1 := setQueue r q in
  if _closeWhenEmpty q && isEmptyQueue q1 then closedQueue None q1 else q1.

Lemma superPop_ok q t r pulls pushes w :
  qOk q pulls pushes w -> _queue q = t :: r ->
  exists q' w' pulls' pushes', superPop q w = Ret ((t, q'), w') /\ qOk q' pulls' pushes' w'
    /\ sameData (poppedQueue r q) q'
    /\ awake w ⊆ awake w' /\ (forall d, current w d -> current w' d) /\ (forall d, fresh w d -> fresh w' d).
Proof.
  intros H Eq. unfold superPop, poppedQueue. rewrite Eq. change (_closeWhenEmpty (setQueue r q)) with (_closeWhenEmpty q).
  assert (qOk (setQueue r q) pulls pushes w) as H1.
  { rewrite setQueue_set. apply qOk_data; [done| |].
    - intros n Hn. pose proof (proj2 (qo_bound q _ _ _ H n Hn)) as Hl. rewrite Eq in Hl. cbn in Hl. lia.
    - intros Hc. rewrite (qo_closed q _ _ _ H Hc) in Eq. done. }
  destruct (_closeWhenEmpty q && isEmptyQueue (setQueue r q)).
  - destruct (close_ok None _ _ _ _ H1) as (q2 & w2 & pl & ps & E & H2 & Hsd & Hr).
    unfold mbind, ST_bind. rewrite E. exists q2, w2, pl, ps. split_and!; try done; apply Hr.
  - eexists _, w, pulls, pushes. split_and!; [reflexivity|done|apply sameData_refl|done..].
Qed.

Lemma pop_ok q t r pulls pushes w :
  qOk q pulls pushes w -> _queue q = t :: r ->
  exists q' w' pulls' pushes', pop q w = Ret ((t, q'), w') /\ qOk q' pulls' pushes' w'
    /\ sameData (poppedQueue r q) q'
    /\ awake w ⊆ awake w' /\ (forall d, current w d -> current w' d) /\ (forall d, fresh w d -> fresh w' d).
Proof.
  intros H Eq. destruct (superPop_ok q t r pulls pushes w H Eq) as (q1 & w1 & pl & ps & E & H1 & Hsd & Ha & Hc & Hf).
  unfold pop. destruct (full q); [|eauto 12].
  destruct (notifyPush_ok q1 pl ps w1 H1) as (q2 & w2 & E2 & H2 & Hsd2 & _ & Ha2 & Hc2 & Hf2).
  unfold mbind, ST_bind. rewrite E. cbn [fst snd]. rewrite E2. exists q2, w2. eexists _, _.
  split_and!; [reflexivity|exact H2|eapply sameData_trans; eauto|set_solver|auto|auto].
Qed.

Lemma push_ok t q pulls pushes w :
  qOk q pulls pushes w ->
  exists q' w' pulls' pushes',
    push t q w = Ret ((negb (full q) && bool_decide (_state q = Open), q'), w') /\ qOk q' pulls' pushes' w'
    /\ sameData (if negb (full q) && bool_decide (_state q = Open) then setQueue (_queue q ++ [t]) q else q) q'
    /\ awake w ⊆ awake w' /\ (forall d, current w d -> current w' d) /\ (forall d, fresh w d -> fresh w' d).
Proof.
  intros H. unfold push, pushAt. destruct (full q) eqn:Ef; cbn [negb orb andb].
  { eexists _, w, pulls, pushes. split_and!; [reflexivity|done|apply sameData_refl|done..]. }
  case_bool_decide as Hs; cbn [negb].
  2: { eexists _, w, pulls, pushes. split_and!; [reflexivity|done|apply sameData_refl|done..]. }
  assert (insertAt (size q) t (_queue q) = _queue q ++ [t]) as ->.
  { unfold insertAt, size. now rewrite firstn_all, drop_all. }
  assert (qOk (setQueue (_queue q ++ [t]) q) pulls pushes w) as H1.
  { rewrite setQueue_set. apply qOk_data; [done| |congruence]. intros n Hn. unfold full in Ef. rewrite Hn in Ef.
    bool_to_prop. unfold size in Ef. rewrite length_app. cbn. lia. }
  destruct (size _ =? 1)%nat.
  - destruct (notifyPull_ok _ _ _ _ H1) as (q2 & w2 & E2 & H2 & Hsd2 & _ & Ha2 & Hc2 & Hf2).
    unfold mbind, ST_bind. rewrite E2. exists q2, w2. eexists _, _.
    split_and!; [reflexivity|exact H2|exact Hsd2|set_solver|done|done].
  - eexists _, w, pulls, pushes. split_and!; [reflexivity|done|apply sameData_refl|done..].
Qed.

Lemma await_pull_ok ty self h q pulls pushes w :
  qOk q pulls pushes w -> current w h -> fresh w h ->
  exists c' w', CoCondition.await_suspend ty self h (_pullCond q) w = Ret ((hnoop, c'), w')
    /\ qOk (setPull c' q) (pulls ++ [h]) pushes w' /\ asleep w' = {[h]} ∪ asleep w /\ awake w' = awake w.
Proof.
  intros [Hw Hpl Hps Hd Hb Hcl] Hc Hf. destruct (fresh_out w h Hw Hf) as [Hn _].
  destruct (CoCondition.await_ok ty self h _ _ _ Hw Hpl Hc Hf) as (c' & w' & E & Hw' & Hh & Ha & Hb' & _).
  exists c', w'. split_and!; [done| |done|done]. destruct Hps as (P1 & P2 & P3). split; cbn; try done.
  - split_and!; [done|done|]. intros x Hx. rewrite Ha. set_solver.
  - intros x. rewrite elem_of_app, list_elem_of_singleton. intros [Hx|Hx] Hx'; [eauto|]. subst x. auto.
Qed.

Lemma await_push_ok ty self h q pulls pushes w :
  qOk q pulls pushes w -> current w h -> fresh w h ->
  exists c' w', CoCondition.await_suspend ty self h (_pushCond q) w = Ret ((hnoop, c'), w')
    /\ qOk (setPush c' q) pulls (pushes ++ [h]) w' /\ asleep w' = {[h]} ∪ asleep w /\ awake w' = awake w.
Proof.
  intros [Hw Hpl Hps Hd Hb Hcl] Hc Hf. destruct (fresh_out w h Hw Hf) as [Hn _].
  destruct (CoCondition.await_ok ty self h _ _ _ Hw Hps Hc Hf) as (c' & w' & E & Hw' & Hh & Ha & Hb' & _).
  exists c', w'. split_and!; [done| |done|done]. destruct Hpl as (P1 & P2 & P3). split; cbn; try done.
  - split_and!; [done|done|]. intros x Hx. rewrite Ha. set_solver.
  - intros x Hx. rewrite elem_of_app, list_elem_of_singleton. intros [Hx'|Hx']; [eauto|]. subst x. auto.
Qed.

(** What resuming the generator yields, and the data it leaves. *)
Inductive genSpec (h : coro) (q : AsyncQueue) : gresult -> gpc -> AsyncQueue -> Prop :=
| gen_item t r : _queue q = t :: r -> genSpec h q (GItem t) GYielded (poppedQueue r q)
| gen_blocked : _queue q = [] -> _state q <> Closed -> _closeWhenEmpty q = false ->
    genSpec h q GBlocked GAwaiting q
| gen_error e q1 : _queue q = [] -> _queue q1 = [] -> _closeError q1 = Some e -> q1 = q \/ q1 = closedQueue None q ->
    genSpec h q (GError e) GErrorYielded q1
| gen_end q1 : _queue q = [] -> _queue q1 = [] -> _closeError q1 = None -> q1 = q \/ q1 = closedQueue None q ->
    genSpec h q GEnd GDone q1.

Lemma genPop_ok h q t r pulls pushes w :
  qOk q pulls pushes w -> _queue q = t :: r ->
  exists res pc' q' w' pulls' pushes' q1, genPop q w = Ret ((res, pc', q'), w') /\ qOk q' pulls' pushes' w'
    /\ genSpec h q res pc' q1 /\ sameData q1 q'.
Proof.
  intros Hq E. destruct (pop_ok q t r pulls pushes w Hq E) as (q' & w' & pl & ps & Ep & H1 & H2 & _).
  unfold genPop, mbind, ST_bind. rewrite Ep. cbn [fst snd].
  eexists (GItem t), GYielded, q', w', pl, ps, _. split_and!; [reflexivity|done|now apply (gen_item h q t r)|done].
Qed.

Lemma genTail_spec h q q0 :
  _queue q = [] -> _queue q0 = [] -> q = q0 \/ sameData (closedQueue None q0) q ->
  exists res pc' q1, genTail q = (res, pc', q) /\ genSpec h q0 res pc' q1 /\ sameData q1 q.
Proof.
  intros Hempty Hempty0 Hd. unfold genTail.
  assert (exists q1, (q1 = q0 \/ q1 = closedQueue None q0) /\ sameData q1 q) as (q1 & Hq1 & Hsd).
  { destruct Hd as [->|?]; [exists q0; split; [auto|apply sameData_refl]|eauto]. }
  apply sameData_fields in Hsd as F. destruct F as (F1 & F2 & _).
  destruct (_closeError q) as [e|] eqn:Ee; eexists _, _, q1; (split_and!; [reflexivity| |done]).
  - apply gen_error; [done|congruence|congruence|done].
  - apply gen_end; [done|congruence|congruence|done].
Qed.

Lemma generate_ok ty self h pc q pulls pushes w :
  qOk q pulls pushes w -> current w h -> fresh w h ->
  pc <> GDone -> pc <> GErrorYielded -> (pc = GStart -> _generating q = false) ->
  let q0 := match pc with GStart => setGenerating q | _ => q end in
  exists res pc' q' w' pulls' pushes' q1, generate ty self h pc q w = Ret ((res, pc', q'), w')
    /\ qOk q' pulls' pushes' w' /\ genSpec h q0 res pc' q1 /\ sameData q1 q'.
Proof.
  intros Hq Hc Hf Hd He Hg q0.
  assert (qOk q0 pulls pushes w) as H0 by (unfold q0; destruct pc; [destruct Hq; now split|done..]).
  assert (exists res pc' q' w' pulls' pushes' q1, genLoop ty self h q0 w = Ret ((res, pc', q'), w')
    /\ qOk q' pulls' pushes' w' /\ genSpec h q0 res pc' q1 /\ sameData q1 q') as Hloop.
  { clear Hg Hd He. clearbody q0. unfold genLoop. case_bool_decide as Hs.
    - pose proof (qo_closed _ _ _ _ H0 Hs) as Hempty.
      destruct (genTail_spec h q0 q0 Hempty Hempty) as (res & pc' & q1 & -> & G1 & G2); [auto|].
      eexists res, pc', q0, w, pulls, pushes, q1. done.
    - unfold isEmptyQueue. destruct (_queue q0) as [|t r] eqn:Eq; [|eapply genPop_ok; eauto].
      destruct (_closeWhenEmpty q0) eqn:Ec.
      + destruct (close_ok None q0 pulls pushes w H0) as (q2 & w2 & pl & ps & E & H2 & Hsd & _).
        unfold mbind, ST_bind. rewrite E.
        assert (_queue q2 = []) as Hempty.
        { apply sameData_fields in Hsd as [-> _]. unfold closedQueue. now case_bool_decide. }
        destruct (genTail_spec h q2 q0 Hempty Eq) as (res & pc' & q1 & -> & G1 & G2); [auto|].
        eexists res, pc', q2, w2, pl, ps, q1. done.
      + destruct (await_pull_ok ty self h q0 pulls pushes w H0 Hc Hf) as (c' & w' & E & H1 & _).
        unfold mbind, ST_bind. rewrite E.
        eexists _, _, _, w', _, _, q0. split_and!; [reflexivity|exact H1|now apply gen_blocked|now destruct q0]. }
  destruct pc; try done; cbn [generate].
  - unfold assert, mbind, ST_bind. rewrite (Hg eq_refl). cbn [negb]. exact Hloop.
  - unfold isEmptyQueue. destruct (_queue q) as [|t r] eqn:Eq; [|eapply genPop_ok; eauto].
    destruct (genTail_spec h q q Eq Eq) as (res & pc' & q1 & E & G1 & G2); [auto|].
    unfold mret, ST_ret. rewrite E. eexists res, pc', q, w, pulls, pushes, q1. done.
Qed.

(** * A queue in use

    The queue, its generator's coroutine and position, the items accepted by the
    queue and those the generator has yielded, and the scheduler. *)

Record Sys := mkSys {
  squeue : AsyncQueue;
  spc : gpc;
  accepted : list T;
  delivered : list T;
  sworld : W
}.

Inductive qop :=
| QPush (t : T)
| QAsyncPush (p : coro) (t : T)
| QGenerate
| QClosePush (err : option error)
| QCloseWhenEmpty (err : option error)
| QElsewhere (w : W).

Definition itemsOf (r : gresult) : list T := match r with GItem t => [t] | _ => [] end.

(** Run an operation; [g] is the generator's coroutine. *)
Definition qrun (ty self : Z) (g : coro) (o : qop) (s : Sys) : outcome Sys :=
  match o with
  | QPush t =>
      p ← push t (squeue s) (sworld s);
      Ret (mkSys p.1.2 (spc s) (accepted s ++ if (p.1.1 : bool) then [t] else []) (delivered s) p.2)
  | QAsyncPush c t =>
      p ← asyncPush ty self c t (squeue s) (sworld s);
      Ret (mkSys p.1.2 (spc s)
             (accepted s ++ match p.1.1 with Pushed true => [t] | _ => [] end) (delivered s) p.2)
  | QGenerate =>
      p ← generate ty self g (spc s) (squeue s) (sworld s);
      Ret (mkSys p.1.2 p.1.1.2 (accepted s) (delivered s ++ itemsOf p.1.1.1) p.2)
  | QClosePush err =>
      p ← closePush err (squeue s) (sworld s);
      Ret (mkSys p.1 (spc s) (accepted s) (delivered s) p.2)
  | QCloseWhenEmpty err =>
      p ← closeWhenEmpty err (squeue s) (sworld s);
      Ret (mkSys p.1 (spc s) (accepted s) (delivered s) p.2)
  | QElsewhere w => Ret (mkSys (squeue s) (spc s) (accepted s) (delivered s) w)
  end.

(** A coroutine that pushes or generates is running; what happens elsewhere wakes
    none of the queue's sleepers. *)
Definition qlegal (g : coro) (o : qop) (s : Sys) : Prop :=
  match o with
  | QAsyncPush c _ => current (sworld s) c /\ fresh (sworld s) c
  | QGenerate => current (sworld s) g /\ fresh (sworld s) g /\ spc s <> GDone
  | QElsewhere w => okW w /\ forall h, h ∈ asleep (sworld s) -> h ∈ asleep w
  | _ => True
  end.

Record sysOk (s : Sys) : Prop := {
  sys_q : exists pulls pushes, qOk (squeue s) pulls pushes (sworld s);
  sys_fifo : accepted s = delivered s ++ _queue (squeue s);
  sys_start : spc s = GStart -> _generating (squeue s) = false
}.

Lemma closedQueue_items err q : _state q = Closed -> _queue q = [] -> _queue (closedQueue err q) = [].
Proof. unfold closedQueue. intros. now rewrite bool_decide_eq_true_2. Qed.

Lemma closedQueue_empty err q : _queue q = [] -> _queue (closedQueue err q) = [].
Proof. unfold closedQueue. intros. now case_bool_decide. Qed.

Lemma closedQueue_generating err q : _generating (closedQueue err q) = _generating q.
Proof. unfold closedQueue. now case_bool_decide. Qed.

Lemma poppedQueue_items r q : _queue (poppedQueue r q) = r.
Proof.
  unfold poppedQueue, isEmptyQueue. destruct (_closeWhenEmpty q); [|done]. cbn.
  destruct r; [|done]. now apply closedQueue_empty.
Qed.

Lemma poppedQueue_generating r q : _generating (poppedQueue r q) = _generating q.
Proof.
  unfold poppedQueue. destruct (_ && _); [|done]. now rewrite closedQueue_generating.
Qed.

(** The generator yields from the front and nothing else. *)
Lemma genSpec_items h q res pc' q1 :
  genSpec h q res pc' q1 -> _queue q = itemsOf res ++ _queue q1 /\ pc' <> GStart.
Proof.
  intros [t r E|E _ _|e q1' E0 E _ D|q1' E0 E _ D]; cbn; rewrite ?poppedQueue_items, ?E0, ?E; done.
Qed.

Lemma genSpec_generating h q res pc' q1 : genSpec h q res pc' q1 -> _generating q1 = _generating q.
Proof.
  intros [t r E|E _ _|e q1' _ E _ [->| ->]|q1' _ E _ [->| ->]];
    rewrite ?poppedQueue_generating, ?closedQueue_generating; done.
Qed.

Lemma asyncPush_ok ty self h t q pulls pushes w :
  qOk q pulls pushes w -> current w h -> fresh w h ->
  exists r q' w' pulls' pushes', asyncPush ty self h t q w = Ret ((r, q'), w') /\ qOk q' pulls' pushes' w'
    /\ sameData (match r with Pushed true => setQueue (_queue q ++ [t]) q | _ => q end) q'.
Proof.
  intros Hq Hc Hf. unfold asyncPush. destruct (mustWait q).
  - destruct (await_push_ok ty self h q pulls pushes w Hq Hc Hf) as (c' & w' & E & H1 & _).
    unfold mbind, ST_bind. rewrite E. eexists _, _, w', _, _. split_and!; [reflexivity|exact H1|now destruct q].
  - destruct (push_ok t q pulls pushes w Hq) as (q' & w' & pl & ps & E & H1 & H2 & _).
    unfold mbind, ST_bind. rewrite E. eexists _, _, w', pl, ps. split_and!; [reflexivity|done|].
    cbn [fst]. now destruct (negb (full q) && _).
Qed.

Lemma qrun_ok ty self g o s :
  sysOk s -> qlegal g o s -> exists s', qrun ty self g o s = Ret s' /\ sysOk s'.
Proof.
  intros [(pulls & pushes & Hq) Hff Hst] Hl. destruct o as [t|c t| |err|err|w]; cbn [qrun qlegal] in *.
  - destruct (push_ok t _ _ _ _ Hq) as (q' & w' & pl & ps & E & H1 & H2 & _). rewrite E. cbn.
    eexists. split; [reflexivity|]. apply sameData_fields in H2 as (F1 & _ & _ & F4 & _).
    split; cbn; [eauto| |]; [rewrite F1, Hff|rewrite F4]; destruct (negb _ && _); cbn;
      rewrite ?app_nil_r, ?app_assoc; done.
  - destruct Hl as [Hc Hf].
    destruct (asyncPush_ok ty self c t _ _ _ _ Hq Hc Hf) as (r & q' & w' & pl & ps & E & H1 & H2). rewrite E. cbn.
    eexists. split; [reflexivity|]. apply sameData_fields in H2 as (F1 & _ & _ & F4 & _).
    split; cbn; [eauto| |]; [rewrite F1, Hff|rewrite F4]; destruct r as [[]|]; cbn;
      rewrite ?app_nil_r, ?app_assoc; done.
  - destruct Hl as (Hc & Hf & Hd). assert (spc s = GErrorYielded \/ spc s <> GErrorYielded) as [Ee|Ee]
      by (destruct (spc s); (left; done) || (right; done)).
    { rewrite Ee. cbn. eexists. split; [reflexivity|]. split; cbn; [eauto|now rewrite app_nil_r|done]. }
    destruct (generate_ok ty self g (spc s) _ _ _ _ Hq Hc Hf Hd Ee Hst)
      as (res & pc' & q' & w' & pl & ps & q1 & E & H1 & H2 & H3). rewrite E. cbn.
    eexists. split; [reflexivity|]. apply genSpec_items in H2 as [Hit Hpc].
    apply sameData_fields in H3 as (F1 & _). split; cbn; [eauto| |done].
    rewrite F1, <- app_assoc, <- Hit, Hff. now destruct (spc s).
  - assert (exists q1, qOk q1 pulls pushes (sworld s) /\ _queue q1 = _queue (squeue s)
              /\ _generating q1 = _generating (squeue s)
              /\ closePush err (squeue s) = notifyPushers q1) as (q1 & H1 & F1 & F2 & ->).
    { unfold closePush. case_bool_decide.
      - exists (setCloseError err (setState Closing true (squeue s))). split_and!; try done. destruct Hq. now split.
      - exists (squeue s). split_and!; done. }
    destruct (notifyPushers_ok q1 _ _ _ H1) as (q' & w' & E & H2 & H3 & _). rewrite E. cbn.
    eexists. split; [reflexivity|]. apply sameData_fields in H3 as (G1 & _ & _ & G4 & _).
    split; cbn; [eauto|congruence|]. rewrite G4, F2. done.
  - unfold closeWhenEmpty. destruct (_queue (squeue s)) as [|t r] eqn:Eq.
    + destruct (close_ok err _ _ _ _ Hq) as (q' & w' & pl & ps & E & H1 & H2 & _). rewrite E. cbn.
      eexists. split; [reflexivity|]. apply sameData_fields in H2 as (G1 & _ & _ & G4 & _).
      split; cbn; [eauto|rewrite G1, closedQueue_empty, app_nil_r in * by done; done|].
      rewrite G4, closedQueue_generating. done.
    + cbn. eexists. split; [reflexivity|]. split; cbn; [|rewrite Eq; done|done].
      exists pulls, pushes. destruct Hq. split; cbn; try done.
  - eexists. split; [reflexivity|]. destruct Hl as [Hw Ha]. split; cbn; [|done|done].
    exists pulls, pushes. destruct Hq as [_ (P1 & P2 & P3) (Q1 & Q2 & Q3) D B C].
    split; try done; split_and!; eauto.
Qed.

(** Resume the generator until it ends, at most [n] times. *)
Fixpoint genRun (ty self : Z) (h : coro) (n : nat) (pc : gpc) (q : AsyncQueue)
  : ST W (list gresult * AsyncQueue) :=
  match n with
  | O => mret ([], q)
  | S n' =>
      p ← generate ty self h pc q;
      match p.1.2 with
      | GDone => mret ([p.1.1], p.2)
      | pc' => r ← genRun ty self h n' pc' p.2; mret (p.1.1 :: r.1, r.2)
      end
  end.

(** What is left to yield when a queue is closing. *)
Definition remaining (q : AsyncQueue) : list gresult :=
  (GItem <$> _queue q) ++ match _closeError q with Some e => [GError e] | None => [] end ++ [GEnd].

Lemma closedQueue_error q : _closeError (closedQueue None q) = _closeError q.
Proof. unfold closedQueue. case_bool_decide; [done|]. cbn. now destruct (_closeError q). Qed.

Lemma genRun_tail ty self h q w n :
  _queue q = [] -> (length (remaining q) <= S n)%nat ->
  let t := genTail q in
  match t.1.2 with
  | GDone => mret ([t.1.1], t.2)
  | pc' => r ← genRun ty self h n pc' t.2; mret (t.1.1 :: r.1, r.2)
  end w = Ret ((remaining q, q), w).
Proof.
  intros E Hn. unfold remaining, genTail in *. rewrite E in *. destruct (_closeError q) as [e|]; cbn in *; [|done].
  destruct n as [|n]; [cbn in Hn; lia|]. done.
Qed.

Lemma genRun_drains ty self h q pulls pushes w n :
  qOk q pulls pushes w -> _closeWhenEmpty q = true -> (length (remaining q) <= n)%nat ->
  exists q' w', genRun ty self h n GYielded q w = Ret ((remaining q, q'), w') /\ _state q' = Closed.
Proof.
  remember (_queue q) as items eqn:Ei. revert q pulls pushes w n Ei.
  induction items as [|t r IH]; intros q pulls pushes w n Ei Hq Hc Hn; symmetry in Ei;
    (destruct n as [|n]; [unfold remaining in Hn; rewrite !length_app in Hn; cbn in Hn; lia|]);
    cbn [genRun generate]; unfold genLoop.
  - case_bool_decide as Hs.
    + unfold mbind, ST_bind. unfold mret at 1, ST_ret at 1.
      pose proof (genRun_tail ty self h q w n Ei Hn) as E. cbn zeta in E. unfold mbind, ST_bind in E.
      rewrite E. eauto.
    + unfold isEmptyQueue. rewrite Ei, Hc.
      destruct (close_ok None q pulls pushes w Hq) as (q2 & w2 & pl & ps & E & H2 & Hsd & _).
      unfold mbind, ST_bind. rewrite E. unfold mret at 1, ST_ret at 1.
      apply sameData_fields in Hsd as (F1 & F2 & F3 & _).
      rewrite closedQueue_empty in F1 by done. rewrite closedQueue_error in F2.
      assert (_state q2 = Closed) as F by (rewrite F3; unfold closedQueue; rewrite bool_decide_eq_false_2; done).
      assert (remaining q2 = remaining q) as Er by (unfold remaining; now rewrite F1, F2, Ei).
      pose proof (genRun_tail ty self h q2 w2 n F1) as Et. rewrite Er in Et. specialize (Et Hn).
      cbn zeta in Et. unfold mbind, ST_bind in Et. rewrite Et. eauto.
  - rewrite bool_decide_eq_false_2 by (intros Hs; rewrite (qo_closed _ _ _ _ Hq Hs) in Ei; done).
    unfold isEmptyQueue. rewrite Ei.
    destruct (pop_ok q t r pulls pushes w Hq Ei) as (q2 & w2 & pl & ps & E & H2 & Hsd & _).
    apply sameData_fields in Hsd as (F1 & F2 & F3 & _ & F5 & _). rewrite poppedQueue_items in F1.
    assert (_closeError q2 = _closeError q) as Fe.
    { rewrite F2. unfold poppedQueue. destruct (_ && _); [|done]. now rewrite closedQueue_error. }
    assert (_closeWhenEmpty q2 = true) as Fc.
    { rewrite F5. unfold poppedQueue, closedQueue. destruct (_ && _); [|done]. now case_bool_decide. }
    assert (remaining q = GItem t :: remaining q2) as Er by (unfold remaining; now rewrite Ei, F1, Fe).
    destruct (IH q2 pl ps w2 n) as (q' & w' & E' & Hcl); [done|done|done|rewrite Er in Hn; cbn in Hn; lia|].
    unfold genPop, mbind, ST_bind. rewrite E. unfold mret at 1, ST_ret at 1. cbn [fst snd].
    rewrite E'. rewrite Er. eauto.
Qed.

(** The generator is not waiting for an item: it has not begun, it is about to go on after an item, or it was
    resumed from its wait with an item there or the queue closed. *)
Definition goesOn (pc : gpc) (q : AsyncQueue) : Prop :=
  match pc with
  | GStart => _generating q = false
  | GYielded => True
  | GAwaiting => _queue q <> [] \/ _state q = Closed
  | GErrorYielded | GDone => False
  end.

Lemma qOk_generating q pulls pushes w : qOk q pulls pushes w -> qOk (setGenerating q) pulls pushes w.
Proof. intros [Hw Hpl Hps Hd Hb Hcl]. now split. Qed.

(** It then does what it does after an item. *)
Lemma genRun_start ty self h n q w :
  _generating q = false -> genRun ty self h (n + 2) GStart q w = genRun ty self h (n + 2) GYielded (setGenerating q) w.
Proof. intros Hg. rewrite Nat.add_comm. cbn [Nat.add genRun generate]. now rewrite Hg. Qed.

Lemma genRun_awaiting ty self h n q pulls pushes w :
  qOk q pulls pushes w -> _queue q <> [] \/ _state q = Closed ->
  genRun ty self h n GAwaiting q w = genRun ty self h n GYielded q w.
Proof.
  intros Hq Hg. destruct n as [|n]; [done|]. cbn [genRun generate]. unfold genLoop, isEmptyQueue.
  case_bool_decide as Hs; [now rewrite (qo_closed _ _ _ _ Hq Hs)|]. destruct (_queue q); [naive_solver|done].
Qed.

(** * Properties *)

(** C6: first in, first out, nothing lost or repeated: through any sequence of
    legal operations (pushes that may wait for room, resumptions of the generator,
    [closePush], [closeWhenEmpty], activity elsewhere) no operation fails, a
    bounded queue never exceeds its bound, and the items accepted are at all times
    the items delivered followed by those in the queue. *)
Theorem queue_fifo ty self g o s :
  sysOk s -> qlegal g o s ->
  exists s', qrun ty self g o s = Ret s' /\ sysOk s' /\ accepted s' = delivered s' ++ _queue (squeue s')
    /\ forall n, _maxSize (squeue s') = Some n -> (length (_queue (squeue s')) <= n)%nat.
Proof.
  intros Hs Hl. destruct (qrun_ok ty self g o s Hs Hl) as (s' & E & H'). exists s'.
  split_and!; [done|done|apply H'|]. destruct H' as [(pl & ps & Hq) _ _]. intros n Hn.
  now apply (qo_bound _ _ _ _ Hq).
Qed.

(** C7: a closing queue drains: once [closePush] (or [closeWhenEmpty]) was called, a generator that is not
    asleep on the empty queue -- it has not begun, goes on after an item, or was resumed from its wait with an
    item there or the queue closed -- yields every item left, in order, then the error the queue was closed
    with if there is one, then ends, the queue being Closed.  (One that sleeps on the empty queue is not woken
    by [closePush]: [queue_closePush_leaves_consumer_asleep].) *)
Theorem queue_drains_then_closes ty self h pc q pulls pushes w :
  qOk q pulls pushes w -> _closeWhenEmpty q = true -> goesOn pc q ->
  exists q' w', genRun ty self h (length (_queue q) + 2) pc q w = Ret ((remaining q, q'), w')
    /\ _state q' = Closed.
Proof.
  intros Hq Hc Hg. assert (length (remaining q) <= length (_queue q) + 2)%nat as Hn.
  { unfold remaining. rewrite !length_app, length_fmap. destruct (_closeError q); cbn; lia. }
  destruct pc; try done.
  - rewrite genRun_start by done. now apply (genRun_drains ty self h (setGenerating q) pulls pushes w); [apply qOk_generating| |].
  - rewrite (genRun_awaiting ty self h _ q pulls pushes w) by done. now apply (genRun_drains ty self h q pulls pushes w).
  - now apply (genRun_drains ty self h q pulls pushes w).
Qed.

(** A consumer that waits on an empty queue is not woken by [closePush], although
    nothing can be pushed any more: it sleeps until [close] is called. *)
Theorem queue_closePush_leaves_consumer_asleep err q h pushes w :
  qOk q [h] pushes w -> _state q = Open -> _queue q = [] -> _maxSize q = None ->
  exists q', closePush err q w = Ret (q', w) /\ _state q' = Closing /\ h ∈ asleep w /\ h ∉ awake w
    /\ forall t, push t q' w = Ret ((false, q'), w).
Proof.
  intros [Hw (P1 & P2 & P3) _ _ _ _] Hs He Hm.
  exists (setCloseError err (setState Closing true q)).
  unfold closePush, notifyPushers. rewrite bool_decide_eq_true_2 by done. cbn [_maxSize setCloseError setState].
  rewrite Hm. split_and!; [done|done|apply P3; set_solver|apply asleep_awake; [done|apply P3; set_solver]|].
  intros t. unfold push, pushAt, full. cbn. now rewrite Hm.
Qed.

(** A producer can be left asleep while there is room: two wait on a full queue of
    two; the first pop wakes one, the second (the queue is no longer full) none. *)
Theorem queue_producer_left_asleep q a b pulls p1 p2 w :
  qOk q pulls [p1; p2] w -> _state q = Open -> _closeWhenEmpty q = false ->
  _maxSize q = Some 2%nat -> _queue q = [a; b] ->
  exists q1 w1 q2, pop q w = Ret ((a, q1), w1) /\ pop q1 w1 = Ret ((b, q2), w1)
    /\ _queue q2 = [] /\ _state q2 = Open /\ p2 ∈ asleep w1 /\ p2 ∉ awake w1.
Proof.
  intros Hq Hs Hc Hm Eq.
  assert (qOk (setQueue [b] q) pulls [p1; p2] w) as H1.
  { rewrite setQueue_set. apply qOk_data; [done| |congruence]. rewrite Hm. intros n [= <-]. cbn. lia. }
  destruct (notifyPush_ok _ _ _ _ H1) as (q1 & w1 & E & H2 & Hsd & Ha & Hb & _).
  apply sameData_fields in Hsd as (F1 & F2 & F3 & F4 & F5 & F6).
  assert (pop q w = Ret ((a, q1), w1)) as Ep.
  { assert (full q = true) as Ef by (unfold full, size; now rewrite Hm, Eq).
    unfold pop, superPop, mbind, ST_bind, mret, ST_ret. rewrite Ef, Eq.
    change (_closeWhenEmpty (setQueue [b] q)) with (_closeWhenEmpty q). rewrite Hc. cbn [andb fst snd].
    now rewrite E. }
  exists q1, w1, (setQueue [] q1). split_and!; [done| |done|cbn; now rewrite F3|..].
  - assert (full q1 = false) as Ef by (unfold full, size; rewrite F6, F1; cbn; now rewrite Hm).
    unfold pop, superPop, mbind, ST_bind, mret, ST_ret. rewrite Ef, F1. cbn [_queue setQueue].
    change (_closeWhenEmpty (setQueue [] q1)) with (_closeWhenEmpty q1). rewrite F5. cbn. now rewrite Hc.
  - apply (qo_push _ _ _ _ H2). cbn. set_solver.
  - apply asleep_awake; [apply H2|]. apply (qo_push _ _ _ _ H2). cbn. set_solver.
Qed.

End queue.
Arguments AsyncQueue : clear implicits.

Definition exampleQueue : AsyncQueue Z :=
  mkQueue [10; 20]%Z CoCondition.empty (Some (ECpp 5)) Closing true true (Some 2%nat) CoCondition.empty.

Lemma exampleQueue_ok : qOk exampleQueue [] [] startWorld.
Proof.
  destruct startWorld_ok as (Hw & _). split; [exact Hw| | |set_solver| |done].
  - split_and!; [done|constructor|set_solver].
  - split_and!; [done|constructor|set_solver].
  - intros n [= <-]. cbn. lia.
Qed.

Lemma queue_fifo_witness :
  exists s', qrun 0 0 1 QGenerate (mkSys exampleQueue GYielded [10; 20]%Z [] startWorld) = Ret s'
    /\ accepted s' = delivered s' ++ _queue (squeue s').
Proof.
  destruct startWorld_ok as (Hw & Hc & Hf).
  destruct (@queue_fifo World scheduler_suspending Z 0 0 1 QGenerate (mkSys exampleQueue GYielded [10; 20]%Z [] startWorld))
    as (s' & E & _ & H & _).
  - split; [exists [], []; apply exampleQueue_ok|reflexivity|discriminate].
  - split_and!; [exact Hc|exact Hf|discriminate].
  - exists s'. split; assumption.
Defined.

Lemma queue_drains_then_closes_witness :
  exists q' w', genRun 0 0 1 4 GYielded exampleQueue startWorld
    = Ret (([GItem 10%Z; GItem 20%Z; GError (ECpp 5); GEnd], q'), w') /\ _state q' = Closed.
Proof.
  apply (@queue_drains_then_closes World scheduler_suspending Z 0 0 1 GYielded exampleQueue [] [] startWorld
    exampleQueue_ok eq_refl I).
Defined.
