(* ===== verification/Producer.v ===== *)
(** [SeriesProducer] and [SeriesConsumer] ([include/crouton/Producer.hh]): a series of results handed
    from one coroutine to another through one slot, against the interface of [Suspending.v].

    The two objects are linked by a [OneToOne] relation ([Relation.v]); each keeps whether its side of it is
    set. *)

From S2P Require Import Prelude Lifecycle Scheduler Suspending Errors.

Section series.
Context {W : Type} `{Suspending W} {T : Type}.

(** * Data *)

Record SeriesProducer := mkProducer {
  _consumer : bool;
  p_suspension : Suspension
}.

Record SeriesConsumer := mkConsumer {
  _producer : bool;
  c_suspension : Suspension;
  _value : Result T;
  _onReady : option Z;
  _hasValue : bool;
  _eof : bool
}.

(** The producer, the consumer while it exists, and the callbacks that were called. *)
Record Pair := mkPair {
  prod : SeriesProducer;
  cons : option SeriesConsumer;
  fired : list Z;
  base : W
}.

Definition newConsumer : SeriesConsumer := mkConsumer true None emptyResult None false false.

Definition setProd (p : SeriesProducer) (x : Pair) : Pair := mkPair p (cons x) (fired x) (base x).
Definition setCons (c : option SeriesConsumer) (x : Pair) : Pair := mkPair (prod x) c (fired x) (base x).

Definition onBase {A} (m : ST W A) : ST Pair A := zoom base (fun b x => mkPair (prod x) (cons x) (fired x) b) m.

(** The consumer a pointer leads to. *)
Definition consumer : ST Pair SeriesConsumer :=
  c ← gets cons;
  match c with Some c => mret c | None => crash OutOfBounds end.

Definition modConsumer (f : SeriesConsumer -> SeriesConsumer) : ST Pair unit :=
  c ← consumer;
  modify (setCons (Some (f c))).

(** Assigning null to either side of the relation clears both. *)
Definition unlink : ST Pair unit :=
  modify (fun x => mkPair (mkProducer false (p_suspension (prod x)))
                     ((fun c => mkConsumer false (c_suspension c) (_value c) (_onReady c) (_hasValue c) (_eof c)) <$> cons x)
                     (fired x) (base x)).

(** * The consumer *)

Definition fireReady : ST Pair unit :=
  c ← consumer;
  match _onReady c with
  | None => mret tt
  | Some fn =>
      _ ← modConsumer (fun c => mkConsumer (_producer c) (c_suspension c) (_value c) None (_hasValue c) (_eof c));
      modify (fun x => mkPair (prod x) (cons x) (fired x ++ [fn]) (base x))
  end.

Definition wakeConsumer : ST Pair unit :=
  c ← consumer;
  s ← onBase (wake true (c_suspension c));
  modConsumer (fun c => mkConsumer (_producer c) s (_value c) (_onReady c) (_hasValue c) (_eof c)).

Definition setValue (v : Result T) : ST Pair unit :=
  c ← consumer;
  _ ← assert (negb (_hasValue c));
  _ ← modConsumer (fun c => mkConsumer (_producer c) (c_suspension c) v (_onReady c) true (negb (ok v)));
  _ ← when (negb (ok v)) unlink;
  _ ← fireReady;
  wakeConsumer.

Definition await_ready : ST Pair bool :=
  c ← consumer;
  _ ← assert (_producer c);
  mret (_hasValue c).

Definition await_suspend (ty self : Z) (cur : coro) : ST Pair coro_handle :=
  s ← onBase (susp cur);
  c ← consumer;
  _ ← onBase (cancel true (c_suspension c));
  _ ← modConsumer (fun c => mkConsumer (_producer c) s (_value c) (_onReady c) (_hasValue c) (_eof c));
  onBase (switchAway cur ty self).

Definition await_resume : ST Pair (Result T) :=
  c ← consumer;
  _ ← assert (_hasValue c);
  _ ← modConsumer (fun c => mkConsumer (_producer c) (c_suspension c) (_value c) (_onReady c) false (_eof c));
  _ ← when (_producer c)
        (p ← gets prod;
         s ← onBase (wake true (p_suspension p));
         modify (fun x => setProd (mkProducer (_consumer (prod x)) s) x));
  mret (_value c).

Definition onReady (fn : option Z) : ST Pair unit :=
  c ← consumer;
  match fn with
  | None => modConsumer (fun c => mkConsumer (_producer c) (c_suspension c) (_value c) None (_hasValue c) (_eof c))
  | Some f =>
      if _hasValue c then modify (fun x => mkPair (prod x) (cons x) (fired x ++ [f]) (base x))
      else modConsumer (fun c => mkConsumer (_producer c) (c_suspension c) (_value c) (Some f) (_hasValue c) (_eof c))
  end.

(** The members are destroyed in reverse order: the Suspension, then the relation. *)
Definition destroyConsumer : ST Pair unit :=
  c ← consumer;
  _ ← onBase (cancel true (c_suspension c));
  _ ← unlink;
  modify (setCons None).

(** * The producer *)

Definition make_consumer : ST Pair unit :=
  p ← gets prod;
  _ ← assert (negb (_consumer p));
  modify (fun x => mkPair (mkProducer true (p_suspension (prod x))) (Some newConsumer) (fired x) (base x)).

(** [produce]: the check it makes; what follows is done by the awaiter it returns. *)
Definition produce : ST Pair unit :=
  p ← gets prod;
  if _consumer p then c ← consumer; assert (negb (_eof c)) else mret tt.

Definition produce_ready : ST Pair bool :=
  p ← gets prod;
  if _consumer p then c ← consumer; mret (negb (_hasValue c)) else mret true.

Definition produce_suspend (ty self : Z) (cur : coro) : ST Pair coro_handle :=
  p ← gets prod;
  _ ← assert (bool_decide (p_suspension p = None));
  s ← onBase (susp cur);
  _ ← modify (fun x => setProd (mkProducer (_consumer (prod x)) s) x);
  onBase (switchAway cur ty self).

Definition produce_resume (v : Result T) : ST Pair bool :=
  p ← gets prod;
  _ ← when (_consumer p) (setValue v);
  p ← gets prod;
  mret (_consumer p).

(** * Lemmas *)

(** The link is consistent: both sides are set or neither is. *)
Definition linked (x : Pair) : Prop :=
  match cons x with Some c => _producer c = _consumer (prod x) | None => _consumer (prod x) = false end.

(** A value comes into the empty slot: the callback is called and the consumer woken; the last
    one also takes the link apart. *)
Lemma produce_resume_run p c fi b v s' b' :
  _consumer p = true -> _hasValue c = false -> wake true (c_suspension c) b = Ret (s', b') ->
  produce_resume v (mkPair p (Some c) fi b)
  = Ret (ok v, mkPair (mkProducer (ok v) (p_suspension p))
                 (Some (mkConsumer (if ok v then _producer c else false) s' v None true (negb (ok v))))
                 (fi ++ match _onReady c with Some f => [f] | None => [] end) b').
Proof.
  intros Hp Hv E. destruct c as [pr cs va re hv ef]. destruct p as [pc psu]. cbn [_consumer _hasValue c_suspension _onReady _producer p_suspension] in *. subst pc hv.
  unfold produce_resume, setValue, fireReady, wakeConsumer, modConsumer, consumer, mbind, ST_bind, gets, when, assert, modify, unlink, onBase, zoom, setCons.
  cbn. destruct (ok v); cbn; destruct re as [f|]; cbn; rewrite E; cbn; rewrite ?app_nil_r; reflexivity.
Qed.

Lemma await_resume_run p c fi b s' b' :
  _hasValue c = true -> (if _producer c then wake true (p_suspension p) b else Ret (p_suspension p, b)) = Ret (s', b') ->
  await_resume (mkPair p (Some c) fi b)
  = Ret (_value c, mkPair (mkProducer (_consumer p) s') (Some (mkConsumer (_producer c) (c_suspension c) (_value c) (_onReady c) false (_eof c))) fi b').
Proof.
  intros Hv E. destruct c as [pr cs va re hv ef]. destruct p as [pc psu]. cbn [_consumer _hasValue c_suspension _onReady _producer p_suspension] in *. subst hv.
  unfold await_resume, modConsumer, consumer, mbind, ST_bind, gets, when, assert, modify, onBase, zoom. cbn. destruct pr; cbn; [rewrite E; reflexivity|]. injection E as <- <-. reflexivity.
Qed.

(** The consumer misses the end when it comes before it awaits: its precondition fails. *)
Lemma await_ready_unlinked x c : cons x = Some c -> _producer c = false -> await_ready x = Fault AssertFailed.
Proof. intros E Hp. unfold await_ready, consumer, mbind, ST_bind, gets, assert. rewrite E. cbn. now rewrite Hp. Qed.
End series.
Arguments Pair _ _ : clear implicits.
Arguments SeriesConsumer : clear implicits.

(** [produce] blocks while the slot is full; nothing wakes it when the consumer is destroyed,
    although its result is documented to be false then. *)
Theorem producer_left_asleep {W} `{Suspending W} {T} (x : Pair W T) c h :
  cons x = Some c -> p_suspension (prod x) = Some h -> okW (base x) -> c_suspension c = None ->
  exists x', destroyConsumer x = Ret (tt, x') /\ cons x' = None /\ p_suspension (prod x') = Some h /\ asleep (base x') = asleep (base x).
Proof.
  intros Ec Ep Hw Hs. destruct x as [p c0 fi b]. cbn in *. subst c0.
  unfold destroyConsumer, unlink, consumer, mbind, ST_bind, gets, onBase, zoom, modify. cbn. rewrite Hs, cancel_null.
  eexists. split; [reflexivity|]. cbn. done.
Qed.
