(* ===== verification/PubSub.v ===== *)
(** Publishers and subscribers ([include/crouton/PubSub.hh]).

    A series ([ISeries] of [Awaitable.hh]) is an interface: awaiting it gives the next item, and
    at last an empty or error result.  Subscribers are proved against it; [Generator.v] provides it.  The
    connectors that pass items on through a bounded queue run next to the coroutine that reads the
    queue: [Buffer], [Filter] and [Transformer] are shown to deliver in every order of their steps, over the
    smallest scheduler ([Cooperative.v]).  [BaseConnector] is in [Connector.v]. *)

From S2P Require Import Prelude Lifecycle Scheduler Suspending Errors Sync Queue Generator Producer Cooperative.

(** * Series *)

Class ISeries (S T : Type) := {
  awaitSeries : ST S (Result T);
  (** the items still to come, and the error at the end, if any *)
  supplies : S -> list T -> option error -> Prop;
  series_item s v vs e : supplies s (v :: vs) e -> exists s', awaitSeries s = Ret (RValue v, s') /\ supplies s' vs e;
  series_end s e : supplies s [] e -> exists s', awaitSeries s = Ret (RError e, s')
}.

(** A generator awaited by the running coroutine [c] is a series: it yields its items and then returns, throws,
    or yields an error. *)
Definition generates {T} (c : coro) (w : Generator.World T) (vs : list T) (e : option error) : Prop :=
  exists stk tl, Idle w (c :: stk) (map RValue vs ++ tl) /\ stateOf (life w) c = Some active
    /\ match tl with [] => endResult (V := T) (fin w) = RError e | RError (Some x) :: _ => e = Some x | _ => False end.

#[export] Program Instance generator_iseries {T} (c : coro) : ISeries (Generator.World T) T := {
  awaitSeries := await c;
  supplies := generates c
}.
Next Obligation.
  intros T c w v vs e (stk & tl & Hi & Ha & Ht). destruct (await_value w c stk v _ Hi Ha) as (w' & E & Hi' & Ha' & _ & Ef & _).
  exists w'. split; [exact E|]. exists stk, tl. split_and!; [done|done|]. destruct tl; [now rewrite Ef|done].
Qed.
Next Obligation.
  intros T c w e (stk & tl & Hi & Ha & Ht). cbn in Hi. destruct tl as [|[v|[x|]] tl]; try done.
  - destruct (await_end w c stk Hi Ha) as (w' & E & _). exists w'. now rewrite E, Ht.
  - destruct (await_error w c stk x tl Hi Ha) as (w' & E & _). exists w'. now rewrite E, Ht.
Qed.

(** [Emitter::_publish]: the coroutine it starts. *)
Definition emitterBody {T} (items : list T) (err : option error) : list (Result T) * bodyEnd :=
  (map RValue items ++ match err with Some e => [RError (Some e)] | None => [] end, Returns).

(** * Subscribers *)

Inductive taskState := Running | Finished.

Definition isNone {A} (o : option A) : bool := match o with None => true | Some _ => false end.

Section subscriber.
Context {P S T : Type} `{ISeries S T} (publish : P -> S).

Record Subscriber := mkSubscriber {
  _publisher : option P;
  _series : option S;
  _task : option taskState;
  _error : option error
}.

Definition newSubscriber : Subscriber := mkSubscriber None None None None.

Definition subscribeTo (pub : P) (s : Subscriber) : outcome Subscriber :=
  _ ← precondition (isNone (_publisher s));
  _ ← precondition (isNone (_series s));
  Ret (mkSubscriber (Some pub) (_series s) (_task s) (_error s)).

(** [start]: the series the new task is given, if it starts one. *)
Definition start (s : Subscriber) : outcome (option S * Subscriber) :=
  match _task s with
  | Some _ => Ret (None, s)
  | None =>
      series ← match _series s with
               | Some x => Ret x
               | None =>
                   match _publisher s with
                   | Some p => Ret (publish p)
                   | None => Fault AssertFailed
                   end
               end;
      Ret (Some series, mkSubscriber (_publisher s) None (Some Running) (_error s))
  end.

Definition isDone (s : Subscriber) : bool := match _task s with Some Finished => true | _ => false end.

Definition handleEnd (err : option error) (s : Subscriber) : Subscriber :=
  mkSubscriber (_publisher s) (_series s) (_task s) err.

Definition finish (s : Subscriber) : Subscriber :=
  mkSubscriber (_publisher s) (_series s) (match _task s with Some _ => Some Finished | None => None end) (_error s).

(** The move constructor, from [s]; what is left of [s] comes second. *)
Definition moveFrom (s : Subscriber) : Subscriber * Subscriber :=
  (mkSubscriber (_publisher s) None None None, mkSubscriber None (_series s) (_task s) (_error s)).

(** The destructor's check. *)
Definition destroySubscriber (s : Subscriber) : outcome unit := precondition (isNone (_task s) || isDone s).

(** [run], with the state [H] of the subclass and its [handle], which may fail: the exception ends the task. *)
Section run.
Context {H' : Type} (handle : T -> H' -> H' * option error).

Fixpoint run (fuel : nat) (h : H') (s : Subscriber) (series : S) : outcome (H' * Subscriber) :=
  match fuel with
  | O => Fault NoFuel
  | Datatypes.S f =>
      '(result, series) ← awaitSeries series;
      match result with
      | RValue v =>
          match handle v h with
          | (h, None) => run f h s series
          | (h, Some _) => Ret (h, finish s)
          end
      | RError e => Ret (h, finish (handleEnd e s))
      end
  end.
End run.

(** [Collector]: [items()] of it is the state. *)
Definition collect (v : T) (items : list T) : list T * option error := (items ++ [v], None).

(** Items up to the first that fails. *)
Fixpoint handled {H'} (handle : T -> H' -> H' * option error) (vs : list T) (h : H') : H' * bool :=
  match vs with
  | [] => (h, true)
  | v :: r => match handle v h with (h', None) => handled handle r h' | (h', Some _) => (h', false) end
  end.

Lemma run_ok {H'} (handle : T -> H' -> H' * option error) vs : forall n h s series e,
  supplies series vs e -> (length vs < n)%nat ->
  run handle n h s series = Ret (let '(h', all) := handled handle vs h in (h', finish (if (all : bool) then handleEnd e s else s))).
Proof.
  induction vs as [|v vs IH]; intros n h s series e Hs Hn; (destruct n as [|n]; [cbn in Hn; lia|]); cbn [run handled].
  - destruct (series_end series e Hs) as (series' & ->). reflexivity.
  - destruct (series_item series v vs e Hs) as (series' & -> & Hs'). mred. destruct (handle v h) as [h' [x|]]; [reflexivity|]. apply IH with (e := e); [done|cbn in Hn; lia].
Qed.

Lemma collect_all vs : forall items, handled collect vs items = (items ++ vs, true).
Proof. induction vs as [|v vs IH]; intros items; cbn; [now rewrite app_nil_r|]. now rewrite IH, <- app_assoc. Qed.
End subscriber.
Arguments Subscriber : clear implicits.

(** A [Collector] subscribed to a publisher of any series and started gets every item in order, and its error
    is the one the series ends with; a second [start] does nothing, and it may be destroyed.  One
    round of its loop per item, and one for the end, are enough. *)
Theorem subscriber_collects {P S T} `{ISeries S T} (publish : P -> S) p vs e n :
  supplies (publish p) vs e -> (length vs < n)%nat ->
  exists s1 s2 series s3,
    subscribeTo p newSubscriber = Ret s1 /\ start publish s1 = Ret (Some series, s2) /\ isDone s2 = false
    /\ run collect n [] s2 series = Ret (vs, s3) /\ isDone s3 = true /\ _error s3 = e
    /\ start publish s3 = Ret (None, s3) /\ destroySubscriber s3 = Ret tt.
Proof.
  intros Hs Hn. eexists _, _, _, _. split; [reflexivity|]. split; [reflexivity|]. split; [reflexivity|].
  split; [rewrite (run_ok collect vs n [] _ _ e Hs Hn), collect_all; reflexivity|]. split_and!; reflexivity.
Qed.

(** What an [Emitter] publishes. *)
Lemma emitter_supplies {T} c (w : Generator.World T) stk items err :
  Idle w (c :: stk) (emitterBody items err).1 -> fin w = (emitterBody items err).2 -> stateOf (life w) c = Some active ->
  supplies (ISeries := generator_iseries c) w items err.
Proof.
  intros Hi Hf Ha. exists stk, (match err with Some e => [RError (Some e)] | None => [] end). split_and!; [exact Hi|exact Ha|].
  destruct err; [done|]. now rewrite Hf.
Qed.

Definition exampleEmitter : Generator.World Z :=
  mkWorld 2 newGenerator (emitterBody [10%Z; 20%Z; 30%Z] (Some (ECrouton Timeout))).1 Returns false [] false
    (play [Created 1 true; SuspendInitial 1; Lifecycle.Resume 1; Created 2 false] emptyLifecycle).

Lemma subscriber_collects_witness :
  exists s2 s3 series, run (H := generator_iseries 1) (P := unit) collect 4 [] s2 series = Ret ([10; 20; 30]%Z, s3) /\ _error s3 = Some (ECrouton Timeout).
Proof.
  assert (supplies (ISeries := generator_iseries 1) exampleEmitter [10; 20; 30]%Z (Some (ECrouton Timeout))) as Hs.
  { apply (emitter_supplies 1 exampleEmitter []); [|reflexivity|reflexivity].
    split; [apply exampleWorld_wf| |vm_compute; discriminate|done|done|done]. split_and!; [eexists; split; reflexivity|vm_compute; discriminate|set_solver]. }
  destruct (subscriber_collects (H := generator_iseries 1) (fun _ : unit => exampleEmitter) tt [10; 20; 30]%Z _ 4 Hs ltac:(cbn; lia)) as (s1 & s2 & series & s3 & _ & _ & _ & E & _ & Ee & _).
  exists s2, s3, series. split; [exact E|exact Ee].
Defined.

(** A subscriber made from a series loses it when it is moved, and cannot be started then. *)
Theorem subscriber_move_loses_series {P S} (publish : P -> S) (x : S) :
  start publish (moveFrom (mkSubscriber None (Some x) None None)).1 = Fault AssertFailed.
Proof. reflexivity. Qed.

(** * Connectors with a queue *)

(** [Buffer::run]: what becomes of an item; nothing is passed on when the filter rejects it. *)
Definition bufferItem {T} (filter : T -> bool) (item : Result T) : outcome (option (Result T)) :=
  match item with
  | RError e => Ret (Some (RError e))
  | RValue v => Ret (if filter v then Some (RValue v) else None)
  end.

(** [Buffer]'s own [filter]; [Filter] has its predicate. *)
Definition bufferFilter {T} (item : T) : bool := true.

Definition transform {In Out} (_xform : option (Result In -> outcome (Result Out))) (transformValue : In -> outcome Out)
  (item : Result In) : outcome (Result Out) :=
  match _xform with
  | Some f => f item
  | None =>
      match item with
      | RValue v => out ← transformValue v; Ret (RValue out)
      | RError e => Ret (RError e)
      end
  end.

(** [Transformer::run]: the end of the input has to be the end of the output. *)
Definition transformItem {In Out} (xform : Result In -> outcome (Result Out)) (item : Result In) : outcome (option (Result Out)) :=
  out ← xform item;
  _ ← precondition (ok item || negb (ok out));
  Ret (Some out).

Section connector.
Context {In Out : Type} (xform : Result In -> outcome (option (Result Out))) (hp hc : coro).

(** Where the task of [run] is: awaiting the series, in [asyncPush] with an item, or finished. *)
Inductive pumpPc := PRead | PBlocked (t : Out) | PDone.

(** What is still to come from the series, the queue, the task, the coroutine of [generate], what was
    read from it, what [handleEnd] was given, and the scheduler. *)
Record Flow := mkFlow {
  up : list (Result In);
  q : AsyncQueue Out;
  pc : pumpPc;
  gp : gpc;
  got : list (gresult (T := Out));
  ended : option (option error);
  sched : Coop
}.

Definition stopPump (f : Flow) (q' : AsyncQueue Out) (w' : Coop) : outcome Flow :=
  '(q', w') ← closeWhenEmpty None q' w';
  Ret (mkFlow (up f) q' PDone (gp f) (got f) (ended f) w').

Definition tryPush (t : Out) (f : Flow) : outcome Flow :=
  '(r, q', w') ← asyncPush 0 0 hp t (q f) (sched f);
  match r with
  | PushBlocked => Ret (mkFlow (up f) q' (PBlocked t) (gp f) (got f) (ended f) w')
  | Pushed true => Ret (mkFlow (up f) q' PRead (gp f) (got f) (ended f) w')
  | Pushed false => stopPump f q' w'
  end.

(** [run], from one suspension to the next.  An exception ends the task and leaves the queue as
    it is. *)
Definition pumpStep (f : Flow) : outcome Flow :=
  let f := mkFlow (up f) (q f) (pc f) (gp f) (got f) (ended f) (dispatch hp (sched f)) in
  match pc f, up f with
  | PRead, r :: rest =>
      let f := mkFlow rest (q f) (pc f) (gp f) (got f) (ended f) (sched f) in
      match xform r with
      | Fault x => Fault x
      | Raise _ => Ret (mkFlow rest (q f) PDone (gp f) (got f) (ended f) (sched f))
      | Ret None => Ret f
      | Ret (Some (RValue t)) => tryPush t f
      | Ret (Some (RError e)) =>
          let f := mkFlow rest (q f) (pc f) (gp f) (got f) (Some e) (sched f) in
          '(q', w') ← closePush e (q f) (sched f);
          stopPump f q' w'
      end
  | PBlocked t, _ => tryPush t f
  | _, _ => Fault NoFuel
  end.

Definition pumpCan (f : Flow) : bool :=
  match pc f with
  | PRead => negb (bool_decide (length (up f) = 0%nat))
  | PBlocked _ => runnable hp (sched f)
  | PDone => false
  end.

(** The reader asks the generator for the next result until it gets the last. *)
Definition readStep (f : Flow) : outcome Flow :=
  '(r, gp', q', w') ← generate 0 0 hc (gp f) (q f) (dispatch hc (sched f));
  Ret (mkFlow (up f) q' (pc f) gp' (match r with GBlocked => got f | _ => got f ++ [r] end) (ended f) w').

Definition readCan (f : Flow) : bool :=
  runnable hc (sched f) && match gp f with GErrorYielded | GDone => false | _ => true end.

Inductive flowStep : Flow -> outcome Flow -> Prop :=
| flow_pump f : pumpCan f = true -> flowStep f (pumpStep f)
| flow_read f : readCan f = true -> flowStep f (readStep f).

(** [n] steps in some order. *)
Inductive flows : nat -> Flow -> Flow -> Prop :=
| flows_0 f : flows 0 f f
| flows_S n f f1 f2 : flowStep f (Ret f1) -> flows n f1 f2 -> flows (S n) f f2.

(** What is to come out: the items passed on, and the end. *)
Fixpoint through (rs : list (Result In)) : option (list Out * option error) :=
  match rs with
  | [] => None
  | r :: rest =>
      match xform r with
      | Ret None => through rest
      | Ret (Some (RValue t)) => (fun p => (t :: p.1, p.2)) <$> through rest
      | Ret (Some (RError e)) => Some ([], e)
      | _ => None
      end
  end.

(** * Queue operations on explicit queues *)

Definition Q (l : list Out) (pull push : list Suspension) (err : option error) (st : State) (g cwe : bool) (n : nat) : AsyncQueue Out :=
  mkQueue l (CoCondition.mkCond pull) err st g cwe (Some n) (CoCondition.mkCond push).

Definition wakeHead (ss : list Suspension) (w : Coop) : Coop :=
  match ss with Some h :: _ => mkCoop (sleeping w ∖ {[h]}) ({[h]} ∪ woken w) | _ => w end.

Lemma asyncPush_full l pull push g n t w :
  length l = n -> asyncPush 0 0 hp t (Q l pull push None Open g false n) w
  = Ret ((PushBlocked, Q l pull (push ++ [Some hp]) None Open g false n), mkCoop ({[hp]} ∪ sleeping w) (woken w)).
Proof. intros Hl. unfold asyncPush, mustWait, full, size. cbn [_maxSize _queue _state Q]. rewrite Hl, Nat.leb_refl. reflexivity. Qed.

Definition wakeOne (l : list Out) (pull : list Suspension) : list Suspension := match l with [] => tail pull | _ => pull end.

Lemma asyncPush_room l pull push g n t w :
  (length l < n)%nat -> pull = [] \/ pull = [Some hc] -> asyncPush 0 0 hp t (Q l pull push None Open g false n) w
  = Ret ((Pushed true, Q (l ++ [t]) (wakeOne l pull) push None Open g false n), match l with [] => wakeHead pull w | _ => w end).
Proof.
  intros Hl Hp. unfold asyncPush, mustWait, Queue.push, pushAt, full, size, insertAt. cbn [_maxSize _queue _state Q].
  rewrite (proj2 (Nat.leb_gt _ _) Hl). cbn [andb orb negb bool_decide]. change (bool_decide (Open = Open)) with true. cbn [negb].
  rewrite firstn_all, skipn_all. unfold mbind, ST_bind, setQueue. cbn [_queue _pullCond _closeError _state _generating _closeWhenEmpty _maxSize _pushCond Q].
  rewrite length_app. cbn [length]. destruct l as [|x l]; cbn [length Nat.add Nat.eqb].
  - destruct Hp as [-> | ->]; reflexivity.
  - replace (length l + 1)%nat with (S (length l)) by lia. reflexivity.
Qed.

(** The end of the series: [closePush], then [closeWhenEmpty]. *)
Lemma closing_run l pull g n e w :
  pull = [] \/ pull = [Some hc] ->
  (('(q', w') ← closePush e (Q l pull [] None Open g false n) w; closeWhenEmpty None q' w') : outcome (AsyncQueue Out * Coop))
  = Ret (match l with [] => Q [] (tail pull) [] e Closed g true n | _ => Q l pull [] e Closing g true n end, match l with [] => wakeHead pull w | _ => w end).
Proof. intros [-> | ->]; destruct l, e; reflexivity. Qed.

(** The reader takes the first item. *)
Lemma genPop_run t l pull push err st g cwe n w :
  push = [] \/ push = [Some hp] -> (cwe = true -> push = [] /\ pull = []) -> (cwe = false -> st = Open) -> (cwe = true -> st = Closing) -> (length (t :: l) <= n)%nat ->
  genPop (Q (t :: l) pull push err st g cwe n) w
  = Ret ((GItem t, GYielded, Q l pull (if (length (t :: l) =? n)%nat then tail push else push) err (match l with [] => if cwe then Closed else st | _ => st end) g cwe n),
         if (length (t :: l) =? n)%nat then wakeHead push w else w).
Proof.
  intros Hp H1 H2 H3 Hl. unfold genPop, pop, full, superPop, size. cbn [_maxSize _queue Q]. assert ((n <=? length (t :: l))%nat = (length (t :: l) =? n)%nat) as ->.
  { destruct (length (t :: l) =? n)%nat eqn:E; [apply Nat.eqb_eq in E; apply Nat.leb_le; lia|apply Nat.eqb_neq in E; apply Nat.leb_gt; lia]. }
  destruct cwe.
  - destruct (H1 eq_refl) as [-> ->]. rewrite (H3 eq_refl). destruct l, (_ =? n)%nat, err; reflexivity.
  - rewrite (H2 eq_refl). destruct Hp as [-> | ->]; destruct l, (_ =? n)%nat; reflexivity.
Qed.
(** * Delivery *)

Definition isStopped (p : pumpPc) : bool := match p with PDone => true | _ => false end.
Definition queueState (p : pumpPc) (l : list Out) : State := if isStopped p then match l with [] => Closed | _ => Closing end else Open.
Definition isOver (g : gpc) : bool := match g with GErrorYielded | GDone => true | _ => false end.
Definition isStart (g : gpc) : bool := match g with GStart => true | _ => false end.

(** What the reader gets last. *)
Definition lastResult (e : option error) : gresult (T := Out) := match e with Some x => GError x | None => GEnd end.
Definition lastPc (e : option error) : gpc := match e with Some _ => GErrorYielded | None => GDone end.

(** What the task has still to push. *)
Definition pending (f : Flow) : option (list Out * option error) :=
  match pc f with
  | PRead => through (up f)
  | PBlocked t => (fun p => (t :: p.1, p.2)) <$> through (up f)
  | PDone => None
  end.

Record flowInv (n : nat) (exp : list Out) (e : option error) (l : list Out) (pull push : list Suspension) (d : list Out) (f : Flow) : Prop := {
  v_q : q f = Q l pull push (if isStopped (pc f) then e else None) (queueState (pc f) l) (negb (isStart (gp f))) (isStopped (pc f)) n;
  v_len : (length l <= n)%nat /\ (0 < n)%nat;
  v_data : if isStopped (pc f) then d ++ l = exp else exists rest, pending f = Some (rest, e) /\ d ++ l ++ rest = exp;
  v_got : got f = map GItem d ++ (if isOver (gp f) then [lastResult e] else []);
  v_over : isOver (gp f) = true -> gp f = lastPc e /\ isStopped (pc f) = true /\ l = [];
  v_ended : ended f = if isStopped (pc f) then Some e else None;
  v_pull : (pull = [Some hc] /\ gp f = GAwaiting /\ hc ∈ sleeping (sched f) /\ l = [] /\ isStopped (pc f) = false)
           \/ (pull = [] /\ hc ∉ sleeping (sched f) /\ (gp f = GAwaiting -> l <> [] \/ isStopped (pc f) = true));
  v_push : (push = [Some hp] /\ hp ∈ sleeping (sched f) /\ length l = n /\ exists t, pc f = PBlocked t)
           \/ (push = [] /\ hp ∉ sleeping (sched f) /\ forall t, pc f = PBlocked t -> (length l < n)%nat)
}.

Definition asleepIn (h : coro) (w : Coop) : bool := bool_decide (h ∈ sleeping w).

Definition measure (l : list Out) (f : Flow) : nat :=
  6 * length (up f) + match pc f with PBlocked _ => 4 | _ => 0 end + 2 * length l
  + (if asleepIn hc (sched f) then 0 else 1) + (if isOver (gp f) then 0 else 2).

Definition keeps (n : nat) (exp : list Out) (e : option error) (m : nat) (o : outcome Flow) : Prop :=
  exists f' l pull push d, o = Ret f' /\ flowInv n exp e l pull push d f' /\ (measure l f' < m)%nat.

Hypothesis distinct : hp <> hc.

Lemma asleepIn_bound h w : (if asleepIn h w then 0 else 1) <= 1.
Proof. destruct (asleepIn h w); lia. Qed.

(** The push of an item in hand, from [PRead] or woken from [PBlocked]. *)
Lemma tryPush_keeps n exp e l pull push d f t rest m :
  flowInv n exp e l pull push d f -> hp ∉ sleeping (sched f) -> isStopped (pc f) = false ->
  forall up' pc', isStopped pc' = false -> through up' = Some (rest, e) -> d ++ l ++ t :: rest = exp ->
  (6 * length up' + 4 + 2 * length l + (if asleepIn hc (sched f) then 0 else 1) + 2 <= m)%nat ->
  ((length l < n)%nat \/ 6 * length up' + 4 + 2 * length l + (if asleepIn hc (sched f) then 0 else 1) + 2 < m)%nat ->
  keeps n exp e m (tryPush t (mkFlow up' (q f) pc' (gp f) (got f) (ended f) (dispatch hp (sched f)))).
Proof.
  intros [Hq [Hl Hn] Hd Hg Ho He Hpl Hps] Hr Hnd up' pc' Hpc Hth Hdata Hm Hm2. rewrite Hnd in *. unfold queueState in Hq. rewrite Hnd in Hq.
  assert (push = []) as -> by (destruct Hps as [(_ & Hs & _)|(? & _)]; [contradiction|done]).
  assert (isOver (gp f) = false) as Hno by (destruct (isOver (gp f)); [destruct (Ho eq_refl) as (_ & ? & _); discriminate|done]).
  assert (pull = [] \/ pull = [Some hc]) as Hpl' by (destruct Hpl as [(? & _)|(? & _)]; auto).
  unfold tryPush. cbn [q sched up gp got ended]. rewrite Hq. destruct (decide (length l = n)) as [Hf|Hf].
  - rewrite asyncPush_full by done. mred. cbn [app]. unfold keeps. eexists _, l, pull, [Some hp], d. split; [reflexivity|]. split.
    + split; cbn [q pc gp got ended sched up isStopped queueState dispatch sleeping]; try done.
      * exists (t :: rest). unfold pending. cbn [pc up]. rewrite Hth. cbn. done.
      * destruct Hpl as [(-> & ? & ? & ? & ?)|(-> & ? & ?)]; [left|right]; split_and!; auto; set_solver.
      * left. split_and!; [done|set_solver|done|eauto].
    + unfold measure. cbn [up pc gp sched]. rewrite Hno. assert (asleepIn hc (mkCoop ({[hp]} ∪ sleeping (dispatch hp (sched f))) (woken (dispatch hp (sched f)))) = asleepIn hc (sched f)) as ->.
      { unfold asleepIn. apply bool_decide_ext. cbn. set_solver. }
      lia.
  - rewrite asyncPush_room by (done || lia). mred. unfold keeps. eexists _, (l ++ [t]), (wakeOne l pull), [], d. split; [reflexivity|]. split.
    + split; cbn [q pc gp got ended sched up isStopped queueState dispatch sleeping]; try done.
      * rewrite length_app. cbn. lia.
      * exists rest. unfold pending. cbn [pc up]. rewrite Hth. split; [done|]. rewrite <- Hdata, <- app_assoc. done.
      * intros E. congruence.
      * right. destruct Hpl as [(-> & ? & ? & -> & ?)|(-> & ? & ?)].
        -- cbn. split_and!; [done|set_solver|]. intros _. left. done.
        -- destruct l; cbn; (split_and!; [done|done|intros _; left; now destruct l || done]).
      * right. split_and!; [done| |done]. destruct l; [|done]. destruct Hpl as [(-> & _)|(-> & _)]; cbn; set_solver.
    + unfold measure. cbn [up pc gp sched]. rewrite Hno, length_app. cbn [length].
      match goal with |- context [asleepIn hc ?w] => pose proof (asleepIn_bound hc w) end. lia.
Qed.
Lemma pumpStep_keeps n exp e l pull push d f :
  flowInv n exp e l pull push d f -> pumpCan f = true -> keeps n exp e (measure l f) (pumpStep f).
Proof.
  intros Hi Hc. pose proof Hi as [Hq [Hl Hn] Hd Hg Ho He Hpl Hps]. unfold pumpStep, pumpCan in *. cbn [up q pc gp got ended sched].
  destruct (pc f) as [|t|] eqn:Epc; [| |discriminate].
  - destruct (up f) as [|r rest] eqn:Eup; [discriminate|]. cbn [isStopped] in *. destruct Hd as (rest0 & Hp & Hd). unfold pending in Hp. rewrite Epc, Eup in Hp. cbn [through] in Hp.
    assert (hp ∉ sleeping (sched f)) as Hr by (destruct Hps as [(_ & _ & _ & t & ?)|(_ & ? & _)]; [discriminate|done]).
    destruct (xform r) as [[[t|e']|]| |] eqn:Ex; try discriminate.
    + destruct (through rest) as [[rest1 e1]|] eqn:Et; [|discriminate]. injection Hp as <- ->.
      apply (tryPush_keeps n exp e l pull push d f t rest1); try done; [now rewrite Epc|unfold measure; rewrite Eup, Epc; cbn [length]; destruct (isOver (gp f)) eqn:Eo; [destruct (Ho eq_refl) as (_ & ? & _); discriminate|lia]|].
      right. unfold measure. rewrite Eup, Epc. cbn [length]. destruct (isOver (gp f)) eqn:Eo; [destruct (Ho eq_refl) as (_ & ? & _); discriminate|lia].
    + injection Hp as <- ->. rewrite app_nil_r in Hd.
      assert (push = []) as -> by (destruct Hps as [(_ & _ & _ & t & ?)|(? & _)]; [discriminate|done]).
      assert (pull = [] \/ pull = [Some hc]) as Hpl' by (destruct Hpl as [(? & _)|(? & _)]; auto).
      unfold stopPump. cbn [up q pc gp got ended sched]. rewrite Hq. unfold queueState. cbn [isStopped].
      pose proof (closing_run l pull (negb (isStart (gp f))) n e (dispatch hp (sched f)) Hpl') as Hcl.
      destruct (closePush e _ _) as [[q1 w1]| |]; [|discriminate..]. cbn [mbind outcome_bind] in Hcl. mred. rewrite Hcl. mred. clear Hcl q1 w1.
      eexists _, l, (wakeOne l pull), [], d. split; [reflexivity|]. split.
      * split; cbn [q pc gp got ended sched up isStopped]; try done.
        -- unfold queueState. cbn [isStopped]. destruct l; reflexivity.
        -- intros Hov. destruct (Ho Hov) as (_ & ? & _). discriminate.
        -- right. destruct Hpl as [(-> & ? & ? & -> & ?)|(-> & ? & ?)]; cbn [wakeOne tail wakeHead].
           ++ split_and!; [done|cbn; set_solver|auto].
           ++ destruct l; cbn; auto.
        -- right. split_and!; [done| |done]. destruct l; [|done]. destruct Hpl' as [-> | ->]; cbn; set_solver.
      * unfold measure. rewrite Eup, Epc. cbn [up pc gp sched length]. destruct (isOver (gp f)); match goal with |- context [asleepIn hc ?w] => pose proof (asleepIn_bound hc w) end; lia.
    + eexists _, l, pull, push, d. split; [reflexivity|]. split.
      * split; cbn [q pc gp got ended sched up isStopped dispatch sleeping]; try done. exists rest0. done.
      * unfold measure. cbn [up pc gp sched]. rewrite Eup, Epc. change (asleepIn hc (dispatch hp (sched f))) with (asleepIn hc (sched f)). cbn [length]. lia.
  - cbn [isStopped] in *. destruct Hd as (rest0 & Hp & Hd). unfold pending in Hp. rewrite Epc in Hp.
    destruct (through (up f)) as [[rest1 e1]|] eqn:Et; [|discriminate]. injection Hp as <- ->.
    unfold runnable in Hc. apply bool_decide_eq_true in Hc.
    assert (length l < n)%nat as Hlt by (destruct Hps as [(_ & ? & _)|(_ & _ & Hps)]; [contradiction|now apply (Hps t)]).
    apply (tryPush_keeps n exp e l pull push d f t rest1); try done; [now rewrite Epc| |now left].
    unfold measure. rewrite Epc. destruct (isOver (gp f)) eqn:Eo; [destruct (Ho eq_refl) as (_ & ? & _); discriminate|lia].
Qed.

(** A run of the generator's loop is what every resumption of the generator comes to. *)
Lemma generate_loop n exp e l pull push d f w :
  flowInv n exp e l pull push d f -> readCan f = true ->
  generate 0 0 hc (gp f) (q f) w = genLoop 0 0 hc (Q l [] push (if isStopped (pc f) then e else None) (queueState (pc f) l) true (isStopped (pc f)) n) w.
Proof.
  intros [Hq _ Hd _ _ _ Hpl _] Hc. unfold readCan, runnable in Hc. apply andb_true_iff in Hc as [Hr%bool_decide_eq_true Hg].
  destruct Hpl as [(_ & _ & ? & _)|(-> & _ & Hgl)]; [contradiction|]. rewrite Hq. destruct (gp f); try discriminate; [reflexivity| |reflexivity].
  cbn [generate isStart negb]. unfold genLoop, queueState. cbn [Q _state isEmptyQueue _queue]. destruct l as [|t l].
  - destruct (Hgl eq_refl) as [?|Hs]; [done|]. rewrite Hs. reflexivity.
  - destruct (isStopped (pc f)); reflexivity.
Qed.

Lemma readStep_keeps n exp e l pull push d f :
  flowInv n exp e l pull push d f -> readCan f = true -> keeps n exp e (measure l f) (readStep f).
Proof.
  intros Hi Hc. unfold readStep. rewrite (generate_loop n exp e l pull push d f _ Hi Hc). destruct Hi as [Hq [Hl Hn] Hd Hg Ho He Hpl Hps].
  unfold readCan, runnable in Hc. apply andb_true_iff in Hc as [Hr%bool_decide_eq_true Hgp].
  assert (isOver (gp f) = false) as Hno by (destruct (gp f); done). rewrite Hno, app_nil_r in Hg.
  assert (asleepIn hc (sched f) = false) as Has by (apply bool_decide_eq_false; done).
  destruct l as [|t l].
  - destruct (isStopped (pc f)) eqn:Es.
    + assert (genLoop 0 0 hc (Q [] [] push e (queueState (pc f) []) true true n) (dispatch hc (sched f)) = Ret ((lastResult e, lastPc e, Q [] [] push e (queueState (pc f) []) true true n), dispatch hc (sched f))) as ->.
      { unfold queueState. rewrite Es. destruct e; reflexivity. }
      mred. eexists _, [], [], push, d. split; [reflexivity|]. split.
      * split; cbn [q pc gp got ended sched up dispatch sleeping]; rewrite ?Es; try done.
        -- destruct e; reflexivity.
        -- rewrite Hg. destruct e; reflexivity.
        -- right. split_and!; [done|done|]. destruct e; done.
      * unfold measure. cbn [up pc gp sched]. change (asleepIn hc (dispatch hc (sched f))) with (asleepIn hc (sched f)). rewrite Has, Hno. destruct e; cbn; lia.
    + assert (genLoop 0 0 hc (Q [] [] push None (queueState (pc f) []) true false n) (dispatch hc (sched f))
              = Ret ((GBlocked, GAwaiting, Q [] [Some hc] push None (queueState (pc f) []) true false n), mkCoop ({[hc]} ∪ sleeping (sched f)) (woken (sched f) ∖ {[hc]}))) as ->.
      { unfold queueState. rewrite Es. reflexivity. }
      mred. eexists _, [], [Some hc], push, d. split; [reflexivity|]. split.
      * split; cbn [q pc gp got ended sched up dispatch sleeping isOver isStart]; rewrite ?Es; try done.
        -- now rewrite app_nil_r.
        -- left. split_and!; [done|done|set_solver|done|done].
        -- destruct Hps as [(-> & ? & ? & ?)|(-> & ? & ?)]; [left|right]; split_and!; auto; set_solver.
      * unfold measure. cbn [up pc gp sched isOver]. rewrite Has, Hno. assert (asleepIn hc (mkCoop ({[hc]} ∪ sleeping (sched f)) (woken (sched f) ∖ {[hc]})) = true) as -> by (apply bool_decide_eq_true; cbn; set_solver). lia.
  - assert (genLoop 0 0 hc (Q (t :: l) [] push (if isStopped (pc f) then e else None) (queueState (pc f) (t :: l)) true (isStopped (pc f)) n) (dispatch hc (sched f))
            = genPop (Q (t :: l) [] push (if isStopped (pc f) then e else None) (queueState (pc f) (t :: l)) true (isStopped (pc f)) n) (dispatch hc (sched f))) as ->.
    { unfold queueState. destruct (isStopped (pc f)); reflexivity. }
    rewrite genPop_run; [| | | | |done].
    2: { destruct Hps as [(-> & _)|(-> & _)]; auto. }
    2: { intros Es. split; [|done]. destruct Hps as [(_ & _ & _ & t' & Et)|(-> & _)]; [rewrite Et in Es; discriminate|done]. }
    2: { intros Es. unfold queueState. now rewrite Es. }
    2: { intros Es. unfold queueState. now rewrite Es. }
    mred. eexists _, l, [], (if (length (t :: l) =? n)%nat then tail push else push), (d ++ [t]). split; [reflexivity|]. split.
    + split; cbn [q pc gp got ended sched up isOver isStart negb]; try done.
      * unfold queueState. destruct (isStopped (pc f)), l; reflexivity.
      * cbn [length] in Hl. lia.
      * destruct (isStopped (pc f)); [now rewrite <- app_assoc|]. destruct Hd as (rest & Hp & <-). exists rest. split; [done|]. now rewrite <- app_assoc.
      * rewrite Hg, map_app. cbn. now rewrite app_nil_r.
      * right. split_and!; [done| |done]. destruct (_ =? n)%nat; [|done]. destruct Hps as [(-> & _)|(-> & _)]; cbn; set_solver.
      * right. destruct (length (t :: l) =? n)%nat eqn:En.
        -- apply Nat.eqb_eq in En. cbn [length] in En. destruct Hps as [(-> & ? & ? & ?)|(-> & ? & Hps)]; cbn; (split_and!; [done|set_solver|intros; lia]).
        -- apply Nat.eqb_neq in En. destruct Hps as [(-> & ? & ? & ?)|(-> & ? & Hps)]; [lia|]. split_and!; [done|done|]. intros t' Ht'. specialize (Hps t' Ht'). cbn [length] in Hps. lia.
    + unfold measure. cbn [up pc gp sched isOver length]. rewrite Has, Hno.
      match goal with |- context [asleepIn hc ?w] => pose proof (asleepIn_bound hc w) end. lia.
Qed.

Lemma flowStep_keeps n exp e l pull push d f o :
  flowInv n exp e l pull push d f -> flowStep f o -> keeps n exp e (measure l f) o.
Proof. intros Hi Hs. destruct Hs; [eapply pumpStep_keeps|eapply readStep_keeps]; eauto. Qed.
Definition startFlow (n : nat) (rs : list (Result In)) : Flow :=
  mkFlow rs (Q [] [] [] None Open false false n) PRead GStart [] None (mkCoop ∅ ∅).

Lemma startFlow_inv n rs exp e : (0 < n)%nat -> through rs = Some (exp, e) -> flowInv n exp e [] [] [] [] (startFlow n rs).
Proof.
  intros Hn Hr. split; cbn; try done; [lia|exists exp; unfold pending; cbn; done| |].
  - right. split_and!; [done|set_solver|done].
  - right. split_and!; [done|set_solver|done].
Qed.

Lemma flows_inv n exp e k f f' : flows k f f' -> forall l pull push d, flowInv n exp e l pull push d f ->
  exists l' pull' push' d', flowInv n exp e l' pull' push' d' f' /\ (k + measure l' f' <= measure l f)%nat.
Proof.
  induction 1 as [f|k f f1 f2 Hs _ IH]; intros l pull push d Hi; [eexists l, pull, push, d; split; [done|lia]|].
  destruct (flowStep_keeps n exp e l pull push d f _ Hi Hs) as (f1' & l1 & pull1 & push1 & d1 & [= <-] & Hi1 & Hm).
  destruct (IH l1 pull1 push1 d1 Hi1) as (l' & pull' & push' & d' & Hi' & Hm'). exists l', pull', push', d'. split; [done|lia].
Qed.

Lemma flow_stuck n exp e l pull push d f :
  flowInv n exp e l pull push d f -> (forall o, ~ flowStep f o) -> got f = map GItem exp ++ [lastResult e] /\ ended f = Some e.
Proof.
  intros [Hq [Hl Hn] Hd Hg Ho He Hpl Hps] Hno.
  assert (pumpCan f = false) as Hp by (destruct (pumpCan f) eqn:E; [destruct (Hno _ (flow_pump f E))|done]).
  assert (readCan f = false) as Hr by (destruct (readCan f) eqn:E; [destruct (Hno _ (flow_read f E))|done]).
  assert (isOver (gp f) = true) as Hov.
  { destruct (isOver (gp f)) eqn:Eo; [done|exfalso]. unfold readCan, runnable in Hr.
    assert (hc ∈ sleeping (sched f)) as Hs. { destruct (decide (hc ∈ sleeping (sched f))); [done|]. rewrite bool_decide_eq_true_2 in Hr by done. destruct (gp f); discriminate. }
    destruct Hpl as [(_ & _ & _ & -> & Hst)|(_ & ? & _)]; [|contradiction]. rewrite Hst in Hd. destruct Hd as (rest & Hpe & _). unfold pending, pumpCan in *.
    destruct (pc f) as [|t|]; [|destruct Hps as [(_ & _ & Hlen & _)|(_ & Hs' & _)]|discriminate].
    - destruct (up f); discriminate.
    - cbn in Hlen. lia.
    - unfold runnable in Hp. rewrite bool_decide_eq_true_2 in Hp by done. discriminate. }
  destruct (Ho Hov) as (_ & Hst & ->). rewrite Hst in *. rewrite Hov in Hg. rewrite app_nil_r in Hd. subst exp. done.
Qed.

(** C11: whatever order the task of a connector and the reader of its queue run in, and whatever the size
    of the queue, nothing fails; no more than six steps are made per result of the series, and three; what
    was read is the beginning of what the connector passes on; and when no step can be made, the reader
    has got all of it in order and then the end, and the connector was told of the end. *)
Theorem connector_delivers n rs exp e k f :
  (0 < n)%nat -> through rs = Some (exp, e) -> flows k (startFlow n rs) f ->
  (forall o, flowStep f o -> exists f', o = Ret f')
  /\ (k <= 6 * length rs + 3)%nat
  /\ (length (_queue (q f)) <= n)%nat
  /\ (exists d rest, d ++ rest = exp /\ (got f = map GItem d \/ got f = map GItem exp ++ [lastResult e]))
  /\ ((forall o, ~ flowStep f o) -> got f = map GItem exp ++ [lastResult e] /\ ended f = Some e).
Proof.
  intros Hn Hr Hf. destruct (flows_inv n exp e k _ f Hf _ _ _ _ (startFlow_inv n rs exp e Hn Hr)) as (l & pull & push & d & Hi & Hm). split_and!.
  - intros o Hs. destruct (flowStep_keeps _ _ _ _ _ _ _ f o Hi Hs) as (f' & _ & _ & _ & _ & -> & _). eauto.
  - assert (measure [] (startFlow n rs) <= 6 * length rs + 3)%nat; [|lia]. unfold measure. cbn [up pc gp sched startFlow length isOver]. pose proof (asleepIn_bound hc (mkCoop ∅ ∅)). lia.
  - destruct Hi as [Hq [Hl _] _ _ _ _ _ _]. rewrite Hq. exact Hl.
  - destruct Hi as [_ _ Hd Hg Ho _ _ _]. destruct (isOver (gp f)) eqn:Eo.
    + destruct (Ho eq_refl) as (_ & Hst & ->). rewrite Hst, app_nil_r in Hd. subst d. exists exp, []. split; [apply app_nil_r|auto].
    + rewrite app_nil_r in Hg. destruct (isStopped (pc f)); [exists d, l; auto|]. destruct Hd as (rest & _ & Hd). exists d, (l ++ rest). auto.
  - now apply (flow_stuck n exp e l pull push d).
Qed.
End connector.
Arguments Flow : clear implicits.
Arguments pumpPc : clear implicits.

(** ** Filters and transformers *)

Lemma through_filter {T} (p : T -> bool) vs e :
  through (bufferItem p) (map RValue vs ++ [RError e]) = Some (List.filter p vs, e).
Proof. induction vs as [|v vs IH]; cbn; [done|]. destruct (p v); cbn; rewrite IH; reflexivity. Qed.

(** A function on values, the end passed on. *)
Lemma through_transform {In Out} (fn : In -> Out) vs e :
  through (transformItem (transform None (fun v => Ret (fn v)))) (map RValue vs ++ [RError e]) = Some (map fn vs, e).
Proof. induction vs as [|v vs IH]; cbn; [done|]. now rewrite IH. Qed.

(** A function that ends the series early. *)
Lemma through_early {In Out} (f : Result In -> outcome (Result Out)) v e rs :
  f (RValue v) = Ret (RError e) -> through (transformItem (transform (Some f) (fun _ => Fault NoFuel))) (RValue v :: rs) = Some ([], e).
Proof. intros E. cbn. unfold transformItem. cbn [transform]. rewrite E. reflexivity. Qed.

Definition exampleFlow : Flow Z Z := startFlow 1 (map RValue [1; 2; 3; 4]%Z ++ [RError None]).

Lemma connector_delivers_witness :
  exists f, flowStep (bufferItem Z.even) 1 2 exampleFlow (Ret f) /\ (1 <= 6 * 5 + 3)%nat
    /\ through (bufferItem Z.even) (map RValue [1; 2; 3; 4]%Z ++ [RError None]) = Some ([2; 4]%Z, None).
Proof.
  destruct (readStep 2 exampleFlow) as [f| |] eqn:E; [|discriminate|discriminate].
  assert (flowStep (bufferItem Z.even) 1 2 exampleFlow (Ret f)) as Hs by (rewrite <- E; now apply flow_read).
  assert (flows (bufferItem Z.even) 1 2 1 exampleFlow f) as Hf by (eapply flows_S; [exact Hs|apply flows_0]).
  exists f. split; [exact Hs|]. split; [|reflexivity].
  assert ((1 : coro) <> 2)%positive as Hne by discriminate.
  destruct (connector_delivers (bufferItem Z.even) 1 2 Hne 1 (map RValue [1; 2; 3; 4]%Z ++ [RError None]) [2; 4]%Z None 1 f ltac:(lia) eq_refl Hf) as (_ & Hk & _). exact Hk.
Defined.

(** A function that throws ends the task and leaves the queue open: the reader sleeps for ever. *)
Theorem transformer_exception_hangs {In Out} (xform : Result In -> outcome (option (Result Out))) hp hc r rest x n :
  hp <> hc -> xform r = Raise x ->
  exists f, flows xform hp hc 2 (startFlow n (r :: rest)) f /\ got f = [] /\ (forall o, ~ flowStep xform hp hc f o).
Proof.
  intros Hne Hx. set (f0 := startFlow n (r :: rest)). destruct (readStep hc f0) as [f1| |] eqn:E1; [|discriminate|discriminate].
  set (f2 := mkFlow rest (q f1) PDone (gp f1) (got f1) (ended f1) (dispatch hp (sched f1))).
  assert (pumpStep xform hp f1 = Ret f2) as E2 by (injection E1 as <-; unfold pumpStep; cbn [pc up]; rewrite Hx; reflexivity).
  exists f2. split; [|split].
  - eapply flows_S; [rewrite <- E1; apply flow_read|]. { unfold readCan, runnable. cbn. now rewrite bool_decide_eq_true_2 by set_solver. }
    eapply flows_S; [rewrite <- E2; apply flow_pump; now injection E1 as <-|apply flows_0].
  - now injection E1 as <-.
  - intros o Ho. inversion Ho as [? Hc|? Hc]; subst; [discriminate|]. unfold readCan, runnable in Hc. injection E1 as <-. cbn in Hc. rewrite bool_decide_eq_false_2 in Hc by set_solver. discriminate.
Qed.
