(* ===== verification/Connector.v ===== *)
(** [BaseConnector] of [include/crouton/PubSub.hh]: a task passes the items of a series on through the one
    slot of a [SeriesProducer] ([Producer.v]) to the coroutine that awaits the consumer.  The two run in
    any order, over the smallest scheduler ([Cooperative.v]). *)

From S2P Require Import Prelude Lifecycle Scheduler Suspending Errors Cooperative Producer.

Section base.
Context {T : Type} (hp hc : coro).

(** * The two coroutines *)

(** [run] awaits the series, is in [produce] with an item, or is finished. *)
Inductive basePc := BRead | BBlocked (r : Result T) | BDone.

(** The reader has not started, is in [co_await], or got the end. *)
Inductive readerPc := RStart | RBlocked | RDone.

Record Base := mkBase {
  up : list (Result T);
  pair : Pair Coop T;
  pc : basePc;
  rp : readerPc;
  got : list (Result T);
  ended : option (option error)
}.

Definition dispatched (h : coro) (x : Pair Coop T) : Pair Coop T := mkPair (prod x) (cons x) (fired x) (dispatch h (base x)).

Definition errorOf (r : Result T) : option error := match r with RValue _ => None | RError e => e end.

(** The rest of the loop's body, once [produce] can go on. *)
Definition produced (r : Result T) (f : Base) (x : Pair Coop T) : outcome Base :=
  '(b, x) ← produce_resume r x;
  if negb b && bool_decide (errorOf r = None) then
    Ret (mkBase (up f) x BDone (rp f) (got f) (Some (Some (ECrouton Cancelled))))
  else if ok r then Ret (mkBase (up f) x BRead (rp f) (got f) (ended f))
  else Ret (mkBase (up f) x BDone (rp f) (got f) (Some (errorOf r))).

(** [run], from one suspension to the next. *)
Definition baseStep (f : Base) : outcome Base :=
  let x := dispatched hp (pair f) in
  match pc f, up f with
  | BRead, r :: rest =>
      let f := mkBase rest (pair f) BRead (rp f) (got f) (ended f) in
      '(_, x) ← produce x;
      '(ready, x) ← produce_ready x;
      if (ready : bool) then produced r f x
      else '(_, x) ← produce_suspend 0 0 hp x; Ret (mkBase rest x (BBlocked r) (rp f) (got f) (ended f))
  | BBlocked r, _ => produced r f x
  | _, _ => Fault NoFuel
  end.

Definition baseCan (f : Base) : bool :=
  match pc f with
  | BRead => negb (bool_decide (length (up f) = 0%nat))
  | BBlocked _ => runnable hp (base (pair f))
  | BDone => false
  end.

(** The reader awaits: it suspends when the slot is empty. *)
Definition awaitConsumer (f : Base) (x : Pair Coop T) : outcome (bool * Base) :=
  '(ready, x) ← await_ready x;
  if (ready : bool) then Ret (true, mkBase (up f) x (pc f) (rp f) (got f) (ended f))
  else '(_, x) ← await_suspend 0 0 hc x; Ret (false, mkBase (up f) x (pc f) RBlocked (got f) (ended f)).

(** It takes the value; unless it is the last it awaits the next one, and the slot is empty then. *)
Definition takeValue (f : Base) : outcome Base :=
  '(r, x) ← await_resume (pair f);
  let f := mkBase (up f) x (pc f) (rp f) (got f ++ [r]) (ended f) in
  if ok r then '(_, f) ← awaitConsumer f x; Ret f
  else Ret (mkBase (up f) x (pc f) RDone (got f) (ended f)).

Definition readerStep (f : Base) : outcome Base :=
  let x := dispatched hc (pair f) in
  match rp f with
  | RStart => '(ready, f) ← awaitConsumer f x; if (ready : bool) then takeValue f else Ret f
  | RBlocked => takeValue (mkBase (up f) x (pc f) (rp f) (got f) (ended f))
  | RDone => Fault NoFuel
  end.

Definition readerCan (f : Base) : bool := runnable hc (base (pair f)) && match rp f with RDone => false | _ => true end.

Inductive baseRel : Base -> outcome Base -> Prop :=
| base_pump f : baseCan f = true -> baseRel f (baseStep f)
| base_read f : readerCan f = true -> baseRel f (readerStep f).

Inductive bases : nat -> Base -> Base -> Prop :=
| bases_0 f : bases 0 f f
| bases_S n f f1 f2 : baseRel f (Ret f1) -> bases n f1 f2 -> bases (S n) f f2.

(** * Invariant *)

(** The pair while its consumer exists. *)
Definition mkP (lk : bool) (ps cs : Suspension) (v : Result T) (hv : bool) (w : Coop) : Pair Coop T :=
  mkPair (mkProducer lk ps) (Some (mkConsumer lk cs v None hv (negb lk))) [] w.

Definition isDoneB (p : basePc) : bool := match p with BDone => true | _ => false end.
Definition isDoneR (p : readerPc) : bool := match p with RDone => true | _ => false end.

Definition inHand (p : basePc) : list (Result T) := match p with BBlocked r => [r] | _ => [] end.

(** What [handleEnd] is told: also a normal end is reported as cancelled. *)
Definition toldAtEnd (e : option error) : option error := match e with None => Some (ECrouton Cancelled) | e => e end.

Record baseInv (vs : list T) (e : option error) (f : Base) (ps cs : Suspension) (v : Result T) (hv : bool) (w : Coop) : Prop := {
  b_pair : pair f = mkP (negb (isDoneB (pc f))) ps cs v hv w;
  b_data : got f ++ (if hv then [v] else []) ++ inHand (pc f) ++ up f = map RValue vs ++ [RError e];
  b_last : isDoneB (pc f) = true <-> inHand (pc f) ++ up f = [];
  b_ended : ended f = if isDoneB (pc f) then Some (toldAtEnd e) else None;
  b_ps : (ps = Some hp /\ hp ∈ sleeping w /\ hv = true /\ exists r, pc f = BBlocked r)
         \/ (ps = None /\ hp ∉ sleeping w /\ forall r, pc f = BBlocked r -> hv = false);
  b_cs : (cs = Some hc /\ hc ∈ sleeping w /\ hv = false /\ rp f = RBlocked /\ isDoneB (pc f) = false)
         \/ (cs = None /\ hc ∉ sleeping w
             /\ ((rp f = RStart /\ got f = [] /\ vs <> [] /\ isDoneB (pc f) = false /\ (hv = false -> pc f = BRead))
                 \/ (rp f = RBlocked /\ hv = true) \/ (rp f = RDone /\ hv = false /\ isDoneB (pc f) = true)))
}.

Definition weight (f : Base) (hv : bool) (w : Coop) : nat :=
  6 * length (up f) + match pc f with BBlocked _ => 4 | _ => 0 end + (if hv then 2 else 0)
  + (if bool_decide (hc ∈ sleeping w) then 0 else 1) + (if isDoneR (rp f) then 0 else 2).

Definition keepsB (vs : list T) (e : option error) (m : nat) (o : outcome Base) : Prop :=
  exists f ps cs v hv w, o = Ret f /\ baseInv vs e f ps cs v hv w /\ (weight f hv w < m)%nat.

(** Of a list that ends with its only error, a part before the end is values, and the last is the error. *)
Lemma values_then_error vs e (a : list (Result T)) r b :
  a ++ r :: b = map RValue vs ++ [RError e] -> (b = [] /\ r = RError e /\ a = map RValue vs) \/ (b <> [] /\ exists v, r = RValue v).
Proof.
  revert a. induction vs as [|x vs IH]; intros a H; cbn in *.
  - destruct a as [|y a]; [injection H as -> ->; auto|]. injection H as _ H. destruct a; discriminate.
  - destruct a as [|y a].
    + injection H as -> ->. right. split; [now destruct vs|eauto].
    + injection H as -> H. destruct (IH a H) as [(-> & -> & ->)|H']; auto.
Qed.

(** Waking who waits for the slot. *)
Definition wakeS (s : Suspension) (w : Coop) : Coop := match s with Some h => mkCoop (sleeping w ∖ {[h]}) ({[h]} ∪ woken w) | None => w end.

Lemma wake_coop s w : wake true s w = Ret (None, wakeS s w).
Proof. now destruct s. Qed.

(** ** The pump *)

(** The reader while the slot is empty and the series has not ended. *)
Definition waiting (vs : list T) (f : Base) (cs : Suspension) (w : Coop) : Prop :=
  (cs = Some hc /\ hc ∈ sleeping w /\ rp f = RBlocked) \/ (cs = None /\ hc ∉ sleeping w /\ rp f = RStart /\ got f = [] /\ vs <> []).

Lemma produced_keeps vs e r f cs v w m :
  hp <> hc -> got f ++ r :: up f = map RValue vs ++ [RError e] -> hp ∉ sleeping w -> waiting vs f cs w -> ended f = None ->
  (6 * length (up f) + 5 < m)%nat -> keepsB vs e m (produced r f (mkP true None cs v false w)).
Proof.
  intros Hne Hd Hp Hw He Hm. unfold produced, mkP. rewrite (produce_resume_run _ _ _ _ r None (wakeS cs w)); [|done|done|apply wake_coop]. mred.
  assert (hp ∉ sleeping (wakeS cs w) /\ hc ∉ sleeping (wakeS cs w)) as [Hp' Hc'].
  { destruct Hw as [(-> & _)|(-> & Hc & _)]; cbn; set_solver. }
  destruct (values_then_error vs e (got f) r (up f) Hd) as [(Hu & -> & Hg)|(Hu & x & ->)].
  - exists (mkBase (up f) (mkP false None None (RError e) true (wakeS cs w)) BDone (rp f) (got f) (Some (toldAtEnd e))), None, None, (RError e), true, (wakeS cs w).
    split; [destruct e; reflexivity|].
    assert (rp f = RBlocked) as Hrp.
    { destruct Hw as [(_ & _ & ?)|(_ & _ & _ & Hg' & Hv)]; [done|]. rewrite Hg' in Hg. destruct vs; [done|discriminate]. }
    split.
    + split; cbn; rewrite ?Hu, ?Hg; try done; [right; split_and!; done|right; auto 6].
    + unfold weight. cbn [up pc rp]; rewrite Hu, bool_decide_eq_false_2, Hrp by done; cbn; rewrite Hu in Hm; cbn in Hm; lia.
  - eexists _, None, None, (RValue x), true, (wakeS cs w). split; [reflexivity|]. split.
    + split; cbn; rewrite <- ?Hd; try done.
      * right. split_and!; done.
      * right. split_and!; [done|done|]. destruct Hw as [(_ & _ & ?)|(_ & _ & ? & ? & ?)]; [auto|]. left. split_and!; done.
    + unfold weight. cbn [up pc rp]. rewrite bool_decide_eq_false_2 by done. destruct (isDoneR _); lia.
Qed.

Lemma empty_waiting vs e f ps cs v w : baseInv vs e f ps cs v false w -> isDoneB (pc f) = false -> waiting vs f cs w.
Proof.
  intros [_ _ _ _ _ Hc] Hn. destruct Hc as [(-> & ? & _ & ? & _)|(-> & ? & [(? & ? & ? & _ & _)|[(_ & ?)|(_ & _ & ?)]])]; [left|right|discriminate|congruence]; done.
Qed.

Lemma waiting_dispatch vs f f' cs w h : waiting vs f cs w -> rp f' = rp f -> got f' = got f -> waiting vs f' cs (dispatch h w).
Proof. unfold waiting. cbn. intros H -> ->. exact H. Qed.

Lemma baseStep_keeps vs e f ps cs v hv w :
  hp <> hc -> baseInv vs e f ps cs v hv w -> baseCan f = true -> keepsB vs e (weight f hv w) (baseStep f).
Proof.
  intros Hne Hi Hcan. pose proof Hi as [Hpair Hd Hl He Hps Hcs]. unfold baseStep, baseCan in *. unfold dispatched. rewrite Hpair in *. unfold mkP in *. cbn [prod cons fired base] in *.
  destruct (pc f) as [|r|] eqn:Epc; [| |discriminate]; cbn [isDoneB inHand negb app] in *.
  - destruct (up f) as [|r rest] eqn:Eu; [discriminate|].
    assert (ps = None /\ hp ∉ sleeping w) as [-> Hp]. { destruct Hps as [(_ & _ & _ & ? & ?)|(? & ? & _)]; [discriminate|done]. }
    destruct hv.
    + eexists _, (Some hp), cs, v, true, (mkCoop ({[hp]} ∪ sleeping w) (woken w ∖ {[hp]})). split; [reflexivity|].
      assert (got f ++ [v] ++ r :: rest = map RValue vs ++ [RError e]) as Hd' by exact Hd. split.
      * split; cbn; try done.
        -- left. split_and!; [done|set_solver|done|eauto].
        -- destruct Hcs as [(_ & _ & ? & _)|(-> & ? & Hcs)]; [done|]. right. split_and!; [done|set_solver|].
           destruct Hcs as [(? & ? & ? & _ & _)|[?|(_ & ? & _)]]; [left; split_and!; done|auto|done].
      * unfold weight. cbn [up pc rp length sleeping]. rewrite Epc, Eu. cbn [length].
        rewrite (bool_decide_ext (hc ∈ {[hp]} ∪ sleeping w) (hc ∈ sleeping w)) by set_solver. lia.
    + apply produced_keeps; cbn [got up ended rp]; try done.
      * eapply waiting_dispatch; [eapply empty_waiting; [exact Hi|now rewrite Epc]|done|done].
      * unfold weight. rewrite Epc, Eu. cbn [length]. assert (waiting vs f cs w) as Hw by (eapply empty_waiting; [exact Hi|now rewrite Epc]).
        destruct Hw as [(_ & _ & ->)|(_ & _ & -> & _)]; cbn; lia.
  - unfold runnable in Hcan. apply bool_decide_eq_true in Hcan.
    assert (ps = None /\ hv = false) as [-> ->]. { destruct Hps as [(_ & ? & _)|(? & _ & Hv)]; [contradiction|split; [done|now apply (Hv r)]]. }
    assert (waiting vs f cs w) as Hw by (eapply empty_waiting; [exact Hi|now rewrite Epc]).
    apply produced_keeps; try done.
    unfold weight. rewrite Epc. destruct Hw as [(_ & _ & Hr)|(_ & _ & Hr & _ & _)]; rewrite Hr; cbn [isDoneR]; destruct (bool_decide _); lia.
Qed.

(** ** The reader *)

Lemma takeValue_keeps vs e f ps v w m :
  hp <> hc -> pair f = mkP (negb (isDoneB (pc f))) ps None v true w -> hc ∉ sleeping w ->
  got f ++ v :: inHand (pc f) ++ up f = map RValue vs ++ [RError e] ->
  (isDoneB (pc f) = true <-> inHand (pc f) ++ up f = []) -> ended f = (if isDoneB (pc f) then Some (toldAtEnd e) else None) ->
  (ps = Some hp /\ hp ∈ sleeping w /\ isDoneB (pc f) = false) \/ (ps = None /\ hp ∉ sleeping w) ->
  (6 * length (up f) + (match pc f with BBlocked _ => 4 | _ => 0 end) + 2 < m)%nat -> keepsB vs e m (takeValue f).
Proof.
  intros Hne Hpair Hc Hd Hl He Hps Hm. unfold takeValue. rewrite Hpair. unfold mkP.
  destruct (values_then_error vs e (got f) v _ Hd) as [(Hu & -> & Hg)|(Hu & x & ->)].
  - assert (isDoneB (pc f) = true) as Hdn by now apply Hl.
    destruct (pc f) as [|?|] eqn:Epc; [discriminate|discriminate|]. cbn [isDoneB negb inHand app] in *. destruct Hps as [(_ & _ & ?)|(-> & Hp)]; [discriminate|].
    rewrite (await_resume_run _ _ _ _ None w); [|done|done]. mred. cbn [ok].
    eexists _, None, None, (RError e), false, w. split; [reflexivity|]. split.
    + split; cbn; rewrite ?Hu, ?Hg; try done; [apply app_nil_r|right; split_and!; done|right; auto 7].
    + unfold weight. cbn [up pc rp isDoneR]. rewrite Hu in Hm |- *. destruct (bool_decide _); cbn in *; lia.
  - assert (isDoneB (pc f) = false) as Hdn. { destruct (isDoneB (pc f)); [exfalso; apply Hu; now apply Hl|done]. }
    rewrite Hdn in *. cbn [negb]. rewrite (await_resume_run _ _ _ _ None (wakeS ps w)); [|done|apply wake_coop].
    assert (hc ∉ sleeping (wakeS ps w) /\ hp ∉ sleeping (wakeS ps w)) as [Hc' Hp'] by (destruct Hps as [(-> & ? & _)|(-> & ?)]; cbn; set_solver).
    eexists _, None, (Some hc), (RValue x), false, (mkCoop ({[hc]} ∪ sleeping (wakeS ps w)) (woken (wakeS ps w))). split; [reflexivity|]. split.
    + split; cbn; rewrite ?Hdn; try done.
      * rewrite <- app_assoc. exact Hd.
      * right. split_and!; [done|set_solver|done].
      * left. split_and!; [done|set_solver|done|done|done].
    + unfold weight. cbn [up pc rp isDoneR sleeping]. rewrite bool_decide_eq_true_2 by set_solver. lia.
Qed.

Lemma readerStep_keeps vs e f ps cs v hv w :
  hp <> hc -> baseInv vs e f ps cs v hv w -> readerCan f = true -> keepsB vs e (weight f hv w) (readerStep f).
Proof.
  intros Hne [Hpair Hd Hl He Hps Hcs] Hcan. unfold readerCan, runnable in Hcan. apply andb_true_iff in Hcan as [Hc%bool_decide_eq_true Hr].
  rewrite Hpair in Hc. cbn in Hc.
  destruct Hcs as [(_ & ? & _)|(-> & _ & Hcs)]; [contradiction|].
  assert (weight f hv w = 6 * length (up f) + match pc f with BBlocked _ => 4 | _ => 0 end + (if hv then 2 else 0) + 3)%nat as ->.
  { unfold weight. rewrite bool_decide_eq_false_2 by done. destruct (rp f); cbn; [lia|lia|discriminate]. }
  assert (forall f', up f' = up f -> pc f' = pc f -> got f' = got f -> ended f' = ended f ->
    pair f' = mkP (negb (isDoneB (pc f))) ps None v true (dispatch hc w) -> hv = true ->
    keepsB vs e (6 * length (up f) + match pc f with BBlocked _ => 4 | _ => 0 end + 2 + 3) (takeValue f')) as Htake.
  { intros f' E1 E2 E3 E4 E5 ->. eapply takeValue_keeps; rewrite ?E1, ?E2, ?E3, ?E4; try done; [|lia].
    destruct Hps as [(? & ? & _ & r & E)|(? & ? & _)]; [left; rewrite E|right]; done. }
  unfold readerStep, dispatched. rewrite Hpair. cbn [prod cons fired base mkP].
  destruct Hcs as [(Hrp & Hg & Hv & Hdn & Hb)|[(Hrp & ->)|(Hrp & _)]]; rewrite Hrp in *; [|now apply Htake|discriminate].
  rewrite Hdn in *. destruct hv.
  - now apply Htake.
  - specialize (Hb eq_refl). destruct Hps as [(_ & _ & ? & _)|(-> & Hp & _)]; [discriminate|].
    eexists _, None, (Some hc), v, false, (mkCoop ({[hc]} ∪ sleeping w) (woken w ∖ {[hc]})). split; [reflexivity|]. split.
    + split; cbn; rewrite ?Hdn; try done.
      * right. split_and!; [done|set_solver|done].
      * left. split_and!; [done|set_solver|done|done|done].
    + unfold weight. cbn [up pc rp isDoneR sleeping]. rewrite bool_decide_eq_true_2 by set_solver. lia.
Qed.

Lemma baseRel_keeps vs e f ps cs v hv w o :
  hp <> hc -> baseInv vs e f ps cs v hv w -> baseRel f o -> keepsB vs e (weight f hv w) o.
Proof. intros Hne Hi Hr. destruct Hr; [eapply baseStep_keeps|eapply readerStep_keeps]; eauto. Qed.

Lemma bases_inv vs e k f f' : hp <> hc -> bases k f f' -> forall ps cs v hv w, baseInv vs e f ps cs v hv w ->
  exists ps' cs' v' hv' w', baseInv vs e f' ps' cs' v' hv' w' /\ (k + weight f' hv' w' <= weight f hv w)%nat.
Proof.
  intros Hne. induction 1 as [f|k f f1 f2 Hs _ IH]; intros ps cs v hv w Hi; [eexists ps, cs, v, hv, w; split; [done|lia]|].
  destruct (baseRel_keeps _ _ _ _ _ _ _ _ _ Hne Hi Hs) as (f1' & ps1 & cs1 & v1 & hv1 & w1 & [= <-] & Hi1 & Hm).
  destruct (IH _ _ _ _ _ Hi1) as (ps' & cs' & v' & hv' & w' & Hi' & Hm'). exists ps', cs', v', hv', w'. split; [done|lia].
Qed.

Lemma base_stuck vs e f ps cs v hv w :
  baseInv vs e f ps cs v hv w -> (forall o, ~ baseRel f o) -> got f = map RValue vs ++ [RError e] /\ ended f = Some (toldAtEnd e).
Proof.
  intros [Hpair Hd Hl He Hps Hcs] Hno.
  assert (baseCan f = false) as Hb by (destruct (baseCan f) eqn:E; [destruct (Hno _ (base_pump f E))|done]).
  assert (readerCan f = false) as Hr by (destruct (readerCan f) eqn:E; [destruct (Hno _ (base_read f E))|done]).
  unfold baseCan, readerCan, runnable in *. rewrite Hpair in *. cbn [mkP base] in *.
  destruct Hcs as [(_ & _ & -> & _ & Hdn)|(_ & Hc & Hcs)].
  - exfalso. destruct (pc f) as [|r|]; [|destruct Hps as [(_ & _ & ? & _)|(_ & Hp & _)]; [discriminate|]|discriminate].
    + destruct (up f); [|discriminate]. destruct Hl as [_ Hl]. discriminate (Hl eq_refl).
    + rewrite bool_decide_eq_true_2 in Hb by done. discriminate.
  - rewrite bool_decide_eq_true_2 in Hr by done. destruct Hcs as [(E & _)|[(E & _)|(_ & -> & Hdn)]]; [rewrite E in Hr; discriminate..|].
    rewrite Hdn in *. rewrite (proj1 Hl eq_refl), app_nil_r in Hd. done.
Qed.

(** The series is being published: the consumer exists and neither coroutine has run. *)
Definition startBase (vs : list T) (e : option error) : Base :=
  mkBase (map RValue vs ++ [RError e]) (mkP true None None emptyResult false (mkCoop ∅ ∅)) BRead RStart [] None.

Lemma startBase_inv vs e : vs <> [] -> baseInv vs e (startBase vs e) None None emptyResult false (mkCoop ∅ ∅).
Proof.
  intros Hv. split; cbn; try done.
  - split; [discriminate|]. intros []%app_eq_nil. discriminate.
  - right. split_and!; [done|set_solver|done].
  - right. split_and!; [done|set_solver|]. left. split_and!; done.
Qed.

(** A [BaseConnector] passes a series that is not empty on to the one coroutine that awaits its consumer,
    whatever order the two run in: nothing fails, no more than six steps are made per result, and three;
    what was received is the beginning of the series; when no step can be made, all of it and its end
    has been received, and [handleEnd] was called: with the error of the series, but with [Cancelled]
    for an end without error. *)
Theorem base_connector_delivers vs e k f :
  hp <> hc -> vs <> [] -> bases k (startBase vs e) f ->
  (forall o, baseRel f o -> exists f', o = Ret f')
  /\ (k <= 6 * (length vs + 1) + 3)%nat
  /\ (exists rest, got f ++ rest = map RValue vs ++ [RError e])
  /\ ((forall o, ~ baseRel f o) -> got f = map RValue vs ++ [RError e] /\ ended f = Some (toldAtEnd e)).
Proof.
  intros Hne Hv Hf. destruct (bases_inv _ _ _ _ _ Hne Hf _ _ _ _ _ (startBase_inv vs e Hv)) as (ps & cs & v & hv & w & Hi & Hm). split_and!.
  - intros o Ho. destruct (baseRel_keeps _ _ _ _ _ _ _ _ _ Hne Hi Ho) as (f' & _ & _ & _ & _ & _ & -> & _). eauto.
  - unfold weight at 2 in Hm. cbn [startBase up pc rp isDoneR] in Hm. rewrite length_app, length_map in Hm. cbn [length] in Hm. destruct (bool_decide _); lia.
  - destruct Hi as [_ Hd _ _ _ _]. eauto.
  - now apply (base_stuck vs e f ps cs v hv w).
Qed.

Lemma pump_first f f' : baseCan f = true -> baseStep f = Ret f' -> bases 1 f f'.
Proof. intros Hc E. eapply bases_S; [rewrite <- E; now apply base_pump|apply bases_0]. Qed.

(** When the task gets to the end of an empty series before the consumer is awaited, awaiting it fails. *)
Theorem empty_series_aborts e : exists f, bases 1 (startBase [] e) f /\ readerStep f = Fault AssertFailed.
Proof. destruct e as [x|]; (eexists; split; [apply pump_first; reflexivity|reflexivity]). Qed.
End base.
Arguments Base : clear implicits.

Lemma base_connector_delivers_witness :
  exists f, bases 1 2 1 (startBase [7%Z; 8%Z] None) f /\ exists rest, got f ++ rest = map RValue [7%Z; 8%Z] ++ [RError None].
Proof.
  assert (bases (T := Z) 1 2 1 (startBase [7%Z; 8%Z] None)
    (mkBase [RValue 8%Z; RError None] (mkP true None None (RValue 7%Z) true (dispatch 1 (mkCoop ∅ ∅))) BRead RStart [] None)) as Hf
    by (apply pump_first; reflexivity).
  eexists. split; [exact Hf|]. assert ((1 : coro) <> 2)%positive as Hne by discriminate.
  destruct (base_connector_delivers 1 2 [7%Z; 8%Z] None 1 _ Hne ltac:(discriminate) Hf) as (_ & _ & Hg & _). exact Hg.
Defined.
