(* ===== verification/FutureImpl.v ===== *)
(** Coroutines that return futures, and two ways to await a future ([include/crouton/Future.hh]): [FutureImpl] sets the
    result when the coroutine's body ends, [NoThrow] gives an awaiter the result instead of throwing,
    and [FutureSeries] makes a future a series ([PubSub.v]) of at most one item. *)

From S2P Require Import Prelude Lifecycle Scheduler Suspending Errors Task Futures PubSub.

(** * Coroutines *)

Section impl.
Context {V : Type}.

Abbreviation World := Scheduler.World.
Abbreviation State := (Futures (W := World) (V := V)).

Definition onLifecycle {A} (m : ST Lifecycle A) : ST State A := onWorld (onLife m).

(** [get_return_object]: the coroutine runs at once; the new future shares the state [f] with it. *)
Definition get_return_object (h : coro) (f : Z) : ST State unit :=
  onLifecycle (created (hcoro h) true);;
  putF f newFuture.

(** [return_value] of a value, an error or a result. *)
Definition return_value (fuel : nat) (me home : Z) (h : coro) (f : Z) (r : Result V) : ST State unit :=
  onLifecycle (returning (hcoro h));;
  setResult fuel me home f r.

Definition unhandled_exception (fuel : nat) (me home : Z) (h : coro) (f : Z) (e : error) : ST State unit :=
  onLifecycle (threw (hcoro h));;
  setResult fuel me home f (RError (Some e)).

(** The already-ready futures. *)
Definition readyFuture (fuel : nat) (me home f : Z) (r : Result V) : ST State unit :=
  putF f newFuture;;
  setResult fuel me home f r.

Definition destroyFuture (f : option Z) : ST State unit := match f with Some f => noFuture f | None => mret tt end.

(** [await_resume] gives the awaiter the value by rvalue reference; [use] is what the awaiter makes of it. *)
Definition await_resume {A} (f : Z) (use : V -> A * V) : ST State A := resultValue f use.

(** How the body of a coroutine ends. *)
Inductive ending := Returns (r : Result V) | Throws (e : error).

Definition endBody (fuel : nat) (me home : Z) (h : coro) (f : Z) (x : ending) : ST State unit :=
  match x with
  | Returns r => return_value fuel me home h f r
  | Throws e => unhandled_exception fuel me home h f e
  end.

Definition resultOf (x : ending) : Result V := match x with Returns r => r | Throws e => RError (Some e) end.

(** * NoThrow *)

(** The coroutine of the future it took, and its state. *)
Record NoThrow := mkNoThrow {
  _handle : coro_handle;
  _state : option Z
}.

Definition theState (n : NoThrow) : ST State Z := match _state n with Some f => mret f | None => crash OutOfBounds end.

Definition nt_await_ready (n : NoThrow) : ST State bool := f ← theState n; hasResult f.

Definition nt_await_suspend (n : NoThrow) (h : coro) : ST State coro_handle :=
  f ← theState n;
  next ← suspendF f h;
  onLifecycle (suspendingToCoro (hcoro h) (_handle n) next).

Definition nt_await_resume (n : NoThrow) : ST State (Result V * NoThrow) :=
  f ← theState n;
  x ← getF f;
  mret (_result x, mkNoThrow (_handle n) None).

(** ** FutureSeries *)

Definition fs_await_ready (n : NoThrow) : ST State bool := match _state n with None => mret true | Some _ => nt_await_ready n end.

Definition fs_await_resume (n : NoThrow) : ST State (Result V * NoThrow) :=
  match _state n with Some _ => nt_await_resume n | None => mret (emptyResult, n) end.

Definition fs_onReady (n : NoThrow) (fn : Z) : ST State unit :=
  match _state n with Some f => onReady f (Some fn) | None => fire fn end.

(** Awaiting it when it need not suspend. *)
Definition awaitFuture : ST (State * NoThrow) (Result V) := fun '(s, n) =>
  '(ready, s) ← fs_await_ready n s;
  if (ready : bool) then '((r, n), s) ← fs_await_resume n s; Ret (r, (s, n)) else Fault NoFuel.

(** The result [r] is there; or it was taken. *)
Definition holds (x : State * NoThrow) (r : option (Result V)) : Prop :=
  match r, _state x.2 with
  | Some r, Some f => exists c o ch, heap x.1 !! f = Some (mkFuture Ready r c ch o)
  | None, None => True
  | _, _ => False
  end.

Lemma await_held s n r : holds (s, n) (Some r) -> exists n', awaitFuture (s, n) = Ret (r, (s, n')) /\ holds (s, n') None.
Proof.
  unfold holds. cbn. destruct (_state n) as [f|] eqn:E; [|done]. intros (c & o & ch & Hf). exists (mkNoThrow (_handle n) None). split; [|done].
  unfold awaitFuture, fs_await_ready, fs_await_resume, nt_await_ready, nt_await_resume, theState, hasResult, mbind, ST_bind. rewrite E.
  unfold mret, ST_ret. rewrite (getF_eq f s _ Hf). cbn. rewrite ?E. cbn. rewrite (getF_eq f s _ Hf). reflexivity.
Qed.

Lemma await_taken s n : holds (s, n) None -> awaitFuture (s, n) = Ret (emptyResult, (s, n)).
Proof. unfold holds. cbn. intros Hn. unfold awaitFuture, fs_await_ready, fs_await_resume. destruct (_state n); [done|]. reflexivity. Qed.

(** A future that has its result is a series: of its value, or of nothing but its error. *)
Definition futureSupplies (x : State * NoThrow) (vs : list V) (e : option error) : Prop :=
  match vs, e with
  | [v], None => holds x (Some (RValue v))
  | [], Some e => holds x (Some (RError (Some e)))
  | [], None => holds x None
  | _, _ => False
  end.

#[export] Program Instance future_iseries : ISeries (State * NoThrow) V := {
  awaitSeries := awaitFuture;
  supplies := futureSupplies
}.
Next Obligation.
  intros [s n] v [|] [|] Hs; try done. destruct (await_held s n _ Hs) as (n' & E & Hn). eauto.
Qed.
Next Obligation.
  intros [s n] [e|] Hs.
  - destruct (await_held s n _ Hs) as (n' & E & Hn). eauto.
  - rewrite (await_taken s n Hs). eauto.
Qed.
End impl.
Arguments NoThrow : clear implicits.
Arguments ending : clear implicits.

(** * Properties *)

(** The result of a coroutine reaches whoever awaits its future: when its body returns, or throws, while a coroutine [c] sleeps on
    the future, [c] wakes up; awaiting gives the value or throws the error; [NoThrow] gives the result. *)
Theorem coroutine_result {V} me home h c f o x (s : Futures (W := Scheduler.World) (V := V)) :
  heap s !! f = Some (mkFuture Waiting emptyResult (Some c) None o) -> empty (resultOf x) = false ->
  schedOk (world s) -> schedCurrent (world s) h -> h ∉ waiting (world s) -> c ∈ waiting (world s) ->
  exists s', endBody 1 me home h f x s = Ret (tt, s')
    /\ schedOk (world s') /\ waiting (world s') = waiting (world s) ∖ {[c]} /\ Suspending.runnable (world s') = {[c]} ∪ Suspending.runnable (world s)
    /\ (forall A (use : V -> A * V), await_resume f use s' = handedOut f use (resultOf x) s')
    /\ (forall hd, nt_await_resume (mkNoThrow hd (Some f)) s' = Ret ((resultOf x, mkNoThrow hd None), s'))
    /\ fired s' = fired s ++ match o with Some fn => [fn] | None => [] end.
Proof.
  intros Hf Hr Hw Hc Hn Hcw.
  destruct (ending_ok (world s) h (match x with Returns _ => returning (hcoro h) | Throws _ => threw (hcoro h) end)) as (w1 & E1 & Hw1 & Ew1 & Er1 & _); try done; [destruct x; auto|].
  destruct (sched_wake w1 (bool_decide (me = home)) c Hw1) as (w2 & E2 & Hw2 & Ew2 & Er2 & _); [now rewrite Ew1|].
  set (s1 := mkFutures (heap s) (fired s) (deferred s) w1).
  assert (endBody 1 me home h f x s = setResult 1 me home f (resultOf x) s1) as ->.
  { unfold endBody, return_value, unhandled_exception, onLifecycle, onWorld, zoom, mbind at 1 2, ST_bind at 1 2. destruct x; rewrite E1; reflexivity. }
  set (s2 := mkFutures (<[f := mkFuture Ready (resultOf x) None None None]> (heap s)) (fired s ++ match o with Some fn => [fn] | None => [] end) (deferred s) w2).
  assert (setResult 1 me home f (resultOf x) s1 = Ret (tt, s2)) as ->.
  { cbn [setResult]. unfold mbind, ST_bind. rewrite (updF_eq f _ s1 (mkFuture Waiting emptyResult (Some c) None o)) by exact Hf.
    unfold assert. rewrite Hr. cbn [negb].
    rewrite (getF_eq f _ (mkFuture Waiting (resultOf x) (Some c) None o)) by apply lookup_insert_eq.
    unfold putF at 1, modify at 1. cbn [Futures._state setState _result _suspension _chained _onReady].
    unfold wakeF, mbind, ST_bind. rewrite (getF_eq f _ (mkFuture Ready (resultOf x) (Some c) None o)) by apply lookup_insert_eq.
    unfold onWorld, zoom. cbn [world setHeap s1 _suspension]. change (suspensionWakeUp ?a ?b ?w) with (wake a b w) in E2. rewrite E2.
    rewrite (updF_eq f _ _ (mkFuture Ready (resultOf x) (Some c) None o)) by apply lookup_insert_eq.
    rewrite (getF_eq f _ (mkFuture Ready (resultOf x) None None o)) by apply lookup_insert_eq.
    unfold s2. destruct o as [fn|]; cbn; unfold setHeap; cbn; rewrite !insert_insert_eq, ?app_nil_r; done. }
  assert (getF f s2 = Ret (mkFuture Ready (resultOf x) None None None, s2)) as Hg by apply getF_eq, lookup_insert_eq.
  exists s2. split; [reflexivity|]. split_and!; cbn [world s2]; try done; [now rewrite Ew2, Ew1|now rewrite Er2, Er1| |].
  - intros A use. now apply resultValue_ready.
  - intros hd. unfold nt_await_resume, theState, mbind, ST_bind. cbn [_state]. unfold mret, ST_ret. now rewrite Hg.
Qed.
