(* ===== verification/IStream.v ===== *)
(** The abstract stream of [include/crouton/io/IStream.hh] and the reading and
    writing functions of [src/io/IStream.cc] that are built on its virtual methods.

    [IStream] is the interface: the virtual methods, and what a stream promises of
    them in terms of the bytes still to be read before EOF ([content]) and the bytes
    written ([sent]).  Everything that uses a stream ([Framer], [WebSocket]) is proved
    against it; [UVStream] shows that the libuv stream keeps the promises.

    An AWAIT of a future that holds an error raises it, so a method is a state
    transformer that may [Raise]. *)

From S2P Require Import Prelude StringUtils.

Local Open Scope Z_scope.

(** * The interface *)

Class IStream (S : Type) := {
  isOpen : S -> bool;
  open : ST S unit;
  readNoCopy : Z -> ST S bytes;
  peekNoCopy : ST S bytes;
  writeBytes : bytes -> ST S unit;

  content : S -> bytes;
  sent : S -> bytes;
  (** open, and EOF has not been reported yet *)
  readable : S -> Prop;
  writable : S -> Prop;

  readable_open s : readable s -> isOpen s = true;
  read_law n s : readable s -> 0 < n ->
    exists a s', readNoCopy n s = Ret (a, s') /\ Z.of_nat (length a) <= n /\ content s = a ++ content s'
      /\ sent s' = sent s /\ (writable s -> writable s')
      /\ (a = [] -> content s = []) /\ (a <> [] -> readable s');
  peek_law s : readable s ->
    exists a r s', peekNoCopy s = Ret (a, s') /\ content s = a ++ r
      /\ (a = [] -> content s = [])
      /\ (a <> [] -> forall n, (0 < n <= length a)%nat ->
            exists s'', readNoCopy (Z.of_nat n) s' = Ret (take n a, s'') /\ content s'' = drop n (content s)
              /\ sent s'' = sent s /\ (writable s -> writable s'') /\ readable s'');
  write_law b s : writable s ->
    exists s', writeBytes b s = Ret (tt, s') /\ content s' = content s /\ sent s' = sent s ++ b
      /\ (readable s -> readable s') /\ writable s'
}.

(** * Occurrences of a string *)

Definition occ (e s : bytes) (k : nat) : Prop := take (length e) (drop k s) = e.

Lemma isPrefix_occ e s : isPrefix e s = true <-> take (length e) s = e.
Proof.
  revert s. induction e as [|x e IH]; intros [|y s]; cbn; try done.
  rewrite andb_true_iff, Z.eqb_eq, IH. split; [intros [-> ->]; done|intros [= -> ->]; done].
Qed.

Lemma findSub_some e s n : findSub e s = Some n -> occ e s n /\ forall k, (k < n)%nat -> ~ occ e s k.
Proof.
  revert n. induction s as [|x s IH]; intros n; cbn [findSub]; destruct (isPrefix e _) eqn:E.
  - intros [= <-]. split; [unfold occ; rewrite drop_0; now apply isPrefix_occ|lia].
  - done.
  - intros [= <-]. split; [unfold occ; rewrite drop_0; now apply isPrefix_occ|lia].
  - destruct (findSub e s) as [m|]; [|done]. intros [= <-]. destruct (IH m eq_refl) as [H1 H2].
    split; [exact H1|]. intros [|k] Hk; [|apply (H2 k); lia].
    unfold occ. rewrite drop_0. intros H. apply isPrefix_occ in H. congruence.
Qed.

Lemma occ_length e s k : e <> [] -> occ e s k -> (k + length e <= length s)%nat.
Proof.
  unfold occ. intros He H. apply (f_equal length) in H. rewrite length_take, length_drop in H.
  destruct e; [done|]. cbn [length] in *. lia.
Qed.

Lemma findSub_none e s k : e <> [] -> findSub e s = None -> ~ occ e s k.
Proof.
  intros He. revert k. induction s as [|x s IH]; intros k.
  - intros _ H. apply occ_length in H; [|done]. destruct e; [done|cbn in H; lia].
  - cbn [findSub]. destruct (isPrefix e _) eqn:E; [done|]. destruct (findSub e s) eqn:F; [done|]. intros _.
    destruct k as [|k]; [|now apply (IH k)]. unfold occ. rewrite drop_0. intros H. apply isPrefix_occ in H. congruence.
Qed.

Lemma findSub_first e s n : e <> [] -> occ e s n -> (forall k, (k < n)%nat -> ~ occ e s k) -> findSub e s = Some n.
Proof.
  intros He Hn Hk. destruct (findSub e s) as [m|] eqn:E.
  - apply findSub_some in E as [H1 H2]. f_equal. destruct (lt_eq_lt_dec m n) as [[H|H]|H]; [now apply Hk in H1|done|now apply H2 in Hn].
  - now apply (findSub_none e s n) in E.
Qed.

Lemma findSub_absent e s : (forall k, ~ occ e s k) -> findSub e s = None.
Proof. intros H. destruct (findSub e s) eqn:E; [|done]. apply findSub_some in E as [E _]. now apply H in E. Qed.

Lemma occ_take e s m k : e <> [] -> occ e (take m s) k <-> occ e s k /\ (k + length e <= m)%nat.
Proof.
  intros He. unfold occ. split.
  - intros H. assert (k + length e <= length (take m s))%nat as Hl by now apply occ_length.
    rewrite length_take in Hl. split; [|lia]. rewrite <- H at 2. rewrite skipn_firstn_comm, take_take.
    f_equal. lia.
  - intros [H Hm]. rewrite skipn_firstn_comm, take_take. rewrite Nat.min_l by lia. done.
Qed.

Lemma occ_drop e s m k : occ e (drop m s) k <-> occ e s (m + k).
Proof. unfold occ. now rewrite drop_drop. Qed.

Section functions.
Context {S : Type} {IS : IStream S}.

(** * Reading *)

(** The loop of [read]: [buf] is what has been read. *)
Fixpoint readLoop (fuel : nat) (size : Z) (buf : bytes) : ST S bytes :=
  if Z.of_nat (length buf) <? size then
    match fuel with
    | O => crash NoFuel
    | Datatypes.S f =>
        bytes ← readNoCopy (size - Z.of_nat (length buf));
        match bytes with
        | [] => mret buf
        | _ => readLoop f size (buf ++ bytes)
        end
    end
  else mret buf.

(** [read] into a buffer of [size] bytes: the bytes read. *)
Definition read (size : Z) : ST S bytes := readLoop (Z.to_nat size) size [].

Definition readExactly (size : Z) : ST S bytes :=
  buf ← read size;
  if Z.of_nat (length buf) <? size then throw (ECrouton UnexpectedEOF) else mret buf.

Definition kGrowSize : Z := 32768.

(** The loop of [readString]; every round but the last reads [kGrowSize] bytes. *)
Fixpoint readStringLoop (fuel : nat) (maxLen : Z) (data : bytes) : ST S bytes :=
  if Z.of_nat (length data) <? maxLen then
    match fuel with
    | O => crash NoFuel
    | Datatypes.S f =>
        let n := Z.min kGrowSize (maxLen - Z.of_nat (length data)) in
        more ← read n;
        if Z.of_nat (length more) <? n then mret (data ++ more)
        else readStringLoop f maxLen (data ++ more)
    end
  else mret data.

Definition readString (fuel : nat) (maxLen : Z) : ST S bytes := readStringLoop fuel maxLen [].

Definition SIZE_MAX : Z := 2 ^ 64 - 1.

Definition readAll (fuel : nat) : ST S bytes := readString fuel SIZE_MAX.

(** [data.find(end, startingAt)]. *)
Definition findFrom (sub s : bytes) (start : nat) : option nat :=
  match findSub sub (drop start s) with Some n => Some (start + n)%nat | None => None end.

(** One round of [readUntil] after the peek: the number of bytes of [peek] that are
    added to [data], and whether [end] was found. *)
Definition untilRound (end_ : bytes) (maxLen : Z) (data peek : bytes) : nat * bool :=
  let dataLen := length data in
  let split :=
    match data with
    | [] => None
    | _ => findFrom end_ (data ++ take (Nat.min (length end_ - 1) (length peek)) peek)
             (dataLen - Nat.min (length end_) dataLen)
    end in
  match split with
  | Some found => (Z.to_nat (Z.min (Z.of_nat (found + length end_)) maxLen) - dataLen, true)%nat
  | None =>
      match findSub end_ peek with
      | Some found => (Z.to_nat (Z.min (Z.of_nat (found + length end_)) (maxLen - Z.of_nat dataLen)), true)
      | None => (Z.to_nat (Z.min (Z.of_nat (length peek)) (maxLen - Z.of_nat dataLen)), false)
      end
  end.

Fixpoint readUntilLoop (fuel : nat) (end_ : bytes) (maxLen : Z) (data : bytes) : ST S bytes :=
  if Z.of_nat (length data) <? maxLen then
    match fuel with
    | O => crash NoFuel
    | Datatypes.S f =>
        peek ← peekNoCopy;
        let peek := take (Z.to_nat (Z.min (Z.of_nat (length peek)) (maxLen - Z.of_nat (length data)))) peek in
        let '(n, found) := untilRound end_ maxLen data peek in
        _ ← readNoCopy (Z.of_nat n);
        if (found : bool) then mret (data ++ take n peek) else readUntilLoop f end_ maxLen (data ++ take n peek)
    end
  else mret data.

Definition readUntil (fuel : nat) (end_ : bytes) (maxLen : Z) : ST S bytes :=
  _ ← assert (negb (bool_decide (end_ = [])));
  _ ← assert (Z.of_nat (length end_) <=? maxLen);
  readUntilLoop fuel end_ maxLen [].

(** [generate], run to its end: the strings it yields. *)
Fixpoint generateLoop (fuel : nat) : ST S (list bytes) :=
  match fuel with
  | O => crash NoFuel
  | Datatypes.S f =>
      bytes ← readNoCopy 65536;
      match bytes with
      | [] => mret []
      | _ => rest ← generateLoop f; mret (bytes :: rest)
      end
  end.

Definition generate (fuel : nat) : ST S (list bytes) :=
  o ← gets isOpen;
  _ ← when (negb o) open;
  generateLoop fuel.

(** * Writing *)

Definition writeString (str : bytes) : ST S unit := writeBytes str.

Fixpoint writeAllOf (buffers : list bytes) : ST S unit :=
  match buffers with
  | [] => mret tt
  | b :: r => _ ← writeBytes b; writeAllOf r
  end.

Definition writeBuffers (buffers : list bytes) : ST S unit :=
  match buffers with
  | [b] => writeBytes b
  | _ => writeAllOf buffers
  end.

(** * Lemmas *)

Lemma readLoop_spec fuel size buf s :
  readable s -> size - Z.of_nat (length buf) <= Z.of_nat fuel ->
  exists s', readLoop fuel size buf s = Ret (buf ++ take (Z.to_nat size - length buf) (content s), s')
    /\ content s' = drop (Z.to_nat size - length buf) (content s) /\ sent s' = sent s
    /\ (writable s -> writable s')
    /\ ((Z.to_nat size - length buf <= length (content s))%nat -> readable s').
Proof.
  revert buf s. induction fuel as [|f IH]; intros buf s Hr Hf.
  - exists s. cbn [readLoop]. rewrite (proj2 (Z.ltb_ge _ _)) by lia.
    replace (Z.to_nat size - length buf)%nat with 0%nat by lia. now rewrite take_0, drop_0, app_nil_r.
  - cbn [readLoop]. destruct (Z.ltb_spec (Z.of_nat (length buf)) size) as [Hlt|Hge]; cycle 1.
    { exists s. replace (Z.to_nat size - length buf)%nat with 0%nat by lia. now rewrite take_0, drop_0, app_nil_r. }
    destruct (read_law (size - Z.of_nat (length buf)) s Hr) as (a & s1 & E & Hlen & Hc & Hs & Hw & He & Hr'); [lia|].
    unfold mbind, ST_bind. rewrite E. destruct a as [|x a].
    + exists s1. cbn [app] in Hc. rewrite He by done. rewrite take_nil, drop_nil, app_nil_r. split_and!; try done.
      * now rewrite <- Hc, He.
      * cbn. lia.
    + destruct (IH (buf ++ x :: a) s1) as (s2 & E2 & Hc2 & Hs2 & Hw2 & Hr2); [now apply Hr'|rewrite length_app; cbn [length]; lia|].
      exists s2. rewrite E2, Hc2, Hs2, Hs, Hc. rewrite length_app.
      rewrite take_app, drop_app, (take_ge (x :: a)), (drop_ge (x :: a)) by lia.
      replace (Z.to_nat size - length buf - length (x :: a))%nat with (Z.to_nat size - (length buf + length (x :: a)))%nat by lia.
      rewrite <- app_assoc. split_and!; try done; [now auto|]. rewrite length_app. intros H. apply Hr2.
      rewrite length_app. lia.
Qed.

Lemma read_spec size s :
  readable s ->
  exists s', read size s = Ret (take (Z.to_nat size) (content s), s')
    /\ content s' = drop (Z.to_nat size) (content s) /\ sent s' = sent s
    /\ (writable s -> writable s')
    /\ ((Z.to_nat size <= length (content s))%nat -> readable s').
Proof.
  intros Hr. destruct (readLoop_spec (Z.to_nat size) size [] s Hr) as (s' & E & H); [cbn; lia|].
  cbn [length app] in *. rewrite Nat.sub_0_r in *. now exists s'.
Qed.

Lemma readStringLoop_spec fuel maxLen data s :
  readable s -> Z.of_nat (length (content s)) < kGrowSize * Z.of_nat fuel \/ maxLen <= Z.of_nat (length data) ->
  exists s', readStringLoop fuel maxLen data s = Ret (data ++ take (Z.to_nat maxLen - length data) (content s), s')
    /\ content s' = drop (Z.to_nat maxLen - length data) (content s) /\ sent s' = sent s.
Proof.
  revert data s. induction fuel as [|f IH]; intros data s Hr Hf; cbn [readStringLoop];
    destruct (Z.ltb_spec (Z.of_nat (length data)) maxLen) as [Hlt|Hge]; [lia| | |];
    try (exists s; replace (Z.to_nat maxLen - length data)%nat with 0%nat by lia; now rewrite take_0, drop_0, app_nil_r).
  destruct Hf as [Hf|]; [|lia]. cbv zeta.
  assert (exists n, n = Z.min kGrowSize (maxLen - Z.of_nat (length data))) as [n En] by eauto. rewrite <- En.
  destruct (read_spec n s Hr) as (s1 & E & Hc & Hs & _ & Hr'). unfold mbind, ST_bind. rewrite E. unfold kGrowSize in *.
  rewrite length_take. destruct (Z.ltb_spec (Z.of_nat (Nat.min (Z.to_nat n) (length (content s)))) n) as [H|H].
  - exists s1. rewrite Hc, !take_ge, !drop_ge by lia. now split_and!.
  - destruct (IH (data ++ take (Z.to_nat n) (content s)) s1) as (s2 & E2 & Hc2 & Hs2).
    + apply Hr'. lia.
    + rewrite Hc, length_drop, length_app, length_take. lia.
    + exists s2. rewrite E2, Hc2, Hs2, Hs, Hc, drop_drop, <- app_assoc, length_app, length_take.
      replace (Z.to_nat maxLen - length data)%nat
        with (Z.to_nat n + (Z.to_nat maxLen - (length data + Z.to_nat n `min` length (content s))))%nat by lia.
      now rewrite <- (take_take_drop (content s)).
Qed.

(** * [readUntil] *)

Section until.
Context (e : bytes) (He : e <> []).

(** One round finds the first occurrence in what has been seen, if there is one. *)
Lemma untilRound_spec M data peek n found :
  (forall k, ~ occ e data k) -> Z.of_nat (length data + length peek) <= M -> peek <> [] ->
  untilRound e M data peek = (n, found) ->
  (0 < n <= length peek)%nat /\
  if found then exists i, findSub e (data ++ peek) = Some i /\ (i + length e = length data + n)%nat
  else n = length peek /\ findSub e (data ++ peek) = None.
Proof.
  intros Hno HM Hpk. set (W := data ++ peek). unfold untilRound.
  assert (0 < length e)%nat as He0 by (destruct e; [done|cbn; lia]).
  assert (data = take (length data) W) as Ed by (unfold W; now rewrite take_app_length).
  assert (peek = drop (length data) W) as Ep by (unfold W; now rewrite drop_app_length).
  assert (length W = length data + length peek)%nat as HW by (unfold W; apply length_app).
  assert (forall k, occ e W k -> (length data < k + length e)%nat) as Hafter.
  { intros k Hk. destruct (decide (length data < k + length e)%nat); [done|]. exfalso. apply (Hno k).
    rewrite Ed. apply occ_take; [done|]. split; [done|lia]. }
  assert (data ++ take (Nat.min (length e - 1) (length peek)) peek
          = take (length data + Nat.min (length e - 1) (length peek)) W) as ED.
  { unfold W. rewrite take_app_add. done. }
  set (st := (length data - Nat.min (length e) (length data))%nat).
  set (split := match data with [] => None | _ => _ end).
  assert (match split with
          | Some i => occ e W i /\ forall k, (k < i)%nat -> ~ occ e W k
          | None => forall k, (k < length data)%nat -> ~ occ e W k end) as Hsplit.
  { unfold split. destruct data as [|d0 data']; [cbn; lia|]. rewrite ED. unfold findFrom.
    destruct (findSub _ _) as [i|] eqn:E.
    - apply findSub_some in E as [E1 E2]. apply occ_drop, occ_take in E1 as [E1 E3]; [|done]. split; [done|].
      intros k Hk Hocc. pose proof (Hafter k Hocc). apply (E2 (k - st)%nat); [lia|].
      apply occ_drop, occ_take; [done|]. fold st. replace (st + (k - st))%nat with k by lia. split; [done|lia].
    - intros k Hk Hocc. pose proof (Hafter k Hocc). pose proof (occ_length _ _ _ He Hocc) as Hl.
      apply (findSub_none e _ (k - st) He E). apply occ_drop, occ_take; [done|]. fold st.
      replace (st + (k - st))%nat with k by lia. split; [done|]. lia. }
  destruct split as [i|].
  - intros [= <- <-]. destruct Hsplit as [H1 H2]. pose proof (occ_length _ _ _ He H1). pose proof (Hafter i H1).
    split; [lia|]. exists i. split; [now apply findSub_first|]. lia.
  - destruct (findSub e peek) as [i|] eqn:E.
    + apply findSub_some in E as [E1 E2]. rewrite Ep in E1. apply occ_drop in E1.
      pose proof (occ_length _ _ _ He E1). intros [= <- <-]. split; [lia|].
      exists (length data + i)%nat. split; [|lia]. apply findSub_first; [done|done|].
      intros k Hk. destruct (decide (k < length data)%nat); [now apply Hsplit|]. intros Hocc.
      apply (E2 (k - length data)%nat); [lia|]. rewrite Ep. apply occ_drop. now replace (length data + (k - length data))%nat with k by lia.
    + intros [= <- <-]. destruct peek as [|x peek]; [done|]. cbn [length] in *. split; [lia|]. split; [lia|].
      apply findSub_absent. intros k Hocc. destruct (decide (k < length data)%nat); [now apply (Hsplit k)|].
      apply (findSub_none e _ (k - length data) He E). rewrite Ep. apply occ_drop.
      now replace (length data + (k - length data))%nat with k by lia.
Qed.

(** What [readUntil] should return of the bytes [c]. *)
Definition until (M : Z) (c : bytes) : bytes :=
  match findSub e (take (Z.to_nat M) c) with
  | Some i => take (i + length e) c
  | None => take (Z.to_nat M) c
  end.

Lemma until_prefix M w r i :
  Z.of_nat (length w) <= M -> findSub e w = Some i -> until M (w ++ r) = take (i + length e) w.
Proof.
  intros HM E. apply findSub_some in E as [E1 E2]. pose proof (occ_length _ _ _ He E1) as Hl. unfold until.
  assert (w = take (length w) (w ++ r)) as Ew by now rewrite take_app_length.
  rewrite (findSub_first e _ i); [|done| |].
  - rewrite take_app_le by lia. done.
  - apply occ_take; [done|]. rewrite Ew in E1. apply occ_take in E1 as [E1 _]; [|done]. split; [done|lia].
  - intros k Hk H. apply occ_take in H as [H _]; [|done]. apply (E2 k Hk). rewrite Ew. apply occ_take; [done|].
    split; [done|lia].
Qed.

Lemma readUntilLoop_spec fuel M data s :
  readable s -> (forall k, ~ occ e data k) -> Z.of_nat (length data) <= M ->
  (length (content s) <= fuel)%nat ->
  findSub e (take (Z.to_nat M) (data ++ content s)) <> None \/ M <= Z.of_nat (length (data ++ content s)) ->
  exists s', readUntilLoop fuel e M data s = Ret (until M (data ++ content s), s')
    /\ until M (data ++ content s) ++ content s' = data ++ content s /\ sent s' = sent s.
Proof.
  revert data s. induction fuel as [|f IH]; intros data s Hr Hno HM Hf Hex; cbn [readUntilLoop];
    (destruct (Z.ltb_spec (Z.of_nat (length data)) M) as [Hlt|Hge];
     [|exists s; unfold until; replace (Z.to_nat M) with (length data) by lia;
       rewrite take_app_length, findSub_absent by done; now split_and!]).
  { destruct (content s) eqn:E; [|cbn in Hf; lia]. rewrite app_nil_r in Hex. destruct Hex as [Hex|]; [|lia].
    destruct Hex. apply findSub_absent. intros k H. apply occ_take in H as [H _]; [|done]. now apply (Hno k). }
  destruct (peek_law s Hr) as (a & r & s1 & E & Hc & Hempty & Hread).
  unfold mbind at 1, ST_bind at 1. rewrite E.
  destruct (decide (a = [])) as [->|Ha].
  { rewrite Hempty, app_nil_r in Hex by done. destruct Hex as [Hex|]; [|lia].
    destruct Hex. apply findSub_absent. intros k H. apply occ_take in H as [H _]; [|done]. now apply (Hno k). }
  set (m := Z.to_nat (Z.min (Z.of_nat (length a)) (M - Z.of_nat (length data)))).
  assert ((0 < m <= length a)%nat /\ Z.of_nat (length data + m) <= M) as [Hm1 Hm2].
  { unfold m. destruct a; [done|]. cbn [length]. split; [|lia]. lia. }
  assert (length (take m a) = m) as Hlm by (rewrite length_take; lia).
  destruct (untilRound e M data (take m a)) as [n found] eqn:ER.
  destruct (untilRound_spec M data (take m a) n found Hno) as [Hn Hres]; [lia|intros F; rewrite F in Hlm; cbn in Hlm; lia|done|].
  rewrite Hlm in Hn. destruct (Hread Ha n ltac:(lia)) as (s2 & E2 & Hc2 & Hs2 & _ & Hr2).
  unfold mbind, ST_bind. rewrite E2, take_take, Nat.min_l by lia.
  assert (data ++ content s = (data ++ take n a) ++ content s2) as Hsplit.
  { rewrite Hc2, Hc, drop_app_le, <- app_assoc by lia. now rewrite (app_assoc (take n a)), take_drop. }
  destruct found.
  - destruct Hres as (i & Ei & Hi). exists s2.
    assert (until M (data ++ content s) = data ++ take n a) as ->.
    { rewrite Hc. rewrite <- (take_drop m a) at 1. rewrite <- !app_assoc, app_assoc.
      rewrite (until_prefix M _ _ i) by (done || (rewrite length_app, Hlm; lia)).
      rewrite Hi, take_app_add, take_take. do 2 f_equal. lia. }
    split_and!; [done|now rewrite Hsplit|done].
  - destruct Hres as [-> Hnone]. rewrite Hlm in *.
    destruct (IH (data ++ take m a) s2) as (s3 & E3 & Hc3 & Hs3).
    + done.
    + intros k. now apply findSub_none.
    + rewrite length_app, Hlm. lia.
    + rewrite Hc2, length_drop. lia.
    + rewrite <- Hsplit. exact Hex.
    + exists s3. rewrite Hsplit, E3, Hs3. now split_and!.
Qed.
End until.

Lemma generateLoop_spec fuel s :
  readable s -> (length (content s) < fuel)%nat ->
  exists cs s', generateLoop fuel s = Ret (cs, s') /\ concat cs = content s /\ Forall (fun c => c <> []) cs
    /\ content s' = [] /\ sent s' = sent s.
Proof.
  revert s. induction fuel as [|f IH]; intros s Hr Hf; [lia|]. cbn [generateLoop].
  destruct (read_law 65536 s Hr ltac:(lia)) as (a & s1 & E & _ & Hc & Hs & _ & He & Hr').
  unfold mbind, ST_bind. rewrite E. destruct a as [|x a].
  - exists [], s1. specialize (He eq_refl). split_and!; try done. cbn [app] in Hc. congruence.
  - destruct (IH s1) as (cs & s2 & E2 & H1 & H2 & H3 & H4); [now apply Hr'|rewrite Hc, length_app in Hf; cbn [length] in Hf; lia|].
    rewrite E2. exists ((x :: a) :: cs), s2. cbn [concat]. rewrite H1, Hc, H4. split_and!; try done. now constructor.
Qed.

Lemma writeAllOf_spec buffers s :
  writable s ->
  exists s', writeAllOf buffers s = Ret (tt, s') /\ content s' = content s /\ sent s' = sent s ++ concat buffers
    /\ (readable s -> readable s') /\ writable s'.
Proof.
  revert s. induction buffers as [|b r IH]; intros s Hw; cbn [writeAllOf concat].
  - exists s. now rewrite app_nil_r.
  - destruct (write_law b s Hw) as (s1 & E & Hc & Hs & Hr & Hw1). unfold mbind, ST_bind. rewrite E.
    destruct (IH s1 Hw1) as (s2 & E2 & Hc2 & Hs2 & Hr2 & Hw2). exists s2. rewrite E2, Hc2, Hs2, Hs, Hc, app_assoc.
    split_and!; auto.
Qed.

Lemma writeBuffers_spec buffers s :
  writable s ->
  exists s', writeBuffers buffers s = Ret (tt, s') /\ content s' = content s /\ sent s' = sent s ++ concat buffers
    /\ (readable s -> readable s') /\ writable s'.
Proof.
  intros Hw. destruct buffers as [|b [|b' r]]; cbn [writeBuffers]; try (now apply writeAllOf_spec).
  destruct (write_law b s Hw) as (s' & H). exists s'. cbn [concat]. now rewrite app_nil_r.
Qed.

(** C25: on every stream, [read] returns the next [n] bytes, or all there are before EOF;
    [readExactly] the same or UnexpectedEOF; [readString] and so [readAll] need one
    round for each 32768 bytes; [generate] yields all the bytes in non-empty pieces.
    Each leaves the stream after what it returned. *)
Theorem istream_readers s n fuel :
  readable s -> (length (content s) < fuel)%nat ->
  (exists s', read n s = Ret (take (Z.to_nat n) (content s), s') /\ content s' = drop (Z.to_nat n) (content s))
  /\ (if n <=? Z.of_nat (length (content s))
      then exists s', readExactly n s = Ret (take (Z.to_nat n) (content s), s')
      else readExactly n s = Raise (ECrouton UnexpectedEOF))
  /\ (exists s', readString (Z.to_nat (Z.of_nat (length (content s)) / kGrowSize + 1)) n s = Ret (take (Z.to_nat n) (content s), s')
        /\ content s' = drop (Z.to_nat n) (content s))
  /\ (exists cs s', generate fuel s = Ret (cs, s') /\ concat cs = content s /\ Forall (fun c => c <> []) cs).
Proof.
  intros Hr Hf. destruct (read_spec n s Hr) as (s1 & E1 & Hc1 & _). split_and!.
  - now exists s1.
  - unfold readExactly, mbind, ST_bind. rewrite E1, length_take.
    destruct (Z.leb_spec n (Z.of_nat (length (content s)))).
    + exists s1. now rewrite (proj2 (Z.ltb_ge _ _)) by lia.
    + now rewrite (proj2 (Z.ltb_lt _ _)) by lia.
  - destruct (readStringLoop_spec (Z.to_nat (Z.of_nat (length (content s)) / kGrowSize + 1)) n [] s Hr) as (s2 & E2 & Hc2 & _).
    { left. unfold kGrowSize. Z.to_euclidean_division_equations. lia. }
    exists s2. unfold readString. rewrite E2, Hc2. cbn [length app]. now rewrite Nat.sub_0_r.
  - destruct (generateLoop_spec fuel s Hr Hf) as (cs & s3 & E3 & H1 & H2 & _). exists cs, s3.
    unfold generate, mbind, ST_bind, gets. rewrite (readable_open s Hr). now split_and!.
Qed.

(** When [e] ends within the next [maxLen] bytes, or there are that many,
    [readUntil] returns the bytes through the first occurrence of [e] wherever the
    reads split it, or else [maxLen] bytes, and consumes exactly what it returns. *)
Theorem istream_readUntil e maxLen fuel s :
  readable s -> e <> [] -> Z.of_nat (length e) <= maxLen -> (length (content s) <= fuel)%nat ->
  findSub e (take (Z.to_nat maxLen) (content s)) <> None \/ maxLen <= Z.of_nat (length (content s)) ->
  exists r s', readUntil fuel e maxLen s = Ret (r, s') /\ r ++ content s' = content s /\ sent s' = sent s
    /\ r = match findSub e (take (Z.to_nat maxLen) (content s)) with
           | Some i => take (i + length e) (content s)
           | None => take (Z.to_nat maxLen) (content s)
           end.
Proof.
  intros Hr He Hlen Hf Hex.
  destruct (readUntilLoop_spec e He fuel maxLen [] s) as (s' & E & Hc & Hs); [done| |cbn; lia|done|done|].
  { intros k H. apply occ_length in H; [|done]. destruct e; [done|cbn in H; lia]. }
  exists (until e maxLen (content s)), s'. split_and!; [|done|done|done].
  unfold readUntil. rewrite bool_decide_false by done. unfold mbind, ST_bind, assert. cbn [negb].
  now rewrite (proj2 (Z.leb_le _ _)).
Qed.
End functions.

(** * A stream of chunks *)

(** The simplest stream: the pieces that will arrive, and what was written. *)
Module Chunks.

Record t := mk { pieces : list bytes; out : bytes }.

Definition pull (n : nat) (c : bytes) (r : list bytes) : list bytes :=
  match drop n c with [] => r | c' => c' :: r end.

#[global] Instance stream : IStream t.
Proof.
  refine {|
    isOpen _ := true;
    open := mret tt;
    readNoCopy n := fun s =>
      match pieces s with
      | [] => Ret ([], s)
      | c :: r => Ret (take (Z.to_nat n) c, mk (pull (Z.to_nat n) c r) (out s))
      end;
    peekNoCopy := fun s => Ret (match pieces s with [] => [] | c :: _ => c end, s);
    writeBytes b := fun s => Ret (tt, mk (pieces s) (out s ++ b));
    content s := concat (pieces s);
    sent := out;
    readable s := Forall (fun c => c <> []) (pieces s);
    writable _ := True
  |}.
  all: assert (forall n c r, c ++ concat r = take n c ++ concat (pull n c r)) as Hpull
    by (intros n c r; unfold pull; destruct (drop n c) eqn:E;
        rewrite <- (take_drop n c) at 1; rewrite E; [now rewrite app_nil_r|now rewrite <- app_assoc]).
  all: assert (forall n c r, Forall (fun c => c <> []) r -> Forall (fun c : bytes => c <> []) (pull n c r)) as Hok
    by (intros n c r Hr; unfold pull; destruct (drop n c); [done|now constructor]).
  - done.
  - intros n [[|c r] o] Hr Hn; cbn [pieces out] in *.
    + exists [], (mk [] o). split_and!; try done. cbn. lia.
    + apply Forall_cons in Hr as [Hc Hr]. eexists _, _. split; [reflexivity|]. cbn [pieces out concat].
      split; [rewrite length_take; lia|]. split; [apply Hpull|]. split; [done|]. split; [done|].
      split; [|intros _; now apply Hok]. intros E. apply (f_equal length) in E. rewrite length_take in E. destruct c; [done|cbn in E; lia].
  - intros [[|c r] o] Hr; cbn [pieces out] in *.
    + now exists [], [], (mk [] o).
    + apply Forall_cons in Hr as [Hc Hr]. exists c, (concat r), (mk (c :: r) o). split_and!; try done.
      intros _ n Hn. eexists. rewrite Nat2Z.id. cbn [pieces]. split; [reflexivity|]. cbn [pieces out concat].
      split_and!; try done; [|now apply Hok]. rewrite (Hpull n c r), drop_app_length'; [done|]. rewrite length_take. lia.
  - intros b s _. now exists (mk (pieces s) (out s ++ b)).
Defined.

End Chunks.

Lemma istream_readers_witness :
  exists s', read 4 (Chunks.mk [lit "ab"; lit "cde"] []) = Ret (lit "abcd", s').
Proof.
  destruct (@istream_readers Chunks.t Chunks.stream (Chunks.mk [lit "ab"; lit "cde"] []) 4 6) as ((s' & E & _) & _).
  - now repeat constructor.
  - vm_compute. lia.
  - exists s'. exact E.
Defined.

Lemma istream_readUntil_witness :
  exists r s', readUntil 10 (lit "--") 100 (Chunks.mk [lit "a-"; lit "-b"] []) = Ret (r, s') /\ r = lit "a--".
Proof.
  destruct (@istream_readUntil Chunks.t Chunks.stream (lit "--") 100 10 (Chunks.mk [lit "a-"; lit "-b"] []))
    as (r & s' & E & _ & _ & Er).
  - now repeat constructor.
  - done.
  - now vm_compute.
  - vm_compute. lia.
  - left. now vm_compute.
  - exists r, s'. split; [exact E|]. rewrite Er. now vm_compute.
Defined.

(** At EOF before the delimiter [readUntil] neither returns nor throws: no number of
    rounds is enough. *)
Theorem readUntil_eof_diverges fuel :
  readUntil fuel (lit "-") 100 (Chunks.mk [lit "a"] []) = Fault NoFuel.
Proof.
  unfold readUntil, mbind, ST_bind, assert. rewrite bool_decide_false by done. cbn [negb].
  change (Z.of_nat (length (lit "-")) <=? 100) with true. cbv iota.
  assert (forall f, readUntilLoop f (lit "-") 100 (lit "a") (Chunks.mk [] []) = Fault NoFuel) as H.
  { induction f as [|f IH]; [done|]. cbn [readUntilLoop]. change (Z.of_nat (length (lit "a")) <? 100) with true.
    cbv iota. exact IH. }
  destruct fuel as [|f]; [done|]. cbn [readUntilLoop length]. exact (H f).
Qed.
