(* ===== verification/UVStream.v ===== *)
(** The libuv stream of [src/io/uv/Stream.cc] (and [Buffer] of
    [include/crouton/util/Bytes.hh]), and the proof that it is an [IStream].

    libuv is outside: [net] is the list of read callbacks it still has to make, in
    order, each with data or an error code.  A callback is made either while a read is
    waiting for it (the AWAIT in [fillInputBuf]) or unrequested, between operations
    ([unrequested]).  Waiting when no callback will come never ends ([Fault NoFuel]).

    [readNoCopy] and [peekNoCopy] are not coroutines: what they do until they return their future
    ([readStart], [peekStart]), with the guard against reentrancy, is apart from what is done when
    the future has its result ([awaitBuf], [readFromInput]). *)

From S2P Require Import Prelude StringUtils IStream.

Local Open Scope Z_scope.

(** * Buffers *)

Definition kCapacity : Z := 65536 - 2 * 4.

(** [size] is the length of [bdata]: what lies beyond is never read. *)
Record Buffer := mkBuffer { bdata : bytes; used : nat }.

Definition available (b : Buffer) : nat := (length (bdata b) - used b)%nat.

Definition bempty (b : Buffer) : bool := (length (bdata b) =? used b)%nat.

Definition bbytes (b : Buffer) : bytes := drop (used b) (bdata b).

Definition bread (maxLen : Z) (b : Buffer) : bytes * Buffer :=
  let n := Nat.min (Z.to_nat maxLen) (available b) in
  (take n (bbytes b), mkBuffer (bdata b) (used b + n)).

Definition unRead (len : nat) (b : Buffer) : outcome Buffer :=
  _ ← precondition (len <=? used b)%nat;
  Ret (mkBuffer (bdata b) (used b - len)).

(** * The stream *)

(** [nread]: as many bytes of data, possibly none, or a negative error code. *)
Inductive event := Data (d : bytes) | Err (code : Z).

Definition UV_EOF : Z := -4095.
Definition UV_EINVAL : Z := -22.

Definition isEOF (err : Z) : bool := (err =? UV_EOF) || (err =? UV_EINVAL).

Record Stream := mkStream {
  _stream : bool;
  _input : list Buffer;
  _spare : list Buffer;
  _readingBuf : option Buffer;
  _readFuture : bool;
  _readError : Z;
  _inputBuf : option Buffer;
  _reading : bool;
  _readBusy : bool;
  net : list event;
  out : bytes
}.

Definition isOpenUV (s : Stream) : bool := _stream s.

Definition bytesAvailable (s : Stream) : nat :=
  match _inputBuf s with Some b => available b | None => 0 end.

Definition set_input l s := mkStream (_stream s) l (_spare s) (_readingBuf s) (_readFuture s) (_readError s) (_inputBuf s) (_reading s) (_readBusy s) (net s) (out s).
Definition set_spare l s := mkStream (_stream s) (_input s) l (_readingBuf s) (_readFuture s) (_readError s) (_inputBuf s) (_reading s) (_readBusy s) (net s) (out s).
Definition set_readingBuf b s := mkStream (_stream s) (_input s) (_spare s) b (_readFuture s) (_readError s) (_inputBuf s) (_reading s) (_readBusy s) (net s) (out s).
Definition set_readFuture b s := mkStream (_stream s) (_input s) (_spare s) (_readingBuf s) b (_readError s) (_inputBuf s) (_reading s) (_readBusy s) (net s) (out s).
Definition set_readError e s := mkStream (_stream s) (_input s) (_spare s) (_readingBuf s) (_readFuture s) e (_inputBuf s) (_reading s) (_readBusy s) (net s) (out s).
Definition set_inputBuf b s := mkStream (_stream s) (_input s) (_spare s) (_readingBuf s) (_readFuture s) (_readError s) b (_reading s) (_readBusy s) (net s) (out s).
Definition set_reading b s := mkStream (_stream s) (_input s) (_spare s) (_readingBuf s) (_readFuture s) (_readError s) (_inputBuf s) b (_readBusy s) (net s) (out s).
Definition set_readBusy b s := mkStream (_stream s) (_input s) (_spare s) (_readingBuf s) (_readFuture s) (_readError s) (_inputBuf s) (_reading s) b (net s) (out s).
Definition set_net l s := mkStream (_stream s) (_input s) (_spare s) (_readingBuf s) (_readFuture s) (_readError s) (_inputBuf s) (_reading s) (_readBusy s) l (out s).
Definition set_out o s := mkStream (_stream s) (_input s) (_spare s) (_readingBuf s) (_readFuture s) (_readError s) (_inputBuf s) (_reading s) (_readBusy s) (net s) o.
Definition set_stream b s := mkStream b (_input s) (_spare s) (_readingBuf s) (_readFuture s) (_readError s) (_inputBuf s) (_reading s) (_readBusy s) (net s) (out s).

Definition newStream (evs : list event) : Stream := mkStream false [] [] None false 0 None false false evs [].

Definition opened : ST Stream unit :=
  o ← gets _stream;
  _ ← assert (negb o);
  modify (set_stream true).

Definition _close : ST Stream unit :=
  busy ← gets _readBusy;
  _ ← assert (negb busy);
  _ ← modify (set_inputBuf None);
  modify (set_stream false).

(** ** libuv's callbacks *)

Definition read_start : ST Stream unit :=
  r ← gets _reading;
  when (negb r) (modify (set_reading true)).

Definition _allocCallback : ST Stream unit :=
  sp ← gets _spare;
  match reverse sp with
  | [] => modify (set_readingBuf (Some (mkBuffer [] 0)))
  | b :: r => _ ← modify (set_readingBuf (Some b)); modify (set_spare (reverse r))
  end.

(** [_readCallback]; the first part of the result is what a waiting [_readFuture] is
    given: a buffer, the null pointer at EOF, or an error.  The first assertion on data is [assert(nread != 0)],
    which guards errors as well. *)
Definition _readCallback (ev : event) : ST Stream (option (option Buffer)) :=
  err ← (match ev with
         | Data d =>
             _ ← assert (0 <? length d)%nat;
             _ ← assert (Z.of_nat (length d) <=? kCapacity);
             _ ← modify (set_readingBuf (Some (mkBuffer d 0)));
             mret 0
         | Err code => _ ← assert (negb (code =? 0)); mret code
         end);
  waiting ← gets _readFuture;
  if (waiting : bool) then
    _ ← modify (set_readFuture false);
    if err =? 0 then
      b ← gets _readingBuf;
      _ ← modify (set_readingBuf None);
      mret (Some b)
    else if isEOF err then mret (Some None)
    else throw (EUV err)
  else
    _ ← (if err =? 0 then
           b ← gets _readingBuf;
           _ ← modify (set_readingBuf None);
           match b with
           | Some b => modify (fun s => set_input (_input s ++ [b]) s)
           | None => crash AssertFailed
           end
         else modify (set_readError err));
    _ ← modify (set_reading false);
    mret None.

(** The next callback of libuv. *)
Definition nextEvent : ST Stream (option (option Buffer)) :=
  n ← gets net;
  match n with
  | [] => crash NoFuel
  | ev :: r => _ ← modify (set_net r); _ ← _allocCallback; _readCallback ev
  end.

(** A callback that no read is waiting for; libuv makes them while reading. *)
Definition unrequested : ST Stream unit := _ ← nextEvent; mret tt.

(** ** Reading *)

(** [readBuf]: the future it returns has its result, or ([None]) it is the one that [_readFuture] will resolve. *)
Definition readBuf : ST Stream (option (option Buffer)) :=
  o ← gets _stream; rf ← gets _readFuture;
  _ ← assert (o && negb rf);
  inp ← gets _input;
  match inp with
  | b :: r => _ ← modify (set_input r); mret (Some (Some b))
  | [] =>
      err ← gets _readError;
      if negb (err =? 0) then
        _ ← modify (set_readError 0);
        if isEOF err then mret (Some None) else throw (EUV err)
      else
        _ ← read_start;
        _ ← modify (set_readFuture true);
        mret None
  end.

(** The end of [fillInputBuf], from the result of [AWAIT readBuf()] on. *)
Definition gotBuf (b : option Buffer) : ST Stream bytes :=
  _ ← modify (set_inputBuf b);
  mret (match b with Some b => bbytes b | None => [] end).

(** [fillInputBuf] up to its AWAIT, and on to its end when that does not suspend it. *)
Definition fillInputBuf : ST Stream (option bytes) :=
  o ← gets _stream; busy ← gets _readBusy;
  _ ← assert (o && busy);
  ib ← gets _inputBuf;
  _ ← (match ib with
       | Some b => when (available b =? 0)%nat
                     (_ ← modify (fun s => set_spare (_spare s ++ [b]) s); modify (set_inputBuf None))
       | None => mret tt
       end);
  ib ← gets _inputBuf;
  match ib with
  | Some b => mret (Some (bbytes b))
  | None =>
      r ← readBuf;
      match r with
      | Some b => a ← gotBuf b; mret (Some a)
      | None => mret None
      end
  end.

(** It is resumed by libuv's next callback. *)
Definition awaitBuf : ST Stream bytes :=
  r ← nextEvent;
  match r with
  | Some b => gotBuf b
  | None => crash AssertFailed
  end.

(** [NotReentrant nr(_readBusy)] around what a call does until it returns. *)
Definition notReentrant {A} (m : ST Stream A) : ST Stream A :=
  busy ← gets _readBusy;
  _ ← (if (busy : bool) then throw (ECrouton LogicError) else mret tt);
  _ ← modify (set_readBusy true);
  a ← m;
  _ ← modify (set_readBusy false);
  mret a.

Definition readFromInput (maxLen : Z) : ST Stream bytes :=
  ib ← gets _inputBuf;
  match ib with
  | Some b => _ ← modify (set_inputBuf (Some (bread maxLen b).2)); mret (bread maxLen b).1
  | None => mret []
  end.

Definition hasInput (s : Stream) : bool :=
  match _inputBuf s with Some b => negb (bempty b) | None => false end.

(** The call of [readNoCopy]; the callback of [then] runs at once when [fillInputBuf] did not suspend. *)
Definition readStart (maxLen : Z) : ST Stream (option bytes) :=
  o ← gets _stream;
  _ ← assert o;
  notReentrant (
    has ← gets hasInput;
    if (has : bool) then a ← readFromInput maxLen; mret (Some a)
    else
      f ← fillInputBuf;
      match f with
      | Some _ => a ← readFromInput maxLen; mret (Some a)
      | None => mret None
      end).

(** [AWAIT readNoCopy(maxLen)]. *)
Definition readNoCopyUV (maxLen : Z) : ST Stream bytes :=
  f ← readStart maxLen;
  match f with
  | Some a => mret a
  | None => _ ← awaitBuf; readFromInput maxLen
  end.

Definition peekStart : ST Stream (option bytes) :=
  o ← gets _stream;
  _ ← assert o;
  notReentrant (
    has ← gets hasInput;
    if negb has then fillInputBuf
    else ib ← gets _inputBuf; mret (Some (match ib with Some b => bbytes b | None => [] end))).

(** [AWAIT peekNoCopy()]. *)
Definition peekNoCopyUV : ST Stream bytes :=
  f ← peekStart;
  match f with
  | Some a => mret a
  | None => awaitBuf
  end.

(** ** Writing *)

Definition kMaxBufs : nat := 8.

(** [write]; libuv sends the buffers in order. *)
Definition writeUV (bufs : list bytes) : ST Stream unit :=
  o ← gets _stream;
  _ ← assert o;
  if (kMaxBufs <? length bufs)%nat then throw (ECrouton InvalidArgument)
  else modify (fun s => set_out (out s ++ concat bufs) s).

(** * The libuv stream is an [IStream] *)

(** What libuv will deliver: data, at least a byte and at most a buffer at a time, and then EOF. *)
Inductive goodNet : list event -> Prop :=
| good_eof code : isEOF code = true -> goodNet [Err code]
| good_data d r : d <> [] -> Z.of_nat (length d) <= kCapacity -> goodNet r -> goodNet (Data d :: r).

Fixpoint netBytes (l : list event) : bytes :=
  match l with
  | Data d :: r => d ++ netBytes r
  | _ => []
  end.

Definition freshBuf (b : Buffer) : Prop := used b = 0%nat /\ bdata b <> [].

(** The bytes behind the current buffer. *)
Definition behind (s : Stream) : bytes :=
  concat (map bbytes (_input s)) ++ (if _readError s =? 0 then netBytes (net s) else []).

Definition inputBytes (s : Stream) : bytes := match _inputBuf s with Some b => bbytes b | None => [] end.

Record good (busy : bool) (s : Stream) : Prop := {
  g_open : _stream s = true;
  g_future : _readFuture s = false;
  g_busy : _readBusy s = busy;
  g_buf : match _inputBuf s with Some b => (used b <= length (bdata b))%nat | None => True end;
  g_input : Forall freshBuf (_input s);
  g_net : _readError s = 0 /\ goodNet (net s) \/ _readError s <> 0 /\ isEOF (_readError s) = true /\ net s = []
}.

Ltac run := unfold mbind, ST_bind, gets, modify, assert, when, mret, ST_ret, crash, throw.

Lemma alloc_spec s : exists s', _allocCallback s = Ret (tt, s')
  /\ _stream s' = _stream s /\ _readFuture s' = _readFuture s /\ _readBusy s' = _readBusy s
  /\ _inputBuf s' = _inputBuf s /\ _input s' = _input s /\ _readError s' = _readError s /\ net s' = net s /\ out s' = out s.
Proof. unfold _allocCallback. run. destruct (reverse (_spare s)); eexists; (split; [reflexivity|]); done. Qed.

(** A waiting read gets the next data, or EOF. *)
Lemma nextEvent_waiting s :
  _readFuture s = true -> goodNet (net s) -> _readError s = 0 ->
  exists r s', nextEvent s = Ret (Some r, s')
    /\ _stream s' = _stream s /\ _readFuture s' = false /\ _readBusy s' = _readBusy s /\ _inputBuf s' = _inputBuf s
    /\ _input s' = _input s /\ _readError s' = 0 /\ out s' = out s
    /\ match r with
       | Some b => freshBuf b /\ goodNet (net s') /\ netBytes (net s) = bdata b ++ netBytes (net s')
       | None => netBytes (net s) = [] /\ net s' = []
       end.
Proof.
  intros Hf Hn He. unfold nextEvent. unfold mbind at 1, ST_bind at 1, gets at 1. destruct Hn as [code Hc|d r Hd Hcap Hn].
  - destruct (alloc_spec (set_net [] s)) as (s1 & E & H1 & H2 & H3 & H4 & H5 & H6 & H7 & H8).
    run. rewrite E. unfold _readCallback. run.
    assert (negb (code =? 0) = true /\ code =? 0 = false) as [-> ->].
    { unfold isEOF, UV_EOF, UV_EINVAL in Hc. rewrite orb_true_iff, !Z.eqb_eq in Hc. destruct Hc as [-> | ->]; done. }
    rewrite H2. cbn [_readFuture set_net]. rewrite Hf, Hc. eexists None, _. split; [reflexivity|].
    cbn. rewrite H1, H3, H4, H5, H6, H7, H8. now split_and!.
  - destruct (alloc_spec (set_net r s)) as (s1 & E & H1 & H2 & H3 & H4 & H5 & H6 & H7 & H8).
    run. rewrite E. unfold _readCallback. run. assert (0 <? length d = true)%nat as -> by (now destruct d). rewrite (proj2 (Z.leb_le _ _) Hcap).
    cbn [_readFuture set_readingBuf]. rewrite H2. cbn [_readFuture set_net]. rewrite Hf. cbn [Z.eqb].
    eexists (Some (mkBuffer d 0)), _. split; [reflexivity|]. cbn. rewrite H1, H3, H4, H5, H6, H7, H8. now split_and!.
Qed.

(** A read waits for libuv: nothing is there. *)
Record waits (busy : bool) (s : Stream) : Prop := {
  v_open : _stream s = true;
  v_future : _readFuture s = true;
  v_busy : _readBusy s = busy;
  v_input : _input s = [];
  v_inputBuf : _inputBuf s = None;
  v_net : _readError s = 0 /\ goodNet (net s)
}.

(** The buffer [r] was handed over: the stream went from [s] to [s']. *)
Definition handed (busy : bool) (r : option Buffer) (s s' : Stream) : Prop :=
  out s' = out s /\ _inputBuf s' = _inputBuf s /\ _stream s' = true /\ _readBusy s' = busy
  /\ match r with
     | Some b => freshBuf b /\ good busy s' /\ behind s = bdata b ++ behind s'
     | None => behind s = [] /\ behind s' = []
     end.

Lemma readBuf_spec s :
  good true s -> _inputBuf s = None ->
  exists r s', readBuf s = Ret (r, s')
    /\ match r with
       | Some b => handed true b s s'
       | None => waits true s' /\ behind s' = behind s /\ out s' = out s
       end.
Proof.
  intros [Ho Hf Hb Hbuf Hin Hn] Hib. unfold readBuf. run. rewrite Ho, Hf. cbn [andb negb].
  destruct (_input s) as [|b r] eqn:Ei.
  - destruct Hn as [[He Hn]|(He & Heof & Hnet)].
    + rewrite He. cbn [Z.eqb negb]. unfold read_start. run. unfold behind.
      destruct (_reading s); cbn [negb]; exists None; eexists; (split; [reflexivity|]); cbn; rewrite Ei, He; (split; [|done]); constructor; cbn; auto.
    + rewrite (proj2 (Z.eqb_neq _ 0) He), Heof. cbn [negb]. exists (Some None), (set_readError 0 s). split; [reflexivity|].
      split_and!; try done; unfold behind; cbn [_input _readError net set_readError]; rewrite Ei, ?(proj2 (Z.eqb_neq _ 0) He), ?Hnet; done.
  - exists (Some (Some b)), (set_input r s). split; [reflexivity|]. apply Forall_cons in Hin as [Hb' Hin].
    split_and!; try done. unfold behind. rewrite Ei. cbn [map concat _input set_input _readError net].
    rewrite <- app_assoc. unfold bbytes at 1. destruct Hb' as [-> _]. now rewrite drop_0.
Qed.

Lemma hasInput_bytes s : good true s \/ good false s -> hasInput s = negb (bool_decide (inputBytes s = [])).
Proof.
  intros Hg. assert (match _inputBuf s with Some b => (used b <= length (bdata b))%nat | None => True end) as Hbuf
    by (destruct Hg as [Hg|Hg]; apply Hg).
  unfold hasInput, inputBytes. destruct (_inputBuf s) as [b|]; [|done]. f_equal. unfold bempty, bbytes.
  destruct (Nat.eqb_spec (length (bdata b)) (used b)) as [E|E]; symmetry.
  - apply bool_decide_true. rewrite drop_ge by lia. done.
  - apply bool_decide_false. intros F. apply (f_equal length) in F. rewrite length_drop in F. cbn in F. lia.
Qed.

(** The input buffer was filled with [a]; nothing only at EOF. *)
Definition filled (busy : bool) (a : bytes) (s s' : Stream) : Prop :=
  out s' = out s /\ inputBytes s' = a /\ _stream s' = true /\ _readBusy s' = busy
  /\ (a = [] -> behind s = [] /\ behind s' = [] /\ _inputBuf s' = None)
  /\ (a <> [] -> good busy s' /\ behind s = a ++ behind s').

Lemma gotBuf_spec busy r s s1 : handed busy r s s1 -> exists a s', gotBuf r s1 = Ret (a, s') /\ filled busy a s s'.
Proof.
  intros (H1 & H2 & H3 & H4 & H5). exists (match r with Some b => bbytes b | None => [] end), (set_inputBuf r s1). split; [reflexivity|].
  unfold filled. cbn [out set_inputBuf _stream _readBusy _inputBuf inputBytes]. split_and!; try done.
  - intros Ha. destruct r as [b|]; [|destruct H5; done]. destruct H5 as ((Hu & Hd) & _). unfold bbytes in Ha. rewrite Hu, drop_0 in Ha. done.
  - intros Ha. destruct r as [b|]; [|done]. destruct H5 as ((Hu & Hd) & [Go Gf Gb _ Gi Gn] & Hbeh).
    split; [constructor; try done; cbn; lia|]. rewrite Hbeh. unfold bbytes. rewrite Hu, drop_0. done.
Qed.

(** The next callback resumes a read that waits. *)
Lemma awaitBuf_spec busy s : waits busy s -> exists a s', awaitBuf s = Ret (a, s') /\ filled busy a s s'.
Proof.
  intros [Ho Hf Hb Hin Hib [He Hn]].
  destruct (nextEvent_waiting s) as (r & s1 & E & G1 & G2 & G3 & G4 & G5 & G6 & G7 & G8); [done..|].
  unfold awaitBuf, mbind, ST_bind. rewrite E. apply gotBuf_spec. unfold handed. rewrite G1, G3, G4. split_and!; try done.
  unfold behind. rewrite Hin, He, G5, G6, Hin. cbn [map concat app Z.eqb].
  destruct r as [b|]; [destruct G8 as (F1 & F2 & F3)|destruct G8 as [F1 F2]; now rewrite F1, F2]. split_and!; try done.
  constructor; [now rewrite G1|done|now rewrite G3|now rewrite G4, Hib|now rewrite G5, Hin|now left].
Qed.

(** The used-up buffer is recycled. *)
Lemma streamRecycle_spec s :
  good true s -> inputBytes s = [] ->
  exists s0, (match _inputBuf s with
      | Some b => when (available b =? 0)%nat
                    (_ ← modify (fun s => set_spare (_spare s ++ [b]) s); modify (set_inputBuf None))
      | None => mret tt
      end) s = Ret (tt, s0) /\ good true s0 /\ _inputBuf s0 = None /\ behind s0 = behind s /\ out s0 = out s.
Proof.
  intros [Ho Hf Hb Hbuf Hin Hn] Hi. unfold inputBytes in Hi. destruct (_inputBuf s) as [b|] eqn:Eb.
  - unfold bbytes in Hi. apply (f_equal length) in Hi. rewrite length_drop in Hi.
    unfold available. rewrite Hi. cbn [length Nat.eqb]. eexists. split; [reflexivity|]. split_and!; try done; now constructor.
  - exists s. split_and!; try done. constructor; try done. now rewrite Eb.
Qed.

Lemma fillInputBuf_spec s :
  good true s -> inputBytes s = [] ->
  exists f s', fillInputBuf s = Ret (f, s')
    /\ match f with
       | Some a => filled true a s s'
       | None => waits true s' /\ behind s' = behind s /\ out s' = out s
       end.
Proof.
  intros Hg Hi. destruct (streamRecycle_spec s Hg Hi) as (s0 & E0 & Hg0 & Hi0 & Hb0 & Ho0).
  destruct (readBuf_spec s0 Hg0 Hi0) as (r & s1 & E & H1). unfold fillInputBuf. unfold mbind, ST_bind, gets, assert in *.
  rewrite (g_open _ _ Hg), (g_busy _ _ Hg). cbn [andb]. rewrite E0, Hi0, E. destruct r as [r|].
  - destruct (gotBuf_spec true r s0 s1 H1) as (a & s' & Ea & Hf). rewrite Ea. exists (Some a), s'. split; [reflexivity|].
    unfold filled in *. now rewrite <- Hb0, <- Ho0.
  - exists None, s1. split; [reflexivity|]. now rewrite <- Hb0, <- Ho0.
Qed.

Definition contentUV (s : Stream) : bytes := inputBytes s ++ behind s.

Lemma readFromInput_spec busy n s :
  0 < n -> good busy s ->
  exists s', readFromInput n s = Ret (take (Z.to_nat n) (inputBytes s), s')
    /\ inputBytes s' = drop (Z.to_nat n) (inputBytes s) /\ good busy s' /\ out s' = out s /\ behind s' = behind s.
Proof.
  intros Hn [Ho Hf Hb Hbuf Hin Hnet]. unfold readFromInput. run. unfold inputBytes.
  destruct (_inputBuf s) as [b|] eqn:Eb.
  - exists (set_inputBuf (Some (bread n b).2) s). cbn [bread fst snd set_inputBuf _inputBuf bbytes used bdata].
    assert (length (bbytes b) = available b) as Hl by (unfold bbytes, available; now rewrite length_drop).
    split_and!; try done.
    + destruct (decide (Z.to_nat n <= available b)%nat) as [H|H]; [now rewrite Nat.min_l by lia|].
      rewrite Nat.min_r by lia. rewrite !take_ge by lia. done.
    + unfold bbytes. cbn [bdata used]. rewrite drop_drop. unfold available in *.
      destruct (decide (Z.to_nat n <= length (bdata b) - used b)%nat) as [H|H]; [now rewrite Nat.min_l by lia|].
      rewrite Nat.min_r by lia. rewrite !drop_ge by lia. done.
    + constructor; try done. cbn. unfold available. lia.
  - exists s. rewrite take_nil, drop_nil, Eb. split_and!; try done. constructor; try done. now rewrite Eb.
Qed.

Lemma good_busy b b' s : good b s -> good b' (set_readBusy b' s).
Proof. intros [Ho Hf Hb Hbuf Hin Hnet]. now constructor. Qed.

Lemma notReentrant_free {A} (m : ST Stream A) s a s1 :
  _readBusy s = false -> m (set_readBusy true s) = Ret (a, s1) -> notReentrant m s = Ret (a, set_readBusy false s1).
Proof. intros Hb E. unfold notReentrant. run. now rewrite Hb, E. Qed.

Lemma filled_busy b b' a s s' : filled b a s s' -> filled b' a s (set_readBusy b' s').
Proof. intros (H1 & H2 & H3 & H4 & H5 & H6). split_and!; try done. intros Ha. destruct (H6 Ha) as [Hg Hb]. split; [now apply (good_busy b)|done]. Qed.

Lemma waits_busy b b' s : waits b s -> waits b' (set_readBusy b' s).
Proof. intros [? ? ? ? ? ?]. now constructor. Qed.

(** Reading from the buffer that was just filled. *)
Lemma readFilled busy n a s s2 :
  0 < n -> filled busy a s s2 ->
  exists s3, readFromInput n s2 = Ret (take (Z.to_nat n) a, s3) /\ out s3 = out s /\ _stream s3 = true
    /\ behind s = take (Z.to_nat n) a ++ inputBytes s3 ++ behind s3
    /\ (take (Z.to_nat n) a = [] -> behind s = []) /\ (take (Z.to_nat n) a <> [] -> good busy s3).
Proof.
  intros Hn (H1 & H2 & H3 & H4 & H5 & H6). destruct (decide (a = [])) as [->|Ha].
  - destruct (H5 eq_refl) as (Hb & Hb' & Hib). exists s2. rewrite take_nil. unfold readFromInput. run. rewrite Hib.
    split_and!; try done. now rewrite H2, Hb, Hb'.
  - destruct (H6 Ha) as [Hg Hb]. destruct (readFromInput_spec busy n s2 Hn Hg) as (s3 & E & F1 & F2 & F3 & F4). rewrite H2 in *.
    exists s3. rewrite F1, F3, F4. split_and!; try done; [apply F2|now rewrite app_assoc, take_drop|].
    intros E'. apply (f_equal length) in E'. rewrite length_take in E'. destruct a; [done|]. cbn in E'. lia.
Qed.

(** A call that finds the buffer empty fills it, at once or when libuv's callback comes. *)
Lemma fill_run s : good false s -> inputBytes s = [] ->
  exists f s1, fillInputBuf (set_readBusy true s) = Ret (f, s1)
    /\ match f with
       | Some a => filled true a s s1
       | None => exists a s2, awaitBuf (set_readBusy false s1) = Ret (a, s2) /\ filled false a s s2
       end.
Proof.
  intros Hg Hi. destruct (fillInputBuf_spec _ (good_busy _ true _ Hg) Hi) as (f & s1 & E & H). exists f, s1. split; [exact E|].
  destruct f as [a|]; [exact H|]. destruct H as (Hw & Hb & Ho). destruct (awaitBuf_spec false _ (waits_busy _ false _ Hw)) as (a & s2 & E2 & H2).
  exists a, s2. split; [exact E2|]. unfold filled in *. change (behind (set_readBusy false s1)) with (behind s1) in H2.
  change (out (set_readBusy false s1)) with (out s1) in H2. now rewrite Hb, Ho in H2.
Qed.

Lemma readNoCopyUV_spec n s :
  good false s -> 0 < n ->
  exists a s', readNoCopyUV n s = Ret (a, s') /\ Z.of_nat (length a) <= n /\ contentUV s = a ++ contentUV s'
    /\ out s' = out s /\ (_stream s = true -> _stream s' = true)
    /\ (a = [] -> contentUV s = []) /\ (a <> [] -> good false s')
    /\ (inputBytes s <> [] -> a = take (Z.to_nat n) (inputBytes s)).
Proof.
  intros Hg Hn. pose proof (g_busy _ _ Hg) as Hb. unfold readNoCopyUV, readStart, mbind, ST_bind, gets, assert. rewrite (g_open _ _ Hg).
  pose proof (hasInput_bytes s (or_intror Hg)) as Hh. unfold contentUV. destruct (decide (inputBytes s = [])) as [Hi|Hi].
  - rewrite bool_decide_true in Hh by done. rewrite Hi. cbn [app].
    destruct (fill_run s Hg Hi) as (f & s1 & E & H). destruct f as [a|].
    + destruct (readFilled _ n a s s1 Hn H) as (s3 & E3 & F1 & F2 & F3 & F4 & F5).
      erewrite notReentrant_free; [|done|change (hasInput (set_readBusy true s)) with (hasInput s); rewrite Hh; cbn [negb]; rewrite E, E3; reflexivity].
      exists (take (Z.to_nat n) a), (set_readBusy false s3). split_and!; try done; [rewrite length_take; lia|]. intros Ha. apply (good_busy true). auto.
    + destruct H as (a & s2 & E2 & H). destruct (readFilled _ n a s s2 Hn H) as (s3 & E3 & F1 & F2 & F3 & F4 & F5).
      erewrite notReentrant_free; [|done|change (hasInput (set_readBusy true s)) with (hasInput s); rewrite Hh; cbn [negb]; rewrite E; reflexivity].
      cbn beta iota. rewrite E2. cbn beta iota. rewrite E3. exists (take (Z.to_nat n) a), s3. split_and!; try done. rewrite length_take. lia.
  - rewrite bool_decide_false in Hh by done.
    destruct (readFromInput_spec true n _ Hn (good_busy _ true _ Hg)) as (s2 & E2 & F1 & F2 & F3 & F4).
    erewrite notReentrant_free; [|done|change (hasInput (set_readBusy true s)) with (hasInput s); rewrite Hh; cbn [negb]; rewrite E2; reflexivity].
    change (inputBytes (set_readBusy true s)) with (inputBytes s) in *. change (behind (set_readBusy true s)) with (behind s) in *.
    exists (take (Z.to_nat n) (inputBytes s)), (set_readBusy false s2). change (inputBytes (set_readBusy false s2)) with (inputBytes s2).
    change (behind (set_readBusy false s2)) with (behind s2). rewrite F1, F4. split_and!; try done.
    + rewrite length_take. lia.
    + now rewrite app_assoc, take_drop.
    + intros _. apply F2.
    + intros E'. apply (f_equal length) in E'. rewrite length_take in E'. destruct (inputBytes s); [done|]. cbn in E'. lia.
    + intros _. eapply good_busy; eassumption.
Qed.

Lemma peekNoCopyUV_spec s :
  good false s ->
  exists a s', peekNoCopyUV s = Ret (a, s') /\ out s' = out s
    /\ (a = [] -> contentUV s = [])
    /\ (a <> [] -> good false s' /\ inputBytes s' = a /\ contentUV s' = contentUV s).
Proof.
  intros Hg. pose proof (g_busy _ _ Hg) as Hb. pose proof (hasInput_bytes s (or_intror Hg)) as Hh. unfold peekNoCopyUV, contentUV.
  destruct (decide (inputBytes s = [])) as [Hi|Hi].
  - rewrite bool_decide_true in Hh by done. rewrite Hi. cbn [app]. destruct (fill_run s Hg Hi) as (f & s1 & E & H).
    assert (peekStart s = Ret (f, set_readBusy false s1)) as Es.
    { unfold peekStart, mbind, ST_bind, gets, assert. rewrite (g_open _ _ Hg). apply notReentrant_free; [done|].
      change (hasInput (set_readBusy true s)) with (hasInput s). now rewrite Hh. }
    assert (exists a s', peekNoCopyUV s = Ret (a, s') /\ filled false a s s') as (a & s' & Ea & H1 & H2 & H3 & H4 & H5 & H6).
    { unfold peekNoCopyUV, mbind, ST_bind. rewrite Es. destruct f as [a|]; [exists a, (set_readBusy false s1); split; [done|now apply (filled_busy true)]|].
      destruct H as (a & s2 & E2 & H). eauto. }
    exists a, s'. split; [exact Ea|]. split; [done|]. split; [intros Ha; apply (H5 Ha)|].
    intros Ha. destruct (H6 Ha) as [Hg2 Hbh]. split_and!; [done|done|]. now rewrite H2, Hbh.
  - rewrite bool_decide_false in Hh by done.
    assert (peekStart s = Ret (Some (inputBytes s), set_readBusy false (set_readBusy true s))) as Es.
    { unfold peekStart, mbind, ST_bind, gets, assert. rewrite (g_open _ _ Hg). apply notReentrant_free; [done|].
      change (hasInput (set_readBusy true s)) with (hasInput s). now rewrite Hh. }
    unfold mbind, ST_bind. rewrite Es. exists (inputBytes s), (set_readBusy false (set_readBusy true s)). split_and!; try done.
    intros _. split; [eapply good_busy, good_busy; eassumption|]. now split.
Qed.

(** A callback that comes while no read is waiting is kept for later. *)
Lemma unrequested_spec s :
  good false s -> _readError s = 0 ->
  exists s', unrequested s = Ret (tt, s') /\ good false s' /\ contentUV s' = contentUV s.
Proof.
  intros [Ho Hf Hb Hbuf Hin Hn] He. destruct Hn as [[_ Hn]|[? _]]; [|done].
  unfold unrequested, nextEvent, contentUV, behind. unfold mbind at 1 2, ST_bind at 1 2, gets at 1. rewrite He.
  destruct Hn as [code Hc|d r Hd Hcap Hn].
  - destruct (alloc_spec (set_net [] s)) as (s1 & E & H1 & H2 & H3 & H4 & H5 & H6 & H7 & H8).
    run. rewrite E. unfold _readCallback. run.
    assert (negb (code =? 0) = true /\ code =? 0 = false /\ code <> 0) as (-> & E0 & Hne).
    { unfold isEOF, UV_EOF, UV_EINVAL in Hc. rewrite orb_true_iff, !Z.eqb_eq in Hc. destruct Hc as [-> | ->]; done. }
    rewrite H2. cbn [_readFuture set_net]. rewrite Hf, E0. eexists. split; [reflexivity|]. split.
    + constructor; cbn; rewrite ?H1, ?H2, ?H3, ?H4, ?H5, ?H7; try done. now right.
    + unfold inputBytes. cbn. rewrite H4, H5, E0. done.
  - destruct (alloc_spec (set_net r s)) as (s1 & E & H1 & H2 & H3 & H4 & H5 & H6 & H7 & H8).
    run. rewrite E. unfold _readCallback. run. assert (0 <? length d = true)%nat as -> by (now destruct d). rewrite (proj2 (Z.leb_le _ _) Hcap).
    cbn [_readFuture set_readingBuf]. rewrite H2. cbn [_readFuture set_net]. rewrite Hf. cbn [Z.eqb].
    eexists. split; [reflexivity|]. split.
    + constructor; cbn; rewrite ?H1, ?H2, ?H3, ?H4, ?H5, ?H6, ?H7; try done; [|now left].
      apply Forall_app. split; [done|]. now repeat constructor.
    + unfold inputBytes. cbn. rewrite H4, H5, H6, H7. cbn. rewrite He, map_app, concat_app. cbn.
      now rewrite app_nil_r, <- !app_assoc.
Qed.

(** C26: the libuv stream keeps the promises of an [IStream]: whatever non-empty pieces libuv delivers, at most a
    buffer at a time, before EOF, and whether a read is waiting for them or not, reads and peeks, one after
    another, hand out exactly those bytes, in order and without loss, and an empty read means EOF.  (A delivery
    of nothing trips an assertion: [uvstream_empty_delivery].) *)
Theorem uvstream_reads s n :
  good false s -> 0 < n ->
  (exists a s', readNoCopyUV n s = Ret (a, s') /\ Z.of_nat (length a) <= n /\ contentUV s = a ++ contentUV s'
      /\ (a = [] -> contentUV s = []) /\ (a <> [] -> good false s'))
  /\ (exists a s', peekNoCopyUV s = Ret (a, s') /\ (a = [] -> contentUV s = [])
      /\ (a <> [] -> good false s' /\ contentUV s' = contentUV s /\ exists r, contentUV s = a ++ r))
  /\ (_readError s = 0 -> exists s', unrequested s = Ret (tt, s') /\ good false s' /\ contentUV s' = contentUV s).
Proof.
  intros Hg Hn. split_and!.
  - destruct (readNoCopyUV_spec n s Hg Hn) as (a & s' & H1 & H2 & H3 & _ & _ & H4 & H5 & _). now exists a, s'.
  - destruct (peekNoCopyUV_spec s Hg) as (a & s' & H1 & _ & H2 & H3). exists a, s'. split_and!; [done|done|].
    intros Ha. destruct (H3 Ha) as (Hg' & Hi & Hc). split_and!; [done|done|]. exists (behind s').
    rewrite <- Hc. unfold contentUV. now rewrite Hi.
  - now apply unrequested_spec.
Qed.

Definition openedStream : Stream := set_stream true (newStream [Data (lit "ab"); Data (lit "c"); Err UV_EOF]).

Lemma uvstream_reads_witness :
  good false openedStream /\
  exists a s', readNoCopyUV 10 openedStream = Ret (a, s') /\ lit "abc" = a ++ contentUV s'.
Proof.
  assert (good false openedStream) as Hg.
  { constructor; try done. left. split; [done|]. repeat (constructor; try done). }
  split; [exact Hg|]. destruct (uvstream_reads openedStream 10 Hg) as ((a & s' & H1 & _ & H2 & _) & _); [lia|].
  exists a, s'. now split.
Defined.

(** libuv may call back with no data (its documentation: [nread] 0 is not an error or EOF, it is EAGAIN); the callback asserts
    that it does not, whether a read is waiting or not. *)
Theorem uvstream_empty_delivery s r : net s = Data [] :: r -> nextEvent s = Fault AssertFailed.
Proof.
  intros En. unfold nextEvent, mbind, ST_bind, gets. rewrite En. destruct (alloc_spec (set_net r s)) as (s1 & E & _). unfold modify. now rewrite E.
Qed.

(** [NotReentrant] does not see a read that is waiting: the guard is gone when the call returns its future.
    A second call is not refused with a [LogicError]; it trips the precondition of [readBuf]. *)
Theorem uvstream_overlapping_read s s1 n m :
  good false s -> 0 < n -> readStart n s = Ret (None, s1) -> _readBusy s1 = false /\ readStart m s1 = Fault AssertFailed.
Proof.
  intros Hg Hn E. pose proof (g_busy _ _ Hg) as Hb. pose proof (hasInput_bytes s (or_intror Hg)) as Hh.
  assert (waits false s1) as [Ho Hf Hbu Hin Hib _].
  { unfold readStart, mbind, ST_bind, gets, assert in E. rewrite (g_open _ _ Hg) in E. destruct (decide (inputBytes s = [])) as [Hi|Hi].
    - rewrite bool_decide_true in Hh by done. destruct (fillInputBuf_spec _ (good_busy _ true _ Hg) Hi) as (f & s2 & Ef & H). destruct f as [a|].
      + destruct (readFilled _ n a _ s2 Hn H) as (s3 & E3 & _).
        erewrite notReentrant_free in E; [|done|change (hasInput (set_readBusy true s)) with (hasInput s); rewrite Hh; cbn [negb]; rewrite Ef, E3; reflexivity]. congruence.
      + erewrite notReentrant_free in E; [|done|change (hasInput (set_readBusy true s)) with (hasInput s); rewrite Hh; cbn [negb]; rewrite Ef; reflexivity].
        assert (s1 = set_readBusy false s2) as -> by congruence. apply (waits_busy true), H.
    - rewrite bool_decide_false in Hh by done. destruct (readFromInput_spec true n _ Hn (good_busy _ true _ Hg)) as (s2 & E2 & _).
      erewrite notReentrant_free in E; [|done|change (hasInput (set_readBusy true s)) with (hasInput s); rewrite Hh; cbn [negb]; rewrite E2; reflexivity]. congruence. }
  split; [done|]. destruct s1. cbn in *. subst. reflexivity.
Qed.

#[export] Instance uv_stream : IStream Stream.
Proof.
  refine {|
    isOpen := isOpenUV;
    open := mret tt;
    readNoCopy := readNoCopyUV;
    peekNoCopy := peekNoCopyUV;
    writeBytes b := writeUV [b];
    content := contentUV;
    sent := out;
    readable := good false;
    writable s := _stream s = true
  |}.
  - intros s Hg. apply Hg.
  - intros n s Hg Hn. destruct (readNoCopyUV_spec n s Hg Hn) as (a & s' & H1 & H2 & H3 & H4 & H5 & H6 & H7 & _).
    now exists a, s'.
  - intros s Hg. destruct (peekNoCopyUV_spec s Hg) as (a & s' & H1 & H2 & H3 & H4).
    destruct (decide (a = [])) as [->|Ha]; [exists [], (contentUV s), s'; now split_and!|].
    destruct (H4 Ha) as (Hg' & Hi & Hc). exists a, (behind s'), s'. split; [done|].
    split; [rewrite <- Hc; unfold contentUV; now rewrite Hi|]. split; [done|]. intros _ n Hn.
    destruct (readNoCopyUV_spec (Z.of_nat n) s' Hg' ltac:(lia)) as (b & s2 & F1 & F2 & F3 & F4 & F5 & F6 & F7 & F8).
    rewrite Hi, Nat2Z.id in F8. specialize (F8 Ha). subst b. exists s2.
    assert (length (take n a) = n) as Hl by (rewrite length_take; lia).
    split_and!; [done| | | |].
    + rewrite <- Hc, F3, drop_app_length'; done.
    + now rewrite F4, H2.
    + intros _. apply F5, Hg'.
    + apply F7. intros E. rewrite E in Hl. cbn in Hl. lia.
  - intros b s Hw. unfold writeUV. run. rewrite Hw. cbn [length Nat.ltb Nat.leb kMaxBufs concat]. rewrite app_nil_r.
    eexists. split; [reflexivity|]. split_and!; try done. now intros [? ? ? ? ? ?].
Defined.
