(* ===== verification/Files.v ===== *)
(** Files: [FileStream] ([src/io/uv/FileStream.cc], [include/crouton/io/FileStream.hh]) and the functions of
    [src/io/uv/Filesystem.cc], over the file operations of libuv.

    libuv and the kernel are outside.  The classes [UVFile] and [UVDir] have the operations the source
    calls and what their documentation, which is that of the POSIX calls under them, says of an open
    file and an open directory.  An asynchronous call returns a status at once; unless it is negative,
    the result comes with the callback. *)

From S2P Require Import Prelude IStream UVStream.

Local Open Scope Z_scope.

(** * libuv's files *)

(** An open file: its contents, the position of its descriptor, and what it was opened for. *)
Record OpenFile := mkOpen { contents : bytes; position : nat; canRead : bool; canWrite : bool }.

Definition UV_EBADF : Z := -9.

(** Where an operation with this [offset] takes place; -1 stands for the position. *)
Definition place (offset : Z) (o : OpenFile) : nat := if offset =? -1 then position o else Z.to_nat offset.

Definition moved (offset : Z) (n : nat) (o : OpenFile) : OpenFile :=
  mkOpen (contents o) (if offset =? -1 then (position o + n)%nat else position o) (canRead o) (canWrite o).

(** [b] written at [p], with zeros in a gap before it. *)
Definition overwrite (p : nat) (b c : bytes) : bytes :=
  take p c ++ replicate (p - length c) 0 ++ b ++ drop (p + length b) c.

Definition written (offset : Z) (b : bytes) (o : OpenFile) : OpenFile :=
  moved offset (length b) (mkOpen (overwrite (place offset o) b (contents o)) (position o) (canRead o) (canWrite o)).

Definition ReadOnly : Z := 0.
Definition WriteOnly : Z := 1.
Definition ReadWrite : Z := 2.

Class UVFile (F : Type) := {
  (** path, flags, mode; the status, and the descriptor or an error code *)
  uv_fs_open : bytes -> Z -> Z -> F -> Z * (Z * F);
  (** descriptor, total size of the buffers, offset; the result, and what was put into the buffers *)
  uv_fs_read : Z -> nat -> Z -> F -> Z * (Z * bytes * F);
  (** descriptor, contents of the buffers, offset *)
  uv_fs_write : Z -> bytes -> Z -> F -> Z * (Z * F);
  uv_fs_close : Z -> F -> F;
  (** the result and the size *)
  uv_fs_fstat : Z -> F -> Z * Z;

  (** the file at a path, the open file of a descriptor, and whether there is room for what is written *)
  fileAt : F -> bytes -> option bytes;
  openFile : F -> Z -> option OpenFile;
  roomy : F -> Z -> Prop;

  fs_open_law f path flags mode c : fileAt f path = Some c -> flags = ReadOnly \/ flags = WriteOnly ->
    exists fd f', uv_fs_open path flags mode f = (0, (fd, f')) /\ 0 <= fd
      /\ openFile f' fd = Some (mkOpen c 0 (flags =? ReadOnly) (flags =? WriteOnly));
  fs_read_law f fd o n offset : openFile f fd = Some o -> canRead o = true -> (0 < n)%nat -> -1 <= offset ->
    exists d f', uv_fs_read fd n offset f = (0, (Z.of_nat (length d), d, f')) /\ (length d <= n)%nat
      /\ d = take (length d) (drop (place offset o) (contents o)) /\ (d = [] -> drop (place offset o) (contents o) = [])
      /\ openFile f' fd = Some (moved offset (length d) o) /\ (roomy f fd -> roomy f' fd);
  fs_write_law f fd o b offset : openFile f fd = Some o -> canWrite o = true -> -1 <= offset ->
    exists k f', uv_fs_write fd b offset f = (0, (Z.of_nat k, f')) /\ (k <= length b)%nat
      /\ openFile f' fd = Some (written offset (take k b) o) /\ (roomy f fd -> k = length b /\ roomy f' fd);
  close_law f fd : openFile (uv_fs_close fd f) fd = None;
  closed_law f fd n offset : openFile f fd = None -> uv_fs_read fd n offset f = (0, (UV_EBADF, [], f));
  fstat_law f fd o : openFile f fd = Some o -> uv_fs_fstat fd f = (0, Z.of_nat (length (contents o)))
}.

(** * [FileStream] *)

Record FileStream := mkFile {
  _path : bytes;
  _flags : Z;
  _mode : Z;
  _fd : Z;
  _readBuf : option Buffer;
  _busy : bool
}.

Definition newFile (path : bytes) (flags mode : Z) : FileStream := mkFile path flags mode (-1) None false.

Definition set_fd n s := mkFile (_path s) (_flags s) (_mode s) n (_readBuf s) (_busy s).
Definition set_readBuf b s := mkFile (_path s) (_flags s) (_mode s) (_fd s) b (_busy s).
Definition set_busy b s := mkFile (_path s) (_flags s) (_mode s) (_fd s) (_readBuf s) b.

Definition isOpenF (s : FileStream) : bool := 0 <=? _fd s.

Section file.
Context {F : Type} {U : UVFile F}.

Definition State : Type := FileStream * F.

Definition file {A} (m : ST FileStream A) : ST State A := zoom fst (fun s x => (s, x.2)) m.

(** [fs_request]: the status of the call through [check], then the result through [callback]. *)
Definition fs_request (status result : Z) : outcome Z :=
  if status <? 0 then Raise (EUV status) else if result <? 0 then Raise (EUV result) else Ret result.

Definition openF : ST State unit := fun '(s, f) =>
  let '(status, (result, f')) := uv_fs_open (_path s) (_flags s) (_mode s) f in
  fd ← fs_request status result;
  Ret (tt, (set_fd fd s, f')).

(** [NotReentrant nr(_busy)].  It guards the call, not the operation, which ends later. *)
Definition notReentrant {A} (m : ST State A) : ST State A :=
  busy ← gets (fun x => _busy x.1);
  _ ← (if (busy : bool) then throw (ECrouton LogicError) else mret tt);
  _ ← file (modify (set_busy true));
  a ← m;
  _ ← file (modify (set_busy false));
  mret a.

Definition getSize : ST State Z := fun '(s, f) =>
  let '(err, size) := uv_fs_fstat (_fd s) f in
  if err <? 0 then Raise (EUV err) else Ret (size, (s, f)).

Definition kMaxBufs : nat := 8.

(** [_preadv] as far as the request; buffers are given by their sizes. *)
Definition preadvStart (sizes : list nat) : ST State unit :=
  o ← gets (fun x => isOpenF x.1);
  _ ← assert o;
  if (kMaxBufs <? length sizes)%nat then throw (ECrouton InvalidArgument) else mret tt.

(** The request runs and its callback is made: the result, and what was put into the buffers. *)
Definition preadvEnd (sizes : list nat) (offset : Z) : ST State (Z * bytes) := fun '(s, f) =>
  let '(status, (result, d, f')) := uv_fs_read (_fd s) (sum_list sizes) offset f in
  n ← fs_request status result;
  Ret ((n, d), (s, f')).

Definition preadv (sizes : list nat) (offset : Z) : ST State (Z * bytes) :=
  _ ← notReentrant (preadvStart sizes);
  preadvEnd sizes offset.

Definition capacity : nat := Z.to_nat kCapacity.

(** [_fillBuffer] to its AWAIT, and after it. *)
Definition fillStart : ST State unit :=
  _ ← file (modify (fun s => match _readBuf s with None => set_readBuf (Some (mkBuffer [] 0)) s | Some _ => s end));
  b ← gets (fun x => _readBuf x.1);
  _ ← assert (match b with Some b => bempty b | None => false end);
  preadvStart [capacity].

Definition fillEnd (n : Z) (d : bytes) : ST State bytes :=
  let b := mkBuffer (take (Z.to_nat (u32 n)) d) 0 in
  _ ← file (modify (set_readBuf (Some b)));
  mret (bbytes b).

Definition hasBuffered (s : FileStream) : bool :=
  match _readBuf s with Some b => negb (bempty b) | None => false end.

(** [_readBuf->read(maxLen)]. *)
Definition takeBuffered (maxLen : Z) : ST State bytes :=
  b ← gets (fun x => _readBuf x.1);
  match b with
  | Some b => _ ← file (modify (set_readBuf (Some (bread maxLen b).2))); mret (bread maxLen b).1
  | None => crash OutOfBounds
  end.

(** [readNoCopy] until it returns a future: with the bytes if some are buffered. *)
Definition readStart (maxLen : Z) : ST State (option bytes) :=
  notReentrant (
    has ← gets (fun x => hasBuffered x.1);
    if (has : bool) then d ← takeBuffered maxLen; mret (Some d)
    else _ ← fillStart; mret None).

(** The rest of it, when the data has come. *)
Definition readEnd (maxLen : Z) (n : Z) (d : bytes) : ST State bytes :=
  _ ← fillEnd n d;
  takeBuffered maxLen.

Definition readNoCopyF (maxLen : Z) : ST State bytes :=
  r ← readStart maxLen;
  match r with
  | Some d => mret d
  | None => '(n, d) ← preadvEnd [capacity] (-1); readEnd maxLen n d
  end.

Definition peekNoCopyF : ST State bytes :=
  r ← notReentrant (
    has ← gets (fun x => hasBuffered x.1);
    b ← gets (fun x => _readBuf x.1);
    if (has : bool) then mret (bbytes <$> b) else _ ← fillStart; mret None);
  match r with
  | Some d => mret d
  | None => '(n, d) ← preadvEnd [capacity] (-1); fillEnd n d
  end.

(** The request of [pwritev] runs: the number of bytes written is not looked at. *)
Definition pwritevEnd (bufs : list bytes) (offset : Z) : ST State unit := fun '(s, f) =>
  let '(status, (result, f')) := uv_fs_write (_fd s) (concat bufs) offset f in
  _ ← fs_request status result;
  Ret (tt, (s, f')).

Definition pwritev (bufs : list bytes) (offset : Z) : ST State unit :=
  _ ← notReentrant (
    o ← gets (fun x => isOpenF x.1);
    _ ← assert o;
    _ ← file (modify (set_readBuf None));
    if (kMaxBufs <? length bufs)%nat then throw (ECrouton InvalidArgument) else mret tt);
  pwritevEnd bufs offset.

Definition writeF (b : bytes) : ST State unit := pwritev [b] (-1).
Definition writeBuffersF (bufs : list bytes) : ST State unit := pwritev bufs (-1).
Definition closeWriteF : ST State unit := mret tt.

Definition osClose : ST State unit := fun '(s, f) => Ret (tt, (s, uv_fs_close (_fd s) f)).

Definition _closeF : ST State unit :=
  o ← gets (fun x => isOpenF x.1);
  when o (
    busy ← gets (fun x => _busy x.1);
    _ ← assert (negb busy);
    _ ← file (modify (set_readBuf None));
    _ ← osClose;
    file (modify (set_fd (-1)))).

Definition closeF : ST State unit := _closeF.

(** The destructor, and the move constructor, which is the default one: it takes the buffer and copies the rest. *)
Definition destroyFile : ST State unit := _closeF.
Definition moveFile (s : FileStream) : FileStream * FileStream := (s, set_readBuf None s).

(** ** Reading *)

Definition buffered (s : FileStream) : bytes := match _readBuf s with Some b => bbytes b | None => [] end.

(** Open on the file [o], with no call under way. *)
Definition openOn (x : State) (o : OpenFile) : Prop :=
  0 <= _fd x.1 /\ _busy x.1 = false /\ openFile x.2 (_fd x.1) = Some o
  /\ match _readBuf x.1 with Some b => (used b <= length (bdata b))%nat | None => True end.

Lemma hasBuffered_false s : match _readBuf s with Some b => (used b <= length (bdata b))%nat | None => True end ->
  hasBuffered s = false <-> buffered s = [].
Proof.
  unfold hasBuffered, buffered. destruct (_readBuf s) as [b|]; [|done]. intros Hb. rewrite negb_false_iff. unfold bempty, bbytes.
  rewrite Nat.eqb_eq, <- length_zero_iff_nil, length_drop. lia.
Qed.

(** Filling the empty buffer: what the file gives at its position. *)
Lemma fill_ok s f o :
  openOn (s, f) o -> buffered s = [] -> canRead o = true ->
  exists s1 d f', fillStart (set_busy true s, f) = Ret (tt, (set_busy true s1, f)) /\ _fd s1 = _fd s
    /\ preadvEnd [capacity] (-1) (set_busy false s1, f) = Ret ((Z.of_nat (length d), d), (set_busy false s1, f'))
    /\ (forall s', fillEnd (Z.of_nat (length d)) d (s', f') = Ret (d, (set_readBuf (Some (mkBuffer d 0)) s', f')))
    /\ drop (position o) (contents o) = d ++ drop (position o + length d) (contents o)
    /\ (d = [] -> drop (position o) (contents o) = [])
    /\ openFile f' (_fd s) = Some (moved (-1) (length d) o) /\ (roomy f (_fd s) -> roomy f' (_fd s)).
Proof.
  intros (Hfd & Hb & Ho & Hu) He Hr.
  destruct (fs_read_law f (_fd s) o capacity (-1) Ho Hr) as (d & f' & E & Hl & Hd & Hz & Ho' & Hroom); [unfold capacity, kCapacity; lia|lia|].
  set (s1 := match _readBuf s with None => set_readBuf (Some (mkBuffer [] 0)) s | Some _ => s end).
  assert (_fd s1 = _fd s) as Hfd1 by (unfold s1; now destruct (_readBuf s)).
  exists s1, d, f'. split_and!; try done.
  - unfold fillStart, file, zoom, modify, gets, mbind, ST_bind. cbn. unfold buffered in He. unfold s1.
    destruct s as [p fl m fd [b|] bz]; cbn in *.
    + assert (bempty b = true) as ->. { unfold bempty, bbytes in *. apply (f_equal length) in He. rewrite length_drop in He. cbn in He. apply Nat.eqb_eq. lia. }
      cbn. unfold preadvStart, gets, mbind, ST_bind, isOpenF. cbn. rewrite (proj2 (Z.leb_le _ _) Hfd). done.
    + unfold preadvStart, gets, mbind, ST_bind, isOpenF. cbn. rewrite (proj2 (Z.leb_le _ _) Hfd). done.
  - unfold preadvEnd. change (sum_list [capacity]) with (capacity + 0)%nat. rewrite Nat.add_0_r. cbn [set_busy _fd]. rewrite Hfd1, E. unfold fs_request.
    rewrite (proj2 (Z.ltb_ge _ _)) by lia. cbn. rewrite (proj2 (Z.ltb_ge _ _)) by lia. done.
  - intros s'. unfold fillEnd, file, zoom, modify, mbind, ST_bind. rewrite u32_small, Nat2Z.id, firstn_all; [|unfold capacity, kCapacity in Hl; lia]. done.
  - cbn [place] in Hd. rewrite <- drop_drop. rewrite Hd at 1. now rewrite take_drop.
Qed.

Lemma notReentrant_run {A} (m : ST State A) s f a s1 f1 :
  _busy s = false -> m (set_busy true s, f) = Ret (a, (s1, f1)) -> notReentrant m (s, f) = Ret (a, (set_busy false s1, f1)).
Proof. intros Hb E. unfold notReentrant, file, zoom, modify, gets, mbind, ST_bind. cbn. rewrite Hb. cbn. now rewrite E. Qed.

Definition contentF (x : State) : bytes :=
  match openFile x.2 (_fd x.1) with
  | Some o => if canRead o then buffered x.1 ++ drop (position o) (contents o) else []
  | None => []
  end.

(** What has been written counts on a file that is only written. *)
Definition sentF (x : State) : bytes :=
  match openFile x.2 (_fd x.1) with
  | Some o => if canRead o then [] else take (position o) (contents o)
  | None => []
  end.

Lemma buffer_take n s b : _readBuf s = Some b -> (used b <= length (bdata b))%nat ->
  exists b', bread n b = (take (Z.to_nat n) (buffered s), b') /\ bbytes b' = drop (Z.to_nat n) (buffered s) /\ (used b' <= length (bdata b'))%nat.
Proof.
  intros E Hu. unfold buffered. rewrite E. unfold bread, bbytes, available. cbn [bdata used]. eexists. split; [f_equal|split].
  - rewrite <- length_drop, <- take_take. now rewrite firstn_all.
  - cbn [bdata used]. rewrite <- drop_drop, <- length_drop. set (l := drop (used b) (bdata b)).
    destruct (Nat.le_ge_cases (Z.to_nat n) (length l)); [now rewrite Nat.min_l by lia|]. now rewrite Nat.min_r, !drop_ge by lia.
  - cbn [bdata used]. lia.
Qed.

Lemma takeBuffered_ok n s f b : _readBuf s = Some b -> (used b <= length (bdata b))%nat ->
  exists b', takeBuffered n (s, f) = Ret (take (Z.to_nat n) (buffered s), (set_readBuf (Some b') s, f))
    /\ bbytes b' = drop (Z.to_nat n) (buffered s) /\ (used b' <= length (bdata b'))%nat.
Proof.
  intros E Hu. destruct (buffer_take n s b E Hu) as (b' & Eb & Hb' & Hu'). exists b'. split; [|done].
  unfold takeBuffered, file, zoom, modify, gets, mbind, ST_bind. cbn [fst snd]. rewrite E. cbn beta iota. now rewrite Eb.
Qed.

Lemma contentF_open s f o : openFile f (_fd s) = Some o -> canRead o = true -> contentF (s, f) = buffered s ++ drop (position o) (contents o).
Proof. intros Ho Hc. unfold contentF. cbn [fst snd]. now rewrite Ho, Hc. Qed.

Lemma readStart_some n s f a s1 :
  _busy s = false -> hasBuffered s = true -> takeBuffered n (set_busy true s, f) = Ret (a, (s1, f)) ->
  readStart n (s, f) = Ret (Some a, (set_busy false s1, f)).
Proof.
  intros Hb Eh Et. apply notReentrant_run; [done|]. unfold gets, mbind, ST_bind. cbn [fst].
  change (hasBuffered (set_busy true s)) with (hasBuffered s). now rewrite Eh, Et.
Qed.

Lemma readStart_none n s f s1 :
  _busy s = false -> hasBuffered s = false -> fillStart (set_busy true s, f) = Ret (tt, (s1, f)) ->
  readStart n (s, f) = Ret (None, (set_busy false s1, f)).
Proof.
  intros Hb Eh Et. apply notReentrant_run; [done|]. unfold gets, mbind, ST_bind. cbn [fst].
  change (hasBuffered (set_busy true s)) with (hasBuffered s). now rewrite Eh, Et.
Qed.

(** A buffer that has data gives some of it; an empty one is filled first. *)
Lemma read_ok n s f o :
  openOn (s, f) o -> canRead o = true -> 0 < n ->
  exists a s' f' o', readNoCopyF n (s, f) = Ret (a, (s', f')) /\ openOn (s', f') o' /\ canRead o' = true
    /\ (buffered s <> [] -> a = take (Z.to_nat n) (buffered s)) /\ (Z.of_nat (length a) <= n)
    /\ contentF (s, f) = a ++ contentF (s', f') /\ (a = [] -> contentF (s, f) = []).
Proof.
  intros Hop Hr Hn. pose proof Hop as (Hfd & Hb & Ho & Hu). cbn [fst snd] in *.
  destruct (hasBuffered s) eqn:Eh.
  - destruct (_readBuf s) as [b|] eqn:Eb; [|unfold hasBuffered in Eh; now rewrite Eb in Eh].
    assert (buffered s <> []) as Hne. { intros H. apply hasBuffered_false in H; [congruence|now rewrite Eb]. }
    destruct (takeBuffered_ok n (set_busy true s) f b Eb Hu) as (b' & Et & Hb' & Hu').
    exists (take (Z.to_nat n) (buffered s)), (set_busy false (set_readBuf (Some b') (set_busy true s))), f, o. split_and!; try done.
    + unfold readNoCopyF, mbind at 1, ST_bind at 1. now rewrite (readStart_some n s f _ _ Hb Eh Et).
    + rewrite length_take. lia.
    + rewrite !(contentF_open _ _ o) by done. unfold buffered at 3. cbn [set_busy set_readBuf _readBuf]. rewrite Hb', app_assoc. cbn [buffered set_busy _readBuf].
      f_equal. symmetry. apply (take_drop (Z.to_nat n) (buffered s)).
    + intros Hz. apply (f_equal length) in Hz. rewrite length_take in Hz. destruct (buffered s); [done|]. cbn in Hz. lia.
  - pose proof Eh as Eh'. apply hasBuffered_false in Eh; [|done].
    destruct (fill_ok s f o Hop Eh Hr) as (s1 & d & f' & E1 & Hfd1 & E2 & E3 & Hd & Hz & Ho' & _).
    destruct (takeBuffered_ok n (set_readBuf (Some (mkBuffer d 0)) (set_busy false s1)) f' _ eq_refl ltac:(cbn; lia)) as (b' & Et & Hb' & Hu').
    assert (buffered (set_readBuf (Some (mkBuffer d 0)) (set_busy false s1)) = d) as Ed by reflexivity. rewrite Ed in Et, Hb'.
    exists (take (Z.to_nat n) d), (set_readBuf (Some b') (set_readBuf (Some (mkBuffer d 0)) (set_busy false s1))), f', (moved (-1) (length d) o). split_and!; try done.
    + unfold readNoCopyF, mbind at 1, ST_bind at 1. rewrite (readStart_none n s f _ Hb Eh' E1).
      change (set_busy false (set_busy true s1)) with (set_busy false s1). unfold mbind, ST_bind. rewrite E2.
      unfold readEnd, mbind, ST_bind. rewrite E3. exact Et.
    + unfold openOn. cbn [fst snd set_readBuf set_busy _fd _busy _readBuf]. rewrite Hfd1. done.
    + rewrite length_take. lia.
    + rewrite (contentF_open s f o), Eh by done. rewrite (contentF_open _ f' (moved (-1) (length d) o)); [|cbn; now rewrite Hfd1|done].
      unfold buffered. cbn [set_readBuf _readBuf moved position contents app]. rewrite Hb'. change (-1 =? -1) with true. cbn iota.
      rewrite app_assoc, take_drop. exact Hd.
    + intros Hzero. rewrite (contentF_open s f o), Eh by done. cbn [app]. apply Hz. apply (f_equal length) in Hzero. rewrite length_take in Hzero. destruct d; [done|]. cbn in Hzero. lia.
Qed.

(** After a peek, what it gave is in the buffer. *)
Lemma peek_ok s f o :
  openOn (s, f) o -> canRead o = true ->
  exists s' f' o', peekNoCopyF (s, f) = Ret (buffered s', (s', f')) /\ openOn (s', f') o' /\ canRead o' = true
    /\ contentF (s', f') = contentF (s, f) /\ (buffered s' = [] -> contentF (s, f) = []).
Proof.
  intros Hop Hr. pose proof Hop as (Hfd & Hb & Ho & Hu). cbn [fst snd] in *.
  destruct (hasBuffered s) eqn:Eh.
  - assert (buffered s <> []) as Hne. { intros H. apply hasBuffered_false in H; [congruence|done]. }
    assert (set_busy false (set_busy true s) = s) as Es by (destruct s; cbn in *; now rewrite Hb).
    exists s, f, o. split_and!; try done. unfold peekNoCopyF, mbind at 1, ST_bind at 1.
    erewrite (notReentrant_run _ s f); [|exact Hb|]; cycle 1.
    { unfold gets, mbind, ST_bind. cbn [fst]. change (hasBuffered (set_busy true s)) with (hasBuffered s). rewrite Eh. reflexivity. }
    rewrite Es. unfold hasBuffered in Eh. unfold buffered. cbn [set_busy _readBuf]. destruct (_readBuf s); [reflexivity|done].
  - pose proof Eh as Eh'. apply hasBuffered_false in Eh; [|done].
    destruct (fill_ok s f o Hop Eh Hr) as (s1 & d & f' & E1 & Hfd1 & E2 & E3 & Hd & Hz & Ho' & _).
    set (s' := set_readBuf (Some (mkBuffer d 0)) (set_busy false s1)).
    assert (buffered s' = d) as Ed by reflexivity. rewrite <- Ed in Hz.
    exists s', f', (moved (-1) (length d) o). split_and!; try done.
    + unfold peekNoCopyF, mbind at 1, ST_bind at 1.
      erewrite (notReentrant_run _ s f); [|exact Hb|]; cycle 1.
      { unfold gets, mbind, ST_bind. cbn [fst]. change (hasBuffered (set_busy true s)) with (hasBuffered s). rewrite Eh', E1. reflexivity. }
      change (set_busy false (set_busy true s1)) with (set_busy false s1). unfold mbind, ST_bind. rewrite E2. rewrite E3, Ed. reflexivity.
    + unfold openOn, s'. cbn [fst snd set_readBuf set_busy _fd _busy _readBuf]. rewrite Hfd1. split_and!; try done. cbn. lia.
    + rewrite (contentF_open s f o), Eh by done. rewrite (contentF_open s' f' (moved (-1) (length d) o)); [|unfold s'; cbn; now rewrite Hfd1|done].
      rewrite Ed. symmetry. exact Hd.
    + intros H. rewrite (contentF_open s f o), Eh by done. now apply Hz.
Qed.

(** ** Writing *)

(** The bytes, or those the file has room for, are put where the descriptor stands, or at [offset]. *)
Lemma pwritev_ok bufs offset s f o :
  openOn (s, f) o -> canWrite o = true -> -1 <= offset -> (length bufs <= kMaxBufs)%nat ->
  exists k f', pwritev bufs offset (s, f) = Ret (tt, (set_busy false (set_readBuf None s), f')) /\ (k <= length (concat bufs))%nat
    /\ openFile f' (_fd s) = Some (written offset (take k (concat bufs)) o)
    /\ (roomy f (_fd s) -> k = length (concat bufs) /\ roomy f' (_fd s)).
Proof.
  intros (Hfd & Hb & Ho & Hu) Hw Hoff Hn. cbn [fst snd] in *.
  destruct (fs_write_law f (_fd s) o (concat bufs) offset Ho Hw Hoff) as (k & f' & E & Hk & Ho' & Hroom).
  exists k, f'. split_and!; try done. unfold pwritev, mbind at 1, ST_bind at 1.
  erewrite (notReentrant_run _ s f); [|exact Hb|]; cycle 1.
  { unfold gets, assert, file, zoom, modify, mbind, ST_bind. cbn [fst]. unfold isOpenF. cbn [set_busy _fd]. rewrite (proj2 (Z.leb_le _ _) Hfd). cbn [fst snd].
    destruct (Nat.ltb_spec kMaxBufs (length bufs)); [lia|]. reflexivity. }
  unfold pwritevEnd. cbn [set_busy set_readBuf _fd]. rewrite E. unfold fs_request. rewrite (proj2 (Z.ltb_ge _ _)) by lia. cbn. rewrite (proj2 (Z.ltb_ge _ _)) by lia. reflexivity.
Qed.

Lemma take_overwrite p b c : (p <= length c)%nat -> take (p + length b) (overwrite p b c) = take p c ++ b.
Proof.
  intros Hp. unfold overwrite. replace (p - length c)%nat with 0%nat by lia. cbn [replicate app]. rewrite app_assoc, take_app_length'; [done|].
  rewrite length_app, length_take. lia.
Qed.

Lemma drop_overwrite p b c : (p <= length c)%nat -> drop p (overwrite p b c) = b ++ drop (p + length b) c.
Proof.
  intros Hp. unfold overwrite. replace (p - length c)%nat with 0%nat by lia. cbn [replicate app]. apply drop_app_length'. rewrite length_take. lia.
Qed.

(** * It is an [IStream]: of what is in the file, when it is open for reading; on which what is written
      can be counted, when it is open only for writing. *)

Definition readableF (x : State) : Prop := exists o, openOn x o /\ canRead o = true.

Definition writableF (x : State) : Prop :=
  exists o, openOn x o /\ canRead o = false /\ canWrite o = true /\ (position o <= length (contents o))%nat /\ roomy x.2 (_fd x.1).

Lemma openOn_inj x o o' : openOn x o -> openOn x o' -> o = o'.
Proof. intros (_ & _ & H & _) (_ & _ & H' & _). congruence. Qed.

Lemma sentF_read x o : openOn x o -> canRead o = true -> sentF x = [].
Proof. intros (_ & _ & Ho & _) Hc. unfold sentF. now rewrite Ho, Hc. Qed.

Lemma not_both x o : openOn x o -> canRead o = true -> ~ writableF x.
Proof. intros Ho Hc (o' & Ho' & Hc' & _). rewrite (openOn_inj x o o' Ho Ho') in Hc. congruence. Qed.

#[export] Program Instance file_stream : IStream State := {
  isOpen x := isOpenF x.1;
  open := openF;
  readNoCopy := readNoCopyF;
  peekNoCopy := peekNoCopyF;
  writeBytes := writeF;
  content := contentF;
  sent := sentF;
  readable := readableF;
  writable := writableF
}.
Next Obligation. intros [s f] (o & (Hfd & _) & _). unfold isOpenF. now apply Z.leb_le. Qed.
Next Obligation.
  intros n [s f] (o & Ho & Hc) Hn. destruct (read_ok n s f o Ho Hc Hn) as (a & s' & f' & o' & E & Ho' & Hc' & _ & Hl & Hd & Hz).
  exists a, (s', f'). split_and!; try done.
  - now rewrite (sentF_read (s, f) o), (sentF_read (s', f') o').
  - intros Hw. now destruct (not_both _ o Ho Hc).
  - intros _. now exists o'.
Qed.
Next Obligation.
  intros [s f] (o & Ho & Hc). destruct (peek_ok s f o Ho Hc) as (s' & f' & o' & E & Ho' & Hc' & Hd & Hz).
  assert (contentF (s', f') = buffered s' ++ drop (position o') (contents o')) as Hcs by (apply contentF_open; [apply Ho'|done]).
  exists (buffered s'), (drop (position o') (contents o')), (s', f'). split_and!; try done.
  - now rewrite <- Hd.
  - intros Hne n Hn. destruct (read_ok (Z.of_nat n) s' f' o' Ho' Hc') as (a & s2 & f2 & o2 & E2 & Ho2 & Hc2 & Ha & _ & Hd2 & _); [lia|].
    rewrite (Ha Hne), Nat2Z.id in E2, Hd2. exists (s2, f2). split_and!; try done.
    + rewrite <- Hd, Hd2, drop_app_length'; [done|]. rewrite length_take. lia.
    + now rewrite (sentF_read (s, f) o), (sentF_read (s2, f2) o2).
    + intros Hw. now destruct (not_both _ o Ho Hc).
    + now exists o2.
Qed.
Next Obligation.
  intros b [s f] (o & Ho & Hc & Hw & Hp & Hroom). destruct (pwritev_ok [b] (-1) s f o Ho Hw) as (k & f' & E & Hk & Ho' & Hr'); [lia|unfold kMaxBufs; cbn; lia|].
  destruct (Hr' Hroom) as [-> Hr2]. rewrite firstn_all in Ho'. cbn [concat] in Ho'. rewrite app_nil_r in Ho'.
  set (s' := set_busy false (set_readBuf None s)) in *.
  exists (s', f'). pose proof Ho as (Hfd & Hb & Hf & _). cbn [fst snd] in *. split_and!; try done.
  - unfold contentF. cbn [fst snd]. change (_fd s') with (_fd s). rewrite Ho', Hf. cbn [written moved canRead]. now rewrite Hc.
  - unfold sentF. cbn [fst snd]. change (_fd s') with (_fd s). rewrite Ho', Hf. cbn [written moved canRead position contents place]. rewrite Hc.
    change (-1 =? -1) with true. cbn iota. now apply take_overwrite.
  - intros (o2 & Ho2 & Hc2). rewrite (openOn_inj _ _ _ Ho2 Ho) in Hc2. congruence.
  - exists (written (-1) b o). split_and!; try done.
    + cbn [written moved position contents place]. change (-1 =? -1) with true. cbn iota. unfold overwrite. rewrite !length_app, length_take. change (place (-1) o) with (position o). lia.
Qed.

(** [FileStream::readAll], which asks for the file's size first. *)
Definition readAllF : ST State bytes :=
  size ← getSize;
  if SIZE_MAX <? size then throw (ECpp 20) else IStream.read size.

(** * Properties *)

Lemma openF_ok path flags mode f c :
  fileAt f path = Some c -> flags = ReadOnly \/ flags = WriteOnly ->
  exists s f', openF (newFile path flags mode, f) = Ret (tt, (s, f')) /\ _readBuf s = None
    /\ openOn (s, f') (mkOpen c 0 (flags =? ReadOnly) (flags =? WriteOnly)).
Proof.
  intros Hf Hfl. destruct (fs_open_law f path flags mode c Hf Hfl) as (fd & f' & E & Hfd & Ho).
  exists (set_fd fd (newFile path flags mode)), f'. unfold openF, newFile. cbn [_path _flags _mode]. rewrite E. unfold fs_request.
  cbn [Z.ltb Z.compare]. rewrite (proj2 (Z.ltb_ge _ _)) by lia. split_and!; try done.
Qed.

Lemma readAll_ok s f o :
  openOn (s, f) o -> canRead o = true -> _readBuf s = None -> Z.of_nat (length (contents o)) <= SIZE_MAX ->
  exists x, readAllF (s, f) = Ret (drop (position o) (contents o), x).
Proof.
  intros Ho Hc Hn Hs. pose proof Ho as (Hfd & _ & Hf & _). cbn [fst snd] in *.
  destruct (readLoop_spec (S := State) (Z.to_nat (Z.of_nat (length (contents o)))) (Z.of_nat (length (contents o))) [] (s, f)) as (x & E & _); [now exists o|cbn; lia|].
  exists x. unfold readAllF, getSize, mbind, ST_bind. rewrite (fstat_law f _ o Hf). cbn [Z.ltb Z.compare].
  rewrite (proj2 (Z.ltb_ge _ _)) by lia. unfold IStream.read. rewrite E. cbn [app length content file_stream].
  rewrite (contentF_open s f o Hf Hc). unfold buffered. rewrite Hn. cbn [app]. rewrite Nat2Z.id, take_ge; [done|]. rewrite length_drop. lia.
Qed.

(** C27: a file opened for reading is read whole, however libuv cuts what it reads: [readAll] gives the contents of the file,
    and they are the content of the stream, which every function of [IStream] reads in order. *)
Theorem file_reads_whole path mode f c :
  fileAt f path = Some c -> Z.of_nat (length c) <= SIZE_MAX ->
  exists x x', openF (newFile path ReadOnly mode, f) = Ret (tt, x) /\ readAllF x = Ret (c, x') /\ content x = c /\ readable x.
Proof.
  intros Hf Hs. destruct (openF_ok path ReadOnly mode f c Hf (or_introl eq_refl)) as (s1 & f1 & E & Hnb & Ho1).
  destruct (readAll_ok s1 f1 _ Ho1 eq_refl Hnb Hs) as (x' & E'). exists (s1, f1), x'. split_and!; try done.
  - cbn [content file_stream]. rewrite (contentF_open s1 f1 _ (proj1 (proj2 (proj2 Ho1))) eq_refl). unfold buffered. now rewrite Hnb.
  - exists (mkOpen c 0 true false). split; [exact Ho1|done].
Qed.

Lemma preadv_ok sizes offset s f o :
  openOn (s, f) o -> canRead o = true -> -1 <= offset -> (length sizes <= kMaxBufs)%nat -> (0 < sum_list sizes)%nat ->
  exists d f', preadv sizes offset (s, f) = Ret ((Z.of_nat (length d), d), (set_busy false s, f')) /\ (length d <= sum_list sizes)%nat
    /\ d = take (length d) (drop (place offset o) (contents o)) /\ (d = [] -> drop (place offset o) (contents o) = [])
    /\ openFile f' (_fd s) = Some (moved offset (length d) o).
Proof.
  intros (Hfd & Hb & Ho & _) Hc Hoff Hz Hn. cbn [fst snd] in *.
  destruct (fs_read_law f (_fd s) o (sum_list sizes) offset Ho Hc Hn Hoff) as (d & f2 & E2 & Hl & Hd & Hnil & Ho2 & _).
  exists d, f2. split_and!; try done. unfold preadv, mbind at 1, ST_bind at 1. erewrite (notReentrant_run _ s f); [|done|]; cycle 1.
  { unfold preadvStart, gets, assert, mbind, ST_bind. cbn [fst]. unfold isOpenF. cbn [set_busy _fd]. rewrite (proj2 (Z.leb_le _ _) Hfd).
    destruct (Nat.ltb_spec kMaxBufs (length sizes)); [lia|]. reflexivity. }
  unfold preadvEnd. cbn [set_busy _fd]. rewrite E2. unfold fs_request. cbn [Z.ltb Z.compare]. rewrite (proj2 (Z.ltb_ge _ _)) by lia. reflexivity.
Qed.

(** What is written with [pwritev], where there is room, and read back at the same place is what was
    written, or as much of it as libuv reads at once, which is not nothing; the rest of the
    file is as it was. *)
Theorem file_roundtrip s f o bufs offset sizes :
  openOn (s, f) o -> canRead o = true -> canWrite o = true -> roomy f (_fd s) ->
  0 <= offset <= Z.of_nat (length (contents o)) -> (length bufs <= kMaxBufs)%nat -> (length sizes <= kMaxBufs)%nat ->
  (0 < sum_list sizes <= length (concat bufs))%nat ->
  exists x n d x', pwritev bufs offset (s, f) = Ret (tt, x) /\ preadv sizes offset x = Ret ((n, d), x')
    /\ n = Z.of_nat (length d) /\ d <> [] /\ d = take (length d) (concat bufs)
    /\ openFile x'.2 (_fd x'.1) = Some (mkOpen (overwrite (Z.to_nat offset) (concat bufs) (contents o)) (position o) true true).
Proof.
  intros Ho Hc Hw Hroom Hoff Hb Hz Hn.
  destruct (pwritev_ok bufs offset s f o Ho Hw) as (k & f1 & E & Hk & Ho1 & Hr); [lia|done|]. destruct (Hr Hroom) as [-> _]. rewrite firstn_all in Ho1.
  assert ((offset =? -1) = false) as Eoff by lia.
  assert (written offset (concat bufs) o = mkOpen (overwrite (Z.to_nat offset) (concat bufs) (contents o)) (position o) true true) as Ew.
  { unfold written, moved, place. cbn [contents position canRead canWrite]. now rewrite Eoff, Hc, Hw. }
  rewrite Ew in Ho1. set (s1 := set_busy false (set_readBuf None s)) in *. pose proof Ho as (Hfd & _ & _ & _). cbn [fst snd] in *.
  destruct (preadv_ok sizes offset s1 f1 _ (conj Hfd (conj eq_refl (conj Ho1 I))) eq_refl) as (d & f2 & E2 & Hl & Hd & Hnil & Ho2); [lia|done|lia|].
  unfold place in Hd, Hnil. rewrite Eoff in Hd, Hnil. cbn [contents] in Hd, Hnil.
  rewrite drop_overwrite in Hd, Hnil by lia.
  exists (s1, f1), (Z.of_nat (length d)), d, (set_busy false s1, f2). split_and!; try done.
  - intros ->. specialize (Hnil eq_refl). apply (f_equal length) in Hnil. rewrite length_app in Hnil. cbn in Hnil. lia.
  - rewrite Hd at 1. rewrite take_app_le by lia. done.
  - cbn [fst snd set_busy _fd s1]. change (_fd s1) with (_fd s) in Ho2. cbn [set_readBuf _fd]. rewrite Ho2. unfold moved. cbn [contents position canRead canWrite]. now rewrite Eoff.
Qed.

(** Errors of libuv come to the caller, from the call itself or from the callback. *)
Lemma readNoCopy_error n s f status r d f' :
  _busy s = false -> 0 <= _fd s -> _readBuf s = None -> uv_fs_read (_fd s) capacity (-1) f = (status, (r, d, f')) ->
  (status < 0 -> readNoCopyF n (s, f) = Raise (EUV status)) /\ (0 <= status -> r < 0 -> readNoCopyF n (s, f) = Raise (EUV r)).
Proof.
  intros Hb Hfd Hn E.
  assert (readStart n (s, f) = Ret (None, (set_busy false (set_readBuf (Some (mkBuffer [] 0)) (set_busy true s)), f))) as E1.
  { apply readStart_none; [done|unfold hasBuffered; now rewrite Hn|]. unfold fillStart, preadvStart, file, zoom, modify, gets, assert, mbind, ST_bind. cbn [fst snd set_busy _readBuf]. rewrite Hn.
    cbn [set_readBuf _readBuf fst snd]. cbn. unfold isOpenF. cbn. now rewrite (proj2 (Z.leb_le _ _) Hfd). }
  unfold readNoCopyF, mbind at 1 3, ST_bind at 1 3. rewrite E1. unfold mbind, ST_bind, preadvEnd. change (sum_list [capacity]) with (capacity + 0)%nat. rewrite Nat.add_0_r.
  cbn [set_busy set_readBuf _fd]. rewrite E. unfold fs_request. split; intros H; [now rewrite (proj2 (Z.ltb_lt _ _) H)|].
  intros Hr. rewrite (proj2 (Z.ltb_ge _ _) H), (proj2 (Z.ltb_lt _ _) Hr). done.
Qed.

(** ** Defects *)

(** On a file open for both, a write drops what was read ahead, and goes behind it: where the reader
    stands is [length (buffered s)] bytes before.  What was dropped is not read again. *)
Theorem file_write_drops_readahead s f o b :
  openOn (s, f) o -> canRead o = true -> canWrite o = true -> roomy f (_fd s) -> (position o <= length (contents o))%nat ->
  exists s' f', writeF b (s, f) = Ret (tt, (s', f'))
    /\ openFile f' (_fd s) = Some (written (-1) b o)
    /\ content (s, f) = buffered s ++ drop (position o) (contents o)
    /\ content (s', f') = drop (position o + length b) (contents o).
Proof.
  intros Ho Hc Hw Hroom Hp. destruct (pwritev_ok [b] (-1) s f o Ho Hw) as (k & f' & E & _ & Ho' & Hr); [lia|unfold kMaxBufs; cbn; lia|].
  destruct (Hr Hroom) as [-> _]. rewrite firstn_all in Ho'. cbn [concat] in Ho'. rewrite app_nil_r in Ho'.
  eexists _, f'. split_and!; [exact E|exact Ho'|apply contentF_open; [apply Ho|done]|].
  cbn [content file_stream]. rewrite (contentF_open _ f' (written (-1) b o)); [|exact Ho'|done].
  unfold buffered. cbn [set_busy set_readBuf _readBuf app written moved position contents place]. change (-1 =? -1) with true. cbn iota.
  unfold overwrite, place. change (-1 =? -1) with true. cbn iota. replace (position o - length (contents o))%nat with 0%nat by lia. cbn [replicate app].
  rewrite app_assoc. apply drop_app_length'. rewrite length_app, length_take. lia.
Qed.

(** A write of which only [k] bytes are made succeeds all the same. *)
Theorem file_short_write_unnoticed s f b k f' :
  0 <= _fd s -> _busy s = false -> uv_fs_write (_fd s) b (-1) f = (0, (Z.of_nat k, f')) ->
  writeF b (s, f) = Ret (tt, (set_busy false (set_readBuf None s), f')).
Proof.
  intros Hfd Hb E. unfold writeF, pwritev, mbind at 1, ST_bind at 1. erewrite (notReentrant_run _ s f); [|exact Hb|]; cycle 1.
  { unfold gets, assert, file, zoom, modify, mbind, ST_bind. cbn [fst]. unfold isOpenF. cbn [set_busy _fd]. rewrite (proj2 (Z.leb_le _ _) Hfd). reflexivity. }
  unfold pwritevEnd. change (concat [b]) with (b ++ []). rewrite app_nil_r. cbn [fst snd set_busy set_readBuf _fd]. rewrite E. unfold fs_request. cbn [Z.ltb Z.compare]. now rewrite (proj2 (Z.ltb_ge _ _)) by lia.
Qed.

(** A second read may begin while the first waits, for the guard ended with the call; when both end, what
    the first left in the buffer is lost. *)
Theorem file_concurrent_reads_lose s f n m :
  0 <= _fd s -> _busy s = false -> _readBuf s = None ->
  exists s1, readStart n (s, f) = Ret (None, (s1, f)) /\ readStart m (s1, f) = Ret (None, (s1, f))
    /\ forall f' d1 d2, Z.of_nat (length d1) <= kCapacity -> Z.of_nat (length d2) <= kCapacity ->
         exists s2 s3, readEnd n (Z.of_nat (length d1)) d1 (s1, f') = Ret (take (Z.to_nat n) d1, (s2, f')) /\ buffered s2 = drop (Z.to_nat n) d1
           /\ readEnd m (Z.of_nat (length d2)) d2 (s2, f') = Ret (take (Z.to_nat m) d2, (s3, f')) /\ buffered s3 = drop (Z.to_nat m) d2.
Proof.
  intros Hfd Hb Hn. set (s1 := set_busy false (set_readBuf (Some (mkBuffer [] 0)) s)).
  assert (forall k t, _fd t = _fd s -> _busy t = false -> (_readBuf t = None \/ _readBuf t = Some (mkBuffer [] 0)) ->
            set_busy false (set_readBuf (Some (mkBuffer [] 0)) t) = s1 -> readStart k (t, f) = Ret (None, (s1, f))) as Hstart.
  { intros k t Ht1 Ht2 Ht3 <-. apply (readStart_none k t f (set_busy true (set_readBuf (Some (mkBuffer [] 0)) t))); [done|unfold hasBuffered; now destruct Ht3 as [-> | ->]|].
    unfold fillStart, preadvStart, file, zoom, modify, gets, assert, mbind, ST_bind. cbn [fst snd set_busy _readBuf].
    destruct t as [p fl mo fd rb bz]. cbn in Ht1, Ht2, Ht3. unfold isOpenF. destruct Ht3 as [-> | ->]; cbn; rewrite Ht1, (proj2 (Z.leb_le _ _) Hfd); reflexivity. }
  assert (forall k t f' d, Z.of_nat (length d) <= kCapacity ->
            exists t', readEnd k (Z.of_nat (length d)) d (t, f') = Ret (take (Z.to_nat k) d, (t', f')) /\ buffered t' = drop (Z.to_nat k) d) as Hend.
  { intros k t f' d Hd. destruct (takeBuffered_ok k (set_readBuf (Some (mkBuffer d 0)) t) f' _ eq_refl ltac:(cbn; lia)) as (b' & Et & Hb' & _).
    exists (set_readBuf (Some b') (set_readBuf (Some (mkBuffer d 0)) t)). split; [|exact Hb']. unfold readEnd, fillEnd, file, zoom, modify, mbind, ST_bind. rewrite u32_small, Nat2Z.id, firstn_all by (unfold kCapacity in Hd; lia). exact Et. }
  exists s1. split; [now apply Hstart; auto|]. split; [apply Hstart; auto|].
  intros f' d1 d2 H1 H2. destruct (Hend n s1 f' d1 H1) as (s2 & E1 & Hs2). destruct (Hend m s2 f' d2 H2) as (s3 & E2 & Hs3). eauto 8.
Qed.

(** The move constructor leaves the descriptor in both objects: destroying the one that was moved from closes the file
    of the other. *)
Theorem file_moved_is_closed s f n :
  0 <= _fd s -> _busy s = false -> _readBuf s = None ->
  let '(new, old) := moveFile s in
  exists old' f', destroyFile (old, f) = Ret (tt, (old', f')) /\ isOpenF new = true /\ readNoCopyF n (new, f') = Raise (EUV UV_EBADF).
Proof.
  intros Hfd Hb Hn. unfold moveFile. eexists _, (uv_fs_close (_fd s) f). split_and!.
  - unfold destroyFile, _closeF, osClose, file, zoom, modify, gets, assert, when, mbind, ST_bind, isOpenF. cbn [fst snd set_readBuf _fd]. rewrite (proj2 (Z.leb_le _ _) Hfd).
    cbn [_busy set_readBuf fst snd]. rewrite Hb. reflexivity.
  - unfold isOpenF. now apply Z.leb_le.
  - destruct (readNoCopy_error n s (uv_fs_close (_fd s) f) 0 UV_EBADF [] _ Hb Hfd Hn (closed_law _ _ _ _ (close_law f (_fd s)))) as [_ H]. now apply H.
Qed.
End file.
Arguments State : clear implicits.

(** * Paths and directories

    [src/io/uv/Filesystem.cc]: the calls are synchronous and return a status. *)

Definition UV_ENOENT : Z := -2.
Definition UV_EEXIST : Z := -17.

Inductive type_t := Unknown | File | Dir | Link | FIFO | Socket | CharDevice | BlockDevice.

Record dirent := mkDirent { name : bytes; type : type_t }.

Class UVDir (D St : Type) := {
  uv_fs_mkdir : bytes -> Z -> D -> Z * D;
  uv_fs_rmdir : bytes -> D -> Z * D;
  uv_fs_mkdtemp : bytes -> D -> Z * bytes * D;
  uv_fs_stat : bytes -> D -> Z * St;
  uv_fs_lstat : bytes -> D -> Z * St;
  uv_fs_rename : bytes -> bytes -> D -> Z * D;
  uv_fs_unlink : bytes -> D -> Z * D;
  uv_fs_copyfile : bytes -> bytes -> Z -> D -> Z * D;
  uv_fs_realpath : bytes -> D -> Z * bytes;
  (** a directory stream, from which [uv_fs_readdir] reads at most so many entries *)
  uv_fs_opendir : bytes -> D -> Z * nat * D;
  uv_fs_readdir : nat -> nat -> D -> Z * list dirent * D;
  uv_fs_closedir : nat -> D -> D;

  (** the entries of the directory at a path, and those a directory stream has still to give *)
  entriesOf : D -> bytes -> option (list dirent);
  listing : D -> nat -> option (list dirent);
  opendir_law d path es : entriesOf d path = Some es ->
    exists h d', uv_fs_opendir path d = (0, h, d') /\ listing d' h = Some es;
  readdir_law d h n es : listing d h = Some es -> (0 < n)%nat ->
    exists batch rest d', uv_fs_readdir h n d = (Z.of_nat (length batch), batch, d') /\ es = batch ++ rest
      /\ (length batch <= n)%nat /\ (batch = [] -> es = []) /\ listing d' h = Some rest;
  closedir_law d h : listing (uv_fs_closedir h d) h = None;
  mkdir_law d p m d' m' : uv_fs_mkdir p m d = (0, d') -> uv_fs_mkdir p m' d' = (UV_EEXIST, d');
  unlink_law d p d' : uv_fs_unlink p d = (0, d') -> uv_fs_unlink p d' = (UV_ENOENT, d')
}.

Section filesystem.
Context {D St : Type} {V : UVDir D St}.

Definition check (status : Z) : ST D unit := if status <? 0 then throw (EUV status) else mret tt.

Definition checkUnless (err unless : Z) : ST D bool :=
  if err =? unless then mret false else _ ← check err; mret true.

(** A call that changes the state. *)
Definition call {A} (op : D -> A * D) : ST D A := fun d => Ret (op d).

Definition mkdir (path : bytes) (mode : Z) : ST D bool :=
  err ← call (uv_fs_mkdir path mode);
  checkUnless err UV_EEXIST.

Definition rmdir (path : bytes) : ST D bool :=
  err ← call (uv_fs_rmdir path);
  checkUnless err UV_ENOENT.

Definition mkdtemp (templ : bytes) : ST D bytes :=
  '(err, path) ← call (uv_fs_mkdtemp templ);
  _ ← check err;
  mret path.

Definition stat (path : bytes) (followSymlink : bool) : ST D St :=
  '(err, st) ← gets (if followSymlink then uv_fs_stat path else uv_fs_lstat path);
  _ ← check err;
  mret st.

Definition rename (path newPath : bytes) : ST D unit :=
  err ← call (uv_fs_rename path newPath);
  check err.

Definition unlink (path : bytes) : ST D bool :=
  err ← call (uv_fs_unlink path);
  checkUnless err UV_ENOENT.

Definition copyfile (path newPath : bytes) (flags : Z) : ST D unit :=
  err ← call (uv_fs_copyfile path newPath flags);
  check err.

Definition realpath (path : bytes) : ST D bytes :=
  '(err, p) ← gets (uv_fs_realpath path);
  _ ← check err;
  mret p.

(** The loop of [readdir]: what it yields, and the error it ends with. *)
Fixpoint readdirLoop (fuel : nat) (dir : nat) : ST D (list dirent * option error) :=
  match fuel with
  | O => crash NoFuel
  | Datatypes.S fuel =>
      '(n, dirents) ← call (uv_fs_readdir dir 20);
      if n <? 0 then mret ([], Some (EUV n))
      else if n =? 0 then mret ([], None)
      else '(rest, e) ← readdirLoop fuel dir; mret (take (Z.to_nat n) dirents ++ rest, e)
  end.

(** [readdir]; however it ends, the directory is closed ([DEFER]). *)
Definition readdir (fuel : nat) (path : bytes) : ST D (list dirent * option error) :=
  '(err, dir) ← call (uv_fs_opendir path);
  if err <? 0 then mret ([], Some (EUV err))
  else
    r ← readdirLoop fuel dir;
    _ ← modify (uv_fs_closedir dir);
    mret r.

Lemma readdirLoop_ok fuel : forall d h es, listing d h = Some es -> (length es < fuel)%nat ->
  exists d', readdirLoop fuel h d = Ret ((es, None), d').
Proof.
  induction fuel as [|fuel IH]; intros d h es Hl Hf; [lia|]. cbn [readdirLoop].
  destruct (readdir_law d h 20 es Hl) as (batch & rest & d' & E & -> & _ & Hz & Hl'); [lia|].
  unfold mbind, ST_bind, call. rewrite E. rewrite (proj2 (Z.ltb_ge _ _)) by lia.
  destruct batch as [|x batch]; [cbn; exists d'; destruct rest; [done|now specialize (Hz eq_refl)]|].
  rewrite (proj2 (Z.eqb_neq _ _)) by (cbn [length]; lia). rewrite length_app in Hf.
  destruct (IH d' h rest Hl') as (d2 & E2); [cbn in Hf; lia|]. rewrite E2. exists d2. rewrite Nat2Z.id, firstn_all. done.
Qed.

(** [readdir] yields every entry of a directory once, in order, and ends; a round per entry and one more are
    enough, since libuv gives at least one at a time. *)
Theorem readdir_lists d path es fuel :
  entriesOf d path = Some es -> (length es < fuel)%nat -> exists d', readdir fuel path d = Ret ((es, None), d').
Proof.
  intros He Hf. destruct (opendir_law d path es He) as (h & d1 & E & Hl). destruct (readdirLoop_ok fuel d1 h es Hl Hf) as (d2 & E2).
  exists (uv_fs_closedir h d2). unfold readdir, mbind, ST_bind, call, modify. rewrite E. cbn [Z.ltb Z.compare]. now rewrite E2.
Qed.

(** [mkdir] and [unlink] say whether they did anything: true the first time, false the second. *)
Theorem mkdir_unlink_twice d p m m' :
  (forall x, uv_fs_mkdir p m d = (0, x) -> mkdir p m d = Ret (true, x) /\ mkdir p m' x = Ret (false, x))
  /\ (forall x, uv_fs_unlink p d = (0, x) -> unlink p d = Ret (true, x) /\ unlink p x = Ret (false, x)).
Proof.
  split; intros x E; unfold mkdir, unlink, checkUnless, check, call, mbind, ST_bind.
  - rewrite E, (mkdir_law d p m x m' E). done.
  - rewrite E, (unlink_law d p x E). done.
Qed.
End filesystem.

(** * Files in memory *)

(** Files by path, open files by descriptor, and the next descriptor; a read gives at most three bytes. *)
Record Mem := mkMem { paths : gmap bytes bytes; fds : gmap Z OpenFile; nextFd : nat }.

Definition set_fds (m : gmap Z OpenFile) (f : Mem) : Mem := mkMem (paths f) m (nextFd f).

#[export] Program Instance mem_file : UVFile Mem := {
  uv_fs_open path flags _ f :=
    match paths f !! path with
    | Some c => (0, (Z.of_nat (nextFd f), mkMem (paths f) (<[Z.of_nat (nextFd f) := mkOpen c 0 (flags =? ReadOnly) (flags =? WriteOnly)]> (fds f)) (Datatypes.S (nextFd f))))
    | None => (0, (UV_ENOENT, f))
    end;
  uv_fs_read fd n offset f :=
    match fds f !! fd with
    | Some o => let d := take (Nat.min n 3) (drop (place offset o) (contents o)) in (0, (Z.of_nat (length d), d, set_fds (<[fd := moved offset (length d) o]> (fds f)) f))
    | None => (0, (UV_EBADF, [], f))
    end;
  uv_fs_write fd b offset f :=
    match fds f !! fd with
    | Some o => (0, (Z.of_nat (length b), set_fds (<[fd := written offset b o]> (fds f)) f))
    | None => (0, (UV_EBADF, f))
    end;
  uv_fs_close fd f := set_fds (delete fd (fds f)) f;
  uv_fs_fstat fd f := match fds f !! fd with Some o => (0, Z.of_nat (length (contents o))) | None => (UV_EBADF, 0) end;
  fileAt f path := paths f !! path;
  openFile f fd := fds f !! fd;
  roomy _ _ := True
}.
Next Obligation. intros f path flags mode c E _. cbn. rewrite E. eexists _, _. split; [reflexivity|]. split; [lia|]. cbn. apply lookup_insert_eq. Qed.
Next Obligation.
  intros f fd o n offset E _ Hn _. cbn. rewrite E. eexists _, _. split; [reflexivity|]. split_and!.
  - rewrite length_take. lia.
  - set (l := drop _ _). set (k := Nat.min n 3). rewrite length_take, <- (take_take l k (length l)), firstn_all. done.
  - intros H. apply (f_equal length) in H. rewrite length_take in H. cbn in H. apply nil_length_inv. lia.
  - cbn. apply lookup_insert_eq.
  - done.
Qed.
Next Obligation.
  intros f fd o b offset E _ _. cbn. rewrite E. exists (length b). eexists. split; [reflexivity|]. split; [done|]. split; [|done]. rewrite firstn_all. cbn. apply lookup_insert_eq.
Qed.
Next Obligation. intros f fd. cbn. apply lookup_delete_eq. Qed.
Next Obligation. intros f fd n offset E. cbn. now rewrite E. Qed.
Next Obligation. intros f fd o E. cbn. now rewrite E. Qed.

Definition exampleMem : Mem := mkMem {[ lit "a.txt" := lit "hello, world" ]} {[ 7 := mkOpen (lit "hello") 2 true true ]} 8.

Lemma file_reads_whole_witness :
  exists x x', openF (U := mem_file) (newFile (lit "a.txt") ReadOnly 420, exampleMem) = Ret (tt, x) /\ readAllF x = Ret (lit "hello, world", x').
Proof.
  destruct (file_reads_whole (U := mem_file) (lit "a.txt") 420 exampleMem (lit "hello, world")) as (x & x' & E & E' & _); [reflexivity|vm_compute; discriminate|]. eauto.
Defined.

Lemma file_roundtrip_witness :
  exists x n d x', pwritev (U := mem_file) [lit "ab"; lit "cd"] 1 (mkFile [] 2 0 7 None false, exampleMem) = Ret (tt, x)
    /\ preadv [2; 1]%nat 1 x = Ret ((n, d), x') /\ d <> [].
Proof.
  destruct (file_roundtrip (U := mem_file) (mkFile [] 2 0 7 None false) exampleMem (mkOpen (lit "hello") 2 true true) [lit "ab"; lit "cd"] 1 [2; 1]%nat)
    as (x & n & d & x' & E1 & E2 & _ & Hd & _).
  - split_and!; [discriminate|reflexivity|reflexivity|exact I].
  - reflexivity.
  - reflexivity.
  - exact I.
  - split; discriminate.
  - cbn. unfold kMaxBufs. lia.
  - cbn. unfold kMaxBufs. lia.
  - vm_compute. lia.
  - eauto 8.
Defined.
