(* ===== verification/Sockets.v ===== *)
(** Network sockets on libuv: address look-up ([src/io/uv/AddrInfo.cc]), [ISocket] ([include/crouton/io/ISocket.hh]),
    [TCPSocket], [TCPServer], [LocalSocket] and [Pipe] ([src/io/uv]), and the requests that are awaited ([AwaitableRequest] of
    [src/io/uv/UVInternal.hh]); and the command-line arguments of [src/io/Process.cc].  The streams they open are in [UVStream.v].

    libuv is outside: its functions are parameters.  A call with a callback gives a status at once and the
    status the callback is called with.  A [sockaddr] is the bytes of the structure. *)

From S2P Require Import Prelude Numerals StringUtils.

Local Open Scope Z_scope.

(** * Requests *)

(** [uv::check]. *)
Definition check (status : Z) : outcome unit := if status <? 0 then Raise (EUV status) else Ret tt.

(** [AwaitableRequest::await_resume] is [noexcept]: what [check] throws ends the process ([std::terminate]). *)
Definition await_resume (status : Z) : outcome Z :=
  match check status with
  | Ret _ => Ret status
  | _ => Fault AssertFailed
  end.

(** A call that is refused at once throws; else its callback's status is awaited. *)
Definition request (reply : Z * Z) : outcome Z :=
  _ ← check reply.1;
  await_resume reply.2.

(** * Addresses *)

Definition AF_INET : Z := 2.
Definition SOCK_STREAM : Z := 1.
Definition IPPROTO_TCP : Z := 6.
Definition UV__EAI_ADDRFAMILY : Z := -3000.

Record addrinfo := mkInfo { ai_family : Z; ai_socktype : Z; ai_protocol : Z; ai_addr : bytes }.

(** [sa_family], [sizeof(sockaddr)], and the size of the address of a family. *)
Definition sa_family (a : bytes) : Z := nth 0 a 0 + 256 * nth 1 a 0.
Definition sizeof_sockaddr : nat := 16.

Section sockets.
(** The number of the family of IPv6, which depends on the platform. *)
Context (AF_INET6 : Z).

Definition addrSize (a : bytes) : nat := if sa_family a =? AF_INET6 then 28 else 16.

(** ** Look-up *)

(** host, service, hints; the answer comes with the callback *)
Context (uv_getaddrinfo : bytes -> option bytes -> addrinfo -> Z * (Z * list addrinfo)).

Definition hints : addrinfo := mkInfo 0 SOCK_STREAM IPPROTO_TCP [].

Definition lookup (hostName : bytes) (port : Z) : outcome (list addrinfo) :=
  let service := if port =? 0 then None else Some (to_string port) in
  let '(status, (result, info)) := uv_getaddrinfo hostName service hints in
  _ ← request (status, result);
  Ret info.

Definition familyOf (ipv : Z) : Z := if ipv =? 4 then AF_INET else if ipv =? 6 then AF_INET6 else ipv.

Definition suits (af : Z) (i : addrinfo) : bool :=
  (ai_socktype i =? SOCK_STREAM) && (ai_protocol i =? IPPROTO_TCP) && (ai_family i =? af).

Fixpoint firstAddress (af : Z) (info : list addrinfo) : option bytes :=
  match info with
  | [] => None
  | i :: r => if suits af i then Some (ai_addr i) else firstAddress af r
  end.

(** [primaryAddress(int)]. *)
Definition primaryAddressOf (info : list addrinfo) (ipv : Z) : outcome (option bytes) :=
  _ ← precondition (negb (bool_decide (info = [])));
  Ret (firstAddress (familyOf ipv) info).

Definition primaryAddress (info : list addrinfo) : outcome bytes :=
  addr ← primaryAddressOf info 4;
  addr ← (match addr with None => primaryAddressOf info 6 | Some a => Ret (Some a) end);
  match addr with
  | Some a => Ret a
  | None => Raise (EUV UV__EAI_ADDRFAMILY)
  end.

(** ** [ISocket] and [TCPSocket] *)

Record binding := mkBinding { address : bytes; port : Z; noDelay : bool; keepAlive : Z }.

(** A connected handle: the address it was connected to, and its options. *)
Record handle := mkHandle { peer : bytes; nodelay : bool; keepalive : option Z }.

Record TCPSocket := mkSocket { _binding : option binding; _stream : option handle }.

Definition newSocket : TCPSocket := mkSocket None None.

Definition bind (addr : bytes) (p : Z) (s : TCPSocket) : outcome TCPSocket :=
  _ ← precondition (bool_decide (_binding s = None));
  Ret (mkSocket (Some (mkBinding addr p false 0)) (_stream s)).

(** They follow a null pointer when [bind] was not called. *)
Definition setNoDelay (b : bool) (s : TCPSocket) : outcome TCPSocket :=
  match _binding s with
  | Some x => Ret (mkSocket (Some (mkBinding (address x) (port x) b (keepAlive x))) (_stream s))
  | None => Fault OutOfBounds
  end.

Definition setKeepAlive (secs : Z) (s : TCPSocket) : outcome TCPSocket :=
  match _binding s with
  | Some x => Ret (mkSocket (Some (mkBinding (address x) (port x) (noDelay x) secs)) (_stream s))
  | None => Fault OutOfBounds
  end.

Context (uv_ip4_addr : bytes -> Z -> Z * bytes) (uv_tcp_connect : bytes -> Z * Z) (beyond : bytes).

(** [sockaddr addr] is a variable of 16 bytes, to which an address is copied; [beyond] is what lies after it.  libuv reads as many bytes
    as the family has. *)
Definition copied (a : bytes) : bytes := take sizeof_sockaddr a.
Definition readByUV (a : bytes) : bytes := take (addrSize a) (a ++ beyond).

Definition openTCP (s : TCPSocket) : outcome TCPSocket :=
  _ ← precondition (bool_decide (_stream s = None));
  match _binding s with
  | None => Fault AssertFailed
  | Some b =>
      let '(status, a4) := uv_ip4_addr (address b) (port b) in
      addr ← (if status <? 0 then info ← lookup (address b) (port b); a ← primaryAddress info; Ret (copied a) else Ret (copied a4));
      _ ← request (uv_tcp_connect (readByUV addr));
      Ret (mkSocket None (Some (mkHandle (readByUV addr) (noDelay b) (if 0 <? keepAlive b then Some (keepAlive b) else None))))
  end.

(** [ISocket::connect]. *)
Definition connect (addr : bytes) (p : Z) (s : TCPSocket) : outcome TCPSocket := s ← bind addr p s; openTCP s.

(** [TCPSocket::accept]: a handle that is connected already. *)
Definition acceptHandle (h : handle) (s : TCPSocket) : outcome TCPSocket :=
  _ ← precondition (bool_decide (_stream s = None));
  Ret (mkSocket (_binding s) (Some h)).

(** ** Properties *)

Lemma firstAddress_spec af info :
  match firstAddress af info with
  | Some a => exists l i r, info = l ++ i :: r /\ suits af i = true /\ ai_addr i = a /\ Forall (fun j => suits af j = false) l
  | None => Forall (fun j => suits af j = false) info
  end.
Proof.
  induction info as [|i r IH]; [constructor|]. cbn. destruct (suits af i) eqn:E.
  - exists [], i, r. split_and!; try done.
  - destruct (firstAddress af r) as [a|]; [|now constructor]. destruct IH as (l & j & r' & -> & H1 & H2 & H3). exists (i :: l), j, r'. split_and!; try done. now constructor.
Qed.

(** The address of a host is the first of IPv4, else the first of IPv6, that suits TCP; with neither there is an error. *)
Theorem primary_address_prefers_ip4 info :
  info <> [] ->
  primaryAddress info =
    match firstAddress AF_INET info, firstAddress AF_INET6 info with
    | Some a, _ => Ret a
    | None, Some a => Ret a
    | None, None => Raise (EUV UV__EAI_ADDRFAMILY)
    end.
Proof.
  intros Hn. unfold primaryAddress, primaryAddressOf. rewrite bool_decide_eq_false_2 by done. mred. unfold familyOf. cbn.
  destruct (firstAddress AF_INET info); [done|]. mred. now destruct (firstAddress AF_INET6 info).
Qed.

(** A socket that is bound to a numeric IPv4 address connects to it, with the options it was given; the binding is used up. *)
Theorem tcp_connects b a :
  uv_ip4_addr (address b) (port b) = (0, a) -> sa_family a = AF_INET -> AF_INET <> AF_INET6 -> length a = sizeof_sockaddr -> uv_tcp_connect a = (0, 0) ->
  openTCP (mkSocket (Some b) None) = Ret (mkSocket None (Some (mkHandle a (noDelay b) (if 0 <? keepAlive b then Some (keepAlive b) else None)))).
Proof.
  intros E Hf Hne Hl Hc. unfold openTCP. cbn [_binding _stream]. rewrite bool_decide_eq_true_2 by done. mred. rewrite E. mred.
  assert (readByUV (copied a) = a) as Ea.
  { unfold readByUV, copied. rewrite (take_ge a) by (rewrite Hl; done). unfold addrSize. rewrite Hf, (proj2 (Z.eqb_neq _ _)) by done. apply take_app_length'. symmetry. exact Hl. }
  cbn [Z.ltb Z.compare]. mred. rewrite Ea, Hc. reflexivity.
Qed.

(** ** Defects *)

(** A request that fails in its callback (a refused connection, a host that is not known) ends the process instead of raising its error. *)
Theorem failed_request_terminates status : status < 0 -> request (0, status) = Fault AssertFailed.
Proof. intros H. unfold request, await_resume, check. cbn [fst snd Z.ltb Z.compare]. mred. now rewrite (proj2 (Z.ltb_lt _ _) H). Qed.

Theorem unknown_host_terminates b x status info :
  uv_ip4_addr (address b) (port b) = (-22, x) -> (forall s, uv_getaddrinfo (address b) s hints = (0, (status, info))) -> status < 0 ->
  openTCP (mkSocket (Some b) None) = Fault AssertFailed.
Proof.
  intros E Hg Hs. unfold openTCP. cbn [_binding _stream]. rewrite bool_decide_eq_true_2 by done. mred. rewrite E. change (-22 <? 0) with true. cbn iota.
  unfold lookup. rewrite Hg, failed_request_terminates by done. reflexivity.
Qed.

(** An address of IPv6 does not fit the variable: libuv is given its first 16 bytes, and then other ones. *)
Theorem ipv6_address_cut a :
  sa_family a = AF_INET6 -> length a = 28%nat -> (12 <= length beyond)%nat ->
  readByUV (copied a) = take 16 a ++ take 12 beyond.
Proof.
  intros Hf Hl Hb. unfold readByUV, copied, sizeof_sockaddr. assert (sa_family (take 16 a) = AF_INET6) as Hf'.
  { destruct a as [|x [|y a]]; try discriminate. exact Hf. }
  unfold addrSize. rewrite Hf', Z.eqb_refl. rewrite take_app_ge by (rewrite length_take; lia). rewrite length_take. repeat f_equal; lia.
Qed.
End sockets.

(** * [TCPServer] *)

Section server.
Context {A : Type}.

(** [_tcpHandle] is null once it is closed. *)
Record TCPServer := mkServer { _tcpHandle : bool; _acceptor : bool; _isOpen : bool; clients : list A }.

(** The status of [uv_ip4_addr] and of [uv_tcp_bind]. *)
Definition newServer (parsed bound : Z) : outcome TCPServer :=
  _ ← check parsed;
  _ ← check bound;
  Ret (mkServer true false false []).

Definition listen (status : Z) (s : TCPServer) : outcome TCPServer :=
  _ ← check status;
  Ret (mkServer (_tcpHandle s) true true (clients s)).

Definition closeServer (s : TCPServer) : TCPServer := mkServer false (_acceptor s) false (clients s).

(** The callback of [uv_listen]: [accept], of which the exceptions are caught; the new client is given to the acceptor. *)
Definition accept (status accepted : Z) (client : A) (s : TCPServer) : TCPServer :=
  if status <? 0 then s
  else if accepted <? 0 then s
  else mkServer (_tcpHandle s) (_acceptor s) (_isOpen s) (clients s ++ [client]).

(** [port]: the field [sin_port] or [sin6_port] of the address, the bytes 2 and 3 of either. *)
Definition serverPort (getsockname : Z * bytes) : outcome Z :=
  _ ← check getsockname.1;
  Ret (nth 2 getsockname.2 0 + 256 * nth 3 getsockname.2 0).

(** Every connection that libuv accepts is given to the acceptor once, in order; one that fails is left out. *)
Theorem server_accepts (s : TCPServer) (l : list (Z * Z * A)) :
  clients (fold_left (fun s '(st, acc, c) => accept st acc c s) l s)
  = clients s ++ map snd (filter (fun '(st, acc, _) => 0 <= st /\ 0 <= acc) l).
Proof.
  revert s. induction l as [|[[st acc] c] l IH]; intros s; [now rewrite app_nil_r|]. cbn [fold_left]. rewrite IH, filter_cons. unfold accept.
  destruct (Z.ltb_spec st 0); [destruct (decide _); [lia|done]|]. destruct (Z.ltb_spec acc 0); [destruct (decide _); [lia|done]|].
  destruct (decide _); [|lia]. cbn. now rewrite <- app_assoc.
Qed.

(** The port is in network order in the structure, and is returned as it is: on a little-endian host its bytes are swapped. *)
Theorem server_port_swapped p rest family :
  0 <= p < 65536 -> serverPort (0, family :: 0 :: p / 256 :: p mod 256 :: rest) = Ret (p / 256 + 256 * (p mod 256)).
Proof. intros _. reflexivity. Qed.
End server.

(** * Local sockets and pipes *)

(** [_fd] is the descriptor until it is opened; [opened] is the handle of the stream. *)
Record Pair := mkPair { _fd : Z; opened : option Z }.

Section local.
(** Opening a descriptor as a handle. *)
Context (uv_open : Z -> Z).

Definition openedStream (fd : Z) (s : Pair) : outcome Pair :=
  _ ← precondition (bool_decide (opened s = None));
  Ret (mkPair (_fd s) (Some fd)).

Definition openLocal (s : Pair) : outcome Pair :=
  if 0 <=? _fd s then
    if uv_open (_fd s) =? 0 then openedStream (_fd s) (mkPair (-1) (opened s)) else Raise (EUV (uv_open (_fd s)))
  else Ret s.

Definition openPipe (s : Pair) : outcome Pair :=
  if 0 <=? _fd s then
    if uv_open (_fd s) =? 0 then openedStream (_fd s) (mkPair 0 (opened s)) else Raise (EUV (uv_open (_fd s)))
  else Ret s.

(** Opening a local socket again does nothing; opening a pipe again opens the descriptor 0, the standard input,
    and then fails. *)
Theorem open_again fd :
  0 <= fd -> uv_open fd = 0 -> uv_open 0 = 0 ->
  (s ← openLocal (mkPair fd None); openLocal s) = Ret (mkPair (-1) (Some fd))
  /\ openPipe (mkPair fd None) = Ret (mkPair 0 (Some fd)) /\ openPipe (mkPair 0 (Some fd)) = Fault AssertFailed.
Proof.
  intros Hf E E0. unfold openLocal, openPipe, openedStream. cbn [_fd opened]. rewrite (proj2 (Z.leb_le _ _) Hf), E. cbn. now rewrite E0.
Qed.
End local.

(** * Command-line arguments *)

(** [Args]: the program's name and its arguments. *)
Abbreviation Args := (list bytes).

Definition OUT_OF_RANGE : error := ECpp 6.

(** [at(1)] throws when there is no such element. *)
Definition at1 (a : Args) : outcome bytes := match a with _ :: x :: _ => Ret x | _ => Raise OUT_OF_RANGE end.

Definition first (a : Args) : outcome (option bytes) :=
  if (1 <=? length a)%nat then x ← at1 a; Ret (Some x) else Ret None.

Definition popFirst : ST Args (option bytes) := fun a =>
  if (1 <=? length a)%nat then x ← at1 a; Ret (Some x, match a with p :: _ :: r => p :: r | _ => a end)
  else Ret (None, a).

Definition popFlag : ST Args (option bytes) := fun a =>
  flag ← first a;
  match flag with
  | Some f => if isPrefix (lit "-") f then '(_, a') ← popFirst a; Ret (Some f, a') else Ret (None, a)
  | None => Ret (None, a)
  end.

Fixpoint pops (n : nat) : ST Args (list (option bytes)) :=
  match n with
  | O => mret []
  | S n => x ← popFirst; r ← pops n; mret (x :: r)
  end.

(** The arguments are popped in order; but when there are none left, the next pop throws instead of giving none. *)
Theorem args_popped prog args :
  pops (length args) (prog :: args) = Ret (map Some args, [prog]) /\ popFirst [prog] = Raise OUT_OF_RANGE /\ popFlag [prog] = Raise OUT_OF_RANGE.
Proof.
  split_and!; [|done|done]. induction args as [|x args IH]; [done|]. cbn [length pops]. unfold mbind, ST_bind. cbn [popFirst length Nat.leb at1]. mred. now rewrite IH.
Qed.

(** [isColor]: the environment, and whether the descriptor is a terminal. *)
Definition isColor (clicolorForce : bool) (isatty : bool) (TERM : option bytes) : bool :=
  let has t s := match findSub (lit s) t with Some _ => true | None => false end in
  clicolorForce || (isatty && match TERM with Some t => has t "ANSI"%string || has t "ansi"%string || has t "color"%string | None => false end).
