(* ===== verification/EspSocket.v ===== *)
(** TCP sockets of the ESP32 ([src/io/esp32/ESPTCPSocket.cc]) and address look-up there ([src/io/esp32/ESPAddrInfo.cc]).

    lwIP is outside.  It calls [_readCallback] on its own thread with a chain of buffers, an error, or neither at EOF; [net] is the list of the
    calls it still makes.  One comes while a read waits for it (the AWAIT in [fillInputBuf]), or unrequested at any other time; the
    mutex makes the two exclude each other.  Waiting when no call will come never ends ([Fault NoFuel]).  To a write, lwIP answers with the
    room in its buffer and a status. *)

From S2P Require Import Prelude IStream.

Local Open Scope Z_scope.

(** * Address look-up *)

Definition ERR_OK : Z := 0.
Definition ERR_MEM : Z := -1.
Definition ERR_INPROGRESS : Z := -5.
Definition HostNotFound : error := EEsp 1.

(** [AddrInfo::lookup]: the status and address of [dns_gethostbyname], and what its callback gives. *)
Definition lookupEsp {A} (status : Z) (addr : A) (callback : option A) : outcome A :=
  if status =? ERR_OK then Ret addr
  else if status =? ERR_INPROGRESS then match callback with Some a => Ret a | None => Raise HostNotFound end
  else Raise (ELwip status).

(** [primaryAddress(af)]: throws for any family but 4. *)
Definition primaryAddressEsp {A} (addr : A) (af : Z) : outcome A := if af =? 4 then Ret addr else Raise HostNotFound.

(** * The socket *)

(** What [_readCallback] is called with; a chain is the payloads of its buffers. *)
Inductive event := Chain (l : list bytes) | Err (code : Z) | Eof.

(** lwIP's answer to one round of [write]: [tcp_sndbuf] and the result of [tcp_write]. *)
Record wreply := mkReply { sndbuf : nat; werr : Z }.

Record TCPSocket := mkSocket {
  _isOpen : bool;
  _inputBuf : bytes;
  _readBufs : list bytes;
  _readErr : option error;
  notified : bool;           (** [_readBlocker] *)
  acked : nat;               (** bytes given to [tcp_recved] *)
  net : list event;
  out : bytes;
  writes : nat               (** how many writes were begun *)
}.

Definition set_inputBuf b s := mkSocket (_isOpen s) b (_readBufs s) (_readErr s) (notified s) (acked s) (net s) (out s) (writes s).
Definition set_readBufs l s := mkSocket (_isOpen s) (_inputBuf s) l (_readErr s) (notified s) (acked s) (net s) (out s) (writes s).
Definition set_readErr e s := mkSocket (_isOpen s) (_inputBuf s) (_readBufs s) e (notified s) (acked s) (net s) (out s) (writes s).
Definition set_notified b s := mkSocket (_isOpen s) (_inputBuf s) (_readBufs s) (_readErr s) b (acked s) (net s) (out s) (writes s).
Definition set_acked n s := mkSocket (_isOpen s) (_inputBuf s) (_readBufs s) (_readErr s) (notified s) n (net s) (out s) (writes s).
Definition set_net l s := mkSocket (_isOpen s) (_inputBuf s) (_readBufs s) (_readErr s) (notified s) (acked s) l (out s) (writes s).
Definition set_out o s := mkSocket (_isOpen s) (_inputBuf s) (_readBufs s) (_readErr s) (notified s) (acked s) (net s) o (writes s).
Definition set_writes n s := mkSocket (_isOpen s) (_inputBuf s) (_readBufs s) (_readErr s) (notified s) (acked s) (net s) (out s) n.
Definition set_isOpen b s := mkSocket b (_inputBuf s) (_readBufs s) (_readErr s) (notified s) (acked s) (net s) (out s) (writes s).

Definition newSocket (evs : list event) : TCPSocket := mkSocket false [] [] None false 0 evs [] 0.

(** [open] of a socket that was not closed, after the look-up: the status of [tcp_connect], and that of its callback, if it is made. *)
Definition openEsp (status : Z) (connected : option Z) : ST TCPSocket unit :=
  if negb (status =? 0) then throw (ELwip status)
  else match connected with
       | None => crash NoFuel
       | Some err => if negb (err =? 0) then throw (ELwip err) else modify (set_isOpen true)
       end.

(** [close]: [err] is the status of [tcp_close]. *)
Definition closeEsp (err : Z) : ST TCPSocket unit :=
  o ← gets _isOpen;
  when o (
    modify (set_isOpen false);;
    modify (set_readBufs []);;
    assert (err =? 0)).

Definition closeWriteEsp : ST TCPSocket unit := throw (ECrouton Unimplemented).

(** It is documented to be the number of bytes. *)
Definition bytesAvailable (s : TCPSocket) : nat :=
  if negb (bool_decide (_inputBuf s = [])) || negb (bool_decide (_readBufs s = [])) then 1 else 0.

Definition isReadable (s : TCPSocket) : bool := _isOpen s && (0 <? bytesAvailable s)%nat.

(** ** Reading *)

Definition _readCallback (ev : event) : ST TCPSocket unit :=
  (match ev with
   | Chain l => modify (fun s => set_readBufs (_readBufs s ++ l) s)
   | Err code => modify (set_readErr (Some (ELwip code)))
   | Eof => modify (set_readErr (Some (ECrouton UnexpectedEOF)))
   end);;
  bufs ← gets _readBufs; err ← gets _readErr;
  assert (negb (bool_decide (bufs = [])) || bool_decide (is_Some err));;
  modify (set_notified true).

Definition nextEvent : ST TCPSocket unit :=
  n ← gets net;
  match n with
  | [] => crash NoFuel
  | ev :: r => modify (set_net r);; _readCallback ev
  end.

(** A call that no read is waiting for. *)
Definition unrequested : ST TCPSocket unit := nextEvent.

(** The first buffer, which was read, is given back. *)
Definition dropFirst : ST TCPSocket unit :=
  bufs ← gets _readBufs;
  match bufs with
  | [] => mret tt
  | b :: r => modify (fun s => set_acked (acked s + length b) s);; modify (set_readBufs r)
  end.

Definition fillInputBuf : ST TCPSocket bytes :=
  o ← gets _isOpen; ib ← gets _inputBuf;
  assert (o && bool_decide (ib = []));;
  modify (set_notified false);;
  dropFirst;;
  bufs ← gets _readBufs; err ← gets _readErr;
  when (bool_decide (bufs = []) && negb (bool_decide (is_Some err))) nextEvent;;
  bufs ← gets _readBufs; err ← gets _readErr;
  match bufs, err with
  | b :: _, _ => modify (set_inputBuf b);; mret b
  | [], None => crash AssertFailed
  | [], Some e => if decide (e = ECrouton UnexpectedEOF) then mret [] else throw e
  end.

(** [_inputBuf.read(maxLen)]. *)
Definition takeInput (maxLen : Z) : ST TCPSocket bytes :=
  ib ← gets _inputBuf;
  let n := Z.to_nat (Z.min maxLen (Z.of_nat (length ib))) in
  modify (set_inputBuf (drop n ib));;
  mret (take n ib).

Definition readNoCopyEsp (maxLen : Z) : ST TCPSocket bytes :=
  o ← gets _isOpen;
  assert o;;
  ib ← gets _inputBuf;
  if bool_decide (ib = []) then fillInputBuf;; takeInput maxLen else takeInput maxLen.

Definition peekNoCopyEsp : ST TCPSocket bytes :=
  o ← gets _isOpen;
  assert o;;
  ib ← gets _inputBuf;
  if bool_decide (ib = []) then fillInputBuf else mret ib.

(** ** Writing *)

(** The loop of [write]; what is left when lwIP makes no more answers. *)
Fixpoint writeLoop (rs : list wreply) (data : bytes) : ST TCPSocket unit :=
  match data with
  | [] => mret tt
  | _ =>
      match rs with
      | [] => crash NoFuel
      | r :: rs =>
          if werr r =? ERR_OK then
            modify (fun s => set_out (out s ++ take (sndbuf r) data) s);; writeLoop rs (drop (sndbuf r) data)
          else if werr r =? ERR_MEM then writeLoop rs data
          else throw (ELwip (werr r))
      end
  end.

Section socket.
(** The answers to the [n]-th write, of these bytes. *)
Context (replies : nat -> bytes -> list wreply).

Definition writeEsp (data : bytes) : ST TCPSocket unit :=
  o ← gets _isOpen;
  assert o;;
  n ← gets writes;
  modify (set_writes (S n));;
  writeLoop (replies n data) data.

(** * It is an [IStream] *)

(** What lwIP will deliver: buffers that are not empty, and at last EOF. *)
Inductive goodNet : list event -> Prop :=
| good_eof : goodNet [Eof]
| good_chain l r : l <> [] -> Forall (fun b => b <> []) l -> goodNet r -> goodNet (Chain l :: r).

Definition netData (l : list event) : bytes := concat (map (fun e => match e with Chain l => concat l | _ => [] end) l).

Definition contentEsp (s : TCPSocket) : bytes := _inputBuf s ++ concat (tail (_readBufs s)) ++ netData (net s).

(** [_inputBuf] is in the first buffer, if there is one; none of the others is empty; and EOF has come, or it will. *)
Record streamOk (s : TCPSocket) : Prop := {
  ok_open : _isOpen s = true;
  ok_first : _readBufs s = [] -> _inputBuf s = [];
  ok_rest : Forall (fun b => b <> []) (tail (_readBufs s));
  ok_net : match _readErr s with Some e => e = ECrouton UnexpectedEOF /\ net s = [] | None => goodNet (net s) end
}.

(** Enough room comes, and no error. *)
Definition roomOf (r : wreply) : nat := if werr r =? ERR_OK then sndbuf r else 0%nat.

Definition adequate (rs : list wreply) (n : nat) : Prop :=
  Forall (fun r => werr r = ERR_OK \/ werr r = ERR_MEM) rs /\ (n <= sum_list_with roomOf rs)%nat.

Definition writableEsp (s : TCPSocket) : Prop := _isOpen s = true /\ forall i b, adequate (replies i b) (length b).

Lemma takeInput_ok n s : 0 < n ->
  takeInput n s = Ret (take (Z.to_nat n) (_inputBuf s), set_inputBuf (drop (Z.to_nat n) (_inputBuf s)) s).
Proof.
  intros Hn. unfold takeInput, gets, modify, mbind, ST_bind. cbn [fst snd].
  destruct (Z.le_ge_cases n (Z.of_nat (length (_inputBuf s)))); [now rewrite Z.min_l by lia|].
  rewrite Z.min_r, Nat2Z.id, firstn_all, drop_all by lia. rewrite take_ge, (drop_ge _ (Z.to_nat n)) by lia. reflexivity.
Qed.

(** Filling the input, when all of it was read: the next buffer, or nothing at EOF. *)
Lemma fillEsp_ok s : streamOk s -> _inputBuf s = [] ->
  exists b s', fillInputBuf s = Ret (b, s') /\ streamOk s' /\ _inputBuf s' = b /\ contentEsp s' = contentEsp s /\ (b = [] -> contentEsp s = [])
    /\ out s' = out s /\ writes s' = writes s.
Proof.
  intros [Ho Hf Hr Hn] Hi. destruct s as [o ib bufs err nt ak nw ou wr]. cbn in *. subst o ib. clear Hf.
  unfold fillInputBuf, dropFirst, nextEvent, _readCallback, gets, modify, assert, when, mbind, ST_bind. cbn.
  destruct bufs as [|b0 [|b1 r]]; cbn in *.
  3: { apply Forall_cons in Hr as [Hb1 Hr]. exists b1. eexists. split; [reflexivity|]. split; [split; cbn; done|]. cbn. unfold contentEsp. cbn. rewrite app_assoc. done. }
  all: destruct err as [e|]; cbn.
  1, 3: destruct Hn as [-> ->]; exists []; eexists; (split; [reflexivity|]); split; [split; cbn; done|]; done.
  all: destruct Hn as [|l r Hl Hne Hg]; cbn.
  1, 3: exists []; eexists; (split; [reflexivity|]); split; [split; cbn; done|]; done.
  all: destruct l as [|b l]; [done|]; cbn; apply Forall_cons in Hne as [Hb Hne]; exists b; eexists; (split; [reflexivity|]);
    split; [split; cbn; done|]; unfold contentEsp, netData; cbn; rewrite !app_assoc; done.
Qed.

Lemma readEsp_ok n s : streamOk s -> 0 < n ->
  exists a s', readNoCopyEsp n s = Ret (a, s') /\ streamOk s' /\ contentEsp s = a ++ contentEsp s' /\ (a = [] -> contentEsp s = [])
    /\ Z.of_nat (length a) <= n /\ (_inputBuf s <> [] -> a = take (Z.to_nat n) (_inputBuf s)) /\ out s' = out s /\ writes s' = writes s.
Proof.
  assert (forall t, streamOk t -> streamOk (set_inputBuf (drop (Z.to_nat n) (_inputBuf t)) t)
            /\ contentEsp t = take (Z.to_nat n) (_inputBuf t) ++ contentEsp (set_inputBuf (drop (Z.to_nat n) (_inputBuf t)) t)) as Hcut.
  { intros t [H1 H2 H3 H4]. split; [split; cbn; try done; intros Hb; now rewrite H2, drop_nil|]. unfold contentEsp. cbn. rewrite <- (take_drop (Z.to_nat n) (_inputBuf t)) at 1. now rewrite <- !app_assoc. }
  intros Hs Hn. unfold readNoCopyEsp, gets, assert, mbind, ST_bind. rewrite (ok_open s Hs). cbn [fst snd].
  case_bool_decide as Hi.
  - destruct (fillEsp_ok s Hs Hi) as (b & s1 & E & Hs1 & Hb & Hc & Hz & Hout & Hw). rewrite E, takeInput_ok by done. destruct (Hcut s1 Hs1) as [Hs2 Hc2].
    eexists _, _. split; [reflexivity|]. split; [exact Hs2|]. split; [now rewrite <- Hc|]. split_and!; try done.
    + intros H. apply Hz. rewrite <- Hb. apply (f_equal length) in H. rewrite length_take in H. destruct (_inputBuf s1); [done|]. cbn in H. lia.
    + rewrite length_take. lia.
  - rewrite takeInput_ok by done. destruct (Hcut s Hs) as [Hs2 Hc2]. eexists _, _. split; [reflexivity|]. split_and!; try done.
    + intros H. apply (f_equal length) in H. rewrite length_take in H. destruct (_inputBuf s); [done|]. cbn in H. lia.
    + rewrite length_take. lia.
Qed.

Lemma writeLoopEsp_ok rs : forall data s, adequate rs (length data) -> writeLoop rs data s = Ret (tt, set_out (out s ++ data) s).
Proof.
  induction rs as [|r rs IH]; intros data s [Hf Hl]; (destruct data as [|x data]; [cbn; destruct s; cbn; now rewrite app_nil_r|]);
    [change (sum_list_with roomOf []) with 0%nat in Hl; cbn in Hl; lia|].
  change (sum_list_with roomOf (r :: rs)) with (roomOf r + sum_list_with roomOf rs)%nat in Hl.
  apply Forall_cons in Hf as [Hr Hf]. cbn [writeLoop]. unfold roomOf in Hl at 1. destruct Hr as [E|E]; rewrite E in *.
  - change (ERR_OK =? ERR_OK) with true in *. cbn iota in *. unfold modify, mbind, ST_bind. rewrite IH; [|split; [done|rewrite length_drop; lia]].
    cbn. now rewrite <- app_assoc, take_drop.
  - change (ERR_MEM =? ERR_OK) with false in *. change (ERR_MEM =? ERR_MEM) with true. cbn iota in *. rewrite IH; [done|split; [done|lia]].
Qed.

#[export] Program Instance esp_stream : IStream TCPSocket := {
  isOpen := _isOpen;
  open := openEsp 0 (Some 0);
  readNoCopy := readNoCopyEsp;
  peekNoCopy := peekNoCopyEsp;
  writeBytes := writeEsp;
  content := contentEsp;
  sent := out;
  readable := streamOk;
  writable := writableEsp
}.
Next Obligation. intros s H. apply H. Qed.
Next Obligation.
  intros n s Hs Hn. destruct (readEsp_ok n s Hs Hn) as (a & s' & E & Hs' & Hc & Hz & Hl & _ & Ho & Hw). exists a, s'. split_and!; try done.
  intros [_ H]. split; [apply Hs'|exact H].
Qed.
Next Obligation.
  intros s Hs. unfold peekNoCopyEsp, gets, assert, mbind, ST_bind. rewrite (ok_open s Hs). cbn [fst snd].
  assert (exists b s', (if bool_decide (_inputBuf s = []) then fillInputBuf s else Ret (_inputBuf s, s)) = Ret (b, s') /\ streamOk s' /\ _inputBuf s' = b
            /\ contentEsp s' = contentEsp s /\ (b = [] -> contentEsp s = []) /\ out s' = out s) as (b & s' & E & Hs' & Hb & Hc & Hz & Ho).
  { case_bool_decide as Hi; [destruct (fillEsp_ok s Hs Hi) as (b & s' & ? & ? & ? & ? & ? & ? & _); eauto 10|]. exists (_inputBuf s), s. split_and!; done. }
  exists b, (concat (tail (_readBufs s')) ++ netData (net s')), s'. split; [case_bool_decide; exact E|]. split; [now rewrite <- Hc, <- Hb|]. split; [exact Hz|].
  intros Hne n Hn. destruct (readEsp_ok (Z.of_nat n) s' Hs') as (a & s2 & E2 & Hs2 & Hc2 & _ & _ & Ha & Ho2 & Hw2); [lia|].
  rewrite Hb, Nat2Z.id in Ha. specialize (Ha Hne). subst a. exists s2. split; [exact E2|].
  split; [rewrite <- Hc, Hc2, drop_app_length'; [done|rewrite length_take; lia]|]. split; [congruence|]. split; [|exact Hs2].
  intros [_ H]. split; [apply Hs2|exact H].
Qed.
Next Obligation.
  intros b s [Ho Hr]. unfold writeEsp, gets, modify, assert, mbind, ST_bind. rewrite Ho. cbn [fst snd]. rewrite writeLoopEsp_ok by apply Hr. eexists. split; [reflexivity|].
  split_and!; try done. intros [H1 H2 H3 H4]. split; done.
Qed.

(** * Properties *)

(** Data that comes while a buffer is being read is added behind it: no call of lwIP loses anything then. *)
Theorem esp_unrequested_kept s : streamOk s -> _readBufs s <> [] -> net s <> [] ->
  exists s', unrequested s = Ret (tt, s') /\ streamOk s' /\ contentEsp s' = contentEsp s.
Proof.
  intros [H1 H2 H3 H4] Hb Hn. destruct s as [o ib bufs err nt ak nw ou wr]. cbn in *. destruct bufs as [|b0 r]; [done|].
  unfold unrequested, nextEvent, _readCallback, gets, modify, assert, mbind, ST_bind. cbn.
  destruct err as [e|]; [destruct H4; congruence|]. destruct H4 as [|l rest Hl Hne Hg]; cbn.
  - eexists. split; [reflexivity|]. split; [split; cbn; done|]. done.
  - eexists. split; [reflexivity|]. split; [split; cbn; try done; now apply Forall_app|]. unfold contentEsp, netData. cbn. rewrite concat_app, !app_assoc. done.
Qed.

(** ** Defects *)

(** Data that comes before the first read is lost: the read takes its first buffer for the one that was read last, and gives it back. *)
Theorem esp_first_data_lost b l evs :
  exists s1 s2, openEsp 0 (Some 0) (newSocket (Chain (b :: l) :: evs)) = Ret (tt, s1) /\ unrequested s1 = Ret (tt, s2)
    /\ dropFirst (set_notified false s2) = Ret (tt, set_acked (length b) (set_readBufs l (set_notified false s2)))
    /\ forall c r n, l = c :: r -> 0 < n -> exists s3, readNoCopyEsp n s2 = Ret (take (Z.to_nat n) c, s3).
Proof.
  eexists _, _. split; [reflexivity|]. split; [reflexivity|]. split; [reflexivity|]. intros c r n -> Hn. eexists.
  unfold readNoCopyEsp, gets, assert, mbind, ST_bind. cbn. unfold fillInputBuf, dropFirst, gets, modify, assert, when, mbind, ST_bind. cbn. rewrite takeInput_ok by done. reflexivity.
Qed.

(** A failed connection: lwIP does not call the callback that [open] waits for, but the one for errors, which was not given. *)
Theorem esp_refused_hangs s : openEsp 0 None s = Fault NoFuel.
Proof. reflexivity. Qed.

(** A full buffer that takes a write of no bytes: the loop goes round without writing and without waiting. *)
Theorem esp_write_spins n data s : data <> [] -> writeLoop (replicate n (mkReply 0 ERR_OK)) data s = Fault NoFuel.
Proof.
  intros Hd. revert s. induction n as [|n IH]; intros s; (destruct data as [|x data]; [done|]); [reflexivity|].
  cbn [replicate writeLoop werr sndbuf]. unfold modify, mbind, ST_bind. cbn [Z.eqb ERR_OK]. rewrite drop_0. apply IH.
Qed.

(** The number of bytes that are there is not counted. *)
Theorem esp_bytesAvailable_one s : _inputBuf s <> [] -> bytesAvailable s = 1%nat.
Proof. intros H. unfold bytesAvailable. now rewrite bool_decide_eq_false_2. Qed.
End socket.
