(* ===== verification/NWConnection.v ===== *)
(** Connections over Apple's Network.framework ([src/io/apple/NWConnection.cc], [include/crouton/io/apple/NWConnection.hh]).

    The framework is outside: [changes] of its state come to the handler that [open] sets, and [net] is the list of what its
    receive calls give, in order: content, the mark that it is complete, an error.  As documented, the content has at least one and at most
    as many bytes as were asked for.  Waiting when nothing will come never ends ([Fault NoFuel]). *)

From S2P Require Import Prelude.

Local Open Scope Z_scope.

(** * Errors *)

Inductive nw_domain := nw_posix | nw_dns | nw_tls | nw_invalid.

(** [errorcode_t] has 32 bits. *)
Definition fitsCode (code : Z) : bool := (- 2 ^ 31 <=? code) && (code <? 2 ^ 31).

(** An [Error] whose code is 0 is none, whatever its domain ([Error::operator bool]). *)
Definition errorOf (domain : Z -> error) (code : Z) : option error := if code =? 0 then None else Some (domain code).

Definition toError (err : nw_domain * Z) : outcome (option error) :=
  let '(domain, code) := err in
  if code =? 0 then Ret None
  else match domain with
       | nw_posix => Ret (errorOf EPosix code)
       | nw_dns => let code := code - (-65537) in _ ← precondition (fitsCode code); Ret (errorOf EDns code)
       | nw_tls => Ret (errorOf EAppleTLS code)
       | nw_invalid => Ret None
       end.

(** * The connection *)

Inductive nw_state := nw_ready | nw_cancelled | nw_failed (e : nw_domain * Z) | nw_other.

Record recv := mkRecv { rcontent : option bytes; is_complete : bool; rerror : option (nw_domain * Z) }.

(** [onOpen] and [_onClose]: null, or the future's state and its result. *)
Record NWConnection := mkNW {
  _conn : bool;
  onOpen : option (option (option error));
  _onClose : option bool;
  _isOpen : bool;
  _canceled : bool;
  _eof : bool;
  _content : option bytes;
  _contentUsed : nat;
  net : list recv;
  out : bytes;
  outDone : bool          (** the end of what is written was sent *)
}.

Definition newConnection (l : list recv) : NWConnection := mkNW false None None false false false None 0 l [] false.

Definition set_onOpen r c := mkNW (_conn c) r (_onClose c) (_isOpen c) (_canceled c) (_eof c) (_content c) (_contentUsed c) (net c) (out c) (outDone c).
Definition set_onClose r c := mkNW (_conn c) (onOpen c) r (_isOpen c) (_canceled c) (_eof c) (_content c) (_contentUsed c) (net c) (out c) (outDone c).
Definition set_isOpen b c := mkNW (_conn c) (onOpen c) (_onClose c) b (_canceled c) (_eof c) (_content c) (_contentUsed c) (net c) (out c) (outDone c).
Definition set_canceled b c := mkNW (_conn c) (onOpen c) (_onClose c) (_isOpen c) b (_eof c) (_content c) (_contentUsed c) (net c) (out c) (outDone c).
Definition set_conn b c := mkNW b (onOpen c) (_onClose c) (_isOpen c) (_canceled c) (_eof c) (_content c) (_contentUsed c) (net c) (out c) (outDone c).
Definition set_eof b c := mkNW (_conn c) (onOpen c) (_onClose c) (_isOpen c) (_canceled c) b (_content c) (_contentUsed c) (net c) (out c) (outDone c).
Definition set_content d n c := mkNW (_conn c) (onOpen c) (_onClose c) (_isOpen c) (_canceled c) (_eof c) d n (net c) (out c) (outDone c).
Definition set_net l c := mkNW (_conn c) (onOpen c) (_onClose c) (_isOpen c) (_canceled c) (_eof c) (_content c) (_contentUsed c) l (out c) (outDone c).
Definition set_out o b c := mkNW (_conn c) (onOpen c) (_onClose c) (_isOpen c) (_canceled c) (_eof c) (_content c) (_contentUsed c) (net c) o b.

(** [open]: the connection is made and started; the future it returns is [onOpen]. *)
Definition openNW : ST NWConnection unit :=
  modify (set_conn true);; modify (set_onOpen (Some None));; modify (set_onClose (Some false)).

(** [setResult] of a future that has a result is an error of the program. *)
Definition resolveOpen (r : option error) : ST NWConnection unit :=
  o ← gets onOpen;
  match o with
  | Some None => modify (set_onOpen (Some (Some r)))
  | Some (Some _) => crash AssertFailed
  | None => crash OutOfBounds
  end.

Definition openHasResult (c : NWConnection) : bool := match onOpen c with Some (Some _) => true | _ => false end.

Definition resolveClose : ST NWConnection unit :=
  o ← gets _onClose;
  match o with
  | Some false => modify (set_onClose (Some true))
  | Some true => crash AssertFailed
  | None => crash OutOfBounds
  end.

(** The handler of changes of state. *)
Definition stateChanged (st : nw_state) : ST NWConnection unit :=
  match st with
  | nw_ready => modify (set_isOpen true);; resolveOpen None
  | nw_cancelled =>
      has ← gets openHasResult;
      when (negb has) (resolveOpen (Some (ECrouton Cancelled)));;
      resolveClose
  | nw_failed err =>
      has ← gets openHasResult;
      when (negb has) (fun c => match toError err with Ret e => resolveOpen e c | Raise x => Raise x | Fault x => Fault x end)
  | nw_other => mret tt
  end.

(** [close]: whether the framework is told to cancel. *)
Definition closeNW : ST NWConnection bool :=
  conn ← gets _conn; can ← gets _canceled;
  if (conn : bool) then
    if (can : bool) then mret false else modify (set_canceled true);; mret true
  else
    cl ← gets _onClose;
    match cl with
    | None => crash OutOfBounds
    | Some true => mret false
    | Some false => modify (set_onClose (Some true));; mret false
    end.

(** The destructor's [_close]: whether it forces a cancel. *)
Definition _closeNW : ST NWConnection bool :=
  conn ← gets _conn; can ← gets _canceled;
  modify (set_conn false);;
  mret (conn && negb can).

(** ** Reading *)

Definition clearReadBuf : ST NWConnection unit := modify (set_content None 0).

(** [_queue] and [_conn] are null before [open]. *)
Definition opened : ST NWConnection unit :=
  conn ← gets _conn;
  if (conn : bool) then mret tt else crash OutOfBounds.

(** [setResult(toError(e))] of a future of bytes, whose result must not be [noerror], and of one of nothing, for which that is success. *)
Definition setReadError (e : nw_domain * Z) : ST NWConnection bytes := fun c =>
  match toError e with Ret (Some x) => Raise x | Ret None => Fault AssertFailed | Raise x => Raise x | Fault x => Fault x end.
Definition setWriteError (e : nw_domain * Z) : ST NWConnection unit := fun c =>
  match toError e with Ret (Some x) => Raise x | Ret None => Ret (tt, c) | Raise x => Raise x | Fault x => Fault x end.

(** The receive call, whose handler sets the future: with nothing to set it to, the reader waits for ever. *)
Definition receiveNW (peek : bool) : ST NWConnection bytes :=
  opened;;
  clearReadBuf;;
  l ← gets net;
  match l with
  | [] => crash NoFuel
  | r :: rest =>
      modify (set_net rest);;
      when (is_complete r) (modify (set_eof true));;
      match rcontent r with
      | Some d => modify (set_content (Some d) (if peek then 0 else length d));; mret d
      | None =>
          match rerror r with
          | Some e => setReadError e
          | None => if is_complete r then mret [] else crash NoFuel
          end
      end
  end.

Definition unread (c : NWConnection) : bytes := match _content c with Some d => drop (_contentUsed c) d | None => [] end.

(** [peek] makes no difference to what is buffered. *)
Definition _readNoCopy (maxLen : Z) (peek : bool) : ST NWConnection bytes :=
  c ← get;
  match unread c with
  | [] => if _eof c then mret [] else receiveNW peek
  | d =>
      let len := Z.to_nat (Z.min maxLen (Z.of_nat (length d))) in
      modify (set_content (_content c) (_contentUsed c + len));;
      mret (take len d)
  end.

Definition readNoCopyNW (maxLen : Z) : ST NWConnection bytes := _readNoCopy maxLen false.
Definition peekNoCopyNW : ST NWConnection bytes := _readNoCopy 65536 true.

(** ** Writing *)

(** What the send call's handler is given: whether the framework has released the content by then, and an error. *)
Record sendReply := mkSend { released : bool; serror : option (nw_domain * Z) }.

Definition _writeOrShutdown (src : bytes) (shutdown : bool) (r : sendReply) : ST NWConnection unit :=
  opened;;
  assert (released r);;
  match serror r with
  | Some e => setWriteError e
  | None => modify (fun c => set_out (out c ++ src) (outDone c || shutdown) c)
  end.

Definition writeNW (b : bytes) (r : sendReply) : ST NWConnection unit := _writeOrShutdown b false r.
Definition closeWriteNW (r : sendReply) : ST NWConnection unit := _writeOrShutdown [] true r.

(** * Properties *)

(** What the framework will give: pieces, at most [n] bytes each, of which the last is complete, with or without content. *)
Inductive goodNet (n : nat) : list recv -> bytes -> Prop :=
| good_end : goodNet n [mkRecv None true None] []
| good_last d e : d <> [] -> (length d <= n)%nat -> goodNet n [mkRecv (Some d) true e] d
| good_more d r c e : d <> [] -> (length d <= n)%nat -> goodNet n r c -> goodNet n (mkRecv (Some d) false e :: r) (d ++ c).

(** What is still to be read. *)
Definition comesNW (n : nat) (c : NWConnection) (d : bytes) : Prop :=
  _conn c = true /\ exists r, d = unread c ++ r /\ if _eof c then r = [] else exists l, net c = l /\ goodNet n l r.

Lemma cut_content c d k : _content c = Some d -> unread (set_content (_content c) (_contentUsed c + k) c) = drop k (unread c).
Proof. intros E. unfold unread. cbn. rewrite E. now rewrite drop_drop. Qed.

(** A read gives the next bytes, at most as many as asked for, and none only at the end. *)
Lemma read_NW n c d :
  (0 < n)%nat -> comesNW n c d ->
  exists a c', readNoCopyNW (Z.of_nat n) c = Ret (a, c') /\ (length a <= n)%nat /\ (a = [] -> d = []) /\ exists d', d = a ++ d' /\ comesNW n c' d'.
Proof.
  intros Hn (Ho & r & -> & Hr). unfold readNoCopyNW, _readNoCopy, get, mbind, ST_bind.
  destruct (unread c) as [|x u] eqn:Eu.
  - destruct (_eof c) eqn:Ee.
    + subst r. exists [], c. split; [reflexivity|]. split; [cbn; lia|]. split; [done|]. exists []. split; [done|]. split; [exact Ho|]. exists []. rewrite Eu, Ee. done.
    + destruct Hr as (l & El & Hg). unfold receiveNW, opened, clearReadBuf, modify, gets, when, mbind, ST_bind. rewrite Ho. cbn. rewrite El in *.
      destruct Hg as [|d e Hd Hl|d r c' e Hd Hl Hg]; cbn.
      * eexists [], _. split; [reflexivity|]. split; [cbn; lia|]. split; [done|]. exists []. split; [done|]. split; [done|]. exists []. cbn. done.
      * eexists d, _. split; [reflexivity|]. split; [done|]. split; [done|]. exists []. split; [now rewrite app_nil_r|]. split; [done|]. exists []. unfold unread. cbn. rewrite drop_all. done.
      * eexists d, _. split; [reflexivity|]. split; [done|]. split; [done|]. exists c'. split; [done|]. split; [done|]. exists c'. unfold unread. cbn. rewrite drop_all, Ee. split; [done|]. eauto.
  - rewrite <- Eu. assert (exists d0, _content c = Some d0) as [d0 Ed] by (unfold unread in Eu; destruct (_content c); [eauto|done]).
    set (k := Z.to_nat (Z.min (Z.of_nat n) (Z.of_nat (length (unread c))))). assert (k = Nat.min n (length (unread c))) as Hk by lia.
    eexists _, _. split; [reflexivity|]. split; [rewrite length_take; lia|]. split.
    { intros H. apply (f_equal length) in H. rewrite length_take, Eu in H. cbn in H. rewrite Eu in Hk. cbn in Hk. lia. }
    exists (drop k (unread c) ++ r). split; [now rewrite app_assoc, take_drop|]. split; [exact Ho|]. exists r. rewrite (cut_content c d0 k Ed). split; [done|exact Hr].
Qed.

(** Reading until nothing comes. *)
Fixpoint readAllNW (fuel : nat) (n : Z) : ST NWConnection bytes :=
  match fuel with
  | O => crash NoFuel
  | S f => a ← readNoCopyNW n; match a with [] => mret [] | _ => rest ← readAllNW f n; mret (a ++ rest) end
  end.

(** Reading alone gives everything the framework receives, in order, however it is cut; a round per byte and one more are enough. *)
Theorem nw_reads_all n d : forall fuel c,
  (0 < n)%nat -> comesNW n c d -> (length d < fuel)%nat -> exists c', readAllNW fuel (Z.of_nat n) c = Ret (d, c').
Proof.
  remember (length d) as m eqn:Em. revert d Em. induction m as [m IH] using lt_wf_ind. intros d -> fuel c Hn Hc Hf. destruct fuel as [|fuel]; [lia|].
  cbn [readAllNW]. destruct (read_NW n c d Hn Hc) as (a & c' & E & Hl & Hz & d' & -> & Hc').
  unfold mbind, ST_bind. rewrite E. destruct a as [|x a].
  - rewrite (Hz eq_refl). eauto.
  - destruct (IH (length d')) with (d := d') (fuel := fuel) (c := c') as (c2 & E2); [rewrite length_app; cbn; lia|done|done|exact Hc'|rewrite length_app in Hf; cbn in Hf; lia|].
    rewrite E2. eauto.
Qed.

(** ** Defects *)

(** A peek of what is buffered consumes it: after a peek and a read of a part, the next peek gives the rest, and a read after it goes on behind it. *)
Theorem nw_peek_consumes c :
  unread c <> [] -> Z.of_nat (length (unread c)) <= 65536 ->
  exists c', peekNoCopyNW c = Ret (unread c, c') /\ unread c' = [] /\ net c' = net c /\ _eof c' = _eof c.
Proof.
  intros Hu Hl. unfold peekNoCopyNW, _readNoCopy, get, mbind, ST_bind. destruct (unread c) as [|x u] eqn:Eu; [done|]. rewrite <- Eu in *.
  assert (exists d0, _content c = Some d0) as [d0 Ed] by (unfold unread in Eu; destruct (_content c); [eauto|done]).
  assert (Z.to_nat (Z.min 65536 (Z.of_nat (length (unread c)))) = length (unread c)) as El by lia. cbv zeta. rewrite El.
  eexists. split; [unfold modify; rewrite take_ge by done; reflexivity|]. split; [|done]. rewrite (cut_content c d0 _ Ed). apply drop_ge. lia.
Qed.

(** Closing a connection that was never opened follows a null pointer. *)
Theorem nw_close_unopened l : closeNW (newConnection l) = Fault OutOfBounds.
Proof. reflexivity. Qed.

(** A receive call that fails with an error of a domain that is not known trips an assertion: the future is given [noerror]. *)
Theorem nw_unknown_error_asserts code r c :
  _conn c = true -> unread c = [] -> _eof c = false -> net c = mkRecv None false (Some (nw_invalid, code)) :: r ->
  readNoCopyNW 10 c = Fault AssertFailed.
Proof.
  intros Hc Hu He Hn. unfold readNoCopyNW, _readNoCopy, get, mbind, ST_bind. rewrite Hu, He.
  unfold receiveNW, opened, clearReadBuf, modify, gets, when, mbind, ST_bind. rewrite Hc. cbn. rewrite Hn. cbn. unfold setReadError, toError. now destruct (code =? 0).
Qed.

(** DNS errors are moved so that -65537, [kDNSServiceErr_Unknown], becomes 0, which is no error: a connection that fails with it
    reports that it is open. *)
Theorem nw_dns_unknown_is_success c :
  onOpen c = Some None -> exists c', stateChanged (nw_failed (nw_dns, -65537)) c = Ret (tt, c') /\ onOpen c' = Some (Some None).
Proof. intros H. eexists. unfold stateChanged, openHasResult, resolveOpen, gets, when, mbind, ST_bind. rewrite H. cbn. unfold gets, mbind, ST_bind. rewrite H. done. Qed.

(** ** Opening and closing *)

(** [open] resolves once, with what comes first: success, the error, or [Cancelled]; nothing later changes it.  [close] resolves when the
    framework has cancelled. *)
Theorem nw_open_close l st e :
  let c0 := newConnection l in
  exists c1, openNW c0 = Ret (tt, c1)
    /\ (exists c2, stateChanged nw_ready c1 = Ret (tt, c2) /\ onOpen c2 = Some (Some None) /\ _isOpen c2 = true
          /\ (forall x, stateChanged (nw_failed x) c2 = Ret (tt, c2))
          /\ (exists c3, closeNW c2 = Ret (true, c3) /\ closeNW c3 = Ret (false, c3)
                /\ exists c4, stateChanged nw_cancelled c3 = Ret (tt, c4) /\ _onClose c4 = Some true /\ onOpen c4 = Some (Some None)))
    /\ (toError st = Ret e -> exists c2, stateChanged (nw_failed st) c1 = Ret (tt, c2) /\ onOpen c2 = Some (Some e) /\ _isOpen c2 = false)
    /\ (exists c2, stateChanged nw_cancelled c1 = Ret (tt, c2) /\ onOpen c2 = Some (Some (Some (ECrouton Cancelled))) /\ _onClose c2 = Some true).
Proof.
  cbn zeta. eexists. split; [reflexivity|]. split; [|split].
  - eexists. split; [reflexivity|]. split; [done|]. split; [done|]. split; [reflexivity|]. eexists. split; [reflexivity|]. split; [reflexivity|]. eexists. split; [reflexivity|]. done.
  - intros E. eexists. split; [unfold stateChanged, gets, when, mbind, ST_bind; cbn; rewrite E; reflexivity|]. done.
  - eexists. split; [reflexivity|]. done.
Qed.

Lemma nw_reads_all_witness :
  exists c', readAllNW 6 2 (set_conn true (newConnection [mkRecv (Some [1; 2]) false None; mkRecv (Some [3]) true None])) = Ret ([1; 2; 3], c').
Proof.
  apply (nw_reads_all 2 [1; 2; 3] 6); [lia| |cbn; lia].
  split; [reflexivity|]. exists [1; 2; 3]. split; [reflexivity|]. cbn. eexists. split; [reflexivity|]. apply (good_more 2 [1; 2] _ [3]); [done|cbn; lia|]. apply good_last; [done|cbn; lia].
Defined.
