(* ===== verification/Tls.v ===== *)
(** TLS sockets ([src/io/mbed/TLSSocket.cc]): plaintext goes to mbedTLS, which is given the network through the
    two callbacks [bio_send] and [bio_recv]; these start reads and writes of the socket's stream
    and [processIO] awaits them.

    mbedTLS is outside.  A call of it is a [Bio]: what it asks of the callbacks, and what it returns for
    their answers.  The class [MbedTLS] says what its documentation promises of [mbedtls_ssl_write] and
    [mbedtls_ssl_read] on a session that is up, over a transport that does not block ([Wire]).  The
    stream below is any [IStream]. *)

From S2P Require Import Prelude Errors IStream UVStream.

Local Open Scope Z_scope.

(** * mbedTLS *)

Definition WANT_READ : Z := -0x6900.
Definition WANT_WRITE : Z := -0x6880.
Definition PEER_CLOSE_NOTIFY : Z := -0x7880.
Definition NET_CONN_RESET : Z := -0x50.
Definition CRYPTO_IN_PROGRESS : Z := -0x7000.
Definition CERT_VERIFY_FAILED : Z := -0x2700.
Definition BADCERT_SKIP_VERIFY : Z := 0x80.

(** A call of mbedTLS: it sends bytes, asks for up to [n] bytes, or is done. *)
Inductive Bio (A : Type) :=
| Done (a : A)
| Send (b : bytes) (k : Z -> Bio A)
| Recv (n : nat) (k : Z -> bytes -> Bio A).
Arguments Done {_} _.
Arguments Send {_} _ _.
Arguments Recv {_} _ _.

(** A transport that does not block: one write under way at most; the bytes that came in, whether a read is
    under way, and whether the input has ended. *)
Record Wire := mkWire {
  wbusy : bool;
  wout : bytes;
  rbuf : bytes;
  rbusy : bool;
  reof : bool
}.

Fixpoint overWire {A} (t : Bio A) (w : Wire) : A * Wire :=
  match t with
  | Done a => (a, w)
  | Send b k =>
      if wbusy w then overWire (k WANT_WRITE) w
      else overWire (k (Z.of_nat (length b))) (mkWire true (wout w ++ b) (rbuf w) (rbusy w) (reof w))
  | Recv n k =>
      if rbusy w then overWire (k WANT_READ []) w
      else
        match rbuf w with
        | _ :: _ => overWire (k (Z.of_nat (length (take n (rbuf w)))) (take n (rbuf w)))
                      (mkWire (wbusy w) (wout w) (drop n (rbuf w)) (rbusy w) (reof w))
        | [] => if reof w then overWire (k 0 []) w
                else overWire (k WANT_READ []) (mkWire (wbusy w) (wout w) [] true (reof w))
        end
  end.

(** A session: the plaintext accepted so far, the bytes it has sent (those its transport said it took, in order), how
    much is still to be handed to the transport before more can be accepted, and the plaintext to come from
    given network input.

    [ssl_write]: takes some of the bytes, or, when the transport is not ready for what it has to send, says so and
    is to be called again.  [ssl_read]: gives some of the plaintext; nothing at the end of the input; or
    has used up the input. *)
Class MbedTLS (M : Type) := {
  ssl_handshake : M -> Bio (Z * M);
  ssl_verify_result : M -> Z;
  ssl_write : bytes -> M -> Bio (Z * M);
  ssl_read : nat -> M -> Bio (Z * bytes * M);
  ssl_close_notify : M -> Bio (Z * M);

  up : M -> Prop;
  accepted : M -> bytes;
  emitted : M -> bytes;
  backlog : M -> nat;
  plain : M -> bytes -> bytes;

  write_promise m b w : up m -> b <> [] ->
    exists r m' e, overWire (ssl_write b m) w
        = ((r, m'), mkWire (wbusy w || negb (bool_decide (e = []))) (wout w ++ e) (rbuf w) (rbusy w) (reof w))
      /\ up m' /\ emitted m' = emitted m ++ e /\ (forall c, plain m' c = plain m c)
      /\ (r = WANT_WRITE /\ accepted m' = accepted m /\ (wbusy w = false -> (backlog m' < backlog m)%nat)
          \/ 0 < r <= Z.of_nat (length b) /\ accepted m' = accepted m ++ take (Z.to_nat r) b);
  read_promise m n w : up m -> (0 < n)%nat -> rbusy w = false ->
    exists r d m' c', overWire (ssl_read n m) w = ((r, d, m'), mkWire (wbusy w) (wout w) c' (bool_decide (r = WANT_READ)) (reof w))
      /\ up m' /\ accepted m' = accepted m /\ emitted m' = emitted m
      /\ (forall c, plain m (rbuf w ++ c) = d ++ plain m' (c' ++ c))
      /\ (0 < r /\ r = Z.of_nat (length d) /\ (length d <= n)%nat
          \/ r = WANT_READ /\ d = [] /\ c' = [] /\ plain m' [] = [] /\ reof w = false
          \/ d = [] /\ (r = 0 /\ reof w = true \/ r = PEER_CLOSE_NOTIFY /\ forall c, plain m (rbuf w ++ c) = []))
}.

(** * The socket *)

Section tls.
Context {S M : Type} {IS : IStream S} {T : MbedTLS M} (closeS closeWriteS : ST S unit).

(** [TLSSocket::Impl].  A pending write is its result, a pending read what it read. *)
Record Impl := mkImpl {
  _stream : S;
  _ssl : M;
  _pendingWrite : option (option error);
  _pendingRead : option (Result bytes);
  _readBuf : bytes;
  _readEOF : bool;
  _tcpOpen : bool;
  _tlsOpen : bool
}.

Definition newImpl (s : S) (m : M) : Impl := mkImpl s m None None [] false false false.

Definition set_ssl m i := mkImpl (_stream i) m (_pendingWrite i) (_pendingRead i) (_readBuf i) (_readEOF i) (_tcpOpen i) (_tlsOpen i).
Definition set_stream s i := mkImpl s (_ssl i) (_pendingWrite i) (_pendingRead i) (_readBuf i) (_readEOF i) (_tcpOpen i) (_tlsOpen i).
Definition set_pendingWrite p i := mkImpl (_stream i) (_ssl i) p (_pendingRead i) (_readBuf i) (_readEOF i) (_tcpOpen i) (_tlsOpen i).
Definition set_pendingRead p b i := mkImpl (_stream i) (_ssl i) (_pendingWrite i) p b (_readEOF i) (_tcpOpen i) (_tlsOpen i).
Definition set_readEOF e i := mkImpl (_stream i) (_ssl i) (_pendingWrite i) (_pendingRead i) (_readBuf i) e (_tcpOpen i) (_tlsOpen i).
Definition set_opened a b i := mkImpl (_stream i) (_ssl i) (_pendingWrite i) (_pendingRead i) (_readBuf i) (_readEOF i) a b.

Definition onStream {A} (m : ST S A) : ST Impl A := zoom _stream set_stream m.

(** A call of the stream that is not awaited yet: the future keeps an error. *)
Definition started {A} (m : ST S A) : ST Impl (Result A) := fun i =>
  match m (_stream i) with
  | Ret (a, s) => Ret (RValue a, set_stream s i)
  | Raise e => Ret (RError (Some e), i)
  | Fault w => Fault w
  end.

Definition bio_send (b : bytes) : ST Impl Z :=
  i ← get;
  if negb (_tcpOpen i) then mret NET_CONN_RESET
  else
    match _pendingWrite i with
    | Some _ => mret WANT_WRITE
    | None =>
        r ← started (writeBytes b);
        _ ← modify (set_pendingWrite (Some (match r with RValue _ => None | RError e => e end)));
        mret (Z.of_nat (length b))
    end.

Definition bio_recv (maxLength : nat) : ST Impl (Z * bytes) :=
  i ← get;
  if negb (_tcpOpen i) then mret (NET_CONN_RESET, [])
  else
    match _pendingRead i, _readBuf i with
    | Some _, _ => mret (WANT_READ, [])
    | None, _ :: _ =>
        let n := Nat.min (length (_readBuf i)) maxLength in
        _ ← modify (fun i => set_pendingRead None (drop n (_readBuf i)) i);
        mret (Z.of_nat n, take n (_readBuf i))
    | None, [] =>
        if negb (_readEOF i) then
          r ← started (readNoCopy 100000);
          _ ← modify (set_pendingRead (Some r) []);
          mret (WANT_READ, [])
        else mret (0, [])
    end.

(** A call of mbedTLS on [_ssl]. *)
Fixpoint runBio {A} (t : Bio A) : ST Impl A :=
  match t with
  | Done a => mret a
  | Send b k => r ← bio_send b; runBio (k r)
  | Recv n k => r ← bio_recv n; runBio (k r.1 r.2)
  end.

Definition onSsl {A} (f : M -> Bio (A * M)) : ST Impl A :=
  m ← gets _ssl;
  r ← runBio (f m);
  _ ← modify (set_ssl r.2);
  mret r.1.

(** [processIO]: a round of its loop takes one pending operation, so two rounds and a last look are
    enough. *)
Fixpoint ioLoop (fuel : nat) : ST Impl unit :=
  i ← get;
  match _pendingWrite i, _pendingRead i with
  | None, None => mret tt
  | Some r, _ =>
      match fuel with
      | O => crash NoFuel
      | Datatypes.S f =>
          _ ← match r with Some e => throw e | None => mret tt end;
          _ ← modify (set_pendingWrite None);
          ioLoop f
      end
  | None, Some r =>
      match fuel with
      | O => crash NoFuel
      | Datatypes.S f =>
          b ← lift (value r);
          _ ← modify (set_pendingRead (Some r) b);
          _ ← when (bool_decide (b = [])) (modify (set_readEOF true));
          _ ← modify (fun i => set_pendingRead None (_readBuf i) i);
          ioLoop f
      end
  end.

Definition processIO : ST Impl unit := ioLoop 2.

Definition check (err : Z) : ST Impl unit := if err =? 0 then mret tt else throw (EMbed err).

Definition wants (r : Z) : bool := (r =? WANT_READ) || (r =? WANT_WRITE).

Fixpoint handshakeLoop (fuel : nat) : ST Impl Z :=
  match fuel with
  | O => crash NoFuel
  | Datatypes.S f =>
      _ ← processIO;
      status ← onSsl ssl_handshake;
      if wants status || (status =? CRYPTO_IN_PROGRESS) then handshakeLoop f else mret status
  end.

Definition handshake (fuel : nat) : ST Impl unit :=
  _ ← onStream open;
  _ ← modify (fun i => set_opened true (_tlsOpen i) i);
  status ← handshakeLoop fuel;
  _ ← check status;
  m ← gets _ssl;
  let flags := ssl_verify_result m in
  _ ← when (negb (flags =? 0) && negb (flags =? 2 ^ 32 - 1) && (Z.land flags BADCERT_SKIP_VERIFY =? 0)) (check CERT_VERIFY_FAILED);
  modify (fun i => set_opened (_tcpOpen i) true i).

Fixpoint writeLoop (fuel : nat) (buf : bytes) : ST Impl unit :=
  match fuel with
  | O => crash NoFuel
  | Datatypes.S f =>
      result ← onSsl (ssl_write buf);
      if wants result then _ ← processIO; writeLoop f buf
      else if result <? 0 then _ ← check result; writeLoop f buf
      else if result <? Z.of_nat (length buf) then writeLoop f (drop (Z.to_nat result) buf)
      else mret tt
  end.

Definition write (fuel : nat) (buf : bytes) : ST Impl unit :=
  match buf with [] => mret tt | _ => writeLoop fuel buf end.

Definition readSsl (n : nat) (m : M) : Bio (Z * bytes * M) := ssl_read n m.

Fixpoint readLoop (fuel : nat) (maxLen : nat) : ST Impl bytes :=
  match fuel with
  | O => crash NoFuel
  | Datatypes.S f =>
      r ← onSsl (readSsl maxLen);
      let '(result, d) := r in
      if wants result then _ ← processIO; readLoop f maxLen
      else if 0 <? result then mret d
      else if (result =? 0) || (result =? PEER_CLOSE_NOTIFY) then _ ← modify (set_readEOF true); mret []
      else _ ← check result; readLoop f maxLen
  end.

Definition read (fuel : nat) (maxLen : nat) : ST Impl bytes :=
  i ← get;
  if _readEOF i then mret [] else readLoop fuel maxLen.

(** [close] and [closeWrite] of the socket. *)
Definition close (fully : bool) : ST Impl unit :=
  i ← get;
  when (_tcpOpen i) (
    _ ← onSsl ssl_close_notify;
    _ ← processIO;
    _ ← modify (fun i => set_opened (_tcpOpen i) false i);
    _ ← (if fully then _ ← modify (set_opened false false); onStream closeS else onStream closeWriteS);
    modify (fun i => set_opened false (_tlsOpen i) i)).

(** ** [TLSSocket] *)

Record TLSSocket := mkTLS {
  _impl : Impl;
  _inputBuf : Buffer;
  _busy : bool
}.

Definition onImpl {A} (m : ST Impl A) : ST TLSSocket A := zoom _impl (fun i s => mkTLS i (_inputBuf s) (_busy s)) m.
Definition set_inputBuf b s := mkTLS (_impl s) b (_busy s).
Definition set_busy b s := mkTLS (_impl s) (_inputBuf s) b.

Definition notReentrant {A} (m : ST TLSSocket A) : ST TLSSocket A :=
  busy ← gets _busy;
  _ ← (if (busy : bool) then throw (ECrouton LogicError) else mret tt);
  _ ← modify (set_busy true);
  a ← m;
  _ ← modify (set_busy false);
  mret a.

(** The whole array of the buffer; [stale] is what lies beyond the data. *)
Definition wholeArray (stale : bytes) (b : Buffer) : bytes := bdata b ++ drop (length (bdata b)) stale.

Definition _readNoCopy (fuel : nat) (stale : bytes) (maxLen : Z) (peek : bool) : ST TLSSocket bytes :=
  notReentrant (
    s ← get;
    eof ← (if bempty (_inputBuf s) then
             d ← onImpl (read fuel (Z.to_nat kCapacity));
             _ ← modify (set_inputBuf (mkBuffer d 0));
             mret (bool_decide (d = []))
           else mret false);
    if (eof : bool) then mret []
    else
      s ← get;
      if peek then mret (wholeArray stale (_inputBuf s))
      else
        let '(d, b) := bread maxLen (_inputBuf s) in
        _ ← modify (set_inputBuf b);
        mret d).

Definition readNoCopyT (fuel : nat) (stale : bytes) (maxLen : Z) : ST TLSSocket bytes := _readNoCopy fuel stale maxLen false.
Definition peekNoCopyT (fuel : nat) (stale : bytes) : ST TLSSocket bytes := _readNoCopy fuel stale 0 true.

(** [write] is not a coroutine: its guard is released when the one of [Impl::write], which does not look at it, has
    been started. *)
Definition writeT (fuel : nat) (b : bytes) : ST TLSSocket unit := _ ← notReentrant (mret tt); onImpl (write fuel b).
Definition closeT : ST TLSSocket unit := notReentrant (onImpl (close true)).
Definition closeWriteT : ST TLSSocket unit := notReentrant (onImpl (close false)).

(** * mbedTLS over the stream *)











(** * The session *)





(** What mbedTLS sends is what goes to the network. *)
Definition sends (e : bytes) (i i' : Impl) : Prop :=
  emitted (_ssl i') = emitted (_ssl i) ++ e /\ sent (_stream i') = sent (_stream i) ++ e.

Lemma sends_nil i : sends [] i i.
Proof. unfold sends. now rewrite !app_nil_r. Qed.














(** * Properties *)

End tls.
Arguments Impl : clear implicits.
Arguments TLSSocket : clear implicits.

(** ** Defects *)

Section defects.
Context {S M : Type} {IS : IStream S} {T : MbedTLS M} (closeS closeWriteS : ST S unit).

(** While a read is waiting, which holds the guard, [write] throws: the same guard serves both. *)
Theorem tls_write_during_read (s : TLSSocket S M) fuel b : _busy s = true -> writeT fuel b s = Raise (ECrouton LogicError).
Proof. intros Hb. unfold writeT, notReentrant, gets, mbind, ST_bind. now rewrite Hb. Qed.

(** [peekNoCopy] gives the buffer's whole array from its start: bytes that were read already, and what lies
    beyond the data. *)
Theorem tls_peek_whole_array (s : TLSSocket S M) fuel stale :
  _busy s = false -> bempty (_inputBuf s) = false -> (length (bdata (_inputBuf s)) <= length stale)%nat ->
  exists d, peekNoCopyT fuel stale s = Ret (d, s) /\ length d = length stale.
Proof.
  intros Hb He Hl. exists (wholeArray stale (_inputBuf s)). unfold peekNoCopyT, _readNoCopy, notReentrant, get, gets, modify, mbind, ST_bind. rewrite Hb.
  unfold mret, ST_ret. cbn [_inputBuf set_busy]. rewrite He. split; [destruct s; cbn in *; now rewrite Hb|].
  unfold wholeArray. rewrite length_app, length_drop. lia.
Qed.

(** After [closeWrite] the connection counts as closed: the peer's data cannot be read any more, and [close] does not
    close the stream. *)
Theorem tls_closeWrite_closes (i i' : Impl S M) u :
  close closeS closeWriteS false i = Ret (u, i') -> _tcpOpen i = true ->
  _tcpOpen i' = false /\ (forall n, bio_recv n i' = Ret ((NET_CONN_RESET, []), i')) /\ close closeS closeWriteS true i' = Ret (tt, i').
Proof.
  intros E Ht. unfold close in E. minv E. rewrite Ht in E. unfold when in E. minv E. split_and!; try done.
Qed.
End defects.

(** ** A session without encryption *)

#[export] Program Instance null_tls : MbedTLS bytes := {
  ssl_handshake m := Done (0, m);
  ssl_verify_result m := 0;
  ssl_write b m := Send b (fun r => Done (r, if r <? 0 then m else m ++ b));
  ssl_read n m := Recv n (fun r d => Done (r, d, m));
  ssl_close_notify m := Done (0, m);
  up m := True;
  accepted m := m;
  emitted m := m;
  backlog m := 0%nat;
  plain m c := c
}.
Next Obligation.
  intros m b w _ Hb. cbn [overWire]. destruct (wbusy w) eqn:Ew.
  - exists WANT_WRITE, m, []. rewrite !app_nil_r. split; [destruct w; cbn in *; now rewrite Ew|]. split_and!; try done. left. split_and!; done.
  - exists (Z.of_nat (length b)), (m ++ b), b. rewrite (proj2 (Z.ltb_ge _ 0)) by lia. rewrite bool_decide_eq_false_2 by done. split; [done|]. split_and!; try done.
    right. rewrite Nat2Z.id, take_ge by lia. split; [|done]. destruct b; [done|cbn [length]; lia].
Qed.
Next Obligation.
  intros m n w _ Hn Hr. cbn [overWire]. rewrite Hr. destruct (rbuf w) as [|x l] eqn:Eb.
  - destruct (reof w) eqn:Ee.
    + exists 0, [], m, []. split; [destruct w; cbn in *; subst; done|]. split_and!; try done. right; right. auto.
    + exists WANT_READ, [], m, []. split; [done|]. split_and!; try done. right; left. done.
  - assert (0 < Z.of_nat (length (take n (x :: l)))) as Hpos by (rewrite length_take; cbn [length]; lia).
    exists (Z.of_nat (length (take n (x :: l)))), (take n (x :: l)), m, (drop n (x :: l)). rewrite bool_decide_eq_false_2 by (unfold WANT_READ; lia).
    split; [done|]. split_and!; try done.
    + intros c. now rewrite app_assoc, take_drop.
    + left. split_and!; [done|done|]. rewrite length_take. lia.
Qed.


