(* ===== verification/TlsContext.v ===== *)
(** The context of TLS connections ([src/io/mbed/TLSContext.hh]): log levels, the certificates the system trusts, on Linux, and the
    constructor.

    mbedTLS is outside: parsing certificates, seeding the random generator and setting defaults are parameters.  So is the file system:
    the directory is the list of its entries, in the order [readdir] gives them, with the content of those that can be opened. *)

From S2P Require Import Prelude StringUtils Tls Logger.

Local Open Scope Z_scope.

(** [check]. *)
Definition mbedCheck (err : Z) : outcome unit := if err =? 0 then Ret tt else Raise (EMbed err).

(** * Logging *)

(** The threshold of mbedTLS for the level of the logger. *)
Definition kSpdToMbedLogLevel (l : level_enum) : nat := nth (levelNo l) [4; 3; 2; 1; 1; 1; 0]%nat 0%nat.

Definition kMbedToSpdLevel : list level_enum := [off; err; info; debug; trace].

Definition mbedLevel (level : nat) : outcome level_enum :=
  match nth_error kMbedToSpdLevel level with Some l => Ret l | None => Fault OutOfBounds end.

(** [msgStr] without a newline at its end. *)
Definition chomp (msg : bytes) : bytes :=
  match last msg with
  | Some c => if c =? 10 then take (length msg - 1) msg else msg
  | None => msg
  end.

(** The callback that mbedTLS is given. *)
Definition mbedLogCallback (LMbed : logger) (level : nat) (msg : bytes) (s : Logs) : outcome Logs :=
  spdLevel ← mbedLevel level;
  Ret (if should_log spdLevel LMbed then log LMbed spdLevel (chomp msg) s else s).

(** mbedTLS calls it for the levels up to the threshold. *)
Definition mbedLogs (LMbed : logger) (level : nat) (msg : bytes) (s : Logs) : outcome Logs :=
  if (level <=? kSpdToMbedLogLevel (_level LMbed))%nat then mbedLogCallback LMbed level msg s else Ret s.

(** * The certificates of the system *)

Definition CERTS_FILE : bytes := lit "ca-certificates.crt".

(** What is at [CERTS_DIR]: not a directory, or its entries. *)
Abbreviation certDir := (option (list (bytes * option bytes))).

Definition bufSize : nat := Z.to_nat 1024.

(** The loop of [read_file]: a read that gets less than it asks for ends the stream. *)
Fixpoint readChunks (fuel : nat) (rest certs : bytes) (last_char : Z) : outcome (bytes * Z) :=
  match fuel with
  | O => Fault NoFuel
  | S f =>
      let buf := take bufSize rest in
      let certs := certs ++ buf in
      let last_char := match last buf with Some c => c | None => last_char end in
      if (length buf <? bufSize)%nat then Ret (certs, last_char)
      else readChunks f (drop bufSize rest) certs last_char
  end.

Definition read_file (content : option bytes) (certs : bytes) : outcome bytes :=
  match content with
  | None => Ret certs
  | Some c =>
      r ← readChunks (S (length c)) c certs 10;
      let '(certs, last_char) := r in
      Ret (if negb (last_char =? 10) then certs ++ [10] else certs)
  end.

(** [fnmatch] with [FNM_PERIOD], for patterns of letters, [?] and [*]. *)
Fixpoint glob (p s : bytes) : bool :=
  match p with
  | [] => bool_decide (s = [])
  | c :: p =>
      if c =? 42 then
        (fix star (s : bytes) : bool := glob p s || match s with [] => false | _ :: s => star s end) s
      else match s with
           | [] => false
           | x :: s => ((c =? 63) || (c =? x)) && glob p s
           end
  end.

Definition fnmatch (p s : bytes) : bool :=
  negb (isPrefix [46] s && negb (isPrefix [46] p)) && glob p s.

Definition isCertName (name : bytes) : bool := fnmatch (lit "?*.pem") name || fnmatch (lit "?*.crt") name.

Fixpoint readDir (ents : list (bytes * option bytes)) (certs : bytes) : outcome bytes :=
  match ents with
  | [] => Ret certs
  | (name, content) :: r =>
      if isCertName name then certs ← read_file content certs; readDir r certs else readDir r certs
  end.

(** The file of that name, if there is one. *)
Fixpoint fileNamed (name : bytes) (ents : list (bytes * option bytes)) : option (option bytes) :=
  match ents with
  | [] => None
  | (n, content) :: r => if bool_decide (n = name) then Some content else fileNamed name r
  end.

Definition read_system_root_certs (dir : certDir) : outcome bytes :=
  match dir with
  | None => Ret []
  | Some ents =>
      match fileNamed CERTS_FILE ents with
      | Some content => read_file content []
      | None => readDir ents []
      end
  end.

(** * The context *)

Section context.
Context {Chain : Type}.
(** [mbedtls_x509_crt_parse] of the text and its final zero: negative for an error, else the number of certificates that could not
    be parsed. *)
Context (x509_parse : bytes -> Z * Chain).
(** The status of [mbedtls_ctr_drbg_seed] and of [mbedtls_ssl_config_defaults]. *)
Context (drbg_seed : Z) (config_defaults : Z -> Z).
(** The environment's string for the loggers. *)
Context (env : option bytes).

Definition parse_cert (cert_data : bytes) (partialOk : bool) : outcome Chain :=
  let '(ret, c) := x509_parse (cert_data ++ [0]) in
  let ret := if (0 <? ret) && negb partialOk then CERT_VERIFY_FAILED else ret in
  _ ← (if ret <? 0 then mbedCheck ret else Ret tt);
  Ret c.

Record TLSContext := mkContext { endpoint : Z; ca_chain : option Chain; debugThreshold : nat }.

(** The static variables; each is set once, unless what sets it throws. *)
Record Statics := mkStatics {
  logs : Logs;
  loggingInited : bool;
  LMbed : option logger;
  s_random_ctx : bool;
  s_system_root_certs : option (option Chain);
  sContext : option TLSContext
}.

Definition setupLogging : ST Statics nat :=
  l ← gets LMbed;
  match l with
  | Some g => mret (kSpdToMbedLogLevel (_level g))
  | None => fun s =>
      match MakeLogger env (loggingInited s) (lit "mbedTLS") off (logs s) with
      | Ret (g, d, logs) =>
          Ret (kSpdToMbedLogLevel (_level g), mkStatics logs d (Some g) (s_random_ctx s) (s_system_root_certs s) (sContext s))
      | Raise e => Raise e
      | Fault f => Fault f
      end
  end.

Definition get_drbg_context : ST Statics unit :=
  b ← gets s_random_ctx;
  if (b : bool) then mret tt
  else
    lift (mbedCheck drbg_seed);;
    modify (fun s => mkStatics (logs s) (loggingInited s) (LMbed s) true (s_system_root_certs s) (sContext s)).

Definition get_system_root_certs (dir : certDir) : ST Statics (option Chain) :=
  r ← gets s_system_root_certs;
  match r with
  | Some c => mret c
  | None =>
      certsPEM ← lift (read_system_root_certs dir);
      c ← (match certsPEM with [] => mret None | _ => c ← lift (parse_cert certsPEM true); mret (Some c) end);
      modify (fun s => mkStatics (logs s) (loggingInited s) (LMbed s) (s_random_ctx s) (Some c) (sContext s));;
      mret c
  end.

(** The constructor. *)
Definition newTLSContext (ep : Z) (dir : certDir) : ST Statics TLSContext :=
  threshold ← setupLogging;
  get_drbg_context;;
  lift (mbedCheck (config_defaults ep));;
  roots ← get_system_root_certs dir;
  mret (mkContext ep roots threshold).

Definition IS_CLIENT : Z := 0.

Definition defaultClientContext (dir : certDir) : ST Statics TLSContext :=
  c ← gets sContext;
  match c with
  | Some c => mret c
  | None =>
      c ← newTLSContext IS_CLIENT dir;
      modify (fun s => mkStatics (logs s) (loggingInited s) (LMbed s) (s_random_ctx s) (s_system_root_certs s) (Some c));;
      mret c
  end.
End context.

(** * Properties *)

(** mbedTLS holds back no message that the logger would write, and lets no level through that is outside the table. *)
Theorem mbed_levels_agree g level msg s :
  ((level <= 4)%nat -> mbedLogs g level msg s = mbedLogCallback g level msg s) /\ exists s', mbedLogs g level msg s = Ret s'.
Proof.
  assert (kSpdToMbedLogLevel (_level g) <= 4)%nat as H4 by (destruct g as [nm []]; cbn; lia). unfold mbedLogs. split.
  - intros H. destruct (Nat.leb_spec level (kSpdToMbedLogLevel (_level g))) as [|Hlt]; [done|].
    unfold mbedLogCallback, mbedLevel, should_log. destruct g as [nm l]. cbn in *.
    do 5 (destruct level as [|level]; [destruct l; cbn in *; (lia || reflexivity)|]). lia.
  - destruct (Nat.leb_spec level (kSpdToMbedLogLevel (_level g))); [|eauto]. unfold mbedLogCallback, mbedLevel.
    do 5 (destruct level as [|level]; [eexists; reflexivity|]). lia.
Qed.

(** ** Reading certificates *)

(** A text, and a newline if it does not end in one. *)
Definition terminated (c : bytes) : bytes :=
  match last c with
  | Some x => if x =? 10 then c else c ++ [10]
  | None => []
  end.

Lemma readChunks_ok fuel : forall c certs lc, (length c < fuel)%nat ->
  readChunks fuel c certs lc = Ret (certs ++ c, match last c with Some x => x | None => lc end).
Proof.
  induction fuel as [|fuel IH]; intros c certs lc Hf; [lia|]. cbn [readChunks].
  assert (0 < bufSize)%nat as Hb by (unfold bufSize; lia). destruct (Nat.ltb_spec (length (take bufSize c)) bufSize) as [Hlt|Hge]; rewrite length_take in *.
  - now rewrite !take_ge by lia.
  - rewrite IH by (rewrite length_drop; lia). rewrite <- app_assoc, take_drop. do 2 f_equal.
    transitivity (match last (take bufSize c ++ drop bufSize c) with Some x => x | None => lc end); [|now rewrite take_drop].
    rewrite last_app. destruct (last (drop bufSize c)); done.
Qed.

Lemma read_file_ok content certs : read_file content certs = Ret (certs ++ match content with Some c => terminated c | None => [] end).
Proof.
  unfold read_file, terminated. destruct content as [c|]; [|now rewrite app_nil_r]. rewrite readChunks_ok by lia. cbn [mbind outcome_bind].
  destruct (last c) as [x|] eqn:E; [|apply last_None in E; subst c; cbn; now rewrite !app_nil_r]. destruct (x =? 10); cbn; [done|now rewrite app_assoc].
Qed.

Lemma glob_literal p : Forall (fun c => c <> 42 /\ c <> 63) p -> forall s, glob p s = bool_decide (s = p).
Proof.
  induction p as [|c p IH]; intros Hp s; cbn [glob]; [now apply bool_decide_ext|]. apply Forall_cons in Hp as [[H1 H2] Hp].
  destruct (Z.eqb_spec c 42); [congruence|]. destruct s as [|x s]; [now rewrite bool_decide_eq_false_2|].
  destruct (Z.eqb_spec c 63); [congruence|]. cbn [orb]. rewrite (IH Hp).
  destruct (Z.eqb_spec c x) as [->|Hx]; cbn [andb]; [|rewrite bool_decide_eq_false_2; congruence].
  apply bool_decide_ext. split; congruence.
Qed.

Lemma glob_star p s : glob (42 :: p) s = true <-> exists a b, s = a ++ b /\ glob p b = true.
Proof.
  cbn [glob]. cbn [Z.eqb Pos.eqb]. induction s as [|x s IH].
  - rewrite orb_false_r. split; [intros H; now exists [], []|]. intros (a & b & E & H). symmetry in E. now apply app_eq_nil in E as [-> ->].
  - rewrite orb_true_iff, IH. split.
    + intros [H|(a & b & -> & H)]; [now exists [], (x :: s)|now exists (x :: a), b].
    + intros ([|y a] & b & E & H); cbn in E; [left; now subst b|]. injection E as <- ->. right. eauto.
Qed.

Lemma glob_suffix suf s : Forall (fun c => c <> 42 /\ c <> 63) suf -> glob (63 :: 42 :: suf) s = true <-> exists x, x <> [] /\ s = x ++ suf.
Proof.
  intros Hs. change (glob (63 :: 42 :: suf) s) with (match s with [] => false | x :: s => ((63 =? 63) || (63 =? x)) && glob (42 :: suf) s end).
  destruct s as [|y s]; [split; [done|intros (x & Hx & E); symmetry in E; now apply app_eq_nil in E as [-> _]]|].
  rewrite Z.eqb_refl. cbn [orb andb]. rewrite glob_star. split.
  - intros (a & b & -> & H). rewrite glob_literal in H by done. apply bool_decide_eq_true in H as ->. now exists (y :: a).
  - intros ([|z x] & Hx & E); [done|]. injection E as <- ->. exists x, suf. split; [done|]. rewrite glob_literal by done. now apply bool_decide_eq_true_2.
Qed.

(** The files that are read: those whose name ends in ".pem" or ".crt", has something before that, and does not begin with a period. *)
Lemma isCertName_iff name :
  isCertName name = true <-> head name <> Some 46 /\ exists x, x <> [] /\ (name = x ++ lit ".pem" \/ name = x ++ lit ".crt").
Proof.
  assert (forall suf, Forall (fun c => c <> 42 /\ c <> 63) suf -> fnmatch (63 :: 42 :: suf) name = true <-> head name <> Some 46 /\ exists x, x <> [] /\ name = x ++ suf) as H.
  { intros suf Hs. unfold fnmatch. rewrite andb_true_iff, (glob_suffix suf name Hs), negb_true_iff. apply and_iff_compat_r.
    destruct name as [|c name]; [done|]. cbn [isPrefix head hd_error]. rewrite andb_true_r. change (46 =? 63) with false. cbn [andb negb]. rewrite andb_true_r.
    destruct (Z.eqb_spec 46 c) as [<-|Hc]; cbn [andb]; (split; [|congruence]); [done|]. intros _ E. injection E as ->. done. }
  unfold isCertName. rewrite orb_true_iff. change (lit "?*.pem") with (63 :: 42 :: lit ".pem"). change (lit "?*.crt") with (63 :: 42 :: lit ".crt").
  rewrite (H (lit ".pem")), (H (lit ".crt")) by (repeat (apply Forall_cons; split; [split; vm_compute; congruence|]); apply Forall_nil; exact I). naive_solver.
Qed.


Definition textOf (content : option bytes) : bytes := match content with Some c => terminated c | None => [] end.

Lemma readDir_ok ents : forall certs, readDir ents certs = Ret (certs ++ concat (map (fun e => textOf e.2) (filter (fun e => isCertName e.1 = true) ents))).
Proof.
  induction ents as [|[name content] r IH]; intros certs; cbn [readDir]; [now rewrite app_nil_r|]. rewrite filter_cons. cbn [fst].
  destruct (isCertName name) eqn:E; [|rewrite decide_False by done; apply IH].
  rewrite decide_True by done. rewrite read_file_ok. cbn [mbind outcome_bind map concat snd]. rewrite IH. now rewrite <- app_assoc.
Qed.

(** The certificates that are trusted: the bundle, if it is there, and otherwise the files with the right names, in the order of the directory; each
    begins on a line of its own. *)
Definition trustedText (dir : certDir) : bytes :=
  match dir with
  | None => []
  | Some ents =>
      match fileNamed CERTS_FILE ents with
      | Some content => textOf content
      | None => concat (map (fun e => textOf e.2) (filter (fun e => isCertName e.1 = true) ents))
      end
  end.

Theorem root_certs_ok dir : read_system_root_certs dir = Ret (trustedText dir).
Proof.
  unfold read_system_root_certs, trustedText. destruct dir as [ents|]; [|done]. destruct (fileNamed CERTS_FILE ents); [apply read_file_ok|apply readDir_ok].
Qed.

(** Every file is whole, and what is put behind it starts a line. *)
Lemma terminated_ends c : terminated c = [] \/ last (terminated c) = Some 10.
Proof. unfold terminated. destruct (last c) as [x|] eqn:E; [|now left]. right. destruct (Z.eqb_spec x 10) as [->|]; [done|]. now rewrite last_app. Qed.

Section context_facts.
Context {Chain : Type} (x509_parse : bytes -> Z * Chain) (drbg_seed : Z) (config_defaults : Z -> Z) (env : option bytes).

Definition parsed (dir : certDir) : option Chain := match trustedText dir with [] => None | t => Some (x509_parse (t ++ [0])).2 end.

(** Loading the certificates: those that can be parsed are used, unless mbedTLS fails altogether; that error is thrown, and the next call tries again. *)
Lemma get_roots_ok dir s :
  get_system_root_certs x509_parse dir s
  = match s_system_root_certs s with
    | Some c => Ret (c, s)
    | None =>
        if bool_decide (trustedText dir <> []) && ((x509_parse (trustedText dir ++ [0])).1 <? 0) then Raise (EMbed (x509_parse (trustedText dir ++ [0])).1)
        else Ret (parsed dir, mkStatics (logs s) (loggingInited s) (LMbed s) (s_random_ctx s) (Some (parsed dir)) (sContext s))
    end.
Proof.
  unfold get_system_root_certs, gets, lift, modify, mbind, ST_bind. destruct (s_system_root_certs s); [done|]. rewrite root_certs_ok. unfold parsed.
  destruct (trustedText dir) as [|x t]; [done|]. rewrite bool_decide_eq_true_2 by done. unfold parse_cert. destruct (x509_parse _) as [ret c]. cbn [fst snd andb negb].
  rewrite andb_false_r. destruct (Z.ltb_spec ret 0) as [Hr|Hr]; cbn; [|done]. unfold mbedCheck. destruct (Z.eqb_spec ret 0); [lia|done].
Qed.

(** The default context is made once: whatever becomes of the directory later, it keeps the certificates it trusted first. *)
Theorem default_context_once dir dir' s c s' :
  defaultClientContext x509_parse drbg_seed config_defaults env dir s = Ret (c, s') ->
  defaultClientContext x509_parse drbg_seed config_defaults env dir' s' = Ret (c, s').
Proof.
  unfold defaultClientContext, gets, mbind, ST_bind. destruct (sContext s) as [c0|] eqn:E; [intros [= <- <-]; now rewrite E|].
  destruct (newTLSContext _ _ _ _ _ _ s) as [[c1 s1]| |]; [|done|done]. intros [= <- <-]. reflexivity.
Qed.

(** A new context trusts the certificates of the system, with a random generator that was seeded; if one of the steps fails, its error
    is thrown. *)
Theorem new_context_ok ep dir s g :
  LMbed s = Some g -> s_system_root_certs s = None ->
  newTLSContext x509_parse drbg_seed config_defaults env ep dir s
  = if negb (s_random_ctx s) && negb (drbg_seed =? 0) then Raise (EMbed drbg_seed)
    else if negb (config_defaults ep =? 0) then Raise (EMbed (config_defaults ep))
    else if bool_decide (trustedText dir <> []) && ((x509_parse (trustedText dir ++ [0])).1 <? 0) then Raise (EMbed (x509_parse (trustedText dir ++ [0])).1)
    else Ret (mkContext ep (parsed dir) (kSpdToMbedLogLevel (_level g)), mkStatics (logs s) (loggingInited s) (Some g) true (Some (parsed dir)) (sContext s)).
Proof.
  intros Hg Hr. unfold newTLSContext, setupLogging, get_drbg_context, gets, lift, modify, mbind, ST_bind, mbedCheck. rewrite Hg.
  pose proof (get_roots_ok dir) as Hroots. set (bad := bool_decide _ && _) in *. set (failed := EMbed (x509_parse _).1) in *. clearbody bad failed.
  destruct (s_random_ctx s) eqn:Es, (drbg_seed =? 0), (config_defaults ep =? 0); 
    cbn -[get_system_root_certs]; rewrite Es; cbn -[get_system_root_certs]; try reflexivity; rewrite Hroots; cbn; rewrite ?Hr, ?Hg, ?Es; now destruct bad.
Qed.
End context_facts.
