(* ===== verification/Framer.v ===== *)
(** [Framer] ([src/io/Framer.cc]): messages on a stream, each after its length as a
    varint.  Proved for every [IStream]. *)

From S2P Require Import Prelude Varint IStream.

Local Open Scope Z_scope.

Section framer.
Context {S : Type} {IS : IStream S}.

(** The generator [receiveMessages], run to its end: the messages it yields.  A
    round yields a message or reads at least one byte. *)
Fixpoint receiveMessages (fuel : nat) (buffer : bytes) : ST S (list bytes) :=
  match fuel with
  | O => crash NoFuel
  | Datatypes.S f =>
      r ← lift (readPartial buffer);
      let needed :=
        match r with
        | Some (len, valid) => if len <=? Z.of_nat (length valid) then None else Some (len - Z.of_nat (length valid))
        | None => Some 1024
        end in
      match r, needed with
      | Some (len, valid), None =>
          rest ← receiveMessages f (drop (Z.to_nat len) valid);
          mret (take (Z.to_nat len) valid :: rest)
      | _, Some n =>
          more ← readNoCopy n;
          match more with
          | [] => mret []
          | _ => receiveMessages f (buffer ++ more)
          end
      | None, None => crash AssertFailed
      end
  end.

(** [sendMessage]; [NotReentrant] only guards against use from two coroutines. *)
Definition sendMessage (msg : bytes) : ST S unit :=
  writeBuffers [put (Z.of_nat (length msg)); msg].

Fixpoint sendAll (msgs : list bytes) : ST S unit :=
  match msgs with
  | [] => mret tt
  | m :: r => _ ← sendMessage m; sendAll r
  end.

(** * Correctness *)

Definition framed (m : bytes) : bytes := put (Z.of_nat (length m)) ++ m.

Definition sizeOk (m : bytes) : Prop := Z.of_nat (length m) < 2 ^ 64.

Lemma sendAll_sent msgs s :
  writable s ->
  exists s', sendAll msgs s = Ret (tt, s') /\ sent s' = sent s ++ concat (map framed msgs).
Proof.
  revert s. induction msgs as [|m r IH]; intros s Hw; cbn [sendAll map concat].
  - exists s. now rewrite app_nil_r.
  - destruct (writeBuffers_spec [put (Z.of_nat (length m)); m] s Hw) as (s1 & E & _ & Hs & _ & Hw1).
    unfold mbind, ST_bind, sendMessage. rewrite E. destruct (IH s1 Hw1) as (s2 & E2 & Hs2). exists s2.
    rewrite E2, Hs2, Hs. cbn [concat]. unfold framed. now rewrite app_nil_r, <- !app_assoc.
Qed.

(** A buffer that starts a frame: its length is not complete, or it is. *)
Lemma readPartial_frame m buffer c w :
  sizeOk m -> buffer ++ c = framed m ++ w ->
  (readPartial buffer = Ret None /\ (length buffer < length (framed m))%nat)
  \/ exists valid, readPartial buffer = Ret (Some (Z.of_nat (length m), valid)) /\ valid ++ c = m ++ w
       /\ (length valid < length buffer)%nat.
Proof.
  intros Hm E. unfold sizeOk in Hm. destruct (put_is_varint (Z.of_nat (length m)) ltac:(lia)) as [Hv Hle].
  pose proof (put_length (Z.of_nat (length m)) ltac:(lia)) as Hlen. unfold framed in *. rewrite <- app_assoc in E.
  apply app_eq_inv in E as [(v & -> & E)|(v & E1 & E2)].
  - right. exists v. rewrite readPartial_varint by (done || lia). rewrite Hle, Z.mod_small by lia.
    split_and!; [done|done|rewrite length_app; lia].
  - destruct (decide (v = [])) as [->|Hne].
    + rewrite app_nil_r in E1. right. exists []. rewrite <- E1. rewrite <- (app_nil_r (put _)).
      rewrite readPartial_varint by (done || lia). rewrite Hle, Z.mod_small by lia. cbn [app] in *.
      split_and!; [done|done|rewrite ?length_app; cbn [length]; lia].
    + left. assert (length buffer < length (put (Z.of_nat (length m))))%nat as Hlt
        by (rewrite E1, length_app; destruct v; [done|cbn; lia]).
      split; [|rewrite length_app; lia]. replace buffer with (take (length buffer) (put (Z.of_nat (length m)))).
      * now apply readPartial_prefix.
      * now rewrite E1, take_app_length.
Qed.

Lemma receiveMessages_spec fuel msgs buffer s :
  Forall sizeOk msgs -> readable s -> buffer ++ content s = concat (map framed msgs) ->
  (length (content s) + length msgs < fuel)%nat ->
  exists s', receiveMessages fuel buffer s = Ret (msgs, s').
Proof.
  revert msgs buffer s. induction fuel as [|f IH]; intros msgs buffer s Hsz Hr E Hf; [lia|].
  cbn [receiveMessages]. unfold mbind, ST_bind, lift.
  assert (forall n, 0 < n -> content s <> [] -> exists a s', readNoCopy n s = Ret (a, s') /\ a <> []
    /\ readable s' /\ content s = a ++ content s') as Hread.
  { intros n Hn Hc. destruct (read_law n s Hr Hn) as (a & s' & Ea & _ & Hc' & _ & _ & He & Hr'). exists a, s'.
    assert (a <> []) by (intros ->; auto). auto. }
  destruct msgs as [|m ms]; cbn [map concat] in E.
  - apply app_eq_nil in E as [-> Hc]. cbn [readPartial].
    destruct (read_law 1024 s Hr ltac:(lia)) as (a & s' & Ea & _ & Hc' & _). rewrite Ea. rewrite Hc in Hc'.
    symmetry in Hc'. apply app_eq_nil in Hc' as [-> _]. now exists s'.
  - apply Forall_cons in Hsz as [Hm Hsz].
    destruct (readPartial_frame m buffer (content s) _ Hm E) as [[-> Hlt]|(valid & -> & Ev & Hlt)].
    + destruct (Hread 1024) as (a & s' & Ea & Hne & Hr' & Hc); [lia|intros F; rewrite F, app_nil_r in E; subst buffer; rewrite length_app in Hlt; lia|].
      rewrite Ea. destruct a as [|x a]; [done|]. apply IH; [now constructor|done| |].
      * rewrite <- app_assoc, <- Hc. exact E.
      * rewrite Hc, length_app in Hf. cbn [length] in *. lia.
    + destruct (Z.leb_spec (Z.of_nat (length m)) (Z.of_nat (length valid))) as [Hle|Hgt].
      * rewrite Nat2Z.id. assert (valid = m ++ drop (length m) valid) as Evm.
        { rewrite <- (take_drop (length m) valid) at 1. f_equal. apply (f_equal (take (length m))) in Ev.
          now rewrite take_app_length, take_app_le in Ev by lia. }
        destruct (IH ms (drop (length m) valid) s) as (s' & Es); [done|done| |cbn [length] in Hf; lia|].
        { rewrite Evm, <- app_assoc in Ev. now apply app_inv_head in Ev. }
        rewrite Es. exists s'. rewrite Evm, take_app_length. done.
      * destruct (Hread (Z.of_nat (length m) - Z.of_nat (length valid))) as (a & s' & Ea & Hne & Hr' & Hc); [lia| |].
        { intros F. rewrite F, app_nil_r in Ev. subst valid. rewrite length_app in Hgt. lia. }
        rewrite Ea. destruct a as [|x a]; [done|]. apply IH; [now constructor|done| |].
        -- rewrite <- app_assoc, <- Hc. exact E.
        -- rewrite Hc, length_app in Hf. cbn [length] in *. lia.
Qed.

End framer.

(** The messages sent through a [Framer] on any stream are the messages the
    generator of a [Framer] at the other end yields, whatever pieces the stream
    delivers the bytes in, the empty message included. *)
Theorem framer_roundtrip {S R : Type} {IS : IStream S} {IR : IStream R} (msgs : list bytes) (s : S) :
  Forall sizeOk msgs -> writable s -> sent s = [] ->
  exists s', sendAll msgs s = Ret (tt, s')
    /\ forall r : R, readable r -> content r = sent s' ->
        exists r', receiveMessages (Datatypes.S (length (content r) + length msgs)) [] r = Ret (msgs, r').
Proof.
  intros Hsz Hw Hs. destruct (sendAll_sent msgs s Hw) as (s' & E & Hs'). exists s'. split; [done|]. intros r Hr Hc.
  apply receiveMessages_spec; [done|done| |lia]. cbn [app]. now rewrite Hc, Hs', Hs.
Qed.

Lemma framer_roundtrip_witness :
  exists r', receiveMessages 7 [] (Chunks.mk [[2; 104]; [105]; [0]] []) = Ret ([lit "hi"; []], r').
Proof.
  destruct (@framer_roundtrip _ _ Chunks.stream Chunks.stream [lit "hi"; []] (Chunks.mk [] [])) as (s' & E & H).
  - repeat constructor; done.
  - done.
  - done.
  - destruct (H (Chunks.mk [[2; 104]; [105]; [0]] [])) as (r' & Er).
    + now repeat constructor.
    + vm_compute in E. injection E as <-. now vm_compute.
    + exists r'. exact Er.
Defined.
