(* ===== verification/WsProtocol.v ===== *)
(** The WebSocket framing of [src/io/WebSocketProtocol.hh] (after uWebSockets):
    masking, message formatting, the incremental frame parser, close payloads and
    UTF-8 validation, with the callbacks of [src/io/WebSocket.cc] that collect the
    fragments into messages.

    Two-byte frame headers are read as 16-bit words: the host is little-endian, so
    the first byte is the low one.  Lengths are in network order on the wire. *)

From S2P Require Import Prelude.

Local Open Scope Z_scope.

(** * Frame headers *)

Definition isFin (frame : Z) : bool := negb (Z.land frame 128 =? 0).
Definition getOpCode (frame : Z) : Z := Z.land frame 15.
Definition payloadLength (frame : Z) : Z := Z.land (Z.shiftr frame 8) 127.
Definition rsv23 (frame : Z) : bool := negb (Z.land frame 48 =? 0).
Definition rsv1 (frame : Z) : bool := negb (Z.land frame 64 =? 0).

Definition SHORT_MESSAGE_HEADER (isServer : bool) : nat := if isServer then 6 else 2.
Definition MEDIUM_MESSAGE_HEADER (isServer : bool) : nat := if isServer then 8 else 4.
Definition LONG_MESSAGE_HEADER (isServer : bool) : nat := if isServer then 14 else 10.

(** * Masking *)

Definition maskAt (mask : bytes) (i : nat) : Z := nth i mask 0.

(** The bytes [unmaskPrecise] stores: four at a time, then the rest from the start
    of the mask. *)
Fixpoint unmaskPrecise (mask : bytes) (src : bytes) : bytes :=
  match src with
  | a :: b :: c :: d :: r =>
      bxor a (maskAt mask 0) :: bxor b (maskAt mask 1) :: bxor c (maskAt mask 2)
        :: bxor d (maskAt mask 3) :: unmaskPrecise mask r
  | [a; b; c] => [bxor a (maskAt mask 0); bxor b (maskAt mask 1); bxor c (maskAt mask 2)]
  | [a; b] => [bxor a (maskAt mask 0); bxor b (maskAt mask 1)]
  | [a] => [bxor a (maskAt mask 0)]
  | [] => []
  end.

(** The in-place version, with the same steps. *)
Definition unmaskInplace (mask : bytes) (data : bytes) : bytes := unmaskPrecise mask data.

(** [mask[(i + offset) % 4] = originalMask[i]]. *)
Definition rotateMask (offset : nat) (mask : bytes) : bytes :=
  map (fun j => maskAt mask ((j + 4 - offset mod 4) mod 4)%nat) [0; 1; 2; 3]%nat.

(** * Formatting *)

Definition be16 (n : Z) : bytes := [u8 (Z.shiftr n 8); u8 n].

Definition be64 (n : Z) : bytes :=
  [u8 (Z.shiftr n 56); u8 (Z.shiftr n 48); u8 (Z.shiftr n 40); u8 (Z.shiftr n 32);
   u8 (Z.shiftr n 24); u8 (Z.shiftr n 16); u8 (Z.shiftr n 8); u8 n].

(** The first loop of the client's masking: byte by byte until the address is a
    multiple of four; [addr] is the address modulo 4.  The result is the masked
    bytes, the number of them and the bytes left. *)
Fixpoint maskUnaligned (mask : bytes) (addr offset : nat) (l : bytes) : bytes * nat * bytes :=
  match l with
  | x :: r =>
      if (addr mod 4 =? 0)%nat then ([], offset, l)
      else
        let '(out, n, rest) := maskUnaligned mask (S addr) (S offset) r in
        (bxor x (maskAt mask (offset mod 4)) :: out, n, rest)
  | [] => ([], offset, [])
  end.

(** [std::rotate(begin, begin + n, end)]. *)
Definition rotate (n : nat) (mask : bytes) : bytes := drop n mask ++ take n mask.

(** The loop over 32-bit words: the mask word is the mask's bytes in memory order. *)
Fixpoint maskWords (mask : bytes) (words : nat) (l : bytes) : bytes * bytes :=
  match words, l with
  | S w, a :: b :: c :: d :: r =>
      let '(out, rest) := maskWords mask w r in
      (bxor a (maskAt mask 0) :: bxor b (maskAt mask 1) :: bxor c (maskAt mask 2)
         :: bxor d (maskAt mask 3) :: out, rest)
  | _, _ => ([], l)
  end.

Fixpoint maskTail (mask : bytes) (i : nat) (l : bytes) : bytes :=
  match l with
  | x :: r => bxor x (maskAt mask (i mod 4)) :: maskTail mask (S i) r
  | [] => []
  end.

(** The client's masking of a payload that starts at an address equal to [addr]
    modulo 4. *)
Definition maskPayload (mask : bytes) (addr : nat) (l : bytes) : bytes :=
  let '(out1, offset, l1) := maskUnaligned mask addr 0 l in
  let m := rotate offset mask in
  let '(out2, l2) := maskWords m (length l1 / 4) l1 in
  out1 ++ out2 ++ maskTail m 0 l2.

Definition lengthField (maskBit len : Z) : bytes :=
  if len <? 126 then [Z.lor len maskBit]
  else if len <=? 65535 then Z.lor 126 maskBit :: be16 len
  else Z.lor 127 maskBit :: be64 len.

(** [formatMessage] with [reportedLength = length]: the bytes at [dst].  The four
    bytes [mask] come from the random generator; [dst] is the buffer's address. *)
Definition formatMessage (isServer : bool) (mask : bytes) (dst : nat) (src : bytes) (opCode : Z)
  (compressed : bool) : bytes :=
  let len := Z.of_nat (length src) in
  let b0 := Z.lor (Z.lor 128 (if compressed then 64 else 0)) opCode in
  let head := b0 :: lengthField (if isServer then 0 else 128) len in
  if isServer then head ++ src
  else head ++ mask ++ maskPayload mask (dst + length head + 4) src.

(** * Messages and fragments *)

Record Message := mkMessage { type : Z; text : bytes }.

#[export] Instance Message_eq_dec : EqDecision Message.
Proof. solve_decision. Defined.

(** The part of [WebSocket] that the parser calls back: the message being received
    and the queue of complete ones. *)
Record Incoming := mkIncoming {
  _curMessage : option Message;
  _incoming : list Message
}.

Definition handleFragment (data : bytes) (remainingBytes opCode : Z) (fin : bool) (ws : Incoming) : Incoming :=
  let cur := match _curMessage ws with Some m => m | None => mkMessage opCode [] end in
  let cur := mkMessage (type cur) (text cur ++ data) in
  if fin && (remainingBytes =? 0) then mkIncoming None (_incoming ws ++ [cur])
  else mkIncoming (Some cur) (_incoming ws).

Definition kMaxMessageLength : Z := 2 ^ 20.

Definition refusePayloadLength (length : Z) : bool := kMaxMessageLength <? length.

(** Compression is not implemented. *)
Definition setCompressed : bool := false.

(** [forceClose] raises [CloseCode::ProtocolError]. *)
Definition forceClose {A} : outcome A := Raise (EWebSocket 1002).

(** * The parser *)

Inductive state_t := READ_HEAD | READ_MESSAGE.

Record Parser := mkParser {
  state : state_t;
  spill : bytes;
  opStack : Z;
  lastFin : bool;
  remainingBytes : Z;
  mask : bytes;
  opCode : Z * Z;
  user : Incoming
}.

Definition newParser : Parser :=
  mkParser READ_HEAD [] (-1) true 0 [0; 0; 0; 0] (0, 0) (mkIncoming None []).

Definition opCodeAt (p : Parser) : Z := if opStack p =? 0 then fst (opCode p) else snd (opCode p).

Definition pushOpCode (op : Z) (p : Parser) : Parser :=
  let s := opStack p + 1 in
  mkParser (state p) (spill p) s (lastFin p) (remainingBytes p) (mask p)
    (if s =? 0 then (op, snd (opCode p)) else (fst (opCode p), op)) (user p).

Definition setFin (fin : bool) (p : Parser) : Parser :=
  mkParser (state p) (spill p) (opStack p) fin (remainingBytes p) (mask p) (opCode p) (user p).

(** After a whole frame: the opcode is popped if it was final. *)
Definition endFrame (fin : bool) (st : state_t) (ws : Incoming) (p : Parser) : Parser :=
  mkParser st [] (if fin then opStack p - 1 else opStack p) (lastFin p) (remainingBytes p) (mask p) (opCode p) ws.

Section parser.
Context (isServer : bool).

(** [consumeMessage]: header and payload of one frame at the start of [src].  The
    result says whether to stop, and what is left of [src].  The code compares the lengths as
    [int]s: the payload's fits one, being at most [kMaxMessageLength], and so does the length of any buffer a
    stream hands over. *)
Definition consumeMessage (header : nat) (payLength : Z) (src : bytes) (frame : Z) (p : Parser)
  : outcome (bool * bytes * Parser) :=
  p ← (if negb (getOpCode frame =? 0) then
         if (opStack p =? 1) || (negb (lastFin p) && (getOpCode frame <? 2)) then forceClose
         else Ret (pushOpCode (getOpCode frame) p)
       else if opStack p =? -1 then forceClose
       else Ret p);
  let p := setFin (isFin frame) p in
  if refusePayloadLength payLength then forceClose
  else if payLength <=? Z.of_nat (length src) - Z.of_nat header then
    let raw := take (Z.to_nat payLength) (drop header src) in
    let data := if isServer then unmaskPrecise (take 4 (drop (header - 4) src)) raw else raw in
    let ws := handleFragment data 0 (opCodeAt p) (isFin frame) (user p) in
    Ret (false, drop (Z.to_nat payLength + header) src, endFrame (isFin frame) (state p) ws p)
  else
    let remaining := payLength + Z.of_nat header - Z.of_nat (length src) in
    let raw := drop header src in
    let m := take 4 (drop (header - 4) src) in
    let data := if isServer then unmaskPrecise m raw else raw in
    let mask' := if isServer then rotateMask (4 - (length raw mod 4)) m else mask p in
    let ws := handleFragment data remaining (opCodeAt p) (isFin frame) (user p) in
    Ret (true, [], mkParser READ_MESSAGE [] (opStack p) (lastFin p) remaining mask' (opCode p) ws).

(** [consumeContinuation]: the next bytes of a payload; [true] when it is complete
    and the next header follows. *)
Definition consumeContinuation (src : bytes) (p : Parser) : bool * bytes * Parser :=
  if remainingBytes p <=? Z.of_nat (length src) then
    let k := Z.to_nat (remainingBytes p) in
    let n := (k / 4 * 4)%nat in
    let raw := take k src in
    let data := if isServer then unmaskInplace (mask p) (take n raw) ++ maskTail (mask p) 0 (drop n raw) else raw in
    let ws := handleFragment data 0 (opCodeAt p) (lastFin p) (user p) in
    (true, drop k src, endFrame (lastFin p) READ_HEAD ws p)
  else
    let data := if isServer then unmaskInplace (mask p) src else src in
    let remaining := remainingBytes p - Z.of_nat (length src) in
    let ws := handleFragment data remaining (opCodeAt p) (lastFin p) (user p) in
    let mask' := if isServer && negb (length src mod 4 =? 0)%nat
                 then rotateMask (4 - length src mod 4) (mask p) else mask p in
    (false, src, mkParser (state p) (spill p) (opStack p) (lastFin p) remaining mask' (opCode p) ws).

Definition word16 (b : bytes) : Z := nth 0 b 0 * 256 + nth 1 b 0.

Definition word64 (b : bytes) : Z := fold_left (fun acc x => acc * 256 + x) (take 8 b) 0.

Definition setSpill (s : bytes) (p : Parser) : Parser :=
  mkParser (state p) s (opStack p) (lastFin p) (remainingBytes p) (mask p) (opCode p) (user p).

(** [invalid reserved bits / invalid opcodes / invalid control frames]. *)
Definition badFrame (frame : Z) : bool :=
  (rsv1 frame && negb setCompressed) || rsv23 frame
  || ((2 <? getOpCode frame) && (getOpCode frame <? 8)) || (10 <? getOpCode frame)
  || ((2 <? getOpCode frame) && (negb (isFin frame) || (125 <? payloadLength frame))).

(** The loop at [parseNext]: each round consumes a header at least, so [length src]
    rounds are enough. *)
Fixpoint parseNext (fuel : nat) (src : bytes) (p : Parser) : outcome Parser :=
  match fuel with
  | O => Fault NoFuel
  | S f =>
      if (length src <? SHORT_MESSAGE_HEADER isServer)%nat then Ret (setSpill src p)
      else
        let frame := nth 0 src 0 + 256 * nth 1 src 0 in
        if badFrame frame then forceClose
        else if payloadLength frame <? 126 then
          r ← consumeMessage (SHORT_MESSAGE_HEADER isServer) (payloadLength frame) src frame p;
          if (r.1.1 : bool) then Ret r.2 else parseNext f r.1.2 r.2
        else if payloadLength frame =? 126 then
          if (length src <? MEDIUM_MESSAGE_HEADER isServer)%nat then Ret (setSpill src p)
          else
            r ← consumeMessage (MEDIUM_MESSAGE_HEADER isServer) (word16 (drop 2 src)) src frame p;
            if (r.1.1 : bool) then Ret r.2 else parseNext f r.1.2 r.2
        else
          if (length src <? LONG_MESSAGE_HEADER isServer)%nat then Ret (setSpill src p)
          else
            r ← consumeMessage (LONG_MESSAGE_HEADER isServer) (word64 (drop 2 src)) src frame p;
            if (r.1.1 : bool) then Ret r.2 else parseNext f r.1.2 r.2
  end.

(** [_consume]: bytes spilled before are put in front of [src]. *)
Definition consume1 (src : bytes) (p : Parser) : outcome Parser :=
  let src := spill p ++ src in
  match state p with
  | READ_HEAD => parseNext (S (length src)) src p
  | READ_MESSAGE =>
      let '(again, src, p) := consumeContinuation src p in
      if again then parseNext (S (length src)) src p else Ret p
  end.

(** [consume]: unread bytes are completed in a buffer of their own until none is
    left; every round uses at least one byte of [src]. *)
Fixpoint consumeLoop (fuel : nat) (src : bytes) (p : Parser) : outcome Parser :=
  match spill p with
  | [] => consume1 src p
  | _ =>
      match fuel with
      | O => Fault NoFuel
      | S f =>
          let bufLen := Nat.min (length (spill p) + length src) (LONG_MESSAGE_HEADER isServer) in
          let lengthUsed := (bufLen - length (spill p))%nat in
          let buf := spill p ++ take lengthUsed src in
          p' ← consume1 buf (setSpill [] p);
          match drop lengthUsed src with
          | [] => Ret p'
          | src' => consumeLoop f src' p'
          end
      end
  end.

Definition consume (src : bytes) (p : Parser) : outcome Parser := consumeLoop (S (length src)) src p.

End parser.

(** * Close payloads and UTF-8 *)

(** [isValidUtf8]; the inner loop over ASCII bytes is the first case. *)
Fixpoint isValidUtf8 (s : bytes) : bool :=
  match s with
  | [] => true
  | a :: r =>
      if Z.land a 0x80 =? 0 then isValidUtf8 r
      else if Z.land a 0x60 =? 0x40 then
        match r with
        | b :: r' => if negb (Z.land b 0xc0 =? 0x80) || (Z.land a 0xfe =? 0xc0) then false else isValidUtf8 r'
        | _ => false
        end
      else if Z.land a 0xf0 =? 0xe0 then
        match r with
        | b :: c :: r' =>
            if negb (Z.land b 0xc0 =? 0x80) || negb (Z.land c 0xc0 =? 0x80)
               || ((a =? 0xe0) && (Z.land b 0xe0 =? 0x80)) || ((a =? 0xed) && (Z.land b 0xe0 =? 0xa0))
            then false else isValidUtf8 r'
        | _ => false
        end
      else if Z.land a 0xf8 =? 0xf0 then
        match r with
        | b :: c :: d :: r' =>
            if negb (Z.land b 0xc0 =? 0x80) || negb (Z.land c 0xc0 =? 0x80) || negb (Z.land d 0xc0 =? 0x80)
               || ((a =? 0xf0) && (Z.land b 0xf0 =? 0x80)) || ((a =? 0xf4) && (0x8f <? b)) || (0xf4 <? a)
            then false else isValidUtf8 r'
        | _ => false
        end
      else false
  end.

Record CloseFrame := mkClose { ccode : Z; cmessage : bytes }.

Definition noClose : CloseFrame := mkClose 0 [].

Definition parseClosePayload (src : bytes) : CloseFrame :=
  match src with
  | a :: b :: r =>
      let code := a * 256 + b in
      if (code <? 1000) || (4999 <? code) || ((1011 <? code) && (code <? 4000))
         || ((1004 <=? code) && (code <=? 1006)) || negb (isValidUtf8 r)
      then noClose else mkClose code r
  | _ => noClose
  end.

Definition formatClosePayload (code : Z) (message : bytes) : bytes :=
  if negb (code =? 0) then be16 code ++ message else [].

(** * Masking: the reference

    [maskTail mask i] applies byte [(i + j) mod 4] of the mask to byte [j]; the
    other loops are faster ways to the same bytes. *)

Lemma maskTail_length m i l : length (maskTail m i l) = length l.
Proof. revert i. induction l as [|x l IH]; intros i; cbn; [done|]. now rewrite IH. Qed.

Lemma maskTail_period m i l : maskTail m (i + 4) l = maskTail m i l.
Proof.
  revert i. induction l as [|x l IH]; intros i; cbn [maskTail]; [done|].
  replace (S (i + 4)) with (S i + 4)%nat by lia. rewrite IH. f_equal. f_equal. unfold maskAt. f_equal.
  replace (i + 4)%nat with (i + 1 * 4)%nat by lia. now rewrite Nat.Div0.mod_add.
Qed.

Lemma maskTail_mod m i l : maskTail m i l = maskTail m (i mod 4) l.
Proof.
  rewrite (Nat.div_mod_eq i 4) at 1. generalize (i / 4)%nat as q. intros q.
  induction q as [|q IH]; [f_equal; lia|].
  replace (4 * S q + i mod 4)%nat with (4 * q + i mod 4 + 4)%nat by lia. now rewrite maskTail_period.
Qed.

Lemma maskTail_app m i a b :
  maskTail m i (a ++ b) = maskTail m i a ++ maskTail m (i + length a) b.
Proof.
  revert i. induction a as [|x a IH]; intros i; cbn; [f_equal; lia|]. rewrite IH. do 3 f_equal. lia.
Qed.

Lemma maskTail_involutive m i l : maskTail m i (maskTail m i l) = l.
Proof. revert i. induction l as [|x l IH]; intros i; cbn; [done|]. now rewrite IH, bxor_involutive. Qed.

Lemma maskTail_byte m i l : Forall is_byte m -> Forall is_byte l -> Forall is_byte (maskTail m i l).
Proof.
  intros Hm Hl. revert i. induction Hl as [|x l Hx _ IH]; intros i; cbn [maskTail]; constructor; [|apply IH].
  apply bxor_byte; [done|]. unfold maskAt.
  destruct (nth_in_or_default (i mod 4) m 0) as [Hin| ->]; [|unfold is_byte; lia].
  rewrite Forall_forall in Hm. now apply Hm, list_elem_of_In.
Qed.

(** Changing the phase of the mask. *)
Lemma maskTail_ext m m' i i' l :
  (forall j, maskAt m' ((i' + j) mod 4) = maskAt m ((i + j) mod 4)) ->
  maskTail m' i' l = maskTail m i l.
Proof.
  revert i i'. induction l as [|x l IH]; intros i i' H; cbn [maskTail]; [done|]. f_equal.
  - f_equal. specialize (H 0%nat). rewrite !Nat.add_0_r in H. exact H.
  - apply IH. intros j. specialize (H (S j)). now rewrite <- !Nat.add_succ_comm in H.
Qed.

Ltac mod4 := repeat match goal with |- context [(?n mod 4)%nat] =>
  is_var n; let H := fresh in pose proof (Nat.mod_upper_bound n 4 ltac:(lia)) as H end.

Lemma four (m : bytes) : length m = 4%nat -> exists a b c d, m = [a; b; c; d].
Proof. destruct m as [|a [|b [|c [|d [|]]]]]; try done. intros _. now exists a, b, c, d. Qed.

Lemma unmaskPrecise_ref m l : unmaskPrecise m l = maskTail m 0 l.
Proof.
  remember (length l) as n eqn:En. revert l En.
  induction n as [n IH] using lt_wf_ind. intros [|a [|b [|c [|d r]]]] En; cbn [unmaskPrecise maskTail]; try done.
  rewrite (IH (length r)) by (cbn in En; lia || done). cbn [Nat.modulo Nat.divmod Nat.sub fst snd].
  now rewrite (maskTail_period m 0 r : maskTail m 4 r = maskTail m 0 r).
Qed.

Lemma maskWords_ref m w l :
  (4 * w <= length l)%nat ->
  maskWords m w l = (maskTail m 0 (take (4 * w) l), drop (4 * w) l).
Proof.
  revert l. induction w as [|w IH]; intros l Hl; [now destruct l|].
  destruct l as [|a [|b [|c [|d r]]]]; cbn in Hl; try lia. cbn [maskWords].
  rewrite IH by lia. replace (4 * S w)%nat with (S (S (S (S (4 * w))))) by lia. cbn [take drop maskTail].
  f_equal. do 4 (f_equal; [reflexivity|] || f_equal).
  cbn. now rewrite (maskTail_period m 0 _ : maskTail m 4 _ = maskTail m 0 _).
Qed.

Lemma mod4_cases j : (j mod 4 = 0 \/ j mod 4 = 1 \/ j mod 4 = 2 \/ j mod 4 = 3)%nat.
Proof. pose proof (Nat.mod_upper_bound j 4 ltac:(lia)). lia. Qed.

(** A shift of the mask's index, reduced modulo 4. *)
Lemma maskTail_shift m m' k l :
  (forall j, (j < 4)%nat -> maskAt m' j = maskAt m ((k + j) mod 4)) ->
  maskTail m' 0 l = maskTail m k l.
Proof.
  intros H. apply maskTail_ext. intros j. rewrite Nat.add_0_l.
  rewrite H by (apply Nat.mod_upper_bound; lia). f_equal. now rewrite Nat.Div0.add_mod_idemp_r.
Qed.

Lemma rotate_ref n m l : length m = 4%nat -> (n < 4)%nat -> maskTail (rotate n m) 0 l = maskTail m n l.
Proof.
  intros (a & b & c & d & ->)%four Hn. apply maskTail_shift. intros j Hj.
  destruct n as [|[|[|[|]]]]; try lia; destruct j as [|[|[|[|]]]]; try lia; done.
Qed.

Lemma rotateMask_ref k m l :
  length m = 4%nat -> maskTail (rotateMask (4 - k mod 4) m) 0 l = maskTail m k l.
Proof.
  intros (a & b & c & d & ->)%four. rewrite (maskTail_mod _ k). apply maskTail_shift. intros j Hj.
  destruct (mod4_cases k) as [-> |[-> |[-> | ->]]]; destruct j as [|[|[|[|]]]]; try lia; done.
Qed.

Lemma rotateMask_length n m : length (rotateMask n m) = 4%nat.
Proof. done. Qed.

Lemma rotateMask_byte n m : Forall is_byte m -> Forall is_byte (rotateMask n m).
Proof.
  intros Hm. unfold rotateMask. apply Forall_forall. intros x (j & <- & _)%list_elem_of_In%in_map_iff.
  unfold maskAt. destruct (nth_in_or_default ((j + 4 - n mod 4) mod 4) m 0) as [Hin| ->]; [|unfold is_byte; lia].
  rewrite Forall_forall in Hm. now apply Hm, list_elem_of_In.
Qed.

Lemma maskUnaligned_ref m addr off l :
  exists k, (k <= length l)%nat /\ (k < 4)%nat
    /\ maskUnaligned m addr off l = (maskTail m off (take k l), (off + k)%nat, drop k l).
Proof.
  assert (exists k, (k <= length l)%nat /\ (k + addr mod 4 <= 4)%nat /\ (addr mod 4 = 0 -> k = 0)%nat
    /\ maskUnaligned m addr off l = (maskTail m off (take k l), (off + k)%nat, drop k l)) as (k & H1 & H2 & H3 & H4).
  { revert addr off. induction l as [|x l IH]; intros addr off; cbn [maskUnaligned].
    - exists 0%nat. rewrite Nat.add_0_r. split_and!; [cbn; lia| |done|done].
      pose proof (Nat.mod_upper_bound addr 4). lia.
    - destruct (addr mod 4 =? 0)%nat eqn:E; bool_to_prop.
      + exists 0%nat. rewrite Nat.add_0_r. split_and!; [lia|lia|done|done].
      + destruct (IH (S addr) (S off)) as (k & H1 & H2 & H3 & H4). rewrite H4. exists (S k).
        pose proof (Nat.div_mod_eq addr 4). pose proof (Nat.div_mod_eq (S addr) 4).
        pose proof (mod4_cases addr). pose proof (mod4_cases (S addr)).
        split_and!; [cbn; lia|lia|lia|].
        * cbn [take drop maskTail]. f_equal. f_equal. lia. }
  exists k. split_and!; [done| |done]. pose proof (mod4_cases addr). lia.
Qed.

Lemma maskPayload_ref m addr l : length m = 4%nat -> maskPayload m addr l = maskTail m 0 l.
Proof.
  intros Hm. unfold maskPayload. destruct (maskUnaligned_ref m addr 0 l) as (k & H1 & H2 & ->).
  rewrite Nat.add_0_l. set (l1 := drop k l). set (w := (length l1 / 4)%nat).
  assert (4 * w <= length l1)%nat as Hw by (unfold w; pose proof (Nat.Div0.mul_div_le (length l1) 4); lia).
  rewrite maskWords_ref by done.
  rewrite <- (take_drop k l) at 2. rewrite maskTail_app, length_take, Nat.add_0_l, Nat.min_l by done. f_equal.
  fold l1. rewrite <- (take_drop (4 * w) l1) at 3. rewrite maskTail_app, length_take, Nat.min_l by done.
  rewrite !rotate_ref by done. f_equal.
  rewrite (maskTail_mod _ (k + 4 * w)).
  replace ((k + 4 * w) mod 4)%nat with k; [done|].
  rewrite (Nat.mul_comm 4 w), Nat.Div0.mod_add. symmetry. now apply Nat.mod_small.
Qed.

(** * Frames on the wire *)

(** A message that a peer may send. *)
Record wfMessage (m : Message) : Prop := {
  wf_type : type m ∈ [1; 2; 8; 9; 10];
  wf_bytes : Forall is_byte (text m);
  wf_length : Z.of_nat (length (text m)) <= kMaxMessageLength;
  wf_control : 2 < type m -> Z.of_nat (length (text m)) <= 125
}.

Definition wfMask (mask : bytes) : Prop := length mask = 4%nat /\ Forall is_byte mask.

(** Header (with the mask, when the receiver is a server) and payload. *)
Definition wireHead (isServer : bool) (mask : bytes) (m : Message) : bytes :=
  Z.lor 128 (type m) :: lengthField (if isServer then 128 else 0) (Z.of_nat (length (text m)))
  ++ (if isServer then mask else []).

Definition wirePayload (isServer : bool) (mask : bytes) (m : Message) : bytes :=
  if isServer then maskTail mask 0 (text m) else text m.

Definition wire (isServer : bool) (mask : bytes) (m : Message) : bytes :=
  wireHead isServer mask m ++ wirePayload isServer mask m.

Lemma formatMessage_wire isServer mask dst m :
  length mask = 4%nat ->
  formatMessage (negb isServer) mask dst (text m) (type m) false = wire isServer mask m.
Proof.
  intros Hm. unfold formatMessage, wire, wireHead, wirePayload. destruct isServer; cbn [negb].
  - rewrite maskPayload_ref by done. cbn. now rewrite <- !app_assoc.
  - cbn. now rewrite app_nil_r.
Qed.

Definition headerLen (isServer : bool) (len : Z) : nat :=
  if len <? 126 then SHORT_MESSAGE_HEADER isServer
  else if len <=? 65535 then MEDIUM_MESSAGE_HEADER isServer else LONG_MESSAGE_HEADER isServer.

Lemma wireHead_length isServer mask m :
  wfMask mask -> length (wireHead isServer mask m) = headerLen isServer (Z.of_nat (length (text m))).
Proof.
  intros [Hm _]. unfold wireHead, lengthField, headerLen. cbn [length]. rewrite length_app.
  destruct isServer; rewrite ?Hm; destruct (_ <? 126); [|destruct (_ <=? 65535)| |destruct (_ <=? 65535)]; done.
Qed.

Lemma wirePayload_length isServer mask m : length (wirePayload isServer mask m) = length (text m).
Proof. unfold wirePayload. destruct isServer; [apply maskTail_length|done]. Qed.

Lemma land_low x y k : 0 <= x < 256 -> 0 <= k < 256 -> Z.land (x + 256 * y) k = Z.land x k.
Proof.
  intros Hx Hk. assert (Z.land (Z.ones 8) k = k) as Ek.
  { rewrite Z.land_comm, Z.land_ones by lia. apply Z.mod_small. lia. }
  rewrite <- Ek, !Z.land_assoc, !Z.land_ones by lia. f_equal.
  change (2 ^ 8) with 256. rewrite Z.mul_comm, Z_mod_plus_full. reflexivity.
Qed.

Lemma shiftr_high x y : 0 <= x < 256 -> Z.shiftr (x + 256 * y) 8 = y.
Proof. intros Hx. rewrite Z.shiftr_div_pow2 by lia. change (2 ^ 8) with 256.
  rewrite Z.mul_comm, Z.div_add, Z.div_small; lia. Qed.

(** The second byte of a header. *)
Definition lengthByte (maskBit len : Z) : Z :=
  Z.lor (if len <? 126 then len else if len <=? 65535 then 126 else 127) maskBit.

Lemma lor_mask_bit n b : 0 <= n < 128 -> b = 0 \/ b = 128 -> Z.land (Z.lor n b) 127 = n /\ is_byte (Z.lor n b).
Proof.
  intros Hn [-> | ->].
  - rewrite Z.lor_0_r. split; [|unfold is_byte; lia]. change 127 with (Z.ones 7).
    rewrite Z.land_ones by lia. apply Z.mod_small. lia.
  - change 128 with (Z.shiftl 1 7). rewrite lor_add_shiftl by lia. change 127 with (Z.ones 7).
    rewrite Z.land_ones by lia. split; [|unfold is_byte; lia]. rewrite Z.mod_add by lia. apply Z.mod_small. lia.
Qed.

(** What the parser reads in the first two bytes. *)
Lemma frame_fields op b len y :
  op ∈ [1; 2; 8; 9; 10] -> 0 <= len -> b = 0 \/ b = 128 -> (2 < op -> len <= 125) ->
  y = Z.lor 128 op + 256 * lengthByte b len ->
  isFin y = true /\ getOpCode y = op
  /\ payloadLength y = (if len <? 126 then len else if len <=? 65535 then 126 else 127)
  /\ badFrame y = false.
Proof.
  intros Hop Hlen Hb Hctl ->.
  set (n := if len <? 126 then len else if len <=? 65535 then 126 else 127).
  assert (0 <= n < 128) as Hn by (unfold n; destruct (len <? 126) eqn:E; bool_to_prop; [lia|]; destruct (_ <=? _); lia).
  destruct (lor_mask_bit n b Hn Hb) as [Hland Hbyte].
  assert (is_byte (Z.lor 128 op) /\ Z.land (Z.lor 128 op) 128 = 128 /\ Z.land (Z.lor 128 op) 15 = op
          /\ Z.land (Z.lor 128 op) 48 = 0 /\ Z.land (Z.lor 128 op) 64 = 0) as (H0 & H1 & H2 & H3 & H4).
  { unfold is_byte. repeat (apply elem_of_cons in Hop as [->|Hop]; [vm_compute; split_and!; (done || reflexivity)|]). now apply elem_of_nil in Hop. }
  assert (payloadLength (Z.lor 128 op + 256 * lengthByte b len) = n) as Hp.
  { unfold payloadLength. rewrite shiftr_high by done. exact Hland. }
  unfold badFrame, isFin, getOpCode, rsv1, rsv23, setCompressed.
  rewrite Hp, !land_low, H1, H2, H3, H4 by (done || lia). split_and!; try done. cbn [negb andb orb Z.eqb].
  assert ((2 <? op) && (op <? 8) = false /\ 10 <? op = false) as [-> ->].
  { repeat (apply elem_of_cons in Hop as [->|Hop]; [done|]). now apply elem_of_nil in Hop. }
  cbn [orb]. destruct (2 <? op) eqn:E; [|done]. bool_to_prop. cbn [andb].
  assert (len <? 126 = true) as El by (apply Z.ltb_lt; specialize (Hctl E); lia). unfold n. rewrite El.
  apply Z.ltb_ge. specialize (Hctl E). lia.
Qed.

Lemma word16_be16 n r : 0 <= n < 65536 -> word16 (be16 n ++ r) = n.
Proof.
  intros Hn. unfold word16, be16. cbn [nth app]. rewrite !u8_mod, Z.shiftr_div_pow2 by lia.
  change (2 ^ 8) with 256. rewrite (Z.mod_small (n / 256)) by (split; [apply Z.div_pos|apply Z.div_lt_upper_bound]; lia).
  pose proof (Z.div_mod n 256). lia.
Qed.

Lemma word64_be64 n r : 0 <= n < 2 ^ 64 -> word64 (be64 n ++ r) = n.
Proof.
  intros Hn. unfold word64, be64. cbn [app take fold_left]. rewrite !u8_mod.
  rewrite !Z.shiftr_div_pow2 by lia.
  assert (forall k, 0 <= k -> n / 2 ^ k = (n / 2 ^ k) mod 256 + 256 * (n / 2 ^ (k + 8))) as Hd.
  { intros k Hk. rewrite Z.pow_add_r by lia. rewrite <- Z.div_div by lia.
    change (2 ^ 8) with 256. pose proof (Z.div_mod (n / 2 ^ k) 256). lia. }
  pose proof (Hd 0 ltac:(lia)) as E0. rewrite Z.pow_0_r, Z.div_1_r in E0. change (0 + 8) with 8 in E0.
  pose proof (Hd 8 ltac:(lia)) as E1. change (8 + 8) with 16 in E1.
  pose proof (Hd 16 ltac:(lia)) as E2. change (16 + 8) with 24 in E2.
  pose proof (Hd 24 ltac:(lia)) as E3. change (24 + 8) with 32 in E3.
  pose proof (Hd 32 ltac:(lia)) as E4. change (32 + 8) with 40 in E4.
  pose proof (Hd 40 ltac:(lia)) as E5. change (40 + 8) with 48 in E5.
  pose proof (Hd 48 ltac:(lia)) as E6. change (48 + 8) with 56 in E6.
  pose proof (Hd 56 ltac:(lia)) as E7. change (56 + 8) with 64 in E7.
  rewrite (Z.div_small n (2 ^ 64)) in E7 by lia. clear Hd.
  rewrite take_0. cbn [fold_left]. revert E0 E1 E2 E3 E4 E5 E6 E7. clear.
  generalize (n / 2 ^ 8) (n / 2 ^ 16) (n / 2 ^ 24) (n / 2 ^ 32) (n / 2 ^ 40) (n / 2 ^ 48) (n / 2 ^ 56).
  intros q1 q2 q3 q4 q5 q6 q7.
  generalize (n mod 256) (q1 mod 256) (q2 mod 256) (q3 mod 256) (q4 mod 256) (q5 mod 256) (q6 mod 256) (q7 mod 256).
  intros; lia.
Qed.

(** * Parsing the peer's frames *)

Section receive.
Context (isServer : bool).

(** A frame as the peer sends it: the mask it drew and the message. *)
Notation frame_t := (bytes * Message)%type.

Definition wfFrame (f : frame_t) : Prop := wfMask f.1 /\ wfMessage f.2.

Definition wires (fs : list frame_t) : bytes := concat (map (fun f => wire isServer f.1 f.2) fs).

(** The payload's encoding from byte [k] on; it is its own inverse. *)
Definition coded (mask0 : bytes) (k : nat) (l : bytes) : bytes := if isServer then maskTail mask0 k l else l.

Lemma coded_coded mask0 k l : coded mask0 k (coded mask0 k l) = l.
Proof. unfold coded. destruct isServer; [apply maskTail_involutive|done]. Qed.

Lemma coded_app mask0 k a b : coded mask0 k (a ++ b) = coded mask0 k a ++ coded mask0 (k + length a) b.
Proof. unfold coded. destruct isServer; [apply maskTail_app|done]. Qed.

Lemma coded_length mask0 k l : length (coded mask0 k l) = length l.
Proof. unfold coded. destruct isServer; [apply maskTail_length|done]. Qed.

Lemma wirePayload_coded mask0 m : wirePayload isServer mask0 m = coded mask0 0 (text m).
Proof. done. Qed.

Lemma coded_split mask0 j k l :
  (k <= length l)%nat -> coded mask0 j l = coded mask0 j (take k l) ++ coded mask0 (j + k) (drop k l).
Proof.
  intros Hk. rewrite <- (take_drop k l) at 1. rewrite coded_app, length_take, Nat.min_l by done. done.
Qed.

Lemma coded_drop mask0 j k l : (k <= length l)%nat -> drop k (coded mask0 j l) = coded mask0 (j + k) (drop k l).
Proof.
  intros Hk. rewrite (coded_split _ j k) by done. rewrite drop_app_length'; [done|].
  rewrite coded_length, length_take. lia.
Qed.

Lemma coded_take mask0 j k l : (k <= length l)%nat -> take k (coded mask0 j l) = coded mask0 j (take k l).
Proof.
  intros Hk. rewrite (coded_split _ j k l) by done. rewrite take_app_length'; [done|].
  rewrite coded_length, length_take. lia.
Qed.

(** Between frames, with [inc] received. *)
Definition idle (inc : list Message) (p : Parser) : Prop :=
  state p = READ_HEAD /\ opStack p = -1 /\ lastFin p = true /\ user p = mkIncoming None inc.

(** Inside the payload of [m], of which [k] bytes have come. *)
Definition midway (inc : list Message) (mask0 : bytes) (m : Message) (k : nat) (p : Parser) : Prop :=
  state p = READ_MESSAGE /\ spill p = [] /\ opStack p = 0 /\ lastFin p = true
  /\ (k < length (text m))%nat /\ remainingBytes p = Z.of_nat (length (text m) - k)
  /\ fst (opCode p) = type m
  /\ user p = mkIncoming (Some (mkMessage (type m) (take k (text m)))) inc
  /\ (isServer = true -> length (mask p) = 4%nat /\ forall l, maskTail (mask p) 0 l = maskTail mask0 k l).

(** The frame's first two bytes, and its length field. *)
Lemma wireHead_eq mask0 m :
  exists r, wireHead isServer mask0 m =
    Z.lor 128 (type m) :: lengthByte (if isServer then 128 else 0) (Z.of_nat (length (text m))) :: r
    ++ (if isServer then mask0 else [])
  /\ r = (let len := Z.of_nat (length (text m)) in
          if len <? 126 then [] else if len <=? 65535 then be16 len else be64 len).
Proof.
  eexists. split; [|reflexivity]. unfold wireHead, lengthField, lengthByte.
  destruct (_ <? 126); [done|]. destruct (_ <=? 65535); done.
Qed.

Definition frameOf (m : Message) : Z :=
  Z.lor 128 (type m) + 256 * lengthByte (if isServer then 128 else 0) (Z.of_nat (length (text m))).

Lemma frameOf_fields m : wfMessage m ->
  isFin (frameOf m) = true /\ getOpCode (frameOf m) = type m
  /\ payloadLength (frameOf m) = (let len := Z.of_nat (length (text m)) in
       if len <? 126 then len else if len <=? 65535 then 126 else 127)
  /\ badFrame (frameOf m) = false.
Proof.
  intros [Ht Hb Hl Hc]. eapply frame_fields; [done| | |exact Hc|reflexivity]; [lia|].
  destruct isServer; auto.
Qed.

Lemma header_bounds len :
  (SHORT_MESSAGE_HEADER isServer <= headerLen isServer len <= LONG_MESSAGE_HEADER isServer)%nat.
Proof. unfold headerLen. destruct (len <? 126), (len <=? 65535), isServer; cbn; lia. Qed.

(** The header split by the end of the input: it is kept. *)
Lemma parseNext_header f mask0 m h1 h2 p :
  wfMask mask0 -> wfMessage m -> wireHead isServer mask0 m = h1 ++ h2 -> h2 <> [] ->
  parseNext isServer (S f) h1 p = Ret (setSpill h1 p).
Proof.
  intros Hm Hwf E Hne. pose proof (wireHead_length isServer mask0 m Hm) as HL.
  assert (length h1 < headerLen isServer (Z.of_nat (length (text m))))%nat as Hlt.
  { rewrite <- HL, E, length_app. destruct h2; [done|cbn; lia]. }
  cbn [parseNext]. destruct (length h1 <? SHORT_MESSAGE_HEADER isServer)%nat eqn:Es; [done|]. bool_to_prop.
  destruct (wireHead_eq mask0 m) as (r & Eh & _). rewrite E in Eh.
  destruct h1 as [|b0 [|b1 h1]]; [destruct isServer; cbn in Es; lia..|].
  cbn [app] in Eh. injection Eh as -> -> _. cbn [nth].
  change (Z.lor 128 (type m) + 256 * lengthByte (if isServer then 128 else 0) (Z.of_nat (length (text m))))
    with (frameOf m).
  destruct (frameOf_fields m Hwf) as (_ & _ & -> & ->). cbv zeta.
  unfold headerLen in Hlt.
  destruct (Z.of_nat (length (text m)) <? 126) eqn:E1; [lia|].
  destruct (Z.of_nat (length (text m)) <=? 65535) eqn:E2; cbn [Z.ltb Z.eqb Z.compare Pos.compare Pos.compare_cont Pos.eqb].
  - now rewrite (proj2 (Nat.ltb_lt _ _) Hlt).
  - now rewrite (proj2 (Nat.ltb_lt _ _) Hlt).
Qed.

(** A whole header: its frame is handed to [consumeMessage]. *)
Lemma parseNext_frame f mask0 m x p :
  wfMask mask0 -> wfMessage m ->
  parseNext isServer (S f) (wireHead isServer mask0 m ++ x) p =
  (r ← consumeMessage isServer (headerLen isServer (Z.of_nat (length (text m)))) (Z.of_nat (length (text m)))
         (wireHead isServer mask0 m ++ x) (frameOf m) p;
   if (r.1.1 : bool) then Ret r.2 else parseNext isServer f r.1.2 r.2).
Proof.
  intros Hm Hwf. pose proof (wireHead_length isServer mask0 m Hm) as HL.
  destruct (wireHead_eq mask0 m) as (r & Eh & Er). cbn [parseNext].
  assert (headerLen isServer (Z.of_nat (length (text m))) <= length (wireHead isServer mask0 m ++ x))%nat as Hlen
    by (rewrite length_app; lia).
  pose proof (header_bounds (Z.of_nat (length (text m)))) as HB.
  rewrite (proj2 (Nat.ltb_ge (length (wireHead isServer mask0 m ++ x)) (SHORT_MESSAGE_HEADER isServer))) by lia.
  assert (nth 0 (wireHead isServer mask0 m ++ x) 0 + 256 * nth 1 (wireHead isServer mask0 m ++ x) 0 = frameOf m) as ->
    by now rewrite Eh.
  destruct (frameOf_fields m Hwf) as (_ & _ & -> & ->). cbv zeta in *.
  destruct Hwf as [_ _ Hmax _]. unfold kMaxMessageLength in Hmax. unfold headerLen in *.
  destruct (Z.of_nat (length (text m)) <? 126) eqn:E1; [now rewrite E1|].
  destruct (Z.of_nat (length (text m)) <=? 65535) eqn:E2;
    cbn [Z.ltb Z.eqb Z.compare Pos.compare Pos.compare_cont Pos.eqb]; bool_to_prop.
  - rewrite (proj2 (Nat.ltb_ge _ _)) by lia.
    assert (word16 (drop 2 (wireHead isServer mask0 m ++ x)) = Z.of_nat (length (text m))) as ->; [|done].
    rewrite Eh, Er. cbn [app drop]. rewrite drop_0, <- !app_assoc. apply word16_be16. lia.
  - rewrite (proj2 (Nat.ltb_ge _ _)) by lia.
    assert (word64 (drop 2 (wireHead isServer mask0 m ++ x)) = Z.of_nat (length (text m))) as ->; [|done].
    rewrite Eh, Er. cbn [app drop]. rewrite drop_0, <- !app_assoc. apply word64_be64. lia.
Qed.

(** The guards of [consumeMessage] on the peer's frames. *)
Lemma consumeMessage_frame inc header m src p :
  wfMessage m -> idle inc p ->
  exists oc, consumeMessage isServer header (Z.of_nat (length (text m))) src (frameOf m) p =
  (let p := mkParser READ_HEAD (spill p) 0 true (remainingBytes p) (mask p) (type m, oc) (mkIncoming None inc) in
   let payLength := Z.of_nat (length (text m)) in
   if payLength <=? Z.of_nat (length src) - Z.of_nat header then
    let raw := take (Z.to_nat payLength) (drop header src) in
    let data := if isServer then unmaskPrecise (take 4 (drop (header - 4) src)) raw else raw in
    Ret (false, drop (Z.to_nat payLength + header) src,
         endFrame true READ_HEAD (mkIncoming None (inc ++ [mkMessage (type m) data])) p)
   else
    let remaining := payLength + Z.of_nat header - Z.of_nat (length src) in
    let raw := drop header src in
    let mk := take 4 (drop (header - 4) src) in
    let data := if isServer then unmaskPrecise mk raw else raw in
    let mask' := if isServer then rotateMask (4 - (length raw mod 4)) mk else mask p in
    Ret (true, [], mkParser READ_MESSAGE [] 0 true remaining mask' (type m, oc)
                     (mkIncoming (Some (mkMessage (type m) data)) inc))).
Proof.
  intros Hwf (Hs & Ho & Hf & Hu). destruct (frameOf_fields m Hwf) as (Hfin & Hop & _ & _).
  exists (snd (opCode p)). unfold consumeMessage. rewrite Hop, Hfin, Ho, Hf.
  assert (type m =? 0 = false) as ->.
  { destruct Hwf as [Ht _ _ _]. apply Z.eqb_neq. intros E. rewrite E in Ht.
    repeat (apply elem_of_cons in Ht as [Ht|Ht]; [done|]). now apply elem_of_nil in Ht. }
  cbn [negb orb andb Z.eqb]. unfold mbind, outcome_bind.
  assert (refusePayloadLength (Z.of_nat (length (text m))) = false) as ->
    by (apply Z.ltb_ge; apply Hwf).
  unfold pushOpCode, setFin, opCodeAt. rewrite Ho. cbn [Z.add Z.eqb state spill opStack lastFin remainingBytes mask opCode user fst].
  rewrite Hs, Hu. cbv zeta.
  destruct (Z.of_nat (length (text m)) <=? Z.of_nat (length src) - Z.of_nat header) eqn:E; bool_to_prop.
  - done.
  - unfold handleFragment. cbn [_curMessage _incoming type text app andb].
    rewrite (proj2 (Z.eqb_neq (Z.of_nat (length (text m)) + Z.of_nat header - Z.of_nat (length src)) 0)) by lia. done.
Qed.

(** The mask is the last four bytes of a masked header. *)
Lemma wireHead_mask mask0 m x :
  wfMask mask0 -> isServer = true ->
  take 4 (drop (headerLen isServer (Z.of_nat (length (text m))) - 4) (wireHead isServer mask0 m ++ x)) = mask0.
Proof.
  intros Hm HS. pose proof (wireHead_length isServer mask0 m Hm) as HL.
  destruct (wireHead_eq mask0 m) as (r & Eh & _). destruct Hm as [Hm _].
  rewrite <- HL, Eh, HS. cbn [length app]. rewrite length_app, Hm.
  replace (S (S (length r + 4)) - 4)%nat with (S (S (length r))) by lia. cbn [drop].
  rewrite <- app_assoc, drop_app_length. rewrite <- Hm. apply take_app_length.
Qed.

(** What [consumeMessage] makes of the payload bytes [raw] at hand. *)
Lemma unmask_head mask0 m x raw :
  wfMask mask0 ->
  (if isServer
   then unmaskPrecise (take 4 (drop (headerLen isServer (Z.of_nat (length (text m))) - 4) (wireHead isServer mask0 m ++ x))) raw
   else raw) = coded mask0 0 raw.
Proof.
  intros Hm. unfold coded. pose proof (wireHead_mask mask0 m x Hm) as HM.
  destruct isServer; [|done]. rewrite HM by done. apply unmaskPrecise_ref.
Qed.

Lemma parseNext_full f inc mask0 m x p :
  wfMask mask0 -> wfMessage m -> idle inc p ->
  exists p', idle (inc ++ [m]) p' /\ parseNext isServer (S f) (wire isServer mask0 m ++ x) p = parseNext isServer f x p'.
Proof.
  intros Hm Hwf Hi. pose proof (wireHead_length isServer mask0 m Hm) as HL.
  unfold wire. rewrite <- app_assoc, parseNext_frame by done.
  destruct (consumeMessage_frame inc (headerLen isServer (Z.of_nat (length (text m)))) m
    (wireHead isServer mask0 m ++ wirePayload isServer mask0 m ++ x) p Hwf Hi) as (oc & ->). cbv zeta.
  rewrite (proj2 (Z.leb_le _ _)) by (rewrite !length_app, wirePayload_length; lia).
  unfold mbind, outcome_bind. cbn [fst snd]. rewrite unmask_head by done.
  rewrite Nat2Z.id, Nat.add_comm, <- drop_drop, !(drop_app_length' (wireHead _ _ _)) by done.
  rewrite (take_app_length' (wirePayload _ _ _)), drop_app_length' by now rewrite wirePayload_length.
  rewrite wirePayload_coded, coded_coded. eexists. split; [|reflexivity]. now destruct m.
Qed.

Lemma parseNext_partial f inc mask0 m k p :
  wfMask mask0 -> wfMessage m -> idle inc p -> (k < length (text m))%nat ->
  exists p', midway inc mask0 m k p'
    /\ parseNext isServer (S f) (wireHead isServer mask0 m ++ take k (wirePayload isServer mask0 m)) p = Ret p'.
Proof.
  intros Hm Hwf Hi Hk. pose proof (wireHead_length isServer mask0 m Hm) as HL.
  assert (length (take k (wirePayload isServer mask0 m)) = k) as Hlen
    by (rewrite length_take, wirePayload_length; lia).
  rewrite parseNext_frame by done.
  destruct (consumeMessage_frame inc (headerLen isServer (Z.of_nat (length (text m)))) m
    (wireHead isServer mask0 m ++ take k (wirePayload isServer mask0 m)) p Hwf Hi) as (oc & ->). cbv zeta.
  rewrite (proj2 (Z.leb_gt _ _)) by (rewrite !length_app; lia).
  unfold mbind, outcome_bind. cbn [fst snd]. rewrite unmask_head by done.
  rewrite (drop_app_length' (wireHead _ _ _)) by done. rewrite Hlen, length_app, HL, Hlen.
  rewrite wirePayload_coded, coded_take, coded_coded by lia. eexists. split; [|reflexivity].
  unfold midway. cbn [state spill opStack lastFin remainingBytes opCode user mask fst].
  split_and!; try done; [lia|]. intros HS. rewrite wireHead_mask by done. rewrite HS.
  split; [apply rotateMask_length|]. intros l. apply rotateMask_ref, Hm.
Qed.

(** The parser with [rest] still to come of the frames [all]. *)
Inductive Receiving (all : list frame_t) (p : Parser) (rest : bytes) : Prop :=
  | AtHeader done todo :
      all = done ++ todo -> idle (map snd done) p -> spill p ++ rest = wires todo ->
      (spill p = [] \/ exists f fs h, todo = f :: fs /\ h <> [] /\ wireHead isServer f.1 f.2 = spill p ++ h) ->
      Receiving all p rest
  | InPayload done mask0 m todo k :
      all = done ++ (mask0, m) :: todo -> midway (map snd done) mask0 m k p ->
      rest = drop k (wirePayload isServer mask0 m) ++ wires todo ->
      Receiving all p rest.

Lemma wires_cons f fs : wires (f :: fs) = wire isServer f.1 f.2 ++ wires fs.
Proof. done. Qed.

Lemma wire_length f : wfFrame f ->
  (2 <= length (wire isServer f.1 f.2))%nat.
Proof.
  intros [Hm _]. unfold wire. rewrite length_app, wireHead_length by done.
  pose proof (header_bounds (Z.of_nat (length (text f.2)))). destruct isServer; cbn in *; lia.
Qed.

Lemma idle_setSpill inc s p : idle inc p -> idle inc (setSpill s p).
Proof. done. Qed.

(** Where the input can end. *)
Lemma wire_prefix mask0 m w src rest :
  src ++ rest = wire isServer mask0 m ++ w ->
  (exists x, src = wire isServer mask0 m ++ x /\ x ++ rest = w)
  \/ (exists h, h <> [] /\ wireHead isServer mask0 m = src ++ h /\ rest = h ++ wirePayload isServer mask0 m ++ w)
  \/ (exists k, (k < length (text m))%nat /\ src = wireHead isServer mask0 m ++ take k (wirePayload isServer mask0 m)
        /\ rest = drop k (wirePayload isServer mask0 m) ++ w).
Proof.
  intros E. apply app_eq_inv in E as [(x & -> & ->)|(x & E1 & ->)]; [left; now exists x|].
  destruct (decide (x = [])) as [->|Hx].
  { left. exists []. rewrite app_nil_r in *. now split. }
  right. unfold wire in E1. symmetry in E1. apply app_eq_inv in E1 as [(y & -> & E2)|(y & E1 & E2)].
  - right. exists (length y). rewrite E2, take_app_length, drop_app_length. split_and!; [|done|done].
    rewrite <- (wirePayload_length isServer mask0 m), E2, length_app. destruct x; [done|cbn; lia].
  - destruct (decide (y = [])) as [->|Hy].
    + right. exists 0%nat. rewrite app_nil_r in E1. cbn [app] in E2. subst x.
      rewrite take_0, drop_0, app_nil_r. split_and!; [|done|done].
      rewrite <- (wirePayload_length isServer mask0 m). destruct (wirePayload _ _ _); [done|cbn; lia].
    + left. exists y. subst x. now rewrite <- app_assoc.
Qed.

(** [parseNext] on any prefix of the frames to come. *)
Lemma parseNext_stream todo done p fuel src rest :
  Forall wfFrame todo -> idle (map snd done) p -> (length src < fuel)%nat ->
  src ++ rest = wires todo ->
  exists p', parseNext isServer fuel src p = Ret p' /\ Receiving (done ++ todo) p' rest.
Proof.
  revert done p fuel src. induction todo as [|[mask0 m] todo IH]; intros done p fuel src Hwf Hi Hfuel E.
  - apply app_eq_nil in E as [-> ->]. destruct fuel as [|f]; [cbn in Hfuel; lia|].
    exists (setSpill [] p). split; [cbn [parseNext]; now destruct isServer|].
    eapply AtHeader; [reflexivity|exact Hi|done|now left].
  - destruct fuel as [|f]; [lia|]. apply Forall_cons in Hwf as [Hwf Hwf']. pose proof (wire_length _ Hwf) as Hw2.
    destruct Hwf as [Hm Hmsg]. cbn [fst snd] in *.
    destruct (wire_prefix mask0 m (wires todo) src rest E) as [(x & -> & Ex)|[(h & Hh & EH & Er)|(k & Hk & -> & ->)]].
    + destruct (parseNext_full f (map snd done) mask0 m x p) as (p' & Hi' & ->); [done..|].
      replace (done ++ (mask0, m) :: todo) with ((done ++ [(mask0, m)]) ++ todo) by now rewrite <- app_assoc.
      apply IH; [done|now rewrite map_app| |done]. rewrite length_app in Hfuel. lia.
    + exists (setSpill src p). split; [now apply (parseNext_header f mask0 m src h)|].
      eapply AtHeader; [reflexivity|exact Hi|exact E|]. right. now exists (mask0, m), todo, h.
    + destruct (parseNext_partial f (map snd done) mask0 m k p) as (p' & Hmid & ->); [done..|].
      exists p'. split; [done|]. now apply (InPayload _ _ _ done mask0 m todo k).
Qed.

(** The next [raw] bytes of a payload, whole words and the rest alike. *)
Lemma continuation_unmask inc mask0 m k p raw :
  midway inc mask0 m k p ->
  (if isServer then unmaskInplace (mask p) raw else raw) = coded mask0 k raw
  /\ (if isServer then unmaskInplace (mask p) (take (length raw / 4 * 4) raw)
                       ++ maskTail (mask p) 0 (drop (length raw / 4 * 4) raw) else raw) = coded mask0 k raw.
Proof.
  intros (_ & _ & _ & _ & _ & _ & _ & _ & HM). unfold coded, unmaskInplace. destruct isServer; [|done].
  destruct (HM eq_refl) as [_ HM']. rewrite !unmaskPrecise_ref. split; [apply HM'|].
  set (n := (length raw / 4 * 4)%nat). rewrite <- HM'. rewrite <- (take_drop n raw) at 3.
  rewrite maskTail_app, length_take, Nat.add_0_l. f_equal. rewrite (maskTail_mod _ (n `min` _)).
  assert (n <= length raw)%nat by (unfold n; pose proof (Nat.Div0.mul_div_le (length raw) 4); lia).
  rewrite Nat.min_l by done. unfold n. now rewrite Nat.Div0.mod_mul.
Qed.

Lemma opCodeAt_midway inc mask0 m k p : midway inc mask0 m k p -> opCodeAt p = type m.
Proof. intros (_ & _ & Ho & _ & _ & _ & Hc & _). unfold opCodeAt. now rewrite Ho. Qed.

(** The end of the payload. *)
Lemma continuation_end inc mask0 m k p x :
  midway inc mask0 m k p ->
  exists p', consumeContinuation isServer (drop k (wirePayload isServer mask0 m) ++ x) p = (true, x, p')
    /\ idle (inc ++ [m]) p' /\ spill p' = [].
Proof.
  intros Hmid. pose proof (opCodeAt_midway _ _ _ _ _ Hmid) as Hop.
  pose proof (continuation_unmask _ _ _ _ _ (coded mask0 k (drop k (text m))) Hmid) as [_ Hun].
  destruct Hmid as (Hs & Hsp & Ho & Hf & Hk & Hr & _ & Hu & _).
  rewrite wirePayload_coded, coded_drop, Nat.add_0_l by lia.
  assert (length (coded mask0 k (drop k (text m))) = length (text m) - k)%nat as HL
    by now rewrite coded_length, length_drop.
  unfold consumeContinuation. rewrite Hop, Hu, Hr, Hf.
  rewrite (proj2 (Z.leb_le _ _)) by (rewrite length_app; lia).
  rewrite Nat2Z.id, <- HL, take_app_length, drop_app_length, Hun, coded_coded.
  eexists. split_and!; [reflexivity| |done].
  unfold idle, endFrame, handleFragment. cbn [state opStack lastFin user _curMessage _incoming type text andb Z.eqb].
  rewrite Ho, Hf, take_drop. now destruct m.
Qed.

(** A part of it. *)
Lemma continuation_part inc mask0 m k j p :
  midway inc mask0 m k p -> (j < length (text m) - k)%nat ->
  exists y p', consumeContinuation isServer (take j (drop k (wirePayload isServer mask0 m))) p = (false, y, p')
    /\ midway inc mask0 m (k + j) p'.
Proof.
  intros Hmid Hj. pose proof (opCodeAt_midway _ _ _ _ _ Hmid) as Hop.
  pose proof (continuation_unmask _ _ _ _ _ (coded mask0 k (take j (drop k (text m)))) Hmid) as [Hun _].
  destruct Hmid as (Hs & Hsp & Ho & Hf & Hk & Hr & Hc & Hu & HM).
  rewrite wirePayload_coded, coded_drop, Nat.add_0_l, coded_take by (rewrite ?length_drop; lia).
  assert (length (coded mask0 k (take j (drop k (text m)))) = j) as HL
    by (rewrite coded_length, length_take, length_drop; lia).
  unfold consumeContinuation. rewrite Hop, Hu, Hr, Hf, HL.
  rewrite (proj2 (Z.leb_gt _ _)) by lia. rewrite Hun, coded_coded.
  eexists _, _. split; [reflexivity|].
  unfold midway, handleFragment. cbn [state spill opStack lastFin remainingBytes opCode user mask _curMessage _incoming type text].
  rewrite (proj2 (Z.eqb_neq _ 0)) by lia. rewrite andb_false_r.
  split_and!; try done; [lia|lia| |].
  - now rewrite take_take_drop.
  - intros HS. destruct (HM HS) as [HM1 HM2]. rewrite HS. cbn [andb].
    assert (forall l, maskTail (mask p) j l = maskTail mask0 (k + j) l) as Hj2.
    { intros l. specialize (HM2 (replicate j 0 ++ l)). rewrite !maskTail_app, length_replicate in HM2.
      apply app_inj_1 in HM2 as [_ HM2]; [exact HM2|now rewrite !maskTail_length]. }
    destruct (j mod 4 =? 0)%nat eqn:E; bool_to_prop; cbn [negb].
    + split; [done|]. intros l. rewrite <- Hj2, (maskTail_mod _ j), E. done.
    + split; [apply rotateMask_length|]. intros l. rewrite rotateMask_ref by done. apply Hj2.
Qed.

(** [_consume] when nothing is spilled. *)
Lemma consume1_receiving all p src rest :
  Forall wfFrame all -> Receiving all p (src ++ rest) -> spill p = [] ->
  exists p', consume1 isServer src p = Ret p' /\ Receiving all p' rest.
Proof.
  intros Hwf HR Hsp. unfold consume1. rewrite Hsp. cbn [app].
  destruct HR as [done todo -> Hi E _|done mask0 m todo k -> Hmid E].
  - apply Forall_app in Hwf as [_ Hwf]. rewrite Hsp in E. rewrite (proj1 Hi).
    apply parseNext_stream; [done|done|lia|exact E].
  - rewrite (proj1 Hmid). apply Forall_app in Hwf as [_ [_ Hwf]%Forall_cons].
    apply app_eq_inv in E as [(x & -> & Ex)|(x & Ex & ->)].
    + destruct (continuation_end _ _ _ _ _ x Hmid) as (p' & -> & Hi & Hsp').
      replace (done ++ (mask0, m) :: todo) with ((done ++ [(mask0, m)]) ++ todo) by now rewrite <- app_assoc.
      apply parseNext_stream; [done|now rewrite map_app|lia|done].
    + destruct (decide (x = [])) as [->|Hx].
      * rewrite app_nil_r in Ex. destruct (continuation_end _ _ _ _ _ [] Hmid) as (p' & Ec & Hi & Hsp').
        rewrite app_nil_r, Ex in Ec. rewrite Ec.
        replace (done ++ (mask0, m) :: todo) with ((done ++ [(mask0, m)]) ++ todo) by now rewrite <- app_assoc.
        apply parseNext_stream; [done|now rewrite map_app|cbn; lia|done].
      * assert (length src < length (text m) - k)%nat as Hlt.
        { apply (f_equal length) in Ex. rewrite length_drop, wirePayload_length, length_app in Ex.
          destruct x; [done|cbn in Ex; lia]. }
        destruct (continuation_part _ _ _ _ _ _ Hmid Hlt) as (y & p' & Ec & Hmid').
        rewrite Ex, take_app_length in Ec. rewrite Ec. exists p'. split; [done|].
        apply (InPayload _ _ _ done mask0 m todo (k + length src)); [done|done|].
        now rewrite <- drop_drop, Ex, drop_app_length.
Qed.

(** Spilled bytes leave room for at least one more in the buffer. *)
Lemma receiving_spill all p rest :
  Forall wfFrame all -> Receiving all p rest -> (length (spill p) < LONG_MESSAGE_HEADER isServer)%nat
    /\ Receiving all (setSpill [] p) (spill p ++ rest).
Proof.
  intros Hwf [done todo -> Hi E Hsp|done mask0 m todo k -> Hmid E].
  - split.
    + destruct Hsp as [-> |(f & fs & h & -> & Hh & EH)]; [destruct isServer; cbn; lia|].
      apply Forall_app in Hwf as [_ [[Hm _] _]%Forall_cons].
      apply (f_equal length) in EH. rewrite wireHead_length, length_app in EH by done.
      pose proof (header_bounds (Z.of_nat (length (text f.2)))). destruct h; [done|cbn in EH; lia].
    + eapply AtHeader; [reflexivity|exact Hi|exact E|now left].
  - pose proof Hmid as (_ & Hs & _). rewrite Hs. split; [destruct isServer; cbn; lia|].
    apply (InPayload _ _ _ done mask0 m todo k); [done| |exact E].
    destruct Hmid as (H1 & _ & H3). unfold midway. split; [exact H1|]. split; [done|exact H3].
Qed.

Lemma consumeLoop_receiving fuel all p src rest :
  Forall wfFrame all -> Receiving all p (src ++ rest) -> (length src < fuel)%nat ->
  exists p', consumeLoop isServer fuel src p = Ret p' /\ Receiving all p' rest.
Proof.
  intros Hwf. revert p src. induction fuel as [|f IH]; intros p src HR Hfuel; [lia|].
  cbn [consumeLoop]. destruct (receiving_spill _ _ _ Hwf HR) as [Hlen HR0].
  destruct (spill p) as [|b s] eqn:Es; [now apply consume1_receiving|].
  set (n := (Nat.min (length (b :: s) + length src) (LONG_MESSAGE_HEADER isServer) - length (b :: s))%nat).
  assert (n <= length src /\ (src <> [] -> 0 < n))%nat as [Hn1 Hn2].
  { unfold n. split; [lia|]. destruct src; [done|cbn [length] in *; lia]. }
  destruct (consume1_receiving all (setSpill [] p) ((b :: s) ++ take n src) (drop n src ++ rest)) as (p' & Ep & HR');
    [done| |done|].
  { rewrite <- app_assoc, (app_assoc (take n src)), take_drop. exact HR0. }
  unfold mbind, outcome_bind. rewrite Ep. destruct (drop n src) as [|c r] eqn:Ed.
  - exists p'. now split.
  - apply IH; [exact HR'|]. rewrite <- Ed, length_drop. destruct src; [now rewrite drop_nil in Ed|].
    specialize (Hn2 ltac:(done)). lia.
Qed.
End receive.

(** A sequence of reads from the socket. *)
Fixpoint consumeAll (isServer : bool) (chunks : list bytes) (p : Parser) : outcome Parser :=
  match chunks with
  | [] => Ret p
  | c :: r => p' ← consume isServer c p; consumeAll isServer r p'
  end.

Lemma consumeAll_receiving isServer all chunks p rest :
  Forall wfFrame all -> Receiving isServer all p (concat chunks ++ rest) ->
  exists p', consumeAll isServer chunks p = Ret p' /\ Receiving isServer all p' rest.
Proof.
  intros Hwf. revert p. induction chunks as [|c r IH]; intros p HR; [now exists p|].
  cbn [concat] in HR. rewrite <- app_assoc in HR. cbn [consumeAll].
  destruct (consumeLoop_receiving isServer (S (length c)) all p c (concat r ++ rest)) as (p' & Ep & HR'); [done|done|lia|].
  unfold mbind, outcome_bind, consume. rewrite Ep. now apply IH.
Qed.

Lemma receiving_end isServer all p :
  Forall wfFrame all -> Receiving isServer all p [] -> user p = mkIncoming None (map snd all) /\ spill p = [].
Proof.
  intros Hwf [done todo -> Hi E Hsp|done mask0 m todo k -> Hmid E].
  - rewrite app_nil_r in E. destruct Hsp as [Es|(f & fs & h & -> & Hh & EH)].
    + rewrite Es in E. destruct todo as [|f fs].
      * rewrite app_nil_r. destruct Hi as (_ & _ & _ & ->). now split.
      * apply Forall_app in Hwf as [_ [Hf _]%Forall_cons]. pose proof (wire_length isServer f Hf) as Hw.
        rewrite wires_cons in E. apply (f_equal length) in E. rewrite length_app in E. cbn in E. lia.
    + rewrite wires_cons in E. unfold wire in E. rewrite EH in E. apply (f_equal length) in E.
      rewrite !length_app in E. destruct h; [done|cbn in E; lia].
  - destruct Hmid as (_ & _ & _ & _ & Hk & _). apply (f_equal length) in E.
    rewrite length_app, length_drop, wirePayload_length in E. cbn in E. lia.
Qed.

(** C21: whatever messages a peer formats (any opcode the protocol has, with any mask
    and buffer address), and however the network cuts the bytes into reads, the
    receiving parser queues exactly those messages, in order, with nothing left over. *)
Theorem websocket_framing_roundtrip isServer (fs : list (nat * (bytes * Message))) (chunks : list bytes) :
  Forall (fun f => wfFrame f.2) fs ->
  concat chunks = concat (map (fun f =>
    formatMessage (negb isServer) f.2.1 f.1 (text f.2.2) (type f.2.2) false) fs) ->
  exists p, consumeAll isServer chunks newParser = Ret p
    /\ user p = mkIncoming None (map (fun f => f.2.2) fs) /\ spill p = [].
Proof.
  intros Hwf E. set (all := map snd fs).
  assert (Forall wfFrame all) as Hall by now apply Forall_map.
  assert (concat chunks = wires isServer all) as E'.
  { rewrite E. unfold wires, all. rewrite map_map. f_equal. apply map_ext_Forall.
    eapply Forall_impl; [exact Hwf|]. intros f [[Hm _] _]. now apply formatMessage_wire. }
  destruct (consumeAll_receiving isServer all chunks newParser []) as (p & Ep & HR); [done| |].
  - apply (AtHeader _ _ _ _ [] all); [done|done|now rewrite app_nil_r, E'|now left].
  - exists p. split; [done|]. apply receiving_end in HR as [-> ->]; [|done]. unfold all. now rewrite map_map.
Qed.

Definition helloFrames : list (nat * (bytes * Message)) :=
  [(3%nat, ([17; 34; 51; 68], mkMessage 1 (lit "hello"))); (0%nat, ([1; 2; 3; 4], mkMessage 9 []))].

Lemma websocket_framing_roundtrip_witness :
  exists p, consumeAll true
      (map (fun b => [b]) (concat (map (fun f => formatMessage false f.2.1 f.1 (text f.2.2) (type f.2.2) false) helloFrames)))
      newParser = Ret p
    /\ user p = mkIncoming None [mkMessage 1 (lit "hello"); mkMessage 9 []] /\ spill p = [].
Proof.
  apply (websocket_framing_roundtrip true helloFrames); [|now vm_compute].
  repeat constructor; try (vm_compute; congruence); try (vm_compute; intuition congruence).
Defined.

(** * UTF-8 validation against the encoding itself *)

(** Unicode scalar values, and RFC 3629's encoding of one. *)
Definition isScalar (cp : Z) : bool :=
  ((0 <=? cp) && (cp <? 0xD800)) || ((0xE000 <=? cp) && (cp <=? 0x10FFFF)).

Definition utf8Encode (cp : Z) : bytes :=
  if cp <? 0x80 then [cp]
  else if cp <? 0x800 then [0xC0 + cp / 64; 0x80 + cp mod 64]
  else if cp <? 0x10000 then [0xE0 + cp / 4096; 0x80 + cp / 64 mod 64; 0x80 + cp mod 64]
  else [0xF0 + cp / 262144; 0x80 + cp / 4096 mod 64; 0x80 + cp / 64 mod 64; 0x80 + cp mod 64].

Lemma byte_forallb (P : Z -> bool) :
  forallb (fun n => P (Z.of_nat n)) (seq 0 256) = true -> forall a, is_byte a -> P a = true.
Proof.
  intros H a [Ha1 Ha2]. rewrite forallb_forall in H. specialize (H (Z.to_nat a)). rewrite Z2Nat.id in H by done.
  apply H, in_seq. lia.
Qed.

Definition between (lo hi a : Z) : bool := (lo <=? a) && (a <? hi).

(** The masks of the validator, as ranges. *)
Lemma utf8_masks a : is_byte a ->
  (Z.land a 0x80 =? 0) = between 0 0x80 a /\ (Z.land a 0xc0 =? 0x80) = between 0x80 0xc0 a
  /\ (Z.land a 0xfe =? 0xc0) = between 0xc0 0xc2 a /\ (Z.land a 0xf0 =? 0xe0) = between 0xe0 0xf0 a
  /\ (Z.land a 0xf8 =? 0xf0) = between 0xf0 0xf8 a /\ (Z.land a 0xe0 =? 0x80) = between 0x80 0xa0 a
  /\ (Z.land a 0xe0 =? 0xa0) = between 0xa0 0xc0 a /\ (Z.land a 0xf0 =? 0x80) = between 0x80 0x90 a
  /\ (0x80 <= a -> (Z.land a 0x60 =? 0x40) = between 0xc0 0xe0 a).
Proof.
  intros Ha.
  assert (Bool.eqb (Z.land a 0x80 =? 0) (between 0 0x80 a) && Bool.eqb (Z.land a 0xc0 =? 0x80) (between 0x80 0xc0 a)
    && Bool.eqb (Z.land a 0xfe =? 0xc0) (between 0xc0 0xc2 a) && Bool.eqb (Z.land a 0xf0 =? 0xe0) (between 0xe0 0xf0 a)
    && Bool.eqb (Z.land a 0xf8 =? 0xf0) (between 0xf0 0xf8 a) && Bool.eqb (Z.land a 0xe0 =? 0x80) (between 0x80 0xa0 a)
    && Bool.eqb (Z.land a 0xe0 =? 0xa0) (between 0xa0 0xc0 a) && Bool.eqb (Z.land a 0xf0 =? 0x80) (between 0x80 0x90 a)
    && ((a <? 0x80) || Bool.eqb (Z.land a 0x60 =? 0x40) (between 0xc0 0xe0 a)) = true) as H.
  { revert a Ha. now apply byte_forallb. }
  rewrite !andb_true_iff, !Bool.eqb_true_iff, orb_true_iff in H.
  destruct H as [[[[[[[[H1 H2] H3] H4] H5] H6] H7] H8] H9]. split_and!; try done.
  intros Hge. destruct H9 as [H9|H9]; [apply Z.ltb_lt in H9; lia|now apply Bool.eqb_prop].
Qed.

Definition tail (b : Z) : bool := between 0x80 0xc0 b.

(** One step of the validator, by ranges. *)
Definition utf8Step (s : bytes) : option bytes :=
  match s with
  | [] => None
  | a :: r =>
      if a <? 0x80 then Some r
      else if between 0xc0 0xe0 a then
        match r with b :: r' => if tail b && (0xc2 <=? a) then Some r' else None | _ => None end
      else if between 0xe0 0xf0 a then
        match r with
        | b :: c :: r' => if tail b && tail c && negb ((a =? 0xe0) && (b <? 0xa0)) && negb ((a =? 0xed) && (0xa0 <=? b))
                          then Some r' else None
        | _ => None end
      else if between 0xf0 0xf8 a then
        match r with
        | b :: c :: d :: r' =>
            if tail b && tail c && tail d && negb ((a =? 0xf0) && (b <? 0x90)) && negb ((a =? 0xf4) && (0x8f <? b)) && (a <=? 0xf4)
            then Some r' else None
        | _ => None end
      else None
  end.

Ltac bdec := repeat match goal with
  | |- context [?x <? ?y] => destruct (Z.ltb_spec x y); cbn [andb orb negb]; try lia
  | |- context [?x <=? ?y] => destruct (Z.leb_spec x y); cbn [andb orb negb]; try lia
  | |- context [?x =? ?y] => destruct (Z.eqb_spec x y); cbn [andb orb negb]; try lia
  end; try done.

Lemma isValidUtf8_step s : Forall is_byte s ->
  isValidUtf8 s = match s with [] => true | _ => match utf8Step s with Some r => isValidUtf8 r | None => false end end.
Proof.
  intros Hs. destruct s as [|a r]; [done|]. apply Forall_cons in Hs as [Ha Hr]. cbn [isValidUtf8 utf8Step].
  destruct (utf8_masks a Ha) as (-> & _ & -> & -> & -> & _ & _ & _ & Hc0).
  assert (between 0 128 a = (a <? 128)) as -> by (unfold between, is_byte in *; destruct Ha; now rewrite (proj2 (Z.leb_le 0 a))).
  destruct (Z.ltb_spec a 128) as [|Hge]; [done|]. rewrite Hc0 by done.
  destruct (between 0xc0 0xe0 a) eqn:E1.
  { destruct r as [|b r]; [done|]. apply Forall_cons in Hr as [Hb _]. destruct (utf8_masks b Hb) as (_ & -> & _).
    unfold between in *. bool_to_prop. unfold tail, between. bdec. }
  destruct (between 0xe0 0xf0 a) eqn:E2.
  { destruct r as [|b [|c r]]; [done..|]. apply Forall_cons in Hr as [Hb Hr]. apply Forall_cons in Hr as [Hc _].
    destruct (utf8_masks b Hb) as (_ & -> & _ & _ & _ & -> & -> & _). destruct (utf8_masks c Hc) as (_ & -> & _).
    unfold tail. destruct (between 128 192 b) eqn:Eb; [|done]. destruct (between 128 192 c) eqn:Ec; [|done].
    unfold between in *. bool_to_prop. cbn [negb orb andb]. bdec. }
  destruct (between 0xf0 0xf8 a) eqn:E3; [|done].
  destruct r as [|b [|c [|d r]]]; [done..|]. apply Forall_cons in Hr as [Hb Hr]. apply Forall_cons in Hr as [Hc Hr].
  apply Forall_cons in Hr as [Hd _].
  destruct (utf8_masks b Hb) as (_ & -> & _ & _ & _ & _ & _ & -> & _). destruct (utf8_masks c Hc) as (_ & -> & _).
  destruct (utf8_masks d Hd) as (_ & -> & _). unfold tail.
  destruct (between 128 192 b) eqn:Eb; [|done]. destruct (between 128 192 c) eqn:Ec; [|done].
  destruct (between 128 192 d) eqn:Ed; [|done]. unfold between in *. bool_to_prop. cbn [negb orb andb]. bdec.
Qed.

Ltac divs cp := pose proof (Z.div_mod cp 64 ltac:(lia)); pose proof (Z.mod_pos_bound cp 64 ltac:(lia));
  pose proof (Z.div_mod (cp / 64) 64 ltac:(lia)); pose proof (Z.mod_pos_bound (cp / 64) 64 ltac:(lia));
  pose proof (Z.div_mod (cp / 4096) 64 ltac:(lia)); pose proof (Z.mod_pos_bound (cp / 4096) 64 ltac:(lia)).

Lemma utf8Step_encode cp r : isScalar cp = true -> utf8Step (utf8Encode cp ++ r) = Some r.
Proof.
  unfold isScalar. rewrite orb_true_iff, !andb_true_iff, !Z.leb_le, !Z.ltb_lt. intros Hcp.
  assert (cp / 64 / 64 = cp / 4096) as E1 by (rewrite Z.div_div by lia; done).
  assert (cp / 4096 / 64 = cp / 262144) as E2 by (rewrite Z.div_div by lia; done).
  divs cp. rewrite E1, E2 in *. clear E1 E2.
  revert Hcp H H0 H1 H2 H3 H4. unfold utf8Encode, utf8Step, tail, between.
  generalize (cp mod 64) (cp / 64 mod 64) (cp / 4096 mod 64) (cp / 64) (cp / 4096) (cp / 262144).
  intros m0 m1 m2 q1 q2 q3 Hcp ??????.
  destruct (Z.ltb_spec cp 128); [cbn [app]; bdec|].
  destruct (Z.ltb_spec cp 2048); [cbn [app]; bdec|].
  destruct (Z.ltb_spec cp 65536); cbn [app]; bdec.
Qed.

Lemma utf8Encode2 a b r : 194 <= a < 224 -> 128 <= b < 192 ->
  exists cp, isScalar cp = true /\ a :: b :: r = utf8Encode cp ++ r.
Proof.
  intros Ha Hb. exists (64 * (a - 192) + (b - 128)). unfold isScalar, utf8Encode. split; [bdec|].
  rewrite (proj2 (Z.ltb_ge _ 128)), (proj2 (Z.ltb_lt _ 2048)) by lia. cbn [app]. repeat f_equal; Z.to_euclidean_division_equations; lia.
Qed.

Lemma utf8Encode3 a b c r : 224 <= a < 240 -> 128 <= b < 192 -> 128 <= c < 192 ->
  (a = 224 -> 160 <= b) -> (a = 237 -> b < 160) ->
  exists cp, isScalar cp = true /\ a :: b :: c :: r = utf8Encode cp ++ r.
Proof.
  intros Ha Hb Hc H1 H2. exists (4096 * (a - 224) + 64 * (b - 128) + (c - 128)). unfold isScalar, utf8Encode.
  split; [bdec|]. rewrite (proj2 (Z.ltb_ge _ 128)), (proj2 (Z.ltb_ge _ 2048)), (proj2 (Z.ltb_lt _ 65536)) by lia.
  cbn [app]. repeat f_equal; Z.to_euclidean_division_equations; lia.
Qed.

Lemma utf8Encode4 a b c d r : 240 <= a <= 244 -> 128 <= b < 192 -> 128 <= c < 192 -> 128 <= d < 192 ->
  (a = 240 -> 144 <= b) -> (a = 244 -> b < 144) ->
  exists cp, isScalar cp = true /\ a :: b :: c :: d :: r = utf8Encode cp ++ r.
Proof.
  intros Ha Hb Hc Hd H1 H2. exists (262144 * (a - 240) + 4096 * (b - 128) + 64 * (c - 128) + (d - 128)).
  unfold isScalar, utf8Encode. split; [bdec|].
  rewrite (proj2 (Z.ltb_ge _ 128)), (proj2 (Z.ltb_ge _ 2048)), (proj2 (Z.ltb_ge _ 65536)) by lia.
  cbn [app]. repeat f_equal; Z.to_euclidean_division_equations; lia.
Qed.

Lemma between_iff lo hi a : between lo hi a = true <-> lo <= a < hi.
Proof. unfold between. now rewrite andb_true_iff, Z.leb_le, Z.ltb_lt. Qed.

Lemma utf8Step_decode s r :
  Forall is_byte s -> utf8Step s = Some r -> exists cp, isScalar cp = true /\ s = utf8Encode cp ++ r.
Proof.
  intros Hs H. destruct s as [|a s]; [done|]. apply Forall_cons in Hs as [Ha _]. unfold is_byte in Ha.
  cbn [utf8Step] in H. unfold tail in H. destruct (Z.ltb_spec a 128).
  { injection H as ->. exists a. unfold isScalar, utf8Encode. split; [bdec|]. now rewrite (proj2 (Z.ltb_lt a 128)). }
  destruct (between 192 224 a) eqn:E1; [|destruct (between 224 240 a) eqn:E2; [|destruct (between 240 248 a) eqn:E3; [|done]]].
  - destruct s as [|b s]; [done|]. destruct (_ && _) eqn:E in H; [|done]. injection H as ->.
    rewrite !andb_true_iff, !between_iff, Z.leb_le in *. apply utf8Encode2; lia.
  - destruct s as [|b [|c s]]; [done..|]. destruct (_ && _) eqn:E in H; [|done]. injection H as ->.
    rewrite !andb_true_iff, !negb_true_iff, !andb_false_iff, !between_iff, !Z.eqb_neq, Z.ltb_ge, Z.leb_gt in *.
    apply utf8Encode3; lia.
  - destruct s as [|b [|c [|d s]]]; [done..|]. destruct (_ && _) eqn:E in H; [|done]. injection H as ->.
    rewrite !andb_true_iff, !negb_true_iff, !andb_false_iff, !between_iff, !Z.eqb_neq, !Z.ltb_ge, Z.leb_le in *.
    apply utf8Encode4; lia.
Qed.

Lemma utf8Encode_byte cp : isScalar cp = true -> Forall is_byte (utf8Encode cp).
Proof.
  unfold isScalar. rewrite orb_true_iff, !andb_true_iff, !Z.leb_le, !Z.ltb_lt. intros Hcp. unfold utf8Encode.
  destruct (Z.ltb_spec cp 128); [|destruct (Z.ltb_spec cp 2048); [|destruct (Z.ltb_spec cp 65536)]];
    repeat constructor; Z.to_euclidean_division_equations; lia.
Qed.

Lemma utf8Encode_nonempty cp : utf8Encode cp <> [].
Proof. unfold utf8Encode. destruct (_ <? _); [done|]. destruct (_ <? _); [done|]. now destruct (_ <? _). Qed.

(** C22: [isValidUtf8] accepts exactly the byte strings that encode a sequence of
    Unicode scalar values: no overlong forms, no surrogates, nothing above U+10FFFF,
    no truncated sequence. *)
Theorem isValidUtf8_sound_complete s :
  Forall is_byte s ->
  isValidUtf8 s = true <-> exists cps, Forall (fun cp => isScalar cp = true) cps /\ s = concat (map utf8Encode cps).
Proof.
  intros Hs. split.
  - remember (length s) as n eqn:En. revert s Hs En. induction n as [n IH] using lt_wf_ind. intros s Hs En H.
    rewrite isValidUtf8_step in H by done. destruct s as [|a s]; [now exists []|].
    destruct (utf8Step (a :: s)) as [r|] eqn:E; [|done].
    destruct (utf8Step_decode _ _ Hs E) as (cp & Hcp & Es). rewrite Es in Hs, En. apply Forall_app in Hs as [_ Hr].
    assert (length r < n)%nat as Hlt.
    { rewrite En, length_app. pose proof (utf8Encode_nonempty cp). destruct (utf8Encode cp); [done|cbn; lia]. }
    destruct (IH _ Hlt r Hr eq_refl H) as (cps & Hcps & ->). exists (cp :: cps). rewrite Es. split; [now constructor|done].
  - intros (cps & Hcps & ->). clear Hs. induction Hcps as [|cp cps Hcp Hcps IH]; [done|].
    assert (Forall is_byte (concat (map utf8Encode cps))) as Hb.
    { apply Forall_concat, Forall_map. eapply Forall_impl; [exact Hcps|]. intros; now apply utf8Encode_byte. }
    cbn [map concat]. rewrite isValidUtf8_step by (apply Forall_app; split; [now apply utf8Encode_byte|done]).
    rewrite utf8Step_encode by done. pose proof (utf8Encode_nonempty cp). now destruct (utf8Encode cp).
Qed.

Lemma isValidUtf8_sound_complete_witness :
  Forall is_byte [0xe2; 0x82; 0xac] /\
  (isValidUtf8 [0xe2; 0x82; 0xac] = true <->
   exists cps, Forall (fun cp => isScalar cp = true) cps /\ [0xe2; 0x82; 0xac] = concat (map utf8Encode cps)).
Proof.
  assert (Forall is_byte [0xe2; 0x82; 0xac]) as H by (repeat constructor; unfold is_byte; lia).
  split; [exact H|]. exact (isValidUtf8_sound_complete _ H).
Defined.

(** * Close payloads *)

(** The close codes the parser lets through. *)
Definition allowedClose (code : Z) : bool :=
  between 1000 1004 code || between 1007 1012 code || between 4000 5000 code.

(** A close payload built by [formatClosePayload] is read back by
    [parseClosePayload] when the code may be sent and the reason is UTF-8, and as the
    empty frame in every other case. *)
Theorem closePayload_roundtrip code message :
  0 <= code < 65536 ->
  parseClosePayload (formatClosePayload code message) =
  if allowedClose code && isValidUtf8 message then mkClose code message else noClose.
Proof.
  intros Hc. unfold formatClosePayload, allowedClose, between. destruct (Z.eqb_spec code 0) as [->|Hne]; [done|].
  cbn [negb]. pose proof (word16_be16 code [] Hc) as E. unfold be16, word16 in *. cbn [app nth parseClosePayload] in *.
  rewrite E. destruct (isValidUtf8 message); rewrite ?orb_false_r, ?orb_true_r, ?andb_true_r, ?andb_false_r; cbn [negb];
    rewrite ?orb_false_r, ?orb_true_r; [|done]. bdec.
Qed.

Lemma closePayload_roundtrip_witness :
  parseClosePayload (formatClosePayload 1000 (lit "bye")) = mkClose 1000 (lit "bye").
Proof. rewrite (closePayload_roundtrip 1000 (lit "bye")); [now vm_compute|lia]. Defined.

(** * Malformed and interleaved frames *)

(** A first header that the protocol forbids: reserved bits, a reserved opcode, a
    fragmented or long control frame, or a continuation of nothing. *)
Definition malformed (b0 b1 : Z) : bool :=
  negb (Z.land b0 0x70 =? 0)
  || existsb (Z.eqb (Z.land b0 15)) [3; 4; 5; 6; 7; 11; 12; 13; 14; 15]
  || ((8 <=? Z.land b0 15) && ((b0 <? 128) || (125 <? Z.land b1 127)))
  || ((Z.land b0 15 =? 0) && (Z.land b1 127 <? 126)).

Lemma malformed_bad b0 b1 : is_byte b0 ->
  malformed b0 b1 = badFrame (b0 + 256 * b1) || ((Z.land b0 15 =? 0) && (Z.land b1 127 <? 126)).
Proof.
  intros Hb0. unfold malformed, badFrame, isFin, getOpCode, payloadLength, rsv1, rsv23, setCompressed.
  rewrite !land_low, shiftr_high by (unfold is_byte in *; lia). generalize (125 <? Z.land b1 127) as c. intros c.
  f_equal. apply Bool.eqb_prop. revert b0 Hb0. destruct c; now apply byte_forallb.
Qed.

(** C23: between messages, a malformed header closes the connection with a protocol
    error whatever follows it. *)
Theorem websocket_rejects_malformed isServer inc p b0 b1 r :
  is_byte b0 -> idle inc p -> spill p = [] -> (SHORT_MESSAGE_HEADER isServer <= S (S (length r)))%nat ->
  malformed b0 b1 = true ->
  consume isServer (b0 :: b1 :: r) p = Raise (EWebSocket 1002).
Proof.
  intros Hb0 (Hs & Ho & Hf & Hu) Hsp Hlen. rewrite malformed_bad by done. intros Hbad.
  unfold consume. cbn [length consumeLoop]. rewrite Hsp. unfold consume1. rewrite Hsp, Hs. cbn [app parseNext length].
  rewrite (proj2 (Nat.ltb_ge _ _) Hlen). cbn [nth].
  destruct (badFrame (b0 + 256 * b1)) eqn:Eb; [done|]. cbn [orb] in Hbad. bool_to_prop.
  assert (getOpCode (b0 + 256 * b1) = 0) as Hop by (unfold getOpCode; rewrite land_low by (unfold is_byte in *; lia); done).
  assert (payloadLength (b0 + 256 * b1) <? 126 = true) as ->.
  { unfold payloadLength. rewrite shiftr_high by done. now apply Z.ltb_lt. }
  unfold consumeMessage. rewrite Hop, Ho. done.
Qed.

Lemma websocket_rejects_malformed_witness :
  consume false [0xC1; 0] newParser = Raise (EWebSocket 1002).
Proof.
  apply (websocket_rejects_malformed false [] newParser 0xC1 0 []);
    [unfold is_byte; lia|done|done|cbn; lia|now vm_compute].
Defined.

(** A control frame between the fragments of a message, which the protocol allows,
    is lost and ends the message: a text "hello" sent as "he" and "llo" with a ping
    between them is received as the two texts "he" and "llo", and no ping. *)
Theorem websocket_interleaved_control :
  exists p, consume false ([0x01; 2] ++ lit "he" ++ [0x89; 0] ++ [0x80; 3] ++ lit "llo") newParser = Ret p
    /\ _incoming (user p) = [mkMessage 1 (lit "he"); mkMessage 1 (lit "llo")].
Proof. eexists. split; now vm_compute. Qed.
