(* ===== verification/WebSocket.v ===== *)
(** WebSocket connections ([src/io/WebSocket.cc], [include/crouton/io/WebSocket.hh]):
    sending messages, the generator that receives them, the close handshake.  Framing
    is in [WsProtocol]; the connection runs over any [IStream].

    The four random bytes that mask a client's [n]-th frame and the address of the
    buffer it is built in are the parameters [masks] and [addrs]. *)

From S2P Require Import Prelude IStream WsProtocol.

Local Open Scope Z_scope.

(** * Messages *)

Definition Text : Z := 1.
Definition Binary : Z := 2.
Definition Close : Z := 8.
Definition Ping : Z := 9.
Definition Pong : Z := 10.

Definition CloseCode_NoCode : Z := 1005.
Definition CloseCode_Abnormal : Z := 1006.

(** [Message(CloseCode, string_view)]. *)
Definition closeMessageOf (code : Z) (message : bytes) : outcome Message :=
  let payload := formatClosePayload code message in
  _ ← precondition (length payload <=? length message + 2)%nat;
  Ret (mkMessage Close payload).

Definition closeCode (m : Message) : outcome Z :=
  if negb (type m =? Close) then Raise (ECrouton InvalidArgument)
  else let c := ccode (parseClosePayload (text m)) in Ret (if c =? 0 then CloseCode_NoCode else c).

Definition closeMessage (m : Message) : outcome bytes :=
  if negb (type m =? Close) then Raise (ECrouton InvalidArgument)
  else Ret (cmessage (parseClosePayload (text m))).

(** * Connections *)

Section websocket.
Context {S : Type} {IS : IStream S} (isServer : bool) (masks : nat -> bytes) (addrs : nat -> nat).

Record WebSocket := mkWS {
  _stream : option S;
  parser : Parser;
  _closeSent : bool;
  _closeReceived : bool;
  nframes : nat
}.

Definition newWS (st : S) : WebSocket := mkWS (Some st) newParser false false 0.

Definition readyToClose (ws : WebSocket) : bool := _closeSent ws && _closeReceived ws.

(** The frame is built in a string of [message.size() + 10] characters; the result of
    the write is that of the future. *)
Definition send (message : bytes) (ty : Z) (ws : WebSocket) : outcome (option error * WebSocket) :=
  match _closeSent ws, _stream ws with
  | false, Some st =>
      let frame := formatMessage isServer (masks (nframes ws)) (addrs (nframes ws)) message ty false in
      if (length message + 10 <? length frame)%nat then Fault OutOfBounds
      else
        let sentClose := ty =? Close in
        match writeString frame st with
        | Ret (_, st') => Ret (None, mkWS (Some st') (parser ws) sentClose (_closeReceived ws) (Datatypes.S (nframes ws)))
        | Raise e => Ret (Some e, mkWS (Some st) (parser ws) sentClose (_closeReceived ws) (Datatypes.S (nframes ws)))
        | Fault w => Fault w
        end
  | _, _ => Ret (Some (ECrouton LogicError), ws)
  end.

(** The inner loop of [receive]: read and parse until there is a message, or EOF. *)
Fixpoint fill (fuel : nat) (st : S) (p : Parser) : outcome (bool * S * Parser) :=
  match _incoming (user p) with
  | _ :: _ => Ret (false, st, p)
  | [] =>
      match fuel with
      | O => Fault NoFuel
      | Datatypes.S f =>
          r ← readNoCopy 100000 st;
          match r.1 with
          | [] => Ret (true, r.2, p)
          | data => p' ← consume isServer data p; fill f r.2 p'
          end
      end
  end.

Definition setUser (u : Incoming) (p : Parser) : Parser :=
  mkParser (state p) (spill p) (opStack p) (lastFin p) (remainingBytes p) (mask p) (opCode p) u.

(** What one step of the generator gives: a message, the last one, or its end. *)
Inductive item := Yield (m : Message) | YieldLast (m : Message) | End.

(** [receive], from one YIELD to the next. *)
Fixpoint receiveNext (fuel : nat) (ws : WebSocket) : outcome (item * WebSocket) :=
  match fuel with
  | O => Fault NoFuel
  | Datatypes.S f =>
      match _stream ws, _closeReceived ws with
      | Some st, false =>
          r ← fill fuel st (parser ws);
          let '(eof, st, p) := r in
          let ws := mkWS (Some st) p (_closeSent ws) false (nframes ws) in
          if (eof : bool) then
            m ← closeMessageOf CloseCode_Abnormal (lit "WebSocket closed unexpectedly");
            Ret (YieldLast m, ws)
          else
            match _incoming (user p) with
            | [] => Fault OutOfBounds
            | msg :: rest =>
                let p := setUser (mkIncoming (_curMessage (user p)) rest) p in
                let ws := mkWS (Some st) p (_closeSent ws) false (nframes ws) in
                if type msg =? Close then Ret (Yield msg, mkWS (Some st) p (_closeSent ws) true (nframes ws))
                else if (type msg =? Text) || (type msg =? Binary) then Ret (Yield msg, ws)
                else if type msg =? Ping then r ← send [] Pong ws; receiveNext f r.2
                else receiveNext f ws
            end
      | _, _ => Ret (End, ws)
      end
  end.

(** The messages [receive] yields to a consumer that takes them all. *)
Fixpoint receiveAll (fuel : nat) (ws : WebSocket) : outcome (list Message * WebSocket) :=
  match fuel with
  | O => Fault NoFuel
  | Datatypes.S f =>
      r ← receiveNext fuel ws;
      match r.1 with
      | Yield m => rest ← receiveAll f r.2; Ret (m :: rest.1, rest.2)
      | YieldLast m => Ret ([m], r.2)
      | End => Ret ([], r.2)
      end
  end.

(** [close]; the stream's own [close] is its destructor here. *)
Definition close (ws : WebSocket) : WebSocket :=
  mkWS None (parser ws) (_closeSent ws) (_closeReceived ws) (nframes ws).

Definition disconnect (ws : WebSocket) : WebSocket := close ws.

Definition handleCloseMessage (msg : Message) (ws : WebSocket) : outcome (option error * WebSocket) :=
  if _closeReceived ws then Ret (None, ws)
  else
    let ws := mkWS (_stream ws) (parser ws) (_closeSent ws) true (nframes ws) in
    if _closeSent ws then Ret (None, close ws) else send (text msg) (type msg) ws.

(** Several sends; a failed one changes nothing. *)
Fixpoint sendEach (ms : list Message) (ws : WebSocket) : outcome WebSocket :=
  match ms with
  | [] => Ret ws
  | m :: r => res ← send (text m) (type m) ws; sendEach r res.2
  end.

End websocket.

Arguments WebSocket : clear implicits.

(** * Receiving what the peer sent *)

Definition isControl (m : Message) : bool := (type m =? Ping) || (type m =? Pong).

Definition abnormal : Message := mkMessage Close (formatClosePayload CloseCode_Abnormal (lit "WebSocket closed unexpectedly")).

(** What a consumer is given of the messages [ms] before the end of the stream: the
    texts and binaries, up to the first close message; the abnormal close if there is
    none. *)
Fixpoint deliver (ms : list Message) : list Message :=
  match ms with
  | [] => [abnormal]
  | m :: r => if isControl m then deliver r else if type m =? Close then [m] else m :: deliver r
  end.

Section receive.
Context {S : Type} {IS : IStream S} (isServer : bool) (masks : nat -> bytes) (addrs : nat -> nat).
Context (masks_ok : forall n, wfMask (masks n)).

Notation frame_t := (bytes * Message)%type.

(** Taking the first message from the queue. *)
Lemma receiving_pop all p rest m inc :
  Receiving isServer all p rest -> _incoming (user p) = m :: inc ->
  exists f all', all = f :: all' /\ f.2 = m
    /\ Receiving isServer all' (setUser (mkIncoming (_curMessage (user p)) inc) p) rest.
Proof.
  intros [done todo -> (H1 & H2 & H3 & H4) E Hsp|done mask0 m0 todo k -> Hmid E] Hinc.
  - rewrite H4 in Hinc. cbn [_incoming] in Hinc. destruct done as [|f done]; [done|]. cbn [map] in Hinc.
    injection Hinc as Hm Hinc. exists f, (done ++ todo). split_and!; [done|done|].
    apply (AtHeader _ _ _ _ done todo); [done| |done|done]. unfold idle. cbn [setUser state opStack lastFin user].
    rewrite H4. cbn [_curMessage]. now rewrite <- Hinc.
  - destruct Hmid as (H1 & H2 & H3 & H4 & H5 & H6 & H7 & H8 & H9). rewrite H8 in Hinc. cbn [_incoming] in Hinc.
    destruct done as [|f done]; [done|]. cbn [map] in Hinc. injection Hinc as Hm Hinc.
    exists f, (done ++ (mask0, m0) :: todo). split_and!; [done|done|].
    apply (InPayload _ _ _ _ done mask0 m0 todo k); [done| |done]. unfold midway.
    cbn [setUser state spill opStack lastFin remainingBytes opCode user mask]. rewrite H8. cbn [_curMessage].
    rewrite <- Hinc. now split_and!.
Qed.

(** Nothing in the queue and nothing to come: all the messages were taken. *)
Lemma receiving_done all p :
  Forall wfFrame all -> Receiving isServer all p [] -> _incoming (user p) = [] -> all = [].
Proof.
  intros Hwf HR Hinc. apply receiving_end in HR as [Hu _]; [|done]. rewrite Hu in Hinc. cbn in Hinc. now destruct all.
Qed.

(** Reading on until there is a message. *)
Lemma fill_spec fuel all st p :
  Forall wfFrame all -> readable st -> writable st -> Receiving isServer all p (content st) ->
  (length (content st) < fuel)%nat ->
  exists eof st' p', fill isServer fuel st p = Ret (eof, st', p') /\ sent st' = sent st /\ writable st'
    /\ (length (content st') <= length (content st))%nat
    /\ if eof then all = []
       else readable st' /\ Receiving isServer all p' (content st') /\ _incoming (user p') <> [].
Proof.
  intros Hwf. revert st p. induction fuel as [|f IH]; intros st p Hr Hw HR Hf; [lia|].
  cbn [fill]. destruct (_incoming (user p)) as [|m inc] eqn:Ei; cycle 1.
  { exists false, st, p. split_and!; try done. now rewrite Ei. }
  destruct (read_law 100000 st Hr ltac:(lia)) as (a & st1 & E & _ & Hc & Hs & Hw' & He & Hr').
  unfold mbind, outcome_bind. rewrite E. cbn [fst snd]. destruct a as [|x a].
  - rewrite He in HR by done. exists true, st1, p. rewrite Hs, Hc. split_and!; try done; [now apply Hw'|].
    now apply (receiving_done all p).
  - rewrite Hc in HR. destruct (consumeLoop_receiving isServer (Datatypes.S (length (x :: a))) all p (x :: a) (content st1))
      as (p' & Ep & HR'); [done|done|lia|].
    unfold consume. rewrite Ep. rewrite Hc, length_app in Hf. cbn [length] in Hf.
    destruct (IH st1 p') as (eof & st2 & p2 & E2 & Hs2 & Hw2 & Hl2 & Hres); [now apply Hr'|now apply Hw'|done|lia|].
    exists eof, st2, p2. rewrite E2, Hs2, Hs. split_and!; try done. rewrite Hc, length_app. lia.
Qed.

(** An empty frame always fits. *)
Lemma send_pong st p cs cr n :
  writable st ->
  exists st' cs' n' r, send isServer masks addrs [] Pong (mkWS (Some st) p cs cr n) = Ret (r, mkWS (Some st') p cs' cr n')
    /\ content st' = content st /\ (readable st -> readable st') /\ writable st' /\ cs' = cs.
Proof.
  intros Hw. unfold send. cbn [_closeSent _stream nframes parser _closeReceived]. destruct cs.
  - exists st, true, n, (Some (ECrouton LogicError)). now split_and!.
  - destruct (write_law (formatMessage isServer (masks n) (addrs n) [] Pong false) st Hw)
      as (st' & E & Hc & _ & Hr & Hw'). unfold writeString. rewrite E.
    assert (length ([] : bytes) + 10 <? length (formatMessage isServer (masks n) (addrs n) [] Pong false) = false)%nat as ->.
    { apply Nat.ltb_ge. destruct (masks_ok n) as [Hm _]. unfold formatMessage. destruct isServer; [vm_compute; lia|].
      rewrite maskPayload_ref, !length_app, Hm by done. vm_compute. lia. }
    exists st', false, (Datatypes.S n), None. now split_and!.
Qed.

Definition receiving (all : list frame_t) (ws : WebSocket S) : Prop :=
  exists st, _stream ws = Some st /\ _closeReceived ws = false /\ Forall wfFrame all /\ readable st /\ writable st
    /\ Receiving isServer all (parser ws) (content st).

(** Bytes and messages still to be handled. *)
Definition toDo (all : list frame_t) (ws : WebSocket S) : nat :=
  (match _stream ws with Some st => length (content st) | None => 0 end + length all)%nat.

Lemma receiveNext_spec fuel all ws :
  receiving all ws -> (toDo all ws < fuel)%nat ->
  exists it ws', receiveNext isServer masks addrs fuel ws = Ret (it, ws')
  /\ match it with
     | YieldLast m => m = abnormal /\ deliver (map snd all) = [m]
     | Yield m =>
         if type m =? Close then deliver (map snd all) = [m] /\ _closeReceived ws' = true
         else exists all', deliver (map snd all) = m :: deliver (map snd all') /\ receiving all' ws'
                /\ (toDo all' ws' < toDo all ws)%nat
     | End => False
     end.
Proof.
  revert all ws. induction fuel as [|f IH]; intros all ws (st & Hst & Hcr & Hwf & Hr & Hw & HR) Hf; [lia|].
  unfold toDo in Hf. rewrite Hst in Hf. cbn [receiveNext]. rewrite Hst, Hcr.
  destruct (fill_spec (Datatypes.S f) all st (parser ws)) as (eof & st1 & p1 & E & Hs1 & Hw1 & Hl1 & Hres);
    [done|done|done|done|lia|]. unfold mbind at 1, outcome_bind at 1. rewrite E. destruct eof.
  { subst all. eexists _, _. split; [reflexivity|]. now split. }
  destruct Hres as (Hr1 & HR1 & Hne). destruct (_incoming (user p1)) as [|msg rest] eqn:Ei; [done|].
  destruct (receiving_pop all p1 (content st1) msg rest HR1 Ei) as (fr & all' & -> & Hmsg & HR2).
  apply Forall_cons in Hwf as [[_ Hwf1] Hwf]. rewrite Hmsg in Hwf1. cbn [map]. rewrite Hmsg. cbn [length] in Hf.
  set (p2 := setUser _ p1) in *. cbn [_closeSent nframes deliver]. unfold isControl.
  assert (forall st2 cs n, readable st2 -> writable st2 -> content st2 = content st1 ->
            receiving all' (mkWS (Some st2) p2 cs false n)
            /\ (toDo all' (mkWS (Some st2) p2 cs false n) < toDo (fr :: all') ws)%nat) as Hnext.
  { intros st2 cs n Hr2 Hw2 Hc2. split; [exists st2; rewrite Hc2; now split_and!|].
    unfold toDo. cbn [_stream length]. rewrite Hst, Hc2. lia. }
  destruct Hwf1 as [Ht _ _ _].
  repeat (apply elem_of_cons in Ht as [Ht|Ht]; [rewrite Ht|]); [..|now apply elem_of_nil in Ht].
  - cbn. eexists _, _. split; [reflexivity|]. cbv beta iota. rewrite Ht. cbn. exists all'. split; [done|]. now apply Hnext.
  - cbn. eexists _, _. split; [reflexivity|]. cbv beta iota. rewrite Ht. cbn. exists all'. split; [done|]. now apply Hnext.
  - cbn. eexists _, _. split; [reflexivity|]. cbv beta iota. rewrite Ht. cbn. now split.
  - change (Ping =? Close) with false. cbn [orb Z.eqb Pos.eqb Ping Text Binary Close Pong].
    destruct (send_pong st1 p2 (_closeSent ws) false (nframes ws) Hw1)
      as (st2 & cs2 & n2 & r & Es & Hc2 & Hr2 & Hw2 & _).
    unfold mbind, outcome_bind. rewrite Es. cbn [snd].
    destruct (Hnext st2 cs2 n2 (Hr2 Hr1) Hw2 Hc2) as [Hn1 Hn2].
    destruct (IH all' _ Hn1) as (it & ws' & Ei' & Hit); [unfold toDo in *; cbn [_stream] in *; rewrite Hc2; lia|].
    exists it, ws'. split; [exact Ei'|]. destruct it as [m|m|]; [|done|done]. destruct (type m =? Close); [done|].
    destruct Hit as (all2 & H1 & H2 & H3). exists all2. split_and!; [done|done|lia].
  - cbn [orb Z.eqb Pos.eqb Ping Text Binary Close Pong].
    destruct (Hnext st1 (_closeSent ws) (nframes ws) Hr1 Hw1 eq_refl) as [Hn1 Hn2].
    destruct (IH all' _ Hn1) as (it & ws' & Ei' & Hit); [unfold toDo in *; cbn [_stream] in *; lia|].
    exists it, ws'. split; [exact Ei'|]. destruct it as [m|m|]; [|done|done]. destruct (type m =? Close); [done|].
    destruct Hit as (all2 & H1 & H2 & H3). exists all2. split_and!; [done|done|lia].
Qed.

Lemma receiveAll_spec fuel all ws :
  receiving all ws -> (toDo all ws + 1 < fuel)%nat ->
  exists ws', receiveAll isServer masks addrs fuel ws = Ret (deliver (map snd all), ws').
Proof.
  revert all ws. induction fuel as [|f IH]; intros all ws Hrec Hf; [lia|]. cbn [receiveAll].
  destruct (receiveNext_spec (Datatypes.S f) all ws Hrec) as (it & ws' & E & Hit); [lia|].
  unfold mbind, outcome_bind. rewrite E. cbn [fst snd]. destruct it as [m|m|]; [| |done].
  - destruct (type m =? Close).
    + destruct Hit as [-> Hcr]. destruct f as [|f]; [lia|]. cbn [receiveAll receiveNext].
      unfold mbind, outcome_bind. rewrite Hcr. destruct (_stream ws'); cbn; eauto.
    + destruct Hit as (all' & -> & Hrec' & Hlt). destruct (IH all' ws' Hrec') as (ws2 & E2); [lia|]. rewrite E2. eauto.
  - destruct Hit as [-> ->]. eauto.
Qed.
End receive.

(** * Sending *)

Section sending.
Context {S : Type} {IS : IStream S} (masks : nat -> bytes) (addrs : nat -> nat).
Context (masks_ok : forall n, wfMask (masks n)).

(** The buffer [send] allocates is large enough. *)
Definition fits (isServer : bool) (m : Message) : Prop :=
  isServer = true \/ Z.of_nat (length (text m)) <= 65535.

Lemma frame_length isServer n m :
  length (formatMessage isServer (masks n) (addrs n) (text m) (type m) false)
  = (headerLen (negb isServer) (Z.of_nat (length (text m))) + length (text m))%nat.
Proof.
  destruct (masks_ok n) as [Hm Hb].
  rewrite <- (negb_involutive isServer) at 1. rewrite formatMessage_wire by done. unfold wire.
  now rewrite length_app, wirePayload_length, wireHead_length.
Qed.

Lemma frame_fits isServer n m :
  (length (text m) + 10 <? length (formatMessage isServer (masks n) (addrs n) (text m) (type m) false))%nat
  = negb isServer && (65535 <? Z.of_nat (length (text m))).
Proof.
  rewrite frame_length. unfold headerLen.
  destruct (Z.ltb_spec (Z.of_nat (length (text m))) 126); [|destruct (Z.leb_spec (Z.of_nat (length (text m))) 65535)];
    destruct isServer; cbn [negb andb SHORT_MESSAGE_HEADER MEDIUM_MESSAGE_HEADER LONG_MESSAGE_HEADER].
  all: repeat match goal with
    | |- context [(65535 <? ?x)%Z] => destruct (Z.ltb_spec 65535 x)
    | |- context [(?a <? ?b)%nat] => destruct (Nat.ltb_spec a b) end; try done; lia.
Qed.

(** The frames of [ms] that are sent, from the [n]-th on: those up to a close. *)
Fixpoint sentFrames (n : nat) (ms : list Message) : list (nat * (bytes * Message)) :=
  match ms with
  | [] => []
  | m :: r => (addrs n, (masks n, m)) :: (if type m =? Close then [] else sentFrames (Datatypes.S n) r)
  end.

Definition onWire (isServer : bool) (fs : list (nat * (bytes * Message))) : bytes :=
  concat (map (fun f => formatMessage isServer f.2.1 f.1 (text f.2.2) (type f.2.2) false) fs).

Lemma sendEach_closed isServer ms ws :
  _closeSent ws = true -> sendEach isServer masks addrs ms ws = Ret ws.
Proof.
  intros Hc. induction ms as [|m r IH]; [done|]. cbn [sendEach]. unfold send. rewrite Hc. exact IH.
Qed.

(** One message goes out whole. *)
Lemma send_message_ok isServer m st p cr n :
  writable st -> fits isServer m ->
  exists st1, send isServer masks addrs (text m) (type m) (mkWS (Some st) p false cr n) = Ret (None, mkWS (Some st1) p (type m =? Close) cr (Datatypes.S n))
    /\ writable st1 /\ sent st1 = sent st ++ formatMessage isServer (masks n) (addrs n) (text m) (type m) false.
Proof.
  intros Hw Hf. unfold send. cbn [_closeSent _stream nframes parser _closeReceived]. rewrite frame_fits.
  assert (negb isServer && (65535 <? Z.of_nat (length (text m))) = false) as ->.
  { destruct Hf as [-> |Hf]; [done|]. apply andb_false_iff. right. now apply Z.ltb_ge. }
  destruct (write_law (formatMessage isServer (masks n) (addrs n) (text m) (type m) false) st Hw) as (st1 & E & Hc & Hs & Hr & Hw1).
  unfold writeString. rewrite E. now exists st1.
Qed.

Lemma sendEach_spec isServer ms st p cr n :
  writable st -> Forall (fits isServer) ms ->
  exists ws' st', sendEach isServer masks addrs ms (mkWS (Some st) p false cr n) = Ret ws'
    /\ _stream ws' = Some st' /\ sent st' = sent st ++ onWire isServer (sentFrames n ms).
Proof.
  revert st n. induction ms as [|m r IH]; intros st n Hw Hfit; cbn [sendEach sentFrames].
  - eexists _, st. split; [reflexivity|]. unfold onWire. cbn. now rewrite app_nil_r.
  - apply Forall_cons in Hfit as [Hf Hfit]. destruct (send_message_ok isServer m st p cr n Hw Hf) as (st1 & E & Hw1 & Hs).
    rewrite E. unfold mbind, outcome_bind. cbn [snd]. unfold onWire. cbn [map concat fst snd].
    destruct (type m =? Close).
    + rewrite sendEach_closed by done. eexists _, st1. split; [reflexivity|]. split; [done|]. cbn. now rewrite Hs, app_nil_r.
    + destruct (IH st1 (Datatypes.S n) Hw1 Hfit) as (ws' & st2 & E2 & Hst & Hs2). exists ws', st2.
      split_and!; [done|done|]. rewrite Hs2, Hs, <- app_assoc. done.
Qed.

Lemma sentFrames_wf n ms : Forall wfMessage ms -> Forall wfFrame (map snd (sentFrames n ms)).
Proof.
  intros H. revert n. induction H as [|m ms Hm _ IH]; intros n; cbn [sentFrames map]; constructor; cbn [snd].
  - split; [apply masks_ok|exact Hm].
  - destruct (type m =? Close); [constructor|apply IH].
Qed.

Lemma deliver_sentFrames n ms : deliver (map snd (map snd (sentFrames n ms))) = deliver ms.
Proof.
  revert n. induction ms as [|m ms IH]; intros n; [done|]. cbn [sentFrames map deliver snd].
  destruct (isControl m) eqn:Ec.
  - assert (type m =? Close = false) as ->.
    { unfold isControl, Ping, Pong in Ec. apply orb_prop in Ec. rewrite !Z.eqb_eq in Ec. apply Z.eqb_neq. unfold Close. lia. }
    apply IH.
  - destruct (type m =? Close); [done|]. now rewrite IH.
Qed.

Lemma sentFrames_length n ms : (length (sentFrames n ms) <= length ms)%nat.
Proof.
  revert n. induction ms as [|m ms IH]; intros n; cbn [sentFrames length]; [done|].
  specialize (IH (Datatypes.S n)). destruct (type m =? Close); cbn [length]; lia.
Qed.
End sending.

(** What one side sends, the other is given. *)
Lemma session_ok {S R : Type} {IS : IStream S} {IR : IStream R} (recvIsServer : bool)
  masks addrs masks' addrs' (ms : list Message) (s : S) :
  (forall n, wfMask (masks n)) -> (forall n, wfMask (masks' n)) ->
  Forall wfMessage ms -> Forall (fits (negb recvIsServer)) ms -> writable s -> sent s = [] ->
  exists ws' s', sendEach (negb recvIsServer) masks addrs ms (newWS s) = Ret ws' /\ _stream ws' = Some s'
    /\ forall r : R, readable r -> writable r -> content r = sent s' ->
        exists ws2, receiveAll recvIsServer masks' addrs' (length (content r) + length ms + 2) (newWS r)
                    = Ret (deliver ms, ws2).
Proof.
  intros Hm1 Hm2 Hwf Hfit Hw Hs.
  destruct (sendEach_spec masks addrs Hm1 (negb recvIsServer) ms s newParser false 0 Hw Hfit) as (ws' & s' & E & Hst & Hsent).
  exists ws', s'. split_and!; [exact E|done|]. intros r Hr Hwr Hc.
  set (all := map snd (sentFrames masks addrs 0 ms)).
  assert (Forall wfFrame all) as Hall by now apply sentFrames_wf.
  rewrite <- (deliver_sentFrames masks addrs 0 ms). fold all. apply receiveAll_spec; [done| |].
  - exists r. split_and!; try done. apply (AtHeader _ _ _ _ [] all); [done|done| |now left].
    cbn [newWS parser newParser spill app]. rewrite Hc, Hsent, Hs. cbn [app]. unfold onWire, wires, all. rewrite map_map.
    f_equal. apply map_ext_Forall. eapply Forall_impl; [exact (proj1 (Forall_map _ _ _) Hall)|].
    intros f [[Hmk _] _]. now apply formatMessage_wire.
  - unfold toDo, all. cbn [newWS _stream]. rewrite length_map. pose proof (sentFrames_length masks addrs 0 ms). lia.
Qed.

(** C24: end to end over any two streams: when one side sends well-formed messages -- a client none of more than 65535
    bytes, which do not fit the buffer of [send] ([websocket_send_overflow]) -- and the other side's
    stream delivers the bytes written, in any pieces, the generator of the other side
    yields the text and binary messages in order up to the first close message, which
    it yields last; pings and pongs are not yielded, and a connection that ends without
    a close yields the abnormal one. *)
Theorem websocket_session {S R : Type} {IS : IStream S} {IR : IStream R} (recvIsServer : bool)
  masks addrs masks' addrs' (ms : list Message) (s : S) :
  (forall n, wfMask (masks n)) -> (forall n, wfMask (masks' n)) ->
  Forall wfMessage ms -> Forall (fits (negb recvIsServer)) ms -> writable s -> sent s = [] ->
  exists ws' s', sendEach (negb recvIsServer) masks addrs ms (newWS s) = Ret ws' /\ _stream ws' = Some s'
    /\ forall r : R, readable r -> writable r -> content r = sent s' ->
        exists ws2, receiveAll recvIsServer masks' addrs' (length (content r) + length ms + 2) (newWS r)
                    = Ret (deliver ms, ws2).
Proof. apply session_ok. Qed.

Lemma websocket_session_witness :
  let ms := [mkMessage 1 (lit "hi"); mkMessage 9 []; mkMessage 8 [3; 232]] in
  exists ws2, receiveAll true (fun _ => [1; 2; 3; 4]) (fun _ => 0%nat) 27
    (newWS (Chunks.mk [onWire false (sentFrames (fun _ => [1; 2; 3; 4]) (fun _ => 0%nat) 0 ms)] []))
    = Ret ([mkMessage 1 (lit "hi"); mkMessage 8 [3; 232]], ws2).
Proof.
  intros ms.
  destruct (@websocket_session _ _ Chunks.stream Chunks.stream true (fun _ => [1; 2; 3; 4]) (fun _ => 0%nat)
    (fun _ => [1; 2; 3; 4]) (fun _ => 0%nat) ms (Chunks.mk [] [])) as (ws' & s' & E & Es & H).
  - intros _. split; [done|]. repeat constructor; unfold is_byte; lia.
  - intros _. split; [done|]. repeat constructor; unfold is_byte; lia.
  - repeat constructor; try (vm_compute; congruence); try (vm_compute; intuition congruence).
  - repeat (constructor; [right; vm_compute; congruence|]). constructor.
  - done.
  - done.
  - apply (H (Chunks.mk [onWire false (sentFrames (fun _ => [1; 2; 3; 4]) (fun _ => 0%nat) 0 ms)] [])).
    + repeat constructor. vm_compute. congruence.
    + done.
    + vm_compute in E. injection E as <-. cbn in Es. injection Es as <-. now vm_compute.
Defined.

(** A client's frame of more than 65535 bytes does not fit the string [send] allocates:
    its header is 14 bytes long, and 10 are reserved. *)
Theorem websocket_send_overflow {S : Type} {IS : IStream S} masks addrs m (st : S) p cr n :
  (forall n, wfMask (masks n)) -> 65535 < Z.of_nat (length (text m)) ->
  send false masks addrs (text m) (type m) (mkWS (Some st) p false cr n) = Fault OutOfBounds.
Proof.
  intros Hm Hlen. unfold send. cbn [_closeSent _stream nframes]. rewrite frame_fits by done. cbn [negb andb].
  now rewrite (proj2 (Z.ltb_lt _ _) Hlen).
Qed.

(** The close message that [receive] makes up when the peer vanishes does not tell
    its code: [closeCode] reads 1006 as "no code". *)
Theorem websocket_abnormal_code : closeCode abnormal = Ret CloseCode_NoCode.
Proof. now vm_compute. Qed.
