(* ===== verification/HttpParser.v ===== *)
(** HTTP messages: [Headers] ([include/crouton/io/HTTPParser.hh]) and the [Parser] that
    reads a request or a response from a stream ([src/io/HTTPParser.cc]).

    llhttp, the generated parser under [vendor/], is a parameter: the class [LLHTTP] has
    the functions of its API that the source calls, [LLHTTPLaws] what its documentation
    says of them.  Its callbacks never fail here, so a call is described by the callbacks
    it makes, in order, its result and its new state. *)

From S2P Require Import Prelude StringUtils URL IStream.

Local Open Scope Z_scope.

(** * Headers *)

Fixpoint canonLoop (inWord : bool) (s : bytes) : bytes :=
  match s with
  | [] => []
  | c :: r =>
      let c' := if inWord then toLower c else toUpper c in
      c' :: canonLoop (isAlphanumeric c') r
  end.

Definition canonicalName (name : bytes) : bytes := canonLoop false name.

(** An [unordered_map]: the order of its iteration is a parameter of the code that
    depends on it. *)
Abbreviation Headers := (gmap (list Z) (list Z)).

Module Headers.

Definition contains (name : bytes) (h : Headers) : bool := bool_decide (is_Some (h !! canonicalName name)).

Definition get (name : bytes) (h : Headers) : bytes := default [] (h !! canonicalName name).

Definition set (name value : bytes) (h : Headers) : Headers := <[canonicalName name := value]> h.

Definition add (name value : bytes) (h : Headers) : Headers :=
  match h !! canonicalName name with
  | None => <[canonicalName name := value]> h
  | Some v => <[canonicalName name := v ++ lit ", " ++ value]> h
  end.

End Headers.

(** * llhttp *)

Inductive Role := RoleRequest | RoleResponse.

Inductive event :=
| OnStatus (b : bytes) | OnUrl (b : bytes) | OnHeaderField (b : bytes) | OnHeaderValue (b : bytes)
| OnHeadersComplete | OnBody (b : bytes) | OnMessageComplete.

Inductive errno := HPE_OK | HPE_PAUSED_UPGRADE | HPE_error (code : Z).

Class LLHTTP (L : Type) := {
  llhttp_init : Role -> L;
  llhttp_execute : L -> bytes -> list event * errno * L;
  llhttp_finish : L -> list event * errno * L;
  llhttp_get_method : L -> Z;
  llhttp_get_status_code : L -> Z;
  llhttp_get_upgrade : L -> bool;
  (** as an offset into the data given to [llhttp_execute] *)
  llhttp_get_error_pos : L -> nat
}.

(** * Parser *)

Record Parser (L : Type) := mkParser {
  _hasStream : bool;
  _role : Role;
  _parser : L;
  requestMethod : option Z;          (** not initialised by the constructor *)
  requestURI : option URLRef;
  status : Z;
  statusMessage : bytes;
  headers : Headers;
  _curHeaderName : bytes;
  _body : bytes;
  _headersComplete : bool;
  _messageComplete : bool;
  _upgraded : bool
}.
Arguments mkParser {_} _ _ _ _ _ _ _ _ _ _ _ _ _.
Arguments _hasStream {_} _. Arguments _role {_} _. Arguments _parser {_} _.
Arguments requestMethod {_} _. Arguments requestURI {_} _. Arguments status {_} _.
Arguments statusMessage {_} _. Arguments headers {_} _. Arguments _curHeaderName {_} _.
Arguments _body {_} _. Arguments _headersComplete {_} _. Arguments _messageComplete {_} _.
Arguments _upgraded {_} _.

Definition Status_Unknown : Z := 0.

Section parser.
Context {L : Type} {HL : LLHTTP L}.

Definition newParser (hasStream : bool) (role : Role) : Parser L :=
  mkParser hasStream role (llhttp_init role) None None Status_Unknown [] ∅ [] [] false false false.

Definition set_llhttp l (p : Parser L) : Parser L :=
  mkParser (_hasStream p) (_role p) l (requestMethod p) (requestURI p) (status p) (statusMessage p) (headers p)
    (_curHeaderName p) (_body p) (_headersComplete p) (_messageComplete p) (_upgraded p).
Definition set_method m (p : Parser L) : Parser L :=
  mkParser (_hasStream p) (_role p) (_parser p) m (requestURI p) (status p) (statusMessage p) (headers p)
    (_curHeaderName p) (_body p) (_headersComplete p) (_messageComplete p) (_upgraded p).
Definition set_uri u (p : Parser L) : Parser L :=
  mkParser (_hasStream p) (_role p) (_parser p) (requestMethod p) u (status p) (statusMessage p) (headers p)
    (_curHeaderName p) (_body p) (_headersComplete p) (_messageComplete p) (_upgraded p).
Definition set_status s (p : Parser L) : Parser L :=
  mkParser (_hasStream p) (_role p) (_parser p) (requestMethod p) (requestURI p) s (statusMessage p) (headers p)
    (_curHeaderName p) (_body p) (_headersComplete p) (_messageComplete p) (_upgraded p).
Definition set_statusMessage s (p : Parser L) : Parser L :=
  mkParser (_hasStream p) (_role p) (_parser p) (requestMethod p) (requestURI p) (status p) s (headers p)
    (_curHeaderName p) (_body p) (_headersComplete p) (_messageComplete p) (_upgraded p).
Definition set_headers h (p : Parser L) : Parser L :=
  mkParser (_hasStream p) (_role p) (_parser p) (requestMethod p) (requestURI p) (status p) (statusMessage p) h
    (_curHeaderName p) (_body p) (_headersComplete p) (_messageComplete p) (_upgraded p).
Definition set_curHeaderName n (p : Parser L) : Parser L :=
  mkParser (_hasStream p) (_role p) (_parser p) (requestMethod p) (requestURI p) (status p) (statusMessage p) (headers p)
    n (_body p) (_headersComplete p) (_messageComplete p) (_upgraded p).
Definition set_body b (p : Parser L) : Parser L :=
  mkParser (_hasStream p) (_role p) (_parser p) (requestMethod p) (requestURI p) (status p) (statusMessage p) (headers p)
    (_curHeaderName p) b (_headersComplete p) (_messageComplete p) (_upgraded p).
Definition set_headersComplete (p : Parser L) : Parser L :=
  mkParser (_hasStream p) (_role p) (_parser p) (requestMethod p) (requestURI p) (status p) (statusMessage p) (headers p)
    (_curHeaderName p) (_body p) true (_messageComplete p) (_upgraded p).
Definition set_messageComplete (p : Parser L) : Parser L :=
  mkParser (_hasStream p) (_role p) (_parser p) (requestMethod p) (requestURI p) (status p) (statusMessage p) (headers p)
    (_curHeaderName p) (_body p) (_headersComplete p) true (_upgraded p).
Definition set_upgraded (p : Parser L) : Parser L :=
  mkParser (_hasStream p) (_role p) (_parser p) (requestMethod p) (requestURI p) (status p) (statusMessage p) (headers p)
    (_curHeaderName p) (_body p) (_headersComplete p) (_messageComplete p) true.

Definition complete (p : Parser L) : bool := _messageComplete p.
Definition upgraded (p : Parser L) : bool := _upgraded p.

Definition addHeader (value : bytes) : ST (Parser L) unit :=
  n ← gets _curHeaderName;
  _ ← assert (negb (bool_decide (n = [])));
  _ ← modify (fun p => set_headers (Headers.add n value (headers p)) p);
  modify (set_curHeaderName []).

Definition gotBody (data : bytes) : ST (Parser L) unit := modify (fun p => set_body (_body p ++ data) p).

(** The callbacks of the constructor; [URL(string)] parses its [c_str()]. *)
Definition callback (e : event) : ST (Parser L) unit :=
  match e with
  | OnStatus b => modify (set_statusMessage b)
  | OnUrl b => u ← lift (URL.parse emptyURL (c_str b)); modify (set_uri (Some u))
  | OnHeaderField b => modify (set_curHeaderName b)
  | OnHeaderValue b => addHeader b
  | OnHeadersComplete => modify set_headersComplete
  | OnBody b => gotBody b
  | OnMessageComplete => modify set_messageComplete
  end.

Fixpoint callbacks (es : list event) : ST (Parser L) unit :=
  match es with
  | [] => mret tt
  | e :: r => _ ← callback e; callbacks r
  end.

Definition parseData (data : bytes) : ST (Parser L) bool :=
  p ← get;
  let '(es, err, l) :=
    if (0 <? length data)%nat then llhttp_execute (_parser p) data else llhttp_finish (_parser p) in
  _ ← callbacks es;
  _ ← modify (set_llhttp l);
  _ ← (match err with
       | HPE_OK => mret tt
       | HPE_PAUSED_UPGRADE =>
           _ ← assert (llhttp_get_upgrade l);
           _ ← modify set_upgraded;
           _ ← assert (llhttp_get_error_pos l <=? length data)%nat;
           modify (set_body (drop (llhttp_get_error_pos l) data))
       | HPE_error _ => throw (ECrouton ParseError)
       end);
  hc ← gets _headersComplete;
  _ ← when hc
        (r ← gets _role;
         match r with
         | RoleRequest => modify (set_method (Some (llhttp_get_method l)))
         | RoleResponse => modify (set_status (llhttp_get_status_code l))
         end);
  gets _headersComplete.

(** [std::move(_body)] leaves the string empty. *)
Definition takeBody : ST (Parser L) bytes := fun p => Ret (_body p, set_body [] p).

Definition latestBodyData : ST (Parser L) bytes := takeBody.

(** * Reading from a stream *)

Context {S : Type} {IS : IStream S}.

(** The parser and the stream it reads, which its owner writes to. *)
Record Http := mkHttp { io : S; parser : Parser L }.

Definition onStream {A} (m : ST S A) : ST Http A := zoom io (fun s h => mkHttp s (parser h)) m.
Definition onParser {A} (m : ST (Parser L) A) : ST Http A := zoom parser (fun p h => mkHttp (io h) p) m.

Definition kReadSize : Z := 65536.

Fixpoint readHeadersLoop (fuel : nat) : ST Http unit :=
  match fuel with
  | O => crash NoFuel
  | Datatypes.S f =>
      data ← onStream (readNoCopy kReadSize);
      done ← onParser (parseData data);
      if (done : bool) then mret tt
      else if bool_decide (data = []) then throw (ECrouton UnexpectedEOF)
      else readHeadersLoop f
  end.

Definition readHeaders (fuel : nat) : ST Http unit :=
  hs ← gets (fun h => _hasStream (parser h));
  _ ← assert hs;
  o ← gets (fun h => IStream.isOpen (io h));
  _ ← when (negb o) (onStream IStream.open);
  readHeadersLoop fuel.

Fixpoint readBodyLoop (fuel : nat) : ST Http unit :=
  p ← gets parser;
  if bool_decide (_body p = []) && negb (complete p) then
    match fuel with
    | O => crash NoFuel
    | Datatypes.S f =>
        data ← onStream (readNoCopy kReadSize);
        _ ← onParser (parseData data);
        c ← gets (fun h => complete (parser h));
        if bool_decide (data = []) && negb c then throw (ECrouton UnexpectedEOF)
        else readBodyLoop f
    end
  else mret tt.

Definition readBody (fuel : nat) : ST Http bytes :=
  hs ← gets (fun h => _hasStream (parser h));
  _ ← assert hs;
  _ ← readBodyLoop fuel;
  onParser takeBody.

Fixpoint entireBodyLoop (fuel : nat) (acc : bytes) : ST Http bytes :=
  c ← gets (fun h => complete (parser h));
  if (c : bool) then mret acc
  else
    match fuel with
    | O => crash NoFuel
    | Datatypes.S f => b ← readBody (Datatypes.S f); entireBodyLoop f (acc ++ b)
    end.

Definition entireBody (fuel : nat) : ST Http bytes := entireBodyLoop fuel [].

End parser.
Arguments Http : clear implicits.

(** * What an HTTP message looks like (RFC 9112) *)

Inductive startLine := ReqLine (method : Z) (uri : bytes) | StatusLine (code : Z) (reason : bytes).

Inductive framing :=
| Length (body : bytes)               (** as long as Content-Length says; a request without one has no body *)
| Chunked (chunks : list bytes)       (** Transfer-Encoding: chunked *)
| UntilEOF (body : bytes)             (** a response without either *)
| Upgrade.                            (** another protocol follows the head *)

Record message := mkMsg { start : startLine; fields : list (bytes * bytes); framed : framing }.

Definition bodyOf (f : framing) : bytes :=
  match f with Length b => b | Chunked cs => concat cs | UntilEOF b => b | Upgrade => [] end.

(** The message as llhttp sees it: bytes it only skips, spans it hands to a callback,
    callbacks without data; at the end it waits for EOF or stops for the new protocol. *)
Inductive span := SUrl | SStatus | SField | SValue.

Inductive token :=
| TSkip (b : bytes) | TSpan (k : span) (b : bytes) | TBody (b : bytes) | TEvent (e : event) | TFinish | TUpgrade.

Definition spanEvent (k : span) (b : bytes) : event :=
  match k with SUrl => OnUrl b | SStatus => OnStatus b | SField => OnHeaderField b | SValue => OnHeaderValue b end.

Definition CRLF : bytes := [13; 10].

Section tokens.
(** [llhttp_method_name] *)
Variable methodName : Z -> bytes.

Definition startTokens (s : startLine) : list token :=
  match s with
  | ReqLine m uri => [TSkip (methodName m ++ [32]); TSpan SUrl uri; TSkip (lit " HTTP/1.1" ++ CRLF)]
  | StatusLine c reason =>
      [TSkip (lit "HTTP/1.1 " ++ Numerals.to_string c ++ [32]); TSpan SStatus reason; TSkip CRLF]
  end.

Definition fieldTokens (f : bytes * bytes) : list token :=
  [TSpan SField f.1; TSkip (lit ": "); TSpan SValue f.2; TSkip CRLF].

Definition chunkTokens (c : bytes) : list token :=
  [TSkip (Numerals.to_chars (Z.of_nat (length c)) 16 ++ CRLF); TBody c; TSkip CRLF].

Definition framingTokens (f : framing) : list token :=
  match f with
  | Length [] => [TEvent OnMessageComplete]
  | Length b => [TBody b; TEvent OnMessageComplete]
  | Chunked cs => concat (map chunkTokens cs) ++ [TSkip (lit "0" ++ CRLF ++ CRLF); TEvent OnMessageComplete]
  | UntilEOF [] => [TFinish]
  | UntilEOF b => [TBody b; TFinish]
  | Upgrade => [TEvent OnMessageComplete; TUpgrade]
  end.

Definition tokens (m : message) : list token :=
  startTokens (start m) ++ concat (map fieldTokens (fields m)) ++ [TSkip CRLF; TEvent OnHeadersComplete]
  ++ framingTokens (framed m).

End tokens.

Definition tokenBytes (t : token) : bytes := match t with TSkip b | TSpan _ b | TBody b => b | _ => [] end.

Definition wire (ts : list token) : bytes := concat (map tokenBytes ts).

(** What happens to the data [a] when the tokens [ts] are still to come: the callbacks,
    the tokens left and, for a change of protocol, the data left.  [None] when [a] goes
    beyond the message, or when it ends inside the start line or a header, where llhttp
    makes more than one callback for one span. *)
Fixpoint feed (ts : list token) (a : bytes) : option (list event * list token * option bytes) :=
  match ts with
  | [] => if bool_decide (a = []) then Some ([], [], None) else None
  | TEvent e :: r => p ← feed r a; Some (e :: p.1.1, p.1.2, p.2)
  | TFinish :: r => if bool_decide (a = []) then Some ([], ts, None) else None
  | TUpgrade :: r => Some ([], r, Some a)
  | TSkip b :: r =>
      if (length a <? length b)%nat then Some ([], TSkip (drop (length a) b) :: r, None) else feed r (drop (length b) a)
  | TSpan k b :: r =>
      if bool_decide (a = []) then Some ([], ts, None)
      else if (length a <=? length b)%nat then None
      else p ← feed r (drop (length b) a); Some (spanEvent k b :: p.1.1, p.1.2, p.2)
  | TBody b :: r =>
      if bool_decide (a = []) then Some ([], ts, None)
      else if (length a <? length b)%nat then Some ([OnBody a], TBody (drop (length a) b) :: r, None)
      else p ← feed r (drop (length b) a); Some (OnBody b :: p.1.1, p.1.2, p.2)
  end.

(** The characters of tokens, of field values, of URIs. *)
Definition isTchar (c : Z) : bool := isAlphanumeric c || existsb (Z.eqb c) (lit "!#$%&'*+-.^_`|~").
Definition isVchar (c : Z) : bool := (33 <=? c) && (c <=? 126).
Definition isText (c : Z) : bool := isVchar c || (c =? 32).

Definition fieldOk (f : bytes * bytes) : bool :=
  negb (bool_decide (f.1 = [])) && forallb isTchar f.1
  && match f.2 with [] => false | c :: _ => isVchar c end && forallb isText f.2 && isVchar (List.last f.2 32).

Definition named (n : bytes) (f : bytes * bytes) : bool := equalIgnoringCase n f.1.

Definition asks (n v : bytes) (fs : list (bytes * bytes)) : bool :=
  existsb (fun f => named n f && equalIgnoringCase f.2 v) fs.

(** How llhttp finds the end of the message: the framing the head announces. *)
Definition framingOk (role : Role) (m : message) : bool :=
  let has n := existsb (named (lit n)) (fields m) in
  let upgrades := has "Upgrade" && asks (lit "Connection") (lit "upgrade") (fields m)
                  && match start m with StatusLine c _ => c =? 101 | ReqLine _ _ => true end in
  let noUpgrade := negb (has "Upgrade")
                   && match start m with StatusLine c _ => (200 <=? c) && negb (c =? 204) && negb (c =? 304) | ReqLine _ _ => true end in
  match framed m with
  | Upgrade => upgrades && negb (has "Content-Length") && negb (has "Transfer-Encoding")
  | Length b =>
      noUpgrade && negb (has "Transfer-Encoding")
      && match List.filter (named (lit "Content-Length")) (fields m), role with
         | [], RoleRequest => bool_decide (b = [])
         | [f], _ => bool_decide (f.2 = Numerals.to_string (Z.of_nat (length b)))
         | _, _ => false
         end
  | Chunked cs =>
      noUpgrade && negb (has "Content-Length") && forallb (fun c => negb (bool_decide (c = []))) cs
      && match List.filter (named (lit "Transfer-Encoding")) (fields m) with
         | [f] => bool_decide (f.2 = lit "chunked")
         | _ => false
         end
  | UntilEOF _ =>
      noUpgrade && negb (has "Content-Length") && negb (has "Transfer-Encoding")
      && match role with RoleResponse => true | RoleRequest => false end
  end.

(** CONNECT is left out: everything after it is another protocol. *)
Definition startOk (role : Role) (s : startLine) : bool :=
  match role, s with
  | RoleRequest, ReqLine m uri =>
      (0 <=? m) && (m <=? 6) && negb (m =? 5)
      && match uri with c :: _ => c =? 47 | [] => false end && forallb isVchar uri
  | RoleResponse, StatusLine c reason =>
      (100 <=? c) && (c <=? 999) && negb (bool_decide (reason = [])) && forallb isText reason
  | _, _ => false
  end.

Definition messageOk (role : Role) (m : message) : bool :=
  startOk role (start m) && forallb fieldOk (fields m) && framingOk role m.

(** What the documentation of llhttp says of the calls when the input is the (well-formed)
    message [m]: it parses [m] however the
    it is cut into pieces, makes the callbacks along the way, returns
    [HPE_PAUSED_UPGRADE] with the position when the rest is in another protocol, and
    completes on EOF a message that lasts until EOF, while EOF inside another message is an
    error. *)
Class LLHTTPLaws (L : Type) `{LLHTTP L} (methodName : Z -> bytes) (role : Role) (m : message) := {
  (** the state after some bytes of the message, with these tokens to come *)
  awaits : L -> list token -> Prop;

  init_law a f : a <> [] -> feed (tokens methodName m) a = Some f ->
    exists l, llhttp_execute (llhttp_init role) a
                = (f.1.1, match f.2 with Some _ => HPE_PAUSED_UPGRADE | None => HPE_OK end, l)
      /\ awaits l f.1.2
      /\ forall x, f.2 = Some x -> llhttp_get_upgrade l = true /\ llhttp_get_error_pos l = (length a - length x)%nat;
  execute_law l ts a f : awaits l ts -> a <> [] -> feed ts a = Some f ->
    exists l', llhttp_execute l a = (f.1.1, match f.2 with Some _ => HPE_PAUSED_UPGRADE | None => HPE_OK end, l')
      /\ awaits l' f.1.2
      /\ forall x, f.2 = Some x -> llhttp_get_upgrade l' = true /\ llhttp_get_error_pos l' = (length a - length x)%nat;
  finish_law l : awaits l [TFinish] ->
    exists l', llhttp_finish l = ([OnMessageComplete], HPE_OK, l') /\ awaits l' [];
  eof_law l ts : awaits l ts -> TEvent OnHeadersComplete ∈ ts \/ TEvent OnMessageComplete ∈ ts ->
    exists c l', llhttp_finish l = ([], HPE_error c, l');
  head_law l ts : awaits l ts -> TEvent OnHeadersComplete ∉ ts ->
    match start m with ReqLine k _ => llhttp_get_method l = k | StatusLine c _ => llhttp_get_status_code l = c end
}.

(** * Lemmas on headers *)

Lemma canonLoop_lower w s : toLowerStr (canonLoop w s) = toLowerStr s.
Proof.
  revert w. induction s as [|c r IH]; intros w; [done|]. cbn [canonLoop toLowerStr map]. f_equal; [|apply IH].
  destruct w; [apply toLower_idemp|apply toLower_toUpper].
Qed.

Lemma canonLoop_case w a b : toLowerStr a = toLowerStr b -> canonLoop w a = canonLoop w b.
Proof.
  revert w b. induction a as [|c r IH]; intros w [|d q] E; try done. injection E as E1 E2. cbn [canonLoop].
  assert (toUpper c = toUpper d) as E3 by (rewrite <- (toUpper_toLower c), <- (toUpper_toLower d); now f_equal).
  destruct w; cbn; rewrite ?E1, ?E3; f_equal; now apply IH.
Qed.

(** Names that differ only in case, and no others, have the same canonical form. *)
Lemma canonicalName_case a b : canonicalName a = canonicalName b <-> equalIgnoringCase a b = true.
Proof.
  rewrite equalIgnoringCase_spec. split; [|apply canonLoop_case].
  intros E. rewrite <- (canonLoop_lower false a), <- (canonLoop_lower false b). exact (f_equal toLowerStr E).
Qed.

Lemma canonicalName_idemp a : canonicalName (canonicalName a) = canonicalName a.
Proof. apply canonLoop_case, canonLoop_lower. Qed.

(** The value of a header that may occur several times. *)
Definition joinValues (vs : list bytes) : option bytes :=
  match vs with [] => None | v :: r => Some (foldl (fun acc w => acc ++ lit ", " ++ w) v r) end.

Definition fieldValue (n : bytes) (fs : list (bytes * bytes)) : option bytes :=
  joinValues (map snd (List.filter (named n) fs)).

Definition addFields (fs : list (bytes * bytes)) (h : Headers) : Headers :=
  foldl (fun h f => Headers.add f.1 f.2 h) h fs.

Lemma joinValues_snoc vs v :
  joinValues (vs ++ [v]) = Some (match joinValues vs with None => v | Some w => w ++ lit ", " ++ v end).
Proof. destruct vs as [|w r]; [done|]. cbn [joinValues app]. now rewrite foldl_app. Qed.

Lemma addFields_lookup fs n : addFields fs ∅ !! canonicalName n = fieldValue n fs.
Proof.
  unfold addFields, fieldValue. induction fs as [|f fs IH] using rev_ind; [done|].
  rewrite foldl_app, List.filter_app, map_app. cbn [foldl List.filter]. unfold Headers.add.
  set (h := foldl _ _ fs) in *. destruct (named n f) eqn:En; unfold named in En; cbn [map].
  - apply canonicalName_case in En. rewrite En in *. rewrite joinValues_snoc.
    destruct (h !! canonicalName f.1); rewrite lookup_insert_eq, <- IH; done.
  - rewrite app_nil_r, <- IH. assert (canonicalName f.1 <> canonicalName n) as Hne.
    { intros E. symmetry in E. apply canonicalName_case in E. congruence. }
    destruct (h !! canonicalName f.1); now rewrite lookup_insert_ne.
Qed.

(** * Lemmas on the callbacks *)

(** What the callbacks change, the body apart. *)
Record View := mkView {
  vuri : option URLRef; vmsg : bytes; vheaders : Headers; vname : bytes; vhc : bool; vmc : bool
}.

Definition applyEvent (e : event) (v : View) : outcome View :=
  match e with
  | OnStatus b => Ret (mkView (vuri v) b (vheaders v) (vname v) (vhc v) (vmc v))
  | OnUrl b =>
      u ← URL.parse emptyURL (c_str b);
      Ret (mkView (Some u) (vmsg v) (vheaders v) (vname v) (vhc v) (vmc v))
  | OnHeaderField b => Ret (mkView (vuri v) (vmsg v) (vheaders v) b (vhc v) (vmc v))
  | OnHeaderValue b =>
      if bool_decide (vname v = []) then Fault AssertFailed
      else Ret (mkView (vuri v) (vmsg v) (Headers.add (vname v) b (vheaders v)) [] (vhc v) (vmc v))
  | OnHeadersComplete => Ret (mkView (vuri v) (vmsg v) (vheaders v) (vname v) true (vmc v))
  | OnBody _ => Ret v
  | OnMessageComplete => Ret (mkView (vuri v) (vmsg v) (vheaders v) (vname v) (vhc v) true)
  end.

Fixpoint applyEvents (es : list event) (v : View) : outcome View :=
  match es with [] => Ret v | e :: r => v' ← applyEvent e v; applyEvents r v' end.

Definition evBody (e : event) : bytes := match e with OnBody b => b | _ => [] end.
Definition bodies (es : list event) : bytes := concat (map evBody es).

Definition isCtl (e : event) : bool := match e with OnBody _ => false | _ => true end.
Definition ctl (es : list event) : list event := List.filter isCtl es.

Lemma applyEvents_app es es' v : applyEvents (es ++ es') v = (applyEvents es v ≫= applyEvents es').
Proof.
  revert v. induction es as [|e r IH]; intros v; [done|]. cbn [applyEvents app]. unfold mbind, outcome_bind.
  destruct (applyEvent e v); [apply IH|done|done].
Qed.

Lemma applyEvents_ctl es v : applyEvents (ctl es) v = applyEvents es v.
Proof.
  revert v. induction es as [|e r IH]; intros v; [done|]. cbn [applyEvents ctl List.filter].
  destruct e; cbn [isCtl applyEvents applyEvent]; unfold mbind, outcome_bind; fold (ctl r); rewrite ?IH; try done.
  - destruct (URL.parse _ _); [apply IH|done|done].
  - destruct (bool_decide _); [done|apply IH].
Qed.

Lemma bodies_app a b : bodies (a ++ b) = bodies a ++ bodies b.
Proof. unfold bodies. now rewrite map_app, concat_app. Qed.

Lemma ctl_app a b : ctl (a ++ b) = ctl a ++ ctl b.
Proof. apply List.filter_app. Qed.

Section views.
Context {L : Type} {HL : LLHTTP L}.

Definition view (p : Parser L) : View :=
  mkView (requestURI p) (statusMessage p) (headers p) (_curHeaderName p) (_headersComplete p) (_messageComplete p).

Definition withView (v : View) (b : bytes) (p : Parser L) : Parser L :=
  mkParser (_hasStream p) (_role p) (_parser p) (requestMethod p) (vuri v) (status p) (vmsg v) (vheaders v) (vname v) b
    (vhc v) (vmc v) (_upgraded p).

Lemma callback_view e p :
  callback e p = (v ← applyEvent e (view p); Ret (tt, withView v (_body p ++ evBody e) p)).
Proof.
  destruct p. destruct e; cbn -[bool_decide URL.parse]; unfold withView; cbn -[bool_decide URL.parse]; rewrite ?app_nil_r; try done.
  - destruct (URL.parse _ _); cbn; now rewrite ?app_nil_r.
  - unfold addHeader, mbind, ST_bind, gets, assert, modify. cbn -[bool_decide].
    destruct (bool_decide _); cbn; now rewrite ?app_nil_r.
Qed.

Lemma callbacks_view es p :
  callbacks es p = (v ← applyEvents es (view p); Ret (tt, withView v (_body p ++ bodies es) p)).
Proof.
  revert p. induction es as [|e r IH]; intros p.
  - destruct p. unfold bodies, withView. cbn. now rewrite app_nil_r.
  - cbn [callbacks applyEvents]. unfold mbind at 1, ST_bind. rewrite callback_view. unfold mbind, outcome_bind.
    destruct (applyEvent e (view p)) as [v| |]; [|done|done].
    rewrite IH. unfold mbind, outcome_bind. change (view (withView v (_body p ++ evBody e) p)) with (mkView (vuri v) (vmsg v) (vheaders v) (vname v) (vhc v) (vmc v)).
    destruct v as [u m hs n hc mc]. cbn [vuri vmsg vheaders vname vhc vmc].
    destruct (applyEvents r _); [|done|done]. unfold withView. cbn. now rewrite <- app_assoc.
Qed.

End views.

(** * Lemmas on tokens *)

Definition tokEvents (t : token) : list event :=
  match t with
  | TSpan k b => [spanEvent k b] | TBody b => [OnBody b] | TEvent e => [e] | TFinish => [OnMessageComplete] | _ => []
  end.

Definition events (ts : list token) : list event := concat (map tokEvents ts).

Fixpoint wfTokens (ts : list token) : Prop :=
  match ts with
  | [] => True
  | TEvent _ :: r => wfTokens r
  | TFinish :: r | TUpgrade :: r => r = []
  | TSkip b :: r | TSpan _ b :: r | TBody b :: r => b <> [] /\ wfTokens r
  end.

(** Nothing more to come from the stream. *)
Definition drained (ts : list token) : Prop := ts = [] \/ ts = [TFinish].

Lemma events_app a b : events (a ++ b) = events a ++ events b.
Proof. unfold events. now rewrite map_app, concat_app. Qed.

Lemma wire_app a b : wire (a ++ b) = wire a ++ wire b.
Proof. unfold wire. now rewrite map_app, concat_app. Qed.

Lemma drop_nonempty (a b : bytes) : (length a < length b)%nat -> drop (length a) b <> [].
Proof. intros Hl E. apply (f_equal length) in E. rewrite length_drop in E. cbn in E. lia. Qed.

(** [a] begins the bytes of the tokens (or goes beyond them, to another protocol). *)
Definition agrees (a : bytes) (ts : list token) : Prop := exists y z, a ++ y = wire ts ++ z.

Lemma agrees_short a b ts : agrees a ts -> (exists r, wire ts = b ++ r) -> (length a <= length b)%nat -> a = take (length a) b.
Proof.
  intros (y & z & E) (r & Er) Hl. rewrite Er, <- app_assoc in E. apply (f_equal (take (length a))) in E.
  rewrite take_app_length in E. now rewrite take_app_le in E.
Qed.

Lemma agrees_long a b r : agrees a (b :: r) -> (length (tokenBytes b) <= length a)%nat ->
  a = tokenBytes b ++ drop (length (tokenBytes b)) a /\ agrees (drop (length (tokenBytes b)) a) r.
Proof.
  intros (y & z & E) Hl. unfold wire in E. cbn [map concat] in E. fold (wire r) in E. rewrite <- app_assoc in E.
  set (k := tokenBytes b) in *. assert (a = k ++ drop (length k) a) as Ea.
  { rewrite <- (take_drop (length k) a) at 1. f_equal. apply (f_equal (take (length k))) in E.
    rewrite take_app_le, take_app_length in E by done. done. }
  split; [done|]. exists y, z. rewrite Ea, <- app_assoc in E. now apply app_inv_head in E.
Qed.

(** Where a call has left the message. *)
Definition leaves (ts : list token) (a : bytes) (ts' : list token) (x : option bytes) : Prop :=
  match x with
  | None => wire ts = a ++ wire ts' /\ (wire ts' = [] -> drained ts')
  | Some e => a = wire ts ++ e /\ ts' = []
  end.

(** The callbacks made and those to come are the message's, the body in pieces. *)
Definition progress (ts : list token) (a : bytes) (es : list event) (ts' : list token) (x : option bytes) : Prop :=
  ctl (events ts) = ctl es ++ ctl (events ts') /\ bodies (events ts) = bodies es ++ bodies (events ts')
  /\ wfTokens ts' /\ leaves ts a ts' x.

Lemma wire_cons t r : wire (t :: r) = tokenBytes t ++ wire r.
Proof. done. Qed.

Lemma events_cons t r : events (t :: r) = tokEvents t ++ events r.
Proof. done. Qed.

Lemma progress_whole t r a es ts' x :
  a = tokenBytes t ++ drop (length (tokenBytes t)) a -> progress r (drop (length (tokenBytes t)) a) es ts' x ->
  progress (t :: r) a (tokEvents t ++ es) ts' x.
Proof.
  intros Ea (P1 & P2 & P3 & P4). unfold progress. rewrite events_cons, !ctl_app, !bodies_app, P1, P2, !app_assoc.
  split_and!; try done. unfold leaves in *. rewrite wire_cons. destruct x as [e|].
  - destruct P4 as [P4 ->]. split; [|done]. rewrite Ea at 1. now rewrite P4, app_assoc.
  - destruct P4 as [P4 P5]. split; [|done]. rewrite P4, app_assoc. now f_equal.
Qed.

Lemma progress_stay ts : wfTokens ts -> (wire ts = [] -> drained ts) -> progress ts [] [] ts None.
Proof. intros Hw Hd. split_and!; try done. Qed.

Lemma progress_part t t1 r a es :
  tokenBytes t = a ++ tokenBytes t1 -> tokenBytes t1 <> [] -> wfTokens (t1 :: r) ->
  ctl (tokEvents t) = ctl es ++ ctl (tokEvents t1) -> bodies (tokEvents t) = bodies es ++ bodies (tokEvents t1) ->
  progress (t :: r) a es (t1 :: r) None.
Proof.
  intros Ea Hne Hwf E1 E2. unfold progress. rewrite !events_cons, !ctl_app, !bodies_app, E1, E2, <- !app_assoc.
  split_and!; try done. unfold leaves. rewrite !wire_cons, Ea, app_assoc. split; [done|]. intros F. now apply app_eq_nil in F as [F _].
Qed.

Lemma feed_progress ts a es ts' x :
  wfTokens ts -> agrees a ts -> feed ts a = Some (es, ts', x) -> progress ts a es ts' x.
Proof.
  revert a es. induction ts as [|t r IH]; intros a es Hwf Ha E; cbn [feed] in E.
  { case_bool_decide; [|done]. injection E as <- <- <-. subst. apply progress_stay; [done|]. intros _. now left. }
  assert (forall es', feed r (drop (length (tokenBytes t)) a) = Some (es', ts', x) -> (length (tokenBytes t) <= length a)%nat ->
            wfTokens r -> progress (t :: r) a (tokEvents t ++ es') ts' x) as Hrec.
  { intros es' E1 Hl Hr. destruct (agrees_long _ _ _ Ha Hl) as [Ea Ha']. apply progress_whole; [done|]. now apply IH. }
  assert (forall b, tokenBytes t = b -> (length a < length b)%nat -> b = a ++ drop (length a) b) as Hcut.
  { intros b Eb Hl. rewrite <- (take_drop (length a) b) at 1. f_equal. symmetry.
    apply (agrees_short a b (t :: r)); [done| |lia]. exists (wire r). now rewrite wire_cons, Eb. }
  assert (forall b, b <> [] -> tokenBytes t = b -> wire (t :: r) = [] -> drained (t :: r)) as Hne.
  { intros b Hb Eb F. rewrite wire_cons, Eb in F. now apply app_eq_nil in F as [F _]. }
  destruct t as [b|k b|b|e| |]; cbn [wfTokens] in Hwf.
  - destruct Hwf as [Hb Hr]. case_match eqn:El; bool_to_prop.
    + injection E as <- <- <-. apply progress_part; try done; [now apply Hcut|now apply drop_nonempty|]. split; [now apply drop_nonempty|done].
    + apply (Hrec es); [done|cbn; lia|done].
  - destruct Hwf as [Hb Hr]. case_bool_decide.
    { injection E as <- <- <-. subst. apply progress_stay; [done|now apply (Hne b)]. }
    case_match eqn:El; [done|]. bool_to_prop. destruct (feed r _) as [[[e1 t1] x1]|] eqn:E1; [|done]. cbn in E.
    injection E as <- <- <-. apply (Hrec e1); [done|cbn; lia|done].
  - destruct Hwf as [Hb Hr]. case_bool_decide.
    { injection E as <- <- <-. subst. apply progress_stay; [done|now apply (Hne b)]. }
    case_match eqn:El; bool_to_prop.
    + injection E as <- <- <-. apply progress_part; try done; [now apply Hcut|now apply drop_nonempty|split; [now apply drop_nonempty|done]|].
      unfold bodies. cbn [map concat tokEvents evBody]. rewrite !app_nil_r. now apply Hcut.
    + destruct (feed r _) as [[[e1 t1] x1]|] eqn:E1; [|done]. cbn in E. injection E as <- <- <-. apply (Hrec e1); [done|cbn; lia|done].
  - destruct (feed r a) as [[[e1 t1] x1]|] eqn:E1; [|done]. cbn in E. injection E as <- <- <-. apply (Hrec e1); [done|cbn; lia|done].
  - subst r. case_bool_decide; [|done]. injection E as <- <- <-. subst. apply progress_stay; [done|]. intros _. now right.
  - subst r. injection E as <- <- <-. split_and!; try done.
Qed.

(** The end of the message is the last callback to come. *)
Definition endsWell (ts : list token) : Prop := events ts = [] \/ list.last (events ts) = Some OnMessageComplete.

Lemma endsWell_tail t r : endsWell (t :: r) -> endsWell r.
Proof.
  unfold endsWell. rewrite events_cons. intros Hl. destruct (events r) as [|e es] eqn:Er; [now left|right].
  destruct Hl as [Hl|Hl]; [now apply app_eq_nil in Hl as [_ Hl]|]. now rewrite last_app_cons in Hl.
Qed.

Lemma endsWell_body b b' r : endsWell (TBody b :: r) -> endsWell (TBody b' :: r).
Proof.
  intros Hl. unfold endsWell in *. rewrite !events_cons in *. destruct (events r) as [|e es]; [now destruct Hl|].
  right. rewrite last_app_cons in *. now destruct Hl.
Qed.

Lemma feed_last ts a es ts' x : feed ts a = Some (es, ts', x) -> endsWell ts -> endsWell ts'.
Proof.
  revert a es. induction ts as [|t r IH]; intros a es E Hl; cbn [feed] in E.
  { case_bool_decide; [|done]. now injection E as <- <- <-. }
  pose proof (endsWell_tail _ _ Hl) as Hr.
  destruct t as [b|k b|b|e| |]; repeat (case_match || case_bool_decide); simplify_eq; try done; try now apply (IH _ _ E).
  1,3,4: destruct (feed r _) as [[[e1 t1] x1]|] eqn:E1; [|done]; cbn in E; injection E as <- <- <-; now apply (IH _ _ E1).
  now apply (endsWell_body b).
Qed.

Lemma feed_upgrade ts a es ts' x :
  feed ts a = Some (es, ts', x) -> (is_Some x \/ TUpgrade ∈ ts') -> TUpgrade ∈ ts.
Proof.
  revert a es. induction ts as [|t r IH]; intros a es E Hi; cbn [feed] in E.
  { case_bool_decide; [|done]. injection E as <- <- <-. now destruct Hi as [[? ?]|?]. }
  assert (forall t1, ts' = t1 :: r -> x = None -> (t1 = TUpgrade -> t = TUpgrade) -> TUpgrade ∈ t :: r) as Hs.
  { intros t1 -> -> H1. destruct Hi as [[? ?]|Hi]; [done|]. apply elem_of_cons in Hi as [<-|Hi]; [rewrite H1 by done|]; set_solver. }
  destruct t as [b|k b|b|e| |]; repeat (case_match || case_bool_decide); simplify_eq; try (now eapply Hs).
  1: apply elem_of_cons; right; now apply (IH _ _ E).
  1,2,3: destruct (feed r _) as [[[e1 t1] x1]|] eqn:E1; [|done]; cbn in E; injection E as <- <- <-; apply elem_of_cons; right; now apply (IH _ _ E1).
  set_solver.
Qed.

(** The end of the head of a message that changes the protocol. *)
Definition upgradeTail : list token := [TEvent OnHeadersComplete; TEvent OnMessageComplete; TUpgrade].

Lemma feed_tail pre a es ts' : feed (pre ++ upgradeTail) a = Some (es, ts', None) -> exists pre', ts' = pre' ++ upgradeTail.
Proof.
  revert a es. induction pre as [|t r IH]; intros a es E; cbn [app feed] in E; [discriminate E|].
  assert (forall t1, ts' = t1 :: r ++ upgradeTail -> exists pre', ts' = pre' ++ upgradeTail) as Hs by (intros t1 ->; now exists (t1 :: r)).
  destruct t as [b|k b|b|e| |]; repeat (case_match || case_bool_decide); simplify_eq; try (now eapply Hs); try now apply (IH _ _ E).
  all: destruct (feed (r ++ upgradeTail) _) as [[[e1 t1] [x1|]]|] eqn:E1; try done; cbn in E; injection E as <- <-; now apply (IH _ _ E1).
Qed.

(** ** The callbacks of a message *)

Definition startEvents (s : startLine) : list event :=
  match s with ReqLine _ uri => [OnUrl uri] | StatusLine _ reason => [OnStatus reason] end.

Definition headEvents (m : message) : list event :=
  startEvents (start m) ++ concat (map (fun f => [OnHeaderField f.1; OnHeaderValue f.2]) (fields m)).

Definition view0 : View := mkView None [] ∅ [] false false.

(** The metadata after the head. *)
Definition parsedView (u : option URLRef) (m : message) : View :=
  mkView u (match start m with ReqLine _ _ => [] | StatusLine _ r => r end) (addFields (fields m) ∅) [] false false.

Definition uriParsed (m : message) (u : option URLRef) : Prop :=
  match start m with ReqLine _ uri => exists r, URL.parse emptyURL uri = Ret r /\ u = Some r | StatusLine _ _ => u = None end.

Lemma messageOk_parts role m :
  messageOk role m = true ->
  startOk role (start m) = true /\ Forall (fun f => fieldOk f = true) (fields m) /\ framingOk role m = true.
Proof.
  unfold messageOk. intros Hm. bool_to_prop. split_and!; try done. now apply List.Forall_forall, forallb_forall.
Qed.

Lemma startOk_role role s : startOk role s = true ->
  match s with ReqLine _ _ => role = RoleRequest | StatusLine _ _ => role = RoleResponse end.
Proof. now destruct role, s. Qed.

Lemma fieldOk_nonempty f : fieldOk f = true -> f.1 <> [] /\ f.2 <> [].
Proof.
  unfold fieldOk. intros Hf. bool_to_prop. destruct (bool_decide_reflect (f.1 = [])) as [?|Hn]; [done|]. split; [done|].
  destruct f.2; [done|congruence].
Qed.

Lemma headEvents_view role m u :
  messageOk role m = true -> uriParsed m u -> applyEvents (headEvents m) view0 = Ret (parsedView u m).
Proof.
  intros Hm Hu. apply messageOk_parts in Hm as (Hs & Hf & _). unfold headEvents. rewrite applyEvents_app.
  set (um := match start m with ReqLine _ _ => [] | StatusLine _ r => r end).
  assert (applyEvents (startEvents (start m)) view0 = Ret (mkView u um ∅ [] false false)) as ->.
  { unfold uriParsed, um in *. destruct (start m) as [k uri|c r]; cbn [startEvents applyEvents applyEvent].
    - destruct Hu as (r & Er & ->). rewrite c_str_id; [now rewrite Er|]. destruct role; cbn in Hs; [|done]. bool_to_prop.
      intros Hc. assert (isVchar 0 = true) as Hv by (eapply forallb_forall; eauto). done.
    - now rewrite Hu. }
  unfold parsedView. fold um. cbn [mbind outcome_bind]. unfold addFields. generalize (∅ : Headers). clearbody um.
  induction (fields m) as [|f fs IH]; intros h; [done|]. inversion_clear Hf as [|? ? Hf1 Hf2].
  cbn [map concat app applyEvents applyEvent mbind outcome_bind vuri vmsg vheaders vname vhc vmc].
  rewrite bool_decide_eq_false_2 by now apply fieldOk_nonempty. cbn [mbind outcome_bind foldl]. now apply IH.
Qed.

Section token_facts.
Context (methodName : Z -> bytes).

Lemma startTokens_events s : events (startTokens methodName s) = startEvents s.
Proof. now destruct s. Qed.

Lemma fieldTokens_events fs :
  events (concat (map fieldTokens fs)) = concat (map (fun f => [OnHeaderField f.1; OnHeaderValue f.2]) fs).
Proof. induction fs as [|f fs IH]; [done|]. cbn [map concat]. now rewrite events_app, IH. Qed.

Lemma head_ctl m : ctl (headEvents m) = headEvents m /\ bodies (headEvents m) = [].
Proof.
  unfold headEvents. rewrite ctl_app, bodies_app. assert (ctl (startEvents (start m)) = startEvents (start m) /\ bodies (startEvents (start m)) = []) as [-> ->] by now destruct (start m).
  induction (fields m) as [|f fs IH]; [done|]. destruct IH as [IH1 IH2]. cbn [map concat]. rewrite ctl_app, bodies_app.
  cbn [app] in *. split; [|done]. apply app_inv_head in IH1. now rewrite IH1.
Qed.

Lemma framing_events f :
  ctl (events (framingTokens f)) = [OnMessageComplete] /\ bodies (events (framingTokens f)) = bodyOf f.
Proof.
  destruct f as [[|c b]|cs|[|c b]|]; try (split; [done|unfold bodies; cbn; now rewrite ?app_nil_r]; fail).
  cbn [framingTokens bodyOf]. rewrite events_app, ctl_app, bodies_app. induction cs as [|c cs [IH1 IH2]]; [done|].
  cbn [map concat] in *. rewrite events_app, ctl_app, bodies_app, <- app_assoc, IH1. split; [done|].
  rewrite <- app_assoc, IH2. unfold bodies. cbn. now rewrite app_nil_r.
Qed.

Lemma tokens_events m :
  ctl (events (tokens methodName m)) = headEvents m ++ [OnHeadersComplete; OnMessageComplete]
  /\ bodies (events (tokens methodName m)) = bodyOf (framed m).
Proof.
  unfold tokens. rewrite !events_app, !ctl_app, !bodies_app, startTokens_events, fieldTokens_events.
  destruct (framing_events (framed m)) as [-> ->]. destruct (head_ctl m) as [E1 E2]. unfold headEvents in *.
  rewrite ctl_app in E1. rewrite bodies_app in E2. split.
  - etrans; [apply app_assoc|]. now rewrite E1.
  - etrans; [apply app_assoc|]. now rewrite E2.
Qed.

Lemma framing_last f : exists es, events (framingTokens f) = es ++ [OnMessageComplete].
Proof.
  destruct f as [[|c b]|cs|[|c b]|]; cbn [framingTokens]; [now exists []|now eexists [_]| |now exists []|now eexists [_]|now exists []].
  rewrite events_app. eauto.
Qed.

Lemma tokens_upgrade m : TUpgrade ∈ tokens methodName m -> framed m = Upgrade.
Proof.
  unfold tokens. rewrite !elem_of_app. intros [Hi|[Hi|[Hi|Hi]]].
  - destruct (start m); set_solver.
  - exfalso. induction (fields m) as [|f fs IH]; cbn [map concat] in Hi; [now apply elem_of_nil in Hi|].
    apply elem_of_app in Hi as [Hi|Hi]; [|auto]. unfold fieldTokens in Hi. set_solver.
  - set_solver.
  - destruct (framed m) as [[|c b]|cs|[|c b]|]; cbn [framingTokens] in Hi; try done; try set_solver.
    exfalso. apply elem_of_app in Hi as [Hi|Hi]; [|set_solver]. induction cs as [|c cs IH]; cbn [map concat] in Hi; [now apply elem_of_nil in Hi|].
    apply elem_of_app in Hi as [Hi|Hi]; [|auto]. unfold chunkTokens in Hi. set_solver.
Qed.

Lemma tokens_tail m : framed m = Upgrade -> exists pre, tokens methodName m = pre ++ upgradeTail.
Proof.
  intros E. unfold tokens. rewrite E. cbn [framingTokens].
  exists (startTokens methodName (start m) ++ concat (map fieldTokens (fields m)) ++ [TSkip CRLF]). now rewrite <- !app_assoc.
Qed.

Lemma tokens_last m : endsWell (tokens methodName m).
Proof.
  right. unfold tokens. rewrite !events_app. destruct (framing_last (framed m)) as [es ->]. rewrite !app_assoc. apply last_snoc.
Qed.

Lemma wfTokens_app a b : Forall (fun t => match t with TFinish | TUpgrade => False | TEvent _ => True | _ => tokenBytes t <> [] end) a ->
  wfTokens b -> wfTokens (a ++ b).
Proof. induction 1 as [|t r Ht Hr IH]; intros Hb; [done|]. destruct t; cbn [app wfTokens tokenBytes] in *; try done; try (split; [done|]); auto. Qed.

Lemma tokens_wf role m : messageOk role m = true -> wfTokens (tokens methodName m).
Proof.
  destruct m as [st fs fr]. intros Hm. apply messageOk_parts in Hm as (Hs & Hf & Hb). cbn [start fields] in *. unfold tokens. cbn [start fields framed].
  apply wfTokens_app.
  { destruct role, st as [k uri|c r]; cbn in Hs; try done; bool_to_prop; repeat constructor; cbn [tokenBytes].
    all: try (intros F; apply (f_equal length) in F; rewrite ?length_app in F; cbn in F; lia).
    - now destruct uri.
    - now apply (bool_decide_eq_false_1 (r = [])). }
  apply wfTokens_app.
  { clear Hb. induction Hf as [|f gs Hf1 _ IH]; [constructor|]. cbn [map concat]. apply fieldOk_nonempty in Hf1 as [? ?].
    apply Forall_app. split; [|done]. repeat constructor; cbn [tokenBytes]; done. }
  cbn [app wfTokens]. split; [done|]. destruct fr as [[|c b]|cs|[|c b]|]; cbn [framingTokens wfTokens]; try done.
  apply wfTokens_app; [|done]. unfold framingOk in Hb. cbn [framed] in Hb. apply andb_prop in Hb as [Hb _]. apply andb_prop in Hb as [_ Hc].
  induction cs as [|c cs IH]; [constructor|]. cbn [forallb] in Hc. bool_to_prop. cbn [map concat]. apply Forall_app. split; [|auto].
  repeat constructor; cbn [tokenBytes]; try done; [intros F; apply (f_equal length) in F; rewrite length_app in F; cbn in F; lia|].
  now apply (bool_decide_eq_false_1 (c = [])).
Qed.

End token_facts.

(** * Parsing a message piece by piece *)

Section parsing.
Context {L : Type} {HL : LLHTTP L} {methodName : Z -> bytes}.
Context (role : Role) (m : message) {HW : LLHTTPLaws L methodName role m} (u : option URLRef) (Hm : messageOk role m = true) (Hu : uriParsed m u).

Definition codeOf (p : Parser L) : Prop :=
  match start m with ReqLine k _ => requestMethod p = Some k | StatusLine c _ => status p = c end.

(** The callbacks [E] have been made, the tokens [ts] are to come. *)
Record Parsing (ts : list token) (E : list event) (p : Parser L) : Prop := {
  at_token : _parser p = llhttp_init role /\ ts = tokens methodName m \/ awaits (_parser p) ts;
  at_wf : wfTokens ts;
  at_drained : wire ts = [] -> drained ts;
  at_last : endsWell ts;
  at_upgrade : TUpgrade ∈ ts -> framed m = Upgrade;
  at_tail : framed m = Upgrade -> _upgraded p = false -> exists pre, ts = pre ++ upgradeTail;
  at_role : _role p = role;
  at_stream : _hasStream p = true;
  at_ctl : ctl E ++ ctl (events ts) = headEvents m ++ [OnHeadersComplete; OnMessageComplete];
  at_bodies : bodies E ++ bodies (events ts) = bodyOf (framed m);
  at_view : applyEvents E view0 = Ret (view p);
  at_code : _headersComplete p = true -> codeOf p
}.

Lemma parsing_start : Parsing (tokens methodName m) [] (newParser true role).
Proof.
  split; try done; [now left|exact (tokens_wf _ _ _ Hm)|intros F|apply tokens_last|apply tokens_upgrade|intros F _; now apply tokens_tail|apply tokens_events|apply tokens_events].
  exfalso. unfold tokens in F. rewrite wire_app in F. apply app_eq_nil in F as [F _].
  apply (f_equal length) in F. destruct (start m); unfold wire in F; cbn [startTokens map concat tokenBytes] in F; rewrite !length_app in F; cbn in F; lia.
Qed.

(** How far it is: in the head, in the body, or at the end. *)
Inductive phase (ts : list token) (E : list event) (p : Parser L) : Prop :=
| InHead r : ctl (events ts) = r ++ [OnHeadersComplete; OnMessageComplete] ->
    _headersComplete p = false -> _messageComplete p = false -> phase ts E p
| InBody : ctl (events ts) = [OnMessageComplete] ->
    view p = mkView (vuri (parsedView u m)) (vmsg (parsedView u m)) (vheaders (parsedView u m)) [] true false -> phase ts E p
| AtEnd : ctl (events ts) = [] ->
    view p = mkView (vuri (parsedView u m)) (vmsg (parsedView u m)) (vheaders (parsedView u m)) [] true true -> phase ts E p.

Lemma app_tail2 {A} (a b pre : list A) x y : a ++ b = pre ++ [x; y] ->
  (exists r, b = r ++ [x; y] /\ pre = a ++ r) \/ b = [y] /\ a = pre ++ [x] \/ b = [] /\ a = pre ++ [x; y].
Proof.
  revert a. induction pre as [|z pre IH]; intros a E.
  - destruct a as [|a1 [|a2 [|a3 a]]]; cbn in E; simplify_eq; [left; now exists []|right; now left|right; now right].
  - destruct a as [|a1 a]; cbn in E; [left; exists (z :: pre); now rewrite E|]. injection E as -> E.
    destruct (IH _ E) as [(r & -> & ->)|[[-> ->]|[-> ->]]]; [left; now exists r|right; now left|right; now right].
Qed.

Lemma head_flags es v v' : Forall (fun e => e <> OnHeadersComplete /\ e <> OnMessageComplete) es ->
  applyEvents es v = Ret v' -> vhc v' = vhc v /\ vmc v' = vmc v.
Proof.
  intros Hes. revert v. induction Hes as [|e es He _ IH]; intros v E; cbn in E; [now injection E as <-|].
  unfold mbind, outcome_bind in E. destruct (applyEvent e v) as [w| |] eqn:Ew; [|done|done]. apply IH in E as [-> ->].
  destruct e; cbn in Ew; try (injection Ew as <-; done); try (destruct He; done).
  - destruct (URL.parse _ _); [injection Ew as <-; done|done|done].
  - destruct (bool_decide _); [done|injection Ew as <-; done].
Qed.

Lemma flag_kept es v v' : applyEvents es v = Ret v' -> vhc v = true -> vhc v' = true.
Proof.
  revert v. induction es as [|e es IH]; intros v E Hv; cbn in E; [now injection E as <-|].
  unfold mbind, outcome_bind in E. destruct (applyEvent e v) as [w| |] eqn:Ew; [|done|done]. apply (IH _ E).
  destruct e; cbn in Ew; try (injection Ew as <-; done).
  - destruct (URL.parse _ _); [injection Ew as <-; done|done|done].
  - destruct (bool_decide _); [done|injection Ew as <-; done].
Qed.

Lemma headEvents_head : Forall (fun e => e <> OnHeadersComplete /\ e <> OnMessageComplete) (headEvents m).
Proof.
  unfold headEvents. apply Forall_app. split; [destruct (start m); repeat constructor; done|].
  induction (fields m) as [|f fs IH]; [constructor|]. cbn [map concat app]. repeat constructor; done.
Qed.

Lemma ret_inj {A} (x y : A) : Ret x = Ret y -> x = y.
Proof. now intros [=]. Qed.

Lemma events_phase ts E p :
  ctl E ++ ctl (events ts) = headEvents m ++ [OnHeadersComplete; OnMessageComplete] -> applyEvents E view0 = Ret (view p) ->
  phase ts E p.
Proof.
  intros Hc Hv. rewrite <- applyEvents_ctl in Hv. pose proof (headEvents_view _ _ _ Hm Hu) as Hh.
  destruct (app_tail2 _ _ _ _ _ Hc) as [(r & Er & Ep)|[[Er Ep]|[Er Ep]]].
  - pose proof headEvents_head as Hf. rewrite Ep in Hf. apply Forall_app in Hf as [Hf _].
    apply (head_flags _ _ _ Hf) in Hv as [? ?]. now apply (InHead _ _ _ r).
  - rewrite Ep, applyEvents_app, Hh in Hv. apply InBody; [done|]. symmetry. now apply ret_inj.
  - rewrite Ep, applyEvents_app, Hh in Hv. apply AtEnd; [done|]. symmetry. now apply ret_inj.
Qed.

Lemma execute_step ts E p a f :
  Parsing ts E p -> a <> [] -> feed ts a = Some f ->
  exists l, llhttp_execute (_parser p) a = (f.1.1, match f.2 with Some _ => HPE_PAUSED_UPGRADE | None => HPE_OK end, l)
    /\ awaits l f.1.2
    /\ forall x, f.2 = Some x -> llhttp_get_upgrade l = true /\ llhttp_get_error_pos l = (length a - length x)%nat.
Proof.
  intros Hp Ha Ef. destruct (at_token _ _ _ Hp) as [[-> ->]|Hw]; [exact (init_law _ _ Ha Ef)|exact (execute_law _ _ _ _ Hw Ha Ef)].
Qed.

(** No [OnHeadersComplete] to come: the code is known. *)
Lemma no_headersComplete ts : OnHeadersComplete ∉ ctl (events ts) -> TEvent OnHeadersComplete ∉ ts.
Proof.
  intros Hn Hi. apply Hn. induction ts as [|t r IH]; [now apply elem_of_nil in Hi|].
  rewrite events_cons, ctl_app. apply elem_of_app. apply elem_of_cons in Hi as [<-|Hi]; [left; cbn; set_solver|right].
  apply IH; [|done]. intros F. apply Hn. rewrite events_cons, ctl_app. set_solver.
Qed.

Lemma parsing_phase ts E p : Parsing ts E p -> phase ts E p.
Proof. intros Hp. apply events_phase; apply Hp. Qed.

Lemma callbacks_succeed E es r v :
  ctl E ++ ctl es ++ r = headEvents m ++ [OnHeadersComplete; OnMessageComplete] -> applyEvents E view0 = Ret v ->
  exists v', applyEvents es v = Ret v' /\ applyEvents (E ++ es) view0 = Ret v'.
Proof.
  intros Hc Hv. assert (exists w, applyEvents (headEvents m ++ [OnHeadersComplete; OnMessageComplete]) view0 = Ret w) as [w Hw]
    by (rewrite applyEvents_app, (headEvents_view _ _ _ Hm Hu); eauto).
  rewrite <- Hc, app_assoc, <- ctl_app, applyEvents_app, applyEvents_ctl in Hw.
  destruct (applyEvents (E ++ es) view0) as [v'| |] eqn:E1; [|done|done]. exists v'. split; [|done].
  now rewrite applyEvents_app, Hv in E1.
Qed.

Lemma known_code ts l (v : View) : awaits l ts ->
  (forall p : Parser L, view p = v -> exists E, phase ts E p) -> vhc v = true ->
  match start m with ReqLine k _ => llhttp_get_method l = k | StatusLine c _ => llhttp_get_status_code l = c end.
Proof.
  intros Hl Hph Hv. apply (head_law _ _ Hl). apply no_headersComplete.
  destruct (Hph (withView v [] (newParser true role))) as [E [r Er Eh _|Er _|Er _]]; [now destruct v|cbn in Eh; congruence| |];
    rewrite Er; set_solver.
Qed.

(** [parseData] notes the method or the status after the head. *)
Definition noted (l : L) (p : Parser L) : Parser L :=
  if _headersComplete p
  then match _role p with RoleRequest => set_method (Some (llhttp_get_method l)) p | RoleResponse => set_status (llhttp_get_status_code l) p end
  else p.

(** The parser after the callbacks [es], which lead to the view [v]. *)
Definition moved (l : L) (v : View) (b : bytes) (x : option bytes) (p : Parser L) : Parser L :=
  let p1 := set_llhttp l (withView v (_body p ++ b) p) in
  match x with None => p1 | Some e => set_body e (set_upgraded p1) end.

Lemma parseData_run a p es x l v :
  a <> [] -> llhttp_execute (_parser p) a = (es, match x with Some _ => HPE_PAUSED_UPGRADE | None => HPE_OK end, l) ->
  applyEvents es (view p) = Ret v ->
  (forall e, x = Some e -> llhttp_get_upgrade l = true /\ exists c, a = c ++ e /\ llhttp_get_error_pos l = length c) ->
  parseData a p = Ret (vhc v, noted l (moved l v (bodies es) x p)).
Proof.
  intros Ha El Ev Hx. unfold parseData, mbind, ST_bind, get.
  rewrite (proj2 (Nat.ltb_lt 0 (length a))) by (destruct a; [done|cbn; lia]). rewrite El, callbacks_view, Ev.
  cbn [mbind outcome_bind]. unfold moved, modify at 1. set (p1 := set_llhttp l _).
  assert (vhc v = _headersComplete p1) as -> by done. clearbody p1. destruct x as [e|].
  - destruct (Hx e eq_refl) as (-> & c & -> & ->). cbn [assert]. unfold modify at 1. unfold assert.
    rewrite (proj2 (Nat.leb_le _ _)) by (rewrite length_app; lia). unfold modify at 1. rewrite drop_app_length.
    unfold gets at 1, when, noted. cbn [_headersComplete set_body set_upgraded _role].
    destruct (_headersComplete p1) eqn:Eh; unfold gets; cbn; [destruct (_role p1); cbn; now rewrite Eh|now rewrite Eh].
  - unfold mret, ST_ret, gets at 1, when, noted.
    destruct (_headersComplete p1) eqn:Eh; unfold gets; cbn; [destruct (_role p1); cbn; now rewrite Eh|now rewrite Eh].
Qed.

Lemma noted_view l p : view (noted l p) = view p /\ _role (noted l p) = _role p /\ _hasStream (noted l p) = _hasStream p
  /\ _parser (noted l p) = _parser p /\ _body (noted l p) = _body p /\ _upgraded (noted l p) = _upgraded p.
Proof. unfold noted. destruct (_headersComplete p); [|done]. destruct (_role p) eqn:E; cbn; now rewrite E. Qed.

Lemma noted_code l p : _role p = role ->
  match start m with ReqLine k _ => llhttp_get_method l = k | StatusLine c _ => llhttp_get_status_code l = c end ->
  _headersComplete p = true -> codeOf (noted l p).
Proof.
  intros Er Hl Eh. unfold codeOf, noted. rewrite Eh, Er. destruct (messageOk_parts _ _ Hm) as (Hst & _ & _). apply startOk_role in Hst.
  destruct (start m); rewrite Hst; cbn; now rewrite Hl.
Qed.

Lemma parse_step ts E p a es ts' x :
  Parsing ts E p -> a <> [] -> agrees a ts -> feed ts a = Some (es, ts', x) ->
  exists p', parseData a p = Ret (_headersComplete p', p') /\ Parsing ts' (E ++ es) p'
    /\ _body p' = match x with None => _body p ++ bodies es | Some e => e end
    /\ _upgraded p' = match x with None => _upgraded p | Some _ => true end
    /\ (_headersComplete p = true -> _headersComplete p' = true).
Proof.
  intros Hp Ha Hag Ef. pose proof Hp as [_ Hwf _ Hla Hug Htl Hr Hs Hc Hb Hv _].
  destruct (feed_progress _ _ _ _ _ Hwf Hag Ef) as (P1 & P2 & P3 & P4). rewrite P1 in Hc. rewrite P2 in Hb.
  destruct (execute_step _ _ _ _ _ Hp Ha Ef) as (l & El & Hl & Hx). cbn [fst snd] in *.
  destruct (callbacks_succeed _ _ _ _ Hc Hv) as (v & Ev & Ev').
  set (q := moved l v (bodies es) x p). destruct (noted_view l q) as (N1 & N2 & N3 & N4 & N5 & N6).
  assert (view q = v /\ _role q = role /\ _hasStream q = true /\ _parser q = l) as (V1 & V2 & V3 & V4)
    by (unfold q, moved; destruct x, v, p; cbn in *; split_and!; done).
  assert (_headersComplete (noted l q) = vhc v) as Eh by (rewrite <- V1, <- N1; done).
  assert (forall q : Parser L, view q = v -> exists E', phase ts' E' q) as Hph.
  { intros q' Eq. exists (E ++ es). apply events_phase; [now rewrite ctl_app, <- app_assoc|now rewrite Eq]. }
  exists (noted l q). rewrite Eh. split.
  { apply parseData_run; try done. intros e ->. destruct (Hx _ eq_refl) as [-> ->]. destruct P4 as [-> _].
    split; [done|]. exists (wire ts). split; [done|]. rewrite length_app. lia. }
  split; [|split_and!; [rewrite N5; unfold q, moved; now destruct x|rewrite N6; unfold q, moved; now destruct x|exact (flag_kept _ _ _ Ev)]].
  split; try done; try congruence.
  - right. now rewrite N4, V4.
  - unfold leaves in P4. destruct x; [destruct P4 as [_ ->]; now left|now destruct P4].
  - now apply (feed_last _ _ _ _ _ Ef).
  - intros Hi. apply Hug. apply (feed_upgrade _ _ _ _ _ Ef). now right.
  - intros F Hu0. rewrite N6 in Hu0. unfold q, moved in Hu0. destruct x; [discriminate Hu0|]. destruct (Htl F Hu0) as [pre Ets].
    rewrite Ets in Ef. exact (feed_tail _ _ _ _ Ef).
  - now rewrite ctl_app, <- app_assoc.
  - now rewrite bodies_app, <- app_assoc.
  - intros Eh'. apply noted_code; [done| |rewrite Eh, <- V1 in Eh'; exact Eh']. rewrite Eh in Eh'. exact (known_code _ _ _ Hl Hph Eh').
Qed.

Lemma parsing_done E p : Parsing [] E p -> _headersComplete p = true /\ _messageComplete p = true.
Proof.
  intros Hp. destruct (parsing_phase _ _ _ Hp) as [r Er _ _|Er _|_ Ev]; [now destruct r|done|].
  split; [exact (f_equal vhc Ev)|exact (f_equal vmc Ev)].
Qed.

(** EOF completes a message that lasts until EOF. *)
Lemma parse_finish E p :
  Parsing [TFinish] E p ->
  exists p', parseData [] p = Ret (true, p') /\ Parsing [] (E ++ [OnMessageComplete]) p' /\ _body p' = _body p
    /\ _messageComplete p' = true /\ _upgraded p' = _upgraded p.
Proof.
  intros Hp. pose proof Hp as [Ht _ _ _ _ Htl Hr Hs Hc Hb Hv Hk].
  destruct Ht as [[_ Ht]|Ht]; [unfold tokens in Ht; destruct (start m); discriminate Ht|].
  destruct (finish_law _ Ht) as (l & El & Hl).
  destruct (parsing_phase _ _ _ Hp) as [r Er _ _|_ Ev|Er _]; [|clear Hk|discriminate Er].
  { cbn in Er. apply (f_equal length) in Er. rewrite length_app in Er. cbn in Er. lia. }
  pose proof (f_equal vhc Ev) as Eh. cbn in Eh.
  pose proof (head_law _ _ Hl (not_elem_of_nil _)) as Hcode.
  set (q := set_llhttp l (set_messageComplete p)). destruct (noted_view l q) as (N1 & N2 & N3 & N4 & N5 & N6).
  assert (parseData [] p = Ret (true, noted l q)) as Ep.
  { unfold parseData, mbind, ST_bind, get. cbn [length Nat.ltb Nat.leb]. rewrite El. cbn [callbacks callback].
    unfold q, noted. clear -Eh. destruct p as [hs ro]; cbn in *. subst. now destruct ro. }
  exists (noted l q). split; [done|]. split; [|split_and!; [now rewrite N5|exact (f_equal vmc N1)|now rewrite N6]].
  split; try done; try congruence.
  - right. now rewrite N4.
  - now left.
  - now left.
  - intros Hi. now apply elem_of_nil in Hi.
  - intros F Hu0. rewrite N6 in Hu0. destruct (Htl F Hu0) as [pre Ets]. destruct pre as [|? [|? ?]]; discriminate Ets.
  - rewrite N2. exact Hr.
  - rewrite N3. exact Hs.
  - rewrite ctl_app, app_nil_r. exact Hc.
  - rewrite bodies_app, app_nil_r. exact Hb.
  - rewrite applyEvents_app, Hv, N1. done.
  - intros _. now apply noted_code.
Qed.

(** EOF before the end of another message is an error. *)
Lemma parse_eof ts E p :
  Parsing ts E p -> ts <> tokens methodName m -> (TEvent OnHeadersComplete ∈ ts \/ TEvent OnMessageComplete ∈ ts) ->
  parseData [] p = Raise (ECrouton ParseError).
Proof.
  intros Hp Hne Hi. destruct (at_token _ _ _ Hp) as [[_ Ht]|Ht]; [done|].
  destruct (eof_law _ _ Ht Hi) as (c & l & El). unfold parseData, mbind, ST_bind, get. cbn [length Nat.ltb Nat.leb]. now rewrite El.
Qed.

(** * Reading a message from a stream *)

Context {S : Type} {IS : IStream S}.

(** No read of the stream ends inside the start line or a header. *)
Inductive cleanly : S -> list token -> Prop :=
| cleanly_reads s ts :
    (forall a s', readNoCopy kReadSize s = Ret (a, s') -> a <> [] -> feed ts a <> None) ->
    (forall a s' es ts', readNoCopy kReadSize s = Ret (a, s') -> a <> [] -> feed ts a = Some (es, ts', None) -> cleanly s' ts') ->
    cleanly s ts.

(** [ext] follows the message, in another protocol; [taken] is what [readBody] has
    returned. *)
Record Reading (ext taken : bytes) (ts : list token) (E : list event) (h : Http L S) : Prop := {
  r_parsing : Parsing ts E (parser h);
  r_going : _messageComplete (parser h) = false -> readable (io h) /\ cleanly (io h) ts;
  r_content : _upgraded (parser h) = false -> content (io h) = wire ts ++ ext;
  r_body : _upgraded (parser h) = false -> taken ++ _body (parser h) = bodies E;
  r_upgraded : _upgraded (parser h) = true -> _messageComplete (parser h) = true /\ _body (parser h) ++ content (io h) = ext
    /\ framed m = Upgrade
}.

(** One read of a message that is not complete. *)
Lemma read_step ext taken ts E h :
  Reading ext taken ts E h -> _messageComplete (parser h) = false ->
  exists a s' p' ts' E', readNoCopy kReadSize (io h) = Ret (a, s') /\ parseData a (parser h) = Ret (_headersComplete p', p')
    /\ Reading ext taken ts' E' (mkHttp s' p') /\ sent s' = sent (io h) /\ (writable (io h) -> writable s')
    /\ (_headersComplete (parser h) = true -> _headersComplete p' = true)
    /\ (a = [] -> _headersComplete (parser h) = true /\ _messageComplete p' = true)
    /\ (a <> [] -> (length (content s') < length (content (io h)))%nat) /\ (length (content s') <= length (content (io h)))%nat.
Proof.
  intros [Hp Hg Hc Hb Hup] Hmc. destruct (Hg Hmc) as [Hr Hcl].
  assert (_upgraded (parser h) = false) as Hnu by (destruct (_upgraded (parser h)) eqn:Eu; [destruct (Hup eq_refl) as [F _]; now rewrite F in Hmc|done]).
  specialize (Hc Hnu). specialize (Hb Hnu).
  destruct (read_law kReadSize _ Hr) as (a & s' & Er & _ & Ec & Es & Hw & Hnil & Hok); [done|].
  destruct (decide (a = [])) as [->|Ha].
  - specialize (Hnil eq_refl). rewrite Hc in Hnil. apply app_eq_nil in Hnil as [Hw0 ->].
    destruct (at_drained _ _ _ Hp Hw0) as [->| ->].
    { apply parsing_done in Hp as [_ Hp]. congruence. }
    destruct (parse_finish _ _ Hp) as (p' & Ep & Hp' & Eb & Em & Eu).
    destruct (parsing_done _ _ Hp') as [Eh' _].
    exists [], s', p', [], (E ++ [OnMessageComplete]). rewrite Eh'. split; [exact Er|]. split; [exact Ep|].
    split; [|split; [exact Es|split; [exact Hw|split; [done|split; [|split; [intros F; now destruct F|rewrite Ec, length_app; lia]]]]]].
    + split; cbn [parser io]; [exact Hp'|..].
      * intros F. congruence.
      * intros _. rewrite Hc in Ec. symmetry in Ec. now apply app_eq_nil in Ec as [_ ->].
      * intros _. rewrite bodies_app, Eb, Hb. unfold bodies at 3. cbn. now rewrite app_nil_r.
      * congruence.
    + intros _. split; [|done]. destruct (parsing_phase _ _ _ Hp) as [r Er1 _ _|_ Ev|_ Ev]; [|exact (f_equal vhc Ev)..].
      apply (f_equal length) in Er1. rewrite length_app in Er1. cbn in Er1. lia.
  - inversion_clear Hcl as [? ? Hf Hc']. specialize (Hf _ _ Er Ha). destruct (feed ts a) as [[[es ts'] x]|] eqn:Ef; [|done].
    assert (agrees a ts) as Hag by (exists (content s'), ext; now rewrite <- Hc).
    destruct (parse_step _ _ _ _ _ _ _ Hp Ha Hag Ef) as (p' & Ep & Hp' & Eb & Eu & Hk).
    destruct (feed_progress _ _ _ _ _ (at_wf _ _ _ Hp) Hag Ef) as (_ & P2 & _ & P4). unfold leaves in P4.
    exists a, s', p', ts', (E ++ es). split; [exact Er|]. split; [exact Ep|].
    split; [|split; [exact Es|split; [exact Hw|split; [exact Hk|split; [now intros ->|]]]]].
    + split; [exact Hp'| | | |]; cbn [parser io]; rewrite ?Eu.
      * intros Em. destruct x as [e|]; [|split; [now apply Hok|now apply (Hc' a s' es)]].
        exfalso. destruct P4 as [_ ->]. apply parsing_done in Hp' as [_ Hp']. congruence.
      * destruct x; [done|]. intros _. destruct P4 as [P4 _]. rewrite Hc, P4, <- app_assoc in Ec. now apply app_inv_head in Ec.
      * destruct x; [done|]. intros _. now rewrite Eb, bodies_app, <- Hb, app_assoc.
      * destruct x as [e|]; [|congruence]. intros _. destruct P4 as [P4 ->]. split.
        -- now apply parsing_done in Hp' as [_ Hp'].
        -- rewrite Eb. rewrite Hc, P4, <- app_assoc in Ec. apply app_inv_head in Ec. split; [done|].
           apply (at_upgrade _ _ _ Hp). apply (feed_upgrade _ _ _ _ _ Ef). left. eauto.
    + rewrite Ec, length_app. destruct a; [done|cbn; split; [intros _|]; lia].
Qed.

(** The stream was only read. *)
Definition onlyRead (s s' : S) : Prop := sent s' = sent s /\ (writable s -> writable s').

Lemma onlyRead_trans a b c : onlyRead a b -> onlyRead b c -> onlyRead a c.
Proof. intros [E1 H1] [E2 H2]. split; [now rewrite E2|auto]. Qed.

Lemma head_not_complete ts E p : Parsing ts E p -> _headersComplete p = false -> _messageComplete p = false.
Proof.
  intros Hp Eh. destruct (parsing_phase _ _ _ Hp) as [r _ _ ?|_ Ev|_ Ev]; [done| |]; pose proof (f_equal vhc Ev) as F; cbn in F; congruence.
Qed.

Lemma readHeadersLoop_ok ext fuel ts E h :
  Reading ext [] ts E h -> _headersComplete (parser h) = false -> (length (content (io h)) < fuel)%nat ->
  exists h' ts' E', readHeadersLoop fuel h = Ret (tt, h') /\ Reading ext [] ts' E' h' /\ _headersComplete (parser h') = true
    /\ onlyRead (io h) (io h') /\ (length (content (io h')) <= length (content (io h)))%nat.
Proof.
  revert ts E h. induction fuel as [|f IH]; intros ts E h Hr Eh Hl; [lia|]. cbn [readHeadersLoop].
  destruct (read_step _ _ _ _ _ Hr) as (a & s' & p' & ts' & E' & Er & Ep & Hr' & Es & Hw & Hk & Hnil & Hlt & Hle);
    [exact (head_not_complete _ _ _ (r_parsing _ _ _ _ _ Hr) Eh)|].
  destruct (decide (a = [])) as [Ha|Ha]; [destruct (Hnil Ha); congruence|]. specialize (Hlt Ha).
  unfold mbind, ST_bind, onStream, onParser, zoom. rewrite Er. cbn [parser io]. rewrite Ep. cbn [parser io].
  destruct (_headersComplete p') eqn:Eh'.
  - exists (mkHttp s' p'), ts', E'. cbn [io parser]. split; [done|]. split; [done|]. split; [done|]. split; [done|lia].
  - rewrite bool_decide_eq_false_2 by done. destruct (IH _ _ _ Hr') as (h' & ts2 & E2 & E3 & Hr2 & Eh2 & Ho & Hl2); [done|cbn; lia|].
    exists h', ts2, E2. split; [done|]. split; [done|]. split; [done|]. cbn [io] in *. split; [|lia]. now apply (onlyRead_trans _ s').
Qed.

Lemma readHeaders_ok ext fuel s :
  readable s -> content s = wire (tokens methodName m) ++ ext -> cleanly s (tokens methodName m) -> (length (content s) < fuel)%nat ->
  exists h' ts' E', readHeaders fuel (mkHttp s (newParser true role)) = Ret (tt, h') /\ Reading ext [] ts' E' h'
    /\ _headersComplete (parser h') = true /\ onlyRead s (io h') /\ (length (content (io h')) <= length (content s))%nat.
Proof.
  intros Hr Hc Hcl Hl. unfold readHeaders, mbind, ST_bind, gets. cbn [_hasStream parser newParser io assert].
  rewrite (readable_open _ Hr). cbn [negb when]. unfold mret, ST_ret.
  apply (readHeadersLoop_ok ext fuel (tokens methodName m) [] (mkHttp s (newParser true role))); [|done|done].
  split; cbn [parser io newParser _messageComplete _upgraded _body]; try done. apply parsing_start.
Qed.

(** A message that changes the protocol is complete with its head. *)
Lemma head_upgraded ext taken ts E h :
  Reading ext taken ts E h -> framed m = Upgrade -> _headersComplete (parser h) = true -> _upgraded (parser h) = true.
Proof.
  intros Hr Hfr Eh. destruct (_upgraded (parser h)) eqn:Eu; [done|]. pose proof (r_parsing _ _ _ _ _ Hr) as Hp.
  destruct (at_tail _ _ _ Hp Hfr Eu) as [pre Ets]. destruct (parsing_phase _ _ _ Hp) as [r _ F _|Er _|Er _]; [congruence| |];
    rewrite Ets, events_app, ctl_app in Er; apply (f_equal length) in Er; rewrite length_app in Er; cbn in Er; lia.
Qed.

Lemma readBodyLoop_ok ext taken fuel ts E h :
  Reading ext taken ts E h -> (length (content (io h)) < fuel)%nat ->
  exists h' ts' E', readBodyLoop fuel h = Ret (tt, h') /\ Reading ext taken ts' E' h' /\ onlyRead (io h) (io h')
    /\ (_headersComplete (parser h) = true -> _headersComplete (parser h') = true)
    /\ (complete (parser h') = true \/ _body (parser h') <> [])
    /\ (h' = h \/ complete (parser h') = true \/ (length (content (io h')) < length (content (io h)))%nat)
    /\ (length (content (io h')) <= length (content (io h)))%nat.
Proof.
  revert ts E h. induction fuel as [|f IH]; intros ts E h Hr Hl; [lia|]. cbn [readBodyLoop]. unfold mbind at 1, ST_bind, gets at 1.
  destruct (bool_decide (_body (parser h) = []) && negb (complete (parser h))) eqn:Ec.
  2: { exists h, ts, E. unfold mret, ST_ret. apply andb_false_iff in Ec. split_and!; try done; [|by left].
       destruct Ec as [Ec|Ec]; [right; now apply bool_decide_eq_false in Ec|left; now apply negb_false_iff in Ec]. }
  bool_to_prop. destruct (read_step _ _ _ _ _ Hr) as (a & s' & p' & ts' & E' & Er & Ep & Hr' & Es & Hw & Hk & Hnil & Hlt & Hle); [done|].
  unfold mbind, ST_bind, onStream, onParser, zoom, gets. rewrite Er. cbn [parser io]. rewrite Ep. cbn [parser io].
  destruct (decide (a = [])) as [Ha|Ha].
  - destruct (Hnil Ha) as [Eh Em]. unfold complete at 1. rewrite Em, andb_false_r. exists (mkHttp s' p'), ts', E'. cbn [parser io].
    assert (readBodyLoop f (mkHttp s' p') = Ret (tt, mkHttp s' p')) as ->.
    { destruct f; cbn [readBodyLoop]; unfold mbind, ST_bind, gets; cbn [parser]; unfold complete; now rewrite Em, andb_false_r. }
    split; [done|]. split; [done|]. split; [done|]. split; [done|]. split; [now left|]. split; [right; now left|done].
  - rewrite (bool_decide_eq_false_2 (a = [])) by done. cbn [andb]. specialize (Hlt Ha).
    destruct (IH _ _ _ Hr') as (h' & ts2 & E2 & E3 & Hr2 & Ho & Hk2 & Hb2 & Hm2 & Hle2); [cbn; lia|]. cbn [io parser] in *.
    exists h', ts2, E2. split; [done|]. split; [done|]. split; [now apply (onlyRead_trans _ s')|]. split; [auto|]. split; [done|].
    split; [|lia]. destruct Hm2 as [->|[Hm2|Hm2]]; right; [right|now left|right]; cbn; lia.
Qed.

Lemma Reading_take ext taken ts E h :
  Reading ext taken ts E h -> _upgraded (parser h) = false ->
  Reading ext (taken ++ _body (parser h)) ts E (mkHttp (io h) (set_body [] (parser h))).
Proof.
  intros [Hp Hg Hc Hb Hup] Hu0. split; cbn [parser io set_body _body _upgraded _messageComplete].
  - destruct Hp. now split.
  - exact Hg.
  - exact Hc.
  - intros _. rewrite app_nil_r. auto.
  - congruence.
Qed.

Lemma not_upgraded ext taken ts E h : Reading ext taken ts E h -> framed m <> Upgrade -> _upgraded (parser h) = false.
Proof. intros Hr Hf. destruct (_upgraded (parser h)) eqn:Eu; [|done]. now destruct (r_upgraded _ _ _ _ _ Hr Eu) as (_ & _ & ?). Qed.

Lemma body_complete ext taken ts E h :
  Reading ext taken ts E h -> framed m <> Upgrade -> complete (parser h) = true -> taken ++ _body (parser h) = bodyOf (framed m).
Proof.
  intros Hr Hf Ec. rewrite (r_body _ _ _ _ _ Hr (not_upgraded _ _ _ _ _ Hr Hf)). pose proof (r_parsing _ _ _ _ _ Hr) as Hp.
  rewrite <- (at_bodies _ _ _ Hp). assert (events ts = []) as ->; [|unfold bodies at 3; cbn; now rewrite app_nil_r].
  destruct (at_last _ _ _ Hp) as [?|Hl]; [done|]. apply last_Some in Hl as [es Hl].
  destruct (parsing_phase _ _ _ Hp) as [r _ _ Em|_ Ev|Er _]; [unfold complete in Ec; congruence|pose proof (f_equal vmc Ev) as F; cbn in F; unfold complete in Ec; congruence|].
  rewrite Hl, ctl_app in Er. now apply app_eq_nil in Er as [_ Er].
Qed.

Lemma readBody_ok ext taken fuel ts E h :
  Reading ext taken ts E h -> framed m <> Upgrade -> (length (content (io h)) < fuel)%nat ->
  exists h' ts' E' b, readBody fuel h = Ret (b, h') /\ Reading ext (taken ++ b) ts' E' h' /\ _body (parser h') = [] /\ onlyRead (io h) (io h')
    /\ (_headersComplete (parser h) = true -> _headersComplete (parser h') = true)
    /\ (b = [] -> complete (parser h') = true /\ taken = bodyOf (framed m))
    /\ (complete (parser h') = true \/ (length (content (io h')) < length (content (io h)))%nat
         \/ _body (parser h) <> [] /\ length (content (io h')) = length (content (io h)))
    /\ (length (content (io h')) <= length (content (io h)))%nat.
Proof.
  intros Hr Hf Hl. unfold readBody, mbind, ST_bind, gets. rewrite (at_stream _ _ _ (r_parsing _ _ _ _ _ Hr)). cbn [assert].
  destruct (readBodyLoop_ok _ _ _ _ _ _ Hr Hl) as (h' & ts' & E' & -> & Hr' & Ho & Hk & Hb & Hm' & Hle'). unfold onParser, zoom, takeBody.
  pose proof (not_upgraded _ _ _ _ _ Hr' Hf) as Hnu. exists (mkHttp (io h') (set_body [] (parser h'))), ts', E', (_body (parser h')).
  cbn [io parser set_body _body _headersComplete complete _messageComplete]. split; [done|]. split; [now apply Reading_take|].
  split; [done|]. split; [done|]. split; [done|]. split.
  - intros Eb. destruct Hb as [Hb|Hb]; [|done]. split; [done|]. pose proof (body_complete _ _ _ _ _ Hr' Hf Hb) as F. now rewrite Eb, app_nil_r in F.
  - split; [|done]. destruct Hm' as [->|[?|?]]; [|now left|right; now left]. destruct Hb as [?|?]; [now left|right; right; done].
Qed.

(** [entireBody] from a message that is not complete yet. *)
Lemma entireBodyLoop_ok taken fuel ts E h :
  Reading [] taken ts E h -> framed m <> Upgrade -> (complete (parser h) = true -> _body (parser h) = []) ->
  (length (content (io h)) + (if bool_decide (_body (parser h) = []) then 0 else 1) < fuel)%nat ->
  exists h' ts' E', entireBodyLoop fuel taken h = Ret (bodyOf (framed m), h') /\ onlyRead (io h) (io h')
    /\ Reading [] (bodyOf (framed m)) ts' E' h' /\ complete (parser h') = true
    /\ (_headersComplete (parser h) = true -> _headersComplete (parser h') = true).
Proof.
  revert taken ts E h. induction fuel as [|f IH]; intros taken ts E h Hr Hfr Hce Hl; [lia|].
  cbn [entireBodyLoop]. unfold mbind at 1, ST_bind, gets at 1. destruct (complete (parser h)) eqn:Ec.
  - pose proof (body_complete _ _ _ _ _ Hr Hfr Ec) as Eb. rewrite (Hce eq_refl), app_nil_r in Eb. subst taken. exists h, ts, E. now split_and!.
  - destruct (readBody_ok _ _ (Datatypes.S f) _ _ _ Hr Hfr) as (h1 & ts1 & E1 & b & E2 & Hr1 & Eb1 & Ho1 & Hk1 & _ & Hm1 & _); [lia|].
    unfold mbind, ST_bind. rewrite E2. destruct (complete (parser h1)) eqn:Ec1.
    + pose proof (body_complete _ _ _ _ _ Hr1 Hfr Ec1) as Eb. rewrite Eb1, app_nil_r in Eb. rewrite <- Eb.
      exists h1, ts1, E1. split; [|by split_and!]. destruct f; cbn [entireBodyLoop]; unfold mbind, ST_bind, gets; now rewrite Ec1.
    + destruct (IH _ _ _ _ Hr1 Hfr) as (h2 & ts2 & E3 & -> & Ho2 & Hr2 & Hc2 & Hk2); [done| |].
      * rewrite bool_decide_eq_true_2 by done. destruct Hm1 as [Hm1|[Hm1|[Hm1 Hm2]]]; [congruence|lia|].
        rewrite (bool_decide_eq_false_2 _ Hm1) in Hl. lia.
      * exists h2, ts2, E3. split_and!; try done; [apply (onlyRead_trans _ (io h1)); assumption|auto].
Qed.

(** What the parser tells of the message once its head is read. *)
Definition tells (p : Parser L) : Prop :=
  requestURI p = u /\ headers p = addFields (fields m) ∅ /\ codeOf p
  /\ statusMessage p = match start m with ReqLine _ _ => [] | StatusLine _ r => r end.

Lemma parsing_tells ts E p : Parsing ts E p -> _headersComplete p = true -> tells p.
Proof.
  intros Hp Eh. pose proof (at_code _ _ _ Hp Eh) as Hk.
  destruct (parsing_phase _ _ _ Hp) as [r _ F _|_ Ev|_ Ev]; [congruence| |];
    (split_and!; [exact (f_equal vuri Ev)|exact (f_equal vheaders Ev)|exact Hk|exact (f_equal vmsg Ev)]).
Qed.

End parsing.

(** * Correctness *)

Lemma http_headers_get fs n : Headers.get n (addFields fs ∅) = default [] (fieldValue n fs).
Proof. unfold Headers.get. now rewrite addFields_lookup. Qed.

(** Headers.  The parser's map of headers gives for a name, in any case, the values of
    the fields with that name in any case, in order, joined with commas; the canonical
    names are a fixed point; and setting a header replaces that header only. *)
Theorem http_headers_fields fs n n' v :
  Headers.get n (addFields fs ∅) = default [] (fieldValue n fs)
  /\ (equalIgnoringCase n n' = true -> Headers.get n' (addFields fs ∅) = Headers.get n (addFields fs ∅))
  /\ canonicalName (canonicalName n) = canonicalName n
  /\ Headers.get n' (Headers.set n v (addFields fs ∅))
     = if equalIgnoringCase n n' then v else Headers.get n' (addFields fs ∅).
Proof.
  unfold Headers.get, Headers.set. split_and!.
  - apply http_headers_get.
  - intros E. apply canonicalName_case in E. now rewrite E.
  - apply canonicalName_idemp.
  - destruct (equalIgnoringCase n n') eqn:E.
    + apply canonicalName_case in E. now rewrite E, lookup_insert_eq.
    + rewrite lookup_insert_ne; [done|]. intros F. apply canonicalName_case in F. congruence.
Qed.

(** Nothing is read once the message is complete. *)
Lemma entireBody_complete {L : Type} {HL : LLHTTP L} {S : Type} {IS : IStream S} fuel (h : Http L S) :
  complete (parser h) = true -> entireBody fuel h = Ret ([], h).
Proof. intros E. unfold entireBody. destruct fuel; cbn [entireBodyLoop]; unfold mbind, ST_bind, gets; now rewrite E. Qed.

Lemma message_read {L : Type} {HL : LLHTTP L} {methodName : Z -> bytes} {S : Type} {IS : IStream S}
    (role : Role) (m : message) {HW : LLHTTPLaws L methodName role m} (u : option URLRef) (s : S) (fuel : nat) :
  messageOk role m = true -> uriParsed m u -> framed m <> Upgrade ->
  readable s -> content s = wire (tokens methodName m) -> cleanly s (tokens methodName m) ->
  (length (content s) + 1 < fuel)%nat ->
  exists h : Http L S, readHeaders fuel (mkHttp s (newParser true role)) = Ret (tt, h)
    /\ requestURI (parser h) = u /\ codeOf m (parser h)
    /\ statusMessage (parser h) = match start m with ReqLine _ _ => [] | StatusLine _ r => r end
    /\ (forall n, Headers.get n (headers (parser h)) = default [] (fieldValue n (fields m)))
    /\ if complete (parser h)
       then entireBody fuel h = Ret ([], h) /\ exists p, latestBodyData (parser h) = Ret (bodyOf (framed m), p)
       else exists h', entireBody fuel h = Ret (bodyOf (framed m), h') /\ complete (parser h') = true.
Proof.
  intros Hm Hu Hf Hr Hc Hcl Hl.
  destruct (readHeaders_ok role m u Hm Hu [] fuel s) as (h & ts & E & Er & Hrd & Eh & _ & Hle); [done|now rewrite app_nil_r|done|lia|].
  destruct (parsing_tells role m u Hm Hu _ _ _ (r_parsing _ _ _ _ _ _ _ Hrd) Eh) as (T1 & T2 & T3 & T4). exists h. split; [done|].
  split; [done|]. split; [done|]. split; [done|]. split; [intros n; rewrite T2; apply http_headers_get|].
  destruct (complete (parser h)) eqn:Ec.
  - split; [now apply entireBody_complete|]. eexists. unfold latestBodyData, takeBody. now rewrite <- (body_complete role m u Hm Hu _ _ _ _ _ Hrd Hf Ec).
  - destruct (entireBodyLoop_ok role m u Hm Hu [] fuel _ _ _ Hrd Hf) as (h' & ts' & E' & Eb & _ & _ & Ec' & _).
    + congruence.
    + case_bool_decide; lia.
    + eauto.
Qed.

(** C29: the parser reads the message.  Whatever stream delivers a well-formed message (not one that asks for an
    upgrade) and however it cuts it, as long as no read ends inside the start line or a header, [readHeaders]
    returns with the message's method or status, URI, reason and header fields.  If the message was not complete
    then, [entireBody] returns exactly its body (sized, chunked or until EOF).  If it was, the body is what
    [latestBodyData] returns, and [entireBody] returns nothing. *)
Theorem http_parser_reads {L : Type} {HL : LLHTTP L} {methodName : Z -> bytes} {S : Type} {IS : IStream S}
    (role : Role) (m : message) {HW : LLHTTPLaws L methodName role m} (u : option URLRef) (s : S) (fuel : nat) :
  messageOk role m = true -> uriParsed m u -> framed m <> Upgrade ->
  readable s -> content s = wire (tokens methodName m) -> cleanly s (tokens methodName m) ->
  (length (content s) + 1 < fuel)%nat ->
  exists h : Http L S, readHeaders fuel (mkHttp s (newParser true role)) = Ret (tt, h)
    /\ requestURI (parser h) = u /\ codeOf m (parser h)
    /\ statusMessage (parser h) = match start m with ReqLine _ _ => [] | StatusLine _ r => r end
    /\ (forall n, Headers.get n (headers (parser h)) = default [] (fieldValue n (fields m)))
    /\ if complete (parser h)
       then entireBody fuel h = Ret ([], h) /\ exists p, latestBodyData (parser h) = Ret (bodyOf (framed m), p)
       else exists h', entireBody fuel h = Ret (bodyOf (framed m), h') /\ complete (parser h') = true.
Proof. exact (message_read role m u s fuel). Qed.

(** * Examples *)

(** A parser that knows what it will be given: it shows that the laws can hold. *)
Module Oracle.
Section oracle.
Context (methodName : Z -> bytes) (request response : message).

Definition expected (role : Role) : message := match role with RoleRequest => request | RoleResponse => response end.

Record t := mk { ro : Role; toks : list token; pos : nat; up : bool }.

#[global] Instance parser : LLHTTP t := {
  llhttp_init role := mk role (tokens methodName (expected role)) 0 false;
  llhttp_execute l a :=
    match feed (toks l) a with
    | Some (es, ts, None) => (es, HPE_OK, mk (ro l) ts (length a) false)
    | Some (es, ts, Some x) => (es, HPE_PAUSED_UPGRADE, mk (ro l) ts (length a - length x) true)
    | None => ([], HPE_error 1, l)
    end;
  llhttp_finish l :=
    match toks l with
    | [] => ([], HPE_OK, l)
    | [TFinish] => ([OnMessageComplete], HPE_OK, mk (ro l) [] 0 false)
    | _ => ([], HPE_error 14, l)
    end;
  llhttp_get_method l := match start (expected (ro l)) with ReqLine k _ => k | StatusLine _ _ => 0 end;
  llhttp_get_status_code l := match start (expected (ro l)) with ReqLine _ _ => 0 | StatusLine c _ => c end;
  llhttp_get_upgrade := up;
  llhttp_get_error_pos := pos
}.

#[global] Instance laws role : LLHTTPLaws t methodName role (expected role).
Proof.
  assert (forall l ts a f, (ro l = role /\ toks l = ts) -> feed ts a = Some f ->
    exists l', llhttp_execute l a = (f.1.1, match f.2 with Some _ => HPE_PAUSED_UPGRADE | None => HPE_OK end, l')
      /\ (ro l' = role /\ toks l' = f.1.2)
      /\ forall x, f.2 = Some x -> llhttp_get_upgrade l' = true /\ llhttp_get_error_pos l' = (length a - length x)%nat) as Hx.
  { intros l ts a [[es ts'] x] [<- <-] Ef. cbn [llhttp_execute parser]. rewrite Ef. destruct x as [x|]; eexists; (split; [reflexivity|]); cbn.
    - split; [done|]. now intros ? [= <-].
    - split; [done|]. discriminate. }
  refine {| awaits l ts := ro l = role /\ toks l = ts |}.
  - intros a f _ Ef. now apply (Hx _ (tokens methodName (expected role))).
  - intros l ts a f Hl _ Ef. now apply (Hx _ ts).
  - intros l [Er El]. cbn. rewrite El. eauto.
  - intros l ts [Er El] Hi. cbn. rewrite El. exists 14, l. destruct ts as [|t ts]; [exfalso; destruct Hi as [Hi|Hi]; now apply elem_of_nil in Hi|].
    destruct t; try done. destruct ts; [|done]. exfalso. destruct Hi as [Hi|Hi]; apply list_elem_of_singleton in Hi; discriminate Hi.
  - intros l ts [Er El] _. destruct role; cbn; rewrite Er; cbn; now destruct (start _).
Defined.

End oracle.
End Oracle.

(** Where the pieces of a stream end. *)
Fixpoint cleanPieces (ps : list bytes) (ts : list token) : bool :=
  match ps with
  | [] => true
  | a :: r =>
      match feed ts a with
      | Some (_, ts', None) => cleanPieces r ts'
      | Some (_, _, Some _) => true
      | None => false
      end
  end.

Lemma cleanPieces_ok ps o ts :
  Forall (fun a : bytes => a <> [] /\ Z.of_nat (length a) <= kReadSize) ps -> cleanPieces ps ts = true ->
  cleanly (Chunks.mk ps o) ts.
Proof.
  intros Hps. revert ts. induction Hps as [|a r [Ha Hl] Hr IH]; intros ts E; constructor; cbn -[kReadSize].
  - intros a s' [= <- <-]. done.
  - intros a s' es ts' [= <- <-]. done.
  - intros b s' [= <- <-] _. rewrite take_ge by lia. cbn in E. now destruct (feed ts a).
  - intros b s' es ts' [= <- <-] _ Ef. rewrite take_ge in Ef by lia. unfold Chunks.pull. rewrite drop_ge by lia.
    apply IH. cbn in E. now rewrite Ef in E.
Qed.

Definition methodNames (k : Z) : bytes := nth (Z.to_nat k) (map lit ["DELETE"; "GET"; "HEAD"; "POST"; "PUT"; "CONNECT"; "OPTIONS"]%string) [].

Definition samplePost : message :=
  mkMsg (ReqLine 3 (lit "/echo?q=1")) [(lit "Host", lit "x"); (lit "accept", lit "a"); (lit "Content-Length", lit "5"); (lit "ACCEPT", lit "b")]
    (Length (lit "hello")).

Definition sampleReply : message :=
  mkMsg (StatusLine 200 (lit "OK")) [(lit "Transfer-Encoding", lit "chunked")] (Chunked [lit "wor"; lit "ld"]).

Definition sampleURI : URLRef := mkURL [] [] 0 (lit "/echo") (lit "q=1").

Definition sampleWire (role : Role) : bytes := wire (tokens methodNames (Oracle.expected samplePost sampleReply role)).

(** The request cut after its first line and inside its body. *)
Definition samplePieces : list bytes :=
  [take 25 (sampleWire RoleRequest); take 54 (drop 25 (sampleWire RoleRequest)); drop 79 (sampleWire RoleRequest)].

Lemma http_parser_reads_witness :
  exists h h', readHeaders (L := Oracle.t) (HL := Oracle.parser methodNames samplePost sampleReply) 100
                 (mkHttp (Chunks.mk samplePieces []) (newParser (HL := Oracle.parser methodNames samplePost sampleReply) true RoleRequest)) = Ret (tt, h)
    /\ requestMethod (parser h) = Some 3 /\ requestURI (parser h) = Some sampleURI
    /\ Headers.get (lit "Accept") (headers (parser h)) = lit "a, b"
    /\ entireBody (L := Oracle.t) (HL := Oracle.parser methodNames samplePost sampleReply) 100 h = Ret (lit "hello", h').
Proof.
  destruct (http_parser_reads (L := Oracle.t) (HL := Oracle.parser methodNames samplePost sampleReply) (methodName := methodNames)
              (HW := Oracle.laws methodNames samplePost sampleReply RoleRequest)
              RoleRequest samplePost (Some sampleURI) (Chunks.mk samplePieces []) 100) as (h & E & Hu & Hk & _ & Hh & Hb).
  - vm_compute. reflexivity.
  - exists sampleURI. split; vm_compute; reflexivity.
  - discriminate.
  - repeat constructor; discriminate.
  - vm_compute. reflexivity.
  - apply cleanPieces_ok; [|vm_compute; reflexivity]. repeat (constructor; [split; [discriminate|vm_compute; discriminate]|]). constructor.
  - vm_compute. lia.
  - exists h. assert (complete (parser h) = false) as Ec.
    { revert E. vm_compute. intros [= <-]. reflexivity. }
    rewrite Ec in Hb. destruct Hb as (h' & Eb & _). exists h'. split; [exact E|]. split; [exact Hk|]. split; [exact Hu|].
    split; [|exact Eb]. rewrite Hh. vm_compute. reflexivity.
Defined.

(** A request whose last byte arrives with its headers is complete before [entireBody] is
    called, which then returns an empty string instead of the body. *)
Theorem http_body_lost {L : Type} {HL : LLHTTP L} {S : Type} {IS : IStream S} fuel (h : Http L S) :
  complete (parser h) = true -> entireBody fuel h = Ret ([], h).
Proof. apply entireBody_complete. Qed.

Example http_body_lost_post :
  exists h, readHeaders (L := Oracle.t) (HL := Oracle.parser methodNames samplePost sampleReply) 100
              (mkHttp (Chunks.mk [sampleWire RoleRequest] []) (newParser (HL := Oracle.parser methodNames samplePost sampleReply) true RoleRequest)) = Ret (tt, h)
    /\ bodyOf (framed samplePost) = lit "hello"
    /\ entireBody (L := Oracle.t) (HL := Oracle.parser methodNames samplePost sampleReply) 100 h = Ret ([], h).
Proof. eexists. split; [vm_compute; reflexivity|]. split; [reflexivity|]. vm_compute. reflexivity. Qed.

(** A header value that llhttp hands over in two pieces, as it does when a read ends
    inside it, aborts the process. *)
Theorem http_split_value_aborts {L : Type} {HL : LLHTTP L} (p : Parser L) n a b :
  n <> [] -> callbacks [OnHeaderField n; OnHeaderValue a; OnHeaderValue b] p = Fault AssertFailed.
Proof.
  intros Hn. rewrite callbacks_view. cbn [applyEvents applyEvent mbind outcome_bind vname].
  rewrite bool_decide_eq_false_2 by done. cbn [mbind outcome_bind vname]. now rewrite bool_decide_eq_true_2.
Qed.

(** When a read ends inside a header's name, only the end of the name is kept. *)
Theorem http_split_name_truncated {L : Type} {HL : LLHTTP L} (p : Parser L) a b v :
  b <> [] ->
  exists p', callbacks [OnHeaderField a; OnHeaderField b; OnHeaderValue v] p = Ret (tt, p') /\ headers p' = Headers.add b v (headers p).
Proof.
  intros Hb. eexists. rewrite callbacks_view. cbn [applyEvents applyEvent mbind outcome_bind vname].
  rewrite bool_decide_eq_false_2 by done. cbn [mbind outcome_bind vname]. split; reflexivity.
Qed.
