(* ===== verification/HttpServer.v ===== *)
(** The HTTP server ([src/io/HTTPHandler.cc], [include/crouton/io/HTTPHandler.hh]): a
    [Handler] reads one request, calls the handler of the first route that matches, writes
    the response and closes the stream.

    Outside are [std::regex] (a route's pattern is the predicate it matches), the names
    llhttp has for the status codes, and the order in which an [unordered_map] is
    iterated. *)

From S2P Require Import Prelude StringUtils Numerals URL IStream HttpParser.

Local Open Scope Z_scope.

(** [IStream::close]. *)
Class Closing (S : Type) {IS : IStream S} := {
  close : ST S unit;
  isClosed : S -> bool;
  close_law s : exists s', close s = Ret (tt, s') /\ sent s' = sent s /\ isClosed s' = true
}.

Definition Status_SwitchingProtocols : Z := 101.
Definition Status_OK : Z := 200.
Definition Status_BadRequest : Z := 400.
Definition Status_NotFound : Z := 404.
Definition Status_MethodNotAllowed : Z := 405.

(** [Handler::Request] *)
Record Request := mkRequest { method : Z; uri : URLRef; rheaders : Headers; body : bytes }.

(** [Handler::Response] *)
Record Response := mkResponse {
  rstatus : Z;
  rstatusMessage : bytes;
  _headers : Headers;
  _sentHeaders : bool
}.

Definition newResponse (h : Headers) : Response := mkResponse Status_OK [] h false.

Section server.
Context {L : Type} {HL : LLHTTP L} {S : Type} {IS : IStream S} {CS : Closing S}.
(** [llhttp_status_name] and the iteration of a map *)
Context (statusName : Z -> bytes) (order : Headers -> list (bytes * bytes)).

(** The handler and the response its handler function works on. *)
Record Handler := mkHandler { http : Http L S; response : Response }.

Definition onHttp {A} (m : ST (Http L S) A) : ST Handler A := zoom http (fun h k => mkHandler h (response k)) m.

Definition HandlerFunction : Type := Request -> ST Handler unit.

Record Route := mkRoute { rmethod : Z; pathPattern : bytes -> bool; handler : HandlerFunction }.

Definition headerLines (h : Headers) : bytes := concat (map (fun f => f.1 ++ lit ": " ++ f.2 ++ CRLF) (order h)).

Definition writeHeaders (st : Z) (statusMsg : bytes) (h : Headers) : ST Handler unit :=
  let msg := if bool_decide (statusMsg = []) then statusName st else statusMsg in
  onHttp (onStream (writeString (lit "HTTP/1.1 " ++ to_string st ++ lit " " ++ msg ++ CRLF ++ headerLines h ++ CRLF))).

Definition handlerWriteToBody (str : bytes) : ST Handler unit := onHttp (onStream (writeString str)).

Definition endBody : ST Handler unit := onHttp (onStream close).

(** ** Response *)

Definition setStatus (st : Z) : ST Handler unit :=
  modify (fun k => mkHandler (http k) (mkResponse st (rstatusMessage (response k)) (_headers (response k)) (_sentHeaders (response k)))).

Definition setStatusMessage (b : bytes) : ST Handler unit :=
  modify (fun k => mkHandler (http k) (mkResponse (rstatus (response k)) b (_headers (response k)) (_sentHeaders (response k)))).

Definition writeHeader (name value : bytes) : ST Handler unit :=
  sh ← gets (fun k => _sentHeaders (response k));
  _ ← assert (negb sh);
  modify (fun k => mkHandler (http k) (mkResponse (rstatus (response k)) (rstatusMessage (response k))
                                         (Headers.set name value (_headers (response k))) (_sentHeaders (response k)))).

Definition finishHeaders : ST Handler unit :=
  r ← gets response;
  _ ← when (negb (_sentHeaders r)) (writeHeaders (rstatus r) (rstatusMessage r) (_headers r));
  modify (fun k => mkHandler (http k) (mkResponse (rstatus (response k)) (rstatusMessage (response k)) (_headers (response k)) true)).

Definition writeToBody (str : bytes) : ST Handler unit :=
  _ ← finishHeaders;
  handlerWriteToBody str.

(** The stream itself is [io (http k)]. *)
Definition rawStream : ST Handler unit := finishHeaders.

(** ** Handling a request *)

(** [std::optional::value] *)
Definition optValue {A} (o : option A) : ST Handler A :=
  match o with Some a => mret a | None => throw (ECpp 17) end.

Definition handleRequest (fuel : nat) (responseHeaders : Headers) (h : HandlerFunction) : ST Handler unit :=
  b ← onHttp (entireBody fuel);
  p ← gets (fun k => parser (http k));
  u ← optValue (requestURI p);
  _ ← modify (fun k => mkHandler (http k) (newResponse responseHeaders));
  _ ← h (mkRequest (default 0 (requestMethod p)) u (headers p) b);
  _ ← finishHeaders;
  endBody.

Fixpoint tryRoutes (fuel : nat) (responseHeaders : Headers) (st : Z) (path : bytes) (rs : list Route) : ST Handler unit :=
  match rs with
  | [] => _ ← writeHeaders st [] responseHeaders; endBody
  | route :: r =>
      p ← gets (fun k => parser (http k));
      if bool_decide (Some (rmethod route) = requestMethod p) then
        if pathPattern route path then handleRequest fuel responseHeaders (handler route)
        else tryRoutes fuel responseHeaders Status_NotFound path r
      else tryRoutes fuel responseHeaders st path r
  end.

Definition defaultHeaders : Headers :=
  Headers.set (lit "Connection") (lit "close") (Headers.set (lit "User-Agent") (lit "Crouton") ∅).

Definition run (fuel : nat) (routes : list Route) : ST Handler unit :=
  _ ← onHttp (readHeaders fuel);
  p ← gets (fun k => parser (http k));
  u ← optValue (requestURI p);
  tryRoutes fuel defaultHeaders Status_MethodNotAllowed (path u) routes.

(** The handler of a new connection. *)
Definition newHandler (s : S) : Handler := mkHandler (mkHttp s (newParser true RoleRequest)) (newResponse ∅).

(** * What a handler function does with its response *)

Inductive rop := RStatus (st : Z) | RMessage (b : bytes) | RHeader (n v : bytes) | RBody (b : bytes).

Definition runRop (o : rop) : ST Handler unit :=
  match o with
  | RStatus st => setStatus st
  | RMessage b => setStatusMessage b
  | RHeader n v => writeHeader n v
  | RBody b => writeToBody b
  end.

Fixpoint runRops (os : list rop) : ST Handler unit :=
  match os with [] => mret tt | o :: r => _ ← runRop o; runRops r end.

(** The head that is sent: what the response is when the body starts, or at the end. *)
Fixpoint responseHead (os : list rop) (st : Z) (msg : bytes) (h : Headers) : Z * bytes * Headers :=
  match os with
  | RStatus st' :: r => responseHead r st' msg h
  | RMessage msg' :: r => responseHead r st msg' h
  | RHeader n v :: r => responseHead r st msg (Headers.set n v h)
  | _ => (st, msg, h)
  end.

Definition bodyWrites (os : list rop) : bytes := concat (map (fun o => match o with RBody b => b | _ => [] end) os).

(** Headers come before the body. *)
Fixpoint ropsOk (started : bool) (os : list rop) : bool :=
  match os with
  | [] => true
  | RHeader _ _ :: r => negb started && ropsOk started r
  | RBody _ :: r => ropsOk true r
  | _ :: r => ropsOk started r
  end.

Definition headBytes (x : Z * bytes * Headers) : bytes :=
  let '(st, msg, h) := x in
  lit "HTTP/1.1 " ++ to_string st ++ lit " " ++ (if bool_decide (msg = []) then statusName st else msg) ++ CRLF ++ headerLines h ++ CRLF.

(** A route whose handler function runs a program on the response. *)
Record served := mkServed { smethod : Z; spattern : bytes -> bool; sprog : Request -> list rop }.

Definition toRoute (r : served) : Route := mkRoute (smethod r) (spattern r) (fun q => runRops (sprog r q)).

(** The first route that has the method and matches the path. *)
Definition matching (k : Z) (path : bytes) (rs : list served) : option served :=
  List.find (fun r => (smethod r =? k) && spattern r path) rs.

Definition missStatus (k : Z) (rs : list served) (st : Z) : Z :=
  if existsb (fun r => smethod r =? k) rs then Status_NotFound else st.

(** What is sent in answer to a request. *)
Definition answer (rs : list served) (st : Z) (hs : Headers) (q : Request) : bytes :=
  match matching (method q) (path (uri q)) rs with
  | None => headBytes (missStatus (method q) rs st, [], hs)
  | Some r => headBytes (responseHead (sprog r q) Status_OK [] hs) ++ bodyWrites (sprog r q)
  end.

(** * Lemmas *)

Definition streamOf (k : Handler) : S := io (http k).

(** [k'] has written [b] and nothing else has changed, the response apart. *)
Definition wrote (b : bytes) (k k' : Handler) : Prop :=
  parser (http k') = parser (http k) /\ sent (streamOf k') = sent (streamOf k) ++ b /\ writable (streamOf k').

Lemma write_ok b k : writable (streamOf k) ->
  exists k', onHttp (onStream (writeString b)) k = Ret (tt, k') /\ wrote b k k' /\ response k' = response k.
Proof.
  intros Hw. destruct (write_law b _ Hw) as (s' & E & _ & Es & _ & Hw').
  unfold onHttp, onStream, zoom, writeString. unfold streamOf in E. rewrite E. eexists. split; [reflexivity|]. now split.
Qed.

Lemma finishHeaders_ok k : writable (streamOf k) ->
  exists k', finishHeaders k = Ret (tt, k')
    /\ wrote (if _sentHeaders (response k) then []
              else headBytes (rstatus (response k), rstatusMessage (response k), _headers (response k))) k k'
    /\ _sentHeaders (response k') = true.
Proof.
  intros Hw. unfold finishHeaders, mbind, ST_bind, gets, when. destruct (_sentHeaders (response k)); cbn [negb].
  - eexists. split; [reflexivity|]. split; [|done]. split_and!; [done| |done]. now rewrite app_nil_r.
  - unfold writeHeaders. cbn [headBytes]. set (b := lit "HTTP/1.1 " ++ _). destruct (write_ok b k Hw) as (k1 & E & H1 & _).
    rewrite E. unfold modify. eexists. split; [reflexivity|]. split; [exact H1|done].
Qed.

Lemma wrote_trans a b k1 k2 k3 : wrote a k1 k2 -> wrote b k2 k3 -> wrote (a ++ b) k1 k3.
Proof. intros (E1 & E2 & _) (E3 & E4 & Hw). split_and!; [congruence| |done]. now rewrite E4, E2, app_assoc. Qed.

(** The head is sent once, before the body. *)
Lemma response_runs os k :
  writable (streamOf k) -> ropsOk (_sentHeaders (response k)) os = true ->
  exists k1 k2, runRops os k = Ret (tt, k1) /\ finishHeaders k1 = Ret (tt, k2)
    /\ wrote ((if _sentHeaders (response k) then []
               else headBytes (responseHead os (rstatus (response k)) (rstatusMessage (response k)) (_headers (response k)))) ++ bodyWrites os) k k2.
Proof.
  revert k. induction os as [|o os IH]; intros k Hw Hok.
  - destruct (finishHeaders_ok k Hw) as (k2 & E & H2 & _). exists k, k2. split; [done|]. split; [done|].
    cbn [responseHead]. unfold bodyWrites. cbn. rewrite app_nil_r. exact H2.
  - unfold runRops; fold runRops. unfold mbind, ST_bind.
    destruct o as [st|b|n v|b]; cbn [runRop ropsOk responseHead] in *; unfold bodyWrites; cbn [map concat app]; fold (bodyWrites os).
    + apply (IH (mkHandler (http k) (mkResponse st _ _ _)) Hw Hok).
    + apply (IH (mkHandler (http k) (mkResponse _ b _ _)) Hw Hok).
    + apply andb_prop in Hok as [Hs Hok]. unfold writeHeader, mbind, ST_bind, gets, assert. rewrite Hs. unfold modify.
      apply (IH (mkHandler (http k) (mkResponse _ _ (Headers.set n v _) _)) Hw Hok).
    + unfold writeToBody, mbind, ST_bind. destruct (finishHeaders_ok k Hw) as (k1 & -> & H1 & Es1).
      destruct (write_ok b k1) as (k2 & E2 & H2 & Er2); [now destruct H1 as (_ & _ & ?)|]. unfold handlerWriteToBody. rewrite E2.
      destruct (IH k2) as (k3 & k4 & E3 & E4 & H4); [now destruct H2 as (_ & _ & ?)|now rewrite Er2, Es1|].
      exists k3, k4. split; [done|]. split; [done|]. rewrite Er2, Es1 in H4. cbn [app] in H4.
      exact (wrote_trans _ _ _ _ _ H1 (wrote_trans _ _ _ _ _ H2 H4)).
Qed.

Lemma endBody_ok k : exists k', endBody k = Ret (tt, k') /\ sent (streamOf k') = sent (streamOf k) /\ isClosed (streamOf k') = true.
Proof.
  destruct (close_law (streamOf k)) as (s' & E & Es & Ec). unfold endBody, onHttp, onStream, zoom. unfold streamOf in E. rewrite E.
  eexists. split; [reflexivity|]. done.
Qed.

Lemma tryRoutes_ok fuel hs st rs k b kb (meth : Z) (u : URLRef) :
  requestMethod (parser (http k)) = Some meth -> requestMethod (parser (http kb)) = Some meth -> requestURI (parser (http kb)) = Some u ->
  writable (streamOf k) -> sent (streamOf kb) = sent (streamOf k) -> writable (streamOf kb) ->
  onHttp (entireBody fuel) k = Ret (b, kb) ->
  let q := mkRequest meth u (headers (parser (http kb))) b in
  (forall r, matching meth (path u) rs = Some r -> ropsOk false (sprog r q) = true) ->
  exists k', tryRoutes fuel hs st (path u) (map toRoute rs) k = Ret (tt, k') /\ isClosed (streamOf k') = true
    /\ sent (streamOf k') = sent (streamOf k) ++ answer rs st hs q.
Proof.
  intros Em Emb Eu Hw Es Hwb Eb q. revert st. unfold answer, matching, missStatus. cbn [method uri q].
  induction rs as [|r rs IH]; intros st Hprog; cbn [map tryRoutes List.find existsb] in *.
  - unfold writeHeaders, mbind at 1, ST_bind. set (x := lit "HTTP/1.1 " ++ _). destruct (write_ok x k Hw) as (k1 & E1 & (_ & E2 & _) & _).
    rewrite E1. destruct (endBody_ok k1) as (k2 & E3 & E4 & E5). exists k2. split; [done|]. split; [done|]. now rewrite E4, E2.
  - unfold mbind at 1, ST_bind, gets at 1. rewrite Em. cbn [rmethod pathPattern handler toRoute]. case_bool_decide as Ek.
    + injection Ek as Ek. rewrite (proj2 (Z.eqb_eq _ _) Ek) in Hprog |- *. cbn [andb orb] in *. destruct (spattern r (path u)) eqn:Ep.
      * unfold handleRequest, mbind, ST_bind, gets. rewrite Eb, Eu, Emb. cbn [optValue default from_option id]. unfold mret, ST_ret, modify. fold q.
        destruct (response_runs (sprog r q) (mkHandler (http kb) (newResponse hs)) Hwb (Hprog r eq_refl)) as (k1 & k2 & -> & -> & (_ & E2 & _)).
        destruct (endBody_ok k2) as (k3 & -> & E4 & E5). exists k3. split; [done|]. split; [done|]. rewrite E4, E2. cbn [response _sentHeaders newResponse].
        unfold streamOf in *. cbn [http]. now rewrite Es.
      * destruct (IH Status_NotFound Hprog) as (k' & E1 & E2 & E3). exists k'. split; [done|]. split; [done|]. rewrite E3.
        destruct (List.find _ rs); [done|]. now destruct (existsb _ rs).
    + rewrite (proj2 (Z.eqb_neq _ _)) in Hprog |- * by congruence. cbn [andb orb] in *. now apply IH.
Qed.

End server.

(** C31: the server answers.  A [Handler] that reads a well-formed request (not one that asks for an upgrade), from any
    stream that does not cut it inside the request line or a header, gives the handler function of the first
    route that has the request's method and matches its path the request's method, URI, headers and body -- but no
    body when the request was complete as soon as its headers had been read, see [http_body_lost].  It
    sends the head of the response once, as it was when the body started, followed by the body, and
    closes the stream; with no such route it answers 404 if some route has the method and 405
    otherwise.  The handler function writes no header after it has begun the body
    ([ropsOk]): the code asserts so. *)
Theorem http_server_answers {L : Type} {HL : LLHTTP L} {S : Type} {IS : IStream S} {CS : Closing S} {methodName : Z -> bytes}
    (statusName : Z -> bytes) (order : Headers -> list (bytes * bytes))
    (m : message) {HW : LLHTTPLaws L methodName RoleRequest m} (k : Z) (target : bytes) (u : URLRef) (rs : list served) (s : S) (fuel : nat) :
  messageOk RoleRequest m = true -> start m = ReqLine k target -> URL.parse emptyURL target = Ret u -> framed m <> Upgrade ->
  readable s -> writable s -> content s = wire (tokens methodName m) -> cleanly s (tokens methodName m) ->
  (length (content s) + 1 < fuel)%nat ->
  exists h0 : Http L S, readHeaders fuel (mkHttp s (newParser true RoleRequest)) = Ret (tt, h0) /\
  let q := mkRequest k u (addFields (fields m) ∅) (if complete (parser h0) then [] else bodyOf (framed m)) in
  (forall r, matching k (path u) rs = Some r -> ropsOk false (sprog r q) = true) ->
  exists h, run (L := L) statusName order fuel (map (toRoute statusName order) rs) (newHandler s) = Ret (tt, h)
    /\ isClosed (streamOf h) = true
    /\ sent (streamOf h) = sent s ++ answer statusName order rs Status_MethodNotAllowed defaultHeaders q.
Proof.
  intros Hm Est Eu Hf Hr Hw Hc Hcl Hl.
  assert (uriParsed m (Some u)) as Hu by (unfold uriParsed; rewrite Est; eauto).
  destruct (readHeaders_ok RoleRequest m (Some u) Hm Hu [] fuel s) as (h & ts & E & Er & Hrd & Eh & (Es & Hwr) & Hle); [done|now rewrite app_nil_r|done|lia|].
  destruct (parsing_tells RoleRequest m (Some u) Hm Hu _ _ _ (r_parsing _ _ _ _ _ _ _ Hrd) Eh) as (T1 & T2 & T3 & _). unfold codeOf in T3. rewrite Est in T3.
  exists h. split; [exact Er|]. intros q Hok. set (b := if complete (parser h) then [] else bodyOf (framed m)) in q.
  assert (exists h', entireBody fuel h = Ret (b, h') /\ sent (io h') = sent (io h) /\ writable (io h')
            /\ requestMethod (parser h') = Some k /\ requestURI (parser h') = Some u /\ headers (parser h') = addFields (fields m) ∅)
    as (h' & Eb & Es' & Hw' & Hmeth & Huri & Hhd).
  { unfold b. destruct (complete (parser h)) eqn:Ec.
    - exists h. rewrite http_body_lost by done. split_and!; try done. now apply Hwr.
    - destruct (entireBodyLoop_ok RoleRequest m (Some u) Hm Hu [] fuel _ _ _ Hrd Hf) as (h' & ts' & E' & Eb & (Es' & Hw') & Hrd' & _ & Hk);
        [congruence|case_bool_decide; lia|].
      destruct (parsing_tells RoleRequest m (Some u) Hm Hu _ _ _ (r_parsing _ _ _ _ _ _ _ Hrd') (Hk Eh)) as (T1' & T2' & T3' & _).
      unfold codeOf in T3'. rewrite Est in T3'. exists h'. split_and!; try done. auto. }
  unfold run, newHandler, onHttp, zoom, mbind, ST_bind, gets. cbn [http]. rewrite Er. cbn [http]. rewrite T1. cbn [optValue]. unfold mret, ST_ret.
  destruct (tryRoutes_ok statusName order fuel defaultHeaders Status_MethodNotAllowed rs (mkHandler h (newResponse ∅)) b
              (mkHandler h' (newResponse ∅)) k u) as (k' & E1 & E2 & E3); try done.
  - unfold streamOf. cbn. auto.
  - unfold onHttp, zoom. cbn [http response]. now rewrite Eb.
  - cbn [http]. rewrite Hhd. exact Hok.
  - exists k'. split; [exact E1|]. split; [exact E2|]. rewrite E3. unfold streamOf. cbn [http]. now rewrite Hhd, Es.
Qed.

(** * Example *)

(** A stream of given pieces that can be closed. *)
Module Conn.

Record t := mk { chunks : Chunks.t; closed : bool }.

Definition lifted {A} (x : ST Chunks.t A) : ST t A := zoom chunks (fun c s => mk c (closed s)) x.

#[global] Instance stream : IStream t.
Proof.
  refine {|
    isOpen s := IStream.isOpen (chunks s);
    open := lifted IStream.open;
    readNoCopy n := lifted (readNoCopy n);
    peekNoCopy := lifted peekNoCopy;
    writeBytes b := lifted (writeBytes b);
    content s := content (chunks s);
    sent s := sent (chunks s);
    readable s := readable (chunks s);
    writable s := writable (chunks s)
  |}; unfold lifted, zoom.
  - intros s. apply readable_open.
  - intros n s Hr Hn. destruct (read_law n (chunks s) Hr Hn) as (a & c & E & ?). rewrite E. exists a, (mk c (closed s)). now split.
  - intros s Hr. destruct (peek_law (chunks s) Hr) as (a & r & c & E & E1 & E2 & E3). rewrite E. exists a, r, (mk c (closed s)).
    split; [done|]. split; [done|]. split; [done|]. intros Ha n Hn. destruct (E3 Ha n Hn) as (c' & E4 & ?). exists (mk c' (closed s)).
    cbn [chunks]. now rewrite E4.
  - intros b s Hw. destruct (write_law b (chunks s) Hw) as (c & E & ?). rewrite E. now exists (mk c (closed s)).
Defined.

#[global] Instance closing : Closing t.
Proof.
  refine {| close := fun s => Ret (tt, mk (chunks s) true); isClosed := closed |}.
  intros s. now exists (mk (chunks s) true).
Defined.

End Conn.

Lemma cleanly_conn c b ts : cleanly c ts -> cleanly (Conn.mk c b) ts.
Proof.
  induction 1 as [c ts Hf Hc IH]. constructor; intros a s'.
  - cbn [readNoCopy Conn.stream]. unfold Conn.lifted, zoom. cbn [Conn.chunks]. destruct (readNoCopy kReadSize c) as [[a' c']| |] eqn:E; [|done|done].
    intros [= <- <-]. now apply (Hf a' c').
  - intros es ts'. cbn [readNoCopy Conn.stream]. unfold Conn.lifted, zoom. cbn [Conn.chunks].
    destruct (readNoCopy kReadSize c) as [[a' c']| |] eqn:E; [|done|done]. intros [= <- <-]. cbn [Conn.closed]. intros Ha Ef. now apply (IH a' c' es).
Qed.

Definition statusNames (st : Z) : bytes := if st =? 200 then lit "OK" else if st =? 404 then lit "Not Found" else lit "?".

(** Echoes the body of the request. *)
Definition sampleRoutes : list served :=
  [mkServed 1 (fun _ => true) (fun _ => []);
   mkServed 3 (fun p => bool_decide (p = lit "/echo")) (fun q => [RHeader (lit "content-type") (lit "text/plain"); RBody (lit "> "); RBody (body q)])].

Lemma http_server_answers_witness :
  exists h, run (L := Oracle.t) (HL := Oracle.parser methodNames samplePost sampleReply) statusNames map_to_list 100
              (map (toRoute statusNames map_to_list) sampleRoutes)
              (newHandler (HL := Oracle.parser methodNames samplePost sampleReply) (Conn.mk (Chunks.mk samplePieces []) false)) = Ret (tt, h)
    /\ isClosed (streamOf h) = true
    /\ sent (streamOf h) = lit "HTTP/1.1 200 OK" ++ CRLF ++ lit "User-Agent: Crouton" ++ CRLF ++ lit "Connection: close" ++ CRLF
                           ++ lit "Content-Type: text/plain" ++ CRLF ++ CRLF ++ lit "> hello".
Proof.
  destruct (http_server_answers (L := Oracle.t) (HL := Oracle.parser methodNames samplePost sampleReply) (methodName := methodNames)
              statusNames map_to_list samplePost (HW := Oracle.laws methodNames samplePost sampleReply RoleRequest)
              3 (lit "/echo?q=1") sampleURI sampleRoutes (Conn.mk (Chunks.mk samplePieces []) false) 100) as (h0 & E0 & Hrun).
  - vm_compute. reflexivity.
  - reflexivity.
  - vm_compute. reflexivity.
  - discriminate.
  - repeat constructor; discriminate.
  - exact I.
  - vm_compute. reflexivity.
  - apply cleanly_conn, cleanPieces_ok; [|vm_compute; reflexivity].
    repeat (constructor; [split; [discriminate|vm_compute; discriminate]|]). constructor.
  - vm_compute. lia.
  - assert (complete (parser h0) = false) as Ec by (revert E0; vm_compute; intros [= <-]; reflexivity). rewrite Ec in Hrun.
    destruct Hrun as (h & E & Hc & Hs); [intros r Er; vm_compute in Er; injection Er as <-; reflexivity|].
    exists h. split; [exact E|]. split; [exact Hc|]. rewrite Hs. vm_compute. reflexivity.
Defined.
