(* ===== verification/HttpClient.v ===== *)
(** The HTTP client ([src/io/HTTPConnection.cc], [include/crouton/io/HTTPConnection.hh]): a
    [Connection] sends one request and returns the [Response], whose body is read as a
    stream. *)

From S2P Require Import Prelude StringUtils Numerals URL IStream HttpParser HttpServer.

Local Open Scope Z_scope.

Definition Method_GET : Z := 1.

(** ** Connection *)

(** The constructor: whether to use TLS, the host and the port. *)
Definition connectTo (u : URLRef) : outcome (bool * bytes * Z) :=
  if bool_decide (hostname u = []) then Raise (ECrouton InvalidArgument)
  else if negb (bool_decide (query u = [])) then Raise (ECrouton InvalidArgument)
  else
    let sch := normalizedScheme u in
    tls ← (if bool_decide (sch = lit "http") || bool_decide (sch = lit "ws") then Ret false
           else if bool_decide (sch = lit "https") || bool_decide (sch = lit "wss") then Ret true
           else Raise (ECrouton InvalidArgument));
    let p := if port u =? 0 then (if (tls : bool) then 443 else 80) else port u in
    Ret (tls, hostname u, p).

(** [http::Request]; the stream of the body is kept with the connection's. *)
Record CRequest := mkCRequest { cmethod : Z; curi : bytes; cheaders : Headers; cbody : bytes; hasBodyStream : bool }.

Definition startsWith (c : Z) (s : bytes) : bool := match s with x :: _ => x =? c | [] => false end.

Section client.
Context {L : Type} {HL : LLHTTP L} {S B : Type} {IS : IStream S} {IB : IStream B}.
(** [llhttp_method_name] and the iteration of a map *)
Context (methodName : Z -> bytes) (order : Headers -> list (bytes * bytes)).

Record Connection := mkConnection { _url : URLRef; _sent : bool; _stream : S; bodyStream : B }.

Definition onSock {A} (m : ST S A) : ST Connection A := zoom _stream (fun s c => mkConnection (_url c) (_sent c) s (bodyStream c)) m.
Definition onBody {A} (m : ST B A) : ST Connection A := zoom bodyStream (fun b c => mkConnection (_url c) (_sent c) (_stream c) b) m.

(** [operator<<] of a request. *)
Definition requestText (q : CRequest) : bytes :=
  methodName (cmethod q) ++ lit " " ++ (if startsWith 47 (curi q) then [] else lit "/") ++ curi q ++ lit " HTTP/1.1" ++ CRLF
  ++ headerLines order (cheaders q).

(** The path of the connection's URL before the URI of the request. *)
Definition fullURI (u : URLRef) (uri : bytes) : bytes :=
  let uri := if negb (bool_decide (uri = [])) && negb (startsWith 47 uri) then 47 :: uri else uri in
  match path u with
  | [] => uri
  | p => (if List.last p 0 =? 47 then take (length p - 1) p else p) ++ uri
  end.

Fixpoint pump (fuel : nat) : ST Connection unit :=
  match fuel with
  | O => crash NoFuel
  | Datatypes.S f =>
      buf ← onBody (readNoCopy kReadSize);
      if (0 <? length buf)%nat then _ ← onSock (writeBytes buf); pump f else mret tt
  end.

(** [send], up to the response. *)
Definition transmit (fuel : nat) (q : CRequest) : ST Connection unit :=
  s ← gets _sent;
  if (s : bool) then throw (ECrouton LogicError)
  else
    _ ← modify (fun c => mkConnection (_url c) true (_stream c) (bodyStream c));
    _ ← (if cmethod q =? Method_GET
         then if hasBodyStream q || negb (bool_decide (cbody q = [])) then throw (ECrouton InvalidArgument) else mret tt
         else if hasBodyStream q && negb (Headers.contains (lit "Content-Length") (cheaders q)) then throw (ECrouton InvalidArgument) else mret tt);
    o ← gets (fun c => IStream.isOpen (_stream c));
    _ ← when (negb o) (onSock IStream.open);
    u ← gets _url;
    let q := mkCRequest (cmethod q) (fullURI u (curi q)) (cheaders q) (cbody q) (hasBodyStream q) in
    let sized := negb (cmethod q =? Method_GET) && negb (hasBodyStream q) in
    _ ← assert (negb (sized && Headers.contains (lit "Content-Length") (cheaders q)));
    _ ← onSock (writeString (requestText q ++ lit "Host: " ++ hostname u ++ CRLF ++ lit "Connection: close" ++ CRLF
                            ++ (if sized then lit "Content-Length: " ++ to_string (Z.of_nat (length (cbody q))) ++ CRLF else []) ++ CRLF));
    _ ← when (negb (bool_decide (cbody q = []))) (onSock (writeString (cbody q)));
    when (hasBodyStream q) (pump fuel).

(** ** Response *)

Record CResponse := mkCResponse { rhttp : Http L S; _buf : bytes; _bufUsed : nat }.

(** [send]: the response's parser reads the connection's stream, which from here on is
    used through the response. *)
Definition send (fuel : nat) (q : CRequest) : ST Connection CResponse := fun c =>
  '(_, c') ← transmit fuel q c;
  '(_, h) ← readHeaders fuel (mkHttp (_stream c') (newParser true RoleResponse));
  Ret (mkCResponse h [] 0, mkConnection (_url c') (_sent c') (io h) (bodyStream c')).

Definition responseOpen (r : CResponse) : bool := negb (status (parser (rhttp r)) =? Status_Unknown).

Definition refill (fuel : nat) : ST CResponse unit := fun r =>
  if (length (_buf r) <=? _bufUsed r)%nat then
    '(b, h) ← readBody fuel (rhttp r); Ret (tt, mkCResponse h b 0)
  else Ret (tt, r).

Definition responseRead (fuel : nat) (maxLen : Z) : ST CResponse bytes :=
  _ ← refill fuel;
  r ← get;
  let result := take (Z.to_nat maxLen) (drop (_bufUsed r) (_buf r)) in
  _ ← modify (fun r => mkCResponse (rhttp r) (_buf r) (_bufUsed r + length result));
  mret result.

Definition responsePeek (fuel : nat) : ST CResponse bytes :=
  _ ← refill fuel;
  gets (fun r => drop (_bufUsed r) (_buf r)).

(** A [Response] can't be written to. *)
Definition responseWrite (b : bytes) : ST CResponse unit := throw (ECrouton LogicError).

(** * What a request looks like on the wire *)

Definition sized (q : CRequest) : bool := negb (cmethod q =? Method_GET) && negb (hasBodyStream q).

Definition sentURI (u : URLRef) (q : CRequest) : bytes :=
  let t := fullURI u (curi q) in (if startsWith 47 t then [] else lit "/") ++ t.

Definition sentFields (u : URLRef) (q : CRequest) : list (bytes * bytes) :=
  order (cheaders q) ++ [(lit "Host", hostname u); (lit "Connection", lit "close")]
  ++ (if sized q then [(lit "Content-Length", to_string (Z.of_nat (length (cbody q))))] else []).

(** [sb] is what the stream of the body holds. *)
Definition sentMessage (u : URLRef) (q : CRequest) (sb : bytes) : message :=
  mkMsg (ReqLine (cmethod q) (sentURI u q)) (sentFields u q) (Length (cbody q ++ sb)).

(** What [send] demands of a request. *)
Definition sendable (q : CRequest) : bool :=
  if cmethod q =? Method_GET then negb (hasBodyStream q) && bool_decide (cbody q = [])
  else bool_decide (hasBodyStream q = Headers.contains (lit "Content-Length") (cheaders q)).

Lemma lines_tokens fs : wire (concat (map fieldTokens fs)) = concat (map (fun f => f.1 ++ lit ": " ++ f.2 ++ CRLF) fs).
Proof.
  induction fs as [|f fs IH]; [done|]. cbn [map concat]. now rewrite wire_app, IH.
Qed.

Lemma framing_wire b : wire (framingTokens (Length b)) = b.
Proof. destruct b; [done|]. unfold wire. cbn. now rewrite app_nil_r. Qed.

Lemma sentMessage_wire u q sb :
  wire (tokens methodName (sentMessage u q sb))
  = requestText (mkCRequest (cmethod q) (fullURI u (curi q)) (cheaders q) (cbody q) (hasBodyStream q))
    ++ (lit "Host: " ++ hostname u ++ CRLF ++ lit "Connection: close" ++ CRLF
        ++ (if sized q then lit "Content-Length: " ++ to_string (Z.of_nat (length (cbody q))) ++ CRLF else []) ++ CRLF) ++ cbody q ++ sb.
Proof.
  unfold tokens, sentMessage. cbn [start fields framed]. rewrite !wire_app, lines_tokens, framing_wire. unfold sentFields.
  rewrite !map_app, !concat_app. unfold wire at 1 2. unfold requestText, headerLines, sentURI. cbn [startTokens map concat tokenBytes fst snd cmethod curi cheaders].
  change (lit "Host: ") with (lit "Host" ++ lit ": "). change (lit "Connection: close") with (lit "Connection" ++ lit ": " ++ lit "close").
  change (lit "Content-Length: ") with (lit "Content-Length" ++ lit ": "). change (lit " ") with [32].
  destruct (sized q); cbn [map concat fst snd]; rewrite <- ?app_assoc; cbn [app]; rewrite ?app_nil_r; repeat (f_equal; rewrite <- ?app_assoc; cbn [app]).
Qed.

Definition sockWrote (b : bytes) (c c' : Connection) : Prop :=
  _url c' = _url c /\ sent (_stream c') = sent (_stream c) ++ b /\ content (_stream c') = content (_stream c)
  /\ writable (_stream c') /\ (readable (_stream c) -> readable (_stream c')).

Lemma sockWrote_trans a b c1 c2 c3 : sockWrote a c1 c2 -> sockWrote b c2 c3 -> sockWrote (a ++ b) c1 c3.
Proof. intros (E1 & E2 & E3 & _ & H1) (F1 & F2 & F3 & Hw & H2). split_and!; [congruence| |congruence|done|auto]. now rewrite F2, E2, app_assoc. Qed.

Lemma sock_write b c : writable (_stream c) ->
  exists c', onSock (writeString b) c = Ret (tt, c') /\ sockWrote b c c' /\ bodyStream c' = bodyStream c.
Proof.
  intros Hw. destruct (write_law b _ Hw) as (s' & E & Ec & Es & Hr & Hw'). unfold onSock, zoom, writeString. rewrite E.
  eexists. split; [reflexivity|]. now split.
Qed.

Lemma pump_ok fuel c :
  writable (_stream c) -> readable (bodyStream c) -> (length (content (bodyStream c)) < fuel)%nat ->
  exists c', pump fuel c = Ret (tt, c') /\ sockWrote (content (bodyStream c)) c c'.
Proof.
  revert c. induction fuel as [|f IH]; intros c Hw Hr Hl; [lia|]. cbn [pump]. unfold mbind at 1, ST_bind, onBody, zoom.
  destruct (read_law kReadSize _ Hr) as (a & b' & -> & _ & Ec & _ & _ & Hnil & Hok); [done|].
  destruct (decide (a = [])) as [->|Ha].
  - cbn [length Nat.ltb Nat.leb]. eexists. split; [reflexivity|]. rewrite (Hnil eq_refl). split_and!; try done. cbn. now rewrite app_nil_r.
  - rewrite (proj2 (Nat.ltb_lt 0 (length a))) by (destruct a; [done|cbn; lia]).
    destruct (sock_write a (mkConnection (_url c) (_sent c) (_stream c) b') Hw) as (c1 & E1 & H1 & Eb). unfold writeString in E1. unfold mbind, ST_bind. rewrite E1.
    assert (length (content b') < f)%nat as Hl'.
    { rewrite Ec, length_app in Hl. destruct a; [done|cbn in Hl; lia]. }
    destruct (IH c1) as (c2 & E2 & H2); [apply H1|rewrite Eb; now apply Hok|now rewrite Eb|]. exists c2. split; [done|]. rewrite Ec.
    rewrite Eb in H2. cbn [bodyStream] in H2. exact (sockWrote_trans _ _ _ _ _ H1 H2).
Qed.

Lemma transmit_ok fuel q c :
  _sent c = false -> IStream.isOpen (_stream c) = true -> writable (_stream c) -> sendable q = true ->
  (hasBodyStream q = true -> readable (bodyStream c) /\ (length (content (bodyStream c)) < fuel)%nat) ->
  exists c', transmit fuel q c = Ret (tt, c')
    /\ sockWrote (wire (tokens methodName (sentMessage (_url c) q (if hasBodyStream q then content (bodyStream c) else [])))) c c'.
Proof.
  intros Hs Ho Hw Hq Hb. unfold transmit, mbind, ST_bind, gets, modify. rewrite Hs.
  set (c0 := mkConnection (_url c) true (_stream c) (bodyStream c)). unfold sendable in Hq.
  assert ((if cmethod q =? Method_GET
           then if hasBodyStream q || negb (bool_decide (cbody q = [])) then throw (ECrouton InvalidArgument) else mret tt
           else if hasBodyStream q && negb (Headers.contains (lit "Content-Length") (cheaders q)) then throw (ECrouton InvalidArgument) else mret tt) c0
          = Ret (tt, c0)) as E0.
  { destruct (cmethod q =? Method_GET).
    - apply andb_prop in Hq as [Hq1 ->]. apply negb_true_iff in Hq1. now rewrite Hq1.
    - apply bool_decide_eq_true in Hq. rewrite Hq. now rewrite andb_negb_r. }
  assert (negb (sized q && Headers.contains (lit "Content-Length") (cheaders q)) = true) as E1.
  { unfold sized. destruct (cmethod q =? Method_GET); [done|]. apply bool_decide_eq_true in Hq. rewrite Hq. cbn [negb andb]. now destruct (Headers.contains _ _). }
  rewrite E0. cbn [_stream _url c0]. rewrite Ho. cbn [negb when]. unfold mret at 1, ST_ret. cbn [_url c0 cmethod hasBodyStream cheaders cbody].
  fold (sized q). unfold assert. rewrite E1. rewrite sentMessage_wire. match goal with |- context [writeString ?y] => set (x := y) end.
  destruct (sock_write x c0) as (c1 & E2 & H1 & Eb1); [done|]. rewrite E2.
  assert (exists c2, when (negb (bool_decide (cbody q = []))) (onSock (writeString (cbody q))) c1 = Ret (tt, c2)
            /\ sockWrote (cbody q) c1 c2 /\ bodyStream c2 = bodyStream c1) as (c2 & -> & H2 & Eb2).
  { case_bool_decide as Ec; cbn [negb when]; [|now apply sock_write; destruct H1 as (_ & _ & _ & ? & _)].
    exists c1. rewrite Ec. split; [done|]. split; [|done]. destruct H1 as (_ & _ & _ & ? & _). split_and!; try done. now rewrite app_nil_r. }
  assert (exists c3, when (hasBodyStream q) (pump fuel) c2 = Ret (tt, c3)
            /\ sockWrote (if hasBodyStream q then content (bodyStream c) else []) c2 c3) as (c3 & E3 & H3).
  { rewrite Eb1 in Eb2. cbn [bodyStream c0] in Eb2. pose proof H2 as (_ & _ & _ & Hw2 & _). destruct (hasBodyStream q); cbn [when].
    - destruct (Hb eq_refl) as [Hr Hl]. rewrite <- Eb2 in *. now apply pump_ok.
    - exists c2. split; [done|]. split_and!; try done. now rewrite app_nil_r. }
  exists c3. split; [exact E3|].
  rewrite app_assoc. apply (sockWrote_trans _ _ c c1); [exact H1|]. exact (sockWrote_trans _ _ _ _ _ H2 H3).
Qed.

(** * Lemmas on the headers of a request *)

(** The headers were set with [Headers::set] and [add]. *)
Definition canonicalKeys (h : Headers) : Prop := forall k v, h !! k = Some v -> canonicalName k = k.

Lemma canonicalKeys_set n v h : canonicalKeys h -> canonicalKeys (Headers.set n v h).
Proof.
  intros Hc k w E. unfold Headers.set in E. destruct (decide (k = canonicalName n)) as [->|Hne]; [apply canonicalName_idemp|].
  rewrite lookup_insert_ne in E by congruence. now apply (Hc k w).
Qed.

Lemma filter_order h n :
  (forall h, order h ≡ₚ map_to_list h) -> canonicalKeys h ->
  List.filter (named n) (order h) = match h !! canonicalName n with Some v => [(canonicalName n, v)] | None => [] end.
Proof.
  intros Ho Hc. assert (forall f, In f (order h) -> named n f = true <-> f.1 = canonicalName n) as Hn.
  { intros [k v] Hi. unfold named. cbn [fst]. rewrite <- canonicalName_case. apply list_elem_of_In in Hi. rewrite (Ho h) in Hi. apply elem_of_map_to_list in Hi.
    rewrite (Hc _ _ Hi). naive_solver. }
  assert (NoDup (List.filter (named n) (order h))) as Hnd.
  { apply NoDup_ListNoDup, List.NoDup_filter, NoDup_ListNoDup. rewrite (Ho h). apply NoDup_map_to_list. }
  assert (forall f, In f (List.filter (named n) (order h)) <-> f.1 = canonicalName n /\ h !! f.1 = Some f.2) as Hin.
  { intros [k v]. rewrite List.filter_In. cbn [fst snd]. split.
    - intros [Hi E]. apply Hn in E; [|done]. apply list_elem_of_In in Hi. rewrite (Ho h) in Hi. now apply elem_of_map_to_list in Hi.
    - intros [-> E]. assert (In (canonicalName n, v) (order h)) as Hi by (apply list_elem_of_In; rewrite (Ho h); now apply elem_of_map_to_list).
      split; [done|]. now apply Hn. }
  destruct (h !! canonicalName n) as [v|] eqn:E.
  - apply Permutation_singleton_r. apply NoDup_Permutation; [done|apply NoDup_singleton|]. intros [k w].
    rewrite list_elem_of_In, Hin, list_elem_of_singleton. cbn. split; [intros [-> E']|intros [= -> ->]]; [congruence|done].
  - destruct (List.filter _ _) as [|[k w] r] eqn:Er; [done|]. destruct (Hin (k, w)) as [H1 _]. cbn in H1. destruct H1 as [-> H1]; [now left|congruence].
Qed.

(** A header of the request that [send] does not add itself arrives as it is. *)
Lemma sentFields_value u q n v :
  (forall h, order h ≡ₚ map_to_list h) -> canonicalKeys (cheaders q) -> cheaders q !! canonicalName n = Some v ->
  Forall (fun r => named n (lit r, []) = false) ["Host"; "Connection"; "Content-Length"]%string ->
  fieldValue n (sentFields u q) = Some v.
Proof.
  intros Ho Hc Ev Hr. unfold fieldValue, sentFields. rewrite !List.filter_app, filter_order, Ev by done.
  inversion_clear Hr as [|? ? R1 Hr1]. inversion_clear Hr1 as [|? ? R2 Hr2]. inversion_clear Hr2 as [|? ? R3 _]. unfold named in *. cbn [fst] in *.
  cbn [List.filter fst]. rewrite R1, R2. destruct (sized q); cbn [List.filter fst]; [rewrite R3|]; done.
Qed.

Lemma sentFields_host u q :
  (forall h, order h ≡ₚ map_to_list h) -> canonicalKeys (cheaders q) -> cheaders q !! lit "Host" = None ->
  fieldValue (lit "Host") (sentFields u q) = Some (hostname u).
Proof.
  intros Ho Hc En. unfold fieldValue, sentFields. rewrite !List.filter_app, filter_order by done.
  change (canonicalName (lit "Host")) with (lit "Host"). rewrite En. now destruct (sized q).
Qed.

(** * Reading the response *)

Context (mr : message) {HW : LLHTTPLaws L methodName RoleResponse mr} (Hm : messageOk RoleResponse mr = true) (Hf : framed mr <> Upgrade).

Lemma response_uri : uriParsed mr None.
Proof.
  destruct (messageOk_parts _ _ Hm) as (Hs & _ & _). unfold uriParsed. destruct (start mr); [|done]. now destruct (startOk_role _ _ Hs).
Qed.

(** The caller has had [got] of the body. *)
Definition Serving (fuel : nat) (got : bytes) (r : CResponse) : Prop :=
  exists taken ts E, Reading RoleResponse mr [] taken ts E (rhttp r)
    /\ taken = got ++ drop (_bufUsed r) (_buf r) /\ (length (content (io (rhttp r))) < fuel)%nat.

Lemma refill_ok fuel got r :
  Serving fuel got r ->
  exists r1, refill fuel r = Ret (tt, r1) /\ Serving fuel got r1 /\ (drop (_bufUsed r1) (_buf r1) = [] -> got = bodyOf (framed mr)).
Proof.
  intros (taken & ts & E & Hr & Et & Hl). unfold refill. destruct (Nat.leb_spec (length (_buf r)) (_bufUsed r)) as [Hu|Hu].
  - rewrite drop_ge, app_nil_r in Et by done. subst taken.
    destruct (readBody_ok RoleResponse mr None Hm response_uri [] got fuel _ _ _ Hr Hf Hl) as (h & ts' & E' & b & E2 & Hr2 & _ & _ & _ & Hend & _ & Hle).
    unfold mbind, outcome_bind. rewrite E2. eexists. split; [reflexivity|]. unfold Serving. cbn [rhttp _buf _bufUsed]. rewrite drop_0. split; [|now intros Eb; apply Hend].
    exists (got ++ b), ts', E'. split; [exact Hr2|]. split; [done|lia].
  - exists r. split; [done|]. split; [now exists taken, ts, E|]. intros F. apply (f_equal length) in F. rewrite length_drop in F. cbn in F. lia.
Qed.

(** After a refill that found something, another one does nothing. *)
Lemma refill_again fuel r : drop (_bufUsed r) (_buf r) <> [] -> refill fuel r = Ret (tt, r).
Proof. intros Hd. unfold refill. destruct (Nat.leb_spec (length (_buf r)) (_bufUsed r)) as [Hu|Hu]; [|done]. now rewrite drop_ge in Hd. Qed.

Lemma responseRead_ok fuel got r n :
  Serving fuel got r -> 0 < n ->
  exists a r', responseRead fuel n r = Ret (a, r') /\ Serving fuel (got ++ a) r' /\ Z.of_nat (length a) <= n
    /\ (a = [] -> got = bodyOf (framed mr)).
Proof.
  intros Hs Hn. unfold responseRead, mbind, ST_bind, get, modify, mret, ST_ret.
  destruct (refill_ok _ _ _ Hs) as (r1 & -> & (taken1 & ts1 & E1 & Hr1 & Et1 & Hl1) & Hend).
  set (a := take (Z.to_nat n) (drop (_bufUsed r1) (_buf r1))).
  exists a, (mkCResponse (rhttp r1) (_buf r1) (_bufUsed r1 + length a)). split; [done|]. split.
  - exists taken1, ts1, E1. cbn [rhttp _buf _bufUsed]. split; [done|]. split; [|done]. rewrite Et1, <- app_assoc. f_equal.
    rewrite <- drop_drop. set (x := drop (_bufUsed r1) (_buf r1)) in *. rewrite <- (take_drop (length a) x) at 1. f_equal.
    unfold a. rewrite length_take. destruct (Nat.min_spec (Z.to_nat n) (length x)) as [[_ ->]|[Hx ->]]; [done|]. now rewrite !take_ge by lia.
  - split; [unfold a; rewrite length_take; lia|]. intros Ea. apply Hend. apply (f_equal length) in Ea. unfold a in Ea. rewrite length_take in Ea.
    cbn in Ea. apply nil_length_inv. lia.
Qed.

(** [peekNoCopy] returns what is read next, and takes nothing. *)
Lemma responsePeek_ok fuel got r :
  Serving fuel got r ->
  exists a r', responsePeek fuel r = Ret (a, r') /\ Serving fuel got r' /\ (a = [] -> got = bodyOf (framed mr))
    /\ forall n, (0 < n <= length a)%nat -> exists r'', responseRead fuel (Z.of_nat n) r' = Ret (take n a, r'').
Proof.
  intros Hs. destruct (refill_ok _ _ _ Hs) as (r1 & E1 & Hs1 & Hend). exists (drop (_bufUsed r1) (_buf r1)), r1.
  unfold responsePeek, mbind, ST_bind, gets. rewrite E1. split; [done|]. split; [done|]. split; [done|]. intros n Hn.
  unfold responseRead, mbind, ST_bind, get, modify, mret, ST_ret. rewrite refill_again by (intros F; rewrite F in Hn; cbn in Hn; lia).
  rewrite Nat2Z.id. eauto.
Qed.

Fixpoint readSizes (fuel : nat) (ns : list Z) : ST CResponse (list bytes) :=
  match ns with
  | [] => mret []
  | n :: r => a ← responseRead fuel n; rest ← readSizes fuel r; mret (a :: rest)
  end.

Lemma readSizes_ok fuel ns got r :
  Serving fuel got r -> Forall (fun n => 0 < n) ns ->
  exists ps r', readSizes fuel ns r = Ret (ps, r') /\ Serving fuel (got ++ concat ps) r' /\ Forall2 (fun n a => Z.of_nat (length a) <= n) ns ps
    /\ ([] ∈ ps -> got ++ concat ps = bodyOf (framed mr)).
Proof.
  intros Hs Hns. revert got r Hs. induction Hns as [|n ns Hn _ IH]; intros got r Hs; cbn [readSizes].
  - exists [], r. rewrite app_nil_r. split_and!; try done. intros F. now apply elem_of_nil in F.
  - destruct (responseRead_ok _ _ _ _ Hs Hn) as (a & r1 & E1 & Hs1 & Hla & Hend). destruct (IH _ _ Hs1) as (ps & r2 & E2 & Hs2 & Hp & Hend2).
    unfold mbind, ST_bind, mret, ST_ret. rewrite E1, E2. exists (a :: ps), r2. cbn [concat]. rewrite app_assoc. split_and!; try done; [now constructor|].
    intros Hi. apply elem_of_cons in Hi as [Ea|Hi]; [|auto]. subst a. rewrite app_nil_r in *.
    (* once at the end, there is nothing more *)
    destruct Hs2 as (taken & ts & E & Hr & Et & _). specialize (Hend eq_refl).
    pose proof (at_bodies _ _ _ _ _ (r_parsing _ _ _ _ _ _ _ Hr)) as Hb.
    pose proof (r_body _ _ _ _ _ _ _ Hr (not_upgraded RoleResponse mr _ _ _ _ _ Hr Hf)) as Hb2.
    rewrite <- Hb2, Et, <- Hend, <- !app_assoc in Hb. rewrite Hend in Hb at 2. apply (f_equal length) in Hb. rewrite !length_app in Hb.
    assert (length (concat ps) = 0%nat) as Hz by (rewrite <- Hend in Hb; lia). apply nil_length_inv in Hz. now rewrite Hz, app_nil_r.
Qed.

End client.
Arguments Connection : clear implicits.
Arguments CResponse : clear implicits.

(** * Correctness *)

(** C30: a request round trip.  What [Connection::send] writes for a request whose message is well-formed
    ([messageOk]: its header names and values have only the characters HTTP allows, and so on) is that
    message, and the parser of a server that reads it, from any stream that does not cut it inside the request line or a header,
    finds the method, the URI after the path of the connection's URL, every header of the request but
    those the client adds itself (Host, Connection, Content-Length), and as Host the URL's if the request
    has none.  The whole body, given as a string or read from a stream, is what [entireBody] then returns if
    the request was not complete with its headers, and else what [latestBodyData] returns. *)
Theorem http_request_roundtrip {L : Type} {HL : LLHTTP L} {S B S' : Type} {IS : IStream S} {IB : IStream B} {IS' : IStream S'}
    (methodName : Z -> bytes) (order : Headers -> list (bytes * bytes)) (q : CRequest) (c : Connection S B) (u : URLRef) (fuel fuel' : nat) :
  let sb := if hasBodyStream q then content (bodyStream c) else [] in
  let m := sentMessage order (_url c) q sb in
  forall HW : LLHTTPLaws L methodName RoleRequest m,
  (forall h, order h ≡ₚ map_to_list h) -> canonicalKeys (cheaders q) ->
  _sent c = false -> IStream.isOpen (_stream c) = true -> writable (_stream c) -> sendable q = true ->
  (hasBodyStream q = true -> readable (bodyStream c) /\ (length (content (bodyStream c)) < fuel)%nat) ->
  messageOk RoleRequest m = true -> URL.parse emptyURL (sentURI (_url c) q) = Ret u ->
  exists c' w, transmit methodName order fuel q c = Ret (tt, c') /\ sent (_stream c') = sent (_stream c) ++ w
    /\ forall s : S', readable s -> content s = w -> cleanly s (tokens methodName m) -> (length w + 1 < fuel')%nat ->
       exists h : Http L S', readHeaders fuel' (mkHttp s (newParser true RoleRequest)) = Ret (tt, h)
         /\ requestMethod (parser h) = Some (cmethod q) /\ requestURI (parser h) = Some u
         /\ (forall n v, cheaders q !! canonicalName n = Some v ->
               Forall (fun r => named n (lit r, []) = false) ["Host"; "Connection"; "Content-Length"]%string ->
               Headers.get n (headers (parser h)) = v)
         /\ (cheaders q !! lit "Host" = None -> Headers.get (lit "Host") (headers (parser h)) = hostname (_url c))
         /\ if complete (parser h) then entireBody fuel' h = Ret ([], h) /\ exists p, latestBodyData (parser h) = Ret (cbody q ++ sb, p)
            else exists h', entireBody fuel' h = Ret (cbody q ++ sb, h').
Proof.
  intros sb m HW Ho Hck Hs Hop Hw Hq Hb Hm Eu.
  destruct (transmit_ok methodName order fuel q c Hs Hop Hw Hq Hb) as (c' & Et & (_ & Ews & _)).
  exists c', (wire (tokens methodName m)). split; [exact Et|]. split; [exact Ews|]. intros s Hr Hc Hcl Hl.
  destruct (message_read RoleRequest m (Some u) s fuel') as (h & Er & Hu & Hk & _ & Hh & Hbd); try done.
  - unfold uriParsed. cbn [start m sentMessage]. eauto.
  - now rewrite Hc.
  - exists h. split; [exact Er|]. split; [exact Hk|]. split; [exact Hu|]. split.
    + intros n v Ev Hn. rewrite Hh. cbn [fields m sentMessage]. now rewrite (sentFields_value order _ _ _ _ Ho Hck Ev Hn).
    + split; [intros En; rewrite Hh; cbn [fields m sentMessage]; now rewrite (sentFields_host order _ _ Ho Hck En)|]. destruct (complete (parser h)); [exact Hbd|]. destruct Hbd as (h' & Eb & _). eauto.
Qed.

(** The response.  When the server answers with a well-formed message, [send] returns a
    response with its status and headers; reading that response as a stream, in whatever
    sizes, gives its body in order, never more than asked for, and nothing only once the
    whole body has been read. *)
Theorem http_response_stream {L : Type} {HL : LLHTTP L} {S B : Type} {IS : IStream S} {IB : IStream B} {methodName : Z -> bytes}
    (order : Headers -> list (bytes * bytes)) (q : CRequest) (mr : message) {HW : LLHTTPLaws L methodName RoleResponse mr}
    (c c' : Connection S B) (code : Z) (reason : bytes) (fuel : nat) (ns : list Z) :
  transmit methodName order fuel q c = Ret (tt, c') ->
  messageOk RoleResponse mr = true -> start mr = StatusLine code reason -> framed mr <> Upgrade ->
  readable (_stream c') -> content (_stream c') = wire (tokens methodName mr) -> cleanly (_stream c') (tokens methodName mr) ->
  (length (content (_stream c')) < fuel)%nat -> Forall (fun n => 0 < n) ns ->
  exists (r : CResponse L S) c'' ps r', send methodName order fuel q c = Ret (r, c'')
    /\ responseOpen r = true /\ status (parser (rhttp r)) = code
    /\ (forall n, Headers.get n (headers (parser (rhttp r))) = default [] (fieldValue n (fields mr)))
    /\ readSizes fuel ns r = Ret (ps, r')
    /\ (exists rest, concat ps ++ rest = bodyOf (framed mr)) /\ Forall2 (fun n a => Z.of_nat (length a) <= n) ns ps
    /\ ([] ∈ ps -> concat ps = bodyOf (framed mr)).
Proof.
  intros Et Hm Est Hf Hr Hc Hcl Hl Hns.
  assert (uriParsed mr None) as Hu by (unfold uriParsed; now rewrite Est).
  destruct (readHeaders_ok RoleResponse mr None Hm Hu [] fuel (_stream c')) as (h & ts & E & Er & Hrd & Eh & _ & Hle); [done|now rewrite app_nil_r|done|done|].
  destruct (parsing_tells RoleResponse mr None Hm Hu _ _ _ (r_parsing _ _ _ _ _ _ _ Hrd) Eh) as (_ & T2 & T3 & _). unfold codeOf in T3. rewrite Est in T3.
  assert (Serving methodName mr fuel [] (mkCResponse h [] 0)) as Hsv by (exists [], ts, E; split; [exact Hrd|]; split; [done|cbn; lia]).
  destruct (readSizes_ok methodName mr Hm Hf fuel ns [] _ Hsv Hns) as (ps & r' & E1 & Hs2 & Hp & Hend). cbn [app] in *.
  exists (mkCResponse h [] 0). eexists _, ps, r'. split; [unfold send, mbind, outcome_bind; rewrite Et, Er; reflexivity|].
  split. { unfold responseOpen. cbn [rhttp]. rewrite T3. unfold Status_Unknown. destruct (messageOk_parts _ _ Hm) as (Hst & _ & _). rewrite Est in Hst. cbn in Hst. bool_to_prop.
           apply negb_true_iff, Z.eqb_neq. lia. }
  split; [exact T3|]. split; [intros n; cbn [rhttp]; rewrite T2; apply http_headers_get|]. split; [exact E1|]. split; [|done].
  destruct Hs2 as (taken & ts' & E' & Hr' & Et' & _). pose proof (at_bodies _ _ _ _ _ (r_parsing _ _ _ _ _ _ _ Hr')) as Hb.
  rewrite <- (r_body _ _ _ _ _ _ _ Hr' (not_upgraded RoleResponse mr _ _ _ _ _ Hr' Hf)), Et', <- !app_assoc in Hb. eauto.
Qed.

(** * Examples *)

Definition sampleRequest : CRequest := mkCRequest 3 (lit "echo") (Headers.set (lit "x-tag") (lit "7") ∅) (lit "hi") false.

Definition sampleConn : Connection Chunks.t Chunks.t :=
  mkConnection (mkURL (lit "http") (lit "h.org") 0 (lit "/base/") []) false (Chunks.mk [sampleWire RoleResponse] []) (Chunks.mk [] []).

Definition sampleSent : message := sentMessage map_to_list (_url sampleConn) sampleRequest [].

Definition sentWire : bytes := wire (tokens methodNames sampleSent).

Lemma http_request_roundtrip_witness :
  exists c' h h', transmit methodNames map_to_list 10 sampleRequest sampleConn = Ret (tt, c') /\ sent (_stream c') = sentWire
    /\ readHeaders (L := Oracle.t) (HL := Oracle.parser methodNames sampleSent sampleReply) 200
         (mkHttp (Chunks.mk [take 90 sentWire; drop 90 sentWire] []) (newParser (HL := Oracle.parser methodNames sampleSent sampleReply) true RoleRequest)) = Ret (tt, h)
    /\ requestMethod (parser h) = Some 3 /\ requestURI (parser h) = Some (mkURL [] [] 0 (lit "/base/echo") [])
    /\ Headers.get (lit "X-TAG") (headers (parser h)) = lit "7"
    /\ entireBody (L := Oracle.t) (HL := Oracle.parser methodNames sampleSent sampleReply) 200 h = Ret (lit "hi", h').
Proof.
  destruct (http_request_roundtrip (L := Oracle.t) (HL := Oracle.parser methodNames sampleSent sampleReply) (S' := Chunks.t) methodNames map_to_list
              sampleRequest sampleConn (mkURL [] [] 0 (lit "/base/echo") []) 10 200
              (Oracle.laws methodNames sampleSent sampleReply RoleRequest)) as (c' & w & E & Es & H).
  - reflexivity.
  - apply canonicalKeys_set. intros k v F. now rewrite lookup_empty in F.
  - reflexivity.
  - reflexivity.
  - exact I.
  - vm_compute. reflexivity.
  - discriminate.
  - vm_compute. reflexivity.
  - vm_compute. reflexivity.
  - assert (w = sentWire) as -> by (revert E Es; vm_compute; intros [= <-] ->; reflexivity).
    destruct (H (Chunks.mk [take 90 sentWire; drop 90 sentWire] [])) as (h & Er & Hk & Hu & Hh & _ & Hb).
    + repeat (constructor; [vm_compute; discriminate|]). constructor.
    + vm_compute. reflexivity.
    + apply cleanPieces_ok; [|vm_compute; reflexivity]. repeat (constructor; [split; vm_compute; discriminate|]). constructor.
    + vm_compute. lia.
    + assert (complete (parser h) = false) as Ec by (revert Er; vm_compute; intros [= <-]; reflexivity).
      rewrite Ec in Hb. destruct Hb as (h' & Eb). exists c', h, h'. split; [exact E|]. split; [exact Es|]. split; [exact Er|]. split; [exact Hk|].
      split; [exact Hu|]. split; [|exact Eb]. apply Hh; [vm_compute; reflexivity|repeat constructor].
Defined.

Lemma http_response_stream_witness :
  exists r c'' ps r', send (L := Oracle.t) (HL := Oracle.parser methodNames samplePost sampleReply) methodNames map_to_list 200 sampleRequest sampleConn = Ret (r, c'')
    /\ status (parser (rhttp r)) = 200
    /\ readSizes (L := Oracle.t) (HL := Oracle.parser methodNames samplePost sampleReply) 200 [2; 100; 100] r = Ret (ps, r')
    /\ ([] ∈ ps -> concat ps = lit "world") /\ Forall2 (fun n a => Z.of_nat (length a) <= n) [2; 100; 100] ps.
Proof.
  destruct (http_response_stream (L := Oracle.t) (HL := Oracle.parser methodNames samplePost sampleReply) (methodName := methodNames) map_to_list sampleRequest sampleReply
              (HW := Oracle.laws methodNames samplePost sampleReply RoleResponse)
              sampleConn (mkConnection (_url sampleConn) true (Chunks.mk [sampleWire RoleResponse] sentWire) (Chunks.mk [] [])) 200 (lit "OK") 200 [2; 100; 100])
    as (r & c'' & ps & r' & E & _ & Hst & _ & Er & _ & Hp & Hend).
  - vm_compute. reflexivity.
  - vm_compute. reflexivity.
  - reflexivity.
  - discriminate.
  - repeat constructor; discriminate.
  - vm_compute. reflexivity.
  - apply cleanPieces_ok; [|vm_compute; reflexivity]. repeat (constructor; [split; [discriminate|vm_compute; discriminate]|]). constructor.
  - vm_compute. lia.
  - repeat constructor.
  - exists r, c'', ps, r'. split; [exact E|]. split; [exact Hst|]. split; [exact Er|]. split; [exact Hend|exact Hp].
Defined.
