(* ===== verification/Handshake.v ===== *)
(** The opening handshake of WebSockets ([ClientWebSocket] and [ServerWebSocket] of
    [src/io/WebSocket.cc]) over HTTP.

    mbedTLS is outside: base 64 and SHA-1 are parameters, and so are the 16 random bytes of
    a client's key. *)

From S2P Require Import Prelude StringUtils Numerals URL IStream HttpParser HttpServer HttpClient.

Local Open Scope Z_scope.

Definition CloseCode_ProtocolError : Z := 1002.

Section handshake.
Context {L : Type} {HL : LLHTTP L} {S B : Type} {IS : IStream S} {IB : IStream B} {CS : Closing S}.
Context (methodName statusName : Z -> bytes) (order : Headers -> list (bytes * bytes)) (base64 sha1 : bytes -> bytes).

(** The key is a C string. *)
Definition generateAcceptResponse (key : bytes) : bytes :=
  base64 (sha1 (c_str key ++ lit "258EAFA5-E914-47DA-95CA-C5AB0DC85B11")).

(** ** Client *)

Record ClientWebSocket := mkClientWS { _accept : bytes; _request : CRequest }.

Definition newClientWebSocket (rawKey : bytes) : ClientWebSocket :=
  let key := base64 rawKey in
  let h := Headers.set (lit "Connection") (lit "Upgrade") ∅ in
  let h := Headers.set (lit "Upgrade") (lit "WebSocket") h in
  let h := Headers.set (lit "Sec-WebSocket-Version") (lit "13") h in
  let h := Headers.set (lit "Sec-WebSocket-Key") (c_str key) h in
  mkClientWS (generateAcceptResponse key) (mkCRequest Method_GET [] h [] false).

Definition setHeader (name value : bytes) (w : ClientWebSocket) : ClientWebSocket :=
  let q := _request w in
  mkClientWS (_accept w) (mkCRequest (cmethod q) (curi q) (Headers.set (c_str name) (c_str value) (cheaders q)) (cbody q) (hasBodyStream q)).

Definition protocolError {A} : outcome A := Raise (EWebSocket CloseCode_ProtocolError).

(** The checks of [connect] on the response. *)
Definition checkResponse (accept : bytes) (st : Z) (h : Headers) : outcome unit :=
  if negb (st =? Status_SwitchingProtocols) then Raise (EHttp st)
  else if negb (equalIgnoringCase (Headers.get (lit "Connection") h) (lit "upgrade"))
          || negb (equalIgnoringCase (Headers.get (lit "Upgrade") h) (lit "websocket")) then protocolError
  else if negb (bool_decide (accept = Headers.get (lit "Sec-WebSocket-Accept") h)) then protocolError
  else Ret tt.

(** [connect]: afterwards the WebSocket reads and writes the stream of the connection. *)
Definition clientConnect (fuel : nat) (w : ClientWebSocket) : ST (Connection S B) (CResponse L S) := fun c =>
  '(r, c') ← send methodName order fuel (_request w) c;
  let p := parser (rhttp r) in
  _ ← checkResponse (_accept w) (status p) (headers p);
  _ ← precondition (upgraded p);
  Ret (r, c').

(** ** Server *)

Definition isRequestValid (q : Request) : bool :=
  (method q =? Method_GET)
  && (length (Headers.get (lit "Sec-WebSocket-Key") (rheaders q)) =? 24)%nat
  && equalIgnoringCase (Headers.get (lit "Connection") (rheaders q)) (lit "upgrade")
  && equalIgnoringCase (Headers.get (lit "Upgrade") (rheaders q)) (lit "WebSocket")
  && equalIgnoringCase (Headers.get (lit "Sec-WebSocket-Version") (rheaders q)) (lit "13").

(** [ServerWebSocket::connect]; on success the WebSocket takes over the handler's stream. *)
Definition serverConnect (q : Request) (subprotocol : bytes) : ST (Handler (L := L) (S := S)) bool :=
  if negb (isRequestValid q) then
    _ ← setStatus Status_BadRequest;
    _ ← writeHeader (lit "Sec-WebSocket-Version") (lit "13");
    _ ← setStatusMessage (lit "Invalid WebSocket handshake");
    mret false
  else
    let key := Headers.get (lit "Sec-WebSocket-Key") (rheaders q) in
    let accept := generateAcceptResponse key in
    _ ← setStatus Status_SwitchingProtocols;
    _ ← writeHeader (lit "Connection") (lit "Upgrade");
    _ ← writeHeader (lit "Upgrade") (lit "WebSocket");
    _ ← writeHeader (lit "Sec-WebSocket-Accept") accept;
    _ ← when (negb (bool_decide (subprotocol = []))) (writeHeader (lit "Sec-WebSocket-Protocol") subprotocol);
    _ ← rawStream statusName order;
    mret true.

(** * Lemmas *)

Lemma c_str_idemp s : c_str (c_str s) = c_str s.
Proof. induction s as [|x s IH]; [done|]. cbn [c_str]. destruct (x =? 0) eqn:E; [done|]. cbn [c_str]. now rewrite E, IH. Qed.

(** The headers of the server's answer. *)
Definition acceptHeaders (h : Headers) (accept subprotocol : bytes) : Headers :=
  let h := Headers.set (lit "Sec-WebSocket-Accept") accept
             (Headers.set (lit "Upgrade") (lit "WebSocket") (Headers.set (lit "Connection") (lit "Upgrade") h)) in
  if bool_decide (subprotocol = []) then h else Headers.set (lit "Sec-WebSocket-Protocol") subprotocol h.

(** The answer as a message. *)
Definition acceptMessage (msg : bytes) (h : Headers) : message :=
  mkMsg (StatusLine Status_SwitchingProtocols (if bool_decide (msg = []) then statusName Status_SwitchingProtocols else msg)) (order h) Upgrade.

Lemma acceptMessage_wire msg h :
  wire (tokens methodName (acceptMessage msg h)) = headBytes statusName order (Status_SwitchingProtocols, msg, h).
Proof.
  unfold tokens, acceptMessage, headBytes, headerLines. cbn [start fields framed]. rewrite !wire_app, lines_tokens.
  unfold wire. cbn [startTokens map concat tokenBytes framingTokens]. change (lit " ") with [32]. rewrite <- !app_assoc. cbn [app].
  repeat (f_equal; rewrite <- ?app_assoc; cbn [app]).
Qed.

Lemma serverConnect_ok q sub (k : Handler (L := L) (S := S)) :
  isRequestValid q = true -> _sentHeaders (response k) = false -> writable (streamOf k) ->
  exists k', serverConnect q sub k = Ret (true, k')
    /\ sent (streamOf k') = sent (streamOf k)
         ++ headBytes statusName order (Status_SwitchingProtocols, rstatusMessage (response k),
              acceptHeaders (_headers (response k)) (generateAcceptResponse (Headers.get (lit "Sec-WebSocket-Key") (rheaders q))) sub)
    /\ _sentHeaders (response k') = true.
Proof.
  intros Hq Hs Hw. unfold serverConnect. rewrite Hq. cbn [negb]. set (acc := generateAcceptResponse _).
  unfold setStatus, writeHeader, rawStream, mbind, ST_bind, gets, modify, assert. cbn [response http _sentHeaders]. rewrite Hs. cbn [negb response http _sentHeaders rstatus rstatusMessage _headers].
  unfold acceptHeaders. case_bool_decide as Esub; cbn [negb when].
  all: unfold mret, ST_ret; rewrite ?Hs; cbn [negb response http _sentHeaders rstatus rstatusMessage _headers]; rewrite ?Hs.
  all: match goal with |- context [finishHeaders _ _ ?k1] => destruct (finishHeaders_ok statusName order k1 Hw) as (k' & E & (_ & E1 & _) & E2) end.
  all: rewrite E; exists k'; cbn [response _sentHeaders rstatus rstatusMessage _headers http] in E1; rewrite ?Hs in E1.
  all: split; [done|]; split; [exact E1|done].
Qed.

Lemma acceptHeaders_get h acc sub :
  Headers.get (lit "Connection") (acceptHeaders h acc sub) = lit "Upgrade"
  /\ Headers.get (lit "Upgrade") (acceptHeaders h acc sub) = lit "WebSocket"
  /\ Headers.get (lit "Sec-WebSocket-Accept") (acceptHeaders h acc sub) = acc.
Proof.
  unfold acceptHeaders, Headers.get, Headers.set.
  destruct (bool_decide _); split_and!; rewrite ?lookup_insert_eq; try done; repeat (rewrite lookup_insert_ne by (vm_compute; discriminate); rewrite ?lookup_insert_eq); done.
Qed.
Lemma acceptHeaders_keys h acc sub : canonicalKeys h -> canonicalKeys (acceptHeaders h acc sub).
Proof. intros Hc. unfold acceptHeaders. destruct (bool_decide _); repeat apply canonicalKeys_set; done. Qed.

Lemma order_value h n : (forall h, order h ≡ₚ map_to_list h) -> canonicalKeys h -> default [] (fieldValue n (order h)) = Headers.get n h.
Proof. intros Ho Hc. unfold fieldValue, Headers.get. rewrite filter_order by done. now destruct (h !! canonicalName n). Qed.

End handshake.

(** C32: the opening handshake.  A server accepts a valid request with a client's key: it answers 101 with the
    headers of the upgrade, before anything else, and takes over the stream.  When that answer is a well-formed
    message (the subprotocol and the headers set before have only characters HTTP allows), a client with
    that key that reads it, without a read that ends inside the status line or a header, connects; what the
    server sends next is what the client's parser has read already followed by what is left in its stream. *)
Theorem websocket_handshake {L : Type} {HL : LLHTTP L} {S B : Type} {IS : IStream S} {IB : IStream B} {CS : Closing S}
    (methodName statusName : Z -> bytes) (order : Headers -> list (bytes * bytes)) (base64 sha1 : bytes -> bytes)
    (rawKey sub : bytes) (q : Request) (k : Handler (L := L) (S := S)) :
  let acc := generateAcceptResponse base64 sha1 (base64 rawKey) in
  let h := acceptHeaders (_headers (response k)) acc sub in
  let mr := acceptMessage statusName order (rstatusMessage (response k)) h in
  forall HW : LLHTTPLaws L methodName RoleResponse mr,
  (forall h, order h ≡ₚ map_to_list h) -> canonicalKeys (_headers (response k)) -> messageOk RoleResponse mr = true ->
  isRequestValid q = true -> Headers.get (lit "Sec-WebSocket-Key") (rheaders q) = c_str (base64 rawKey) ->
  _sentHeaders (response k) = false -> writable (streamOf k) ->
  exists k' w, serverConnect statusName order base64 sha1 q sub k = Ret (true, k') /\ sent (streamOf k') = sent (streamOf k) ++ w
    /\ forall (ws : ClientWebSocket) (c c' : Connection S B) ext fuel,
       _accept ws = acc -> transmit methodName order fuel (_request ws) c = Ret (tt, c') ->
       readable (_stream c') -> content (_stream c') = w ++ ext -> cleanly (_stream c') (tokens methodName mr) ->
       (length (content (_stream c')) < fuel)%nat ->
       exists (r : CResponse L S) c'', clientConnect methodName order fuel ws c = Ret (r, c'')
         /\ _body (parser (rhttp r)) ++ content (_stream c'') = ext.
Proof.
  intros acc h mr HW Ho Hck Hm Hq Ekey Hs Hw.
  destruct (serverConnect_ok statusName order base64 sha1 q sub k Hq Hs Hw) as (k' & E & Es & _).
  assert (generateAcceptResponse base64 sha1 (Headers.get (lit "Sec-WebSocket-Key") (rheaders q)) = acc) as Ea.
  { rewrite Ekey. unfold acc, generateAcceptResponse. now rewrite c_str_idemp. }
  rewrite Ea in Es. exists k', (wire (tokens methodName mr)). split; [exact E|]. split; [unfold mr; now rewrite acceptMessage_wire|].
  intros ws c c' ext fuel Ews Et Hr Hc Hcl Hl.
  assert (uriParsed mr None) as Hu by done.
  destruct (readHeaders_ok RoleResponse mr None Hm Hu ext fuel (_stream c')) as (hh & ts & E1 & Er & Hrd & Eh & _ & _); try done.
  destruct (parsing_tells RoleResponse mr None Hm Hu _ _ _ (r_parsing _ _ _ _ _ _ _ Hrd) Eh) as (_ & T2 & T3 & _).
  pose proof (head_upgraded RoleResponse mr None Hm Hu _ _ _ _ _ Hrd eq_refl Eh) as Eup.
  destruct (r_upgraded _ _ _ _ _ _ _ Hrd Eup) as (_ & Eb & _).
  exists (mkCResponse hh [] 0), (mkConnection (_url c') (_sent c') (io hh) (bodyStream c')). split; [|exact Eb]. unfold clientConnect, send, mbind, outcome_bind. rewrite Et, Er. cbn [rhttp].
  assert (forall n, Headers.get n (headers (parser hh)) = Headers.get n h) as Hg.
  { intros n. rewrite T2, http_headers_get. apply (order_value order h n Ho). now apply acceptHeaders_keys. }
  unfold checkResponse. rewrite !Hg. unfold h. destruct (acceptHeaders_get (_headers (response k)) acc sub) as (-> & -> & ->).
  unfold codeOf in T3. cbn in T3. rewrite T3, Ews, bool_decide_eq_true_2 by done. cbn [negb orb Z.eqb]. unfold upgraded. rewrite Eup. done.
Qed.

(** The server of this library refuses the request of its client: [Connection::send] adds
    its own "Connection: close" to the client's "Connection: Upgrade", and the server, which
    joins the two, wants the value to be just "Upgrade". *)
Theorem websocket_own_server_refuses (order : Headers -> list (bytes * bytes)) (base64 sha1 : bytes -> bytes) rawKey u uri b :
  (forall h, order h ≡ₚ map_to_list h) ->
  let q := _request (newClientWebSocket base64 sha1 rawKey) in
  isRequestValid (mkRequest (cmethod q) uri (addFields (sentFields order u q) ∅) b) = false.
Proof.
  intros Ho q. assert (Headers.get (lit "Connection") (addFields (sentFields order u q) ∅) = lit "Upgrade, close") as E.
  { rewrite http_headers_get. unfold sentFields, fieldValue. rewrite !List.filter_app, filter_order; [|done|].
    - unfold q, newClientWebSocket. cbn [_request cheaders]. unfold Headers.set.
      repeat (rewrite lookup_insert_ne by (vm_compute; discriminate)). rewrite lookup_insert_eq. reflexivity.
    - unfold q, newClientWebSocket. cbn [_request cheaders]. repeat apply canonicalKeys_set. intros k v F. now rewrite lookup_empty in F. }
  unfold isRequestValid. cbn [method rheaders]. rewrite E. cbn [equalIgnoringCase]. now rewrite !andb_false_r.
Qed.

(** * Example *)

Definition toyBase64 (b : bytes) : bytes := take 24 (map (fun x => 65 + x mod 26) (b ++ b)).
Definition toySha1 (b : bytes) : bytes := take 20 b.

Definition sampleKey : bytes := map Z.of_nat (seq 7 16).

Definition sampleWS : ClientWebSocket := newClientWebSocket toyBase64 toySha1 sampleKey.

Definition sampleUpgrade : Request := mkRequest Method_GET emptyURL (cheaders (_request sampleWS)) [].

Definition sampleAccept : message :=
  acceptMessage (fun _ => lit "Switching Protocols") map_to_list []
    (acceptHeaders defaultHeaders (generateAcceptResponse toyBase64 toySha1 (toyBase64 sampleKey)) (lit "blip")).

Definition acceptWire : bytes := wire (tokens methodNames sampleAccept).

(** The server sends two bytes after its answer, one of which arrives with it. *)
Definition sampleUpgradeConn : Connection Conn.t Conn.t :=
  mkConnection (mkURL (lit "ws") (lit "h.org") 0 (lit "/chat") []) false
    (Conn.mk (Chunks.mk [acceptWire ++ [1]; [2]] []) false) (Conn.mk (Chunks.mk [] []) false).

Lemma websocket_handshake_witness :
  exists k' r c'',
    serverConnect (L := Oracle.t) (fun _ => lit "Switching Protocols") map_to_list toyBase64 toySha1 sampleUpgrade (lit "blip")
      (mkHandler (mkHttp (Conn.mk (Chunks.mk [] []) false) (newParser (HL := Oracle.parser methodNames samplePost sampleAccept) true RoleRequest)) (newResponse defaultHeaders))
      = Ret (true, k')
    /\ sent (streamOf k') = acceptWire
    /\ clientConnect (L := Oracle.t) (HL := Oracle.parser methodNames samplePost sampleAccept) methodNames map_to_list 400 sampleWS sampleUpgradeConn = Ret (r, c'')
    /\ _body (parser (rhttp r)) ++ content (_stream c'') = [1; 2].
Proof.
  destruct (websocket_handshake (L := Oracle.t) (HL := Oracle.parser methodNames samplePost sampleAccept) (B := Conn.t) methodNames
              (fun _ => lit "Switching Protocols") map_to_list toyBase64 toySha1 sampleKey (lit "blip") sampleUpgrade
              (mkHandler (mkHttp (Conn.mk (Chunks.mk [] []) false) (newParser (HL := Oracle.parser methodNames samplePost sampleAccept) true RoleRequest)) (newResponse defaultHeaders))
              (Oracle.laws methodNames samplePost sampleAccept RoleResponse)) as (k' & w & E & Es & H).
  - reflexivity.
  - repeat apply canonicalKeys_set. intros k v F. now rewrite lookup_empty in F.
  - vm_compute. reflexivity.
  - vm_compute. reflexivity.
  - vm_compute. reflexivity.
  - reflexivity.
  - exact I.
  - assert (w = acceptWire) as -> by (revert E Es; vm_compute; intros [= <-] ->; reflexivity).
    destruct (H sampleWS sampleUpgradeConn (mkConnection (_url sampleUpgradeConn) true
                (Conn.mk (Chunks.mk [acceptWire ++ [1]; [2]] (wire (tokens methodNames (sentMessage map_to_list (_url sampleUpgradeConn) (_request sampleWS) [])))) false)
                (Conn.mk (Chunks.mk [] []) false)) [1; 2] 400%nat) as (r & c'' & Ec & Eb).
    + reflexivity.
    + vm_compute. reflexivity.
    + repeat (constructor; [vm_compute; discriminate|]). constructor.
    + vm_compute. reflexivity.
    + apply cleanly_conn, cleanPieces_ok; [|vm_compute; reflexivity]. repeat (constructor; [split; vm_compute; discriminate|]). constructor.
    + apply Nat.ltb_lt. vm_compute. reflexivity.
    + exists k', r, c''. split; [exact E|]. split; [exact Es|]. split; [exact Ec|exact Eb].
Defined.
