(* ===== verification/BlipMessage.v ===== *)
(** BLIP messages: flags ([include/crouton/io/blip/Protocol.hh], [Message.hh]), the
    [MessageBuilder] ([src/io/blip/MessageBuilder.cc]) and the properties of a
    received message ([src/io/blip/Message.cc]).

    An encoded message is the size of its properties as a varint, the properties
    (each name and each value ends with a NUL) and the body. *)

From S2P Require Import Prelude Numerals Varint StringUtils.

Local Open Scope Z_scope.

(** * The protocol *)

Definition kRequestType : Z := 0.
Definition kResponseType : Z := 1.
Definition kErrorType : Z := 2.
Definition kAckRequestType : Z := 4.
Definition kAckResponseType : Z := 5.

Definition kTypeMask : Z := 0x07.
Definition kCompressed : Z := 0x08.
Definition kUrgent : Z := 0x10.
Definition kNoReply : Z := 0x20.
Definition kMoreComing : Z := 0x40.

Definition kMaxPropertiesSize : Z := 100 * 1024.
Definition kIncomingAckThreshold : Z := 50000.

(** ** Queries on a message's flags *)

Definition hasFlag (flags f : Z) : bool := negb (Z.land flags f =? 0).
Definition typeOf (flags : Z) : Z := Z.land flags kTypeMask.
Definition isResponse (flags : Z) : bool := kResponseType <=? typeOf flags.
Definition isErrorMsg (flags : Z) : bool := typeOf flags =? kErrorType.
Definition urgentOf (flags : Z) : bool := hasFlag flags kUrgent.
Definition noReplyOf (flags : Z) : bool := hasFlag flags kNoReply.
Definition isAck (flags : Z) : bool := (typeOf flags =? kAckRequestType) || (typeOf flags =? kAckResponseType).

(** [Message(FrameFlags, MessageNo)] does not keep [kMoreComing]. *)
Definition messageFlags (f : Z) : Z := Z.ldiff f kMoreComing.

(** * The message builder *)

Record MessageBuilder := mkBuilder {
  urgent : bool;
  compressed : bool;
  noreply : bool;
  btype : Z;
  _out : bytes;
  _properties : bytes;
  _wroteProperties : bool
}.

(** [Message::Error]. *)
Record MsgError := mkMsgError { edomain : bytes; ecode : Z; emessage : bytes }.

Definition set_out o b := mkBuilder (urgent b) (compressed b) (noreply b) (btype b) o (_properties b) (_wroteProperties b).
Definition set_properties p b := mkBuilder (urgent b) (compressed b) (noreply b) (btype b) (_out b) p (_wroteProperties b).
Definition set_wrote w b := mkBuilder (urgent b) (compressed b) (noreply b) (btype b) (_out b) (_properties b) w.
Definition set_btype t b := mkBuilder (urgent b) (compressed b) (noreply b) t (_out b) (_properties b) (_wroteProperties b).

Definition emptyBuilder : MessageBuilder := mkBuilder false false false kRequestType [] [] false.

Definition writeTokenizedString (str : bytes) : ST MessageBuilder unit :=
  _ ← assert (negb (existsb (Z.eqb 0) str));
  modify (fun b => set_properties (_properties b ++ str ++ [0]) b).

Definition addProperty (name value : bytes) : ST MessageBuilder unit :=
  w ← gets _wroteProperties;
  _ ← assert (negb w);
  _ ← writeTokenizedString name;
  writeTokenizedString value.

(** [snprintf("%lld")] gives the same digits as [to_string]. *)
Definition addPropertyInt (name : bytes) (value : Z) : ST MessageBuilder unit :=
  addProperty name (to_string value).

Fixpoint addProperties (ps : list (bytes * bytes)) : ST MessageBuilder unit :=
  match ps with
  | [] => mret tt
  | p :: r => _ ← addProperty p.1 p.2; addProperties r
  end.

Definition finishProperties : ST MessageBuilder unit :=
  w ← gets _wroteProperties;
  when (negb w) (
    properties ← gets _properties;
    let propertiesSize := Z.of_nat (length properties) in
    _ ← (if kMaxPropertiesSize <? propertiesSize then throw (EBlip PropertiesTooLarge) else mret tt);
    _ ← modify (fun b => set_out (_out b ++ put propertiesSize) b);
    _ ← modify (fun b => set_out (_out b ++ properties) b);
    modify (set_wrote true)).

Definition write (data : bytes) : ST MessageBuilder unit :=
  w ← gets _wroteProperties;
  _ ← when (negb w) finishProperties;
  modify (fun b => set_out (_out b ++ data) b).

Definition finish : ST MessageBuilder bytes :=
  _ ← finishProperties;
  gets _out.

Definition flags (b : MessageBuilder) : Z :=
  let f := Z.land (btype b) kTypeMask in
  let f := if urgent b then Z.lor f kUrgent else f in
  let f := if compressed b then Z.lor f kCompressed else f in
  if noreply b then Z.lor f kNoReply else f.

Definition makeError (err : MsgError) : ST MessageBuilder unit :=
  _ ← assert (negb (bool_decide (edomain err = [])) && negb (ecode err =? 0));
  _ ← modify (set_btype kErrorType);
  _ ← addProperty (lit "Error-Domain") (edomain err);
  _ ← addPropertyInt (lit "Error-Code") (ecode err);
  write (emessage err).

(** [reset] leaves the message type as it is. *)
Definition reset (b : MessageBuilder) : MessageBuilder :=
  mkBuilder false false false (btype b) [] [] false.

(** The three constructors. *)
Definition newRequest (profile : bytes) : outcome MessageBuilder :=
  match profile with
  | [] => Ret emptyBuilder
  | _ => r ← addProperty (lit "Profile") profile emptyBuilder; Ret r.2
  end.

Definition newWithProperties (ps : list (bytes * bytes)) : outcome MessageBuilder :=
  r ← addProperties ps emptyBuilder; Ret r.2.

Definition newReply (inReplyTo : Z) : outcome MessageBuilder :=
  _ ← precondition (negb (isResponse inReplyTo));
  Ret (mkBuilder (urgentOf inReplyTo) false false kResponseType [] [] false).

(** * Reading properties *)

(** The C string at the start of [s]: [strlen] stops at a NUL, and at the end of the
    string, which [std::string] keeps one behind. *)
Fixpoint cstr (s : bytes) : bytes :=
  match s with
  | c :: r => if c =? 0 then [] else c :: cstr r
  | [] => []
  end.

(** The loop of [property] over what is left of the properties. *)
Fixpoint propertyLoop (fuel : nat) (name rest : bytes) : outcome bytes :=
  match rest with
  | [] => Ret []
  | _ =>
      match fuel with
      | O => Fault NoFuel
      | S f =>
          let key := cstr rest in
          match drop (length key + 1) rest with
          | [] => Ret []
          | val =>
              let v := cstr val in
              if bool_decide (name = key) then Ret v else propertyLoop f name (drop (length v + 1) val)
          end
      end
  end.

Definition property (props name : bytes) : outcome bytes := propertyLoop (length props) name props.

Definition intProperty (props name : bytes) (defaultValue : Z) : outcome Z :=
  value ← property props name;
  match value with
  | [] => Ret defaultValue
  | _ =>
      match strtol value with
      | Some (n, []) => Ret n
      | _ => Ret defaultValue
      end
  end.

Definition boolProperty (props name : bytes) (defaultValue : bool) : outcome bool :=
  value ← property props name;
  if equalIgnoringCase value (lit "true") || equalIgnoringCase value (lit "YES") then Ret true
  else if equalIgnoringCase value (lit "false") || equalIgnoringCase value (lit "NO") then Ret false
  else n ← intProperty props name (if defaultValue then 1 else 0); Ret (negb (n =? 0)).

Definition s32 (n : Z) : Z := (n + 2 ^ 31) mod 2 ^ 32 - 2 ^ 31.

Definition getError (fl : Z) (props body : bytes) : outcome MsgError :=
  if negb (isErrorMsg fl) then Ret (mkMsgError [] 0 [])
  else
    d ← property props (lit "Error-Domain");
    c ← intProperty props (lit "Error-Code") 0;
    Ret (mkMsgError d (s32 c) body).

(** [Contents::getPropsAndBody]. *)
Definition getPropsAndBody (payload : bytes) : outcome (bytes * bytes) :=
  match payload with
  | [] => Ret ([], [])
  | _ =>
      r ← Varint.read payload;
      if Z.of_nat (length r.2) <? r.1 then Raise (EBlip InvalidFrame)
      else Ret (take (Z.to_nat r.1) r.2, drop (Z.to_nat r.1) r.2)
  end.

(** * Correctness *)

Definition nulFree (s : bytes) : Prop := ~ In 0 s.

Definition encodeProps (ps : list (bytes * bytes)) : bytes :=
  concat (map (fun p => p.1 ++ 0 :: p.2 ++ [0]) ps).

Definition okProps (ps : list (bytes * bytes)) : Prop := Forall (fun p => nulFree p.1 /\ nulFree p.2) ps.

(** The value of the first property of that name; empty if there is none. *)
Fixpoint lookupProp (name : bytes) (ps : list (bytes * bytes)) : bytes :=
  match ps with
  | [] => []
  | p :: r => if bool_decide (name = p.1) then p.2 else lookupProp name r
  end.

Lemma nulFree_check s : nulFree s -> existsb (Z.eqb 0) s = false.
Proof.
  intros H. apply not_true_is_false. rewrite existsb_exists. intros (x & Hx & E). apply Z.eqb_eq in E. now subst.
Qed.

Lemma cstr_app s r : nulFree s -> cstr (s ++ 0 :: r) = s.
Proof.
  induction s as [|c s IH]; intros H; [done|]. cbn [app cstr].
  rewrite (proj2 (Z.eqb_neq c 0)) by (intros ->; apply H; now left). rewrite IH; [done|]. intros F. apply H. now right.
Qed.

Lemma addProperty_run name value b :
  nulFree name -> nulFree value -> _wroteProperties b = false ->
  addProperty name value b = Ret (tt, set_properties (_properties b ++ name ++ 0 :: value ++ [0]) b).
Proof.
  intros Hn Hv Hw. unfold addProperty, writeTokenizedString, mbind, ST_bind, gets, assert, modify. rewrite Hw.
  rewrite !nulFree_check by done. cbn [negb]. unfold set_properties. cbn. now rewrite <- !app_assoc.
Qed.

Lemma addProperties_run ps b :
  okProps ps -> _wroteProperties b = false ->
  addProperties ps b = Ret (tt, set_properties (_properties b ++ encodeProps ps) b).
Proof.
  intros Hps. revert b. induction Hps as [|p ps [Hn Hv] _ IH]; intros b Hw; cbn [addProperties].
  - unfold encodeProps. cbn. rewrite app_nil_r. now destruct b.
  - unfold mbind, ST_bind. rewrite addProperty_run by done. rewrite IH by done. do 2 f_equal.
    unfold encodeProps. cbn. rewrite <- !app_assoc. cbn. now rewrite <- !app_assoc.
Qed.

Lemma propertyLoop_cons f name k v rest :
  nulFree k -> nulFree v ->
  propertyLoop (S f) name (k ++ 0 :: v ++ 0 :: rest) =
  if bool_decide (name = k) then Ret v else propertyLoop f name rest.
Proof.
  intros Hk Hv. assert (forall A (l : bytes) (x : bytes) (a b : A), l <> [] -> match l with [] => a | _ => b end = b) as Hne
    by (intros A [|]; done).
  cbn [propertyLoop]. rewrite Hne by (now destruct k || done). rewrite cstr_app by done.
  replace (drop (length k + 1) (k ++ 0 :: v ++ 0 :: rest)) with (v ++ 0 :: rest)
    by (now rewrite <- drop_drop, drop_app_length).
  destruct (v ++ 0 :: rest) as [|y r] eqn:Ev; [now destruct v|]. rewrite <- Ev, cstr_app by done.
  case_bool_decide; [done|]. now rewrite <- drop_drop, drop_app_length.
Qed.

Lemma property_lookup ps name : okProps ps -> property (encodeProps ps) name = Ret (lookupProp name ps).
Proof.
  intros Hps. unfold property.
  assert (forall fuel, (length ps <= fuel)%nat -> propertyLoop fuel name (encodeProps ps) = Ret (lookupProp name ps)) as H.
  { induction Hps as [|[k v] ps [Hk Hv] _ IH]; intros fuel Hf; [now destruct fuel|].
    destruct fuel as [|f]; [cbn in Hf; lia|].
    replace (encodeProps ((k, v) :: ps)) with (k ++ 0 :: v ++ 0 :: encodeProps ps)
      by (unfold encodeProps; cbn; now rewrite <- app_assoc; cbn; rewrite <- app_assoc).
    rewrite propertyLoop_cons by done. cbn [lookupProp fst snd]. case_bool_decide; [done|]. apply IH. cbn in Hf. lia. }
  apply H. unfold encodeProps. clear. induction ps as [|p ps IH]; cbn [map concat length]; [lia|].
  rewrite length_app, length_app. cbn [length]. lia.
Qed.

Lemma finish_run b :
  _wroteProperties b = false -> Z.of_nat (length (_properties b)) <= kMaxPropertiesSize ->
  finishProperties b = Ret (tt, set_wrote true (set_out ((_out b ++ put (Z.of_nat (length (_properties b)))) ++ _properties b) b)).
Proof.
  intros Hw Hsz. unfold finishProperties, when, mbind, ST_bind, gets, modify. rewrite Hw. cbn [negb].
  rewrite (proj2 (Z.ltb_ge _ _) Hsz). done.
Qed.

(** A message is built from its properties and its body. *)
Definition build (ps : list (bytes * bytes)) (body : bytes) (b : MessageBuilder) : outcome bytes :=
  r ← (_ ← addProperties ps; _ ← write body; finish) b; Ret r.1.

Lemma build_run ps body b :
  okProps ps -> _wroteProperties b = false -> _properties b = [] -> _out b = [] ->
  Z.of_nat (length (encodeProps ps)) <= kMaxPropertiesSize ->
  build ps body b = Ret (put (Z.of_nat (length (encodeProps ps))) ++ encodeProps ps ++ body).
Proof.
  intros Hps Hw Hp Ho Hsz. unfold build. unfold mbind, outcome_bind, ST_bind.
  rewrite addProperties_run by done. rewrite Hp. cbn [app].
  unfold write, finish, when, mbind, ST_bind, gets, modify. cbn [_wroteProperties set_properties]. rewrite Hw. cbn [negb].
  rewrite finish_run by done. cbn [_wroteProperties set_wrote set_out set_properties _out _properties app].
  unfold finishProperties, when, mbind, ST_bind, gets. cbn [_wroteProperties set_out negb]. rewrite Ho. cbn [app _out].
  now rewrite <- app_assoc.
Qed.

Lemma blip_parts ps body :
  Z.of_nat (length (encodeProps ps)) <= kMaxPropertiesSize ->
  getPropsAndBody (put (Z.of_nat (length (encodeProps ps))) ++ encodeProps ps ++ body) = Ret (encodeProps ps, body).
Proof.
  intros Hsz.
  assert (0 <= Z.of_nat (length (encodeProps ps)) < 2 ^ 64) as Hr by (unfold kMaxPropertiesSize in Hsz; lia).
  unfold getPropsAndBody. pose proof (put_length _ Hr) as Hl.
  destruct (put (Z.of_nat (length (encodeProps ps))) ++ encodeProps ps ++ body) as [|x l] eqn:E.
  { apply (f_equal length) in E. rewrite length_app in E. cbn [length] in E. lia. }
  rewrite <- E, read_put by done. unfold mbind, outcome_bind. cbn [fst snd].
  rewrite (proj2 (Z.ltb_ge _ _)) by (rewrite length_app; lia).
  now rewrite Nat2Z.id, take_app_length, drop_app_length.
Qed.

(** C36: a message built from properties and a body splits into the encoded properties
    and the body, and each property reads back as the value first given to its name;
    properties over 100K are refused. *)
Theorem blip_message_roundtrip ps body :
  okProps ps ->
  if Z.of_nat (length (encodeProps ps)) <=? kMaxPropertiesSize
  then exists payload, build ps body emptyBuilder = Ret payload
         /\ getPropsAndBody payload = Ret (encodeProps ps, body)
         /\ forall name, property (encodeProps ps) name = Ret (lookupProp name ps)
  else build ps body emptyBuilder = Raise (EBlip PropertiesTooLarge).
Proof.
  intros Hps. destruct (Z.leb_spec (Z.of_nat (length (encodeProps ps))) kMaxPropertiesSize) as [Hsz|Hsz].
  - eexists. split; [now apply build_run|]. split; [now apply blip_parts|intros name; now apply property_lookup].
  - unfold build, mbind, outcome_bind, ST_bind. rewrite addProperties_run by done. cbn [app emptyBuilder _properties].
    unfold write, finishProperties, when, mbind, ST_bind, gets, modify.
    cbn [_wroteProperties set_properties negb _properties emptyBuilder]. now rewrite (proj2 (Z.ltb_lt _ _) Hsz).
Qed.

Lemma blip_message_roundtrip_witness :
  okProps [(lit "Profile", lit "echo")] /\
  exists payload, build [(lit "Profile", lit "echo")] (lit "hi") emptyBuilder = Ret payload
    /\ getPropsAndBody payload = Ret (encodeProps [(lit "Profile", lit "echo")], lit "hi").
Proof.
  assert (okProps [(lit "Profile", lit "echo")]) as H.
  { repeat constructor; unfold nulFree; vm_compute; intuition congruence. }
  split; [exact H|]. pose proof (blip_message_roundtrip [(lit "Profile", lit "echo")] (lit "hi") H) as R.
  change (_ <=? _) with true in R. destruct R as (payload & H1 & H2 & _). now exists payload.
Defined.

Lemma to_string_nulFree n : LONG_MIN <= n <= LONG_MAX -> nulFree (to_string n).
Proof.
  intros Hn. unfold to_string, to_chars, LONG_MIN, LONG_MAX in *.
  assert (forall m, 0 <= m <= 2 ^ 63 -> nulFree (toDigits 64 10 m [])) as H.
  { intros m Hm. destruct (toDigits_dec 64 m) as (HF & _); [|lia|].
    { assert (2 ^ 63 < 10 ^ Z.of_nat 64) by (vm_compute; done). lia. }
    intros Hin. rewrite Forall_forall in HF. apply list_elem_of_In, HF in Hin. done. }
  destruct (Z.ltb_spec n 0); [|apply H; lia]. intros [F|F]; [lia|]. revert F. apply H. lia.
Qed.

Lemma write_run data b :
  _wroteProperties b = false -> Z.of_nat (length (_properties b)) <= kMaxPropertiesSize ->
  write data b = Ret (tt, set_out (((_out b ++ put (Z.of_nat (length (_properties b)))) ++ _properties b) ++ data) (set_wrote true b)).
Proof.
  intros Hw Hsz. unfold write, when, mbind, ST_bind, gets, modify. rewrite Hw. cbn [negb]. now rewrite finish_run.
Qed.

(** The properties of an error reply. *)
Definition errorProps (err : MsgError) : list (bytes * bytes) :=
  [(lit "Error-Domain", edomain err); (lit "Error-Code", to_string (ecode err))].

Lemma errorProps_ok err :
  nulFree (edomain err) -> - 2 ^ 31 <= ecode err < 2 ^ 31 -> Z.of_nat (length (edomain err)) <= 100000 ->
  okProps (errorProps err) /\ Z.of_nat (length (encodeProps (errorProps err))) <= kMaxPropertiesSize.
Proof.
  intros Hn Hr Hl. split.
  - assert (nulFree (to_string (ecode err))) as Hts by (apply to_string_nulFree; unfold LONG_MIN, LONG_MAX; lia).
    repeat constructor; try done; unfold nulFree; vm_compute; intuition congruence.
  - unfold encodeProps, errorProps. cbn [map concat fst snd]. rewrite !length_app. cbn [length]. rewrite !length_app. cbn [length].
    assert (length (to_string (ecode err)) <= 65)%nat.
    { unfold to_string, to_chars. destruct (_ <? 0); cbn [length];
        [pose proof (toDigits_length 64 10 (- ecode err) [])|pose proof (toDigits_length 64 10 (ecode err) [])]; cbn [length] in *; lia. }
    change (length (lit "Error-Domain")) with 12%nat. change (length (lit "Error-Code")) with 10%nat.
    unfold kMaxPropertiesSize. lia.
Qed.

Lemma makeError_run err b :
  edomain err <> [] -> ecode err <> 0 -> okProps (errorProps err) ->
  Z.of_nat (length (encodeProps (errorProps err))) <= kMaxPropertiesSize ->
  _wroteProperties b = false -> _properties b = [] -> _out b = [] ->
  makeError err b = Ret (tt, set_out (put (Z.of_nat (length (encodeProps (errorProps err)))) ++ encodeProps (errorProps err) ++ emessage err)
                               (set_wrote true (set_properties (encodeProps (errorProps err)) (set_btype kErrorType b)))).
Proof.
  intros Hd Hc Hps Hsz Hw Hp Ho. pose proof (addProperties_run (errorProps err) (set_btype kErrorType b) Hps Hw) as E.
  cbn [_properties set_btype] in E. rewrite Hp in E. cbn [app] in E.
  unfold makeError, mbind, ST_bind, assert, modify. rewrite bool_decide_false by done.
  rewrite (proj2 (Z.eqb_neq _ 0) Hc). cbn [negb andb]. unfold errorProps at 1 in E. cbn [addProperties fst snd] in E.
  unfold mbind, ST_bind in E. unfold addPropertyInt.
  destruct (addProperty (lit "Error-Domain") (edomain err) (set_btype kErrorType b)) as [[[] b1]| |]; [|done|done].
  destruct (addProperty (lit "Error-Code") (to_string (ecode err)) b1) as [[[] b2]| |]; [|done|done].
  injection E as ->. rewrite write_run by done. cbn [set_properties set_btype _out _properties]. rewrite Ho. cbn [app].
  now rewrite <- app_assoc.
Qed.

(** An error reply carries the error: a builder for the reply to a request, given
    an error, makes a message of error type from which [getError] reads the same
    domain, code and text. *)
Theorem blip_error_roundtrip req err :
  isResponse req = false -> edomain err <> [] -> nulFree (edomain err) ->
  ecode err <> 0 -> - 2 ^ 31 <= ecode err < 2 ^ 31 -> Z.of_nat (length (edomain err)) <= 100000 ->
  exists b b' payload props, newReply req = Ret b /\ makeError err b = Ret (tt, b') /\ finish b' = Ret (payload, b')
    /\ typeOf (flags b') = kErrorType /\ getPropsAndBody payload = Ret (props, emessage err)
    /\ getError (flags b') props (emessage err) = Ret err.
Proof.
  intros Hreq Hd Hn Hc Hr Hl. destruct (errorProps_ok err Hn Hr Hl) as [Hps Hsz].
  pose proof (blip_parts (errorProps err) (emessage err) Hsz) as Hparts.
  unfold newReply. rewrite Hreq. cbn [negb precondition]. unfold mbind at 1, outcome_bind at 1.
  eexists _, _, _, (encodeProps (errorProps err)). split; [reflexivity|]. split; [now apply makeError_run|].
  split; [reflexivity|]. split; [now destruct (urgentOf req)|]. split; [exact Hparts|].
  unfold getError. assert (isErrorMsg (flags _) = true) as -> by now destruct (urgentOf req). cbn [negb].
  unfold intProperty. rewrite !property_lookup by done. unfold mbind, outcome_bind.
  change (lookupProp (lit "Error-Domain") (errorProps err)) with (edomain err).
  change (lookupProp (lit "Error-Code") (errorProps err)) with (to_string (ecode err)).
  pose proof (strtol_to_string (ecode err) [] ltac:(unfold LONG_MIN, LONG_MAX; lia) eq_refl) as Hs. rewrite app_nil_r in Hs.
  rewrite Hs. destruct (to_string (ecode err)) eqn:Et; [now vm_compute in Hs|].
  unfold s32. rewrite Z.mod_small by lia. replace (ecode err + 2 ^ 31 - 2 ^ 31) with (ecode err) by lia. now destruct err.
Qed.

Lemma blip_error_roundtrip_witness :
  exists b b' payload props, newReply 0 = Ret b /\ makeError (mkMsgError (lit "BLIP") 404 (lit "no")) b = Ret (tt, b')
    /\ finish b' = Ret (payload, b') /\ typeOf (flags b') = kErrorType
    /\ getPropsAndBody payload = Ret (props, lit "no")
    /\ getError (flags b') props (lit "no") = Ret (mkMsgError (lit "BLIP") 404 (lit "no")).
Proof.
  apply (blip_error_roundtrip 0 (mkMsgError (lit "BLIP") 404 (lit "no")));
    [done|done|unfold nulFree; vm_compute; intuition congruence|done|cbn; lia|vm_compute; congruence].
Defined.
