(* ===== verification/BlipDump.v ===== *)
(** Descriptions and dumps of BLIP messages, and the search for a property in a message that is being sent ([src/io/blip/Message.cc],
    [MessageOut.cc]).

    The properties are a view of memory that goes on behind them: [beyond].  [strlen] looks for a zero there as well, and where there is
    none it leaves the memory ([Fault OutOfBounds]). *)

From S2P Require Import Prelude Numerals StringUtils BlipMessage.

Local Open Scope Z_scope.

(** * C strings in memory *)

Fixpoint strlen (mem : bytes) : outcome nat :=
  match mem with
  | [] => Fault OutOfBounds
  | c :: r => if c =? 0 then Ret 0%nat else n ← strlen r; Ret (S n)
  end.

Definition cstring (mem : bytes) : outcome bytes := n ← strlen mem; Ret (take n mem).

(** * Searching *)

(** The loop of [findProperty]: the memory from [key] on, and how much of it is before [end]. *)
Fixpoint findLoop (fuel : nat) (name mem : bytes) (left : nat) : outcome (option bytes) :=
  match left with
  | O => Ret None
  | _ =>
      match fuel with
      | O => Fault NoFuel
      | S f =>
          k ← strlen mem;
          if (left <=? k + 1)%nat then Ret None
          else
            let val := drop (k + 1) mem in
            if bool_decide (take k mem = name) then v ← cstring val; Ret (Some v)
            else
              v ← strlen val;
              findLoop f name (drop (v + 1) val) (left - (k + 1) - (v + 1))
      end
  end.

Definition findProperty (payload beyond name : bytes) : outcome (option bytes) :=
  findLoop (length payload) name (payload ++ beyond) (length payload).

(** [MessageOut::getPropsAndBody], of the payload as it was built. *)
Definition getPropsAndBodyOut (fl : Z) (payload : bytes) : outcome (bytes * bytes) :=
  if typeOf fl <? kAckRequestType then getPropsAndBody payload else Ret ([], payload).

(** [MessageOut::findProperty]; a [std::string] has a zero behind it. *)
Definition findPropertyOut (fl : Z) (payload name : bytes) : outcome (option bytes) :=
  r ← getPropsAndBodyOut fl payload;
  findProperty r.1 (r.2 ++ [0]) name.

(** * Text *)

Definition kMessageTypeNames : list bytes :=
  [lit "REQ"; lit "RES"; lit "ERR"; lit "?3?"; lit "ACKREQ"; lit "AKRES"; lit "?6?"; lit "?7?"].

Definition printable (c : Z) : bool := negb ((c <? 32) || (126 <? c)).

Definition dumpSlice (s : bytes) : bytes :=
  match s with
  | [] => lit "<<>>"
  | _ => if forallb printable s then s else lit "<<" ++ hexString s ++ lit ">>"
  end.

(** [operator<<] of a [MessageNo], an unsigned number. *)
Definition showNo (n : Z) : bytes := 35 :: to_string n.

Definition dumpHeader (fl number : Z) : bytes :=
  nth (Z.to_nat (typeOf fl)) kMessageTypeNames [] ++ showNo number ++ [32]
  ++ (if hasFlag fl kUrgent then [85] else [])
  ++ (if hasFlag fl kNoReply then [78] else [])
  ++ (if hasFlag fl kCompressed then [90] else []).

(** [writeDescription] of [Message]. *)
Definition writeDescription (fl number : Z) (payload beyond : bytes) : outcome bytes :=
  p ← (if typeOf fl =? kRequestType then findProperty payload beyond (lit "Profile") else Ret None);
  Ret ((match p with Some v => lit "'" ++ v ++ lit "' " | None => [] end) ++ dumpHeader fl number).

(** The loop of [dump] over the properties. *)
Fixpoint dumpLoop (fuel : nat) (mem : bytes) (left : nat) : outcome bytes :=
  match left with
  | O => Ret []
  | _ =>
      match fuel with
      | O => Fault NoFuel
      | S f =>
          k ← strlen mem;
          if (left <=? k + 1)%nat then Ret []
          else
            let val := drop (k + 1) mem in
            v ← strlen val;
            r ← dumpLoop f (drop (v + 1) val) (left - (k + 1) - (v + 1));
            Ret ([10; 9] ++ dumpSlice (take k mem) ++ lit ": " ++ dumpSlice (take v val) ++ r)
      end
  end.

Definition dump (fl number : Z) (payload beyond body : bytes) (withBody : bool) : outcome bytes :=
  t ← (if negb (typeOf fl =? kAckRequestType) && negb (typeOf fl =? kAckResponseType) then
         ps ← dumpLoop (length payload) (payload ++ beyond) (length payload);
         Ret (lit " {" ++ ps
              ++ (if withBody then [10; 9] ++ lit "BODY: " ++ dumpSlice body
                  else [10; 9] ++ lit "BODY: " ++ to_string (Z.of_nat (length body)) ++ lit " bytes")
              ++ lit " }")
       else Ret []);
  Ret (dumpHeader fl number ++ t ++ [10]).

(** The functions of [MessageOut] and [MessageIn]. *)
Definition dumpOut (fl number : Z) (payload : bytes) (withBody : bool) : outcome bytes :=
  r ← getPropsAndBodyOut fl payload;
  dump fl number r.1 (r.2 ++ [0]) r.2 withBody.

Definition sizeNote (body : bytes) : bytes := lit " + " ++ to_string (Z.of_nat (length body)) ++ lit " bytes".

Definition writeDescriptionOut (fl number : Z) (payload : bytes) : outcome bytes :=
  r ← getPropsAndBodyOut fl payload;
  d ← writeDescription fl number r.1 (r.2 ++ [0]);
  Ret (d ++ sizeNote r.2).

Definition writeDescriptionIn (fl number : Z) (props body : bytes) : outcome bytes :=
  d ← writeDescription fl number props [0];
  Ret (d ++ sizeNote body).

(** * Properties *)

Lemma strlen_app s r : nulFree s -> strlen (s ++ 0 :: r) = Ret (length s).
Proof.
  intros H. induction s as [|c s IH]; [reflexivity|]. cbn. destruct (Z.eqb_spec c 0) as [->|]; [exfalso; apply H; now left|].
  rewrite IH; [done|]. intros Hin. apply H. now right.
Qed.

Lemma cstring_app s r : nulFree s -> cstring (s ++ 0 :: r) = Ret s.
Proof. intros H. unfold cstring. rewrite strlen_app by done. cbn. now rewrite take_app_length. Qed.

Lemma drop_cstring (s r : bytes) : drop (length s + 1) (s ++ 0 :: r) = r.
Proof. now rewrite <- drop_drop, drop_app_length. Qed.

(** The value of the first property of that name. *)
Fixpoint firstProp (name : bytes) (ps : list (bytes * bytes)) : option bytes :=
  match ps with
  | [] => None
  | p :: r => if bool_decide (p.1 = name) then Some p.2 else firstProp name r
  end.

Lemma encodeProps_cons k v ps r : encodeProps ((k, v) :: ps) ++ r = k ++ 0 :: v ++ 0 :: (encodeProps ps ++ r).
Proof. unfold encodeProps. cbn. rewrite <- !app_assoc. cbn. now rewrite <- !app_assoc. Qed.

Lemma encodeProps_length k v ps : length (encodeProps ((k, v) :: ps)) = (length k + 1 + (length v + 1) + length (encodeProps ps))%nat.
Proof. unfold encodeProps. cbn [map concat fst snd]. rewrite !length_app. cbn [length]. rewrite length_app. cbn [length]. lia. Qed.

Lemma findLoop_ok ps : okProps ps -> forall fuel name beyond, (length ps <= fuel)%nat ->
  findLoop fuel name (encodeProps ps ++ beyond) (length (encodeProps ps)) = Ret (firstProp name ps).
Proof.
  induction 1 as [|[k v] ps [Hk Hv] Hps IH]; intros fuel name beyond Hf; [now destruct fuel|]. destruct fuel as [|fuel]; [cbn in Hf; lia|].
  rewrite encodeProps_length, encodeProps_cons. cbn [findLoop fst snd] in *.
  destruct (length k + 1 + (length v + 1) + length (encodeProps ps))%nat as [|m] eqn:Em; [lia|]. rewrite <- Em. clear m Em.
  rewrite strlen_app by done. cbn [mbind outcome_bind]. destruct (Nat.leb_spec (length k + 1 + (length v + 1) + length (encodeProps ps)) (length k + 1)); [lia|].
  rewrite take_app_length, drop_cstring. cbn [firstProp fst snd]. case_bool_decide; [now rewrite cstring_app|].
  rewrite strlen_app by done. cbn [mbind outcome_bind]. rewrite drop_cstring.
  replace (length k + 1 + (length v + 1) + length (encodeProps ps) - (length k + 1) - (length v + 1))%nat with (length (encodeProps ps)) by lia.
  apply IH. cbn in Hf. lia.
Qed.

Lemma props_short ps : (length ps <= length (encodeProps ps))%nat.
Proof. induction ps as [|[k v] ps IH]; [cbn; lia|]. rewrite encodeProps_length. cbn. lia. Qed.

(** Whatever is behind the properties in memory, a property is found with its value, the first of that name, and none that is not there. *)
Theorem find_property_ok ps beyond name : okProps ps -> findProperty (encodeProps ps) beyond name = Ret (firstProp name ps).
Proof. intros H. apply findLoop_ok; [done|apply props_short]. Qed.

(** The text of the properties. *)
Definition shownProps (ps : list (bytes * bytes)) : bytes := concat (map (fun p => [10; 9] ++ dumpSlice p.1 ++ lit ": " ++ dumpSlice p.2) ps).

Lemma dumpLoop_ok ps : okProps ps -> forall fuel beyond, (length ps <= fuel)%nat ->
  dumpLoop fuel (encodeProps ps ++ beyond) (length (encodeProps ps)) = Ret (shownProps ps).
Proof.
  induction 1 as [|[k v] ps [Hk Hv] Hps IH]; intros fuel beyond Hf; [now destruct fuel|]. destruct fuel as [|fuel]; [cbn in Hf; lia|].
  rewrite encodeProps_length, encodeProps_cons. cbn [dumpLoop fst snd] in *.
  destruct (length k + 1 + (length v + 1) + length (encodeProps ps))%nat as [|m] eqn:Em; [lia|]. rewrite <- Em. clear m Em.
  rewrite strlen_app by done. cbn [mbind outcome_bind]. destruct (Nat.leb_spec (length k + 1 + (length v + 1) + length (encodeProps ps)) (length k + 1)); [lia|].
  rewrite drop_cstring, strlen_app by done. cbn [mbind outcome_bind]. rewrite drop_cstring, !take_app_length.
  replace (length k + 1 + (length v + 1) + length (encodeProps ps) - (length k + 1) - (length v + 1))%nat with (length (encodeProps ps)) by lia.
  rewrite IH by (cbn in Hf; lia). unfold shownProps. cbn [map concat fst snd mbind outcome_bind]. now rewrite <- !app_assoc.
Qed.

(** A dump shows every property, in order. *)
Theorem dump_ok fl number ps beyond body withBody :
  okProps ps -> isAck fl = false ->
  dump fl number (encodeProps ps) beyond body withBody
  = Ret (dumpHeader fl number ++ (lit " {" ++ shownProps ps
         ++ (if withBody then [10; 9] ++ lit "BODY: " ++ dumpSlice body else [10; 9] ++ lit "BODY: " ++ to_string (Z.of_nat (length body)) ++ lit " bytes")
         ++ lit " }") ++ [10]).
Proof.
  intros H Ha. unfold dump. unfold isAck in Ha. apply orb_false_iff in Ha as [-> ->]. cbn [negb andb].
  rewrite dumpLoop_ok by (done || apply props_short). reflexivity.
Qed.

(** In a message that was built, what is searched is found: the sender sees the same properties as the receiver ([BlipMessage.property]). *)
Theorem find_property_built fl ps body name payload :
  okProps ps -> Z.of_nat (length (encodeProps ps)) <= kMaxPropertiesSize -> typeOf fl < kAckRequestType -> build ps body emptyBuilder = Ret payload ->
  findPropertyOut fl payload name = Ret (firstProp name ps)
  /\ property (encodeProps ps) name = Ret (default [] (firstProp name ps)).
Proof.
  intros Hps Hsz Ht Hb. rewrite build_run in Hb by done. injection Hb as <-. split.
  - unfold findPropertyOut, getPropsAndBodyOut. destruct (Z.ltb_spec (typeOf fl) kAckRequestType); [|lia]. rewrite blip_parts by done. cbn [mbind outcome_bind fst snd].
    apply findLoop_ok; [done|apply props_short].
  - rewrite property_lookup by done. f_equal. clear. induction ps as [|[k v] ps IH]; [done|]. cbn. rewrite IH.
    rewrite (bool_decide_ext (name = k) (k = name)) by done. now case_bool_decide.
Qed.
