(* ===== verification/BlipCodec.v ===== *)
(** The BLIP codecs ([src/io/blip/Codec.hh], [Codec.cc], [Codec_Impl.hh], and
    [encodeBig]/[decodeBig] of [src/support/Endian.hh]): raw copying, the running
    checksum, and the deflater and inflater over miniz.

    miniz is outside: its CRC, compressor and decompressor are parameters.  A codec is
    the base class's checksum with the state of the derived class; [Flate] is the
    derived class's [write] for the modes that are not Raw. *)

From S2P Require Import Prelude.

Local Open Scope Z_scope.

(** * Big-endian words *)

(** [encodeBig] on a little-endian host, then the four bytes in memory order. *)
Definition bswap32 (x : Z) : Z :=
  Z.lor (Z.lor (Z.shiftr (Z.land x 0xff000000) 24) (Z.shiftr (Z.land x 0x00ff0000) 8))
        (Z.lor (Z.shiftl (Z.land x 0x0000ff00) 8) (Z.shiftl (Z.land x 0x000000ff) 24)).

Definition encodeBig (x : Z) : Z := bswap32 x.
Definition decodeBig (x : Z) : Z := bswap32 x.

(** The bytes of a 32-bit word in memory, and back. *)
Definition mem32 (x : Z) : bytes := [u8 x; u8 (Z.shiftr x 8); u8 (Z.shiftr x 16); u8 (Z.shiftr x 24)].

Definition load32 (b : bytes) : Z :=
  nth 0 b 0 + 256 * (nth 1 b 0 + 256 * (nth 2 b 0 + 256 * nth 3 b 0)).

Lemma u32_decompose x : 0 <= x < 2 ^ 32 ->
  exists a b c d, is_byte a /\ is_byte b /\ is_byte c /\ is_byte d
    /\ x = a + 256 * (b + 256 * (c + 256 * d)).
Proof.
  intros Hx. exists (x mod 256), (x / 256 mod 256), (x / 65536 mod 256), (x / 16777216). unfold is_byte.
  Z.to_euclidean_division_equations. lia.
Qed.

Lemma shiftr_word a b n k :
  0 <= n -> 0 <= a < 2 ^ n -> k = n -> Z.shiftr (a + 2 ^ n * b) k = b.
Proof.
  intros Hn Ha ->. rewrite Z.shiftr_div_pow2 by lia. rewrite Z.mul_comm, Z.div_add by lia. rewrite Z.div_small by lia. lia.
Qed.

Lemma land_shifted x m k : 0 <= k -> Z.land x (Z.shiftl m k) = Z.shiftl (Z.land (Z.shiftr x k) m) k.
Proof.
  intros Hk. apply Z.bits_inj'. intros i Hi. rewrite Z.land_spec, !Z.shiftl_spec, Z.land_spec by lia.
  destruct (Z.ltb_spec i k).
  - rewrite (Z.testbit_neg_r m) by lia. rewrite (Z.testbit_neg_r (Z.shiftr x k)) by lia. now rewrite andb_false_r.
  - rewrite Z.shiftr_spec by lia. f_equal. f_equal. lia.
Qed.

Lemma land_ff x : Z.land x 0xff = x mod 256.
Proof. change 0xff with (Z.ones 8). now rewrite Z.land_ones by lia. Qed.

Lemma lor_disjoint a b k : 0 <= k -> 0 <= a < 2 ^ k -> Z.lor a (Z.shiftl b k) = a + 2 ^ k * b.
Proof. intros Hk Ha. rewrite lor_add_shiftl by done. lia. Qed.

Lemma bswap32_bytes a b c d :
  is_byte a -> is_byte b -> is_byte c -> is_byte d ->
  bswap32 (a + 256 * (b + 256 * (c + 256 * d))) = d + 256 * (c + 256 * (b + 256 * a)).
Proof.
  unfold is_byte. intros Ha Hb Hc Hd. set (x := a + 256 * (b + 256 * (c + 256 * d))). unfold bswap32.
  change 0xff000000 with (Z.shiftl 0xff 24). change 0x00ff0000 with (Z.shiftl 0xff 16).
  change 0x0000ff00 with (Z.shiftl 0xff 8). rewrite !land_shifted by lia.
  assert (Z.shiftr x 24 = d) as -> by (unfold x; rewrite Z.shiftr_div_pow2 by lia; change (2 ^ 24) with 16777216; Z.to_euclidean_division_equations; lia).
  assert (Z.shiftr x 16 = c + 256 * d) as -> by (unfold x; rewrite Z.shiftr_div_pow2 by lia; change (2 ^ 16) with 65536; Z.to_euclidean_division_equations; lia).
  assert (Z.shiftr x 8 = b + 256 * (c + 256 * d)) as -> by (unfold x; rewrite Z.shiftr_div_pow2 by lia; change (2 ^ 8) with 256; Z.to_euclidean_division_equations; lia).
  rewrite !land_ff. rewrite (Z.mod_small d) by lia.
  replace ((c + 256 * d) mod 256) with c by (rewrite Z.mul_comm, Z_mod_plus_full, Z.mod_small; lia).
  replace ((b + 256 * (c + 256 * d)) mod 256) with b by (rewrite Z.mul_comm, Z_mod_plus_full, Z.mod_small; lia).
  replace (x mod 256) with a by (unfold x; rewrite Z.mul_comm, Z_mod_plus_full, Z.mod_small; lia).
  rewrite Z.shiftr_shiftl_l, Z.shiftr_shiftl_l, !Z.shiftl_shiftl by lia. cbn [Z.sub Z.add Z.opp Pos.sub Z.pos_sub Pos.pred_double].
  change (24 - 24) with 0. change (16 - 8) with 8. change (8 + 8) with 16. rewrite Z.shiftl_0_r.
  rewrite (lor_disjoint d c 8) by lia.
  assert (Z.lor (Z.shiftl b 16) (Z.shiftl a 24) = Z.shiftl (b + 256 * a) 16) as ->.
  { replace (Z.shiftl a 24) with (Z.shiftl (Z.shiftl a 8) 16) by (rewrite Z.shiftl_shiftl by lia; done).
    rewrite <- Z.shiftl_lor, (lor_disjoint b a 8) by lia. done. }
  rewrite lor_disjoint by (change (2 ^ 16) with 65536; lia). change (2 ^ 16) with 65536. lia.
Qed.

(** A word written big-endian is read back, and its bytes are most significant first. *)
Lemma big_endian_roundtrip x : 0 <= x < 2 ^ 32 -> decodeBig (load32 (mem32 (encodeBig x))) = x.
Proof.
  intros Hx. destruct (u32_decompose x Hx) as (a & b & c & d & Ha & Hb & Hc & Hd & ->). unfold decodeBig, encodeBig.
  rewrite bswap32_bytes by done.
  assert (load32 (mem32 (d + 256 * (c + 256 * (b + 256 * a)))) = d + 256 * (c + 256 * (b + 256 * a))) as ->.
  { unfold load32, mem32. cbn [nth]. rewrite !u8_mod, !Z.shiftr_div_pow2 by lia. unfold is_byte in *.
    change (2 ^ 8) with 256. change (2 ^ 16) with 65536. change (2 ^ 24) with 16777216.
    Z.to_euclidean_division_equations. lia. }
  now apply bswap32_bytes.
Qed.

(** * Codecs *)

Inductive Mode := Raw | NoFlush | PartialFlush | SyncFlush | FullFlush | Finish | Block | Trees.

#[export] Instance Mode_eq_dec : EqDecision Mode.
Proof. solve_decision. Defined.

Definition kChecksumSize : nat := 4.

Record Codec (I : Type) := mkCodec { _checksum : Z; impl : I }.
Arguments mkCodec {_} _ _.
Arguments _checksum {_} _.
Arguments impl {_} _.

(** [write] of a derived class: the bytes written to an output of the given size, and
    what is left of the input. *)
Class Flate (I : Type) := {
  flateWrite : Mode -> bytes -> nat -> Codec I -> outcome (bytes * bytes * Codec I);
  unflushedBytes : Codec I -> nat
}.

Section codec.
Context (crc32 : Z -> bytes -> Z) {I : Type} {FI : Flate I}.

Definition newCodec (i : I) : Codec I := mkCodec (crc32 0 []) i.

Definition addToChecksum (data : bytes) (c : Codec I) : Codec I := mkCodec (crc32 (_checksum c) data) (impl c).

Definition writeChecksum (c : Codec I) : bytes := mem32 (encodeBig (_checksum c)).

Definition readChecksum (input : bytes) : outcome Z :=
  if (kChecksumSize <=? length input)%nat then Ret (decodeBig (load32 input)) else Raise (EBlip InvalidFrame).

Definition verifyChecksum (expectedChecksum : Z) (c : Codec I) : outcome unit :=
  if negb (expectedChecksum =? _checksum c) then Raise (EBlip BadChecksum) else Ret tt.

Definition readAndVerifyChecksum (input : bytes) (c : Codec I) : outcome unit :=
  x ← readChecksum input; verifyChecksum x c.

(** [_writeRaw]. *)
Definition writeRaw (input : bytes) (outSize : nat) (c : Codec I) : outcome (bytes * bytes * Codec I) :=
  _ ← precondition (0 <? outSize)%nat;
  let count := Nat.min (length input) outSize in
  Ret (take count input, drop count input, addToChecksum (take count input) c).

Definition cwrite (mode : Mode) (input : bytes) (outSize : nat) (c : Codec I) : outcome (bytes * bytes * Codec I) :=
  match mode with
  | Raw => writeRaw input outSize c
  | _ => flateWrite mode input outSize c
  end.

Definition growSize (inputSize : nat) : nat :=
  Z.to_nat (Z.min (Z.max (4 * Z.of_nat inputSize) 4096) 32768).

(** The loop of [writeAll]: [acc] is the output so far, [free] the room left in it. *)
Fixpoint writeAllLoop (fuel : nat) (mode : Mode) (input acc : bytes) (free : nat) (c : Codec I) : outcome (bytes * Codec I) :=
  match fuel with
  | O => Fault NoFuel
  | S f =>
      let free := if (free =? 0)%nat then growSize (length input) else free in
      r ← cwrite mode input free c;
      let '(written, input, c) := r in
      let free := (free - length written)%nat in
      if (bool_decide (input = []) && (0 <? free)%nat) then Ret (acc ++ written, c)
      else writeAllLoop f mode input (acc ++ written) free c
  end.

(** What [writeAll] appends to the string. *)
Definition writeAll (fuel : nat) (mode : Mode) (input : bytes) (c : Codec I) : outcome (bytes * Codec I) :=
  match mode with
  | Raw => Ret (input, addToChecksum input c)
  | _ => writeAllLoop fuel mode input [] 0 c
  end.
End codec.

(** [NullCodec]. *)
#[export] Instance null_codec : Flate unit := {|
  flateWrite _ _ _ _ := Raise (EBlip CompressionError);
  unflushedBytes _ := 0%nat
|}.

(** ** The deflater *)

Section deflater.
Context (crc32 : Z -> bytes -> Z) (D : Type).

Inductive tdefl_status := TDEFL_BAD_PARAM | TDEFL_FAILED | TDEFL_OK.

Inductive tdefl_flush := TDEFL_NO_FLUSH | TDEFL_SYNC_FLUSH | TDEFL_FULL_FLUSH | TDEFL_FINISH.

(** [tdefl_compress] on an input, an output size and a flush mode: status, bytes
    consumed, bytes written, new state. *)
Context (tdefl_compress : D -> bytes -> nat -> tdefl_flush -> tdefl_status * nat * bytes * D).

(** The table of flush modes; the other modes have no entry. *)
Definition kModeToFlush (mode : Mode) : option tdefl_flush :=
  match mode with
  | NoFlush => Some TDEFL_NO_FLUSH
  | PartialFlush | SyncFlush => Some TDEFL_SYNC_FLUSH
  | FullFlush => Some TDEFL_FULL_FLUSH
  | Finish => Some TDEFL_FINISH
  | Raw | Block | Trees => None
  end.

Definition deflWrite (mode : Mode) (input : bytes) (outSize : nat) (maxInput : Z) (c : Codec D)
  : outcome (bytes * bytes * Codec D) :=
  match kModeToFlush mode with
  | None => Fault AssertFailed
  | Some flush =>
      let inp := take (Z.to_nat (Z.min (Z.of_nat (length input)) maxInput)) input in
      let '(status, inSize, out, st) := tdefl_compress (impl c) inp outSize flush in
      match status with
      | TDEFL_BAD_PARAM => Raise (ECrouton InvalidArgument)
      | TDEFL_FAILED => Fault AssertFailed
      | TDEFL_OK =>
          Ret (out, drop inSize input, mkCodec (crc32 (_checksum c) (take inSize input)) st)
      end
  end.

Definition kHeadroomForFlush : Z := 12.
Definition kStopAtOutputSize : nat := 100.

(** The loop of [_writeAndFlush]; the flag is whether the last write flushed.
    [output.size() - kHeadroomForFlush] wraps around. *)
Fixpoint deflLoop (fuel : nat) (input acc : bytes) (outSize : nat) (synced : bool) (c : Codec D)
  : outcome (bytes * bytes * nat * bool * Codec D) :=
  match input with
  | [] => Ret (acc, input, outSize, synced, c)
  | _ =>
      match fuel with
      | O => Fault NoFuel
      | S f =>
          let fits := (length input + 12 <=? outSize)%nat in
          r ← (if fits then deflWrite SyncFlush input outSize (2 ^ 64 - 1) c
               else deflWrite (if synced then SyncFlush else PartialFlush) input outSize
                      (u64 (Z.of_nat outSize - kHeadroomForFlush)) c);
          let '(out, input, c) := r in
          let outSize := (outSize - length out)%nat in
          let synced := synced || fits in
          if (outSize <=? kStopAtOutputSize)%nat then Ret (acc ++ out, input, outSize, synced, c)
          else deflLoop f input (acc ++ out) outSize synced c
      end
  end.

Definition writeAndFlush (input : bytes) (outSize : nat) (c : Codec D) : outcome (bytes * bytes * Codec D) :=
  r ← deflLoop (S (length input)) input [] outSize false c;
  let '(out, input, outSize, synced, c) := r in
  if (synced : bool) then Ret (out, input, c)
  else
    r ← deflWrite SyncFlush input outSize 0 c;
    let '(out', input, c) := r in
    Ret (out ++ out', input, c).

#[local] Instance miniz_deflater : Flate D := {|
  flateWrite _ input outSize c := writeAndFlush input outSize c;
  unflushedBytes _ := 0%nat
|}.
End deflater.

(** ** The inflater *)

Section inflater.
Context (crc32 : Z -> bytes -> Z) (T : Type).

Inductive tinfl_status := TINFL_BAD_PARAM | TINFL_ADLER32_MISMATCH | TINFL_FAILED | TINFL_OK.

(** [tinfl_decompress] on an input, the output buffer (its dictionary), the position
    to write at, the room there, and whether more input may come: status, bytes
    consumed, bytes written, new state. *)
Context (tinfl_decompress : T -> bytes -> bytes -> nat -> nat -> bool -> tinfl_status * nat * bytes * T).

Record Inflater := mkInflater { _state : T; _outputPos : nat; _clientPos : nat; _outputBuf : bytes }.

Definition kBufSize : nat := Z.to_nat 32768.

(** [memcpy] of [d] into the buffer at [pos]. *)
Definition splice (pos : nat) (d buf : bytes) : bytes := take pos buf ++ d ++ drop (pos + length d) buf.

Definition recycle (i : Inflater) : Inflater * bool :=
  let bufferFull := (_outputPos i =? kBufSize)%nat in
  if bufferFull && (_clientPos i =? _outputPos i)%nat
  then (mkInflater (_state i) 0 0 (_outputBuf i), false)
  else (i, bufferFull).

Definition inflateSome (mode : Mode) (input : bytes) (i : Inflater) : outcome (bytes * Inflater) :=
  let '(i, bufferFull) := recycle i in
  if negb (bool_decide (input = [])) && negb bufferFull then
    let '(status, inSize, out, st) :=
      tinfl_decompress (_state i) input (_outputBuf i) (_outputPos i) (kBufSize - _outputPos i)
        (negb (bool_decide (mode = Finish))) in
    match status with
    | TINFL_BAD_PARAM => Raise (ECrouton InvalidArgument)
    | TINFL_ADLER32_MISMATCH => Raise (EBlip CompressionError)
    | TINFL_FAILED => Raise (ECrouton ParseError)
    | TINFL_OK =>
        Ret (drop inSize input,
             mkInflater st (_outputPos i + length out) (_clientPos i) (splice (_outputPos i) out (_outputBuf i)))
    end
  else Ret (input, i).

(** Bytes inflated that the client has not been given. *)
Definition pending (i : Inflater) : bytes := take (_outputPos i - _clientPos i) (drop (_clientPos i) (_outputBuf i)).

Definition inflWrite (mode : Mode) (input : bytes) (outSize : nat) (c : Codec Inflater)
  : outcome (bytes * bytes * Codec Inflater) :=
  r ← inflateSome mode input (impl c);
  let '(input, i) := r in
  let avail := pending i in
  let result := take outSize avail in
  let i := mkInflater (_state i) (_outputPos i) (_clientPos i + length result) (_outputBuf i) in
  let c := mkCodec (match avail with [] => _checksum c | _ => crc32 (_checksum c) result end) i in
  Ret (result, input, c).

Definition inflUnflushed (c : Codec Inflater) : nat := (_outputPos (impl c) - _clientPos (impl c))%nat.

#[local] Instance miniz_inflater : Flate Inflater := {|
  flateWrite := inflWrite;
  unflushedBytes := inflUnflushed
|}.

(** *** The inflater's buffer *)

(** What miniz documents: it consumes part of the input and fills part of the room. *)
Context (tinfl_bounds : forall st input buf pos room more status used out st',
  tinfl_decompress st input buf pos room more = (status, used, out, st') ->
  (used <= length input)%nat /\ (length out <= room)%nat).

Definition goodInflater (i : Inflater) : Prop :=
  (_clientPos i <= _outputPos i <= kBufSize)%nat /\ length (_outputBuf i) = kBufSize.

(** What miniz decompresses in one call of [write]. *)
Definition inflated (mode : Mode) (input : bytes) (i : Inflater) : bytes :=
  let '(i, bufferFull) := recycle i in
  if negb (bool_decide (input = [])) && negb bufferFull then
    snd (fst (tinfl_decompress (_state i) input (_outputBuf i) (_outputPos i) (kBufSize - _outputPos i)
                (negb (bool_decide (mode = Finish)))))
  else [].

Lemma splice_length pos d buf : (pos + length d <= length buf)%nat -> length (splice pos d buf) = length buf.
Proof. intros H. unfold splice. rewrite !length_app, length_take, length_drop. lia. Qed.

Lemma pending_splice st i out :
  goodInflater i -> (length out <= kBufSize - _outputPos i)%nat ->
  pending (mkInflater st (_outputPos i + length out) (_clientPos i) (splice (_outputPos i) out (_outputBuf i)))
  = pending i ++ out.
Proof.
  intros [[H1 H2] H3] Hout. unfold pending, splice. cbn [_outputPos _clientPos _outputBuf].
  rewrite drop_app_le by (rewrite length_take; lia). rewrite skipn_firstn_comm.
  replace (_outputPos i + length out - _clientPos i)%nat with ((_outputPos i - _clientPos i) + length out)%nat by lia.
  set (a := take (_outputPos i - _clientPos i) (drop (_clientPos i) (_outputBuf i))).
  assert (length a = _outputPos i - _clientPos i)%nat as Ha by (unfold a; rewrite length_take, length_drop; lia).
  rewrite take_app, Ha, take_ge by lia. f_equal.
  replace (_outputPos i - _clientPos i + length out - (_outputPos i - _clientPos i))%nat with (length out) by lia.
  now rewrite take_app_length.
Qed.

Lemma recycle_spec i :
  goodInflater i -> goodInflater (recycle i).1 /\ pending (recycle i).1 = pending i
  /\ (_outputPos (recycle i).1 = kBufSize -> (recycle i).2 = true).
Proof.
  intros Hg. unfold recycle. destruct (Nat.eqb_spec (_outputPos i) kBufSize) as [E|E]; cbn [andb].
  - destruct (Nat.eqb_spec (_clientPos i) (_outputPos i)) as [F|F]; cbn [fst snd]; [|now split_and!].
    split_and!.
    + destruct Hg as [_ Hg]. split; [cbn; unfold kBufSize; lia|exact Hg].
    + unfold pending. cbn [_outputPos _clientPos]. now rewrite F, !Nat.sub_diag, !take_0.
    + cbn. unfold kBufSize. lia.
  - cbn [fst snd]. split_and!; [done|done|done].
Qed.

Lemma inflateSome_spec mode input i rest i' :
  goodInflater i -> inflateSome mode input i = Ret (rest, i') ->
  goodInflater i' /\ pending i' = pending i ++ inflated mode input i /\ exists k, rest = drop k input.
Proof.
  intros Hg. unfold inflateSome, inflated. destruct (recycle_spec i Hg) as (Hg1 & Hp & Hfull).
  destruct (recycle i) as [i1 full]. cbn [fst snd] in *. rewrite <- Hp.
  destruct (negb (bool_decide (input = [])) && negb full) eqn:Ec; cycle 1.
  { intros [= <- <-]. rewrite app_nil_r. split_and!; [done|done|]. exists 0%nat. now rewrite drop_0. }
  destruct (tinfl_decompress _ _ _ _ _ _) as [[[status used] out] st] eqn:E. apply tinfl_bounds in E as [Hu Ho].
  destruct status; try done. intros [= <- <-]. cbn [fst snd].
  split; [|split; [now apply pending_splice|now exists used]].
  destruct Hg1 as [[G1 G2] G3]. split; cbn [_outputPos _clientPos _outputBuf]; [lia|]. rewrite splice_length by lia. done.
Qed.

Lemma inflWrite_spec mode input n c w rest c' :
  goodInflater (impl c) -> inflWrite mode input n c = Ret (w, rest, c') ->
  goodInflater (impl c') /\ pending (impl c) ++ inflated mode input (impl c) = w ++ pending (impl c')
  /\ (length w <= n)%nat.
Proof.
  intros Hg. unfold inflWrite, mbind, outcome_bind.
  destruct (inflateSome mode input (impl c)) as [[rest1 i1]| |] eqn:E; [|done|done].
  apply inflateSome_spec in E as (Hg1 & Hp & _); [|done]. intros [= <- <- <-]. cbn [impl]. rewrite <- Hp.
  destruct Hg1 as [[G1 G2] G3].
  assert (length (pending i1) = _outputPos i1 - _clientPos i1)%nat as Hl
    by (unfold pending; rewrite length_take, length_drop; lia).
  assert (length (take n (pending i1)) <= length (pending i1))%nat by (rewrite length_take; lia).
  split_and!.
  - split; cbn [_outputPos _clientPos _outputBuf]; [lia|done].
  - rewrite <- (take_drop n (pending i1)) at 1. f_equal. unfold pending at 2. cbn [_outputPos _clientPos _outputBuf].
    rewrite length_take, Hl. unfold pending. rewrite skipn_firstn_comm, drop_drop.
    destruct (decide (n <= _outputPos i1 - _clientPos i1)%nat) as [H2|H2].
    + rewrite Nat.min_l by lia. f_equal. lia.
    + rewrite Nat.min_r by lia.
      replace (_outputPos i1 - _clientPos i1 - n)%nat with 0%nat by lia.
      replace (_outputPos i1 - (_clientPos i1 + (_outputPos i1 - _clientPos i1)))%nat with 0%nat by lia. now rewrite !take_0.
  - rewrite length_take. lia.
Qed.

(** A series of calls of [write], with the bytes given to the client and the bytes
    miniz decompressed. *)
Fixpoint inflateRun (calls : list (Mode * bytes * nat)) (c : Codec Inflater) : outcome (bytes * bytes * Codec Inflater) :=
  match calls with
  | [] => Ret ([], [], c)
  | (mode, input, n) :: r =>
      x ← inflWrite mode input n c;
      y ← inflateRun r x.2;
      Ret (x.1.1 ++ y.1.1, inflated mode input (impl c) ++ y.1.2, y.2)
  end.

(** C37: whatever inputs and output sizes [write] is called with, and however often the
    32K buffer fills up and is recycled, the client is given the decompressed bytes
    in order, each once: what was given and what is still in the buffer is what miniz
    produced. *)
Theorem inflater_lossless calls c given produced c' :
  goodInflater (impl c) -> inflateRun calls c = Ret (given, produced, c') ->
  goodInflater (impl c') /\ pending (impl c) ++ produced = given ++ pending (impl c').
Proof.
  revert c given produced. induction calls as [|[[mode input] n] r IH]; intros c given produced Hg; cbn [inflateRun].
  - intros [= <- <- <-]. now rewrite app_nil_r.
  - unfold mbind, outcome_bind. destruct (inflWrite mode input n c) as [[[w rest] c1]| |] eqn:E; [|done|done]. cbn [fst snd].
    destruct (inflateRun r c1) as [[[g p] c2]| |] eqn:E2; [|done|done]. intros [= <- <- <-]. cbn [fst snd].
    apply inflWrite_spec in E as (Hg1 & Hp & _); [|done]. destruct (IH c1 g p Hg1 E2) as [Hg2 Hp2].
    split; [done|]. rewrite app_assoc, Hp, <- !app_assoc. f_equal. done.
Qed.
End inflater.

(** A decompressor that copies its input, two bytes at a time at most. *)
Definition copyTwo (st : unit) (input buf : bytes) (pos room : nat) (more : bool)
  : tinfl_status * nat * bytes * unit :=
  let n := Nat.min 2 (Nat.min (length input) room) in (TINFL_OK, n, take n input, tt).

Lemma inflater_lossless_witness :
  let c := mkCodec 0 (mkInflater unit tt 0 0 (repeat 0 kBufSize)) in
  exists c', inflateRun (fun x _ => x) unit copyTwo [(SyncFlush, [1; 2; 3], 1%nat); (SyncFlush, [3], 5%nat)] c
      = Ret ([1; 2; 3], [1; 2; 3], c')
    /\ pending unit (impl c) ++ [1; 2; 3] = [1; 2; 3] ++ pending unit (impl c').
Proof.
  intros c.
  assert (goodInflater unit (impl c)) as Hg by (split; [cbn; unfold kBufSize; lia|apply repeat_length]).
  assert (forall st input buf pos room more status used out st',
    copyTwo st input buf pos room more = (status, used, out, st') ->
    (used <= length input)%nat /\ (length out <= room)%nat) as Hb.
  { intros st input buf pos room more status used out st' E. unfold copyTwo in E. remember (Nat.min 2 (Nat.min (length input) room)) as k eqn:Ek.
    injection E as _ <- <- _. rewrite length_take. lia. }
  assert (match inflateRun (fun x _ => x) unit copyTwo [(SyncFlush, [1; 2; 3], 1%nat); (SyncFlush, [3], 5%nat)] c with
          | Ret (g, p, _) => Some (g, p) | _ => None end = Some ([1; 2; 3], [1; 2; 3])) as Hr by (vm_compute; reflexivity).
  destruct (inflateRun (fun x _ => x) unit copyTwo [(SyncFlush, [1; 2; 3], 1%nat); (SyncFlush, [3], 5%nat)] c)
    as [[[g p] c']| |] eqn:E; [|discriminate Hr|discriminate Hr].
  injection Hr as -> ->. exists c'. split; [reflexivity|].
  exact (proj2 (inflater_lossless (fun x _ => x) unit copyTwo Hb _ c _ _ c' Hg E)).
Defined.
