(* ===== verification/ZlibCodec.v ===== *)
(** The BLIP codecs over zlib ([ZlibCodec], [ZlibDeflater] and [ZlibInflater] of [src/io/blip/Codec.cc] and [Codec_Impl.hh]), the
    alternative to miniz ([BlipCodec.v]).

    zlib is outside: the class [Zlib] is the calls the code makes, and [ZlibLaws] what zlib documents of them.  [deflate] and
    [inflate] are given the input, the room for output and the mode, and give a status, how much of the input was used, the
    output, and the new state.  Input and output sizes are passed as [unsigned]. *)

From S2P Require Import Prelude BlipCodec.

Local Open Scope Z_scope.

Definition Z_OK : Z := 0.
Definition Z_BUF_ERROR : Z := -5.

Class Zlib (D T : Type) := {
  deflate : D -> bytes -> nat -> Mode -> Z * nat * bytes * D;
  deflateBound : D -> nat -> nat;
  (** status, bytes and bits *)
  deflatePending : D -> Z * nat * nat;
  inflate : T -> bytes -> nat -> Mode -> Z * nat * bytes * T
}.

(** What goes into a compressor and out of it, into a decompressor and out of it, and the meaning of compressed data.  A flush that leaves
    room has used all of the input, and all of it can be decompressed; [inflate] stops when the input is used up or the output is
    full. *)
Class ZlibLaws (D T : Type) {ZL : Zlib D T} := {
  decode : bytes -> bytes;
  consumed : D -> bytes;
  emitted : D -> bytes;
  fed : T -> bytes;
  given : T -> bytes;

  deflate_io d inp room mode ret used out d' : deflate d inp room mode = (ret, used, out, d') -> mode <> Raw -> (0 < room)%nat ->
    (0 <= ret \/ ret = Z_BUF_ERROR) /\ (used <= length inp)%nat /\ (length out <= room)%nat
    /\ consumed d' = consumed d ++ take used inp /\ emitted d' = emitted d ++ out;
  deflate_progress d inp room mode ret used out d' : deflate d inp room mode = (ret, used, out, d') -> mode <> Raw -> (0 < room)%nat ->
    inp <> [] -> (0 < used)%nat \/ out <> [];
  deflate_flush d inp room ret used out d' : deflate d inp room SyncFlush = (ret, used, out, d') -> (length out < room)%nat ->
    used = length inp /\ decode (emitted d') = consumed d';
  pending_ok d : (deflatePending d).1.1 = Z_OK;

  inflate_io d t inp room ret used out t' : inflate t inp room SyncFlush = (ret, used, out, t') -> (0 < room)%nat ->
    fed t ++ inp = emitted d -> given t `prefix_of` decode (emitted d) ->
    (0 <= ret \/ ret = Z_BUF_ERROR) /\ (used <= length inp)%nat /\ (length out <= room)%nat
    /\ fed t' = fed t ++ take used inp /\ given t' = given t ++ out /\ given t' `prefix_of` decode (emitted d)
    /\ ((length out < room)%nat -> used = length inp /\ given t' = decode (emitted d))
}.

(** * The base class *)

(** [check]. *)
Definition zlibCheck (ret : Z) : outcome unit :=
  if (ret <? 0) && negb (ret =? Z_BUF_ERROR) then Raise (EBlip CompressionError) else Ret tt.

(** [ZlibCodec::_write]: the output, the rest of the input, the state. *)
Definition zlibWrite {S} (flate : S -> bytes -> nat -> Mode -> Z * nat * bytes * S)
    (mode : Mode) (input : bytes) (outSize : nat) (maxInput : Z) (z : S) : outcome (bytes * bytes * S) :=
  let avail_in := Z.to_nat (u32 (Z.min (Z.of_nat (length input)) maxInput)) in
  let avail_out := Z.to_nat (u32 (Z.of_nat outSize)) in
  _ ← precondition (0 <? avail_out)%nat;
  _ ← precondition (negb (bool_decide (mode = Raw)));
  let '(result, used, out, z) := flate z (take avail_in input) avail_out mode in
  _ ← zlibCheck result;
  Ret (out, drop used input, z).

Definition SIZE_MAX : Z := 2 ^ 64 - 1.

Section zlib.
Context (crc32 : Z -> bytes -> Z) {D T : Type} {ZL : Zlib D T}.

(** * The deflater *)

(** The loop of [_writeAndFlush]; [synced] is [curMode == SyncFlush].  [output.size() - kHeadroomForFlush] wraps around. *)
Fixpoint zlibFlushLoop (fuel : nat) (input acc : bytes) (outSize : nat) (synced : bool) (z : D)
  : outcome (bytes * bytes * nat * bool * D) :=
  match input with
  | [] => Ret (acc, input, outSize, synced, z)
  | _ =>
      match fuel with
      | O => Fault NoFuel
      | S f =>
          let fits := (deflateBound z (length input) <=? outSize)%nat in
          r ← (if fits then zlibWrite deflate SyncFlush input outSize SIZE_MAX z
               else zlibWrite deflate (if synced then SyncFlush else PartialFlush) input outSize
                      (u64 (Z.of_nat outSize - kHeadroomForFlush)) z);
          let '(out, input, z) := r in
          let outSize := (outSize - length out)%nat in
          let synced := synced || fits in
          if (outSize <=? kStopAtOutputSize)%nat then Ret (acc ++ out, input, outSize, synced, z)
          else zlibFlushLoop f input (acc ++ out) outSize synced z
      end
  end.

Definition zlibWriteAndFlush (input : bytes) (outSize : nat) (z : D) : outcome (bytes * bytes * D) :=
  r ← zlibFlushLoop (S (length input + outSize)) input [] outSize false z;
  let '(out, input, outSize, synced, z) := r in
  if (synced : bool) then Ret (out, input, z)
  else
    r ← zlibWrite deflate SyncFlush input outSize 0 z;
    let '(out', input, z) := r in
    Ret (out ++ out', input, z).

Definition zlibUnflushed (z : D) : outcome nat :=
  let '(ret, nbytes, bits) := deflatePending z in
  _ ← zlibCheck ret;
  Ret (nbytes + (if (0 <? bits)%nat then 1 else 0))%nat.

(** [ZlibDeflater::write], for modes that are not Raw.  The message that is logged at the end divides by the number of bytes read, whether
    the message is wanted or not: that is undefined for 0. *)
Definition zlibDeflWrite (mode : Mode) (input : bytes) (outSize : nat) (c : Codec D) : outcome (bytes * bytes * Codec D) :=
  r ← (match mode with
       | NoFlush => zlibWrite deflate mode input outSize SIZE_MAX (impl c)
       | SyncFlush | Finish => zlibWriteAndFlush input outSize (impl c)
       | _ => Raise (ECrouton InvalidArgument)
       end);
  let '(out, rest, z) := r in
  let used := (length input - length rest)%nat in
  let c := addToChecksum crc32 (take used input) (mkCodec (_checksum c) z) in
  if (used =? 0)%nat then Fault OutOfBounds
  else
    _ ← zlibUnflushed z;
    Ret (out, rest, c).

#[local] Instance zlib_deflater : Flate D := {|
  flateWrite := zlibDeflWrite;
  unflushedBytes c := match zlibUnflushed (impl c) with Ret n => n | _ => 0%nat end
|}.

(** * The inflater *)

Definition zlibInflWrite (mode : Mode) (input : bytes) (outSize : nat) (c : Codec T) : outcome (bytes * bytes * Codec T) :=
  r ← zlibWrite inflate mode input outSize SIZE_MAX (impl c);
  let '(out, rest, z) := r in
  Ret (out, rest, addToChecksum crc32 out (mkCodec (_checksum c) z)).

#[local] Instance zlib_inflater : Flate T := {|
  flateWrite := zlibInflWrite;
  unflushedBytes _ := 0%nat
|}.

(** * Properties *)

Context {LAWS : ZlibLaws D T}.

Definition flushed (d : D) : Prop := decode (emitted d) = consumed d.

(** Sizes that an [unsigned] holds. *)
Definition fits32 (n : nat) : Prop := Z.of_nat n < 2 ^ 32.

Lemma u32_size n : fits32 n -> Z.to_nat (u32 (Z.of_nat n)) = n.
Proof. intros H. unfold fits32 in H. rewrite u32_small by lia. lia. Qed.

Lemma zlibCheck_ok ret : 0 <= ret \/ ret = Z_BUF_ERROR -> zlibCheck ret = Ret tt.
Proof. intros [H| ->]; unfold zlibCheck; [|reflexivity]. now destruct (Z.ltb_spec ret 0); [lia|]. Qed.

(** One call of zlib's compressor. *)
Lemma zlibWrite_deflate mode input n maxInput z :
  mode <> Raw -> (0 < n)%nat -> fits32 n -> fits32 (length input) -> 0 <= maxInput ->
  exists out used rest z', zlibWrite deflate mode input n maxInput z = Ret (out, rest, z') /\ input = used ++ rest /\ (length out <= n)%nat
    /\ consumed z' = consumed z ++ used /\ emitted z' = emitted z ++ out
    /\ (input <> [] -> 0 < maxInput -> used <> [] \/ out <> [])
    /\ (mode = SyncFlush -> (length out < n)%nat -> flushed z' /\ (Z.of_nat (length input) <= maxInput -> rest = [])).
Proof.
  intros Hm Hn Hn32 Hi32 Hmax. unfold zlibWrite. rewrite (u32_size n Hn32). unfold fits32 in Hi32.
  set (k := Z.to_nat (u32 (Z.min (Z.of_nat (length input)) maxInput))).
  assert (k = Z.to_nat (Z.min (Z.of_nat (length input)) maxInput)) as Hk by (unfold k; rewrite u32_small by lia; done). clearbody k.
  assert (0 <? n = true)%nat as -> by now apply Nat.ltb_lt. rewrite bool_decide_eq_false_2 by done. cbn [precondition mbind outcome_bind negb].
  destruct (deflate z (take k input) n mode) as [[[ret used] out] z'] eqn:E.
  destruct (deflate_io _ _ _ _ _ _ _ _ E Hm Hn) as (Hret & Hu & Ho & Hc & He). rewrite zlibCheck_ok by done. rewrite length_take in Hu.
  exists out, (take used input), (drop used input), z'. split; [reflexivity|]. split; [now rewrite take_drop|]. split; [done|].
  assert (take used (take k input) = take used input) as Ht by (rewrite take_take; f_equal; lia).
  split; [now rewrite Hc, Ht|]. split; [done|]. split.
  - intros Hne Hm0. destruct (deflate_progress _ _ _ _ _ _ _ _ E Hm Hn) as [H|H]; [|left|now right].
    + intros Hz. apply (f_equal length) in Hz. rewrite length_take in Hz. destruct input; [done|]. cbn [length] in *. lia.
    + intros Hz. apply (f_equal length) in Hz. rewrite length_take in Hz. destruct input; [done|]. cbn [length] in *. lia.
  - intros -> Hlt. destruct (deflate_flush _ _ _ _ _ _ _ E Hlt) as [-> Hf]. split; [exact Hf|]. intros Hle. apply drop_ge. rewrite length_take. lia.
Qed.
(** The loop of [_writeAndFlush] ends, and keeps the account. *)
Lemma zlibFlushLoop_ok fuel : forall input acc n synced z,
  (length input + n < fuel)%nat -> (0 < n)%nat -> fits32 n -> fits32 (length input) -> (synced = true -> flushed z) ->
  exists out used rest n' synced' z', zlibFlushLoop fuel input acc n synced z = Ret (acc ++ out, rest, n', synced', z') /\ input = used ++ rest
    /\ (n' + length out = n)%nat /\ consumed z' = consumed z ++ used /\ emitted z' = emitted z ++ out
    /\ (synced' = true -> (0 < n')%nat -> flushed z') /\ (rest = [] \/ (n' <= kStopAtOutputSize)%nat).
Proof.
  induction fuel as [|fuel IH]; intros input acc n synced z Hf Hn Hn32 Hi32 Hs; [lia|]. cbn [zlibFlushLoop].
  destruct input as [|x0 input0] eqn:Ei.
  { exists [], [], [], n, synced, z. rewrite !app_nil_r. split_and!; try done; auto. }
  rewrite <- Ei in *. assert (input <> []) as Hne by (now rewrite Ei). clear Ei x0 input0.
  set (fits := (deflateBound z (length input) <=? n)%nat). clearbody fits.
  set (mode := if fits then SyncFlush else if synced then SyncFlush else PartialFlush).
  set (mx := if fits then SIZE_MAX else u64 (Z.of_nat n - kHeadroomForFlush)).
  assert ((if fits then zlibWrite deflate SyncFlush input n SIZE_MAX z
           else zlibWrite deflate (if synced then SyncFlush else PartialFlush) input n (u64 (Z.of_nat n - kHeadroomForFlush)) z)
          = zlibWrite deflate mode input n mx z) as -> by (unfold mode, mx; now destruct fits).
  assert (0 <= mx) as Hmx by (unfold mx; destruct fits; [unfold SIZE_MAX; lia|rewrite u64_mod; apply Z.mod_pos_bound; lia]).
  destruct (zlibWrite_deflate mode input n mx z) as (out & used & rest & z1 & E & Hin & Ho & Hc & He & Hp & Hfl);
    [unfold mode; now destruct fits, synced|done..|].
  rewrite E. cbn [mbind outcome_bind].
  assert (synced || fits = true -> (length out < n)%nat -> flushed z1) as Hs1.
  { intros Hsf Hlt. apply Hfl; [|done]. unfold mode. now destruct fits, synced. }
  destruct (Nat.leb_spec (n - length out) kStopAtOutputSize) as [Hstop|Hgo].
  { exists out, used, rest, (n - length out)%nat, (synced || fits), z1. split_and!; try done; [lia| |now right]. intros H1 H2. apply Hs1; [done|lia]. }
  unfold kStopAtOutputSize in Hgo.
  assert (0 < mx) as Hmx0 by (unfold mx, kHeadroomForFlush, SIZE_MAX; unfold fits32 in Hn32; destruct fits; [lia|rewrite u64_small; lia]).
  assert (length used + length rest = length input)%nat as Hl by (rewrite Hin, length_app; done).
  assert (0 < length used + length out)%nat as Hpos.
  { destruct (Hp Hne Hmx0) as [H|H]; [destruct used|destruct out]; (done || (cbn; lia)). }
  unfold fits32 in *.
  destruct (IH rest (acc ++ out) (n - length out)%nat (synced || fits) z1) as (o2 & u2 & r2 & n2 & s2 & z2 & E2 & Hin2 & Hn2 & Hc2 & He2 & Hf2 & Hw2);
    [lia|lia|lia|lia|intros H; apply Hs1; [done|lia]|].
  exists (out ++ o2), (used ++ u2), r2, n2, s2, z2. rewrite E2, Hin, Hin2, Hc2, Hc, He2, He, !app_assoc, length_app.
  split_and!; try done. lia.
Qed.

(** The output was used up, but for what is left free on purpose, before the flush. *)
Definition noRoom (n : nat) (input : bytes) (z : D) : Prop :=
  exists out rest n' synced z', zlibFlushLoop (S (length input + n)) input [] n false z = Ret (out, rest, n', synced, z')
    /\ (n' <= kStopAtOutputSize)%nat.

(** [_writeAndFlush] and the accounts of the compressor: what it returns is what came out, the rest of the input is what did not go in, and
    when there is room left, all that went in can be decompressed.  It fails only when there is no room for the flush. *)
Lemma zlibWriteAndFlush_ok input n z :
  (0 < n)%nat -> fits32 n -> fits32 (length input) ->
  (exists out used rest z', zlibWriteAndFlush input n z = Ret (out, rest, z') /\ input = used ++ rest /\ (length out <= n)%nat
     /\ consumed z' = consumed z ++ used /\ emitted z' = emitted z ++ out /\ ((length out < n)%nat -> flushed z')
     /\ (used = [] -> input = [] \/ noRoom n input z))
  \/ zlibWriteAndFlush input n z = Fault AssertFailed /\ noRoom n input z.
Proof.
  intros Hn Hn32 Hi32. unfold zlibWriteAndFlush.
  destruct (zlibFlushLoop_ok (S (length input + n)) input [] n false z) as (out & used & rest & n' & s' & z' & E & Hin & Hl & Hc & He & Hf & Hw); [lia|done..|].
  assert ((n' <= kStopAtOutputSize)%nat -> noRoom n input z) as Hnr by (intros Hk; unfold noRoom; eauto 10).
  assert (forall u r, rest = u ++ r -> used ++ u = [] -> input = [] \/ noRoom n input z) as Hnone.
  { intros u r Hr [Hu ->]%app_eq_nil. destruct Hw as [Hw|Hw]; [left|right; auto]. now rewrite Hin, Hu, Hw. }
  rewrite E. cbn [mbind outcome_bind app]. destruct s'.
  { left. exists out, used, rest, z'. split_and!; try done; [lia|intros H; apply Hf; [done|lia]|]. intros Hu. apply (Hnone [] rest); [done|now rewrite app_nil_r]. }
  destruct n' as [|n'].
  { right. split; [unfold zlibWrite; reflexivity|]. apply Hnr. lia. }
  left. assert (length used + length rest = length input)%nat as Hlen by (rewrite Hin, length_app; done). unfold fits32 in *.
  destruct (zlibWrite_deflate SyncFlush rest (S n') 0 z') as (o2 & u2 & r2 & z2 & E2 & Hin2 & Ho2 & Hc2 & He2 & _ & Hf2); [done|lia|unfold fits32; lia..|].
  rewrite E2. cbn [mbind outcome_bind]. exists (out ++ o2), (used ++ u2), r2, z2. split; [done|]. split; [now rewrite Hin, Hin2, app_assoc|].
  rewrite Hc2, Hc, He2, He, !app_assoc, length_app. split_and!; try done; [lia|intros H; apply Hf2; [done|lia]|]. intros Hu. now apply (Hnone u2 r2).
Qed.

(** [write] of the deflater with a flush.  It never runs out of rounds and never throws; it fails when there is no room for the flush, or
    when nothing was read. *)
Lemma zlibDeflWrite_ok input n c :
  (0 < n)%nat -> fits32 n -> fits32 (length input) ->
  (exists out used rest z', zlibDeflWrite SyncFlush input n c = Ret (out, rest, mkCodec (crc32 (_checksum c) used) z') /\ input = used ++ rest
     /\ used <> [] /\ (length out <= n)%nat
     /\ consumed z' = consumed (impl c) ++ used /\ emitted z' = emitted (impl c) ++ out /\ ((length out < n)%nat -> flushed z'))
  \/ exists f, zlibDeflWrite SyncFlush input n c = Fault f /\ (input = [] \/ noRoom n input (impl c)).
Proof.
  intros Hn Hn32 Hi32. unfold zlibDeflWrite.
  destruct (zlibWriteAndFlush_ok input n (impl c) Hn Hn32 Hi32) as [(out & used & rest & z' & E & Hin & Ho & Hc & He & Hf & Hu0)|[E Hnr]]; rewrite E; cbn [mbind outcome_bind]; [|eauto].
  assert (length input - length rest = length used)%nat as -> by (rewrite Hin, length_app; lia).
  destruct (Nat.eqb_spec (length used) 0) as [H0|H0]; [apply nil_length_inv in H0; eauto|]. left. exists out, used, rest, z'. split; [|split_and!; try done; now destruct used].
  unfold zlibUnflushed. pose proof (pending_ok z') as Hp. destruct (deflatePending z') as [[ret nb] bits]. cbn in Hp. subst ret. cbn.
  rewrite Hin, take_app_length. reflexivity.
Qed.

(** The CRC of a text is that of its parts in turn. *)
Context (crc32_app : forall x a b, crc32 (crc32 x a) b = crc32 x (a ++ b)).

(** One round of the inflater. *)
Lemma zlibInflWrite_ok d input n c rest :
  (0 < n)%nat -> fits32 n -> fits32 (length input) -> flushed d ->
  fed (impl c) ++ input = emitted d -> given (impl c) ++ rest = consumed d ->
  exists out inp' rest' t', zlibInflWrite SyncFlush input n c = Ret (out, inp', mkCodec (crc32 (_checksum c) out) t')
    /\ rest = out ++ rest' /\ (length inp' <= length input)%nat /\ (length out <= n)%nat /\ fed t' ++ inp' = emitted d /\ given t' ++ rest' = consumed d
    /\ ((length out < n)%nat -> inp' = [] /\ rest' = []).
Proof.
  intros Hn Hn32 Hi32 Hfl Hfed Hgiv. unfold zlibInflWrite, zlibWrite. rewrite (u32_size n Hn32).
  replace (Z.min (Z.of_nat (length input)) SIZE_MAX) with (Z.of_nat (length input)) by (unfold SIZE_MAX, fits32 in *; lia).
  rewrite (u32_size _ Hi32), firstn_all. assert (0 <? n = true)%nat as -> by now apply Nat.ltb_lt.
  cbn [precondition mbind outcome_bind negb bool_decide decide_rel]. rewrite bool_decide_eq_false_2 by done. cbn [negb].
  destruct (inflate (impl c) input n SyncFlush) as [[[ret used] out] t'] eqn:E.
  destruct (inflate_io d _ _ _ _ _ _ _ E Hn Hfed) as (Hr & Hu & Ho & Hfd & Hg & Hpre & Hall); [rewrite Hfl, <- Hgiv; apply prefix_app_r; done|].
  rewrite zlibCheck_ok by done. rewrite Hfl, Hg, <- Hgiv in Hpre. destruct Hpre as [r' Hr']. rewrite <- app_assoc in Hr'. apply app_inv_head in Hr'.
  exists out, (drop used input), r', t'. split; [reflexivity|]. split; [done|]. split; [rewrite length_drop; lia|]. split; [done|].
  split; [now rewrite Hfd, <- app_assoc, take_drop|]. split; [now rewrite Hg, <- Hgiv, Hr', app_assoc|].
  intros Hlt. destruct (Hall Hlt) as [-> Hd]. split; [apply drop_all|].
  rewrite Hfl, Hg, <- Hgiv, Hr' in Hd. apply app_inv_head in Hd. symmetry in Hd. rewrite <- (app_nil_r out) in Hd at 2. now apply app_inv_head in Hd.
Qed.

Lemma growSize_bound k : (0 < growSize k)%nat /\ fits32 (growSize k).
Proof. unfold fits32, growSize. lia. Qed.

(** The inflater gives all that can be decompressed, whatever size the output grows by. *)
Lemma zlibInflate_all d fuel : forall input acc free c rest,
  flushed d -> fed (impl c) ++ input = emitted d -> given (impl c) ++ rest = consumed d ->
  (length rest < fuel)%nat -> fits32 free -> fits32 (length input) ->
  exists c', writeAllLoop crc32 (FI := zlib_inflater) fuel SyncFlush input acc free c = Ret (acc ++ rest, c')
    /\ fed (impl c') = emitted d /\ given (impl c') = consumed d /\ _checksum c' = crc32 (_checksum c) rest.
Proof.
  induction fuel as [|fuel IH]; intros input acc free c rest Hfl Hfed Hgiv Hf Hfr Hi; [lia|]. cbn [writeAllLoop].
  set (n := if (free =? 0)%nat then growSize (length input) else free).
  assert ((0 < n)%nat /\ fits32 n) as [Hn Hn32] by (unfold n; destruct (Nat.eqb_spec free 0); [apply growSize_bound|split; [lia|done]]). clearbody n.
  destruct (zlibInflWrite_ok d input n c rest) as (out & inp' & rest' & t' & E & -> & Hle & Ho & Hfed' & Hgiv' & Hend); try done.
  unfold cwrite. cbn [flateWrite zlib_inflater]. rewrite E. cbn [mbind outcome_bind].
  destruct (decide (length out < n)%nat) as [Hlt|Hge].
  - destruct (Hend Hlt) as [-> ->]. rewrite bool_decide_eq_true_2 by done. cbn [andb]. assert (0 <? n - length out = true)%nat as -> by (apply Nat.ltb_lt; lia).
    rewrite !app_nil_r in *. eexists. split; [reflexivity|]. done.
  - assert (n - length out = 0)%nat as -> by lia. rewrite andb_false_r. rewrite length_app in Hf.
    destruct (IH inp' (acc ++ out) 0%nat (mkCodec (crc32 (_checksum c) out) t') rest') as (c' & E' & H1 & H2 & H3);
      [done..|lia|unfold fits32; lia|unfold fits32 in *; lia|].
    exists c'. rewrite E', <- app_assoc. split_and!; try done. rewrite H3. apply crc32_app.
Qed.

(** The two sides of a connection agree. *)
Record inSync (cd : Codec D) (ct : Codec T) : Prop := {
  sync_flushed : flushed (impl cd);
  sync_fed : fed (impl ct) = emitted (impl cd);
  sync_given : given (impl ct) = consumed (impl cd);
  sync_checksum : _checksum ct = _checksum cd
}.

(** Sending [input] in frames of at most these sizes, each compressed on one side and decompressed on the other; a frame must not fill up its
    buffer. *)
Fixpoint zlibFrames (ns : list nat) (input got : bytes) (cd : Codec D) (ct : Codec T) : outcome (bytes * bytes * Codec D * Codec T) :=
  match ns with
  | [] => Ret (got, input, cd, ct)
  | n :: ns =>
      w ← cwrite crc32 (FI := zlib_deflater) SyncFlush input n cd;
      let '(out, rest, cd) := w in
      _ ← precondition (length out <? n)%nat;
      r ← writeAll crc32 (FI := zlib_inflater) (S (length input)) SyncFlush out ct;
      zlibFrames ns rest (got ++ r.1) cd r.2
  end.

(** The deflater cannot make a frame of [n] bytes of the rest of the text: it fails, with no input or no room left for its flush, or fills the
    frame's buffer. *)
Definition deflaterStops (n : nat) (rest : bytes) (cd : Codec D) (f : fault) : Prop :=
  (zlibDeflWrite SyncFlush rest n cd = Fault f /\ (rest = [] \/ noRoom n rest (impl cd)))
  \/ (f = AssertFailed /\ exists out rest' cd', zlibDeflWrite SyncFlush rest n cd = Ret (out, rest', cd') /\ length out = n).

(** C38: what one side compresses, in frames of any sizes, the other decompresses: together they give the text that was sent, each frame by itself, and
    the checksums agree.  Nothing throws.  When it stops, it is the deflater that stopped: the frames before came through, and for the next one there was no
    input left, or the deflater had no room for its flush, or it filled the frame's buffer; the inflater does not fail. *)
Theorem zlib_frames_roundtrip ns input got cd ct :
  inSync cd ct -> Forall (fun n => (0 < n)%nat /\ fits32 n) ns -> fits32 (length input) ->
  match zlibFrames ns input got cd ct with
  | Ret (got', rest, cd', ct') => got ++ input = got' ++ rest /\ inSync cd' ct'
  | Raise _ => False
  | Fault f => exists before n after got' rest cd' ct', ns = before ++ n :: after
      /\ zlibFrames before input got cd ct = Ret (got', rest, cd', ct') /\ got ++ input = got' ++ rest /\ inSync cd' ct'
      /\ deflaterStops n rest cd' f
  end.
Proof.
  revert input got cd ct. induction ns as [|n ns IH]; intros input got cd ct Hs Hns Hi; cbn [zlibFrames]; [done|].
  apply Forall_cons in Hns as [[Hn Hn32] Hns]. unfold cwrite. cbn [flateWrite zlib_deflater].
  destruct (zlibDeflWrite_ok input n cd Hn Hn32 Hi) as [(out & used & rest & z' & E & Hin & Hu & Ho & Hc & He & Hf)|(f & E & Hnf)]; rewrite E; cbn [mbind outcome_bind];
    [|exists [], n, ns, got, input, cd, ct; split_and!; try done; now left].
  destruct (Nat.ltb_spec (length out) n) as [Hlt|]; cbn [precondition mbind outcome_bind];
    [|exists [], n, ns, got, input, cd, ct; split_and!; try done; right; split; [done|]; eexists _, _, _; split; [exact E|lia]].
  destruct Hs as [S1 S2 S3 S4].
  assert (length used + length rest = length input)%nat as Hl by (rewrite Hin, length_app; done). unfold writeAll.
  destruct (zlibInflate_all z' (S (length input)) out [] 0 ct used) as (c' & E' & H1 & H2 & H3); [auto|congruence|congruence|lia|unfold fits32; lia|unfold fits32 in *; lia|].
  rewrite E'. cbn [mbind outcome_bind app fst snd].
  specialize (IH rest (got ++ used) (mkCodec (crc32 (_checksum cd) used) z') c'). rewrite <- app_assoc, <- Hin in IH.
  assert (inSync (mkCodec (crc32 (_checksum cd) used) z') c') as Hs' by (split; cbn; [auto|done|done|congruence]).
  specialize (IH Hs' Hns ltac:(unfold fits32 in *; lia)). destruct (zlibFrames ns rest _ _ _) as [[[[got' rest'] cd'] ct']| |f]; [done|done|].
  destruct IH as (before & m & after & got' & rest' & cd' & ct' & -> & Eb & Hgot & Hsy & Hst). exists (n :: before), m, after, got', rest', cd', ct'.
  split_and!; try done. cbn [zlibFrames]. unfold cwrite. cbn [flateWrite zlib_deflater]. rewrite E. cbn [mbind outcome_bind].
  rewrite (proj2 (Nat.ltb_lt _ _) Hlt). cbn [precondition mbind outcome_bind]. unfold writeAll. rewrite E'. cbn [mbind outcome_bind app fst snd]. exact Eb.
Qed.

(** ** Defects *)

(** A flush without input divides by zero. *)
Theorem zlib_flush_nothing n c : (0 < n)%nat -> fits32 n -> zlibDeflWrite SyncFlush [] n c = Fault OutOfBounds.
Proof.
  intros Hn Hn32. unfold zlibDeflWrite, zlibWriteAndFlush. cbn [zlibFlushLoop mbind outcome_bind].
  destruct (zlibWrite_deflate SyncFlush [] n 0 (impl c)) as (out & used & rest & z & E & Hin & _); [done..|unfold fits32; cbn; lia|lia|].
  rewrite E. destruct used, rest; try done. 
Qed.
End zlib.

(** A compressor that copies: its state is all it was given. *)
Definition copySome (st inp : bytes) (room : nat) (mode : Mode) : Z * nat * bytes * bytes :=
  let n := Nat.min (length inp) room in (Z_OK, n, take n inp, st ++ take n inp).

#[local] Instance copyZlib : Zlib bytes bytes := {|
  deflate := copySome;
  deflateBound _ n := (n + 12)%nat;
  deflatePending _ := (Z_OK, 0%nat, 0%nat);
  inflate := copySome
|}.

#[local] Program Instance copyZlib_laws : ZlibLaws bytes bytes := {| decode b := b; consumed b := b; emitted b := b; fed b := b; given b := b |}.
Next Obligation.
  intros d inp room mode ret used out d' [= <- <- <- <-] _ H. rewrite length_take. split_and!; try done; try lia. unfold Z_OK. lia.
Qed.
Next Obligation.
  intros d inp room mode ret used out d' [= <- <- <- <-] _ H Hne. left. destruct inp; [done|]. cbn [length]. lia.
Qed.
Next Obligation. intros d inp room ret used out d' [= <- <- <- <-] H. rewrite length_take in H. split; [lia|done]. Qed.
Next Obligation. reflexivity. Qed.
Next Obligation.
  intros d t inp room ret used out t' [= <- <- <- <-] H <- Hp. rewrite length_take. split_and!; try done; try lia.
  - unfold Z_OK. lia.
  - apply prefix_app, prefix_take.
  - intros Hlt. split; [lia|]. rewrite take_ge by lia. done.
Qed.

Definition countBytes (x : Z) (b : bytes) : Z := x + Z.of_nat (length b).

(** Twelve bytes in two frames: the first takes three of them. *)
Definition exampleFrames : outcome (bytes * bytes * Codec bytes * Codec bytes) :=
  zlibFrames countBytes [15; 40]%nat [1; 2; 3; 4; 5; 6; 7; 8; 9; 10; 11; 12] [] (mkCodec 0 []) (mkCodec 0 []).

Lemma zlib_frames_roundtrip_witness :
  match exampleFrames with
  | Ret (got, rest, cd, ct) => got = [1; 2; 3; 4; 5; 6; 7; 8; 9; 10; 11; 12] /\ rest = [] /\ inSync cd ct
  | _ => False
  end.
Proof.
  pose proof (zlib_frames_roundtrip countBytes (fun x a b => ltac:(unfold countBytes; rewrite length_app; lia)) [15; 40]%nat
    [1; 2; 3; 4; 5; 6; 7; 8; 9; 10; 11; 12] [] (mkCodec 0 []) (mkCodec 0 [])) as H.
  change (zlibFrames countBytes [15; 40]%nat _ _ _ _) with exampleFrames in H.
  assert (match exampleFrames with Ret (g, r, _, _) => Some (g, r) | _ => None end = Some ([1; 2; 3; 4; 5; 6; 7; 8; 9; 10; 11; 12], [])) as Hr by (vm_compute; reflexivity).
  destruct exampleFrames as [[[[got rest] cd] ct]| |]; [|discriminate Hr|discriminate Hr]. injection Hr as -> ->.
  split; [reflexivity|]. split; [reflexivity|]. apply H; [split; reflexivity|repeat constructor; unfold fits32; lia|unfold fits32; cbn; lia].
Defined.

(** With an output of less than [kHeadroomForFlush] bytes, the limit for the input wraps around; the output is filled, and the flush that follows
    has no room. *)
Theorem zlib_small_output_asserts : zlibDeflWrite countBytes SyncFlush [1; 2; 3; 4; 5; 6; 7; 8; 9; 10] 4 (mkCodec 0 []) = Fault AssertFailed.
Proof. reflexivity. Qed.
