(* ===== verification/BlipIO.v ===== *)
(** The BLIP transport: outgoing messages ([src/io/blip/MessageOut.cc]), incoming ones
    ([MessageIn] of [src/io/blip/Message.cc]) and [BLIPIO] ([src/io/blip/BLIPIO.cc]),
    which cuts the messages being sent into frames, sends a frame of each in turn,
    puts received frames together again, and holds back a message while too many of
    its bytes are unacknowledged.

    A [MessageOut] is in one of the three queues or being worked on, so it is kept in
    the queue itself; [oid] is its identity.  The queues are [AsyncQueue]s (see
    [Queue]), of which only the items and whether they are open matter here.  Futures
    for responses are numbered; [resolved] lists the results that were set. *)

From S2P Require Import Prelude Varint BlipMessage BlipCodec.

Local Open Scope Z_scope.

Definition kMaxUnackedBytes : Z := 128000.
Definition UINT32_MAX : Z := 2 ^ 32 - 1.

Definition kMaxFrameOverhead : Z := 10 + 1 + 4.
Definition kDefaultFrameSize : Z := 4096.
Definition kBigFrameSize : Z := 32768.
Definition kOutboxCapacity : nat := 10.

(** * Data *)

Record MessageOut := mkOut {
  oid : nat;
  oflags : Z;
  onumber : Z;
  opayload : bytes;
  _unsentPayload : bytes;
  _uncompressedBytesSent : Z;
  _bytesSent : Z;
  _unackedBytes : Z;
  o_onResponse : option nat
}.

Record MessageIn := mkIn {
  iflags : Z;
  inumber : Z;
  _rawBytesReceived : Z;
  _propertiesSize : Z;
  i_unackedBytes : Z;
  i_properties : bytes;
  _body : bytes;
  _outgoingSize : Z;
  i_onResponse : option nat;
  _gotProperties : bool;
  _complete : bool;
  _responded : bool
}.

Inductive ReceiveState := kOther | kBeginning | kEnd.

#[export] Instance ReceiveState_eq_dec : EqDecision ReceiveState.
Proof. solve_decision. Defined.

(** The part of an [AsyncQueue] that matters: items, and whether it is [Open]. *)
Record Outbox := mkBox { items : list MessageOut; isOpen : bool }.

Record BLIPIO (CI CO : Type) := mkIO {
  _inputCodec : Codec CI;
  outputCodec : Codec CO;
  _outbox : Outbox;
  _wayOutBox : Outbox;
  _icebox : list MessageOut;
  _pendingRequests : gmap Z MessageIn;
  _pendingResponses : gmap Z MessageIn;
  _lastMessageNo : Z;
  _numRequestsReceived : Z;
  _sendOpen : bool;
  _receiveOpen : bool;
  nextId : nat;
  resolved : list (nat * option MessageIn)
}.
Arguments mkIO {_ _} _ _ _ _ _ _ _ _ _ _ _ _ _.
Arguments _inputCodec {_ _} _. Arguments outputCodec {_ _} _. Arguments _outbox {_ _} _. Arguments _wayOutBox {_ _} _.
Arguments _icebox {_ _} _. Arguments _pendingRequests {_ _} _. Arguments _pendingResponses {_ _} _.
Arguments _lastMessageNo {_ _} _. Arguments _numRequestsReceived {_ _} _. Arguments _sendOpen {_ _} _.
Arguments _receiveOpen {_ _} _. Arguments nextId {_ _} _. Arguments resolved {_ _} _.

Section blipio.
Context (crc32 : Z -> bytes -> Z) {CI CO : Type} {FI : Flate CI} {FO : Flate CO}.

Abbreviation IO := (BLIPIO CI CO).

Definition set_inputCodec c (s : IO) : IO := mkIO c (outputCodec s) (_outbox s) (_wayOutBox s) (_icebox s) (_pendingRequests s) (_pendingResponses s) (_lastMessageNo s) (_numRequestsReceived s) (_sendOpen s) (_receiveOpen s) (nextId s) (resolved s).
Definition set_outputCodec c (s : IO) : IO := mkIO (_inputCodec s) c (_outbox s) (_wayOutBox s) (_icebox s) (_pendingRequests s) (_pendingResponses s) (_lastMessageNo s) (_numRequestsReceived s) (_sendOpen s) (_receiveOpen s) (nextId s) (resolved s).
Definition set_outbox b (s : IO) : IO := mkIO (_inputCodec s) (outputCodec s) b (_wayOutBox s) (_icebox s) (_pendingRequests s) (_pendingResponses s) (_lastMessageNo s) (_numRequestsReceived s) (_sendOpen s) (_receiveOpen s) (nextId s) (resolved s).
Definition set_wayOutBox b (s : IO) : IO := mkIO (_inputCodec s) (outputCodec s) (_outbox s) b (_icebox s) (_pendingRequests s) (_pendingResponses s) (_lastMessageNo s) (_numRequestsReceived s) (_sendOpen s) (_receiveOpen s) (nextId s) (resolved s).
Definition set_icebox b (s : IO) : IO := mkIO (_inputCodec s) (outputCodec s) (_outbox s) (_wayOutBox s) b (_pendingRequests s) (_pendingResponses s) (_lastMessageNo s) (_numRequestsReceived s) (_sendOpen s) (_receiveOpen s) (nextId s) (resolved s).
Definition set_pendingRequests m (s : IO) : IO := mkIO (_inputCodec s) (outputCodec s) (_outbox s) (_wayOutBox s) (_icebox s) m (_pendingResponses s) (_lastMessageNo s) (_numRequestsReceived s) (_sendOpen s) (_receiveOpen s) (nextId s) (resolved s).
Definition set_pendingResponses m (s : IO) : IO := mkIO (_inputCodec s) (outputCodec s) (_outbox s) (_wayOutBox s) (_icebox s) (_pendingRequests s) m (_lastMessageNo s) (_numRequestsReceived s) (_sendOpen s) (_receiveOpen s) (nextId s) (resolved s).
Definition set_lastMessageNo n (s : IO) : IO := mkIO (_inputCodec s) (outputCodec s) (_outbox s) (_wayOutBox s) (_icebox s) (_pendingRequests s) (_pendingResponses s) n (_numRequestsReceived s) (_sendOpen s) (_receiveOpen s) (nextId s) (resolved s).
Definition set_numRequestsReceived n (s : IO) : IO := mkIO (_inputCodec s) (outputCodec s) (_outbox s) (_wayOutBox s) (_icebox s) (_pendingRequests s) (_pendingResponses s) (_lastMessageNo s) n (_sendOpen s) (_receiveOpen s) (nextId s) (resolved s).
Definition set_open so ro (s : IO) : IO := mkIO (_inputCodec s) (outputCodec s) (_outbox s) (_wayOutBox s) (_icebox s) (_pendingRequests s) (_pendingResponses s) (_lastMessageNo s) (_numRequestsReceived s) so ro (nextId s) (resolved s).
Definition set_nextId n (s : IO) : IO := mkIO (_inputCodec s) (outputCodec s) (_outbox s) (_wayOutBox s) (_icebox s) (_pendingRequests s) (_pendingResponses s) (_lastMessageNo s) (_numRequestsReceived s) (_sendOpen s) (_receiveOpen s) n (resolved s).
Definition set_resolved l (s : IO) : IO := mkIO (_inputCodec s) (outputCodec s) (_outbox s) (_wayOutBox s) (_icebox s) (_pendingRequests s) (_pendingResponses s) (_lastMessageNo s) (_numRequestsReceived s) (_sendOpen s) (_receiveOpen s) (nextId s) l.

Definition newIO (ci : CI) (co : CO) : IO :=
  mkIO (newCodec crc32 ci) (newCodec crc32 co) (mkBox [] true) (mkBox [] true) [] ∅ ∅ 0 0 true true 0 [].

(** * Outgoing messages *)

Definition freshId : ST IO nat :=
  n ← gets nextId; _ ← modify (set_nextId (S n)); mret n.

(** [MessageOut(connection, flags, payload, number)]. *)
Definition newMessageOut (fl : Z) (payload : bytes) (number : Z) : ST IO MessageOut :=
  _ ← assert (Z.of_nat (length payload) <=? UINT32_MAX);
  n ← freshId;
  mret (mkOut n (messageFlags fl) number payload payload 0 0 0 None).

(** [MessageOut(connection, builder, number)]: the flags are set after [finish]. *)
Definition newMessageOutOf (b : MessageBuilder) (number : Z) : ST IO MessageOut :=
  r ← lift (finish b);
  m ← newMessageOut 0 r.1 number;
  mret (mkOut (oid m) (BlipMessage.flags r.2) (onumber m) (opayload m) (_unsentPayload m) 0 0 0 None).

Definition isNew (m : MessageOut) : bool := _bytesSent m =? 0.
Definition needsAck (m : MessageOut) : bool := kMaxUnackedBytes <=? _unackedBytes m.
Definition ourgent (m : MessageOut) : bool := urgentOf (oflags m).

(** The loop that fills a frame: the bytes written, the rest of the payload. *)
Fixpoint fillFrame (fuel : nat) (mode : Mode) (data acc : bytes) (free : nat) (c : Codec CO)
  : outcome (bytes * bytes * nat * Codec CO) :=
  match data with
  | [] => Ret (acc, data, free, c)
  | _ =>
      match fuel with
      | O => Fault NoFuel
      | S f =>
          r ← cwrite crc32 mode data free c;
          let '(written, rest, c) := r in
          let free := (free - length written)%nat in
          if 1024 <=? Z.of_nat free then fillFrame f mode rest (acc ++ written) free c
          else Ret (acc ++ written, rest, free, c)
      end
  end.

Definition trailer : bytes := [0x00; 0x00; 0xFF; 0xFF].

(** [nextFrameToSend] into [dstSize] bytes: what it writes, the frame's flags. *)
Definition nextFrameToSend (dstSize : nat) (m : MessageOut) (c : Codec CO)
  : outcome (bytes * Z * MessageOut * Codec CO) :=
  if isAck (oflags m) then
    let w := take dstSize (_unsentPayload m) in
    Ret (w, oflags m,
         mkOut (oid m) (oflags m) (onumber m) (opayload m) (_unsentPayload m) (_uncompressedBytesSent m)
           (u32 (_bytesSent m + Z.of_nat (length w))) (_unackedBytes m) (o_onResponse m), c)
  else
    let mode := if hasFlag (oflags m) kCompressed then SyncFlush else Raw in
    r ← fillFrame (S (length (_unsentPayload m))) mode (_unsentPayload m) [] (dstSize - kChecksumSize) c;
    let '(written, rest, _, c) := r in
    if (0 <? unflushedBytes c)%nat then Raise (EBlip CompressionError)
    else
      frame ← (if bool_decide (mode = SyncFlush) && (0 <? length written)%nat then
                 _ ← precondition ((4 <=? length written)%nat && bool_decide (drop (length written - 4) written = trailer));
                 Ret (take (length written - 4) written)
               else Ret written);
      let frame := frame ++ writeChecksum c in
      let n := Z.of_nat (length frame) in
      let m := mkOut (oid m) (oflags m) (onumber m) (opayload m) rest
                 (u32 (_uncompressedBytesSent m + Z.of_nat (length (_unsentPayload m)) - Z.of_nat (length rest)))
                 (u32 (_bytesSent m + n)) (u32 (_unackedBytes m + n)) (o_onResponse m) in
      Ret (frame, match rest with [] => oflags m | _ => Z.lor (oflags m) kMoreComing end, m, c).

(** [MessageOut::receivedAck]. *)
Definition outReceivedAck (byteCount : Z) (m : MessageOut) : MessageOut :=
  if byteCount <=? _bytesSent m then
    mkOut (oid m) (oflags m) (onumber m) (opayload m) (_unsentPayload m) (_uncompressedBytesSent m) (_bytesSent m)
      (Z.min (_unackedBytes m) (u32 (_bytesSent m - byteCount))) (o_onResponse m)
  else m.

Definition setResult (fut : nat) (r : option MessageIn) : ST IO unit :=
  modify (fun s => set_resolved (resolved s ++ [(fut, r)]) s).

(** [noResponse] and [disconnected]. *)
Definition noResponse (m : MessageOut) : ST IO unit :=
  match o_onResponse m with Some f => setResult f None | None => mret tt end.

Definition outDisconnected (m : MessageOut) : ST IO unit := noResponse m.

(** [createResponse]. *)
Definition createResponse (m : MessageOut) : option MessageIn :=
  if negb (typeOf (oflags m) =? kRequestType) || noReplyOf (oflags m) then None
  else Some (mkIn kResponseType (onumber m) 0 0 0 [] [] (_uncompressedBytesSent m) (o_onResponse m) false false false).

(** * The outbox *)

Definition contains (m : MessageOut) (l : list MessageOut) : bool := existsb (fun x => oid x =? oid m)%nat l.

Definition matches (msgNo : Z) (response : bool) (m : MessageOut) : bool :=
  (onumber m =? msgNo) && Bool.eqb (isResponse (oflags m)) response.

Definition findMessage (msgNo : Z) (response : bool) (l : list MessageOut) : option MessageOut :=
  List.find (matches msgNo response) l.

(** The loop of [requeue], from index [i] down: where to insert. *)
Fixpoint requeueScan (new : bool) (q : list MessageOut) (i : nat) : nat :=
  match q !! i with
  | None => O
  | Some x =>
      if ourgent x then S (if (S i =? length q)%nat then i else S i)
      else if new && isNew x then S i
      else match i with O => 1%nat | S j => requeueScan new q j end
  end.

Definition requeuePos (m : MessageOut) (q : list MessageOut) : nat :=
  if ourgent m && (1 <? length q)%nat then requeueScan (isNew m) q (length q - 1) else length q.

Definition insertAt (i : nat) (m : MessageOut) (q : list MessageOut) : list MessageOut := take i q ++ m :: drop i q.

Definition requeue (m : MessageOut) : ST IO unit :=
  b ← gets _outbox;
  _ ← assert (negb (contains m (items b)));
  when (isOpen b) (modify (set_outbox (mkBox (insertAt (requeuePos m (items b)) m (items b)) true))).

Definition outboxUrgent (b : Outbox) : bool := match items b with m :: _ => ourgent m | [] => false end.

Definition hasOutput (s : IO) : bool :=
  negb (bool_decide (length (items (_outbox s)) = 0%nat)) || negb (bool_decide (length (items (_wayOutBox s)) = 0%nat))
  || negb (bool_decide (length (_icebox s) = 0%nat)).

(** * Sending *)

Definition _queueMessage (m : MessageOut) : ST IO bool :=
  o ← gets _sendOpen;
  if negb o then _ ← outDisconnected m; mret false
  else _ ← requeue m; mret true.

Definition send (m : MessageOut) : ST IO bool :=
  b ← gets _outbox;
  if ourgent m || (length (items b) <? kOutboxCapacity)%nat then _queueMessage m
  else
    w ← gets _wayOutBox;
    if isOpen w then _ ← modify (set_wayOutBox (mkBox (items w ++ [m]) true)); mret true
    else mret false.

(** [message->onResponse()] on a message that may be in any of the queues. *)
Definition setOnResponse (id fut : nat) (m : MessageOut) : MessageOut :=
  if (oid m =? id)%nat then
    mkOut (oid m) (oflags m) (onumber m) (opayload m) (_unsentPayload m) (_uncompressedBytesSent m) (_bytesSent m)
      (_unackedBytes m) (Some fut)
  else m.

Definition onResponse (id : nat) : ST IO nat :=
  fut ← freshId;
  _ ← modify (fun s => set_outbox (mkBox (map (setOnResponse id fut) (items (_outbox s))) (isOpen (_outbox s))) s);
  _ ← modify (fun s => set_wayOutBox (mkBox (map (setOnResponse id fut) (items (_wayOutBox s))) (isOpen (_wayOutBox s))) s);
  _ ← modify (fun s => set_icebox (map (setOnResponse id fut) (_icebox s)) s);
  mret fut.

(** [sendRequest]: the number of the future for the response. *)
Definition sendRequest (b : MessageBuilder) : ST IO nat :=
  m ← newMessageOutOf b 0;
  _ ← assert (typeOf (oflags m) =? kRequestType);
  _ ← send m;
  onResponse (oid m).

Definition freezeMessage (m : MessageOut) : ST IO unit :=
  b ← gets _outbox;
  _ ← assert (negb (contains m (items b)));
  ice ← gets _icebox;
  _ ← assert (negb (contains m ice));
  modify (set_icebox (ice ++ [m])).

Definition thawMessage (m : MessageOut) : ST IO unit :=
  ice ← gets _icebox;
  _ ← assert (contains m ice);
  _ ← modify (set_icebox (List.filter (fun x => negb (oid x =? oid m)%nat) ice));
  requeue m.

(** [_wayOutBox.maybePop()]. *)
Definition popWayOut : ST IO (option MessageOut) :=
  w ← gets _wayOutBox;
  match items w with
  | [] => mret None
  | m :: r => _ ← modify (set_wayOutBox (mkBox r (isOpen w))); mret (Some m)
  end.

Definition assignNumber (m : MessageOut) : ST IO MessageOut :=
  if onumber m =? 0 then
    n ← gets _lastMessageNo;
    _ ← modify (set_lastMessageNo (u64 (n + 1)));
    mret (mkOut (oid m) (oflags m) (u64 (n + 1)) (opayload m) (_unsentPayload m) (_uncompressedBytesSent m) (_bytesSent m)
            (_unackedBytes m) (o_onResponse m))
  else mret m.

Definition createNextFrame (m : MessageOut) : ST IO bytes :=
  m ← assignNumber m;
  b ← gets _outbox;
  let maxSize := (if ourgent m || negb (outboxUrgent b) then kBigFrameSize else kDefaultFrameSize) + kMaxFrameOverhead in
  let head := put (onumber m) in
  c ← gets outputCodec;
  r ← lift (nextFrameToSend (Z.to_nat maxSize - length head - 1) m c);
  let '(data, frameFlags, m, c) := r in
  _ ← modify (set_outputCodec c);
  let frame := head ++ frameFlags :: data in
  _ ← when (negb (isAck (oflags m))) (
        if hasFlag frameFlags kMoreComing then
          ro ← gets _receiveOpen;
          if needsAck m && ro then freezeMessage m else requeue m
        else
          newMsg ← popWayOut;
          _ ← (match newMsg with Some x => _ ← _queueMessage x; mret tt | None => mret tt end);
          match createResponse m with
          | Some response =>
              modify (fun s => match _pendingResponses s !! inumber response with
                               | Some _ => s
                               | None => set_pendingResponses (<[inumber response := response]> (_pendingResponses s)) s
                               end)
          | None => noResponse m
          end);
  mret frame.

(** One step of [frameGenerator]: a frame, the end, or waiting for the queue. *)
Inductive genResult := Frame (f : bytes) | Ended | Waiting.

Definition frameGenerator : ST IO genResult :=
  s ← get;
  if negb (_sendOpen s || hasOutput s) then mret Ended
  else
    match items (_outbox s) with
    | m :: r =>
        _ ← modify (set_outbox (mkBox r (isOpen (_outbox s))));
        f ← createNextFrame m;
        mret (Frame f)
    | [] => mret (if isOpen (_outbox s) then Waiting else Ended)
    end.

(** * Incoming messages *)

Definition newMessageIn (fl number : Z) : MessageIn :=
  mkIn (messageFlags fl) number 0 0 0 [] [] 0 None false false false.

Definition set_ibytes raw unacked (m : MessageIn) : MessageIn :=
  mkIn (iflags m) (inumber m) raw (_propertiesSize m) unacked (i_properties m) (_body m) (_outgoingSize m) (i_onResponse m) (_gotProperties m) (_complete m) (_responded m).
Definition set_icontent size props body got (m : MessageIn) : MessageIn :=
  mkIn (iflags m) (inumber m) (_rawBytesReceived m) size (i_unackedBytes m) props body (_outgoingSize m) (i_onResponse m) got (_complete m) (_responded m).
Definition set_iflags fl (m : MessageIn) : MessageIn :=
  mkIn fl (inumber m) (_rawBytesReceived m) (_propertiesSize m) (i_unackedBytes m) (i_properties m) (_body m) (_outgoingSize m) (i_onResponse m) (_gotProperties m) (_complete m) (_responded m).
Definition set_icomplete (m : MessageIn) : MessageIn :=
  mkIn (iflags m) (inumber m) (_rawBytesReceived m) (_propertiesSize m) (i_unackedBytes m) (i_properties m) (_body m) (_outgoingSize m) (i_onResponse m) (_gotProperties m) true (_responded m).
Definition set_iresponded (m : MessageIn) : MessageIn :=
  mkIn (iflags m) (inumber m) (_rawBytesReceived m) (_propertiesSize m) (i_unackedBytes m) (i_properties m) (_body m) (_outgoingSize m) (i_onResponse m) (_gotProperties m) (_complete m) true.

(** [acknowledge]: an ACK goes out after enough bytes. *)
Definition acknowledge (frameSize : Z) (m : MessageIn) : ST IO MessageIn :=
  let unacked := u32 (i_unackedBytes m + u32 frameSize) in
  if kIncomingAckThreshold <=? unacked then
    let msgType := if isResponse (iflags m) then kAckResponseType else kAckRequestType in
    out ← newMessageOut (Z.lor (Z.lor msgType kUrgent) kNoReply) (put (_rawBytesReceived m)) (inumber m);
    _ ← send out;
    mret (set_ibytes (_rawBytesReceived m) 0 m)
  else mret (set_ibytes (_rawBytesReceived m) unacked m).

(** The frame without its checksum (or with deflate's trailer in its place), and the
    checksum; [last] of a frame that is too short is undefined. *)
Definition splitFrame (mode : Mode) (entire : bytes) : outcome (bytes * Z) :=
  if (length entire <? kChecksumSize)%nat then Fault OutOfBounds
  else
    let body := take (length entire - kChecksumSize) entire in
    chk ← readChecksum (drop (length entire - kChecksumSize) entire);
    Ret (match mode with Raw => body | _ => body ++ trailer end, chk).

(** The start of a message: the size of the properties, and what the first ten bytes
    hold beyond it. *)
Definition readHead (mode : Mode) (frame : bytes) (frameFlags : Z) (m : MessageIn) (c : Codec CI)
  : outcome (bytes * MessageIn * Codec CI) :=
  if _gotProperties m then Ret (frame, m, c)
  else
    r ← cwrite crc32 mode frame 10 c;
    let '(dst, frame, c) := r in
    p ← Varint.read dst;
    let '(size, dst) := p in
    if kMaxPropertiesSize <? size then Raise (EBlip PropertiesTooLarge)
    else
      let n := Nat.min (Z.to_nat size) (length dst) in
      let m := set_icontent size (i_properties m ++ take n dst) (_body m ++ drop n dst) true m in
      let m := if isResponse (iflags m) && (typeOf frameFlags =? kErrorType)
               then set_iflags (Z.lor (Z.ldiff (iflags m) kTypeMask) kErrorType) m else m in
      Ret (frame, m, c).

(** More of the properties. *)
Definition readProperties (mode : Mode) (frame : bytes) (m : MessageIn) (c : Codec CI)
  : outcome (ReceiveState * bytes * MessageIn * Codec CI) :=
  let curSize := Z.of_nat (length (i_properties m)) in
  if curSize <? _propertiesSize m then
    r ← cwrite crc32 mode frame (Z.to_nat (_propertiesSize m - curSize)) c;
    let '(written, frame, c) := r in
    let props := i_properties m ++ written in
    let m := set_icontent (_propertiesSize m) props (_body m) true m in
    if Z.of_nat (length props) =? _propertiesSize m then
      if (0 <? _propertiesSize m) && negb (List.last props 1 =? 0) then Raise (EBlip InvalidFrame)
      else Ret (kBeginning, frame, m, c)
    else Ret (kOther, frame, m, c)
  else Ret (kBeginning, frame, m, c).

(** [receivedFrame]; the fuel is for [writeAll] on compressed frames. *)
Definition receivedFrame (fuel : nat) (entire : bytes) (frameFlags : Z) (m : MessageIn) : ST IO (ReceiveState * MessageIn) :=
  let m := set_ibytes (u64 (_rawBytesReceived m + Z.of_nat (length entire))) (i_unackedBytes m) m in
  m ← acknowledge (Z.of_nat (length entire)) m;
  let mode := if hasFlag frameFlags kCompressed then SyncFlush else Raw in
  f ← lift (splitFrame mode entire);
  let '(frame, checksum) := f in
  c ← gets _inputCodec;
  r ← lift (readHead mode frame frameFlags m c);
  let '(frame, m, c) := r in
  r ← lift (readProperties mode frame m c);
  let '(state, frame, m, c) := r in
  r ← lift (writeAll crc32 fuel mode frame c);
  let '(more, c) := r in
  let m := set_icontent (_propertiesSize m) (i_properties m) (_body m ++ more) (_gotProperties m) m in
  _ ← modify (set_inputCodec c);
  _ ← lift (verifyChecksum checksum c);
  if negb (hasFlag frameFlags kMoreComing) then
    if bool_decide (state = kOther) then throw (EBlip InvalidFrame)
    else
      let m := set_icomplete m in
      _ ← (match i_onResponse m with Some f => setResult f (Some m) | None => mret tt end);
      mret (kEnd, m)
  else mret (state, m).

(** [MessageIn::disconnected]. *)
Definition inDisconnected (m : MessageIn) : ST IO unit :=
  match i_onResponse m with Some f => setResult f None | None => mret tt end.

(** [pendingRequest] and [pendingResponse]: the message a frame belongs to; it stays
    in the table while more frames are coming. *)
Definition pendingRequest (msgNo fl : Z) : ST IO MessageIn :=
  tbl ← gets _pendingRequests;
  n ← gets _numRequestsReceived;
  match tbl !! msgNo with
  | Some m =>
      _ ← when (negb (hasFlag fl kMoreComing)) (modify (set_pendingRequests (delete msgNo tbl)));
      mret m
  | None =>
      if msgNo =? u64 (n + 1) then
        let m := newMessageIn fl msgNo in
        _ ← modify (set_numRequestsReceived msgNo);
        _ ← when (hasFlag fl kMoreComing) (modify (set_pendingRequests (<[msgNo := m]> tbl)));
        mret m
      else throw (EBlip InvalidFrame)
  end.

Definition pendingResponse (msgNo fl : Z) : ST IO MessageIn :=
  tbl ← gets _pendingResponses;
  match tbl !! msgNo with
  | Some m =>
      _ ← when (negb (hasFlag fl kMoreComing)) (modify (set_pendingResponses (delete msgNo tbl)));
      mret m
  | None => throw (EBlip InvalidFrame)
  end.

Definition updateOut (m : MessageOut) (l : list MessageOut) : list MessageOut :=
  map (fun x => if (oid x =? oid m)%nat then m else x) l.

Definition receivedAck (msgNo : Z) (onResp : bool) (body : bytes) : ST IO unit :=
  b ← gets _outbox;
  ice ← gets _icebox;
  match findMessage msgNo onResp (items b), findMessage msgNo onResp ice with
  | Some m, _ =>
      r ← lift (Varint.read body);
      modify (set_outbox (mkBox (updateOut (outReceivedAck (u32 r.1) m) (items b)) (isOpen b)))
  | None, Some m =>
      r ← lift (Varint.read body);
      let m := outReceivedAck (u32 r.1) m in
      _ ← modify (set_icebox (updateOut m ice));
      when (negb (needsAck m)) (thawMessage m)
  | None, None => mret tt
  end.

(** [receive]: the request that a frame completes, if it does. *)
Definition receive (fuel : nat) (frame : bytes) : ST IO (option MessageIn) :=
  r ← lift (Varint.read frame);
  let '(msgNo, frame) := r in
  r ← lift (Varint.read frame);
  let '(f, frame) := r in
  if 0x80 <? f then throw (EBlip InvalidFrame)
  else
    ro ← gets _receiveOpen;
    let ty := typeOf f in
    if ty =? kRequestType then
      if (ro : bool) then
        m ← pendingRequest msgNo f;
        r ← receivedFrame fuel frame f m;
        let '(state, m) := r in
        _ ← modify (fun s => match _pendingRequests s !! msgNo with
                             | Some _ => set_pendingRequests (<[msgNo := m]> (_pendingRequests s)) s
                             | None => s end);
        mret (if bool_decide (state = kEnd) then Some m else None)
      else mret None
    else if (ty =? kResponseType) || (ty =? kErrorType) then
      if (ro : bool) then
        m ← pendingResponse msgNo f;
        r ← receivedFrame fuel frame f m;
        _ ← modify (fun s => match _pendingResponses s !! msgNo with
                             | Some _ => set_pendingResponses (<[msgNo := r.2]> (_pendingResponses s)) s
                             | None => s end);
        mret None
      else mret None
    else if (ty =? kAckRequestType) || (ty =? kAckResponseType) then
      _ ← receivedAck msgNo (ty =? kAckResponseType) frame; mret None
    else mret None.

(** * Responses *)

Definition canRespond (m : MessageIn) (s : IO) : bool := negb (noReplyOf (iflags m)) && _sendOpen s.

Definition respond (b : MessageBuilder) (m : MessageIn) : ST IO MessageIn :=
  if noReplyOf (iflags m) then mret m
  else
    _ ← assert (negb (_responded m));
    let b := if btype b =? kRequestType then set_btype kResponseType b else b in
    out ← newMessageOutOf b (inumber m);
    _ ← send out;
    mret (set_iresponded m).

Definition respondWithError (err : MsgError) (m : MessageIn) : ST IO MessageIn :=
  if noReplyOf (iflags m) then mret m
  else
    b ← lift (newReply (iflags m));
    r ← lift (makeError err b);
    respond r.2 m.

Definition respondEmpty (m : MessageIn) : ST IO MessageIn :=
  if noReplyOf (iflags m) then mret m
  else b ← lift (newReply (iflags m)); respond b m.

Definition notHandled (m : MessageIn) : ST IO MessageIn :=
  respondWithError (mkMsgError (lit "BLIP") 404 (lit "no handler for message")) m.

(** * Closing *)

Definition closeBox (b : Outbox) : Outbox := mkBox [] false.

Definition closeSend : ST IO unit :=
  s ← get;
  when (_sendOpen s) (
    _ ← modify (set_open false (_receiveOpen s));
    when (negb (hasOutput s)) (modify (set_outbox (closeBox (_outbox s))))).

Fixpoint forEach {A} (f : A -> ST IO unit) (l : list A) : ST IO unit :=
  match l with
  | [] => mret tt
  | x :: r => _ ← f x; forEach f r
  end.

Definition _closeRead : ST IO unit :=
  s ← get;
  _ ← modify (set_open (_sendOpen s) false);
  _ ← forEach inDisconnected (map snd (map_to_list (_pendingRequests s)));
  _ ← modify (set_pendingRequests ∅);
  _ ← forEach inDisconnected (map snd (map_to_list (_pendingResponses s)));
  modify (set_pendingResponses ∅).

Definition closeReceive : ST IO unit :=
  ro ← gets _receiveOpen;
  when ro _closeRead.

Definition stop : ST IO unit :=
  s ← get;
  _ ← modify (set_open false false);
  _ ← forEach outDisconnected (items (_outbox s));
  _ ← forEach outDisconnected (_icebox s);
  _ ← modify (set_icebox []);
  _ ← forEach outDisconnected (items (_wayOutBox s));
  _ ← modify (set_outbox (closeBox (_outbox s)));
  _ ← modify (set_wayOutBox (closeBox (_wayOutBox s)));
  _closeRead.

End blipio.
