(* ===== verification/BlipTransport.v ===== *)
(** The BLIP transport is lossless: however the frames of the requests of one side are
    interleaved, and whatever acknowledgements hold them back or let them go, the other
    side puts together exactly the requests that were sent.  (For requests that are not
    compressed; the definitions are those of [BlipIO].) *)

From S2P Require Import Prelude Varint BlipMessage BlipCodec BlipIO.

Local Open Scope Z_scope.

Section transport.
Context (crc32 : Z -> bytes -> Z).
(** What the CRC of miniz documents: it can be computed piece by piece, and it is a
    32-bit word. *)
Context (crc_app : forall x a b, crc32 (crc32 x a) b = crc32 x (a ++ b)).
Context (crc_range : forall x a, 0 <= crc32 x a < 2 ^ 32).
Context {CI CO : Type} {FI : Flate CI} {FO : Flate CO}.

(** An encoder that holds back nothing, whatever the checksum.  [NullCodec] and the deflaters of miniz never do; zlib's does not
    as long as nothing was compressed (the stream that [deflateInit2] made has nothing pending). *)
Definition quiet (i : CO) : Prop := forall x, unflushedBytes (mkCodec x i) = 0%nat.

Lemma quiet_codec (c : Codec CO) : quiet (impl c) -> unflushedBytes c = 0%nat.
Proof. destruct c. intros H. apply H. Qed.

Abbreviation IO := (BLIPIO CI CO).

(** * Frames of an uncompressed message *)

Lemma cwrite_raw {I} `{Flate I} data n (c : Codec I) :
  (0 < n)%nat ->
  cwrite crc32 Raw data n c = Ret (take n data, drop n data, addToChecksum crc32 (take n data) c).
Proof.
  intros Hn. unfold cwrite, writeRaw, precondition. rewrite (proj2 (Nat.ltb_lt 0 n) Hn). unfold mbind, outcome_bind.
  destruct (decide (length data <= n)%nat) as [H1|H1].
  - rewrite Nat.min_l by lia. rewrite !(take_ge data), !(drop_ge data) by lia. done.
  - rewrite Nat.min_r by lia. done.
Qed.

Lemma fillFrame_raw fuel data n (c : Codec CO) :
  (0 < n)%nat -> (0 < fuel)%nat -> data <> [] ->
  exists free, fillFrame crc32 fuel Raw data [] n c
    = Ret (take n data, drop n data, free, addToChecksum crc32 (take n data) c).
Proof.
  intros Hn Hf Hd. destruct fuel as [|f]; [lia|]. cbn [fillFrame]. destruct data as [|x data]; [done|].
  rewrite cwrite_raw by done. unfold mbind, outcome_bind. cbn [app].
  destruct (1024 <=? Z.of_nat (n - length (take n (x :: data)))) eqn:E; [|eauto]. bool_to_prop.
  rewrite length_take in E. rewrite (drop_ge (x :: data)) by lia. destruct f; cbn [fillFrame app]; eauto.
Qed.

Definition rawOut (m : MessageOut) : Prop :=
  typeOf (oflags m) = kRequestType /\ hasFlag (oflags m) kCompressed = false /\ hasFlag (oflags m) kMoreComing = false
  /\ 0 <= oflags m < 64.

Lemma rawOut_notAck m : rawOut m -> isAck (oflags m) = false.
Proof. intros (H & _). unfold isAck. now rewrite H. Qed.

(** The flags byte of a frame. *)
Definition frameFlagsOf (m : MessageOut) (rest : bytes) : Z :=
  match rest with [] => oflags m | _ => Z.lor (oflags m) kMoreComing end.

Lemma flags_forallb (P : Z -> bool) :
  forallb (fun n => P (Z.of_nat n)) (seq 0 64) = true -> forall a, 0 <= a < 64 -> P a = true.
Proof.
  intros H a [Ha1 Ha2]. rewrite forallb_forall in H. specialize (H (Z.to_nat a)). rewrite Z2Nat.id in H by done.
  apply H, in_seq. lia.
Qed.

Lemma frameFlags_facts m rest : rawOut m ->
  0 <= frameFlagsOf m rest < 128 /\ typeOf (frameFlagsOf m rest) = kRequestType
  /\ hasFlag (frameFlagsOf m rest) kCompressed = false
  /\ hasFlag (frameFlagsOf m rest) kMoreComing = negb (bool_decide (rest = [])).
Proof.
  intros (H1 & H2 & H3 & H4). unfold frameFlagsOf. destruct rest as [|x r]; [split_and!; (done || lia)|].
  assert ((0 <=? Z.lor (oflags m) kMoreComing) && (Z.lor (oflags m) kMoreComing <? 128)
    && (typeOf (Z.lor (oflags m) kMoreComing) =? typeOf (oflags m))
    && Bool.eqb (hasFlag (Z.lor (oflags m) kMoreComing) kCompressed) (hasFlag (oflags m) kCompressed)
    && hasFlag (Z.lor (oflags m) kMoreComing) kMoreComing = true) as H.
  { revert H4. generalize (oflags m). clear. now apply flags_forallb. }
  rewrite !andb_true_iff, Z.leb_le, Z.ltb_lt, Z.eqb_eq, Bool.eqb_true_iff in H.
  destruct H as [[[[G1 G2] G3] G4] G5]. rewrite G3, G4, G5. now split_and!.
Qed.

(** The message after [n] bytes of its payload went out in a frame. *)
Lemma nextFrame_raw d m (c : Codec CO) :
  quiet (impl c) -> rawOut m -> _unsentPayload m <> [] -> (5 <= d)%nat ->
  exists m' c' frame, nextFrameToSend crc32 d m c = Ret (frame, frameFlagsOf m (drop (d - 4) (_unsentPayload m)), m', c')
    /\ frame = take (d - 4) (_unsentPayload m) ++ mem32 (encodeBig (_checksum c'))
    /\ _checksum c' = crc32 (_checksum c) (take (d - 4) (_unsentPayload m))
    /\ _unsentPayload m' = drop (d - 4) (_unsentPayload m) /\ opayload m' = opayload m /\ oid m' = oid m
    /\ oflags m' = oflags m /\ onumber m' = onumber m /\ impl c' = impl c.
Proof.
  intros Hq Hraw Hne Hd. unfold nextFrameToSend. rewrite rawOut_notAck by done. destruct Hraw as (_ & Hc & _). rewrite Hc.
  unfold kChecksumSize. destruct (fillFrame_raw (S (length (_unsentPayload m))) (_unsentPayload m) (d - 4) c) as (free & E);
    [lia|lia|done|]. unfold mbind, outcome_bind. rewrite E, quiet_codec by exact Hq. cbn [Nat.ltb Nat.leb bool_decide andb].
  eexists _, _, _. split; [reflexivity|]. split_and!; try done.
Qed.

(** * Receiving the frames *)

(** A payload: properties that end with a NUL, and a body. *)
Definition wfProps (props : bytes) : Prop :=
  Z.of_nat (length props) <= kMaxPropertiesSize /\ (props = [] \/ List.last props 1 = 0).

Definition payloadOf (props body : bytes) : bytes := put (Z.of_nat (length props)) ++ props ++ body.

(** An incoming request that has [q] of the properties and the body. *)
Record Holds (props q : bytes) (mi : MessageIn) : Prop := {
  h_got : _gotProperties mi = true;
  h_size : _propertiesSize mi = Z.of_nat (length props);
  h_props : i_properties mi = take (length props) q;
  h_body : _body mi = drop (length props) q;
  h_resp : isResponse (iflags mi) = false;
  h_fut : i_onResponse mi = None;
  h_num : 0 < inumber mi < 2 ^ 64
}.

(** The codec after [h] went through it. *)
Definition chk {I} (h : bytes) (c : Codec I) : Prop := _checksum c = crc32 0 h.

(** The sender's, with nothing held back. *)
Definition chkOut (h : bytes) (c : Codec CO) : Prop := chk h c /\ quiet (impl c).

Lemma chk_add {I} h d (c : Codec I) : chk h c -> chk (h ++ d) (addToChecksum crc32 d c).
Proof. unfold chk, addToChecksum. cbn. intros ->. apply crc_app. Qed.

Lemma readProperties_raw props body q e r mi (c : Codec CI) h :
  wfProps props -> Holds props q mi -> (q ++ e) ++ r = props ++ body -> chk h c ->
  exists st w e' mi1 c1, readProperties crc32 Raw e mi c = Ret (st, e', mi1, c1)
    /\ e = w ++ e' /\ chk (h ++ w) c1
    /\ i_properties mi1 = take (length props) (q ++ e) /\ _body mi1 ++ e' = drop (length props) (q ++ e)
    /\ _gotProperties mi1 = true /\ _propertiesSize mi1 = Z.of_nat (length props)
    /\ iflags mi1 = iflags mi /\ i_onResponse mi1 = i_onResponse mi /\ inumber mi1 = inumber mi
    /\ (st <> kEnd /\ (st = kOther -> (length (q ++ e) < length props)%nat)).
Proof.
  intros [_ Hnul] [Hg Hs Hp Hb Hr Hf Hnu] E Hc. unfold readProperties. rewrite Hp, Hs, length_take.
  destruct (Z.ltb_spec (Z.of_nat (Nat.min (length props) (length q))) (Z.of_nat (length props))) as [Hlt|Hge].
  - assert (length q < length props)%nat as Hq by lia. rewrite (take_ge q) by lia. rewrite Nat.min_r by lia.
    rewrite cwrite_raw by lia. unfold mbind, outcome_bind. cbn [_propertiesSize set_icontent].
    replace (Z.to_nat (Z.of_nat (length props) - Z.of_nat (length q))) with (length props - length q)%nat by lia.
    set (n := (length props - length q)%nat). rewrite drop_ge in Hb by lia.
    assert (take (length props) (q ++ e) = q ++ take n e) as Et
      by (rewrite take_app, take_ge by lia; done).
    assert (drop (length props) (q ++ e) = drop n e) as Ed by (rewrite drop_app, drop_ge by lia; done).
    destruct (Z.eqb_spec (Z.of_nat (length (q ++ take n e))) (Z.of_nat (length props))) as [Hl|Hl].
    + assert (q ++ take n e = props) as Ep.
      { rewrite <- Et. apply (f_equal (take (length props))) in E. rewrite take_app_length in E.
        rewrite take_app_le in E by (rewrite length_app, length_take in Hl; rewrite length_app; lia). exact E. }
      assert ((0 <? Z.of_nat (length props)) && negb (List.last (q ++ take n e) 1 =? 0) = false) as ->.
      { rewrite Ep. destruct Hnul as [-> | ->]; [done|]. apply andb_false_r. }
      eexists kBeginning, (take n e), _, _, _. split; [reflexivity|].
      split; [now rewrite take_drop|]. split; [now apply chk_add|].
      cbn [i_properties _body _gotProperties _propertiesSize iflags i_onResponse inumber set_icontent].
      rewrite Et, Ed, Hb. now split_and!.
    + eexists kOther, (take n e), _, _, _. split; [reflexivity|].
      split; [now rewrite take_drop|]. split; [now apply chk_add|].
      cbn [i_properties _body _gotProperties _propertiesSize iflags i_onResponse inumber set_icontent].
      rewrite Et, Ed, Hb. split_and!; try done. intros _. rewrite length_app, length_take in Hl. rewrite length_app. lia.
  - assert (length props <= length q)%nat as Hq by lia.
    eexists kBeginning, [], e, mi, c. split; [reflexivity|]. rewrite app_nil_r.
    rewrite take_app_le, drop_app_le, Hp, Hb by lia. now split_and!.
Qed.

(** The end of a frame: the checksum agrees. *)
Lemma splitFrame_raw d x :
  0 <= x < 2 ^ 32 -> splitFrame Raw (d ++ mem32 (encodeBig x)) = Ret (d, x).
Proof.
  intros Hx. unfold splitFrame, kChecksumSize. rewrite length_app. change (length (mem32 (encodeBig x))) with 4%nat.
  rewrite (proj2 (Nat.ltb_ge _ _)) by lia. replace (length d + 4 - 4)%nat with (length d) by lia.
  rewrite drop_app_length, take_app_length. unfold readChecksum. cbn [length mem32 kChecksumSize Nat.leb].
  unfold mbind, outcome_bind. change (load32 _) with (load32 (mem32 (encodeBig x))). now rewrite big_endian_roundtrip.
Qed.

(** ** Acknowledgements the receiver sends *)

Definition boxes (s : IO) : list MessageOut := items (_outbox s) ++ _icebox s ++ items (_wayOutBox s).

Definition idsOk (s : IO) : Prop := Forall (fun m => (oid m < nextId s)%nat) (boxes s).

(** Only what concerns outgoing messages changed. *)
Definition sameInput (s s' : IO) : Prop :=
  _inputCodec s' = _inputCodec s /\ _pendingRequests s' = _pendingRequests s
  /\ _numRequestsReceived s' = _numRequestsReceived s /\ _receiveOpen s' = _receiveOpen s.

Lemma fresh_notin n m l : Forall (fun x => (oid x < n)%nat) l -> (n <= oid m)%nat -> contains m l = false.
Proof.
  intros H Hn. unfold contains. apply not_true_is_false. rewrite existsb_exists. intros (x & Hx & E).
  apply Nat.eqb_eq in E. rewrite Forall_forall in H. apply list_elem_of_In, H in Hx. lia.
Qed.

Lemma insertAt_perm i m q : insertAt i m q ≡ₚ m :: q.
Proof. unfold insertAt. rewrite <- Permutation_middle. now rewrite take_drop. Qed.

(** Open to send. *)
Record SOk (s : IO) : Prop := {
  so_open : _sendOpen s = true;
  so_out : isOpen (_outbox s) = true;
  so_way : isOpen (_wayOutBox s) = true
}.

(** [send] of a message that is new. *)
Lemma send_spec m (s : IO) :
  Forall (fun x => (oid x < oid m)%nat) (boxes s) ->
  exists b s', send m s = Ret (b, s') /\ sameInput s s' /\ nextId s' = nextId s
    /\ _outbox s' = (if (ourgent m || (length (items (_outbox s)) <? kOutboxCapacity)%nat) && _sendOpen s && isOpen (_outbox s)
                     then mkBox (insertAt (requeuePos m (items (_outbox s))) m (items (_outbox s))) true else _outbox s)
    /\ _wayOutBox s' = (if negb (ourgent m || (length (items (_outbox s)) <? kOutboxCapacity)%nat) && isOpen (_wayOutBox s)
                        then mkBox (items (_wayOutBox s) ++ [m]) true else _wayOutBox s)
    /\ _icebox s' = _icebox s /\ outputCodec s' = outputCodec s /\ _lastMessageNo s' = _lastMessageNo s
    /\ _sendOpen s' = _sendOpen s.
Proof.
  intros Hids. unfold send. unfold mbind, ST_bind, gets.
  destruct (ourgent m || (length (items (_outbox s)) <? kOutboxCapacity)%nat); cbn [negb andb].
  - unfold _queueMessage, mbind, ST_bind, gets. destruct (_sendOpen s) eqn:Eo; cbn [negb andb].
    + unfold requeue, mbind, ST_bind, gets, assert, when, modify.
      rewrite (fresh_notin (oid m)) by (lia || (apply Forall_app in Hids as [Hids _]; done)). cbn [negb].
      destruct (isOpen (_outbox s)); eexists _, _; (split; [reflexivity|]); cbn; now split_and!.
    + unfold outDisconnected, noResponse, setResult, modify. destruct (o_onResponse m); eexists _, _;
        (split; [reflexivity|]); cbn; now split_and!.
  - destruct (isOpen (_wayOutBox s)); eexists _, _; (split; [reflexivity|]); cbn; now split_and!.
Qed.

Lemma put_short n : (length (put n) <= 10)%nat.
Proof.
  unfold put, kMaxSize. generalize 10%nat as f. intros f. revert n. induction f as [|f IH]; intros n; cbn [putLoop length]; [lia|].
  destruct (_ <=? _); cbn [length]; [specialize (IH (Z.shiftr n 7)); lia|lia].
Qed.

(** An acknowledgement of bytes of a request. *)
Definition ackOut (m : MessageOut) : Prop :=
  oflags m = Z.lor (Z.lor kAckRequestType kUrgent) kNoReply /\ 0 < onumber m < 2 ^ 64
  /\ exists x, 0 <= x < 2 ^ 64 /\ _unsentPayload m = put x.

(** The side that only receives has nothing but acknowledgements to send. *)
Record Peer (s : IO) : Prop := {
  pe_ok : SOk s;
  pe_ids : idsOk s;
  pe_acks : Forall ackOut (boxes s)
}.

Lemma peer_ext (s s' : IO) :
  Peer s -> _outbox s' = _outbox s -> _wayOutBox s' = _wayOutBox s -> _icebox s' = _icebox s ->
  _sendOpen s' = _sendOpen s -> nextId s' = nextId s -> Peer s'.
Proof.
  intros [[H1 H2 H3] H4 H5] E1 E2 E3 E4 E5.
  constructor; [constructor|unfold idsOk|]; unfold boxes; rewrite ?E1, ?E2, ?E3, ?E4, ?E5; done.
Qed.

Lemma peer_send m (s s1 : IO) :
  Peer s -> ackOut m -> oid m = nextId s -> s1 = set_nextId (S (nextId s)) s ->
  exists b s', send m s1 = Ret (b, s') /\ sameInput s s' /\ Peer s'.
Proof.
  intros [[H1 H2 H3] Hids Hacks] Hm Hid ->. destruct (send_spec m (set_nextId (S (nextId s)) s)) as (b & s2 & E & Hsame & Hn & Ho & Hw & Hi & _ & _ & Hso).
  { eapply Forall_impl; [exact Hids|]. cbn. intros. now rewrite Hid. }
  exists b, s2. split; [done|]. split; [exact Hsame|]. cbn [_outbox _wayOutBox _icebox set_nextId _sendOpen nextId] in *.
  assert (ourgent m = true) as Hu by (destruct Hm as (Hf & _); unfold ourgent; now rewrite Hf).
  rewrite Hu, H1, H2 in Ho. rewrite Hu in Hw. cbn [orb andb negb] in Ho, Hw.
  assert (boxes s2 ≡ₚ m :: boxes s) as Hb by (unfold boxes; rewrite Ho, Hw, Hi; cbn [items]; now rewrite insertAt_perm).
  constructor; [now constructor; rewrite ?Ho, ?Hw, ?Hso|unfold idsOk|]; rewrite Hb; constructor; try done.
  - rewrite Hn, Hid. lia.
  - eapply Forall_impl; [exact Hids|]. cbn. rewrite Hn. intros; lia.
Qed.

Lemma acknowledge_spec size mi (s : IO) :
  Peer s -> isResponse (iflags mi) = false -> 0 < inumber mi < 2 ^ 64 -> 0 <= _rawBytesReceived mi < 2 ^ 64 ->
  exists raw una s', acknowledge size mi s = Ret (set_ibytes raw una mi, s') /\ sameInput s s' /\ Peer s'.
Proof.
  intros Hok Hr Hnum Hraw. unfold acknowledge. destruct (_ <=? _); [|eexists _, _, s; now split_and!].
  unfold newMessageOut, freshId. unfold mbind, ST_bind, assert, gets, modify, mret, ST_ret. pose proof (put_short (_rawBytesReceived mi)).
  rewrite (proj2 (Z.leb_le _ UINT32_MAX)) by (unfold UINT32_MAX; lia). rewrite Hr.
  match goal with |- context [send ?x ?y] => destruct (peer_send x s y Hok) as (b & s2 & E & Hsame & Hok2) end;
    [split; [done|]; split; [done|]; now exists (_rawBytesReceived mi)|done|done|].
  rewrite E. eexists _, _, s2. split; [reflexivity|]. now split.
Qed.

(** ** One frame *)

Definition freshIn (mi : MessageIn) : Prop :=
  _gotProperties mi = false /\ i_properties mi = [] /\ _body mi = [] /\ isResponse (iflags mi) = false /\ i_onResponse mi = None
  /\ 0 < inumber mi < 2 ^ 64.

(** An incoming request of which [p] has been received. *)
Definition Received (props p : bytes) (mi : MessageIn) : Prop :=
  p = [] /\ freshIn mi \/ exists q, p = put (Z.of_nat (length props)) ++ q /\ Holds props q mi.

Lemma received_ibytes props p mi raw una : Received props p mi -> Received props p (set_ibytes raw una mi).
Proof. intros [[-> H]|(q & -> & [? ? ? ? ? ? ?])]; [now left|]. right. exists q. split; [done|now constructor]. Qed.

Lemma payload_size props : wfProps props -> 0 <= Z.of_nat (length props) < 2 ^ 64.
Proof. intros [H _]. unfold kMaxPropertiesSize in H. lia. Qed.

Lemma readHead_raw props body p d r mi (c : Codec CI) h ff :
  wfProps props -> Received props p mi -> (p ++ d) ++ r = payloadOf props body ->
  (p = [] -> (10 <= length d)%nat \/ r = []) -> chk h c ->
  exists w d' mi1 c1 q1, readHead crc32 Raw d ff mi c = Ret (d', mi1, c1) /\ d = w ++ d' /\ chk (h ++ w) c1
    /\ Holds props q1 mi1 /\ p ++ w = put (Z.of_nat (length props)) ++ q1.
Proof.
  intros Hwf HR E Hfirst Hc. pose proof (payload_size props Hwf) as Hsz. pose proof (put_length _ Hsz) as Hput.
  unfold kMaxSize in Hput. unfold readHead. destruct HR as [[-> (Hg & Hp & Hb & Hr & Hf & Hnu)]|(q & -> & Hh)].
  - rewrite Hg. rewrite cwrite_raw by lia. unfold mbind, outcome_bind. cbn [app] in E.
    assert (exists q1, take 10 d = put (Z.of_nat (length props)) ++ q1) as (q1 & Ew).
    { exists (drop (length (put (Z.of_nat (length props)))) (take 10 d)).
      rewrite <- (take_drop (length (put (Z.of_nat (length props)))) (take 10 d)) at 1. f_equal.
      rewrite take_take, Nat.min_l by lia. apply (f_equal (take (length (put (Z.of_nat (length props)))))) in E.
      unfold payloadOf in E. rewrite take_app_length in E.
      destruct (Hfirst eq_refl) as [H10| ->]; [now rewrite take_app_le in E by lia|now rewrite app_nil_r in E]. }
    rewrite Ew, read_put by done. rewrite (proj2 (Z.ltb_ge _ _)) by apply Hwf. rewrite Hp, Hb, Nat2Z.id.
    cbn [set_icontent iflags]. rewrite Hr. cbn [andb app].
    eexists (take 10 d), (drop 10 d), _, _, q1. split; [reflexivity|]. split; [now rewrite take_drop|].
    split; [rewrite Ew; now apply chk_add|]. split; [|exact Ew].
    constructor; cbn [set_icontent _gotProperties _propertiesSize i_properties _body iflags i_onResponse]; try done.
    + destruct (decide (length props <= length q1)%nat); [now rewrite Nat.min_l by lia|].
      rewrite Nat.min_r by lia. rewrite !take_ge by lia. done.
    + destruct (decide (length props <= length q1)%nat); [now rewrite Nat.min_l by lia|].
      rewrite Nat.min_r by lia. rewrite !drop_ge by lia. done.
  - rewrite (h_got _ _ _ Hh). exists [], d, mi, c, q. rewrite !app_nil_r. now split_and!.
Qed.

Lemma receivedFrame_raw fuel props body p d r mi (s : IO) h ff :
  wfProps props -> Received props p mi -> (p ++ d) ++ r = payloadOf props body -> d <> [] ->
  (p = [] -> (10 <= length d)%nat \/ r = []) -> chk h (_inputCodec s) -> Peer s ->
  hasFlag ff kCompressed = false -> hasFlag ff kMoreComing = negb (bool_decide (r = [])) ->
  exists st mi' s', receivedFrame crc32 fuel (d ++ mem32 (encodeBig (crc32 0 (h ++ d)))) ff mi s = Ret ((st, mi'), s')
    /\ chk (h ++ d) (_inputCodec s') /\ _pendingRequests s' = _pendingRequests s
    /\ _numRequestsReceived s' = _numRequestsReceived s /\ _receiveOpen s' = _receiveOpen s /\ Peer s'
    /\ Received props (p ++ d) mi' /\ bool_decide (st = kEnd) = bool_decide (r = []).
Proof.
  intros Hwf HR E Hd Hfirst Hc Hids Hcomp Hmore. unfold receivedFrame.
  match goal with |- context [acknowledge ?x ?y] => destruct (acknowledge_spec x y s Hids) as (raw & una & s1 & Ea & Hsame & Hids1) end;
    [destruct HR as [[_ (_ & _ & _ & G & _)]|(q & _ & [])]; done|destruct HR as [[_ (_ & _ & _ & _ & _ & G)]|(q & _ & [])]; done
    |cbn [set_ibytes _rawBytesReceived]; rewrite u64_mod; apply Z.mod_pos_bound; lia|].
  destruct Hsame as (S1 & S2 & S3 & S4).
  unfold mbind, ST_bind, lift, gets, modify. rewrite Ea, Hcomp.
  rewrite splitFrame_raw by apply crc_range. rewrite S1.
  match goal with |- context [readHead _ _ _ _ ?y _] =>
    destruct (readHead_raw props body p d r y (_inputCodec s) h ff) as (w & d' & mi1 & c1 & q1 & E1 & Ed & Hc1 & Hh1 & Ew) end;
    [done|now apply received_ibytes, received_ibytes|done|done|done|]. rewrite E1.
  assert ((q1 ++ d') ++ r = props ++ body) as E2.
  { unfold payloadOf in E. rewrite Ed, app_assoc, Ew, <- !app_assoc in E. apply app_inv_head in E. now rewrite <- app_assoc. }
  destruct (readProperties_raw props body q1 d' r mi1 c1 (h ++ w) Hwf Hh1 E2 Hc1)
    as (st & w2 & e' & mi2 & c2 & E3 & Ed' & Hc2 & Hp2 & Hb2 & Hg2 & Hs2 & Hf2 & Ho2 & Hnu2 & Hst & Hother). rewrite E3.
  cbn [writeAll].
  assert (chk (h ++ d) (addToChecksum crc32 e' c2)) as Hc3.
  { rewrite Ed, Ed', !app_assoc. now apply chk_add. }
  unfold verifyChecksum. rewrite Hc3, Z.eqb_refl. cbn [negb].
  assert (forall m', _gotProperties m' = true -> _propertiesSize m' = Z.of_nat (length props) ->
    i_properties m' = i_properties mi2 -> _body m' = _body mi2 ++ e' -> iflags m' = iflags mi2 -> i_onResponse m' = i_onResponse mi2 -> inumber m' = inumber mi2 ->
    Received props (p ++ d) m') as Hrec.
  { intros m' G1 G2 G3 G4 G5 G6 G7. right. exists (q1 ++ d'). split; [rewrite Ed, app_assoc, Ew, <- app_assoc; done|].
    constructor; [done|done|now rewrite G3|now rewrite G4|rewrite G5, Hf2; apply Hh1|rewrite G6, Ho2; apply Hh1|rewrite G7, Hnu2; apply Hh1]. }
  rewrite Hmore. destruct (bool_decide_reflect (r = [])) as [Hr|Hr]; cbn [negb].
  - rewrite bool_decide_false; cycle 1.
    { intros Hk. specialize (Hother Hk). rewrite Hr, app_nil_r in E2. rewrite E2, length_app in Hother. lia. }
    cbn [set_icontent set_icomplete i_onResponse]. rewrite Ho2, (h_fut _ _ _ Hh1).
    eexists kEnd, _, _. split; [reflexivity|]. cbn. split_and!; try done; [now apply (peer_ext s1)|now apply Hrec].
  - eexists st, _, _. split; [reflexivity|]. cbn. split_and!; try done; [now apply (peer_ext s1)|now apply Hrec|]. now apply bool_decide_false.
Qed.

(** * The sender *)

Lemma notin_contains m l : oid m ∉ map oid l -> contains m l = false.
Proof.
  intros H. unfold contains. apply not_true_is_false. rewrite existsb_exists. intros (x & Hx & E). apply Nat.eqb_eq in E.
  apply H. rewrite <- E. apply list_elem_of_In, in_map, Hx.
Qed.

Lemma boxes_notin m (s : IO) :
  oid m ∉ map oid (boxes s) -> contains m (items (_outbox s)) = false /\ contains m (_icebox s) = false.
Proof.
  intros H. unfold boxes in H. rewrite !map_app in H.
  split; apply notin_contains; intros F; apply H; apply elem_of_app; [now left|right; apply elem_of_app; now left].
Qed.

Lemma requeue_spec m (s : IO) :
  SOk s -> oid m ∉ map oid (boxes s) ->
  exists s', requeue m s = Ret (tt, s') /\ SOk s' /\ boxes s' ≡ₚ m :: boxes s /\ nextId s' = nextId s
    /\ outputCodec s' = outputCodec s /\ _lastMessageNo s' = _lastMessageNo s.
Proof.
  intros [H1 H2 H3] Hn. destruct (boxes_notin m s Hn) as [Hc _].
  unfold requeue, mbind, ST_bind, gets, assert, when, modify. rewrite Hc, H2. cbn [negb].
  eexists. split; [reflexivity|]. split; [now constructor|]. split_and!; try done.
  unfold boxes. cbn [set_outbox _outbox items _icebox _wayOutBox]. now rewrite insertAt_perm.
Qed.

Lemma freeze_spec m (s : IO) :
  SOk s -> oid m ∉ map oid (boxes s) ->
  exists s', freezeMessage m s = Ret (tt, s') /\ SOk s' /\ boxes s' ≡ₚ m :: boxes s /\ nextId s' = nextId s
    /\ outputCodec s' = outputCodec s /\ _lastMessageNo s' = _lastMessageNo s.
Proof.
  intros [H1 H2 H3] Hn. destruct (boxes_notin m s Hn) as [Hc Hi].
  unfold freezeMessage, mbind, ST_bind, gets, assert, modify. rewrite Hc. cbn [negb]. rewrite Hi. cbn [negb].
  eexists. split; [reflexivity|]. split; [now constructor|]. split_and!; try done.
  unfold boxes. cbn [set_icebox _outbox items _icebox _wayOutBox]. rewrite <- !app_assoc. cbn [app].
  rewrite (app_assoc (items _)). rewrite <- Permutation_middle. now rewrite <- app_assoc.
Qed.

Lemma popWayOut_spec (s : IO) :
  SOk s -> NoDup (map oid (boxes s)) ->
  exists s', (forall A (k : ST IO A),
      (newMsg ← popWayOut; _ ← (match newMsg with Some x => _ ← _queueMessage x; mret tt | None => mret tt end); k) s = k s')
    /\ SOk s' /\ boxes s' ≡ₚ boxes s /\ nextId s' = nextId s
    /\ outputCodec s' = outputCodec s /\ _lastMessageNo s' = _lastMessageNo s.
Proof.
  intros Hok Hnd. unfold popWayOut. unfold mbind, ST_bind, gets, modify, mret, ST_ret.
  destruct (items (_wayOutBox s)) as [|x r] eqn:E; [exists s; now split_and!|].
  set (s1 := set_wayOutBox (mkBox r (isOpen (_wayOutBox s))) s).
  assert (boxes s ≡ₚ x :: boxes s1) as Hp.
  { unfold boxes, s1. cbn [set_wayOutBox _outbox _icebox _wayOutBox items]. rewrite E, !app_assoc.
    now rewrite <- Permutation_middle. }
  assert (SOk s1) as Hok1 by (destruct Hok; now constructor).
  unfold _queueMessage, mbind, ST_bind, gets, mret, ST_ret. rewrite (so_open _ Hok1). cbn [negb].
  destruct (requeue_spec x s1 Hok1) as (s2 & E2 & Hok2 & Hp2 & H2); [|rewrite E2; exists s2; split_and!; try done; try apply H2; now rewrite Hp2, Hp].
  apply (Permutation_map oid) in Hp. rewrite Hp in Hnd.
  cbn [map] in Hnd. now apply NoDup_cons in Hnd.
Qed.

(** The message [m'] that is left of [m] after a frame with number [n]. *)
Record Continues (m m' : MessageOut) (n : Z) (rest : bytes) : Prop := {
  ct_id : oid m' = oid m;
  ct_flags : oflags m' = oflags m;
  ct_number : onumber m' = n;
  ct_payload : opayload m' = opayload m;
  ct_unsent : _unsentPayload m' = rest
}.

Definition numberOf (m : MessageOut) (s : IO) : Z := if onumber m =? 0 then _lastMessageNo s + 1 else onumber m.

Lemma assignNumber_spec m (s : IO) :
  0 <= _lastMessageNo s -> _lastMessageNo s + 1 < 2 ^ 64 ->
  exists m1 s1, assignNumber m s = Ret (m1, s1) /\ Continues m m1 (numberOf m s) (_unsentPayload m)
    /\ boxes s1 = boxes s /\ outputCodec s1 = outputCodec s /\ nextId s1 = nextId s
    /\ _lastMessageNo s1 = (if onumber m =? 0 then _lastMessageNo s + 1 else _lastMessageNo s)
    /\ (SOk s -> SOk s1).
Proof.
  intros Hl Hu. unfold assignNumber, numberOf. destruct (onumber m =? 0) eqn:E.
  - unfold mbind, ST_bind, gets, modify. rewrite u64_small by lia. eexists _, _. split; [reflexivity|].
    split; [now constructor|]. split_and!; try done. intros [? ? ?]. now constructor.
  - eexists m, s. split; [reflexivity|]. split; [now constructor|]. now split_and!.
Qed.

Lemma createNextFrame_spec m (s : IO) h :
  SOk s -> NoDup (map oid (m :: boxes s)) -> rawOut m -> _unsentPayload m <> [] ->
  0 <= onumber m -> 0 <= _lastMessageNo s -> _lastMessageNo s + 1 < 2 ^ 64 -> chkOut h (outputCodec s) ->
  exists s' m' chunk rest,
    createNextFrame crc32 m s = Ret (put (numberOf m s) ++ frameFlagsOf m rest :: chunk ++ mem32 (encodeBig (crc32 0 (h ++ chunk))), s')
    /\ chunk ++ rest = _unsentPayload m /\ chunk <> [] /\ ((10 <= length chunk)%nat \/ rest = [])
    /\ Z.of_nat (length chunk) <= kBigFrameSize + kMaxFrameOverhead /\ chkOut (h ++ chunk) (outputCodec s') /\ SOk s' /\ nextId s' = nextId s
    /\ _lastMessageNo s' = (if onumber m =? 0 then _lastMessageNo s + 1 else _lastMessageNo s)
    /\ Continues m m' (numberOf m s) rest
    /\ (boxes s' ≡ₚ if bool_decide (rest = []) then boxes s else m' :: boxes s).
Proof.
  intros Hok Hnd Hraw Hne Hnum Hl Hu [Hc Hq]. cbn [map] in Hnd. apply NoDup_cons in Hnd as [Hni Hnd].
  destruct (assignNumber_spec m s Hl Hu) as (m1 & s1 & E1 & [C1 C2 C3 C4 C5] & Hb1 & Ho1 & Hn1 & Hl1 & Hok1).
  unfold createNextFrame. unfold mbind, ST_bind, gets, lift, modify, mret, ST_ret. rewrite E1.
  match goal with |- context [(Z.to_nat ?x - _ - 1)%nat] => set (maxSize := x) end.
  assert (4096 + 15 <= maxSize) as Hmax
    by (unfold maxSize, kBigFrameSize, kDefaultFrameSize, kMaxFrameOverhead; destruct (_ || _); lia).
  pose proof (put_short (onumber m1)) as Hput.
  assert (rawOut m1) as Hraw1 by (destruct Hraw as (? & ? & ? & ?); unfold rawOut; rewrite C2; now split_and!).
  set (d := (Z.to_nat maxSize - length (put (onumber m1)) - 1)%nat). assert (4100 <= d)%nat as Hd by (unfold d; lia).
  rewrite <- Ho1 in Hq.
  destruct (nextFrame_raw d m1 (outputCodec s1) Hq Hraw1) as (m2 & c2 & fr & E2 & Efr & Hchk & D1 & D2 & D3 & D4 & D5 & D6);
    [now rewrite C5|lia|]. rewrite E2. rewrite C5 in *.
  set (chunk := take (d - 4) (_unsentPayload m)) in *. set (rest := drop (d - 4) (_unsentPayload m)) in *.
  assert (frameFlagsOf m1 rest = frameFlagsOf m rest) as Eff by (unfold frameFlagsOf; now rewrite C2).
  rewrite Ho1, Hc, crc_app in Hchk. rewrite Efr, Hchk, Eff, C3 in *.
  destruct (frameFlags_facts m rest Hraw) as (_ & _ & _ & Hmore).
  assert (Continues m m2 (numberOf m s) rest) as Hct by (constructor; congruence).
  set (s2 := set_outputCodec c2 s1).
  assert (SOk s2) as Hok2 by (destruct (Hok1 Hok); now constructor).
  assert (chkOut (h ++ chunk) (outputCodec s2)) as Hco by (split; [exact Hchk|unfold s2; cbn; now rewrite D6]).
  assert (boxes s2 = boxes s) as Hb2 by exact Hb1.
  assert (NoDup (map oid (boxes s2))) as Hnd2 by now rewrite Hb2.
  assert (oid m2 ∉ map oid (boxes s2)) as Hni2 by (rewrite Hb2, D3, C1; exact Hni).
  assert (isAck (oflags m2) = false) as Hack by (rewrite D4; now apply rawOut_notAck).
  assert (chunk <> [] /\ ((10 <= length chunk)%nat \/ rest = []) /\ chunk ++ rest = _unsentPayload m) as (Hch1 & Hch2 & Hch3).
  { unfold chunk, rest. rewrite take_drop. split_and!; [destruct (_unsentPayload m); [done|]; destruct (d - 4)%nat eqn:Ed; [lia|done]| |done].
    destruct (decide (d - 4 <= length (_unsentPayload m))%nat); [left; rewrite length_take; lia|right; apply drop_ge; lia]. }
  assert (Z.of_nat (length chunk) <= kBigFrameSize + kMaxFrameOverhead) as Hch4.
  { unfold chunk, d, maxSize. rewrite length_take. unfold kBigFrameSize, kDefaultFrameSize, kMaxFrameOverhead. destruct (_ || _); lia. }
  rewrite Hack, Hmore. cbn [negb when].
  destruct (bool_decide_reflect (rest = [])) as [Hr|Hr]; cbn [negb].
  - destruct (popWayOut_spec s2 Hok2 Hnd2) as (s3 & E3 & Hok3 & Hb3 & Hn3 & Ho3 & Hl3).
    specialize (E3 unit). unfold mbind, ST_bind, mret, ST_ret in E3. rewrite E3.
    exists (match createResponse m2 with
       | Some response => match _pendingResponses s3 !! inumber response with Some _ => s3
           | None => set_pendingResponses (<[inumber response := response]> (_pendingResponses s3)) s3 end
       | None => match o_onResponse m2 with Some f => set_resolved (resolved s3 ++ [(f, None)]) s3 | None => s3 end end), m2, chunk, rest.
    split; [destruct (createResponse m2); [done|]; unfold noResponse, setResult, modify; destruct (o_onResponse m2); done|].
    assert (forall s4 : IO, boxes s4 = boxes s3 -> outputCodec s4 = outputCodec s3 -> nextId s4 = nextId s3 ->
      _lastMessageNo s4 = _lastMessageNo s3 -> SOk s4 ->
      chunk ++ rest = _unsentPayload m /\ chunk <> [] /\ ((10 <= length chunk)%nat \/ rest = [])
      /\ Z.of_nat (length chunk) <= kBigFrameSize + kMaxFrameOverhead /\ chkOut (h ++ chunk) (outputCodec s4) /\ SOk s4 /\ nextId s4 = nextId s
      /\ _lastMessageNo s4 = (if onumber m =? 0 then _lastMessageNo s + 1 else _lastMessageNo s)
      /\ Continues m m2 (numberOf m s) rest /\ boxes s4 ≡ₚ boxes s) as Hfin.
    { intros s4 G1 G2 G3 G4 G5. rewrite G1, G2, G3, G4, Hb3, Hb2, Hn3, Ho3, Hl3. now split_and!. }
    rewrite (bool_decide_true (rest = [])) by done.
    destruct (createResponse m2) as [response|]; [destruct (_pendingResponses s3 !! inumber response)|destruct (o_onResponse m2)];
      apply Hfin; try done; destruct Hok3; now constructor.
  - destruct (needsAck m2 && _receiveOpen s2);
      [destruct (freeze_spec m2 s2 Hok2 Hni2) as (s3 & E3 & Hok3 & Hb3 & Hn3 & Ho3 & Hl3)
      |destruct (requeue_spec m2 s2 Hok2 Hni2) as (s3 & E3 & Hok3 & Hb3 & Hn3 & Ho3 & Hl3)];
      rewrite E3; exists s3, m2, chunk, rest; (split; [done|]);
      rewrite (bool_decide_false (rest = [])) by done; rewrite Hn3, Ho3, Hl3, Hb3, Hb2; now split_and!.
Qed.

(** * The receiver *)

Lemma messageFlags_type ff : 0 <= ff < 128 -> typeOf (messageFlags ff) = typeOf ff.
Proof.
  intros Hf. apply Z.eqb_eq.
  assert (forallb (fun n => typeOf (messageFlags (Z.of_nat n)) =? typeOf (Z.of_nat n)) (seq 0 128) = true) as H by now vm_compute.
  rewrite forallb_forall in H. specialize (H (Z.to_nat ff)). rewrite Z2Nat.id in H by lia. apply H, in_seq. lia.
Qed.

Lemma put_small ff : 0 <= ff < 128 -> put ff = [ff].
Proof. intros Hf. rewrite put_unfold by lia. now rewrite (proj2 (Z.leb_gt _ _)) by lia. Qed.

(** The request a frame with number [n] is for. *)
Definition Awaits (props p : bytes) (n : Z) (s : IO) : Prop :=
  (p = [] /\ _pendingRequests s !! n = None /\ n = _numRequestsReceived s + 1)
  \/ exists mi, _pendingRequests s !! n = Some mi /\ Received props p mi /\ p <> [].

Lemma pendingRequest_spec props p n ff (s : IO) :
  Awaits props p n s -> 0 < n < 2 ^ 64 -> 0 <= ff < 128 -> typeOf ff = kRequestType ->
  exists mi s', pendingRequest n ff s = Ret (mi, s') /\ Received props p mi
    /\ _pendingRequests s' = (if hasFlag ff kMoreComing then <[n := mi]> (_pendingRequests s) else delete n (_pendingRequests s))
    /\ _numRequestsReceived s' = (if bool_decide (p = []) then n else _numRequestsReceived s)
    /\ _inputCodec s' = _inputCodec s /\ _receiveOpen s' = _receiveOpen s /\ (Peer s -> Peer s').
Proof.
  intros HA Hn Hff Hty. unfold pendingRequest. unfold mbind, ST_bind, gets, modify, when, mret, ST_ret.
  destruct HA as [(-> & Hnone & En)|(mi & Hsome & HR & Hp)].
  all: assert (forall s' : IO, _outbox s' = _outbox s -> _wayOutBox s' = _wayOutBox s -> _icebox s' = _icebox s ->
      _sendOpen s' = _sendOpen s -> nextId s' = nextId s -> Peer s -> Peer s') as Hpe by (intros; now apply (peer_ext s)).
  - rewrite Hnone, u64_small by lia. rewrite (proj2 (Z.eqb_eq _ _) En). rewrite bool_decide_true by done.
    exists (newMessageIn ff n). destruct (hasFlag ff kMoreComing); eexists; (split; [reflexivity|]).
    all: cbn [set_pendingRequests set_numRequestsReceived _pendingRequests _numRequestsReceived _inputCodec _receiveOpen nextId].
    all: split; [left; split; [done|]; unfold freshIn, newMessageIn, isResponse; cbn [iflags _gotProperties i_properties _body i_onResponse]; rewrite messageFlags_type, Hty by done; done|].
    all: split_and!; try done; try (now apply Hpe). now rewrite delete_id.
  - rewrite Hsome, (bool_decide_false (p = [])) by done. exists mi.
    destruct (hasFlag ff kMoreComing); cbn [negb]; eexists; (split; [reflexivity|]);
      cbn [set_pendingRequests _pendingRequests _numRequestsReceived _inputCodec _receiveOpen nextId]; split_and!; try done; try (now apply Hpe).
    now rewrite insert_id.
Qed.

Lemma receive_raw fuel props body p chunk rest n ff (s : IO) h :
  wfProps props -> (p ++ chunk) ++ rest = payloadOf props body -> chunk <> [] ->
  (p = [] -> (10 <= length chunk)%nat \/ rest = []) -> chk h (_inputCodec s) -> Peer s -> _receiveOpen s = true ->
  0 < n < 2 ^ 64 -> 0 <= ff < 128 -> typeOf ff = kRequestType -> hasFlag ff kCompressed = false ->
  hasFlag ff kMoreComing = negb (bool_decide (rest = [])) -> Awaits props p n s ->
  exists mi' s', receive crc32 fuel (put n ++ ff :: chunk ++ mem32 (encodeBig (crc32 0 (h ++ chunk)))) s
      = Ret (if bool_decide (rest = []) then Some mi' else None, s')
    /\ Received props (p ++ chunk) mi'
    /\ _pendingRequests s' = (if bool_decide (rest = []) then delete n (_pendingRequests s) else <[n := mi']> (_pendingRequests s))
    /\ _numRequestsReceived s' = (if bool_decide (p = []) then n else _numRequestsReceived s)
    /\ _receiveOpen s' = true /\ Peer s' /\ chk (h ++ chunk) (_inputCodec s').
Proof.
  intros Hwf E Hch Hfirst Hc Hids Hro Hn Hff Hty Hcomp Hmore HA. unfold receive.
  unfold mbind, ST_bind, lift, gets, modify, mret, ST_ret. rewrite read_put by lia.
  replace (ff :: chunk ++ mem32 (encodeBig (crc32 0 (h ++ chunk)))) with (put ff ++ chunk ++ mem32 (encodeBig (crc32 0 (h ++ chunk))))
    by now rewrite put_small.
  rewrite read_put by lia. rewrite (proj2 (Z.ltb_ge 0x80 ff)) by lia. rewrite Hty, Z.eqb_refl, Hro.
  destruct (pendingRequest_spec props p n ff s HA Hn Hff Hty) as (mi & s1 & E1 & HR & Hpr & Hnr & Hic & Hro1 & Hp1).
  rewrite E1. assert (Peer s1) as Hids1 by now apply Hp1.
  destruct (receivedFrame_raw fuel props body p chunk rest mi s1 h ff) as (st & mi' & s2 & E2 & Hc2 & Hp2 & Hn2 & Hr2 & Hi2 & HR2 & Hst);
    [done|done|done|done|done|now rewrite Hic|done|done|done|]. rewrite E2. rewrite Hmore in Hpr.
  exists mi'. rewrite Hst, Hp2, Hpr. destruct (bool_decide (rest = [])); cbn [negb].
  - rewrite lookup_delete_eq. eexists. split; [reflexivity|]. rewrite Hp2, Hpr, Hn2, Hnr, Hr2, Hro1. now split_and!.
  - rewrite lookup_insert_eq. eexists. split; [reflexivity|].
    cbn [set_pendingRequests _pendingRequests _numRequestsReceived _inputCodec _receiveOpen nextId].
    rewrite Hn2, Hnr, Hr2, Hro1, insert_insert_eq. split_and!; try done. now apply (peer_ext s2).
Qed.

(** * Both sides *)

(** An outgoing request and what the receiver has of it; [last] is the last message
    number given out, [pend] the receiver's table. *)
Definition okMsg (last : Z) (pend : gmap Z MessageIn) (m : MessageOut) : Prop :=
  rawOut m /\ 0 <= onumber m /\ _unsentPayload m <> [] /\
  exists props body p, wfProps props /\ opayload m = payloadOf props body /\ p ++ _unsentPayload m = opayload m
    /\ ((onumber m = 0 /\ p = [])
        \/ (0 < onumber m <= last /\ p <> [] /\ exists mi, pend !! onumber m = Some mi /\ Received props p mi)).

Definition started (l : list MessageOut) : list Z := filter (fun n => n <> 0) (map onumber l).

Definition newOnes (l : list MessageOut) : list MessageOut := filter (fun m => onumber m = 0) l.

(** [h] went through the codecs, [log] are the payloads sent, [got] those received. *)
Record Inv (A B : IO) (h : bytes) (log got : list bytes) : Prop := {
  i_ok : SOk A;
  i_nodup : NoDup (map oid (boxes A));
  i_ids : idsOk A;
  i_msgs : Forall (okMsg (_lastMessageNo A) (_pendingRequests B)) (boxes A);
  i_nums : NoDup (started (boxes A));
  i_last : 0 <= _lastMessageNo A;
  i_num : _numRequestsReceived B = _lastMessageNo A;
  i_pend : forall n mi, _pendingRequests B !! n = Some mi -> n <= _lastMessageNo A;
  i_out : chkOut h (outputCodec A);
  i_in : chk h (_inputCodec B);
  i_ro : _receiveOpen B = true;
  i_bids : Peer B;
  i_log : log ≡ₚ map opayload (boxes A) ++ got;
  i_count : _lastMessageNo A + Z.of_nat (length (newOnes (boxes A))) <= Z.of_nat (length log)
}.

Lemma okMsg_other last last' pend pend' m :
  okMsg last pend m -> last <= last' ->
  (forall mi, onumber m <> 0 -> pend !! onumber m = Some mi -> pend' !! onumber m = Some mi) ->
  okMsg last' pend' m.
Proof.
  intros (H1 & H2 & H3 & props & body & p & H4 & H5 & H6 & H7) Hl Hp. split_and!; [done..|].
  exists props, body, p. split_and!; [done..|]. destruct H7 as [H7|((H7 & H8) & H9 & mi & H10 & H11)]; [now left|].
  right. split_and!; [lia|lia|done|]. exists mi. split; [apply Hp; [lia|done]|done].
Qed.

Lemma started_cons m l : started (m :: l) = if decide (onumber m <> 0) then onumber m :: started l else started l.
Proof. unfold started. cbn [map]. rewrite filter_cons. done. Qed.

Lemma started_in m l : m ∈ l -> onumber m <> 0 -> onumber m ∈ started l.
Proof. intros Hm Hn. unfold started. apply list_elem_of_filter. split; [done|]. apply list_elem_of_In, in_map, list_elem_of_In, Hm. Qed.

Lemma started_bound last pend l : Forall (okMsg last pend) l -> Forall (fun n => n <= last) (started l).
Proof.
  intros H. unfold started. apply Forall_forall. intros n Hn. apply list_elem_of_filter in Hn as [Hn0 Hn].
  apply list_elem_of_In, in_map_iff in Hn as (m & <- & Hm). apply list_elem_of_In in Hm. rewrite Forall_forall in H.
  destruct (H m Hm) as (_ & _ & _ & props & body & p & _ & _ & _ & [[? _]|[? _]]); lia.
Qed.

(** What has been received of a whole request is its properties and its body. *)
Lemma received_all props body mi :
  Received props (payloadOf props body) mi -> i_properties mi = props /\ _body mi = body.
Proof.
  intros [[E _]|(q & E & [_ _ Hp Hb _ _ _])].
  - exfalso. unfold payloadOf in E. apply app_eq_nil in E as [E _]. unfold put in E. cbn [kMaxSize putLoop] in E.
    destruct (_ <=? _); done.
  - unfold payloadOf in E. apply app_inv_head in E. subst q. now rewrite take_app_length, drop_app_length in *.
Qed.

(** The payload an incoming request stands for. *)
Definition contentOf (mi : MessageIn) : bytes := payloadOf (i_properties mi) (_body mi).

Lemma Inv_perm_facts A m r :
  items (_outbox A) = m :: r -> boxes A = m :: boxes (set_outbox (mkBox r (isOpen (_outbox A))) A).
Proof. intros E. unfold boxes. cbn [set_outbox _outbox items _icebox _wayOutBox]. now rewrite E. Qed.

Lemma other_number A0 m pend m0 :
  NoDup (started (m :: boxes A0)) -> Forall (okMsg (_lastMessageNo A0) pend) (m :: boxes A0) ->
  m0 ∈ boxes A0 -> onumber m0 <> 0 -> onumber m0 <> numberOf m A0.
Proof.
  intros Hnd Hok Hm Hn. apply Forall_cons in Hok as [_ Hok]. pose proof (started_in m0 _ Hm Hn) as Hin.
  rewrite started_cons in Hnd. unfold numberOf. destruct (Z.eqb_spec (onumber m) 0) as [E|E].
  - apply started_bound in Hok. rewrite Forall_forall in Hok. specialize (Hok _ Hin). cbn in Hok. lia.
  - rewrite decide_True in Hnd by done. apply NoDup_cons in Hnd as [Hni _]. intros F. now rewrite F in Hin.
Qed.

Lemma started_perm l l' : l ≡ₚ l' -> started l ≡ₚ started l'.
Proof. intros H. unfold started. now rewrite H. Qed.

Lemma newOnes_perm l l' : l ≡ₚ l' -> length (newOnes l) = length (newOnes l').
Proof. intros H. unfold newOnes. now rewrite H. Qed.

Lemma newOnes_cons m l : length (newOnes (m :: l)) = if onumber m =? 0 then S (length (newOnes l)) else length (newOnes l).
Proof. unfold newOnes. rewrite filter_cons. destruct (Z.eqb_spec (onumber m) 0); [rewrite decide_True by done|rewrite decide_False by done]; done. Qed.

(** What both sides are after a frame for [m], in the lists that the invariant is about. *)
Section frame.
Context (A0 : IO) (m m' : MessageOut) (rest : bytes) (pend pend' : gmap Z MessageIn).
Abbreviation last' := (if onumber m =? 0 then _lastMessageNo A0 + 1 else _lastMessageNo A0).
Context (Hct : Continues m m' (numberOf m A0) rest) (Hlast : 0 <= _lastMessageNo A0).
Context (Hok : Forall (okMsg (_lastMessageNo A0) pend) (m :: boxes A0)) (Hnd : NoDup (started (m :: boxes A0))).

Lemma number_last : 0 < numberOf m A0 <= last'.
Proof.
  unfold numberOf. apply Forall_cons in Hok as [(_ & Hn & _ & props & body & p & _ & _ & _ & Hp) _].
  destruct (Z.eqb_spec (onumber m) 0); [lia|]. destruct Hp as [[? _]|[? _]]; lia.
Qed.

Lemma frame_others :
  (forall k, k <> numberOf m A0 -> pend' !! k = pend !! k) -> Forall (okMsg last' pend') (boxes A0).
Proof using Hok Hnd.
  intros Hp. apply Forall_forall. intros m0 Hm0. apply (okMsg_other (_lastMessageNo A0) _ pend).
  - apply Forall_cons in Hok as [_ Hok']. rewrite Forall_forall in Hok'. now apply Hok'.
  - destruct (_ =? _); lia.
  - intros mi H0 <-. apply Hp. now apply (other_number A0 m pend).
Qed.

Lemma frame_started : NoDup (started (m' :: boxes A0)).
Proof.
  rewrite started_cons, (ct_number _ _ _ _ Hct). pose proof number_last. rewrite decide_True by lia.
  constructor.
  - intros Hin. unfold started in Hin. apply list_elem_of_filter in Hin as [_ Hin].
    apply list_elem_of_In, in_map_iff in Hin as (x & Hx & Hxin). apply list_elem_of_In in Hxin.
    apply (other_number A0 m pend x Hnd Hok Hxin); [lia|done].
  - rewrite started_cons in Hnd. destruct (decide _) in Hnd; [|done]. now apply NoDup_cons in Hnd.
Qed.
End frame.

Lemma oids_perm (A0 A' : IO) m m' (rest : bytes) n :
  Continues m m' n rest -> (boxes A' ≡ₚ if bool_decide (rest = []) then boxes A0 else m' :: boxes A0) ->
  NoDup (map oid (m :: boxes A0)) -> NoDup (map oid (boxes A')).
Proof.
  intros [C1 _ _ _ _] Hb Hnd. rewrite Hb. cbn [map] in Hnd. destruct (bool_decide _).
  - now apply NoDup_cons in Hnd.
  - cbn [map]. now rewrite C1.
Qed.

(** The invariant holds again after the frame has been sent and received. *)
Lemma frame_inv A A0 B A' B' h h' log got m m' rest mi' props body q :
  Inv A B h log got -> boxes A = m :: boxes A0 -> nextId A0 = nextId A -> _lastMessageNo A0 = _lastMessageNo A ->
  SOk A' -> chkOut h' (outputCodec A') -> chk h' (_inputCodec B') -> nextId A' = nextId A0 ->
  _lastMessageNo A' = (if onumber m =? 0 then _lastMessageNo A0 + 1 else _lastMessageNo A0) ->
  Continues m m' (numberOf m A0) rest ->
  (boxes A' ≡ₚ if bool_decide (rest = []) then boxes A0 else m' :: boxes A0) ->
  _numRequestsReceived B' = _lastMessageNo A' -> _receiveOpen B' = true -> Peer B' ->
  _pendingRequests B' = (if bool_decide (rest = []) then delete (numberOf m A0) (_pendingRequests B)
                         else <[numberOf m A0 := mi']> (_pendingRequests B)) ->
  wfProps props -> opayload m = payloadOf props body -> q ++ rest = opayload m -> q <> [] -> Received props q mi' ->
  Inv A' B' h' log (got ++ if bool_decide (rest = []) then [contentOf mi'] else []).
Proof.
  intros [Hok Hnd Hids Hmsgs Hnums Hlast Hnum Hpend Hout Hin Hro Hpe Hlog Hcnt] Eb En El Hok' Hc Hci Hid' Hl' Hct Hb' Hnr Hro' Hpe' Hpr Hwf Hpay Hq Hqne Hrec.
  rewrite Eb in *. rewrite <- El in *. pose proof (number_last A0 m _ Hlast Hmsgs) as Hn.
  assert (forall k, k <> numberOf m A0 -> _pendingRequests B' !! k = _pendingRequests B !! k) as Hother.
  { intros k Hk. rewrite Hpr. destruct (bool_decide _); [now rewrite lookup_delete_ne|now rewrite lookup_insert_ne]. }
  pose proof (frame_others A0 m (_pendingRequests B) (_pendingRequests B') Hmsgs Hnums Hother) as Hoth.
  pose proof (frame_started A0 m m' rest _ Hct Hlast Hmsgs Hnums) as Hsta.
  pose proof (oids_perm A0 A' m m' rest _ Hct Hb' Hnd) as Hnd'. destruct Hct as [C1 C2 C3 C4 C5].
  assert (idsOk A') as Hids'.
  { unfold idsOk in *. rewrite Hid', En, Hb'. rewrite Eb in Hids. apply Forall_cons in Hids as [I1 I2]. destruct (bool_decide _); [done|]. constructor; [now rewrite C1|done]. }
  assert (forall k mi, _pendingRequests B' !! k = Some mi -> k <= _lastMessageNo A') as Hpend'.
  { intros k mi Hk. destruct (decide (k = numberOf m A0)) as [->|Hne]; [rewrite Hl'; lia|].
    rewrite Hother in Hk by done. apply Hpend in Hk. rewrite Hl'. destruct (_ =? _); lia. }
  pose proof Hmsgs as Hm. apply Forall_cons in Hm as [(Hraw & Hm0 & Hmne & _) _].
  constructor; try done; rewrite ?Hl'; try (destruct (onumber m =? 0); lia).
  - rewrite Hb'. case_bool_decide as Hr; [done|]. constructor; [|done].
    split_and!; [unfold rawOut; now rewrite C2|rewrite C3; lia|now rewrite C5|].
    exists props, body, q. rewrite C3, C4, C5. split_and!; try done. right. split_and!; try lia; [done|].
    exists mi'. split; [|done]. rewrite Hpr. apply lookup_insert_eq.
  - rewrite (started_perm _ _ Hb'). case_bool_decide; [|done]. rewrite started_cons in Hsta. destruct (decide _) in Hsta; [|done]. now apply NoDup_cons in Hsta.
  - rewrite Hlog. rewrite Hb'. cbn [map]. case_bool_decide as Hr.
    + rewrite Hr, app_nil_r in Hq. rewrite Hq, Hpay in Hrec. destruct (received_all _ _ _ Hrec) as [R1 R2].
      unfold contentOf. rewrite R1, R2, <- Hpay. rewrite app_assoc. apply Permutation_cons_append.
    + cbn [map]. now rewrite C4, app_nil_r.
  - rewrite (newOnes_perm _ _ Hb'). rewrite newOnes_cons in Hcnt.
    case_bool_decide; rewrite ?newOnes_cons, ?C3, ?(proj2 (Z.eqb_neq (numberOf m A0) 0)) by lia; destruct (onumber m =? 0); lia.
Qed.

Lemma frame_step fuel A B h log got m r :
  Inv A B h log got -> items (_outbox A) = m :: r -> Z.of_nat (length log) + 1 < 2 ^ 64 ->
  exists f A' B' res h', frameGenerator crc32 A = Ret (Frame f, A') /\ receive crc32 fuel f B = Ret (res, B')
    /\ Inv A' B' h' log (got ++ match res with Some mi => [contentOf mi] | None => [] end).
Proof.
  intros HI Em Hbound. pose proof HI as [Hok Hnd Hids Hmsgs Hnums Hlast Hnum Hpend Hout Hin Hro Hpe _ Hcnt].
  set (A0 := set_outbox (mkBox r (isOpen (_outbox A))) A). pose proof (Inv_perm_facts A m r Em : boxes A = m :: boxes A0) as Eb.
  rewrite Eb in *. change (_lastMessageNo A) with (_lastMessageNo A0) in *.
  pose proof (number_last A0 m _ Hlast Hmsgs) as Hn.
  pose proof Hmsgs as Hm. apply Forall_cons in Hm as [(Hraw & Hn0 & Hne & props & body & p & Hwf & Hpay & Hp & Hst) _].
  assert (_lastMessageNo A0 + 1 < 2 ^ 64) as Hl64 by (rewrite newOnes_cons in Hcnt; destruct (_ =? _); lia).
  destruct (createNextFrame_spec m A0 h) as (A' & m' & chunk & rest & Ef & Hch & Hchne & H10 & _ & Hc' & Hok' & Hid' & Hl' & Hct & Hb');
    [destruct Hok; now constructor|done..|].
  destruct (frameFlags_facts m rest Hraw) as (F1 & F2 & F3 & F4).
  assert (Awaits props p (numberOf m A0) B) as HA.
  { unfold numberOf. destruct Hst as [[E0 ->]|([E0 E0'] & Hpne & mi & Hmi & Hr)].
    - rewrite E0, Z.eqb_refl. left. split_and!; [done| |now rewrite Hnum].
      destruct (_pendingRequests B !! _) eqn:E; [|done]. apply Hpend in E. lia.
    - rewrite (proj2 (Z.eqb_neq _ 0)) by lia. right. now exists mi. }
  assert ((p ++ chunk) ++ rest = opayload m) as Hq by now rewrite <- app_assoc, Hch.
  destruct (receive_raw fuel props body p chunk rest (numberOf m A0) (frameFlagsOf m rest) B h)
    as (mi' & B' & Er & Hrec & Hpr & Hnr & Hro' & Hpe' & Hci); try done; [congruence|destruct (onumber m =? 0); lia|].
  eexists _, A', B', _, (h ++ chunk). split; [|split; [exact Er|]].
  { unfold frameGenerator, get, mbind, ST_bind, modify. rewrite (so_open _ Hok), Em. cbn [orb negb]. fold A0. now rewrite Ef. }
  replace (match (if bool_decide (rest = []) then Some mi' else None) with Some mi => [contentOf mi] | None => [] end)
    with (if bool_decide (rest = []) then [contentOf mi'] else []) by now destruct (bool_decide _).
  apply (frame_inv A A0 B A' B' h _ log got m m' rest mi' props body (p ++ chunk)); try done; [|now destruct p].
  rewrite Hnr, Hl', Hnum. unfold numberOf. destruct Hst as [[-> ->]|([E0 E0'] & Hpne & _)]; [done|].
  rewrite bool_decide_false by done. now rewrite (proj2 (Z.eqb_neq _ 0)) by lia.
Qed.

Lemma mem32_bytes x : Forall is_byte (mem32 x).
Proof. unfold mem32. repeat (constructor; [rewrite u8_mod; apply Z.mod_pos_bound; lia|]). constructor. Qed.

(** A frame is a string of bytes, and short. *)
Lemma frame_wf A B h log got m r :
  Inv A B h log got -> items (_outbox A) = m :: r -> Z.of_nat (length log) + 1 < 2 ^ 64 -> Forall (Forall is_byte) log ->
  exists f A', frameGenerator crc32 A = Ret (Frame f, A') /\ Forall is_byte f /\ Z.of_nat (length f) <= 65535.
Proof.
  intros HI Em Hbound Hby. pose proof HI as [Hok Hnd Hids Hmsgs Hnums Hlast Hnum Hpend Hout Hin Hro Hpe Hlog Hcnt].
  set (A0 := set_outbox (mkBox r (isOpen (_outbox A))) A). pose proof (Inv_perm_facts A m r Em : boxes A = m :: boxes A0) as Eb.
  rewrite Eb in *. change (_lastMessageNo A) with (_lastMessageNo A0) in *. pose proof (number_last A0 m _ Hlast Hmsgs) as Hn.
  pose proof Hmsgs as Hm. apply Forall_cons in Hm as [(Hraw & Hn0 & Hne & props & body & p & Hwf & Hpay & Hp & Hst) _].
  assert (_lastMessageNo A0 + 1 < 2 ^ 64) as Hl64 by (rewrite newOnes_cons in Hcnt; destruct (_ =? _); lia).
  destruct (createNextFrame_spec m A0 h) as (A' & m' & chunk & rest & Ef & Hch & _ & _ & Hlen & _); [destruct Hok; now constructor|done..|].
  destruct (frameFlags_facts m rest Hraw) as (F1 & _).
  eexists _, A'. split; [unfold frameGenerator, get, mbind, ST_bind, modify; rewrite (so_open _ Hok), Em; cbn [orb negb]; fold A0; now rewrite Ef|]. split.
  - rewrite Hlog in Hby. cbn [map] in Hby. apply Forall_app in Hby as [Hby _]. apply Forall_cons in Hby as [Hby _]. rewrite <- Hp, <- Hch, !Forall_app in Hby.
    apply Forall_app. split; [apply is_varint_bytes, put_is_varint; destruct (onumber m =? 0); lia|]. constructor; [unfold is_byte; lia|].
    apply Forall_app. split; [tauto|apply mem32_bytes].
  - rewrite length_app. cbn [length]. rewrite length_app. pose proof (put_short (numberOf m A0)). unfold kBigFrameSize, kMaxFrameOverhead in Hlen. cbn [mem32 length]. lia.
Qed.

(** * Sending requests, and acknowledgements *)

(** The same message but for the counters and the future for its response. *)
Record Same (m m' : MessageOut) : Prop := {
  sm_id : oid m' = oid m;
  sm_flags : oflags m' = oflags m;
  sm_number : onumber m' = onumber m;
  sm_payload : opayload m' = opayload m;
  sm_unsent : _unsentPayload m' = _unsentPayload m
}.

Lemma same_map {X} (f : MessageOut -> X) l l' :
  (forall m m', Same m m' -> f m' = f m) -> Forall2 Same l l' -> map f l' = map f l.
Proof. intros Hf. induction 1 as [|m m' l l' H _ IH]; [done|]. cbn [map]. now rewrite IH, (Hf _ _ H). Qed.

Lemma same_okMsg last pend l l' :
  Forall2 Same l l' -> Forall (okMsg last pend) l -> Forall (okMsg last pend) l'.
Proof.
  induction 1 as [|m m' l l' [H1 H2 H3 H4 H5] _ IH]; [done|]. intros [Hm Hl]%Forall_cons. constructor; [|now apply IH].
  unfold okMsg, rawOut. now rewrite H2, H3, H4, H5.
Qed.

Lemma newOnes_length l : length (newOnes l) = length (filter (fun n => n = 0) (map onumber l)).
Proof.
  unfold newOnes. induction l as [|m l IH]; [done|]. cbn [map]. rewrite !filter_cons.
  destruct (decide (onumber m = 0)); cbn [length]; now rewrite IH.
Qed.

Lemma idsOk_map (s : IO) : idsOk s <-> Forall (fun n => (n < nextId s)%nat) (map oid (boxes s)).
Proof. unfold idsOk. now rewrite Forall_map. Qed.

Lemma Inv_same A A' B h log got l :
  Inv A B h log got -> SOk A' -> boxes A' ≡ₚ l -> Forall2 Same (boxes A) l ->
  outputCodec A' = outputCodec A -> _lastMessageNo A' = _lastMessageNo A -> (nextId A <= nextId A')%nat ->
  Inv A' B h log got.
Proof.
  intros [Hok Hnd Hids Hmsgs Hnums Hlast Hnum Hpend Hout Hin Hro Hpe Hlog Hcnt] Hok' Hb Hs Ho Hl Hn.
  pose proof (same_map oid _ _ ltac:(now intros ? ? []) Hs) as Eid.
  pose proof (same_map onumber _ _ ltac:(now intros ? ? []) Hs) as Enu.
  pose proof (same_map opayload _ _ ltac:(now intros ? ? []) Hs) as Epa.
  constructor; rewrite ?Ho, ?Hl; try done.
  - now rewrite Hb, Eid.
  - apply idsOk_map. rewrite Hb, Eid. apply idsOk_map in Hids. eapply Forall_impl; [exact Hids|]. cbn. intros; lia.
  - rewrite Hb. now apply (same_okMsg _ _ (boxes A)).
  - rewrite (started_perm _ _ Hb). unfold started in *. now rewrite Enu.
  - now rewrite Hb, Epa.
  - rewrite (newOnes_perm _ _ Hb), newOnes_length, Enu, <- newOnes_length. done.
Qed.

(** ** Sending *)

Lemma Inv_send A A1 B h log got m :
  Inv A B h log got -> SOk A1 -> boxes A1 ≡ₚ m :: boxes A -> oid m = nextId A -> nextId A1 = S (nextId A) ->
  outputCodec A1 = outputCodec A -> _lastMessageNo A1 = _lastMessageNo A ->
  okMsg (_lastMessageNo A) (_pendingRequests B) m -> onumber m = 0 -> Inv A1 B h (log ++ [opayload m]) got.
Proof.
  intros [Hok Hnd Hids Hmsgs Hnums Hlast Hnum Hpend Hout Hin Hro Hpe Hlog Hcnt] Hok' Hb Hid Hn Ho Hl Hm H0.
  constructor; rewrite ?Ho, ?Hl; try done.
  - rewrite Hb. cbn [map]. constructor; [|done]. rewrite Hid. intros F%list_elem_of_In. apply in_map_iff in F as (x & E & Hx).
    apply list_elem_of_In in Hx. unfold idsOk in Hids. rewrite Forall_forall in Hids. apply Hids in Hx. lia.
  - unfold idsOk in *. rewrite Hn, Hb. constructor; [lia|]. eapply Forall_impl; [exact Hids|]. cbn. intros; lia.
  - rewrite Hb. now constructor.
  - rewrite (started_perm _ _ Hb), started_cons. destruct (decide _); [lia|done].
  - rewrite Hb, Hlog. cbn [map app]. symmetry. apply Permutation_cons_append.
  - rewrite (newOnes_perm _ _ Hb), newOnes_cons, H0, length_app. cbn [Z.eqb length]. lia.
Qed.

Lemma send_boxes m (s s1 : IO) :
  SOk s -> Forall (fun x => (oid x < oid m)%nat) (boxes s) -> s1 = set_nextId (S (nextId s)) s ->
  exists b s', send m s1 = Ret (b, s') /\ SOk s' /\ boxes s' ≡ₚ m :: boxes s /\ nextId s' = S (nextId s)
    /\ outputCodec s' = outputCodec s /\ _lastMessageNo s' = _lastMessageNo s.
Proof.
  intros [H1 H2 H3] Hids ->. destruct (send_spec m (set_nextId (S (nextId s)) s) Hids) as (b & s2 & E & _ & Hn & Ho & Hw & Hi & Hc & Hl & Hso).
  exists b, s2. split; [done|]. cbn [_outbox _wayOutBox _icebox set_nextId _sendOpen nextId outputCodec _lastMessageNo] in *.
  rewrite H1, H2, andb_true_r, andb_true_r in Ho. rewrite H3, andb_true_r in Hw.
  split_and!; try done; destruct (ourgent m || (length (items (_outbox s)) <? kOutboxCapacity)%nat); cbn [negb] in *;
    try (constructor; rewrite ?Hso, ?Ho, ?Hw; done); unfold boxes; rewrite Ho, Hw, Hi; cbn [items].
  - now rewrite insertAt_perm.
  - rewrite !app_assoc. symmetry. apply Permutation_cons_append.
Qed.

Lemma onResponse_spec id (s : IO) :
  exists fut s', onResponse id s = Ret (fut, s') /\ (SOk s -> SOk s') /\ Forall2 Same (boxes s) (boxes s')
    /\ outputCodec s' = outputCodec s /\ _lastMessageNo s' = _lastMessageNo s /\ nextId s' = S (nextId s).
Proof.
  unfold onResponse, freshId. unfold mbind, ST_bind, gets, modify, mret, ST_ret. eexists _, _. split; [reflexivity|].
  split_and!; [|unfold boxes; cbn [set_icebox set_wayOutBox set_outbox set_nextId _icebox _wayOutBox _outbox items]|done..].
  - intros [? ? ?]. now constructor.
  - rewrite <- !map_app. induction (items (_outbox s) ++ _icebox s ++ items (_wayOutBox s)) as [|m l IH]; [constructor|].
    cbn [map]. constructor; [|done]. unfold setOnResponse. destruct (_ =? _)%nat; now constructor.
Qed.

(** A client's request: flags, properties and a body given to a new builder. *)
Definition requestBuilder (urg nor : bool) (ps : list (bytes * bytes)) (body : bytes) : outcome MessageBuilder :=
  r ← (_ ← addProperties ps; write body) (mkBuilder urg false nor kRequestType [] [] false); Ret r.2.

(** Strings without NULs, and sizes that the builder and the message accept. *)
Definition okRequest (ps : list (bytes * bytes)) (body : bytes) : Prop :=
  okProps ps /\ Z.of_nat (length (encodeProps ps)) <= kMaxPropertiesSize
  /\ Z.of_nat (length (payloadOf (encodeProps ps) body)) <= UINT32_MAX.

Lemma encodeProps_wf ps : Z.of_nat (length (encodeProps ps)) <= kMaxPropertiesSize -> wfProps (encodeProps ps).
Proof.
  intros H. split; [done|]. destruct ps as [|p ps] using rev_ind; [now left|right].
  unfold encodeProps. rewrite map_app, concat_app. cbn [map concat]. rewrite app_nil_r.
  replace (p.1 ++ 0 :: p.2 ++ [0]) with ((p.1 ++ 0 :: p.2) ++ [0]) by now rewrite <- app_assoc.
  now rewrite app_assoc, last_last.
Qed.

Lemma requestBuilder_run urg nor ps body :
  okRequest ps body ->
  exists b, requestBuilder urg nor ps body = Ret b /\ finish b = Ret (payloadOf (encodeProps ps) body, b)
    /\ typeOf (flags b) = kRequestType /\ hasFlag (flags b) kCompressed = false /\ hasFlag (flags b) kMoreComing = false
    /\ 0 <= flags b < 64.
Proof.
  intros (Hps & Hsz & _). unfold requestBuilder, mbind, outcome_bind, ST_bind.
  rewrite addProperties_run by done. rewrite write_run by done.
  eexists. split; [reflexivity|]. split; [|now destruct urg, nor].
  unfold finish, finishProperties, when, mbind, ST_bind, gets, payloadOf.
  cbn [_wroteProperties set_wrote set_out set_properties negb _out _properties app]. now rewrite <- app_assoc.
Qed.

Lemma payload_nonempty props body : payloadOf props body <> [].
Proof. unfold payloadOf, put. cbn [kMaxSize putLoop]. now destruct (_ <=? _). Qed.

Lemma send_step urg nor ps body A B h log got :
  Inv A B h log got -> okRequest ps body ->
  exists b fut A', requestBuilder urg nor ps body = Ret b /\ sendRequest b A = Ret (fut, A')
    /\ Inv A' B h (log ++ [payloadOf (encodeProps ps) body]) got.
Proof.
  intros HI Hreq. pose proof Hreq as (_ & Hsz & Hu32).
  destruct (requestBuilder_run urg nor ps body Hreq) as (b & Eb & Ef & Ht & Hc & Hm & Hr). exists b.
  unfold sendRequest, newMessageOutOf, newMessageOut, freshId.
  unfold mbind, ST_bind, lift, assert, gets, modify, mret, ST_ret. rewrite Ef. cbn [fst snd].
  rewrite (proj2 (Z.leb_le _ _) Hu32). cbn [oid onumber opayload _unsentPayload oflags]. rewrite (proj2 (Z.eqb_eq _ _) Ht).
  match goal with |- context [send ?x ?y] => set (m := x); set (A0 := y) end.
  destruct (send_boxes m A A0 (i_ok _ _ _ _ _ HI) (i_ids _ _ _ _ _ HI) eq_refl) as (ok & A1 & E1 & Hok1 & Hb1 & Hn1 & Ho1 & Hl1).
  rewrite E1. destruct (onResponse_spec (oid m) A1) as (fut & A2 & E2 & Hok2 & Hs2 & Ho2 & Hl2 & Hn2).
  exists fut, A2. split; [done|]. split; [exact E2|].
  apply (Inv_same A1 A2 B h _ got (boxes A2)); try done; [|now apply Hok2|lia].
  apply (Inv_send A A1 B h log got m); try done.
  split_and!; [now split_and!|done|apply payload_nonempty|].
  exists (encodeProps ps), body, []. split_and!; try done; [now apply encodeProps_wf|now left].
Qed.

(** ** Acknowledging *)

Lemma ack_frame a r (B : IO) :
  Peer B -> items (_outbox B) = a :: r ->
  exists x B', 0 <= x < 2 ^ 64 /\ 0 < onumber a < 2 ^ 64
    /\ frameGenerator crc32 B = Ret (Frame (put (onumber a) ++ put (oflags a) ++ put x), B')
    /\ typeOf (oflags a) = kAckRequestType /\ 0 <= oflags a < 128
    /\ Peer B' /\ _inputCodec B' = _inputCodec B /\ _pendingRequests B' = _pendingRequests B
    /\ _numRequestsReceived B' = _numRequestsReceived B /\ _receiveOpen B' = _receiveOpen B.
Proof.
  intros [Hok Hids Hacks] E. pose proof Hacks as Ha. unfold boxes in Ha. rewrite E in Ha. apply Forall_cons in Ha as [(Hf & Hn & x & Hx & Hp) Ha].
  assert (0 <= oflags a < 128 /\ typeOf (oflags a) = kAckRequestType /\ isAck (oflags a) = true) as (F1 & F2 & F3) by now rewrite Hf.
  exists x. eexists. split; [done|]. split; [done|]. split; [|split; [done|]; split; [done|]].
  - unfold frameGenerator, get, mbind, ST_bind, modify, mret, ST_ret. rewrite (so_open _ Hok), E. cbn [orb negb].
    unfold createNextFrame, assignNumber. unfold mbind, ST_bind, gets, lift, modify, mret, ST_ret.
    rewrite (proj2 (Z.eqb_neq (onumber a) 0)) by lia. unfold nextFrameToSend. rewrite F3. cbn [oflags when negb]. rewrite F3. cbn [negb].
    rewrite Hp, take_ge; cycle 1.
    { pose proof (put_short (onumber a)). pose proof (put_short x). unfold kBigFrameSize, kDefaultFrameSize, kMaxFrameOverhead. destruct (_ || _); lia. }
    now rewrite (put_small (oflags a)) by done.
  - unfold idsOk, boxes in Hids. rewrite E in Hids. apply Forall_cons in Hids as [_ Hids]. destruct Hok.
    split; [|done]. constructor; [now constructor|exact Hids|exact Ha].
Qed.

Lemma matches_in msgNo resp l m : findMessage msgNo resp l = Some m -> m ∈ l /\ onumber m = msgNo /\ isResponse (oflags m) = resp.
Proof.
  intros E. apply find_some in E as [Hin E]. unfold matches in E. apply andb_true_iff in E as [E1 E2].
  rewrite list_elem_of_In, <- (Z.eqb_eq (onumber m)). now apply Bool.eqb_prop in E2.
Qed.

Lemma outReceivedAck_same n m : Same m (outReceivedAck n m).
Proof. unfold outReceivedAck. destruct (_ <=? _); now constructor. Qed.

Lemma updateOut_same m m' l :
  NoDup (map oid l) -> m ∈ l -> Same m m' -> Forall2 Same l (updateOut m' l).
Proof.
  intros Hnd Hm Hs. unfold updateOut.
  assert (Forall (fun x => oid x = oid m' -> x = m) l) as Hu.
  { apply Forall_forall. intros x Hx Ex. rewrite (sm_id _ _ Hs) in Ex.
    apply list_elem_of_lookup in Hx as [i Hi], Hm as [j Hj].
    assert (i = j) as <-; [|congruence].
    eapply NoDup_lookup; [exact Hnd|rewrite list_lookup_fmap, Hi; reflexivity|].
    change (map oid l) with (oid <$> l). rewrite list_lookup_fmap, Hj. cbn. now rewrite Ex. }
  clear Hnd Hm. induction Hu as [|x l Hx _ IH]; [constructor|]. cbn [map]. constructor; [|done].
  destruct (Nat.eqb_spec (oid x) (oid m')) as [Ex|Ex]; [now rewrite (Hx Ex)|now constructor].
Qed.

(** A frozen message is taken out of the icebox. *)
Lemma thaw_perm m' l :
  NoDup (map oid l) -> m' ∈ l -> l ≡ₚ m' :: List.filter (fun x => negb (oid x =? oid m')%nat) l.
Proof.
  intros Hnd Hm. induction l as [|x l IH]; [now apply elem_of_nil in Hm|]. cbn [map] in Hnd. apply NoDup_cons in Hnd as [Hni Hnd].
  cbn [List.filter]. apply elem_of_cons in Hm as [<-|Hm].
  - rewrite Nat.eqb_refl. cbn [negb]. f_equiv. clear IH Hnd. induction l as [|y l IH]; [done|]. cbn [map] in Hni.
    apply not_elem_of_cons in Hni as [Hy Hni]. cbn [List.filter]. rewrite (proj2 (Nat.eqb_neq (oid y) (oid m'))) by congruence. cbn [negb]. f_equiv. now apply IH.
  - destruct (Nat.eqb_spec (oid x) (oid m')) as [Ex|Ex]; cbn [negb].
    + exfalso. apply Hni. rewrite Ex. apply list_elem_of_In, in_map, list_elem_of_In, Hm.
    + rewrite (IH Hnd Hm) at 1. constructor.
Qed.

Lemma boxes_nodup (s : IO) :
  NoDup (map oid (boxes s)) ->
  NoDup (map oid (items (_outbox s))) /\ NoDup (map oid (_icebox s)).
Proof.
  unfold boxes. rewrite !map_app. intros (H1 & _ & H2)%NoDup_app. apply NoDup_app in H2 as (H2 & _). done.
Qed.

Lemma same_refl l : Forall2 Same l l.
Proof. induction l; constructor; [now constructor|done]. Qed.

Lemma thaw_spec m m' (s : IO) :
  SOk s -> NoDup (map oid (boxes s)) -> m ∈ _icebox s -> Same m m' ->
  exists s', thawMessage m' (set_icebox (updateOut m' (_icebox s)) s) = Ret (tt, s') /\ SOk s'
    /\ (boxes s' ≡ₚ items (_outbox s) ++ updateOut m' (_icebox s) ++ items (_wayOutBox s))
    /\ nextId s' = nextId s /\ outputCodec s' = outputCodec s /\ _lastMessageNo s' = _lastMessageNo s.
Proof.
  intros Hok Hnd Hm Hs. pose proof (proj2 (boxes_nodup s Hnd)) as Hni. pose proof (updateOut_same m m' _ Hni Hm Hs) as Hsame.
  pose proof (same_map oid _ _ ltac:(now intros ? ? []) Hsame) as Eid.
  assert (m' ∈ updateOut m' (_icebox s)) as Hm'.
  { unfold updateOut. apply list_elem_of_In, in_map_iff. exists m. split; [|now apply list_elem_of_In].
    now rewrite (sm_id _ _ Hs), Nat.eqb_refl. }
  assert (NoDup (map oid (updateOut m' (_icebox s)))) as Hnd' by now rewrite Eid.
  pose proof (thaw_perm m' _ Hnd' Hm') as Hperm. set (ice := List.filter _ _) in Hperm.
  unfold thawMessage, mbind, ST_bind, gets, assert, modify. cbn [_icebox set_icebox].
  assert (contains m' (updateOut m' (_icebox s)) = true) as ->.
  { apply existsb_exists. exists m'. split; [now apply list_elem_of_In|apply Nat.eqb_refl]. }
  fold ice. set (s1 := set_icebox ice _).
  assert (m' :: boxes s1 ≡ₚ items (_outbox s) ++ updateOut m' (_icebox s) ++ items (_wayOutBox s)) as Hb.
  { rewrite Hperm. unfold boxes, s1. cbn [set_icebox _outbox _icebox _wayOutBox items app]. apply Permutation_middle. }
  assert (SOk s1) as Hok1 by (destruct Hok; now constructor).
  destruct (requeue_spec m' s1 Hok1) as (s2 & E2 & Hok2 & Hb2 & Hn2 & Ho2 & Hl2).
  - apply (Permutation_map oid) in Hb. rewrite !map_app, Eid, <- !map_app in Hb. fold (boxes s) in Hb. rewrite <- Hb in Hnd.
    cbn [map] in Hnd. now apply NoDup_cons in Hnd.
  - exists s2. split; [exact E2|]. split; [done|]. split; [now rewrite Hb2|done].
Qed.

Lemma receivedAck_spec n x (s : IO) :
  SOk s -> NoDup (map oid (boxes s)) -> 0 <= x < 2 ^ 64 ->
  exists s' l, receivedAck n false (put x) s = Ret (tt, s') /\ SOk s' /\ boxes s' ≡ₚ l /\ Forall2 Same (boxes s) l
    /\ nextId s' = nextId s /\ outputCodec s' = outputCodec s /\ _lastMessageNo s' = _lastMessageNo s.
Proof.
  intros Hok Hnd Hx. destruct (boxes_nodup s Hnd) as [Hno Hni]. unfold receivedAck, mbind, ST_bind, gets, lift, modify, mret, ST_ret.
  pose proof (read_put x [] Hx) as Er. rewrite app_nil_r in Er. rewrite Er. cbn [fst].
  destruct (findMessage n false (items (_outbox s))) as [m|] eqn:Eo; [|destruct (findMessage n false (_icebox s)) as [m|] eqn:Ei].
  - apply matches_in in Eo as [Hm _]. eexists _, _. split; [reflexivity|]. split; [destruct Hok; now constructor|].
    split; [reflexivity|]. split; [|done]. unfold boxes. cbn [set_outbox _outbox _icebox _wayOutBox items].
    apply Forall2_app; [|apply same_refl]. apply (updateOut_same m); [done..|apply outReceivedAck_same].
  - apply matches_in in Ei as [Hm _]. set (m' := outReceivedAck (u32 x) m). pose proof (outReceivedAck_same (u32 x) m : Same m m') as Hs.
    assert (Forall2 Same (boxes s) (items (_outbox s) ++ updateOut m' (_icebox s) ++ items (_wayOutBox s))) as Hsame.
    { apply Forall2_app; [apply same_refl|]. apply Forall2_app; [now apply (updateOut_same m)|apply same_refl]. }
    destruct (needsAck m'); cbn [negb when].
    + eexists _, _. split; [reflexivity|]. split; [destruct Hok; now constructor|]. split; [reflexivity|]. now split.
    + destruct (thaw_spec m m' s Hok Hnd Hm Hs) as (s' & E & H). eexists s', _. rewrite E. split; [done|].
      destruct H as (H1 & H2 & H3). split; [done|]. split; [exact H2|]. now split.
  - exists s, (boxes s). split_and!; try done. apply same_refl.
Qed.

Lemma ack_step fuel A B h log got a r :
  Inv A B h log got -> items (_outbox B) = a :: r ->
  exists f A' B', frameGenerator crc32 B = Ret (Frame f, B') /\ receive crc32 fuel f A = Ret (None, A')
    /\ Inv A' B' h log got.
Proof.
  intros HI E. destruct (ack_frame a r B (i_bids _ _ _ _ _ HI) E) as (x & B' & Hx & Hn & Ef & Ht & Hfl & Hpe & F1 & F2 & F3 & F4).
  destruct (receivedAck_spec (onumber a) x A (i_ok _ _ _ _ _ HI) (i_nodup _ _ _ _ _ HI) Hx) as (A' & l & Ea & Hok & Hb & Hs & Hid & Ho & Hl).
  eexists _, A', B'. split; [exact Ef|]. split.
  - unfold receive, mbind, ST_bind, lift, gets, mret, ST_ret. rewrite !read_put by lia. rewrite (proj2 (Z.ltb_ge 0x80 _)) by lia. rewrite Ht.
    change (kAckRequestType =? kRequestType) with false. change (kAckRequestType =? kResponseType) with false.
    change (kAckRequestType =? kErrorType) with false. change (kAckRequestType =? kAckRequestType) with true.
    change (kAckRequestType =? kAckResponseType) with false. cbn [orb]. now rewrite Ea.
  - assert (Inv A B' h log got) as HI'.
    { destruct HI. constructor; rewrite ?F1, ?F2, ?F3, ?F4; done. }
    apply (Inv_same A A' B' h log got l); try done. lia.
Qed.

(** * A connection *)

(** What happens on it, in any order: the client sends a request; the sender's next
    frame goes to the receiver; the receiver's next frame goes to the sender. *)
Inductive act :=
  | ASend (urg nor : bool) (ps : list (bytes * bytes)) (body : bytes)
  | AFrame
  | AAck.

Definition step (fuel : nat) (a : act) (st : IO * IO * list MessageIn) : outcome (IO * IO * list MessageIn) :=
  let '(A, B, got) := st in
  match a with
  | ASend urg nor ps body =>
      b ← requestBuilder urg nor ps body;
      r ← sendRequest b A;
      Ret (r.2, B, got)
  | AFrame =>
      r ← frameGenerator crc32 A;
      match r.1 with
      | Frame f => x ← receive crc32 fuel f B; Ret (r.2, x.2, got ++ match x.1 with Some mi => [mi] | None => [] end)
      | _ => Ret (r.2, B, got)
      end
  | AAck =>
      r ← frameGenerator crc32 B;
      match r.1 with
      | Frame f => x ← receive crc32 fuel f A; Ret (x.2, r.2, got)
      | _ => Ret (A, r.2, got)
      end
  end.

Fixpoint runActs (fuel : nat) (l : list act) (st : IO * IO * list MessageIn) : outcome (IO * IO * list MessageIn) :=
  match l with
  | [] => Ret st
  | a :: r => st' ← step fuel a st; runActs fuel r st'
  end.

Definition sentBy (a : act) : list bytes :=
  match a with ASend _ _ ps body => [payloadOf (encodeProps ps) body] | _ => [] end.

Definition legal (a : act) : Prop := match a with ASend _ _ ps body => okRequest ps body | _ => True end.

Lemma frameGenerator_idle (s : IO) : SOk s -> items (_outbox s) = [] -> frameGenerator crc32 s = Ret (Waiting, s).
Proof.
  intros [H1 H2 _] E. unfold frameGenerator, get, mbind, ST_bind, mret, ST_ret. rewrite H1, E, H2. done.
Qed.

Lemma conn_step fuel a A B h log got :
  Inv A B h log (map contentOf got) -> legal a -> Z.of_nat (length log) + 1 < 2 ^ 64 ->
  exists A' B' got' h', step fuel a (A, B, got) = Ret (A', B', got') /\ Inv A' B' h' (log ++ sentBy a) (map contentOf got').
Proof.
  intros HI Hl Hb. destruct a as [urg nor ps body| |]; cbn [step sentBy].
  - destruct (send_step urg nor ps body A B h log _ HI Hl) as (b & fut & A' & E1 & E2 & HI').
    exists A', B, got, h. rewrite E1. unfold mbind, outcome_bind. now rewrite E2.
  - rewrite app_nil_r. destruct (items (_outbox A)) as [|m r] eqn:E.
    + rewrite frameGenerator_idle by (done || apply HI). now exists A, B, got, h.
    + destruct (frame_step fuel A B h log _ m r HI E Hb) as (f & A' & B' & res & h' & E1 & E2 & HI').
      exists A', B', (got ++ match res with Some mi => [mi] | None => [] end), h'.
      rewrite E1. unfold mbind, outcome_bind. cbn [fst snd]. rewrite E2. split; [done|].
      rewrite map_app. now destruct res.
  - rewrite app_nil_r. destruct (items (_outbox B)) as [|m r] eqn:E.
    + rewrite frameGenerator_idle by (done || apply HI). now exists A, B, got, h.
    + destruct (ack_step fuel A B h log _ m r HI E) as (f & A' & B' & E1 & E2 & HI').
      exists A', B', got, h. rewrite E1. unfold mbind, outcome_bind. cbn [fst snd]. now rewrite E2.
Qed.

Lemma runActs_inv fuel l A B h log got :
  Inv A B h log (map contentOf got) -> Forall legal l -> Z.of_nat (length log) + Z.of_nat (length l) < 2 ^ 64 ->
  exists A' B' got' h', runActs fuel l (A, B, got) = Ret (A', B', got')
    /\ Inv A' B' h' (log ++ concat (map sentBy l)) (map contentOf got').
Proof.
  intros HI Hl. revert A B h log got HI. induction Hl as [|a l Ha _ IH]; intros A B h log got HI Hb.
  - exists A, B, got, h. cbn [map concat]. now rewrite app_nil_r.
  - cbn [length] in Hb. destruct (conn_step fuel a A B h log got HI Ha) as (A1 & B1 & got1 & h1 & E1 & HI1); [lia|].
    cbn [runActs]. rewrite E1. unfold mbind, outcome_bind. cbn [map concat]. rewrite app_assoc.
    apply (IH A1 B1 h1 _ got1 HI1). rewrite length_app. destruct a; cbn [sentBy length]; lia.
Qed.

Lemma Inv_start ci co ci' co' : quiet co -> Inv (newIO crc32 ci co) (newIO crc32 ci' co') [] [] [].
Proof.
  constructor; try done; try constructor; try done; try constructor.
Qed.

(** C33: uncompressed requests sent by one side of a connection of two [BLIPIO]s arrive whole, once each and
    unchanged: however the sending of requests and the frames of both directions (the
    receiver's are its acknowledgements) are interleaved, nothing fails, and the
    requests sent are, up to order, those delivered (as their properties and body)
    and those still in the sender's queues.  Whatever codec the two were built with; the sender's starts with
    nothing held back. *)
Theorem blip_transport_lossless fuel ci co ci' co' l :
  quiet co -> Forall legal l -> Z.of_nat (length l) < 2 ^ 64 ->
  exists A B got, runActs fuel l (newIO crc32 ci co, newIO crc32 ci' co', []) = Ret (A, B, got)
    /\ concat (map sentBy l) ≡ₚ map opayload (boxes A) ++ map contentOf got.
Proof.
  intros Hq Hl Hb. destruct (runActs_inv fuel l _ _ [] [] [] (Inv_start ci co ci' co' Hq) Hl ltac:(cbn; lia)) as (A & B & got & h & E & HI).
  exists A, B, got. split; [exact E|]. apply HI.
Qed.
End transport.

(** A checksum that can be computed piece by piece. *)
Definition sumCrc (x : Z) (a : bytes) : Z := fold_left (fun c b => (c * 31 + b) mod 2 ^ 32) a (x mod 2 ^ 32).

Lemma sumCrc_range x a : 0 <= sumCrc x a < 2 ^ 32.
Proof.
  unfold sumCrc. assert (0 <= x mod 2 ^ 32 < 2 ^ 32) as H by (apply Z.mod_pos_bound; lia). revert H. generalize (x mod 2 ^ 32) as c.
  induction a as [|b a IH]; intros c H; cbn [fold_left]; [done|]. apply IH. apply Z.mod_pos_bound. lia.
Qed.

Lemma sumCrc_app x a b : sumCrc (sumCrc x a) b = sumCrc x (a ++ b).
Proof. unfold sumCrc at 1 3. rewrite fold_left_app. f_equal. apply Z.mod_small, sumCrc_range. Qed.

(** Two requests, one of them urgent and sent while the other is under way. *)
Definition sampleActs : list act :=
  [ASend false false [(lit "Profile", lit "echo")] (lit "hello"); ASend true true [] (lit "now"); AFrame; AAck; AFrame; AFrame].

Abbreviation sampleRun := (runActs (FI := null_codec) (FO := null_codec) sumCrc 0 sampleActs (newIO sumCrc tt tt, newIO sumCrc tt tt, [])).

Definition sizesOf (r : outcome (BLIPIO unit unit * BLIPIO unit unit * list MessageIn)) : option (nat * nat) :=
  match r with Ret (A, _, got) => Some (length got, length (boxes A)) | _ => None end.

Lemma sample_legal : Forall legal sampleActs.
Proof. repeat constructor; try (now unfold nulFree; vm_compute; intuition congruence); vm_compute; congruence. Qed.

Lemma sample_sizes : sizesOf sampleRun = Some (2%nat, 0%nat).
Proof. vm_compute. reflexivity. Qed.

Lemma sample_result A B got : sampleRun = Ret (A, B, got) -> length got = 2%nat /\ length (boxes A) = 0%nat.
Proof.
  generalize sample_sizes. generalize sampleRun. intros r H E. subst r. injection H as H1 H2. exact (conj H1 H2).
Qed.

Lemma blip_transport_lossless_witness :
  exists A B got, sampleRun = Ret (A, B, got)
    /\ concat (map sentBy sampleActs) ≡ₚ map opayload (boxes A) ++ map contentOf got /\ length got = 2%nat /\ length (boxes A) = 0%nat.
Proof.
  destruct (blip_transport_lossless (FI := null_codec) (FO := null_codec) sumCrc sumCrc_app sumCrc_range
    0 tt tt tt tt sampleActs (fun _ => eq_refl) sample_legal eq_refl) as (A & B & got & E & Hp).
  exists A, B, got. exact (conj E (conj Hp (sample_result A B got E))).
Defined.
