(* ===== verification/BlipConnection.v ===== *)
(** BLIP connections: [Dispatcher] ([src/io/blip/Dispatcher.cc]) finds the handler of a request, and
    [Connection] ([src/io/blip/Connection.cc]) moves frames between a [BLIPIO] ([BlipIO.v]) and a WebSocket
    with two tasks.

    The WebSocket is a parameter: what sending a message to it does.  So is the state the handlers keep. *)

From S2P Require Import Prelude Varint Errors BlipMessage BlipCodec BlipIO BlipTransport WsProtocol WebSocket.

Local Open Scope Z_scope.

Section connection.
Context (crc32 : Z -> bytes -> Z) {CI CO : Type} {FI : Flate CI} {FO : Flate CO} {H : Type}.

Abbreviation IO := (BLIPIO CI CO).

(** A [BLIPIO] and what the application keeps. *)
Record Conn := mkConn {
  _io : IO;
  appState : H
}.

Definition onIO {A} (m : ST IO A) : ST Conn A := zoom _io (fun i c => mkConn i (appState c)) m.

(** * Dispatcher *)

Definition RequestHandler : Type := MessageIn -> ST Conn unit.

Record Dispatcher := mkDispatcher {
  _handlers : gmap bytes RequestHandler;
  _errorHandler : option (error -> MsgError)
}.

(** The constructor: of two items with the same profile an [unordered_map] keeps the first. *)
Definition newDispatcher (handlers : list (bytes * RequestHandler)) : Dispatcher :=
  mkDispatcher (fold_left (fun m p => if bool_decide (is_Some (m !! p.1)) then m else <[p.1 := p.2]> m) handlers ∅) None.

Definition setErrorHandler (h : error -> MsgError) (d : Dispatcher) : Dispatcher := mkDispatcher (_handlers d) (Some h).

Definition setRequestHandler (profile : bytes) (h : RequestHandler) (d : Dispatcher) : Dispatcher :=
  mkDispatcher (<[profile := h]> (_handlers d)) (_errorHandler d).

Definition addRequestHandlers (handlers : list (bytes * RequestHandler)) (d : Dispatcher) : Dispatcher :=
  fold_left (fun d p => setRequestHandler p.1 p.2 d) handlers d.

Definition mapError (err : error) (d : Dispatcher) : MsgError :=
  match err with
  | EBlipApp code => mkMsgError (lit "BLIP") code []
  | _ =>
      match _errorHandler d with
      | Some f => f err
      | None => mkMsgError (lit "BLIP") 500 (lit "Internal error handling message")
      end
  end.

Definition findHandler (profile : bytes) (d : Dispatcher) : option RequestHandler :=
  match _handlers d !! profile with
  | Some h => Some h
  | None => _handlers d !! lit "*"
  end.

(** The handler is given the message itself: what is left after an exception is a null pointer, through which
    the message is logged and the error sent. *)
Definition callHandler (handler : RequestHandler) (msg : MessageIn) : ST Conn unit := fun c =>
  match handler msg c with
  | Raise _ => Fault OutOfBounds
  | r => r
  end.

Definition dispatchRequest (d : Dispatcher) (msg : MessageIn) : ST Conn unit :=
  profile ← lift (property (i_properties msg) (lit "Profile"));
  match findHandler profile d with
  | None => _ ← onIO (notHandled msg); mret tt
  | Some handler => callHandler handler msg
  end.

(** * Connection *)

Context {SK : Type} (socketSend : Message -> ST SK unit).

(** What one round of [outputTask] did: sent a frame, found that the send side has closed, or waits. *)
Inductive round := Went | Broke | Waits.

Definition outputRound (c : Conn) (k : SK) : outcome (round * Conn * SK) :=
  '(r, c) ← onIO (frameGenerator crc32) c;
  match r with
  | Frame f => '(_, k) ← socketSend (mkMessage Binary f) k; Ret (Went, c, k)
  | Ended => Ret (Broke, c, k)
  | Waiting => Ret (Waits, c, k)
  end.

(** [outputTask] until it waits or ends; [co_yield] tells it to go on unless it was interrupted. *)
Fixpoint outputTask (fuel : nat) (interrupted : bool) (c : Conn) (k : SK) : outcome (round * Conn * SK) :=
  match fuel with
  | O => Fault NoFuel
  | S f =>
      '(r, c, k) ← outputRound c k;
      match r with
      | Went => if interrupted then Ret (Broke, c, k) else outputTask f interrupted c k
      | r => Ret (r, c, k)
      end
  end.

(** A round of [inputTask]: whether it goes on. *)
Definition inputRound (d : Dispatcher) (fuel : nat) (frame : Result Message) : ST Conn bool :=
  match frame with
  | RValue m =>
      if type m =? Close then mret false
      else
        msg ← onIO (receive crc32 fuel (text m));
        _ ← match msg with Some msg => dispatchRequest d msg | None => mret tt end;
        mret true
  | RError _ => mret false
  end.

(** [inputTask] on what the WebSocket delivers; true when it has come to its end. *)
Fixpoint inputTask (d : Dispatcher) (fuel : nat) (interrupted : bool) (frames : list (Result Message)) : ST Conn bool :=
  match frames with
  | [] => mret false
  | frame :: rest =>
      go ← inputRound d fuel frame;
      if go && negb interrupted then inputTask d fuel interrupted rest
      else _ ← onIO closeReceive; mret true
  end.

Definition sendRequest (b : MessageBuilder) : ST Conn nat := onIO (BlipIO.sendRequest b).

(** [close], up to the point where it awaits [outputTask]; and from where that has ended. *)
Definition closeBegin (immediate : bool) : ST Conn unit := onIO (if immediate then stop else closeSend).

Definition closeSocket (code : Z) (message : bytes) : ST SK unit :=
  m ← lift (closeMessageOf code message);
  socketSend m.
End connection.
Arguments Conn : clear implicits.
Arguments Dispatcher : clear implicits.
Arguments RequestHandler : clear implicits.

(** * Lemmas *)

Lemma cstr_length s : (length (cstr s) <= length s)%nat.
Proof. induction s as [|c s IH]; cbn; [lia|]. case_match; cbn; lia. Qed.

(** Reading a property always ends. *)
Lemma property_total props name : exists v, property props name = Ret v.
Proof.
  unfold property. assert (forall fuel rest, (length rest <= fuel)%nat -> exists v, propertyLoop fuel name rest = Ret v) as Hl; [|now apply Hl].
  induction fuel as [|f IH]; intros [|c rest] Hf; cbn in Hf; [cbn; eauto|lia|cbn; eauto|]. cbn [propertyLoop].
  destruct (drop _ _) as [|v0 val] eqn:Ed; [eauto|]. case_bool_decide; [eauto|]. apply IH.
  assert (length (v0 :: val) <= f)%nat as Hv by (rewrite <- Ed, length_drop; cbn [length]; lia). rewrite length_drop. lia.
Qed.

(** The profile of a message, and the key of the handler it goes to. *)
Definition profileOf (m : MessageIn) : bytes := match property (i_properties m) (lit "Profile") with Ret p => p | _ => [] end.

Section routes.
Context {CI CO : Type} {FI : Flate CI} {FO : Flate CO} {H : Type}.

Definition routeOf (d : Dispatcher CI CO H) (m : MessageIn) : bytes :=
  match _handlers d !! profileOf m with Some _ => profileOf m | None => lit "*" end.

Lemma dispatch_found (d : Dispatcher CI CO H) m h c :
  _handlers d !! routeOf d m = Some h -> dispatchRequest d m c = callHandler h m c.
Proof.
  unfold routeOf, profileOf, dispatchRequest, lift, mbind, ST_bind. destruct (property_total (i_properties m) (lit "Profile")) as [p ->].
  unfold findHandler. destruct (_handlers d !! p) as [h0|] eqn:E; [rewrite E; now intros [= ->]|]. now intros ->.
Qed.

Lemma dispatch_none (d : Dispatcher CI CO H) m c :
  _handlers d !! routeOf d m = None -> dispatchRequest d m c = (_ ← onIO (notHandled m); mret tt) c.
Proof.
  unfold routeOf, profileOf, dispatchRequest, lift. unfold mbind at 1, ST_bind at 1. destruct (property_total (i_properties m) (lit "Profile")) as [p ->].
  unfold findHandler. destruct (_handlers d !! p) as [h0|] eqn:E; [rewrite E; done|]. now intros ->.
Qed.

(** When a handler throws, the connection crashes instead of sending the error. *)
Theorem dispatch_exception_crashes (d : Dispatcher CI CO H) m h c x :
  _handlers d !! routeOf d m = Some h -> h m c = Raise x -> dispatchRequest d m c = Fault OutOfBounds.
Proof. intros Hh Hx. rewrite (dispatch_found d m h c Hh). unfold callHandler. now rewrite Hx. Qed.
End routes.

(** ** The end of the input *)

Section ending.
Context (crc32 : Z -> bytes -> Z) {CI CO : Type} {FI : Flate CI} {FO : Flate CO} {H : Type}.

Definition futureOf (m : MessageIn) : list (nat * option MessageIn) := match i_onResponse m with Some f => [(f, None)] | None => [] end.

Lemma disconnect_all l : forall s : BLIPIO CI CO,
  forEach inDisconnected l s = Ret (tt, set_resolved (resolved s ++ concat (map futureOf l)) s).
Proof.
  induction l as [|m l IH]; intros s; cbn [forEach map concat]; [rewrite app_nil_r; destruct s; reflexivity|].
  assert (inDisconnected m s = Ret (tt, set_resolved (resolved s ++ futureOf m) s)) as E.
  { unfold inDisconnected, futureOf. destruct (i_onResponse m); [reflexivity|]. rewrite app_nil_r. now destruct s. }
  unfold mbind, ST_bind. rewrite E, IH. cbn [resolved set_resolved]. now rewrite <- app_assoc.
Qed.

(** When the peer's CLOSE comes, or the WebSocket ends, every coroutine that waits for a response to a request gets
    none, and nothing more is received. *)
Theorem input_end_resolves (d : Dispatcher CI CO H) fuel i rest frame c :
  match frame with RValue m => type m = Close | RError _ => True end -> _receiveOpen (_io c) = true ->
  exists c', inputTask crc32 d fuel i (frame :: rest) c = Ret (true, c') /\ _receiveOpen (_io c') = false
    /\ _pendingRequests (_io c') = ∅ /\ _pendingResponses (_io c') = ∅ /\ appState c' = appState c
    /\ forall n m f, _pendingResponses (_io c) !! n = Some m -> i_onResponse m = Some f -> (f, None) ∈ resolved (_io c').
Proof.
  intros Hf Ho. cbn [inputTask]. assert (inputRound crc32 d fuel frame c = Ret (false, c)) as E.
  { destruct frame as [m|]; [|done]. unfold inputRound. now rewrite Hf. }
  unfold mbind at 1, ST_bind at 1. rewrite E. cbn [andb]. unfold onIO, zoom, closeReceive, _closeRead, when, get, gets, modify, mbind, ST_bind. rewrite Ho.
  rewrite disconnect_all. rewrite disconnect_all. eexists. split; [reflexivity|]. cbn. split_and!; try done.
  intros n m f Hm Hr. apply elem_of_app. right. apply list_elem_of_In, in_concat. exists [(f, None)]. split; [|now left].
  apply in_map_iff. exists m. split; [unfold futureOf; now rewrite Hr|]. apply in_map_iff. exists (n, m). split; [done|]. now apply list_elem_of_In, elem_of_map_to_list.
Qed.
End ending.

(** * Two connections

    The WebSocket between them delivers what was sent on it ([WebSocket.v]). *)

Section pair.
Context (crc32 : Z -> bytes -> Z).
Context (crc_app : forall x a b, crc32 (crc32 x a) b = crc32 x (a ++ b)).
Context (crc_range : forall x a, 0 <= crc32 x a < 2 ^ 32).
Context {CI CO : Type} {FI : Flate CI} {FO : Flate CO}.
Context {HA HB : Type} (dA : Dispatcher CI CO HA) (dB : Dispatcher CI CO HB).

Abbreviation IO := (BLIPIO CI CO).

Definition wire (m : Message) : ST (list Message) unit := modify (fun k => k ++ [m]).

(** The messages on the wire come to the other side. *)
Fixpoint arriving {H} (d : Dispatcher CI CO H) (fuel : nat) (ms : list Message) (c : Conn CI CO H) : outcome (Conn CI CO H) :=
  match ms with
  | [] => Ret c
  | m :: r => '(_, c) ← inputRound crc32 d fuel (RValue m) c; arriving d fuel r c
  end.

(** A request is sent; a round of either side's [outputTask], and of the other's [inputTask]. *)
Definition connStep (fuel : nat) (a : act) (s : Conn CI CO HA * Conn CI CO HB) : outcome (Conn CI CO HA * Conn CI CO HB) :=
  let '(A, B) := s in
  match a with
  | ASend urg nor ps body =>
      b ← requestBuilder urg nor ps body;
      '(_, A) ← sendRequest b A;
      Ret (A, B)
  | AFrame =>
      '(_, A, k) ← outputRound crc32 wire A [];
      B ← arriving dB fuel k B;
      Ret (A, B)
  | AAck =>
      '(_, B, k) ← outputRound crc32 wire B [];
      A ← arriving dA fuel k A;
      Ret (A, B)
  end.

Fixpoint runConn (fuel : nat) (l : list act) (s : Conn CI CO HA * Conn CI CO HB) : outcome (Conn CI CO HA * Conn CI CO HB) :=
  match l with
  | [] => Ret s
  | a :: r => s ← connStep fuel a s; runConn fuel r s
  end.

(** What the handlers of [dB] do: they keep to the application's state, and there is one for
    whatever has none of its own. *)
Context (handle : bytes -> MessageIn -> HB -> HB).
Context (handlers_ok : forall p h, _handlers dB !! p = Some h -> forall m c, h m c = Ret (tt, mkConn (_io c) (handle p m (appState c)))).
Context (has_default : is_Some (_handlers dB !! lit "*")).

Definition handled (got : list MessageIn) (h0 : HB) : HB := fold_left (fun h m => handle (routeOf dB m) m h) got h0.

Lemma route_some m : exists h, _handlers dB !! routeOf dB m = Some h.
Proof. unfold routeOf. destruct (_handlers dB !! profileOf m) eqn:E; [eauto|exact has_default]. Qed.

Lemma dispatch_handles m c : dispatchRequest dB m c = Ret (tt, mkConn (_io c) (handle (routeOf dB m) m (appState c))).
Proof. destruct (route_some m) as [h Hh]. rewrite (dispatch_found dB m h c Hh). unfold callHandler. now rewrite (handlers_ok _ _ Hh). Qed.

Lemma output_frame {H} (c : Conn CI CO H) f i k :
  frameGenerator crc32 (_io c) = Ret (Frame f, i) -> outputRound crc32 wire c k = Ret (Went, mkConn i (appState c), k ++ [mkMessage Binary f]).
Proof. intros E. unfold outputRound, onIO, zoom. rewrite E. reflexivity. Qed.

Lemma output_idle {H} (c : Conn CI CO H) k :
  frameGenerator crc32 (_io c) = Ret (Waiting, _io c) -> outputRound crc32 wire c k = Ret (Waits, c, k).
Proof. intros E. unfold outputRound, onIO, zoom. rewrite E. destruct c. reflexivity. Qed.

Lemma inputRound_run {H} (d : Dispatcher CI CO H) fuel f res i c :
  receive crc32 fuel f (_io c) = Ret (res, i) ->
  inputRound crc32 d fuel (RValue (mkMessage Binary f)) c
  = ((_ ← match res with Some msg => dispatchRequest d msg | None => mret tt end; mret true) : ST _ _) (mkConn i (appState c)).
Proof. intros E. unfold inputRound. change (type (mkMessage Binary f) =? Close) with false. unfold onIO, zoom, mbind, ST_bind. cbn [text]. now rewrite E. Qed.

Lemma connStep_ok fuel a (A : Conn CI CO HA) (B : Conn CI CO HB) h log got :
  Inv crc32 (_io A) (_io B) h log (map contentOf got) -> legal a -> Z.of_nat (length log) + 1 < 2 ^ 64 ->
  exists A' B' got' h', connStep fuel a (A, B) = Ret (A', B') /\ appState B' = handled got' (appState B)
    /\ Inv crc32 (_io A') (_io B') h' (log ++ sentBy a) (map contentOf (got ++ got')).
Proof.
  intros HI Hl Hb. destruct a as [urg nor ps body| |]; cbn [connStep sentBy].
  - destruct (send_step crc32 urg nor ps body (_io A) (_io B) h log _ HI Hl) as (b & fut & A' & E1 & E2 & HI').
    exists (mkConn A' (appState A)), B, [], h. rewrite E1. mred. unfold sendRequest, onIO, zoom. rewrite E2, app_nil_r. done.
  - rewrite app_nil_r. destruct (items (_outbox (_io A))) as [|m r] eqn:E.
    + rewrite output_idle by (apply frameGenerator_idle; [apply HI|done]). exists A, B, [], h. rewrite app_nil_r. done.
    + destruct (frame_step crc32 crc_app crc_range fuel (_io A) (_io B) h log _ m r HI E Hb) as (f & A' & B' & res & h' & E1 & E2 & HI').
      rewrite (output_frame A f A' [] E1). mred. cbn [List.app arriving]. rewrite (inputRound_run _ _ _ _ _ _ E2). destruct res as [mi|].
      * unfold mbind at 3, ST_bind. rewrite dispatch_handles. cbn [_io appState].
        exists (mkConn A' (appState A)), (mkConn B' (handle (routeOf dB mi) mi (appState B))), [mi], h'. rewrite map_app. done.
      * exists (mkConn A' (appState A)), (mkConn B' (appState B)), [], h'. rewrite !app_nil_r in *. done.
  - rewrite app_nil_r. destruct (items (_outbox (_io B))) as [|m r] eqn:E.
    + rewrite output_idle by (apply frameGenerator_idle; [apply HI|done]). exists A, B, [], h. rewrite app_nil_r. done.
    + destruct (ack_step crc32 fuel (_io A) (_io B) h log _ m r HI E) as (f & A' & B' & E1 & E2 & HI').
      rewrite (output_frame B f B' [] E1). mred. cbn [List.app arriving]. rewrite (inputRound_run _ _ _ _ _ _ E2).
      exists (mkConn A' (appState A)), (mkConn B' (appState B)), [], h. rewrite app_nil_r. done.
Qed.

Lemma handled_app got got' h0 : handled (got ++ got') h0 = handled got' (handled got h0).
Proof. unfold handled. apply fold_left_app. Qed.

Lemma runConn_ok fuel l : forall A B h log got h0,
  Inv crc32 (_io A) (_io B) h log (map contentOf got) -> appState B = handled got h0 -> Forall legal l -> Z.of_nat (length log) + Z.of_nat (length l) < 2 ^ 64 ->
  exists A' B' got' h', runConn fuel l (A, B) = Ret (A', B') /\ appState B' = handled got' h0
    /\ Inv crc32 (_io A') (_io B') h' (log ++ concat (map sentBy l)) (map contentOf got').
Proof.
  induction l as [|a l IH]; intros A B h log got h0 HI Hh Hl Hb.
  - exists A, B, got, h. cbn. rewrite app_nil_r. done.
  - apply Forall_cons in Hl as [Ha Hl]. cbn [length] in Hb.
    destruct (connStep_ok fuel a A B h log got HI Ha) as (A1 & B1 & got1 & h1 & E & Hh1 & HI1); [lia|].
    destruct (IH A1 B1 h1 (log ++ sentBy a) (got ++ got1) h0 HI1) as (A' & B' & got' & h' & E' & Hh' & HI'); [|done| |].
    + rewrite handled_app, <- Hh. exact Hh1.
    + rewrite length_app. destruct a; cbn [sentBy length]; lia.
    + exists A', B', got', h'. cbn [runConn map concat]. rewrite E. mred. rewrite app_assoc. done.
Qed.

(** C34: uncompressed requests sent on one connection come to the handlers of the other.  The handlers are functions of the
    message and the application's state that return, without throwing, responding or using the connection,
    and there is one for any profile ("*").  Then, however requests and the rounds of
    the two output and input tasks interleave, nothing fails; the requests sent are, up to order, those
    still in the sender's queues and those handled, which are whole and unchanged; and each of these
    was given, once and in the order they were completed, to the handler of its profile, or to
    the one for any profile.  (A handler that throws ends the process: [dispatch_exception_crashes].) *)
Theorem connection_dispatches fuel ci co ci' co' hA hB l :
  quiet co -> Forall legal l -> Z.of_nat (length l) < 2 ^ 64 ->
  exists A B got, runConn fuel l (mkConn (newIO crc32 ci co) hA, mkConn (newIO crc32 ci' co') hB) = Ret (A, B)
    /\ appState B = handled got hB
    /\ concat (map sentBy l) ≡ₚ map opayload (boxes (_io A)) ++ map contentOf got.
Proof.
  intros Hq Hl Hb.
  destruct (runConn_ok fuel l (mkConn (newIO crc32 ci co) hA) (mkConn (newIO crc32 ci' co') hB) [] [] [] hB) as (A & B & got & h & E & Hh & HI);
    [now apply Inv_start|done|done|cbn; lia|].
  exists A, B, got. split; [exact E|]. split; [exact Hh|]. apply HI.
Qed.
End pair.

(** A connection whose handlers write down the profile they were registered for and the body. *)
Definition noteHandler (p : bytes) : RequestHandler unit unit (list (bytes * bytes)) :=
  fun m c => Ret (tt, mkConn (_io c) (appState c ++ [(p, _body m)])).

Definition noteDispatcher : Dispatcher unit unit (list (bytes * bytes)) :=
  setRequestHandler (lit "*") (noteHandler (lit "*")) (newDispatcher [(lit "echo", noteHandler (lit "echo"))]).

Lemma noteDispatcher_ok p h :
  _handlers noteDispatcher !! p = Some h -> forall m c, h m c = Ret (tt, mkConn (_io c) (appState c ++ [(p, _body m)])).
Proof.
  unfold noteDispatcher, newDispatcher, setRequestHandler. cbn [_handlers fold_left fst snd]. rewrite bool_decide_eq_false_2 by (intros [? ?]; done).
  intros [[<- <-]|[_ [[<- <-]|[_ E]]%lookup_insert_Some]]%lookup_insert_Some; done.
Qed.

Abbreviation noteStart := (mkConn (newIO sumCrc tt tt) tt : Conn unit unit unit, mkConn (newIO sumCrc tt tt) [] : Conn unit unit (list (bytes * bytes))).

Lemma connection_dispatches_witness :
  exists A B got, runConn (FI := null_codec) (FO := null_codec) sumCrc (newDispatcher []) noteDispatcher 0 sampleActs noteStart = Ret (A, B)
    /\ appState B = handled noteDispatcher (fun p m h => h ++ [(p, _body m)]) got []
    /\ concat (map sentBy sampleActs) ≡ₚ map opayload (boxes (_io A)) ++ map contentOf got.
Proof.
  apply (connection_dispatches (FI := null_codec) (FO := null_codec) sumCrc sumCrc_app sumCrc_range
    (newDispatcher []) noteDispatcher (fun p m h => h ++ [(p, _body m)]) noteDispatcher_ok (ex_intro _ _ eq_refl) 0 tt tt tt tt tt [] sampleActs (fun _ => eq_refl) sample_legal eq_refl).
Defined.
