(* ===== verification/BlipStack.v ===== *)
(** BLIP over WebSocket over a stream: the connection of [BlipConnection.v] on the WebSocket of [WebSocket.v], on any two streams.

    One side sends requests and its output task sends frames, as binary messages, to its WebSocket; the other side's stream delivers the
    bytes; its WebSocket yields messages, which its input task takes and dispatches.  (No acknowledgements here: a request that waits for one
    stays in the sender's queues.) *)

From S2P Require Import Prelude Varint Errors IStream BlipMessage BlipCodec BlipIO BlipTransport WsProtocol WebSocket BlipConnection.

Local Open Scope Z_scope.

(** * The parts together *)

(** The connection's call of [WebSocket::send]; its error is thrown. *)
Definition wsSend {S} {IS : IStream S} (isServer : bool) (masks : nat -> bytes) (addrs : nat -> nat) (m : Message) : ST (WebSocket S) unit := fun ws =>
  match send isServer masks addrs (text m) (type m) ws with
  | Ret (None, ws) => Ret (tt, ws)
  | Ret (Some e, ws) => Raise e
  | Raise e => Raise e
  | Fault f => Fault f
  end.

(** Messages sent one after the other. *)
Fixpoint sendAll {SK} (socketSend : Message -> ST SK unit) (ms : list Message) (k : SK) : outcome SK :=
  match ms with
  | [] => Ret k
  | m :: r => '(_, k) ← socketSend m k; sendAll socketSend r k
  end.

Section stack.
Context (crc32 : Z -> bytes -> Z).
Context {CI CO : Type} {FI : Flate CI} {FO : Flate CO} {HA : Type}.

(** At most [n] rounds of the output task, up to where it waits or ends. *)
Fixpoint outputRounds {SK} (socketSend : Message -> ST SK unit) (n : nat) (c : Conn CI CO HA) (k : SK) : outcome (Conn CI CO HA * SK) :=
  match n with
  | O => Ret (c, k)
  | S n =>
      '(r, c, k) ← outputRound crc32 socketSend c k;
      match r with
      | Went => outputRounds socketSend n c k
      | _ => Ret (c, k)
      end
  end.

(** The requests that a program sends: urgent or not, with a response or not, their properties and bodies. *)
Fixpoint sendRequests (l : list (bool * bool * list (bytes * bytes) * bytes)) (c : Conn CI CO HA) : outcome (Conn CI CO HA) :=
  match l with
  | [] => Ret c
  | (urg, nor, ps, body) :: r =>
      b ← requestBuilder urg nor ps body;
      '(_, c) ← sendRequest b c;
      sendRequests r c
  end.
End stack.

Definition requestPayload (x : bool * bool * list (bytes * bytes) * bytes) : bytes := payloadOf (encodeProps x.1.2) x.2.

Definition requestOk (x : bool * bool * list (bytes * bytes) * bytes) : Prop :=
  okRequest x.1.2 x.2 /\ Forall is_byte (requestPayload x).

(** * Lemmas *)

Section facts.
Context (crc32 : Z -> bytes -> Z).
Context (crc_app : forall x a b, crc32 (crc32 x a) b = crc32 x (a ++ b)).
Context (crc_range : forall x a, 0 <= crc32 x a < 2 ^ 32).
Context {CI CO : Type} {FI : Flate CI} {FO : Flate CO}.
Context {HA HB : Type} (dB : Dispatcher CI CO HB).
Context (handle : bytes -> MessageIn -> HB -> HB).
Context (handlers_ok : forall p h, _handlers dB !! p = Some h -> forall m c, h m c = Ret (tt, mkConn (_io c) (handle p m (appState c)))).
Context (has_default : is_Some (_handlers dB !! lit "*")).

(** A message that carries a frame. *)
Definition frameMessage (m : Message) : Prop := type m = Binary /\ wfMessage m /\ Z.of_nat (length (text m)) <= 65535.

Lemma frameMessage_intro f : Forall is_byte f -> Z.of_nat (length f) <= 65535 -> frameMessage (mkMessage Binary f).
Proof.
  intros Hb Hl. split; [done|]. split; [|done]. split; cbn [type text]; [set_solver|done|unfold kMaxMessageLength; lia|unfold Binary; lia].
Qed.

Lemma sendRequests_ok l : forall (A : Conn CI CO HA) (B : BLIPIO CI CO) h log got,
  Inv crc32 (_io A) B h log got -> Forall requestOk l ->
  exists A', sendRequests l A = Ret A' /\ Inv crc32 (_io A') B h (log ++ map requestPayload l) got.
Proof.
  induction l as [|[[[urg nor] ps] body] l IH]; intros A B h log got HI Hl; cbn [sendRequests map]; [exists A; now rewrite app_nil_r|].
  apply Forall_cons in Hl as [[Hr _] Hl]. destruct (send_step crc32 urg nor ps body (_io A) B h log got HI Hr) as (b & fut & A1 & E1 & E2 & HI1).
  destruct (IH (mkConn A1 (appState A)) B h _ got HI1 Hl) as (A' & E' & HI'). exists A'. rewrite E1. cbn [mbind outcome_bind].
  unfold sendRequest, onIO, zoom. rewrite E2. cbn [mbind outcome_bind]. rewrite E'. split; [done|]. now rewrite <- app_assoc in HI'.
Qed.

(** Rounds of the output task: the messages they send, to whatever socket, and what these do when they arrive. *)
Lemma outputRounds_ok fuel n : forall (A : Conn CI CO HA) (B : Conn CI CO HB) h log got,
  Inv crc32 (_io A) (_io B) h log (map contentOf got) -> Z.of_nat (length log) + 1 < 2 ^ 64 -> Forall (Forall is_byte) log ->
  exists A' B' ms got' h',
    (forall SK (socketSend : Message -> ST SK unit) k k', sendAll socketSend ms k = Ret k' -> outputRounds crc32 socketSend n A k = Ret (A', k'))
    /\ arriving crc32 dB fuel ms B = Ret B' /\ appState B' = handled dB handle got' (appState B)
    /\ Forall frameMessage ms /\ Inv crc32 (_io A') (_io B') h' log (map contentOf (got ++ got')).
Proof.
  induction n as [|n IH]; intros A B h log got HI Hb Hby.
  { exists A, B, [], [], h. rewrite app_nil_r. split_and!; try done. intros SK snd k k' [= <-]. reflexivity. }
  destruct (items (_outbox (_io A))) as [|m r] eqn:E.
  { exists A, B, [], [], h. rewrite app_nil_r. split_and!; try done. intros SK snd k k' [= <-]. cbn [outputRounds]. unfold outputRound, onIO, zoom.
    rewrite (frameGenerator_idle crc32 (_io A)) by (apply HI || done). now destruct A. }
  destruct (frame_step crc32 crc_app crc_range fuel (_io A) (_io B) h log _ m r HI E Hb) as (f & A1 & B1 & res & h1 & E1 & E2 & HI1).
  destruct (frame_wf crc32 crc_app (_io A) (_io B) h log _ m r HI E Hb Hby) as (f' & A1' & E1' & Hf1 & Hf2).
  rewrite E1 in E1'. injection E1' as <- <-.
  set (got1 := match res with Some mi => [mi] | None => [] end).
  assert (exists c1, inputRound crc32 dB fuel (RValue (mkMessage Binary f)) B = Ret (true, c1) /\ _io c1 = B1 /\ appState c1 = handled dB handle got1 (appState B)) as (c1 & Ec1 & Hio & Happ).
  { rewrite (inputRound_run crc32 dB fuel f res B1 B E2). unfold got1. destruct res as [mi|]; [|eexists; split; [reflexivity|done]].
    unfold mbind, ST_bind. rewrite (dispatch_handles dB handle handlers_ok has_default). eexists. split; [reflexivity|]. done. }
  assert (map contentOf got ++ match res with Some mi => [contentOf mi] | None => [] end = map contentOf (got ++ got1)) as Egot
    by (rewrite map_app; unfold got1; now destruct res).
  rewrite Egot, <- Hio in HI1.
  destruct (IH (mkConn A1 (appState A)) c1 h1 log (got ++ got1) HI1 Hb Hby) as (A' & B' & ms & got' & h' & Hout & Harr & Hst & Hms & HI').
  exists A', B', (mkMessage Binary f :: ms), (got1 ++ got'), h'. split_and!.
  - intros SK snd k k' Hs. cbn [sendAll] in Hs. cbn [outputRounds]. unfold outputRound, onIO, zoom. rewrite E1. cbn [mbind outcome_bind].
    destruct (snd (mkMessage Binary f) k) as [[u k1]| |]; [|discriminate|discriminate]. cbn [mbind outcome_bind] in *. now apply Hout.
  - cbn [arriving]. rewrite Ec1. cbn [mbind outcome_bind]. exact Harr.
  - rewrite Hst, Happ. symmetry. apply handled_app.
  - constructor; [now apply frameMessage_intro|done].
  - now rewrite app_assoc.
Qed.
End facts.

Lemma wsSend_each {S} {IS : IStream S} isServer masks addrs (masks_ok : forall n, wfMask (masks n)) ms : forall (st : S) p cr n,
  Forall frameMessage ms -> writable st ->
  sendAll (wsSend isServer masks addrs) ms (mkWS (Some st) p false cr n) = sendEach isServer masks addrs ms (mkWS (Some st) p false cr n).
Proof.
  induction ms as [|m ms IH]; intros st p cr n Hms Hw; [done|]. apply Forall_cons in Hms as [(Ht & _ & Hl) Hms]. cbn [sendAll sendEach].
  destruct (send_message_ok masks addrs masks_ok isServer m st p cr n Hw) as (st1 & E & Hw1 & _); [now right|].
  assert (wsSend isServer masks addrs m (mkWS (Some st) p false cr n) = Ret (tt, mkWS (Some st1) p (type m =? Close) cr (Datatypes.S n))) as -> by (unfold wsSend; now rewrite E).
  rewrite E. cbn [mbind outcome_bind snd].
  rewrite Ht. change (Binary =? Close) with false. now apply IH.
Qed.

Lemma deliver_frames ms : Forall frameMessage ms -> deliver ms = ms ++ [abnormal].
Proof.
  induction 1 as [|m ms (Ht & _) _ IH]; [done|]. cbn [deliver]. unfold isControl. rewrite Ht. change ((Binary =? Ping) || (Binary =? Pong)) with false.
  change (Binary =? Close) with false. cbn [app]. now rewrite IH.
Qed.

(** The input task takes the messages that arrive, and goes on with the rest. *)
Lemma inputTask_arriving {CI CO HB} {FI : Flate CI} {FO : Flate CO} crc32 (dB : Dispatcher CI CO HB) fuel ms rest : forall (B B' : Conn CI CO HB),
  Forall frameMessage ms -> arriving crc32 dB fuel ms B = Ret B' ->
  inputTask crc32 dB fuel false (map RValue ms ++ rest) B = inputTask crc32 dB fuel false rest B'.
Proof.
  induction ms as [|m ms IH]; intros B B' Hms Harr; cbn [arriving map app inputTask] in *; [now injection Harr as <-|].
  apply Forall_cons in Hms as [(Ht & _) Hms]. unfold mbind at 1, ST_bind at 1.
  destruct (inputRound crc32 dB fuel (RValue m) B) as [[go B1]| |] eqn:E; [|discriminate|discriminate]. cbn [mbind outcome_bind] in Harr.
  assert (go = true) as ->; [|now apply IH].
  unfold inputRound in E. rewrite Ht in E. change (Binary =? Close) with false in E. unfold mbind, ST_bind in E.
  destruct (onIO _ B) as [[[msg|] c]| |]; [|now injection E|discriminate|discriminate].
  destruct (dispatchRequest dB msg c) as [[[] c2]| |]; [|discriminate|discriminate].
  now injection E.
Qed.

(** * The stack *)

Section whole.
Context (crc32 : Z -> bytes -> Z).
Context (crc_app : forall x a b, crc32 (crc32 x a) b = crc32 x (a ++ b)).
Context (crc_range : forall x a, 0 <= crc32 x a < 2 ^ 32).
Context {CI CO : Type} {FI : Flate CI} {FO : Flate CO}.
Context {HA HB : Type} (dB : Dispatcher CI CO HB).
Context (handle : bytes -> MessageIn -> HB -> HB).
Context (handlers_ok : forall p h, _handlers dB !! p = Some h -> forall m c, h m c = Ret (tt, mkConn (_io c) (handle p m (appState c)))).
Context (has_default : is_Some (_handlers dB !! lit "*")).
Context {S R : Type} {IS : IStream S} {IR : IStream R}.

(** C35: uncompressed requests that one side of a connection sends, before the other side sends it anything, come,
    over its WebSocket and any two streams, to the handlers of the other side, which return without throwing,
    responding or using the connection, and of which there is one for any profile ("*").  The requests are taken;
    whatever number of rounds its output task has made, they went out as binary messages without an error (a
    request that must wait for an acknowledgement stays in the sender's queues); when the other side's stream delivers
    the bytes written, in any pieces, its WebSocket yields those messages and its input task takes them without
    failing, up to the end; and the requests sent are, up to order, those still in the sender's queues and those
    that were given to the handler of their profile, once each, whole and unchanged. *)
Theorem blip_over_websocket fuel recvIsServer masks addrs masks' addrs' ci co ci' co' (hA : HA) (hB : HB) l :
  (forall n, wfMask (masks n)) -> (forall n, wfMask (masks' n)) -> quiet co -> Forall requestOk l -> Z.of_nat (length l) + 1 < 2 ^ 64 ->
  exists A1 : Conn CI CO HA, sendRequests l (mkConn (newIO crc32 ci co) hA) = Ret A1
    /\ forall n (s : S), writable s -> sent s = [] ->
       exists (A2 : Conn CI CO HA) ws s', outputRounds crc32 (wsSend (negb recvIsServer) masks addrs) n A1 (newWS s) = Ret (A2, ws) /\ _stream ws = Some s'
       /\ forall r : R, readable r -> writable r -> content r = sent s' ->
          exists N ms ws2 B got, receiveAll recvIsServer masks' addrs' N (newWS r) = Ret (ms, ws2)
            /\ inputTask crc32 dB fuel false (map RValue ms) (mkConn (newIO crc32 ci' co') hB) = Ret (true, B)
            /\ appState B = handled dB handle got hB
            /\ map requestPayload l ≡ₚ map opayload (boxes (_io A2)) ++ map contentOf got.
Proof.
  intros Hm Hm' Hq Hl Hb.
  destruct (sendRequests_ok crc32 (HA := HA) l (mkConn (newIO crc32 ci co) hA) (newIO crc32 ci' co') [] [] [] (Inv_start crc32 ci co ci' co' Hq) Hl) as (A1 & E1 & HI1).
  exists A1. split; [exact E1|]. intros n s Hw Hs. cbn [app] in HI1.
  destruct (outputRounds_ok crc32 crc_app crc_range dB handle handlers_ok has_default fuel n A1 (mkConn (newIO crc32 ci' co') hB) [] (map requestPayload l) [])
    as (A2 & B2 & ms & got & h2 & Hout & Harr & Hst & Hms & HI2); [exact HI1|now rewrite length_map|apply Forall_map; eapply Forall_impl; [exact Hl|]; now intros x [_ ?]|].
  assert (Forall wfMessage ms) as Hwf by (eapply Forall_impl; [exact Hms|]; now intros m (_ & ? & _)).
  assert (Forall (fits (negb recvIsServer)) ms) as Hfit by (eapply Forall_impl; [exact Hms|]; intros m (_ & _ & ?); now right).
  destruct (session_ok (R := R) recvIsServer masks addrs masks' addrs' ms s Hm Hm' Hwf Hfit Hw Hs) as (ws & s' & Es & Hstr & Hrecv).
  exists A2, ws, s'. split; [apply Hout; unfold newWS in *; now rewrite wsSend_each|]. split; [exact Hstr|]. intros r Hr Hwr Hc.
  destruct (Hrecv r Hr Hwr Hc) as (ws2 & Er). rewrite deliver_frames in Er by done.
  destruct (input_end_resolves crc32 dB fuel false [] (RValue abnormal) B2) as (B & EB & _ & _ & _ & HB' & _); [reflexivity|apply HI2|].
  eexists _, _, ws2, B, got. split; [exact Er|]. rewrite map_app. split; [|split].
  - etransitivity; [exact (inputTask_arriving crc32 dB fuel ms [RValue abnormal] _ B2 Hms Harr)|exact EB].
  - rewrite HB', Hst. reflexivity.
  - apply HI2.
Qed.
End whole.

(** Two requests, and four rounds of the output task. *)
Definition sampleRequests : list (bool * bool * list (bytes * bytes) * bytes) :=
  [(false, false, [(lit "Profile", lit "echo")], lit "hello"); (true, true, [], lit "now")].

Definition piecesOf (b : bytes) : Chunks.t := Chunks.mk (match b with [] => [] | _ => [b] end) [].

Lemma piecesOf_readable b : readable (piecesOf b).
Proof. cbn. destruct b; now constructor. Qed.

Lemma piecesOf_content b : content (piecesOf b) = b.
Proof. cbn. destruct b; cbn; [reflexivity|now rewrite app_nil_r]. Qed.

Lemma blip_over_websocket_witness :
  exists (A1 A2 : Conn unit unit unit) ws s' N ms ws2 B got,
    sendRequests sampleRequests (mkConn (newIO sumCrc tt tt) tt) = Ret A1
    /\ outputRounds (FO := null_codec) sumCrc (wsSend false (fun _ => [1; 2; 3; 4]) (fun _ => 0%nat)) 4 A1 (newWS (Chunks.mk [] [])) = Ret (A2, ws)
    /\ _stream ws = Some s'
    /\ receiveAll true (fun _ => [5; 6; 7; 8]) (fun _ => 0%nat) N (newWS (piecesOf (Chunks.out s'))) = Ret (ms, ws2)
    /\ inputTask (FI := null_codec) sumCrc noteDispatcher 0 false (map RValue ms) (mkConn (newIO sumCrc tt tt) []) = Ret (true, B)
    /\ appState B = handled noteDispatcher (fun p m h => h ++ [(p, _body m)]) got []
    /\ map requestPayload sampleRequests ≡ₚ map opayload (boxes (_io A2)) ++ map contentOf got.
Proof.
  assert (forall (k : bytes), length k = 4%nat -> Forall is_byte k -> forall n : nat, wfMask ((fun _ => k) n)) as Hmask by (intros k H1 H2 n; now split).
  destruct (@blip_over_websocket sumCrc sumCrc_app sumCrc_range unit unit null_codec null_codec unit (list (bytes * bytes)) noteDispatcher
    (fun p m h => h ++ [(p, _body m)]) noteDispatcher_ok (ex_intro _ _ eq_refl) Chunks.t Chunks.t Chunks.stream Chunks.stream
    0%nat true (fun _ => [1; 2; 3; 4]) (fun _ => 0%nat) (fun _ => [5; 6; 7; 8]) (fun _ => 0%nat) tt tt tt tt tt [] sampleRequests) as (A1 & E1 & H1).
  - apply Hmask; [reflexivity|]. repeat constructor; unfold is_byte; lia.
  - apply Hmask; [reflexivity|]. repeat constructor; unfold is_byte; lia.
  - intros x. reflexivity.
  - repeat constructor; try (now unfold nulFree; vm_compute; intuition congruence); try (vm_compute; congruence).
  - reflexivity.
  - destruct (H1 4%nat (Chunks.mk [] []) I eq_refl) as (A2 & ws & s' & E2 & Es & H2).
    destruct (H2 (piecesOf (Chunks.out s'))) as (N & ms & ws2 & B & got & E3 & E4 & E5 & E6).
    + apply piecesOf_readable.
    + exact I.
    + apply piecesOf_content.
    + exists A1, A2, ws, s', N, ms, ws2, B, got. split; [exact E1|]. split; [exact E2|]. split; [exact Es|]. split; [exact E3|]. split; [exact E4|]. split; [exact E5|exact E6].
Defined.
